(* ===== verification/_CoqProject ===== *)
-Q . S2P
Prelude.v
CString.v
Layout.v
Kernel.v
Spinlock.v
Kalloc.v
Vm.v
VmTree.v
VmSpace.v
VmOps.v
VmSize.v
VmCopy.v
Bio.v
Store.v
Fs.v
FsAlloc.v
FsInode.v
FsMap.v
FsFile.v
FsRw.v
FsDir.v
Log.v
LogStore.v
FsImage.v
Examples.v
Boot.v
Mp.v
Apic.v
TextTools.v
Printf.v
Kbd.v
Sleepers.v
Console.v
ConsoleScreen.v
ConsoleInput.v
Umalloc.v
Programs.v
Ide.v
Mkfs.v
MkfsImage.v
MkfsCorrect.v
Pipe.v
Sys.v
File.v
Proc.v
Seg.v
Trap.v
ProcInv.v
Syscall.v
SysMem.v
Exec.v
Sysfile.v
FdInv.v
Fork.v
VmExamples.v
KernelExamples.v
TrapExamples.v
Shell.v
