(* ===== verification/Prelude.v ===== *)
(** * xv6-64: a verification development

    xv6-64 is a teaching operating system for 64-bit x86 in C: a kernel with
    processes, virtual memory, a logging file system, pipes and a console, a
    shell with a few user programs, a boot loader and the tool that builds the
    disk image.  This library translates the C code into Rocq functions and proves
    what makes them correct.

    ** How code is represented

    A C function becomes a Rocq function of the same name.  Code that changes
    state is a computation of the monad [M S A] of Kernel.v over an explicit state
    [S]; its outcomes are a value, a panic, a fault (a null or unmapped pointer),
    a switch to the scheduler, and running out of the loop bound of the model.
    Components with states of their own are combined by lenses ([Lens]), so that
    each is verified on its part: [core] (the process table and the locks held) is
    shared by all of them, Sys.v puts the kernel together, Trap.v adds the
    console.  A function that can sleep ends in [Sched]; the code after the sleep
    is a definition with the suffix [_resume], and the local variables of a
    sleeping process are kept in a map of frames.  Integers are [Z] with the
    wrap-around of their C type written out ([u8], [u16], [u32], [u64], [i16],
    [i32]).  Memory is a map of pages, a function from addresses to bytes, or the
    list of the bytes of a buffer; structures on the disk and in page tables are
    read and written in those bytes.

    Interleavings are step relations over these functions: instructions of several
    CPUs in Spinlock.v, critical sections of the process table in ProcInv.v,
    calls, wakeups, kills and interrupts in Pipe.v, Ide.v and ConsoleInput.v,
    prefixes of the disk writes (power failures) in Log.v.

    ** Files

    Shared: Prelude.v (integers, slices, little-endian words, tactics, hints);
    CString.v (string.c, string functions of ulib.c); Layout.v (fs.h); Kernel.v
    (the monad; processes, sleep and wakeup of proc.c, sleeplock.c).

    Kernel.
    - Spinlock.v: spinlock.c.  Mutual exclusion, no spurious panics, interrupts
      off while a lock is held; Kernel.v's locks refine it.
    - Kalloc.v: kalloc.c.  The free list is a stack of distinct pages.
    - Vm.v: vm.c; VmTree.v, VmSpace.v, VmOps.v, VmSize.v, VmCopy.v: what
      walkpgdir, mappages, allocuvm, deallocuvm, freevm and copyuvm do to the map
      of an address space and to the free pages.  Seg.v: seginit, syscallinit.
    - Bio.v: bio.c and memide.c.  The cache refines a map from blocks to contents.
    - Log.v: log.c.  Transactions are atomic under a crash at any disk write, and
      recovery may itself be interrupted.  Store.v states as a class what fs.c
      needs of the block layer; LogStore.v proves that log.c over bio.c has it.
    - Fs.v: fs.c; FsAlloc.v, FsInode.v, FsMap.v, FsFile.v, FsRw.v, FsDir.v: block
      allocation, inodes, block maps, reading, writing, directories.
    - Pipe.v, Sys.v, File.v: pipe.c, file.c.  Pipes are queues under every
      interleaving, and nobody sleeps who could go on.
    - Proc.v: proc.c; ProcInv.v: the invariant of the process table under every
      interleaving of its critical sections, with the processes that are inside
      [fork] and the child each is making as ghost state, and the fairness of the
      scheduler over the steps of its loop.
    - Syscall.v, Sysfile.v, Exec.v: syscall.c, sysproc.c, sysfile.c, exec.c;
      SysMem.v: what sbrk does to memory and size, pointer arguments; FdInv.v:
      the reference counts of open files; Fork.v: fork on every branch.
    - Trap.v: trap.c.  Clock interrupts, faults, killed processes, the table.
    - Printf.v, Kbd.v, Console.v, ConsoleScreen.v, ConsoleInput.v: printf.c, kbd.c,
      console.c, uart.c.  Formatted output against a reading of the format, keys
      against a keyboard layout, the terminal, the line editor, its readers.
      Sleepers.v has what console and disk share about sleeping processes.
    - Ide.v: ide.c.  A model of the controller, which decodes the register writes
      of the driver, takes the requests in order, one at a time.
    - Mp.v, Apic.v: mp.c, lapic.c, ioapic.c, uart.c.  The processors are found and
      told apart, interrupts are routed, the clock is read.

    Around the kernel.
    - Boot.v: bootmain.c.  The kernel is loaded where its header says.
    - Mkfs.v, MkfsImage.v, MkfsCorrect.v: mkfs.c.  The image boots, and shows the
      files it was built from; this uses the invariants of the file system.
    - Shell.v: sh.c.  The parser ends, inverts printing, and every program of a
      line is started with the right descriptors.
    - Umalloc.v: umalloc.c.  The heap invariant under malloc and free, the exact
      size of a block and the fate of every free address.
    - TextTools.v, Programs.v: grep.c, wc.c, cat.c, echo.c, kill.c, ln.c, mkdir.c,
      rm.c, ls.c, init.c, zombie.c, over a class of system calls and its laws.

    FsImage.v, Examples.v, VmExamples.v, KernelExamples.v and TrapExamples.v have
    concrete states on which the theorems are applied.

    ** Parameters

    What is not C code of the repository is an argument: [kend] (the linker's
    [end]) with the contents of memory, the vectors the build generates, the
    return addresses in stack frames, the answers of devices (status registers,
    scan codes, sectors, clock), [sbrk] succeeding or failing (it refuses to go
    past 64 GB), the pieces in which a [read] returns a file, and the locking of
    the console's inode in [consoleread], which is taken not to sleep.  The laws assumed of such an argument are hypotheses
    of the theorems, and each has an instance in an example.

    ** Loop bounds

    A loop without structural recursion takes a bound and its theorem shows that
    the bound given is enough: the number of nodes for lists through buffers and
    free blocks, pages or bytes left for copying loops, the length of the line for
    the parser, [NPROC] for scans of the process table.  Loops that wait for a
    device take the number of polls, with theorems for every time the device may
    need (Apic.v).  [Diverge] is otherwise only the code after a call that never
    returns.

    ** Not modelled

    main.c calls the initialisers in order and starts the other processors, which
    run assembly.  The assembly files switch modes and save registers; the model
    has the points where a process gives up and gets back the CPU instead, and
    not the saved contexts.  usertests.c, forktest.c and stressfs.c are tests.
    The main of grep.c, the waiting of ide.c and bootmain.c for a ready
    controller, and the halting of an idle CPU in [scheduler] have no definition.
    [sched] has every guard of the source but the test of the interrupt flag, which
    is off whenever a spinlock is held (Spinlock.v).  Spinlocks are followed
    instruction by instruction only in Spinlock.v, where a CPU calls [release] only
    for a lock it holds; the other files take critical sections as steps.  Memory
    is sequentially consistent.

    The register numbers, bits, command codes and other one-line constants (mmu.h,
    kbd.h, mp.h, traps.h, buf.h, console.c, ide.c, ioapic.c, lapic.c, uart.c) are
    definitions under the names of the source; PROJECT.json maps the code that uses
    them and does not list most of them one by one. *)

From Stdlib Require Export ZArith Lia ssreflect.
From stdpp Require Export base list gmap strings numbers functions.

#[global] Open Scope general_if_scope.
#[global] Open Scope Z_scope.
#[global] Set Default Goal Selector "!".

Ltac Zify.zify_post_hook ::= Z.to_euclidean_division_equations.

(** ** Machine integers

    A w-bit integer of the source is a [Z]; the casts below write the
    wrap-around out. *)

Definition u8 (x : Z) : Z := x mod 2 ^ 8.
Definition u16 (x : Z) : Z := x mod 2 ^ 16.
Definition u32 (x : Z) : Z := x mod 2 ^ 32.
Definition u64 (x : Z) : Z := x mod 2 ^ 64.
Definition i16 (x : Z) : Z := (x + 2 ^ 15) mod 2 ^ 16 - 2 ^ 15.
Definition i32 (x : Z) : Z := (x + 2 ^ 31) mod 2 ^ 32 - 2 ^ 31.
Definition i64 (x : Z) : Z := (x + 2 ^ 63) mod 2 ^ 64 - 2 ^ 63.

Lemma u32_small x : 0 ≤ x < 2 ^ 32 → u32 x = x.
Proof. apply Z.mod_small. Qed.

Lemma u64_small x : 0 ≤ x < 2 ^ 64 → u64 x = x.
Proof. apply Z.mod_small. Qed.

Lemma u16_small x : 0 ≤ x < 2 ^ 16 → u16 x = x.
Proof. apply Z.mod_small. Qed.

Lemma u8_small x : 0 ≤ x < 2 ^ 8 → u8 x = x.
Proof. apply Z.mod_small. Qed.

Lemma u32_range x : 0 ≤ u32 x < 2 ^ 32.
Proof. by apply Z.mod_pos_bound. Qed.

Lemma u64_range x : 0 ≤ u64 x < 2 ^ 64.
Proof. by apply Z.mod_pos_bound. Qed.

Lemma i32_small x : - 2 ^ 31 ≤ x < 2 ^ 31 → i32 x = x.
Proof. intros. rw /i32 Z.mod_small; lia. Qed.

Lemma i16_small x : - 2 ^ 15 ≤ x < 2 ^ 15 → i16 x = x.
Proof. intros. rw /i16 Z.mod_small; lia. Qed.

(** C truth values. *)
Definition cbool (b : bool) : Z := if b then 1 else 0.

(** ** Lists indexed by [Z] *)

Abbreviation lenZ l := (Z.of_nat (length l)).

(** [slice off n l] is [l[off .. off+n)]; [splice off src l] overwrites
    [l[off .. off + length src)] with [src], as [memmove] between distinct
    objects does. *)
Definition slice {A} (off n : Z) (l : list A) : list A :=
  take (Z.to_nat n) (drop (Z.to_nat off) l).

Definition splice {A} (off : Z) (src l : list A) : list A :=
  take (Z.to_nat off) l ++ src ++ drop (Z.to_nat off + length src) l.

Definition nthZ (l : list Z) (i : Z) : Z := nth (Z.to_nat i) l 0.
Definition setZ {A} (i : Z) (x : A) (l : list A) : list A := <[Z.to_nat i := x]> l.

Section slices.
Context {A : Type}.
Implicit Types (l src : list A) (off n : Z).

Lemma length_slice off n l :
  0 ≤ off → 0 ≤ n → off + n ≤ lenZ l → lenZ (slice off n l) = n.
Proof. intros. rw /slice length_take length_drop. lia. Qed.

Lemma length_splice off src l :
  0 ≤ off → off + lenZ src ≤ lenZ l → length (splice off src l) = length l.
Proof.
  intros. rw /splice !length_app length_take length_drop. lia.
Qed.

(** Reading back what was written. *)
Lemma slice_splice_eq off n src l :
  0 ≤ off → n = lenZ src → off + n ≤ lenZ l →
  slice off n (splice off src l) = src.
Proof.
  intros ? -> ?. rw /slice /splice Nat2Z.id drop_app_length'.
  - rw length_take. lia.
  - by rw take_app_length.
Qed.

Lemma slice_splice_before off src l o n :
  0 ≤ o → 0 ≤ n → o + n ≤ off → off ≤ lenZ l →
  slice o n (splice off src l) = slice o n l.
Proof.
  intros. rw /slice /splice.
  rw drop_app_le; [rw length_take; lia|].
  rw take_app_le; [rw length_drop length_take; lia|].
  apply list_eq => i. destruct (decide (Z.of_nat i < n)).
  - rw !lookup_take_lt; [lia..|]. rw !lookup_drop lookup_take_lt //. lia.
  - rw !lookup_take_ge //; lia.
Qed.

Lemma slice_splice_after off src l o n :
  0 ≤ off → 0 ≤ n → off + lenZ src ≤ o → off + lenZ src ≤ lenZ l →
  slice o n (splice off src l) = slice o n l.
Proof.
  intros. rw /slice /splice.
  rw drop_app_ge; [rw length_take; lia|].
  rw drop_app_ge; [rw length_take; lia|].
  rw drop_drop length_take. do 2 f_equal. lia.
Qed.

(** The two disjoint cases together. *)
Lemma slice_splice_ne off src l o n :
  0 ≤ off → 0 ≤ o → 0 ≤ n → off + lenZ src ≤ lenZ l →
  o + n ≤ off ∨ off + lenZ src ≤ o →
  slice o n (splice off src l) = slice o n l.
Proof.
  intros ???? [?|?]; [apply slice_splice_before|apply slice_splice_after]; lia.
Qed.

Lemma lookup_slice off n l i :
  0 ≤ off → slice off n l !! i =
    if decide (Z.of_nat i < n) then l !! (Z.to_nat off + i)%nat else None.
Proof.
  intros. rw /slice. case_decide.
  - rw lookup_take_lt; [lia|]. by rw lookup_drop.
  - rw lookup_take_ge; [lia|]. done.
Qed.

Lemma lookup_splice off src l i :
  0 ≤ off → off + lenZ src ≤ lenZ l →
  splice off src l !! i =
    if decide (off ≤ Z.of_nat i < off + lenZ src)
    then src !! (i - Z.to_nat off)%nat else l !! i.
Proof.
  intros. rw /splice. case_decide as Hi.
  - rw lookup_app_r; [rw length_take; lia|].
    rw length_take lookup_app_l; [lia|]. f_equal. lia.
  - destruct (decide (Z.of_nat i < off)).
    + rw lookup_app_l; [rw length_take; lia|].
      rw lookup_take_lt; [lia|done].
    + rw lookup_app_r; [rw length_take; lia|].
      rw length_take lookup_app_r; [lia|].
      rw lookup_drop. f_equal. lia.
Qed.

Lemma splice_id off n l :
  0 ≤ off → 0 ≤ n → off + n ≤ lenZ l → splice off (slice off n l) l = l.
Proof.
  intros. apply list_eq => i.
  rw lookup_splice; [done|rw length_slice; lia|].
  rw length_slice; [lia..|]. case_decide; [|done].
  rw lookup_slice; [done|]. case_decide; [|lia]. f_equal. lia.
Qed.

Lemma slice_all l n : n = lenZ l → slice 0 n l = l.
Proof. intros ->. rw /slice drop_0 Nat2Z.id. by rw take_ge. Qed.

Lemma slice_app_split off n m l :
  0 ≤ off → 0 ≤ n → 0 ≤ m →
  slice off (n + m) l = slice off n l ++ slice (off + n) m l.
Proof.
  intros. rw /slice Z2Nat.inj_add // Z2Nat.inj_add // -drop_drop. by rw take_take_drop.
Qed.
End slices.

Lemma Forall_slice {A} (P : A → Prop) off n l : Forall P l → Forall P (slice off n l).
Proof. intros. by apply Forall_take, Forall_drop. Qed.

Lemma Forall_splice {A} (P : A → Prop) off src l :
  Forall P l → Forall P src → Forall P (splice off src l).
Proof.
  intros. rw /splice !Forall_app. auto using Forall_take, Forall_drop.
Qed.

Lemma fmap_seqZ_ext {A} (f g : Z → A) o o' m :
  (∀ i, 0 ≤ i < m → f (o + i) = g (o' + i)) → f <$> seqZ o m = g <$> seqZ o' m.
Proof.
  intros Hfg. rw /seqZ -!list_fmap_compose. apply list_fmap_ext. intros k i Hi.
  apply list_elem_of_lookup_2, elem_of_seq in Hi. simpl. rw !(Z.add_comm (Z.of_nat i)). apply Hfg. lia.
Qed.

Lemma nthZ_setZ_eq i x (l : list Z) : 0 ≤ i < lenZ l → nthZ (setZ i x l) i = x.
Proof.
  intros Hi. rw /nthZ /setZ. rw nth_lookup list_lookup_insert_eq //. lia.
Qed.

Lemma nthZ_setZ_ne i j x (l : list Z) : 0 ≤ i → 0 ≤ j → i ≠ j → nthZ (setZ i x l) j = nthZ l j.
Proof.
  intros Hi Hj Hij. rw /nthZ /setZ. rw !nth_lookup list_lookup_insert_ne //. lia.
Qed.

Lemma length_setZ {A} i (x : A) l : length (setZ i x l) = length l.
Proof. apply length_insert. Qed.

Lemma nthZ_splice off src (l : list Z) j :
  0 ≤ off → off + lenZ src ≤ lenZ l → 0 ≤ j →
  nthZ (splice off src l) j = if decide (off ≤ j < off + lenZ src) then nthZ src (j - off) else nthZ l j.
Proof.
  intros Ho Hl Hj. rw /nthZ !nth_lookup lookup_splice // Z2Nat.id //.
  case_decide; [|done]. rw (_ : Z.to_nat (j - off) = (Z.to_nat j - Z.to_nat off)%nat) //. lia.
Qed.

Lemma nthZ_slice off n (l : list Z) j :
  0 ≤ off → 0 ≤ j < n → nthZ (slice off n l) j = nthZ l (off + j).
Proof.
  intros Ho Hj. rw /nthZ !nth_lookup lookup_slice // decide_True; [lia|].
  by rw (_ : (Z.to_nat off + Z.to_nat j)%nat = Z.to_nat (off + j)); [lia|].
Qed.

(** Removing an element that is not there. *)
Lemma filter_ne_notin {A} `{EqDecision A} (x : A) (l : list A) : x ∉ l → filter (λ y, y ≠ x) l = l.
Proof.
  induction l as [|y l IH]; [done|]. intros [Hne Hin]%not_elem_of_cons.
  rw filter_cons decide_True; [congruence|]. by rw IH.
Qed.

Lemma length_filter_ne {A} `{EqDecision A} (x : A) (l : list A) :
  NoDup l → x ∈ l → lenZ l = lenZ (filter (λ y, y ≠ x) l) + 1.
Proof.
  induction l as [|y l IH]; [by intros _ ?%not_elem_of_nil|].
  intros [Hy Hnd]%list.NoDup_cons [->|Hin]%elem_of_cons.
  - rw filter_cons decide_False; [auto|]. rw filter_ne_notin //=. lia.
  - rw filter_cons decide_True; [by intros ->|]. simpl. rw Nat2Z.inj_succ IH //. lia.
Qed.

(** Or of parts that do not overlap. *)
Lemma lor_add x y k : 0 ≤ k → 0 ≤ y < 2 ^ k → Z.lor (x * 2 ^ k) y = x * 2 ^ k + y.
Proof.
  intros Hk Hy. rw -Z.shiftl_mul_pow2 //.
  assert (Z.land (Z.shiftl x k) y = 0) as H0; [|rw Z.add_nocarry_lxor // Z.lxor_lor //].
  apply Z.bits_inj' => i Hi. rw Z.land_spec Z.bits_0 Z.shiftl_spec //.
  destruct (Z.lt_ge_cases i k); [rw Z.testbit_neg_r; [lia|done]|].
  apply andb_false_intro2. destruct (Z.eq_dec y 0) as [->|]; [apply Z.bits_0|].
  apply Z.bits_above_log2; [lia|]. apply Z.log2_lt_pow2; [lia|].
  apply (Z.lt_le_trans _ (2 ^ k)); [lia|]. apply Z.pow_le_mono_r; lia.
Qed.

(** ** Little-endian integers in byte lists *)

Definition byte (b : Z) : Prop := 0 ≤ b < 256.
Abbreviation bytes := (Forall byte).

Fixpoint le_decode (l : list Z) : Z :=
  match l with
  | [] => 0
  | b :: l => b + 256 * le_decode l
  end.

Fixpoint le_encode (n : nat) (z : Z) : list Z :=
  match n with
  | O => []
  | S n => z mod 256 :: le_encode n (z / 256)
  end.

Lemma length_le_encode n z : length (le_encode n z) = n.
Proof. revert z. induction n; intros; simpl; auto. Qed.

Lemma bytes_le_encode n z : bytes (le_encode n z).
Proof.
  revert z. induction n; intros; simpl; constructor; auto.
  rw /byte. lia.
Qed.

(** A store truncates, as an assignment to a narrower C object does. *)
Lemma le_decode_encode n z : le_decode (le_encode n z) = z mod 256 ^ Z.of_nat n.
Proof.
  revert z. induction n as [|n IH]; intros z; simpl.
  - by rw Z.mod_1_r.
  - rw IH Nat2Z.inj_succ Z.pow_succ_r; [lia|].
    rw Z.rem_mul_r; [lia|apply Z.pow_pos_nonneg; lia|]. lia.
Qed.

Lemma le_encode_decode l : bytes l → le_encode (length l) (le_decode l) = l.
Proof.
  induction 1 as [|b l Hb Hl IH]; simpl; [done|]. rw /byte in Hb. f_equal.
  - lia.
  - etrans; [|exact IH]. f_equal. lia.
Qed.

Lemma le_decode_range l : bytes l → 0 ≤ le_decode l < 256 ^ lenZ l.
Proof.
  induction 1 as [|b l Hb Hl IH]; simpl length.
  - simpl. change (256 ^ Z.of_nat 0) with 1. lia.
  - rw Nat2Z.inj_succ Z.pow_succ_r; [lia|]. simpl. rw /byte in Hb. lia.
Qed.

(** Typed loads and stores of [k]-byte integers in a byte buffer. *)
Definition load (k : nat) (off : Z) (d : list Z) : Z := le_decode (slice off (Z.of_nat k) d).
Definition store (k : nat) (off v : Z) (d : list Z) : list Z := splice off (le_encode k v) d.
Abbreviation load16 := (load 2).
Abbreviation load32 := (load 4).
Abbreviation load64 := (load 8).
Abbreviation store16 := (store 2).
Abbreviation store32 := (store 4).
Abbreviation store64 := (store 8).

Section loadstore.
Implicit Types (k j : nat) (off v o : Z) (d : list Z).

Lemma load_store_eq k off v d :
  0 ≤ off → off + Z.of_nat k ≤ lenZ d → load k off (store k off v d) = v mod 256 ^ Z.of_nat k.
Proof.
  intros. rw /load /store slice_splice_eq ?length_le_encode //. apply le_decode_encode.
Qed.

Lemma load_store_small k off v d :
  0 ≤ off → off + Z.of_nat k ≤ lenZ d → 0 ≤ v < 256 ^ Z.of_nat k →
  load k off (store k off v d) = v.
Proof. intros. rw load_store_eq // Z.mod_small //. Qed.

Lemma load_store_ne k j off v d o :
  0 ≤ off → 0 ≤ o → off + Z.of_nat k ≤ lenZ d →
  o + Z.of_nat j ≤ off ∨ off + Z.of_nat k ≤ o →
  load j o (store k off v d) = load j o d.
Proof.
  intros. rw /load /store slice_splice_ne //; rw ?length_le_encode; lia.
Qed.

Lemma length_store k off v d :
  0 ≤ off → off + Z.of_nat k ≤ lenZ d → length (store k off v d) = length d.
Proof. intros. rw length_splice // length_le_encode. lia. Qed.

Lemma load_range k off d : bytes d → 0 ≤ load k off d < 256 ^ Z.of_nat k.
Proof.
  intros Hd. rw /load.
  pose proof (le_decode_range _ (Forall_slice _ off (Z.of_nat k) _ Hd)) as Hr.
  assert (lenZ (slice off (Z.of_nat k) d) ≤ Z.of_nat k) by (rw /slice length_take; lia).
  split; [lia|]. eapply Z.lt_le_trans; [apply Hr|]. apply Z.pow_le_mono_r; lia.
Qed.

Lemma bytes_store k off v d : bytes d → bytes (store k off v d).
Proof. intros. apply Forall_splice; auto using bytes_le_encode. Qed.
End loadstore.

(** ** Automation *)

Create HintDb xv6.
#[export] Hint Resolve bytes_le_encode bytes_store u32_range u64_range : xv6.

(** Case analysis on the boolean comparisons of the code. *)
Ltac bool_cases :=
  repeat match goal with
  | |- context [?a <? ?b] => destruct (Z.ltb_spec a b)
  | |- context [?a <=? ?b] => destruct (Z.leb_spec a b)
  | |- context [?a =? ?b] => destruct (Z.eqb_spec a b)
  end.
