(* ===== verification/CString.v ===== *)
(** * Bytes and strings in memory (string.c, and its user copy in ulib.c)

    Memory is a function from addresses to bytes.  A string that is only read
    is given by its characters, [p i] for the source's [p[i]]; a function that
    fills a buffer other than its source returns the bytes it stores. *)

From S2P Require Import Prelude.

Abbreviation mem := (Z → Z).

Definition mset (a v : Z) (m : mem) : mem := λ x, if x =? a then v else m x.
(** The half word and the word at an address. *)
Definition word16 (m : mem) (a : Z) : Z := le_decode [m a; m (a + 1)].
Definition word32 (m : mem) (a : Z) : Z := le_decode [m a; m (a + 1); m (a + 2); m (a + 3)].

(** ** string.c *)

(** [rep stosb] and [rep stosl] (x86.h). *)
Fixpoint stosb (n : nat) (dst c : Z) (m : mem) : mem :=
  match n with
  | O => m
  | S n => stosb n (dst + 1) c (mset dst (u8 c) m)
  end.

Definition mset32 (a v : Z) (m : mem) : mem :=
  mset (a + 3) (v / 2 ^ 24 mod 256) (mset (a + 2) (v / 2 ^ 16 mod 256)
    (mset (a + 1) (v / 2 ^ 8 mod 256) (mset a (v mod 256) m))).

Fixpoint stosl (n : nat) (dst c : Z) (m : mem) : mem :=
  match n with
  | O => m
  | S n => stosl n (dst + 4) c (mset32 dst c m)
  end.

(** [(c<<24)|(c<<16)|(c<<8)|c] *)
Definition fill_word (c : Z) : Z :=
  i32 (Z.lor (Z.lor (Z.lor (Z.shiftl c 24) (Z.shiftl c 16)) (Z.shiftl c 8)) c).

Definition memset (dst c n : Z) (m : mem) : mem :=
  if (dst mod 4 =? 0) && (n mod 4 =? 0) then
    stosl (Z.to_nat (n / 4)) dst (fill_word (Z.land c 0xFF)) m
  else stosb (Z.to_nat n) dst c m.

Fixpoint memcmp (n : nat) (s1 s2 : Z → Z) (i : Z) : Z :=
  match n with
  | O => 0
  | S n => if negb (s1 i =? s2 i) then s1 i - s2 i else memcmp n s1 s2 (i + 1)
  end.

(** The two loops of [memmove]. *)
Fixpoint copy_up (n : nat) (d s : Z) (m : mem) : mem :=
  match n with
  | O => m
  | S n => copy_up n (d + 1) (s + 1) (mset d (m s) m)
  end.
Fixpoint copy_down (n : nat) (d s : Z) (m : mem) : mem :=
  match n with
  | O => m
  | S n => copy_down n (d - 1) (s - 1) (mset (d - 1) (m (s - 1)) m)
  end.

Definition memmove (dst src n : Z) (m : mem) : mem :=
  if (src <? dst) && (src + n >? dst) then copy_down (Z.to_nat n) (dst + n) (src + n) m
  else copy_up (Z.to_nat n) dst src m.

Definition memcpy (dst src n : Z) (m : mem) : mem := memmove dst src n m.

Fixpoint strncmp_from (n : nat) (p q : Z → Z) (i : Z) : Z :=
  match n with
  | O => 0
  | S n' => if negb (p i =? 0) && (p i =? q i) then strncmp_from n' p q (i + 1)
            else u8 (p i) - u8 (q i)
  end.
Definition strncmp (p q : Z → Z) (n : Z) : Z := strncmp_from (Z.to_nat n) p q 0.

(** The bytes [strncpy] stores: the string, then zeros. *)
Fixpoint strncpy_from (n : nat) (t : Z → Z) (i : Z) : list Z :=
  match n with
  | O => []
  | S n => if t i =? 0 then 0 :: replicate n 0 else t i :: strncpy_from n t (i + 1)
  end.
Definition strncpy (t : Z → Z) (n : Z) : list Z := strncpy_from (Z.to_nat n) t 0.

Fixpoint safestrcpy_from (n : nat) (t : Z → Z) (i : Z) : list Z :=
  match n with
  | O => [0]
  | S n => if t i =? 0 then [0; 0] else t i :: safestrcpy_from n t (i + 1)
  end.
(** The bytes [safestrcpy] stores: none when [n <= 0].  After a NUL within the
    bound it stores the final NUL again, one byte further. *)
Definition safestrcpy (t : Z → Z) (n : Z) : list Z :=
  if n <=? 0 then [] else safestrcpy_from (Z.to_nat (n - 1)) t 0.

(** [None]: no NUL within the bound. *)
Fixpoint strlen_from (fuel : nat) (s : Z → Z) (n : Z) : option Z :=
  match fuel with
  | O => None
  | S fuel => if s n =? 0 then Some n else strlen_from fuel s (n + 1)
  end.
Definition strlen (fuel : nat) (s : Z → Z) : option Z := strlen_from fuel s 0.

(** ** ulib.c *)

Fixpoint strcpy_from (fuel : nat) (t : Z → Z) (i : Z) : option (list Z) :=
  match fuel with
  | O => None
  | S fuel => if t i =? 0 then Some [0] else (cons (t i)) <$> strcpy_from fuel t (i + 1)
  end.
Definition strcpy (fuel : nat) (t : Z → Z) : option (list Z) := strcpy_from fuel t 0.

Fixpoint strcmp_from (fuel : nat) (p q : Z → Z) (i : Z) : option Z :=
  match fuel with
  | O => None
  | S fuel => if negb (p i =? 0) && (p i =? q i) then strcmp_from fuel p q (i + 1)
              else Some (u8 (p i) - u8 (q i))
  end.
Definition strcmp (fuel : nat) (p q : Z → Z) : option Z := strcmp_from fuel p q 0.

(** The position of the character, [Some None] for a null result. *)
Fixpoint strchr_from (fuel : nat) (s : Z → Z) (c i : Z) : option (option Z) :=
  match fuel with
  | O => None
  | S fuel => if s i =? 0 then Some None else if s i =? c then Some (Some i) else strchr_from fuel s c (i + 1)
  end.
Definition strchr (fuel : nat) (s : Z → Z) (c : Z) : option (option Z) := strchr_from fuel s c 0.

Fixpoint atoi_from (fuel : nat) (s : Z → Z) (i n : Z) : option Z :=
  match fuel with
  | O => None
  | S fuel => if (48 <=? s i) && (s i <=? 57) then atoi_from fuel s (i + 1) (i32 (n * 10 + s i - 48)) else Some n
  end.
Definition atoi (fuel : nat) (s : Z → Z) : option Z := atoi_from fuel s 0 0.

(** User programs get a forward copy only. *)
Definition umemmove (dst src n : Z) (m : mem) : mem := copy_up (Z.to_nat n) dst src m.

(** ** The bytes of a name *)

(** The characters before the first NUL, at most [n]. *)
Fixpoint cname (n : nat) (p : Z → Z) (i : Z) : list Z :=
  match n with
  | O => []
  | S n => if p i =? 0 then [] else p i :: cname n p (i + 1)
  end.

(** ** Copies *)

Lemma copy_up_spec n d s m a :
  d ≤ s ∨ s + Z.of_nat n ≤ d →
  copy_up n d s m a = if decide (d ≤ a < d + Z.of_nat n) then m (s + (a - d)) else m a.
Proof.
  revert d s m. induction n as [|n IH]; intros d s m H; simpl; [by rw decide_False; [lia|]|].
  rw IH; [lia|]. rw /mset. repeat case_decide; bool_cases; try lia; try (f_equal; lia).
Qed.

Lemma copy_down_spec n d s m a :
  s ≤ d →
  copy_down n d s m a = if decide (d - Z.of_nat n ≤ a < d) then m (s - (d - a)) else m a.
Proof.
  revert d s m. induction n as [|n IH]; intros d s m H; simpl; [by rw decide_False; [lia|]|].
  rw IH; [lia|]. rw /mset. repeat case_decide; bool_cases; try lia; try (f_equal; lia).
Qed.

(** [memmove] moves the [n] bytes as they were, whatever the overlap of
    source and destination, and changes nothing else. *)
Theorem memmove_correct dst src n m a :
  memmove dst src n m a = if decide (dst ≤ a < dst + n) then m (src + (a - dst)) else m a.
Proof.
  rw /memmove. destruct (Z.ltb_spec src dst) as [H1|H1]; [destruct (Z.gtb_spec (src + n) dst) as [H2|H2]|]; simpl.
  - rw copy_down_spec; [lia|]. repeat case_decide; try lia; f_equal; lia.
  - destruct (decide (0 ≤ n)).
    + rw copy_up_spec; [lia|]. by rw Z2Nat.id.
    + rw (_ : Z.to_nat n = 0%nat); [lia|]. by rw decide_False; [lia|].
  - destruct (decide (0 ≤ n)).
    + rw copy_up_spec; [lia|]. by rw Z2Nat.id.
    + rw (_ : Z.to_nat n = 0%nat); [lia|]. by rw decide_False; [lia|].
Qed.

(** The user-level [memmove] is correct when the destination does not lie
    inside the source. *)
Lemma umemmove_correct dst src n m a :
  0 ≤ n → dst ≤ src ∨ src + n ≤ dst →
  umemmove dst src n m a = if decide (dst ≤ a < dst + n) then m (src + (a - dst)) else m a.
Proof. intros. rw /umemmove copy_up_spec; [lia|]. by rw Z2Nat.id. Qed.

(** Ulib.c's [memmove] is not a [memmove]: it only copies upwards, so moving
    a buffer one byte up repeats its first byte. *)
Theorem umemmove_overlap m a n :
  2 ≤ n → 0 ≤ a → umemmove (a + 1) a n m (a + n) = m a.
Proof.
  intros Hn _. rw /umemmove. assert (∀ k d m, (0 < k)%nat → copy_up k (d + 1) d m (d + Z.of_nat k) = m d) as H.
  { clear. induction k as [|k IH]; intros d m Hk; [lia|]. destruct k as [|k].
    - simpl. rw /mset. bool_cases; [done|lia].
    - change (copy_up (S (S k)) (d + 1) d m) with (copy_up (S k) (d + 1 + 1) (d + 1) (mset (d + 1) (m d) m)).
      rw (_ : d + Z.of_nat (S (S k)) = (d + 1) + Z.of_nat (S k)); [lia|]. rw IH; [lia|].
      rw /mset. bool_cases; [done|lia]. }
  rw -(H (Z.to_nat n) a m); [lia|]. by rw Z2Nat.id; [lia|].
Qed.

(** ** Fills *)

Lemma stosb_spec n dst c m a :
  stosb n dst c m a = if decide (dst ≤ a < dst + Z.of_nat n) then u8 c else m a.
Proof.
  revert dst m. induction n as [|n IH]; intros dst m; simpl; [by rw decide_False; [lia|]|].
  rw IH /mset. repeat case_decide; bool_cases; try lia; done.
Qed.

(** The word [memset] stores holds the byte four times. *)
Lemma memset_word c :
  let w := fill_word (Z.land c 0xFF) in
  w mod 256 = u8 c ∧ w / 2 ^ 8 mod 256 = u8 c ∧ w / 2 ^ 16 mod 256 = u8 c ∧ w / 2 ^ 24 mod 256 = u8 c.
Proof.
  cbv zeta. rw (Z.land_ones c 8 ltac:(done)) -/(u8 c).
  pose proof (Z.mod_pos_bound c (2 ^ 8) ltac:(lia)) as Hb. rw -/(u8 c) in Hb. generalize dependent (u8 c).
  intros x Hx. assert (Forall (λ b, fill_word b mod 256 = b ∧ fill_word b / 2 ^ 8 mod 256 = b ∧
    fill_word b / 2 ^ 16 mod 256 = b ∧ fill_word b / 2 ^ 24 mod 256 = b) (seqZ 0 256)) as H.
  { apply (bool_decide_unpack _). vm_compute. exact I. }
  rw list.Forall_forall in H. apply H, elem_of_seqZ. lia.
Qed.

Lemma stosl_spec n dst w c m a :
  w mod 256 = c → w / 2 ^ 8 mod 256 = c → w / 2 ^ 16 mod 256 = c → w / 2 ^ 24 mod 256 = c →
  stosl n dst w m a = if decide (dst ≤ a < dst + 4 * Z.of_nat n) then c else m a.
Proof.
  intros H1 H2 H3 H4. revert dst m. induction n as [|n IH]; intros dst m; simpl; [by rw decide_False; [lia|]|].
  rw IH /mset32 H1 H2 H3 H4 /mset. repeat case_decide; bool_cases; try lia; done.
Qed.

(** [memset] fills exactly the [n] bytes with the low byte of [c], by words
    or by bytes. *)
Theorem memset_correct dst c n m a :
  0 ≤ n → memset dst c n m a = if decide (dst ≤ a < dst + n) then u8 c else m a.
Proof.
  intros Hn. rw /memset. destruct (Z.eqb_spec (dst mod 4) 0); [destruct (Z.eqb_spec (n mod 4) 0) as [Hm|]|]; simpl.
  - destruct (memset_word c) as (H1 & H2 & H3 & H4). rw (stosl_spec _ _ _ (u8 c)) //.
    rw Z2Nat.id; [lia|]. by rw (_ : 4 * (n / 4) = n); [lia|].
  - rw stosb_spec Z2Nat.id //.
  - rw stosb_spec Z2Nat.id //.
Qed.

(** ** Names *)

Definition chars (p : Z → Z) : Prop := ∀ i, byte (p i).

Lemma strncmp_from_eq n p q i :
  chars p → chars q → strncmp_from n p q i = 0 ↔ cname n p i = cname n q i.
Proof.
  intros Hp Hq. revert i. induction n as [|n IH]; intros i; simpl; [done|].
  destruct (Hp i), (Hq i). destruct (Z.eqb_spec (p i) 0) as [Ep|Ep]; simpl.
  - rw Ep !u8_small; [lia|lia|]. destruct (Z.eqb_spec (q i) 0); split; try done; lia.
  - destruct (Z.eqb_spec (p i) (q i)) as [E|E].
    + rw IH -E. destruct (Z.eqb_spec (p i) 0); [done|]. split; [by intros ->|by intros [= ->]].
    + rw !u8_small; [lia|lia|]. destruct (Z.eqb_spec (q i) 0); split; try done; [lia..|]. intros [= ? _]. lia.
Qed.

Lemma cname_replicate0 k (r : list Z) n : (0 < n)%nat → cname k (nthZ (0 :: r)) 0 = [].
Proof. destruct k; done. Qed.

(** The name stored by [strncpy] is the name it was given. *)
Lemma cname_shift n x (r : list Z) i : 0 ≤ i → cname n (nthZ (x :: r)) (i + 1) = cname n (nthZ r) i.
Proof.
  revert i. induction n as [|n IH]; intros i Hi; simpl; [done|].
  assert (nthZ (x :: r) (i + 1) = nthZ r i) as -> by (rw /nthZ (_ : Z.to_nat (i + 1) = S (Z.to_nat i)); [lia|done]).
  destruct (nthZ r i =? 0); [done|]. f_equal. apply IH. lia.
Qed.

Lemma cname_strncpy n t i : cname n (nthZ (strncpy_from n t i)) 0 = cname n t i.
Proof.
  revert i. induction n as [|n IH]; intros i; [done|]. simpl. destruct (Z.eqb_spec (t i) 0); [done|].
  change (nthZ (t i :: strncpy_from n t (i + 1)) 0) with (t i). destruct (Z.eqb_spec (t i) 0); [done|].
  f_equal. rw (cname_shift n _ _ 0) //.
Qed.

Lemma chars_strncpy t n : chars t → chars (nthZ (strncpy t n)).
Proof.
  intros Ht i. rw /nthZ /strncpy. generalize 0 at 1. generalize (Z.to_nat i).
  induction (Z.to_nat n) as [|k IH]; intros j o; [by destruct j|].
  simpl. destruct (_ =? _); destruct j as [|j]; simpl; [done| |apply Ht|apply IH].
  rw nth_lookup. by destruct (replicate k 0 !! j) eqn:E; [apply lookup_replicate in E as [-> _]|].
Qed.

Lemma length_strncpy t n : 0 ≤ n → lenZ (strncpy t n) = n.
Proof.
  intros Hn. rw /strncpy. transitivity (Z.of_nat (Z.to_nat n)); [|lia]. f_equal. generalize 0 at 1. clear Hn.
  induction (Z.to_nat n) as [|k IH]; intros i; [done|]. simpl. destruct (_ =? _); simpl; [by rw length_replicate|by rw IH].
Qed.

(** Names compare equal with [strncmp] exactly when they have the same
    characters up to a NUL or the bound, and [strncpy] stores a name that
    compares equal to its source, in exactly [n] bytes. *)
Theorem strncmp_strncpy p q n :
  chars p → chars q → 0 ≤ n →
  (strncmp p q n = 0 ↔ cname (Z.to_nat n) p 0 = cname (Z.to_nat n) q 0) ∧
  strncmp (nthZ (strncpy p n)) p n = 0 ∧ lenZ (strncpy p n) = n.
Proof.
  intros Hp Hq Hn. split_and!; [by apply strncmp_from_eq| |by apply length_strncpy].
  apply strncmp_from_eq; [by apply chars_strncpy|done|apply cname_strncpy].
Qed.

Lemma strlen_from_spec fuel s i :
  (∃ k, (k < fuel)%nat ∧ s (i + Z.of_nat k) = 0) →
  ∃ r, strlen_from fuel s i = Some r ∧ i ≤ r ∧ s r = 0 ∧ ∀ j, i ≤ j < r → s j ≠ 0.
Proof.
  revert i. induction fuel as [|fuel IH]; intros i (k & Hk & H0); [lia|]. simpl.
  destruct (Z.eqb_spec (s i) 0); [exists i; split_and!; [done|lia|done|lia]|].
  destruct (IH (i + 1)) as (r & Hr & H1 & H2 & H3).
  { destruct k as [|k]; [by rw Z.add_0_r in H0|]. exists k. split; [lia|]. by rw (_ : i + 1 + Z.of_nat k = i + Z.of_nat (S k)); [lia|]. }
  exists r. split_and!; [done|lia|done|]. intros j Hj. destruct (decide (j = i)) as [->|]; [done|apply H3; lia].
Qed.

(** [strlen] returns the position of the first NUL, whenever there is one. *)
Theorem strlen_correct fuel s k :
  (Z.of_nat k < Z.of_nat fuel) → s (Z.of_nat k) = 0 →
  ∃ r, strlen fuel s = Some r ∧ 0 ≤ r ≤ Z.of_nat k ∧ s r = 0 ∧ ∀ j, 0 ≤ j < r → s j ≠ 0.
Proof.
  intros Hk H0. destruct (strlen_from_spec fuel s 0) as (r & Hr & H1 & H2 & H3); [exists k; split; [lia|done]|].
  exists r. split_and!; try done. destruct (decide (r ≤ Z.of_nat k)); [done|]. destruct (H3 (Z.of_nat k)); [lia|done].
Qed.
