(* ===== verification/Layout.v ===== *)
(** * The on-disk format (fs.h)

    The structures fs.c and mkfs.c lay over the bytes of a block: the super
    block, the inodes and the directory entries, with the accessors the code
    writes as field accesses through a cast pointer.  Each is a round trip:
    what a store leaves is what the load reads, and the other structures of
    the block keep their contents. *)

From S2P Require Import Prelude.

Definition BSIZE : Z := 512.
Definition FSSIZE : Z := 1000.
Definition ROOTINO : Z := 1.
Definition NDIRECT : Z := 12.
Definition NINDIRECT : Z := BSIZE / 4.
Definition MAXFILE : Z := NDIRECT + NINDIRECT.
Definition BPB : Z := BSIZE * 8.
Definition DIRSIZ : Z := 14.

(** A disk block's worth of bytes. *)
Definition blk (d : list Z) : Prop := length d = Z.to_nat BSIZE ∧ bytes d.

Lemma blk_len d : blk d → lenZ d = 512.
Proof. by intros [-> _]. Qed.

Lemma blk_splice off src d :
  blk d → bytes src → 0 ≤ off → off + lenZ src ≤ 512 → blk (splice off src d).
Proof.
  intros Hd Hs Ho Hl. pose proof (blk_len _ Hd) as Hlen. destruct Hd as [Hd Hb].
  split; [|by apply Forall_splice]. rw length_splice //. lia.
Qed.

Lemma blk_store k off v d :
  blk d → 0 ≤ off → off + Z.of_nat k ≤ 512 → blk (store k off v d).
Proof.
  intros. apply blk_splice; [done|apply bytes_le_encode|done|]. by rw length_le_encode.
Qed.

(** ** The super block *)

Record superblock := mkSb {
  sb_size : Z; sb_nblocks : Z; sb_ninodes : Z; sb_nlog : Z;
  sb_logstart : Z; sb_inodestart : Z; sb_bmapstart : Z;
}.

(** The structure laid over the first bytes of block 1. *)
Definition sb_decode (d : list Z) : superblock :=
  mkSb (load32 0 d) (load32 4 d) (load32 8 d) (load32 12 d)
    (load32 16 d) (load32 20 d) (load32 24 d).

(** ** Inodes *)

Record dinode := mkDinode {
  di_type : Z; di_major : Z; di_minor : Z; di_nlink : Z; di_size : Z; di_addrs : list Z;
}.

Definition sizeof_dinode : Z := 64.
Definition IPB : Z := BSIZE / sizeof_dinode.
Definition IBLOCK (i : Z) (sb : superblock) : Z := u32 (i / IPB + sb_inodestart sb).
Definition BBLOCK (b : Z) (sb : superblock) : Z := u32 (b / BPB + sb_bmapstart sb).

(** An array of 32-bit words in a block. *)
Fixpoint get_words (n : nat) (off : Z) (d : list Z) : list Z :=
  match n with
  | O => []
  | S n => load32 off d :: get_words n (off + 4) d
  end.

Fixpoint put_words (off : Z) (ws : list Z) (d : list Z) : list Z :=
  match ws with
  | [] => d
  | w :: ws => put_words (off + 4) ws (store32 off w d)
  end.

(** The [k]-th [struct dinode] of a block. *)
Definition get_dinode (k : Z) (d : list Z) : dinode :=
  let o := k * sizeof_dinode in
  mkDinode (i16 (load16 o d)) (i16 (load16 (o + 2) d)) (i16 (load16 (o + 4) d))
    (i16 (load16 (o + 6) d)) (load32 (o + 8) d) (get_words 13 (o + 12) d).

Definition put_dinode (k : Z) (x : dinode) (d : list Z) : list Z :=
  let o := k * sizeof_dinode in
  let d := store16 o (di_type x) d in
  let d := store16 (o + 2) (di_major x) d in
  let d := store16 (o + 4) (di_minor x) d in
  let d := store16 (o + 6) (di_nlink x) d in
  let d := store32 (o + 8) (di_size x) d in
  put_words (o + 12) (di_addrs x) d.

(** A dinode whose fields fit their types. *)
Record dinode_ok (x : dinode) : Prop := {
  dk_type : - 2 ^ 15 ≤ di_type x < 2 ^ 15;
  dk_major : - 2 ^ 15 ≤ di_major x < 2 ^ 15;
  dk_minor : - 2 ^ 15 ≤ di_minor x < 2 ^ 15;
  dk_nlink : - 2 ^ 15 ≤ di_nlink x < 2 ^ 15;
  dk_size : 0 ≤ di_size x < 2 ^ 32;
  dk_len : length (di_addrs x) = 13%nat;
  dk_addrs : Forall (λ w, 0 ≤ w < 2 ^ 32) (di_addrs x);
}.

Section words.
Implicit Types (off o : Z) (ws d : list Z).

Lemma put_words_spec off ws d :
  blk d → 0 ≤ off → off + 4 * lenZ ws ≤ 512 → Forall (λ w, 0 ≤ w < 2 ^ 32) ws →
  blk (put_words off ws d) ∧ get_words (length ws) off (put_words off ws d) = ws ∧
  (∀ k o, 0 ≤ o → o + Z.of_nat k ≤ off ∨ off + 4 * lenZ ws ≤ o → load k o (put_words off ws d) = load k o d).
Proof.
  revert off d. induction ws as [|w ws IH]; intros off d Hd Ho Hl Hw; [done|].
  pose proof (blk_len _ Hd) as Hlen. apply list.Forall_cons in Hw as [Hw Hws]. cbn [length] in Hl.
  destruct (IH (off + 4) (store32 off w d)) as (H1 & H2 & H3); [apply blk_store; [done|lia|lia]|lia|lia|done|].
  cbn [put_words get_words length]. split_and!; [done| |].
  - f_equal; [|done]. rw H3; [lia|lia|]. apply load_store_small; lia.
  - intros k o Ho' Hor. rw H3; [lia|lia|]. apply load_store_ne; lia.
Qed.

Lemma get_words_ext n off d d' :
  0 ≤ off → (∀ o, off ≤ o → o + 4 ≤ off + 4 * Z.of_nat n → load32 o d' = load32 o d) → get_words n off d' = get_words n off d.
Proof.
  revert off. induction n as [|n IH]; intros off Ho Hl; [done|]. simpl. f_equal; [apply Hl; lia|].
  apply IH; [lia|]. intros o H1 H2. apply Hl; lia.
Qed.

Lemma length_get_words n off d : length (get_words n off d) = n.
Proof. revert off. induction n; intros; simpl; auto. Qed.

Lemma get_words_range n off d : bytes d → Forall (λ w, 0 ≤ w < 2 ^ 32) (get_words n off d).
Proof.
  intros Hb. revert off. induction n as [|n IH]; intros off; simpl; constructor; [|done].
  by apply (load_range 4).
Qed.
End words.

(** A signed 16-bit field survives a store and a load. *)
Lemma i16_store16 o v d :
  0 ≤ o → o + 2 ≤ lenZ d → - 2 ^ 15 ≤ v < 2 ^ 15 → i16 (load16 o (store16 o v d)) = v.
Proof. intros. rw load_store_eq //. rw /i16. change (256 ^ Z.of_nat 2) with (2 ^ 16). lia. Qed.

Section dinodes.
Implicit Types (k j : Z) (d : list Z) (x : dinode).

(** Outside the inode nothing changes, and the block stays a block. *)
Lemma put_dinode_frame k x d :
  blk d → 0 ≤ k < IPB → length (di_addrs x) = 13%nat → Forall (λ w, 0 ≤ w < 2 ^ 32) (di_addrs x) →
  blk (put_dinode k x d) ∧
  (∀ n o, 0 ≤ o → o + Z.of_nat n ≤ k * 64 ∨ k * 64 + 64 ≤ o → load n o (put_dinode k x d) = load n o d).
Proof.
  rw /IPB. change (BSIZE / sizeof_dinode) with 8. intros Hd Hk Hl Ha. rw /put_dinode /sizeof_dinode.
  set (d1 := store16 (k * 64) _ d). set (d2 := store16 (k * 64 + 2) _ d1). set (d3 := store16 (k * 64 + 4) _ d2).
  set (d4 := store16 (k * 64 + 6) _ d3). set (d5 := store32 (k * 64 + 8) _ d4).
  assert (blk d1) as H1 by (apply blk_store; [done|lia|lia]). assert (blk d2) as H2 by (apply blk_store; [done|lia|lia]).
  assert (blk d3) as H3 by (apply blk_store; [done|lia|lia]). assert (blk d4) as H4 by (apply blk_store; [done|lia|lia]).
  assert (blk d5) as H5 by (apply blk_store; [done|lia|lia]).
  destruct (put_words_spec (k * 64 + 12) (di_addrs x) d5) as (Hb & _ & Hf); [done|lia|rw Hl; lia|done|].
  split; [done|]. intros n o Ho Hor. rw Hf; [done|rw Hl; lia|].
  rw /d5 load_store_ne; [lia|lia|rw (blk_len _ H4); lia|lia|]. rw /d4 load_store_ne; [lia|lia|rw (blk_len _ H3); lia|lia|].
  rw /d3 load_store_ne; [lia|lia|rw (blk_len _ H2); lia|lia|]. rw /d2 load_store_ne; [lia|lia|rw (blk_len _ H1); lia|lia|].
  rw /d1 load_store_ne //; rw ?(blk_len _ Hd); lia.
Qed.

(** Reading back the inode that was written. *)
Lemma get_put_dinode k x d :
  blk d → 0 ≤ k < IPB → dinode_ok x → get_dinode k (put_dinode k x d) = x.
Proof.
  rw /IPB. change (BSIZE / sizeof_dinode) with 8. intros Hd Hk [Ht Hma Hmi Hnl Hsz Hl Ha].
  rw /get_dinode /put_dinode /sizeof_dinode.
  set (d1 := store16 (k * 64) _ d). set (d2 := store16 (k * 64 + 2) _ d1). set (d3 := store16 (k * 64 + 4) _ d2).
  set (d4 := store16 (k * 64 + 6) _ d3). set (d5 := store32 (k * 64 + 8) _ d4).
  assert (blk d1) as H1 by (apply blk_store; [done|lia|lia]). assert (blk d2) as H2 by (apply blk_store; [done|lia|lia]).
  assert (blk d3) as H3 by (apply blk_store; [done|lia|lia]). assert (blk d4) as H4 by (apply blk_store; [done|lia|lia]).
  assert (blk d5) as H5 by (apply blk_store; [done|lia|lia]).
  destruct (put_words_spec (k * 64 + 12) (di_addrs x) d5) as (Hb & Hg & Hf); [done|lia|rw Hl; lia|done|].
  rw !Hf; try (rw Hl; lia); try lia.
  pose proof (blk_len _ Hd) as L0. pose proof (blk_len _ H1) as L1. pose proof (blk_len _ H2) as L2.
  pose proof (blk_len _ H3) as L3. pose proof (blk_len _ H4) as L4.
  rw Hl in Hg. rw Hg.
  assert (∀ o, k * 64 ≤ o → o + 2 ≤ k * 64 + 8 → load16 o d5 = load16 o d4) as E5.
  { intros o ? ?. rw /d5. apply load_store_ne; lia. }
  rw !E5; try lia.
  assert (i16 (load16 (k * 64 + 6) d4) = di_nlink x) as -> by (apply i16_store16; [lia|lia|done]).
  assert (i16 (load16 (k * 64 + 4) d4) = di_minor x) as ->.
  { rw /d4 load_store_ne; [lia..|]. apply i16_store16; [lia|lia|done]. }
  assert (i16 (load16 (k * 64 + 2) d4) = di_major x) as ->.
  { rw /d4 load_store_ne; [lia..|]. rw /d3 load_store_ne; [lia..|]. apply i16_store16; [lia|lia|done]. }
  assert (i16 (load16 (k * 64) d4) = di_type x) as ->.
  { rw /d4 load_store_ne; [lia..|]. rw /d3 load_store_ne; [lia..|]. rw /d2 load_store_ne; [lia..|].
    apply i16_store16; [lia|lia|done]. }
  rw /d5 load_store_small; [lia..|]. by destruct x.
Qed.

Lemma get_put_dinode_ne k j x d :
  blk d → 0 ≤ k < IPB → 0 ≤ j < IPB → j ≠ k →
  length (di_addrs x) = 13%nat → Forall (λ w, 0 ≤ w < 2 ^ 32) (di_addrs x) →
  get_dinode j (put_dinode k x d) = get_dinode j d.
Proof.
  intros Hd Hk Hj Hne Hl Ha. destruct (put_dinode_frame k x d Hd Hk Hl Ha) as [_ Hf].
  rw /get_dinode /sizeof_dinode. rw !Hf; try lia. f_equal. apply get_words_ext; [lia|]. intros o ? ?. apply Hf; lia.
Qed.
End dinodes.
