(* ===== verification/Kernel.v ===== *)
(** * The kernel monad and the state shared by every subsystem

    [M S A] is a computation of the kernel over a state [S]: it returns, calls
    [panic], faults, hands the CPU to the scheduler (the process went to sleep,
    yielded or exited) or exhausts the loop bound of the model.

    [core] is the part of the kernel state every subsystem touches: the
    spinlocks this CPU holds and the process table.  The operations on it are
    those of spinlock.c as seen by one CPU ([acquire], [release]; Spinlock.v
    has the field-level model and its refinement) and the sleep/wakeup part of
    proc.c and sleeplock.c. *)

From S2P Require Import Prelude.

(** ** Outcomes *)

Inductive outcome (S A : Type) : Type :=
| Ret (a : A) (s : S)
| Panic (msg : string) (s : S)   (** [panic(msg)]: the machine halts *)
| Fault (s : S)                  (** a wild or null pointer dereference *)
| Sched (s : S)                  (** [swtch] into the scheduler *)
| Diverge.                       (** the model's loop bound is exhausted *)
Arguments Ret {S A} a s.
Arguments Panic {S A} msg s.
Arguments Fault {S A} s.
Arguments Sched {S A} s.
Arguments Diverge {S A}.

Definition M (S A : Type) : Type := S → outcome S A.

Definition bindo {S A B} (o : outcome S A) (f : A → M S B) : outcome S B :=
  match o with
  | Ret a s => f a s
  | Panic m s => Panic m s
  | Fault s => Fault s
  | Sched s => Sched s
  | Diverge => Diverge
  end.

#[global] Instance M_ret {S} : MRet (M S) := λ A a s, Ret a s.
#[global] Instance M_bind {S} : MBind (M S) := λ A B f m s, bindo (m s) f.

Definition panic {S A} (msg : string) : M S A := λ s, Panic msg s.
Definition fault {S A} : M S A := λ s, Fault s.
Definition diverge {S A} : M S A := λ _, Diverge.
Definition gets {S A} (f : S → A) : M S A := λ s, Ret (f s) s.
Definition modify {S} (f : S → S) : M S unit := λ s, Ret tt (f s).
Definition when {S} (b : bool) (m : M S unit) : M S unit := if b then m else mret tt.

(** Evaluation of a sequence, one step at a time. *)
Section run.
Context {S A B : Type}.
Implicit Types (m : M S A) (f : A → M S B) (s : S).

Lemma run_bind m f s a s' : m s = Ret a s' → (m ≫= f) s = f a s'.
Proof. rw /mbind /M_bind => ->. done. Qed.

Lemma run_bind_panic m f s msg s' : m s = Panic msg s' → (m ≫= f) s = Panic msg s'.
Proof. rw /mbind /M_bind => ->. done. Qed.

Lemma run_bind_sched m f s s' : m s = Sched s' → (m ≫= f) s = Sched s'.
Proof. rw /mbind /M_bind => ->. done. Qed.

Lemma run_bind_inv m f s b s' :
  (m ≫= f) s = Ret b s' → ∃ a s1, m s = Ret a s1 ∧ f a s1 = Ret b s'.
Proof. rw /mbind /M_bind. destruct (m s); simpl; naive_solver. Qed.

Lemma run_gets (g : S → A) f s : (gets g ≫= f) s = f (g s) s.
Proof. done. Qed.

Lemma run_modify (g : S → S) (f : unit → M S B) s : (modify g ≫= f) s = f tt (g s).
Proof. done. Qed.

Lemma run_ret (a : A) f s : (mret a ≫= f) s = f a s.
Proof. done. Qed.

Lemma run_mret (a : A) s : (mret a : M S A) s = Ret a s.
Proof. done. Qed.

Lemma run_assoc {C} m f (g : B → M S C) s :
  ((m ≫= f) ≫= g) s = (m ≫= (λ a, f a ≫= g)) s.
Proof. rw /mbind /M_bind. by destruct (m s). Qed.
End run.

(** [total m s Q]: run from [s], [m] returns, and [Q] holds of what it returns. *)
Definition total {S A} (m : M S A) (s : S) (Q : A → S → Prop) : Prop :=
  ∃ a s', m s = Ret a s' ∧ Q a s'.

Section total_rules.
Context {S A B : Type}.
Implicit Types (m : M S A) (f : A → M S B) (s : S).

Lemma total_ret (a : A) s (Q : A → S → Prop) : Q a s → total (mret a) s Q.
Proof. intros. by exists a, s. Qed.

Lemma total_bind m f s (R : A → S → Prop) (Q : B → S → Prop) :
  total m s R → (∀ a s', R a s' → total (f a) s' Q) → total (m ≫= f) s Q.
Proof.
  intros (a & s1 & Hm & HR) Hf. destruct (Hf _ _ HR) as (b & s2 & Hf2 & HQ).
  exists b, s2. split; [|done]. by rw (run_bind _ _ _ _ _ Hm).
Qed.

Lemma total_run m f s a s' (Q : B → S → Prop) : m s = Ret a s' → total (f a) s' Q → total (m ≫= f) s Q.
Proof. intros Hm. by rw /total (run_bind _ _ _ _ _ Hm). Qed.

Lemma total_mono m s (R Q : A → S → Prop) :
  total m s R → (∀ a s', R a s' → Q a s') → total m s Q.
Proof. intros (a & s1 & ? & ?) HQ. exists a, s1. eauto. Qed.

Lemma total_gets (g : S → A) s (Q : A → S → Prop) : Q (g s) s → total (gets g) s Q.
Proof. intros. by exists (g s), s. Qed.

Lemma total_modify (g : S → S) s (Q : unit → S → Prop) : Q tt (g s) → total (modify g) s Q.
Proof. intros. by exists tt, (g s). Qed.

Lemma total_gets_bind (g : S → A) f s (Q : B → S → Prop) : total (f (g s)) s Q → total (gets g ≫= f) s Q.
Proof. done. Qed.

Lemma total_modify_bind (g : S → S) (f : unit → M S B) s (Q : B → S → Prop) :
  total (f tt) (g s) Q → total (modify g ≫= f) s Q.
Proof. done. Qed.

Lemma total_ret_bind (a : A) f s (Q : B → S → Prop) : total (f a) s Q → total (mret a ≫= f) s Q.
Proof. done. Qed.

Lemma total_assoc {C} m f (g : B → M S C) s (Q : C → S → Prop) :
  total (m ≫= (λ a, f a ≫= g)) s Q → total ((m ≫= f) ≫= g) s Q.
Proof. rw /total. by setoid_rewrite run_assoc. Qed.
End total_rules.

(** [for (i = lo; i < lo + n; i++) body(i)] *)
Fixpoint for_up {S} (n : nat) (lo : Z) (body : Z → M S unit) : M S unit :=
  match n with
  | O => mret tt
  | Datatypes.S n => body lo;; for_up n (lo + 1) body
  end.

(** A loop invariant indexed by the loop variable. *)
Lemma total_for_up {S} (n : nat) (lo : Z) (body : Z → M S unit) (I : Z → S → Prop) s :
  I lo s →
  (∀ i s, lo ≤ i < lo + Z.of_nat n → I i s → total (body i) s (λ _ s', I (i + 1) s')) →
  total (for_up n lo body) s (λ _ s', I (lo + Z.of_nat n) s').
Proof.
  revert lo s. induction n as [|n IH]; intros lo s HI Hb; simpl.
  - apply total_ret. by rw Z.add_0_r.
  - eapply total_bind; [apply Hb; [lia|done]|]. simpl. intros _ s' HI'.
    eapply total_mono; [apply IH; [done|]|].
    + intros i s2 Hi. apply Hb. lia.
    + simpl. intros _ s2. by rw (_ : lo + 1 + Z.of_nat n = lo + Z.pos (Pos.of_succ_nat n)); [lia|].
Qed.

(** ** Nested states *)

Class Lens (O I : Type) := {
  lget : O → I;
  lset : I → O → O;
  lget_lset i o : lget (lset i o) = i;
  lset_lset i j o : lset i (lset j o) = lset i o;
  lset_lget o : lset (lget o) o = o;
}.

(** Run a computation of a component inside the state of its client. *)
Definition lift {O I A} `{!Lens O I} (m : M I A) : M O A := λ o,
  match m (lget o) with
  | Ret a i => Ret a (lset i o)
  | Panic msg i => Panic msg (lset i o)
  | Fault i => Fault (lset i o)
  | Sched i => Sched (lset i o)
  | Diverge => Diverge
  end.

Lemma run_lift {O I A} `{!Lens O I} (m : M I A) (o : O) a i :
  m (lget o) = Ret a i → lift m o = Ret a (lset i o).
Proof. rw /lift => ->. done. Qed.

Lemma total_lift {O I A} `{!Lens O I} (m : M I A) (o : O) (Q : A → O → Prop) :
  total m (lget o) (λ a i, Q a (lset i o)) → total (lift m) o Q.
Proof. intros (a & i & Hm & HQ). exists a, (lset i o). by rw (run_lift _ _ _ _ Hm). Qed.

(** The size of the buffer cache (param.h), a bound on the blocks in use. *)
Definition NBUF : nat := 30.

(** ** Locks, channels, processes *)

(** Sleep locks live in buffers and in-memory inodes. *)
Inductive slid := SLBuf (i : nat) | SLInode (i : nat).

(** One constructor per [struct spinlock] object. *)
Inductive lockid :=
| LPtable | LBcache | LLog | LIcache | LFtable | LKmem | LTicks | LIde | LCons | LInput
| LPipe (p : Z) | LSleep (l : slid).

(** What a process sleeps on: the address of a kernel object. *)
Inductive chan :=
| ChSleep (l : slid)            (** a [struct sleeplock] *)
| ChLog                         (** [&log] *)
| ChProc (p : nat)              (** a [struct proc] *)
| ChTicks                       (** [&ticks] *)
| ChPipeR (p : Z) | ChPipeW (p : Z)   (** [&p->nread], [&p->nwrite] *)
| ChBuf (i : nat)               (** a [struct buf] *)
| ChInput.                      (** [&input.r] *)

Inductive procstate := UNUSED | EMBRYO | SLEEPING | RUNNABLE | RUNNING | ZOMBIE.

#[global] Instance slid_eq_dec : EqDecision slid.
Proof. solve_decision. Defined.
#[global] Instance lockid_eq_dec : EqDecision lockid.
Proof. solve_decision. Defined.
#[global] Instance chan_eq_dec : EqDecision chan.
Proof. solve_decision. Defined.
#[global] Instance procstate_eq_dec : EqDecision procstate.
Proof. solve_decision. Defined.

Record trapframe := mkTf {
  rax : Z; rbx : Z; rcx : Z; rdx : Z; rbp : Z; rsi : Z; rdi : Z;
  r8 : Z; r9 : Z; r10 : Z; r11 : Z; r12 : Z; r13 : Z; r14 : Z; r15 : Z;
  trapno : Z; err : Z;
  rip : Z; cs : Z; rflags : Z; rsp : Z; ss : Z;
}.

Definition tf0 : trapframe :=
  mkTf 0 0 0 0 0 0 0 0 0 0 0 0 0 0 0 0 0 0 0 0 0 0.

(** [struct proc].  Pointers to other kernel objects are their indices or
    addresses; [None] is the null pointer.  The trap frame, which the source
    keeps on the kernel stack, is held by value. *)
Record proc := mkProc {
  p_sz : Z;
  p_pgdir : Z;
  p_kstack : Z;
  p_state : procstate;
  p_pid : Z;
  p_parent : option nat;
  p_tf : trapframe;
  p_chan : option chan;
  p_killed : Z;
  p_ofile : list (option nat);
  p_cwd : option nat;
  p_name : list Z;
}.

Definition NPROC : nat := 64.
Definition NOFILE : nat := 16.

Definition proc0 : proc :=
  mkProc 0 0 0 UNUSED 0 None tf0 None 0 (replicate NOFILE None) None (replicate 16 0).
#[global] Instance proc_inhabited : Inhabited proc := populate proc0.

Definition set_state (st : procstate) (p : proc) : proc :=
  mkProc (p_sz p) (p_pgdir p) (p_kstack p) st (p_pid p) (p_parent p) (p_tf p) (p_chan p)
    (p_killed p) (p_ofile p) (p_cwd p) (p_name p).
Definition set_chan (ch : option chan) (p : proc) : proc :=
  mkProc (p_sz p) (p_pgdir p) (p_kstack p) (p_state p) (p_pid p) (p_parent p) (p_tf p) ch
    (p_killed p) (p_ofile p) (p_cwd p) (p_name p).

Record core := mkCore {
  c_locks : list lockid;       (** spinlocks held by this CPU *)
  c_procs : list proc;         (** [ptable.proc] *)
  c_cur : option nat;          (** [proc], the process running on this CPU *)
  c_nextpid : Z;
  c_initproc : option nat;
}.

Definition set_locks (l : list lockid) (c : core) : core :=
  mkCore l (c_procs c) (c_cur c) (c_nextpid c) (c_initproc c).
Definition set_procs (ps : list proc) (c : core) : core :=
  mkCore (c_locks c) ps (c_cur c) (c_nextpid c) (c_initproc c).

#[global] Instance Lens_refl S : Lens S S | 10.
Proof. refine {| lget := λ s, s; lset := λ i _, i |}; done. Defined.

(** ** spinlock.c, as one CPU sees it *)

Definition acquire (l : lockid) : M core unit := λ c,
  if decide (l ∈ c_locks c) then Panic "acquire" c
  else Ret tt (set_locks (l :: c_locks c) c).

Definition holding (l : lockid) : M core bool := gets (λ c, bool_decide (l ∈ c_locks c)).

Definition release (l : lockid) : M core unit := λ c,
  if decide (l ∈ c_locks c)
  then Ret tt (set_locks (filter (λ l', l' ≠ l) (c_locks c)) c)
  else Panic "release" c.

(** ** Sleep and wakeup (proc.c) *)

Definition with_cur (f : proc → proc) : M core unit := λ c,
  match c_cur c with
  | Some i => Ret tt (set_procs (alter f i (c_procs c)) c)
  | None => Fault c
  end.

Definition cur_proc (c : core) : proc :=
  match c_cur c with Some i => c_procs c !!! i | None => proc0 end.

(** [sched]: every guard of the source but the [FL_IF] one, which Spinlock.v
    shows redundant (interrupts are off while a spinlock is held). *)
Definition sched : M core unit :=
  h ← holding LPtable;
  if negb h then panic "sched ptable.lock" else
  ncli ← gets (λ c, length (c_locks c));
  if negb (Nat.eqb ncli 1) then panic "sched locks" else
  st ← gets (λ c, p_state (cur_proc c));
  if bool_decide (st = RUNNING) then panic "sched running" else
  λ c, Sched c.

Definition sleep (ch : chan) (lk : lockid) : M core unit :=
  p ← gets c_cur;
  if bool_decide (p = None) then panic "sleep" else
  (if bool_decide (lk ≠ LPtable) then acquire LPtable;; release lk else mret tt);;
  with_cur (λ p, set_state SLEEPING (set_chan (Some ch) p));;
  sched.

(** The code of [sleep] after [sched] returns, when the scheduler has switched
    back to the process. *)
Definition sleep_resume (lk : lockid) : M core unit :=
  with_cur (set_chan None);;
  (if bool_decide (lk ≠ LPtable) then release LPtable;; acquire lk else mret tt).

Definition wake (ch : chan) (p : proc) : proc :=
  if bool_decide (p_state p = SLEEPING ∧ p_chan p = Some ch) then set_state RUNNABLE p else p.

Definition wakeup1 (ch : chan) : M core unit :=
  modify (λ c, set_procs (map (wake ch) (c_procs c)) c).

Definition wakeup (ch : chan) : M core unit :=
  acquire LPtable;; wakeup1 ch;; release LPtable.

(** ** Sleep locks (sleeplock.c) *)

Record sleeplock := mkSleeplock { sl_locked : Z; sl_pid : Z }.
Definition sleeplock0 : sleeplock := mkSleeplock 0 0.

Section sleeplocks.
Context {S : Type} `{!Lens S core} (id : slid) (getl : S → sleeplock) (setl : sleeplock → S → S).

Definition initsleeplock : M S unit := modify (setl (mkSleeplock 0 0)).

(** The loop of [acquiresleep] and what follows it: from the test of [locked] to
    the next [sleep], or to the end. *)
Definition acquiresleep_loop : M S unit :=
  l ← gets (λ s, sl_locked (getl s));
  if negb (l =? 0) then lift (sleep (ChSleep id) (LSleep id));; diverge
  else
    pid ← gets (λ s, p_pid (cur_proc (lget s)));
    modify (setl (mkSleeplock 1 pid));;
    lift (release (LSleep id)).

Definition acquiresleep : M S unit :=
  lift (acquire (LSleep id));;
  acquiresleep_loop.

(** The process is switched back to in [sleep]: the lock is tested again. *)
Definition acquiresleep_resume : M S unit :=
  lift (sleep_resume (LSleep id));;
  acquiresleep_loop.

Definition releasesleep : M S unit :=
  lift (acquire (LSleep id));;
  modify (setl (mkSleeplock 0 0));;
  lift (wakeup (ChSleep id));;
  lift (release (LSleep id)).

Definition holdingsleep : M S Z :=
  lift (acquire (LSleep id));;
  r ← gets (λ s, sl_locked (getl s));
  lift (release (LSleep id));;
  mret r.
End sleeplocks.

(** ** Sequential behaviour of the shared operations *)

Lemma set_locks_set_locks l l' c : set_locks l (set_locks l' c) = set_locks l c.
Proof. done. Qed.
Lemma set_locks_id c : set_locks (c_locks c) c = c.
Proof. by destruct c. Qed.
Lemma set_procs_id c : set_procs (c_procs c) c = c.
Proof. by destruct c. Qed.

Lemma acquire_run l c :
  l ∉ c_locks c → acquire l c = Ret tt (set_locks (l :: c_locks c) c).
Proof. intros. by rw /acquire decide_False. Qed.

Lemma release_run l ls c :
  c_locks c = l :: ls → l ∉ ls → release l c = Ret tt (set_locks ls c).
Proof.
  intros Hc Hl. rw /release Hc decide_True; [by left|].
  rw filter_cons decide_False; [auto|]. by rw filter_ne_notin.
Qed.

Lemma wakeup_run ch c :
  LPtable ∉ c_locks c → wakeup ch c = Ret tt (set_procs (map (wake ch) (c_procs c)) c).
Proof.
  intros Hl. rw /wakeup (run_bind _ _ _ _ _ (acquire_run _ _ Hl)) /wakeup1 run_modify.
  rw (release_run _ (c_locks c)) //.
Qed.

(** Every process that slept on [ch] made runnable. *)
Definition wake_all (ch : chan) (c : core) : core := set_procs (map (wake ch) (c_procs c)) c.

(** Process [i] asleep on [ch], the CPU in the scheduler. *)
Definition asleep (i : nat) (ch : chan) (c : core) : core :=
  set_locks [LPtable]
    (set_procs (alter (λ p, set_state SLEEPING (set_chan (Some ch) p)) i (c_procs c)) c).

Lemma sleep_run ch lk i c :
  c_cur c = Some i → (i < length (c_procs c))%nat → c_locks c = [lk] → lk ≠ LPtable →
  sleep ch lk c = Sched (asleep i ch c).
Proof.
  intros Hi Hlt Hl Hlk. rw /sleep run_gets Hi bool_decide_eq_false_2 // bool_decide_eq_true_2 //.
  rw run_assoc. erewrite run_bind; [|apply acquire_run; rw Hl; set_solver].
  erewrite run_bind; last first.
  { rw /release /= Hl decide_True; [set_solver|]. done. }
  rw filter_cons decide_True // filter_cons decide_False; [naive_solver|]. rw filter_nil.
  erewrite run_bind; [|rw /with_cur /= Hi; done].
  rw /sched. erewrite run_bind; [|done]. simpl.
  rw run_gets /= run_gets bool_decide_eq_false_2 //.
  rw /cur_proc /= Hi. destruct (lookup_lt_is_Some_2 _ _ Hlt) as [q Hq].
  rw list_lookup_total_alt list_lookup_alter Hq decide_True //.
Qed.

Lemma sleep_resume_run lk i c :
  c_cur c = Some i → c_locks c = [LPtable] → lk ≠ LPtable →
  sleep_resume lk c = Ret tt (set_locks [lk] (set_procs (alter (set_chan None) i (c_procs c)) c)).
Proof.
  intros Hi Hl Hlk. rw /sleep_resume. erewrite run_bind; [|rw /with_cur Hi; done].
  rw bool_decide_eq_true_2 //. erewrite run_bind; [|apply (release_run _ []); [done|set_solver]].
  rw acquire_run //=. set_solver.
Qed.

(** What wakeups may do to a process, and to the shared state. *)
Definition proc_le (p p' : proc) : Prop :=
  p' = p ∨ (p_state p = SLEEPING ∧ p' = set_state RUNNABLE p).

Record core_le (c c' : core) : Prop := {
  cle_locks : c_locks c' = c_locks c;
  cle_cur : c_cur c' = c_cur c;
  cle_nextpid : c_nextpid c' = c_nextpid c;
  cle_initproc : c_initproc c' = c_initproc c;
  cle_procs : Forall2 proc_le (c_procs c) (c_procs c');
}.

#[global] Instance proc_le_preorder : PreOrder proc_le.
Proof.
  split.
  - intros p. by left.
  - intros p q r [->|[Hp ->]] [->|[Hq ->]]; [by left|by right|by right|by left].
Qed.

#[global] Instance core_le_preorder : PreOrder core_le.
Proof.
  split.
  - intros c. by split.
  - intros c d e [] []. split; try congruence. by etrans.
Qed.

Lemma wake_le ch p : proc_le p (wake ch p).
Proof.
  rw /wake. case_bool_decide as H; [|by left]. right. naive_solver.
Qed.

Lemma wakeup_le ch c : core_le c (set_procs (map (wake ch) (c_procs c)) c).
Proof.
  split; try done. simpl. induction (c_procs c); constructor; auto using wake_le.
Qed.

(** The running process is not affected by wakeups. *)
Lemma core_le_cur c c' i :
  core_le c c' → c_cur c = Some i → p_state (c_procs c !!! i) ≠ SLEEPING →
  cur_proc c' = cur_proc c.
Proof.
  intros H Hi Hs. rw /cur_proc (cle_cur _ _ H) Hi.
  destruct (c_procs c !! i) as [p|] eqn:E.
  - destruct (Forall2_lookup_l _ _ _ _ _ (cle_procs _ _ H) E) as (p' & E' & Hp).
    rw (list_lookup_total_correct _ _ _ E) in Hs |- *.
    rw (list_lookup_total_correct _ _ _ E'). by destruct Hp as [->|[? _]].
  - rw !list_lookup_total_alt E.
    assert (c_procs c' !! i = None) as ->; [|done].
    pose proof (Forall2_length (cle_procs _ _ H)). apply lookup_ge_None in E. apply lookup_ge_None. lia.
Qed.

(** Sleep locks, used at a place of the state disjoint from [core]. *)
Class SleepLoc {S} `{!Lens S core} (getl : S → sleeplock) (setl : sleeplock → S → S) := {
  sloc_get c s : getl (lset c s) = getl s;
  sloc_core x s : lget (setl x s) = lget s;
  sloc_comm x c s : setl x (lset c s) = lset c (setl x s);
}.

Section sleeploc.
Context {S : Type} `{!Lens S core} (id : slid) (getl : S → sleeplock) (setl : sleeplock → S → S).
Context `{!SleepLoc getl setl}.

Lemma holdingsleep_run s :
  LSleep id ∉ c_locks (lget s) → holdingsleep id getl s = Ret (sl_locked (getl s)) s.
Proof.
  intros Hl. rw /holdingsleep.
  rw (run_bind _ _ _ _ _ (run_lift _ _ _ _ (acquire_run _ _ Hl))) run_gets sloc_get.
  erewrite run_bind; [done|]. erewrite run_lift; [|rw lget_lset; by apply release_run].
  by rw lset_lset set_locks_set_locks set_locks_id lset_lget.
Qed.

Lemma acquiresleep_run s :
  LSleep id ∉ c_locks (lget s) → sl_locked (getl s) = 0 →
  acquiresleep id getl setl s = Ret tt (setl (mkSleeplock 1 (p_pid (cur_proc (lget s)))) s).
Proof.
  intros Hl H0. rw /acquiresleep.
  rw (run_bind _ _ _ _ _ (run_lift _ _ _ _ (acquire_run _ _ Hl))) /acquiresleep_loop run_gets sloc_get H0 /=.
  rw run_gets run_modify.
  erewrite run_lift; [|rw sloc_core lget_lset; by apply release_run].
  rw sloc_comm lset_lset set_locks_set_locks set_locks_id lget_lset.
  by rw -{1}(sloc_core (getl:=getl) (mkSleeplock 1 (p_pid (cur_proc (lget s)))) s) lset_lget.
Qed.

(** A process that has been woken up takes the lock if it is free, and goes back to
    sleep if another was faster. *)
Lemma acquiresleep_resume_run s i :
  c_cur (lget s) = Some i → c_locks (lget s) = [LPtable] → (i < length (c_procs (lget s)))%nat →
  let c := set_procs (alter (set_chan None) i (c_procs (lget s))) (lget s) in
  acquiresleep_resume id getl setl s =
    if sl_locked (getl s) =? 0 then Ret tt (setl (mkSleeplock 1 (p_pid (cur_proc c))) (lset (set_locks [] c) s))
    else Sched (lset (asleep i (ChSleep id) c) s).
Proof.
  intros Hi Hl Hlt c. rw /acquiresleep_resume.
  rw (run_bind _ _ _ _ _ (run_lift _ _ _ _ (sleep_resume_run (LSleep id) i _ Hi Hl ltac:(done)))).
  fold c. rw /acquiresleep_loop run_gets sloc_get. destruct (sl_locked (getl s) =? 0); cbn [negb].
  - rw run_gets run_modify. erewrite run_lift; [|rw sloc_core lget_lset; by apply (release_run _ []); [|apply not_elem_of_nil]].
    by rw lget_lset sloc_comm lset_lset set_locks_set_locks -sloc_comm.
  - apply run_bind_sched. rw /lift lget_lset (sleep_run _ _ i) //; [by rw /= length_alter|]. by rw lset_lset.
Qed.

Lemma releasesleep_run s :
  LSleep id ∉ c_locks (lget s) → LPtable ∉ c_locks (lget s) →
  releasesleep id setl s =
    Ret tt (lset (set_procs (map (wake (ChSleep id)) (c_procs (lget s))) (lget s)) (setl sleeplock0 s)).
Proof.
  intros Hl Hp. rw /releasesleep.
  rw (run_bind _ _ _ _ _ (run_lift _ _ _ _ (acquire_run _ _ Hl))) run_modify.
  erewrite run_bind; [|apply run_lift; rw sloc_core lget_lset; apply wakeup_run].
  - rw sloc_comm. erewrite run_lift; [|rw lget_lset; by apply release_run].
    by rw !lset_lset.
  - simpl. by intros [?|?]%elem_of_cons.
Qed.
End sleeploc.
