(* ===== verification/Spinlock.v ===== *)
(** * Spinlocks and interrupt masking (spinlock.c)

    The field-level model of [struct spinlock] and of the per-CPU fields
    [ncli], [intena] and the interrupt flag, shared by any number of CPUs, and
    an interleaving semantics in which every memory access of [acquire] and
    [release] that another CPU can observe is a step of its own.

    The invariant of that semantics gives mutual exclusion, the absence of the
    [release]/[popcli] panics, and that interrupts are off while a CPU holds a
    spinlock (the guard of [sched] that Kernel.v leaves out).  The last section
    relates the field-level operations to the lock list of Kernel.v. *)

From S2P Require Import Prelude Kernel.

Definition FL_IF : Z := 0x200.

Record spinlock := mkSpinlock {
  locked : Z;
  lk_cpu : option nat;       (** the CPU holding the lock; [None] is 0 *)
  pcs : list Z;
}.

(** The fields of [struct cpu] these functions use, and EFLAGS. *)
Record cpust := mkCpu { ncli : Z; intena : Z; eflags : Z }.

Record mach := mkMach { cpus : nat → cpust; lks : lockid → spinlock }.

Definition set_cpu (c : nat) (x : cpust) (m : mach) : mach := mkMach (<[c := x]> (cpus m)) (lks m).
Definition set_lk (l : lockid) (x : spinlock) (m : mach) : mach := mkMach (cpus m) (<[l := x]> (lks m)).

Definition cli (x : cpust) : cpust := mkCpu (ncli x) (intena x) (Z.ldiff (eflags x) FL_IF).
Definition sti (x : cpust) : cpust := mkCpu (ncli x) (intena x) (Z.lor (eflags x) FL_IF).
Definition ints_on (x : cpust) : bool := negb (Z.land (eflags x) FL_IF =? 0).

Definition initlock (l : lockid) : M mach unit :=
  modify (λ m, set_lk l (mkSpinlock 0 None (pcs (lks m l))) m).

Definition pushcli (c : nat) : M mach unit :=
  ef ← gets (λ m, eflags (cpus m c));
  modify (λ m, set_cpu c (cli (cpus m c)) m);;
  (n ← gets (λ m, ncli (cpus m c));
   when (n =? 0) (modify (λ m, let x := cpus m c in
     set_cpu c (mkCpu (ncli x) (Z.land ef FL_IF) (eflags x)) m)));;
  modify (λ m, let x := cpus m c in set_cpu c (mkCpu (ncli x + 1) (intena x) (eflags x)) m).

Definition popcli (c : nat) : M mach unit :=
  on ← gets (λ m, ints_on (cpus m c));
  if (on : bool) then panic "popcli - interruptible" else
  modify (λ m, let x := cpus m c in set_cpu c (mkCpu (ncli x - 1) (intena x) (eflags x)) m);;
  x ← gets (λ m, cpus m c);
  if ncli x <? 0 then panic "popcli" else
  when ((ncli x =? 0) && negb (intena x =? 0)) (modify (λ m, set_cpu c (sti (cpus m c)) m)).

Definition holding (c : nat) (l : lockid) (m : mach) : bool :=
  negb (locked (lks m l) =? 0) && bool_decide (lk_cpu (lks m l) = Some c).

(** [xchg(&lk->locked, 1)]: store 1, return the old value. *)
Definition xchg_locked (l : lockid) : M mach Z :=
  old ← gets (λ m, locked (lks m l));
  modify (λ m, set_lk l (mkSpinlock 1 (lk_cpu (lks m l)) (pcs (lks m l))) m);;
  mret old.

(** [getstackpcs] follows the saved frame pointers; [mem] reads a word. *)
Definition KERNBASE : Z := 0xFFFF800000000000.

Fixpoint getstackpcs_loop (mem : Z → Z) (n : nat) (rbp : Z) : list Z :=
  match n with
  | O => []
  | S n =>
    if (rbp =? 0) || (rbp <? KERNBASE) || (rbp =? 0xffffffff) then replicate (S n) 0
    else mem (rbp + 8) :: getstackpcs_loop mem n (mem rbp)
  end.
Definition getstackpcs (mem : Z → Z) (rbp : Z) : list Z := getstackpcs_loop mem 10 rbp.

(** The part of [acquire] after the exchange, [trace] being what
    [getcallerpcs] recorded, and the part of [release] before the store. *)
Definition lock_mark (c : nat) (l : lockid) (trace : list Z) : M mach unit :=
  modify (λ m, set_lk l (mkSpinlock (locked (lks m l)) (Some c) trace) m).
Definition lock_unmark (l : lockid) : M mach unit :=
  modify (λ m, set_lk l (mkSpinlock (locked (lks m l)) None (setZ 0 0 (pcs (lks m l)))) m).
Definition lock_store0 (l : lockid) : M mach unit :=
  modify (λ m, set_lk l (mkSpinlock 0 (lk_cpu (lks m l)) (pcs (lks m l))) m).

(** [acquire] and [release] run without interference; the spin loop of
    [acquire] succeeds at its first exchange or spins for ever. *)
Definition acquire (c : nat) (trace : list Z) (l : lockid) : M mach unit :=
  pushcli c;;
  h ← gets (holding c l);
  if (h : bool) then panic "acquire" else
  old ← xchg_locked l;
  if negb (old =? 0) then diverge else
  lock_mark c l trace.

Definition release (c : nat) (l : lockid) : M mach unit :=
  h ← gets (holding c l);
  if negb h then panic "release" else
  lock_unmark l;;
  lock_store0 l;;
  popcli c.

(** ** Interleavings *)

(** Where a CPU is inside [acquire] or [release]. *)
Inductive pc :=
| Out                  (** in neither *)
| A1 (l : lockid)      (** [acquire]: after [pushcli] *)
| A2 (l : lockid)      (** spinning *)
| A3 (l : lockid)      (** the exchange returned 0 *)
| R1 (l : lockid)      (** [release]: [holding] returned true *)
| R2 (l : lockid)      (** [lk->cpu] is cleared *)
| R3                   (** [locked] is 0, before [popcli] *)
| Dead.                (** panicked *)

(** A CPU's control point and the locks whose critical sections it is in. *)
Record thread := mkThread { tpc : pc; tcs : list lockid }.

Record sys := mkSys { sm : mach; sth : nat → thread }.

Definition go (c : nat) (p : pc) (cs : list lockid) (m : mach) (σ : sys) : sys :=
  mkSys m (<[c := mkThread p cs]> (sth σ)).

Inductive step (c : nat) (σ : sys) : sys → Prop :=
| st_push l m : tpc (sth σ c) = Out → pushcli c (sm σ) = Ret tt m →
    step c σ (go c (A1 l) (tcs (sth σ c)) m σ)
| st_again l : tpc (sth σ c) = A1 l → holding c l (sm σ) = true →
    step c σ (go c Dead (tcs (sth σ c)) (sm σ) σ)
| st_check l : tpc (sth σ c) = A1 l → holding c l (sm σ) = false →
    step c σ (go c (A2 l) (tcs (sth σ c)) (sm σ) σ)
| st_xchg l old m : tpc (sth σ c) = A2 l → xchg_locked l (sm σ) = Ret old m →
    step c σ (go c (if old =? 0 then A3 l else A2 l) (tcs (sth σ c)) m σ)
| st_mark l trace m : tpc (sth σ c) = A3 l → lock_mark c l trace (sm σ) = Ret tt m →
    step c σ (go c Out (l :: tcs (sth σ c)) m σ)
| st_rel l : tpc (sth σ c) = Out → l ∈ tcs (sth σ c) →
    step c σ (go c (if holding c l (sm σ) then R1 l else Dead) (tcs (sth σ c)) (sm σ) σ)
| st_unmark l m : tpc (sth σ c) = R1 l → lock_unmark l (sm σ) = Ret tt m →
    step c σ (go c (R2 l) (tcs (sth σ c)) m σ)
| st_store l m : tpc (sth σ c) = R2 l → lock_store0 l (sm σ) = Ret tt m →
    step c σ (go c R3 (filter (λ l', l' ≠ l) (tcs (sth σ c))) m σ)
| st_pop m : tpc (sth σ c) = R3 → popcli c (sm σ) = Ret tt m →
    step c σ (go c Out (tcs (sth σ c)) m σ)
| st_pop_panic msg m : tpc (sth σ c) = R3 → popcli c (sm σ) = Panic msg m →
    step c σ (go c Dead (tcs (sth σ c)) m σ).

Inductive reach (σ0 : sys) : sys → Prop :=
| reach_refl : reach σ0 σ0
| reach_step c σ σ' : reach σ0 σ → step c σ σ' → reach σ0 σ'.

(** Boot: every lock initialised, no CPU in a critical section. *)
Definition boot (σ : sys) : Prop :=
  (∀ l, locked (lks (sm σ) l) = 0 ∧ lk_cpu (lks (sm σ) l) = None) ∧
  (∀ c, sth σ c = mkThread Out [] ∧ ncli (cpus (sm σ) c) = 0).

(** ** Invariant *)

(** CPU [c] is inside the critical section of [l], or between winning the
    exchange and recording itself. *)
Definition owns (σ : sys) (c : nat) (l : lockid) : Prop :=
  l ∈ tcs (sth σ c) ∨ tpc (sth σ c) = A3 l.

Definition pending (p : pc) : Z :=
  match p with Out | R1 _ | R2 _ => 0 | A1 _ | A2 _ | A3 _ | R3 => 1 | Dead => 0 end.

Record inv (σ : sys) : Prop := {
  inv_bit l : locked (lks (sm σ) l) = 0 ∨ locked (lks (sm σ) l) = 1;
  inv_free l c : locked (lks (sm σ) l) = 0 → ¬ owns σ c l;
  inv_excl l c c' : owns σ c l → owns σ c' l → c = c';
  inv_cpu l c : lk_cpu (lks (sm σ) l) = Some c → l ∈ tcs (sth σ c);
  inv_mark l c : l ∈ tcs (sth σ c) → tpc (sth σ c) ≠ R2 l → lk_cpu (lks (sm σ) l) = Some c;
  inv_r2 l c : tpc (sth σ c) = R2 l → lk_cpu (lks (sm σ) l) = None;
  inv_wait l c : tpc (sth σ c) = A2 l ∨ tpc (sth σ c) = A3 l → l ∉ tcs (sth σ c);
  inv_rel l c : tpc (sth σ c) = R1 l ∨ tpc (sth σ c) = R2 l → l ∈ tcs (sth σ c);
  inv_nodup c : NoDup (tcs (sth σ c));
  inv_ncli c : tpc (sth σ c) ≠ Dead →
    ncli (cpus (sm σ) c) = lenZ (tcs (sth σ c)) + pending (tpc (sth σ c));
  inv_if c : tpc (sth σ c) ≠ Dead → 0 < ncli (cpus (sm σ) c) → ints_on (cpus (sm σ) c) = false;
}.

(** ** What each operation does *)

Definition pushed (x : cpust) : cpust :=
  mkCpu (ncli x + 1) (if ncli x =? 0 then Z.land (eflags x) FL_IF else intena x)
    (Z.ldiff (eflags x) FL_IF).
Definition popped (x : cpust) : cpust :=
  let y := mkCpu (ncli x - 1) (intena x) (eflags x) in
  if (ncli x =? 1) && negb (intena x =? 0) then sti y else y.

Lemma ints_on_ldiff a b e : ints_on (mkCpu a b (Z.ldiff e FL_IF)) = false.
Proof.
  rw /ints_on /=. assert (Z.land (Z.ldiff e FL_IF) FL_IF = 0) as -> by
    (by rw Z.land_ldiff). done.
Qed.

Lemma pushcli_run c m : ∃ m', pushcli c m = Ret tt m' ∧
  cpus m' c = pushed (cpus m c) ∧ (∀ d, d ≠ c → cpus m' d = cpus m d) ∧ lks m' = lks m.
Proof.
  rw /pushcli /mbind /M_bind /gets /modify /when /=. rw !fn_lookup_insert /=.
  destruct (ncli (cpus m c) =? 0) eqn:E; (eexists; split; [reflexivity|]); simpl;
    rw ?fn_lookup_insert /pushed E /=; (split_and!; [done| |done]);
    intros d Hne; apply not_eq_sym in Hne; by rw !fn_lookup_insert_ne.
Qed.

Lemma popcli_run c m :
  ints_on (cpus m c) = false → 0 < ncli (cpus m c) →
  ∃ m', popcli c m = Ret tt m' ∧ cpus m' c = popped (cpus m c) ∧
    (∀ d, d ≠ c → cpus m' d = cpus m d) ∧ lks m' = lks m.
Proof.
  intros Hi Hn. rw /popcli /mbind /M_bind /gets /modify /when /= Hi /=.
  rw !fn_lookup_insert /=. destruct (Z.ltb_spec (ncli (cpus m c) - 1) 0); [lia|].
  rw /popped. replace (ncli (cpus m c) - 1 =? 0) with (ncli (cpus m c) =? 1) by lia.
  destruct (_ && _) eqn:E; (eexists; split; [reflexivity|]); simpl; rw !fn_lookup_insert /=;
    (split_and!; [done| |done]); intros d Hne; apply not_eq_sym in Hne; by rw !fn_lookup_insert_ne.
Qed.

Lemma fn_upd {A B} `{EqDecision A} (c : A) (t : B) (f : A → B) (d : A) :
  <[c := t]> f d = if decide (c = d) then t else f d.
Proof. case_decide; [subst; by rw fn_lookup_insert|by rw fn_lookup_insert_ne]. Qed.

Lemma sth_go c p cs m σ d :
  sth (go c p cs m σ) d = if decide (c = d) then mkThread p cs else sth σ d.
Proof.
  by rw /go /= fn_upd.
Qed.

(** A step of CPU [c] that changes neither a lock nor the critical sections. *)
Lemma inv_quiet σ c p m :
  inv σ → lks m = lks (sm σ) → (∀ d, d ≠ c → cpus m d = cpus (sm σ) d) →
  (∀ l, p ≠ A3 l) → (∀ l, tpc (sth σ c) ≠ A3 l) → (∀ l, tpc (sth σ c) ≠ R2 l) →
  (∀ l, p = A2 l → l ∉ tcs (sth σ c)) →
  (∀ l, p = R1 l → l ∈ tcs (sth σ c)) → (∀ l, p ≠ R2 l) →
  (p ≠ Dead → ncli (cpus m c) = lenZ (tcs (sth σ c)) + pending p) →
  (p ≠ Dead → 0 < ncli (cpus m c) → ints_on (cpus m c) = false) →
  inv (go c p (tcs (sth σ c)) m σ).
Proof.
  intros I Hk Hd Hp3 Hc3 Hc2 Hw Hr Hp2 Hn Hi.
  assert (∀ d l, owns (go c p (tcs (sth σ c)) m σ) d l → owns σ d l) as Ho.
  { intros d l. rw /owns sth_go. case_decide; [subst; simpl|done].
    intros [?|?]; [by left|by apply Hp3 in H]. }
  constructor; simpl; rw ?Hk; intros.
  - apply (inv_bit _ I).
  - intros Hx%Ho. by apply (inv_free _ I) in Hx.
  - eapply (inv_excl _ I); eauto.
  - rw (fn_upd c). case_decide; [subst; simpl|]; by apply (inv_cpu _ I).
  - rw (fn_upd c) in H H0. case_decide; [subst; simpl in *|]; apply (inv_mark _ I); auto.
  - rw (fn_upd c) in H. case_decide; [subst; simpl in *; by apply Hp2 in H|].
    by apply (inv_r2 _ I) in H.
  - rw (fn_upd c) in H |- *. case_decide; [subst; simpl in *|by apply (inv_wait _ I)].
    destruct H as [?|H]; [eauto|by apply Hp3 in H].
  - rw (fn_upd c) in H |- *. case_decide; [subst; simpl in *|by apply (inv_rel _ I)].
    destruct H as [?|H]; [eauto|by apply Hp2 in H].
  - rw (fn_upd c). case_decide; [subst; simpl|]; apply (inv_nodup _ I).
  - rw (fn_upd c) in H |- *. case_decide; [subst; simpl in *; auto|].
    rw Hd; [congruence|]. by apply (inv_ncli _ I).
  - rw (fn_upd c) in H. case_decide; [subst; simpl in *; auto|].
    rw Hd in H0 |- *; [congruence..|]. by apply (inv_if _ I).
Qed.

(** Ownership after a step that moves CPU [c]. *)
Lemma owns_go c p cs m σ d l :
  owns (go c p cs m σ) d l ↔ if decide (c = d) then l ∈ cs ∨ p = A3 l else owns σ d l.
Proof. rw /owns sth_go. by case_decide. Qed.

(** A step of CPU [c] on lock [l]: what has to be re-established for [l] and
    [c]; everything else is untouched. *)
Lemma inv_lock σ c p cs l x :
  inv σ →
  (locked x = 0 ∨ locked x = 1) →
  (locked x = 0 → (∀ d, d ≠ c → ¬ owns σ d l) ∧ l ∉ cs ∧ p ≠ A3 l) →
  (∀ l', l' ≠ l → p ≠ A3 l' ∧ (l' ∈ cs ↔ l' ∈ tcs (sth σ c)) ∧ tpc (sth σ c) ≠ A3 l') →
  (l ∈ cs ∨ p = A3 l → ∀ d, d ≠ c → ¬ owns σ d l) →
  (∀ d, lk_cpu x = Some d → if decide (c = d) then l ∈ cs else l ∈ tcs (sth σ d)) →
  (p = R2 l → lk_cpu x = None) → (∀ l', l' ≠ l → p ≠ R2 l') → (∀ d, d ≠ c → tpc (sth σ d) = R2 l → lk_cpu x = None) →
  (l ∈ cs → p ≠ R2 l → lk_cpu x = Some c) →
  ((∃ d, d ≠ c ∧ l ∈ tcs (sth σ d)) → lk_cpu x = lk_cpu (lks (sm σ) l)) →
  (∀ l', l' ≠ l → tpc (sth σ c) ≠ R2 l') →
  (∀ l', p = A2 l' ∨ p = A3 l' → l' ∉ cs) →
  (∀ l', p = R1 l' ∨ p = R2 l' → l' ∈ cs) →
  NoDup cs → p ≠ Dead → tpc (sth σ c) ≠ Dead →
  lenZ (tcs (sth σ c)) + pending (tpc (sth σ c)) = lenZ cs + pending p →
  inv (go c p cs (set_lk l x (sm σ)) σ).
Proof.
  intros I Hb H0 Hoth Hex Hcpu Hp2 Hp2' Hd2 Hmark Hkeep Hr2 Hw Hr Hnd Hp Hpc Hn.
  assert (∀ d l', l' ≠ l → owns (go c p cs (set_lk l x (sm σ)) σ) d l' → owns σ d l') as Ho.
  { intros d l' Hl. rw owns_go. case_decide; [subst|done]. rw /owns.
    destruct (Hoth _ Hl) as (? & Hin & _). rw Hin. intros [?|?]; [by left|done]. }
  constructor; simpl.
  - intros l'. destruct (decide (l = l')); [subst; by rw fn_lookup_insert|].
    rw fn_lookup_insert_ne //. apply (inv_bit _ I).
  - intros l' d. destruct (decide (l = l')); [subst; rw fn_lookup_insert|].
    + intros (Ha & Hb' & Hc)%H0. rw owns_go. case_decide; [by intros [?|?]|]. apply Ha. congruence.
    + rw fn_lookup_insert_ne //. intros Hl Hx. apply Ho in Hx; [|congruence].
      by apply (inv_free _ I) in Hx.
  - intros l' d d'. destruct (decide (l' = l)) as [->|?].
    + rw !owns_go. repeat case_decide; subst; [done| | |apply (inv_excl _ I)].
      * intros Hx Hy. destruct (Hex Hx d'); [congruence|done].
      * intros Hx Hy. destruct (Hex Hy d); [congruence|done].
    + intros Hx Hy. apply Ho in Hx, Hy; [|done..]. eapply (inv_excl _ I); eauto.
  - intros l' d. rw (fn_upd c). destruct (decide (l = l')); [subst; rw fn_lookup_insert|].
    + intros Hx%Hcpu. by case_decide.
    + rw fn_lookup_insert_ne //. intros Hx%(inv_cpu _ I).
      case_decide; [subst; simpl|done]. apply Hoth; congruence.
  - intros l' d. rw (fn_upd c). destruct (decide (l = l')); [subst; rw fn_lookup_insert|].
    + case_decide; [subst; simpl; eauto|]. intros Hin ?. rw Hkeep; [exists d; split; [congruence|done]|].
      by apply (inv_mark _ I).
    + rw fn_lookup_insert_ne //. case_decide; [subst; simpl|by apply (inv_mark _ I)].
      intros Hin _. apply (inv_mark _ I); [apply Hoth; congruence|auto].
  - intros l' d. rw (fn_upd c). destruct (decide (l = l')); [subst; rw fn_lookup_insert|].
    + case_decide; [subst; simpl; auto|]. apply Hd2. congruence.
    + rw fn_lookup_insert_ne //. case_decide; [subst; simpl|by apply (inv_r2 _ I)].
      intros Hx. by destruct (Hp2' l').
  - intros l' d. rw (fn_upd c). case_decide; [subst; simpl; auto|by apply (inv_wait _ I)].
  - intros l' d. rw (fn_upd c). case_decide; [subst; simpl; auto|by apply (inv_rel _ I)].
  - intros d. rw (fn_upd c). case_decide; [done|apply (inv_nodup _ I)].
  - intros d. rw (fn_upd c). case_decide; [subst; simpl|by apply (inv_ncli _ I)].
    intros _. rw (inv_ncli _ I) //.
  - intros d. rw (fn_upd c). case_decide; [subst; simpl|by apply (inv_if _ I)].
    intros _. by apply (inv_if _ I).
Qed.

Lemma boot_inv σ : boot σ → inv σ.
Proof.
  intros [Hl Hc].
  assert (∀ d, tcs (sth σ d) = []) as Hcs by (intros d; by rw (proj1 (Hc d))).
  assert (∀ d, tpc (sth σ d) = Out) as Hpc by (intros d; by rw (proj1 (Hc d))).
  assert (∀ d l, ¬ owns σ d l) as Ho.
  { intros d l. rw /owns Hcs Hpc. intros [?%not_elem_of_nil|?]; done. }
  constructor; intros *; rw ?Hcs ?Hpc.
  - left. apply Hl.
  - intros _. apply Ho.
  - intros []%Ho.
  - by rw (proj2 (Hl l)).
  - by intros ?%not_elem_of_nil.
  - done.
  - by intros [?|?].
  - by intros [?|?].
  - constructor.
  - intros _. by rw (proj2 (Hc c)).
  - rw (proj2 (Hc c)). lia.
Qed.

Lemma owned_locked σ c l : inv σ → owns σ c l → locked (lks (sm σ) l) = 1.
Proof. intros I Ho. destruct (inv_bit _ I l) as [H0|]; [|done]. by apply (inv_free _ I) in Ho. Qed.

Lemma holding_cs σ c l :
  inv σ → tpc (sth σ c) ≠ R2 l → holding c l (sm σ) = true ↔ l ∈ tcs (sth σ c).
Proof.
  intros I Hp. rw /holding andb_true_iff bool_decide_eq_true. split.
  - intros [_ Hx]. by apply (inv_cpu _ I).
  - intros Hx. split; [|by apply (inv_mark _ I)].
    rw (owned_locked σ c l I) //. by left.
Qed.


(** The four steps that write to a lock. *)
Lemma xchg_inv σ c l :
  inv σ → tpc (sth σ c) = A2 l →
  let x := lks (sm σ) l in
  inv (go c (if locked x =? 0 then A3 l else A2 l) (tcs (sth σ c))
        (set_lk l (mkSpinlock 1 (lk_cpu x) (pcs x)) (sm σ)) σ).
Proof.
  intros I Hp x. assert (l ∉ tcs (sth σ c)) as Hl by (apply (inv_wait _ I); auto).
  assert (∀ l', (if locked x =? 0 then A3 l else A2 l) = A3 l' → l' = l ∧ locked x = 0) as HA3.
  { intros l'. destruct (Z.eqb_spec (locked x) 0); by intros [= ->]. }
  apply inv_lock; simpl; rw ?Hp //; auto.
  - intros l' Hl'. split_and!; [|done..]. intros [? _]%HA3. congruence.
  - intros [?|[_ H0]%HA3] d _; [done|]. by apply (inv_free _ I).
  - intros d Hd%(inv_cpu _ I). case_decide; by subst.
  - by case_match.
  - intros ??. by case_match.
  - intros d _. apply (inv_r2 _ I).
  - intros l'. case_match; intros [?|?]; congruence.
  - intros l'. case_match; by intros [?|?].
  - apply (inv_nodup _ I).
  - by case_match.
  - by case_match.
Qed.

Lemma mark_inv σ c l tr :
  inv σ → tpc (sth σ c) = A3 l →
  inv (go c Out (l :: tcs (sth σ c)) (set_lk l (mkSpinlock (locked (lks (sm σ) l)) (Some c) tr) (sm σ)) σ).
Proof.
  intros I Hp. assert (owns σ c l) as Ho by (by right).
  assert (l ∉ tcs (sth σ c)) as Hl by (apply (inv_wait _ I); auto).
  assert (∀ d, d ≠ c → ¬ owns σ d l) as Hx.
  { intros d Hd ?. by apply Hd, (inv_excl _ I l). }
  apply inv_lock; simpl; rw ?Hp //; auto.
  - apply (inv_bit _ I).
  - intros H0. by apply (inv_free _ I) in Ho.
  - intros l' Hl'. split_and!; [done| |congruence]. rw elem_of_cons. intuition congruence.
  - intros ? [= <-]. rw decide_True //. by left.
  - intros d Hd Hr. destruct (Hx d Hd). left. apply (inv_rel _ I). auto.
  - intros (d & Hd & Hin). destruct (Hx d Hd). by left.
  - intros ? [?|?]; done.
  - intros ? [?|?]; done.
  - apply list.NoDup_cons. split; [done|apply (inv_nodup _ I)].
  - simpl. lia.
Qed.

Lemma unmark_inv σ c l ps :
  inv σ → tpc (sth σ c) = R1 l →
  inv (go c (R2 l) (tcs (sth σ c)) (set_lk l (mkSpinlock (locked (lks (sm σ) l)) None ps) (sm σ)) σ).
Proof.
  intros I Hp. assert (l ∈ tcs (sth σ c)) as Hl by (apply (inv_rel _ I); auto).
  assert (∀ d, d ≠ c → ¬ owns σ d l) as Hx.
  { intros d Hd ?. apply Hd, (inv_excl _ I l); [done|by left]. }
  apply inv_lock; simpl; rw ?Hp //; auto.
  - apply (inv_bit _ I).
  - intros H0. destruct (inv_free _ I l c); [done|by left].
  - intros ? Hl' [= <-]. done.
  - intros (d & Hd & Hin). destruct (Hx d Hd). by left.
  - intros ? [?|?]; done.
  - intros ? [[=]|[= <-]]. done.
  - apply (inv_nodup _ I).
Qed.

Lemma store_inv σ c l ps :
  inv σ → tpc (sth σ c) = R2 l →
  inv (go c R3 (filter (λ l', l' ≠ l) (tcs (sth σ c)))
        (set_lk l (mkSpinlock 0 (lk_cpu (lks (sm σ) l)) ps) (sm σ)) σ).
Proof.
  intros I Hp. assert (l ∈ tcs (sth σ c)) as Hl by (apply (inv_rel _ I); auto).
  assert (∀ d, d ≠ c → ¬ owns σ d l) as Hx.
  { intros d Hd ?. apply Hd, (inv_excl _ I l); [done|by left]. }
  assert (l ∉ filter (λ l', l' ≠ l) (tcs (sth σ c))) as Hnf by (by intros [? _]%list_elem_of_filter).
  apply inv_lock; simpl; rw ?Hp ?(inv_r2 _ I l c Hp) //; auto.
  - intros l' Hl'. split_and!; [done| |congruence]. rw list_elem_of_filter. intuition congruence.
  - intros l' Hl' [= <-]. done.
  - intros ? [?|?]; done.
  - intros ? [?|?]; done.
  - apply list.NoDup_filter, (inv_nodup _ I).
  - rw (length_filter_ne l (tcs (sth σ c))) //; [apply (inv_nodup _ I)|simpl; lia].
Qed.

Lemma step_inv c σ σ' : inv σ → step c σ σ' → inv σ'.
Proof.
  intros I Hstep. destruct Hstep as [l m Hp Hm|l Hp Hh|l Hp Hh|l old m Hp Hm|l tr m Hp Hm|l Hp Hl
    |l m Hp Hm|l m Hp Hm|m Hp Hm|msg m Hp Hm].
  - destruct (pushcli_run c (sm σ)) as (m' & Hm' & Hc & Hd & Hk). assert (m' = m) as -> by congruence.
    apply inv_quiet; rw ?Hp ?Hc //.
    + intros _. rw /= (inv_ncli _ I) Hp //=. lia.
    + intros _ _. apply ints_on_ldiff.
  - apply inv_quiet; rw ?Hp //.
  - apply inv_quiet; rw ?Hp //.
    + intros ? [= <-] Hin. apply (holding_cs σ c l) in Hin; [congruence|done|congruence].
    + intros _. rw (inv_ncli _ I) Hp //.
    + intros _. apply (inv_if _ I). congruence.
  - injection Hm as <- <-. by apply xchg_inv.
  - injection Hm as <-. by apply mark_inv.
  - destruct (holding c l (sm σ)) eqn:Hh; apply inv_quiet; rw ?Hp //.
    + by intros ? [= <-].
    + intros _. rw (inv_ncli _ I) Hp //.
    + intros _. apply (inv_if _ I). congruence.
  - injection Hm as <-. by apply unmark_inv.
  - injection Hm as <-. by apply store_inv.
  - assert (ncli (cpus (sm σ) c) = lenZ (tcs (sth σ c)) + 1) as Hn by (rw (inv_ncli _ I) Hp //).
    destruct (popcli_run c (sm σ)) as (m' & Hm' & Hc & Hd & Hk);
      [apply (inv_if _ I); [congruence|lia]|lia|]. assert (m' = m) as -> by congruence.
    apply inv_quiet; rw ?Hp ?Hc //.
    + intros _. rw /popped. case_match; simpl; lia.
    + intros _. rw /popped. destruct (Z.eqb_spec (ncli (cpus (sm σ) c)) 1); simpl; [|intros _].
      * case_match; simpl; lia.
      * apply (inv_if _ I); [congruence|lia].
  - assert (ncli (cpus (sm σ) c) = lenZ (tcs (sth σ c)) + 1) as Hn by (rw (inv_ncli _ I) Hp //).
    destruct (popcli_run c (sm σ)) as (m' & Hm' & _);
      [apply (inv_if _ I); [congruence|lia]|lia|]. congruence.
Qed.

Lemma reach_inv σ0 σ : boot σ0 → reach σ0 σ → inv σ.
Proof. intros Hb. induction 1; eauto using boot_inv, step_inv. Qed.

(** C6: mutual exclusion.  However the instructions of [acquire] and [release]
    interleave on any number of CPUs, each of which calls [release] only for a lock
    it holds, two CPUs are never inside the critical section of the same spinlock,
    and the lock word is 1 while one is. *)
Theorem spinlock_mutual_exclusion (σ0 σ : sys) (c d : nat) (l : lockid)
    (Hboot : boot σ0) (Hreach : reach σ0 σ)
    (Hc : l ∈ tcs (sth σ c)) (Hd : l ∈ tcs (sth σ d)) :
  c = d ∧ locked (lks (sm σ) l) = 1 ∧ (tpc (sth σ c) ≠ R2 l → lk_cpu (lks (sm σ) l) = Some c).
Proof.
  pose proof (reach_inv _ _ Hboot Hreach) as I. split_and!.
  - apply (inv_excl _ I l); by left.
  - apply (owned_locked _ c _ I). by left.
  - by apply (inv_mark _ I).
Qed.

(** Interrupts are off and [ncli] counts the locks held while a CPU is in
    a critical section (so [sched]'s [FL_IF] guard cannot fire), and the one
    panic a CPU that releases only what it holds can reach is that of acquiring
    a lock it already holds: neither [release] nor [popcli] panics. *)
Theorem spinlock_discipline (σ0 σ : sys) (c : nat)
    (Hboot : boot σ0) (Hreach : reach σ0 σ) (Hlive : tpc (sth σ c) ≠ Dead) :
  (tcs (sth σ c) ≠ [] → ints_on (cpus (sm σ) c) = false) ∧
  (tpc (sth σ c) = Out → ncli (cpus (sm σ) c) = lenZ (tcs (sth σ c))) ∧
  (∀ σ', step c σ σ' → tpc (sth σ' c) = Dead → ∃ l, tpc (sth σ c) = A1 l ∧ l ∈ tcs (sth σ c)).
Proof.
  pose proof (reach_inv _ _ Hboot Hreach) as I. pose proof (inv_ncli _ I c Hlive) as Hn.
  split_and!.
  - intros Hne. apply (inv_if _ I); [done|].
    assert (0 < lenZ (tcs (sth σ c))) by (destruct (tcs (sth σ c)); [done|simpl; lia]).
    destruct (tpc (sth σ c)); simpl in *; lia.
  - intros Hp. rw Hn Hp /=. lia.
  - intros σ'. destruct 1 as [| l Hp Hh| | | |l Hp Hin| | | |msg m Hp Hm]; rw sth_go decide_True //=.
    + intros _. exists l. split; [done|]. apply (holding_cs σ c l); [done|congruence|done].
    + by case_match.
    + destruct (holding c l (sm σ)) eqn:Hh; [done|].
      apply (holding_cs σ c l) in Hin; [congruence|done|congruence].
    + destruct (popcli_run c (sm σ)) as (m' & Hm' & _);
        [apply (inv_if _ I); [done|rw Hn Hp /=; lia]|rw Hn Hp /=; lia|]. congruence.
Qed.

(** ** Refinement of the lock list of Kernel.v *)

(** CPU [c] of [m] holds exactly the locks of [ls], in a state between calls of
    the functions above. *)
Record holds (m : mach) (c : nat) (ls : list lockid) : Prop := {
  holds_lk l : l ∈ ls ↔ locked (lks m l) ≠ 0 ∧ lk_cpu (lks m l) = Some c;
  holds_nodup : NoDup ls;
  holds_ncli : ncli (cpus m c) = lenZ ls;
  holds_if : ls ≠ [] → ints_on (cpus m c) = false;
}.

Lemma holding_holds m c ls l : holds m c ls → holding c l m = bool_decide (l ∈ ls).
Proof.
  intros H. rw /holding. apply eq_bool_prop_intro.
  rw bool_decide_spec (holds_lk _ _ _ H) andb_True negb_True bool_decide_spec.
  destruct (Z.eqb_spec (locked (lks m l)) 0); naive_solver.
Qed.

(** The field-level [acquire] refines Kernel.v's lock list: it panics when
    the CPU already holds the lock, and otherwise, when the lock word is free,
    returns with the lock added to the list and every other lock untouched. *)
Theorem acquire_refines (m : mach) (k : core) (c : nat) (trace : list Z) (l : lockid)
    (Hm : holds m c (c_locks k)) (Hfree : l ∉ c_locks k → locked (lks m l) = 0) :
  match Kernel.acquire l k with
  | Ret _ k' => ∃ m', acquire c trace l m = Ret tt m' ∧ holds m' c (c_locks k') ∧
      (∀ l', l' ≠ l → lks m' l' = lks m l') ∧ ∀ d, d ≠ c → cpus m' d = cpus m d
  | Panic msg _ => ∃ m', acquire c trace l m = Panic msg m'
  | _ => False
  end.
Proof.
  destruct (pushcli_run c m) as (m1 & Hp & Hc & Hd & Hk).
  assert (holding c l m1 = bool_decide (l ∈ c_locks k)) as Hh.
  { rw -(holding_holds _ _ _ l Hm) /holding Hk //. }
  rw /Kernel.acquire. case_decide as Hin.
  - exists m1. rw /acquire (run_bind _ _ _ _ _ Hp) run_gets Hh bool_decide_true //.
  - eexists. split.
    { rw /acquire (run_bind _ _ _ _ _ Hp) run_gets Hh bool_decide_false //=.
      rw /xchg_locked run_assoc run_gets. rw /mbind /M_bind /modify /mret /M_ret /= Hk Hfree //. }
    split_and!; [constructor; simpl| |].
    + intros l'. rw Hk elem_of_cons. destruct (decide (l = l')) as [<-|Hne].
      * rw !fn_lookup_insert /=. naive_solver.
      * rw !fn_lookup_insert_ne //. rw (holds_lk _ _ _ Hm). intuition congruence.
    + apply list.NoDup_cons. split; [done|apply (holds_nodup _ _ _ Hm)].
    + rw Hc /= (holds_ncli _ _ _ Hm). lia.
    + intros _. rw Hc. apply ints_on_ldiff.
    + intros l' Hl'. rw /= Hk !fn_lookup_insert_ne //.
    + done.
Qed.

(** Likewise [release]. *)
Theorem release_refines (m : mach) (k : core) (c : nat) (l : lockid)
    (Hm : holds m c (c_locks k)) :
  match Kernel.release l k with
  | Ret _ k' => ∃ m', release c l m = Ret tt m' ∧ holds m' c (c_locks k') ∧
      locked (lks m' l) = 0 ∧ (∀ l', l' ≠ l → lks m' l' = lks m l')
  | Panic msg _ => ∃ m', release c l m = Panic msg m'
  | _ => False
  end.
Proof.
  rw /Kernel.release. case_decide as Hin.
  - set (x := lks m l).
    set (m2 := set_lk l (mkSpinlock 0 None (setZ 0 0 (pcs x))) (set_lk l (mkSpinlock (locked x) None (setZ 0 0 (pcs x))) m)).
    pose proof (length_filter_ne l _ (holds_nodup _ _ _ Hm) Hin) as Hlen.
    destruct (popcli_run c m2) as (m' & Hp & Hc & Hd & Hk).
    { apply (holds_if _ _ _ Hm). intros Hn. rw Hn in Hin. by apply not_elem_of_nil in Hin. }
    { rw /= (holds_ncli _ _ _ Hm). lia. }
    exists m'. split_and!; [|constructor| |].
    + rw /release run_gets (holding_holds _ _ _ l Hm) bool_decide_true //=.
      rw /lock_unmark /lock_store0 !run_modify /= fn_lookup_insert /=. done.
    + intros l'. rw Hk list_elem_of_filter /=. destruct (decide (l = l')) as [<-|Hne].
      * rw !fn_lookup_insert /=. naive_solver.
      * rw !fn_lookup_insert_ne //. rw (holds_lk _ _ _ Hm). intuition congruence.
    + apply list.NoDup_filter, (holds_nodup _ _ _ Hm).
    + rw Hc /popped /= (holds_ncli _ _ _ Hm). case_match; simpl; lia.
    + intros Hne. rw Hc /popped /= (holds_ncli _ _ _ Hm).
      assert (0 < lenZ (filter (λ l', l' ≠ l) (c_locks k))) by (destruct (filter _ _); [done|simpl; lia]).
      destruct (Z.eqb_spec (lenZ (c_locks k)) 1); [lia|]. simpl.
      apply (holds_if _ _ _ Hm). intros Hn. rw Hn in Hin. by apply not_elem_of_nil in Hin.
    + rw Hk /= fn_lookup_insert //.
    + intros l' Hl'%not_eq_sym. rw Hk /= !fn_lookup_insert_ne //.
  - exists m. rw /release run_gets (holding_holds _ _ _ l Hm) bool_decide_false //.
Qed.
