(* ===== verification/Kalloc.v ===== *)
(** * Physical pages: kalloc.c

    The memory the kernel allocates from, as it sees it through the direct map
    at [KERNBASE]: a map from page addresses to the 4096 bytes of the page.  An
    access outside of it faults.  The free list lives in the free pages, as in
    the source, and is shown to be a stack of distinct pages. *)

From S2P Require Import Prelude Kernel.

Definition PGSIZE : Z := 4096.
Definition KERNBASE : Z := 0xFFFF800000000000.
Definition PHYSTOP : Z := 0xE000000.
Definition V2P (a : Z) : Z := u64 (a - KERNBASE).
Definition P2V (a : Z) : Z := u64 (a + KERNBASE).
Definition PGROUNDUP (a : Z) : Z := Z.land (u64 (a + (PGSIZE - 1))) (u64 (Z.lnot (PGSIZE - 1))).
Definition PGROUNDDOWN (a : Z) : Z := Z.land a (u64 (Z.lnot (PGSIZE - 1))).

(** Masking the offset in the page off. *)
Lemma land_page a : 0 ≤ a < 2 ^ 64 → Z.land a (u64 (Z.lnot (PGSIZE - 1))) = a / 4096 * 4096.
Proof.
  intros Ha. change (u64 (Z.lnot (PGSIZE - 1))) with (Z.shiftl (Z.ones 52) 12). change 4096 with (2 ^ 12).
  rw -Z.shiftl_mul_pow2; [lia|]. rw -Z.shiftr_div_pow2; [lia|].
  apply Z.bits_inj'. intros n Hn. rw Z.land_spec. rw (Z.shiftl_spec (Z.ones 52)); [lia|]. rw (Z.shiftl_spec (Z.shiftr a 12)); [lia|]. destruct (Z.ltb_spec n 12).
  - rw !(Z.testbit_neg_r _ (n - 12)); [lia..|]. apply andb_false_r.
  - rw Z.shiftr_spec; [lia|]. rw (_ : n - 12 + 12 = n); [lia|]. destruct (Z.ltb_spec n 64).
    + rw Z.ones_spec_low; [lia|]. apply andb_true_r.
    + rw (Z.bits_above_log2 a); [lia| |done]. destruct (decide (a = 0)) as [->|]; [simpl; lia|].
      apply Z.log2_lt_pow2; [lia|]. apply (Z.lt_le_trans _ (2 ^ 64)); [lia|]. apply Z.pow_le_mono_r; lia.
Qed.

(** [lia] on page addresses. *)
Ltac plia := unfold PGSIZE, KERNBASE, PHYSTOP in *; lia.

(** vm.c's [kpml4] and [kpdpt], the register that holds the page table, and the
    kernel stack in the task state segment. *)
Record vmglobals := mkVmg { g_kpml4 : Z; g_kpdpt : Z; g_cr3 : Z; g_stktop : Z }.

(** [kmem], the pages, and the globals of vm.c. *)
Record kst := mkKst {
  k_core : core;
  k_mem : gmap Z (list Z);
  k_freelist : Z;
  k_uselock : Z;
  k_vm : vmglobals;
}.

#[global] Instance kst_core : Lens kst core.
Proof.
  refine {| lget := k_core; lset := λ c s, mkKst c (k_mem s) (k_freelist s) (k_uselock s) (k_vm s) |}; intros; by try destruct o.
Defined.

Definition set_mem (m : gmap Z (list Z)) (s : kst) : kst := mkKst (k_core s) m (k_freelist s) (k_uselock s) (k_vm s).
Definition set_freelist (v : Z) (s : kst) : kst := mkKst (k_core s) (k_mem s) v (k_uselock s) (k_vm s).
Definition set_uselock (v : Z) (s : kst) : kst := mkKst (k_core s) (k_mem s) (k_freelist s) v (k_vm s).

Definition set_vm (v : vmglobals) (s : kst) : kst := mkKst (k_core s) (k_mem s) (k_freelist s) (k_uselock s) v.

(** ** Memory accesses *)

Definition pagebase (a : Z) : Z := a - a mod PGSIZE.

Definition getpage (p : Z) : M kst (list Z) := λ s,
  match k_mem s !! p with Some d => Ret d s | None => Fault s end.
Definition putpage (p : Z) (d : list Z) : M kst unit := λ s,
  match k_mem s !! p with Some _ => Ret tt (set_mem (<[p := d]> (k_mem s)) s) | None => Fault s end.

(** Aligned loads and stores. *)
Definition rd64 (a : Z) : M kst Z := d ← getpage (pagebase a); mret (load64 (a mod PGSIZE) d).
Definition wr64 (a v : Z) : M kst unit :=
  d ← getpage (pagebase a); putpage (pagebase a) (store64 (a mod PGSIZE) v d).
Definition wr32 (a v : Z) : M kst unit :=
  d ← getpage (pagebase a); putpage (pagebase a) (store32 (a mod PGSIZE) v d).

(** [memset(v, c, PGSIZE)] of a page. *)
Definition memset_page (v c : Z) : M kst unit := putpage v (replicate (Z.to_nat PGSIZE) (u8 c)).

Lemma rd64_run a s d : k_mem s !! pagebase a = Some d → rd64 a s = Ret (load64 (a mod PGSIZE) d) s.
Proof. intros H. by rw /rd64 /mbind /M_bind /getpage H. Qed.

Lemma wr64_run a v s d :
  k_mem s !! pagebase a = Some d →
  wr64 a v s = Ret tt (set_mem (<[pagebase a := store64 (a mod PGSIZE) v d]> (k_mem s)) s).
Proof. intros H. by rw /wr64 /mbind /M_bind /getpage /putpage H /= H. Qed.

Lemma wr32_run a v s d :
  k_mem s !! pagebase a = Some d → wr32 a v s = Ret tt (set_mem (<[pagebase a := store32 (a mod PGSIZE) v d]> (k_mem s)) s).
Proof. intros H. by rw /wr32 /mbind /M_bind /getpage /putpage H /= H. Qed.

Section kalloc.
(** [end], the first address after the kernel, is the linker's. *)
Context (kend : Z).

Definition klock : M kst unit := u ← gets k_uselock; when (negb (u =? 0)) (lift (acquire LKmem)).
Definition kunlock : M kst unit := u ← gets k_uselock; when (negb (u =? 0)) (lift (release LKmem)).

Definition kfree (v : Z) : M kst unit :=
  if negb (v mod PGSIZE =? 0) || (v <? kend) || (V2P v >=? PHYSTOP) then panic "kfree" else
  memset_page v 1;;
  klock;;
  l ← gets k_freelist;
  wr64 v l;;
  modify (set_freelist v);;
  kunlock.

Definition kalloc : M kst Z :=
  klock;;
  r ← gets k_freelist;
  when (negb (r =? 0)) (n ← rd64 r; modify (set_freelist n));;
  kunlock;;
  mret r.

Fixpoint freerange_loop (fuel : nat) (p vend : Z) : M kst unit :=
  match fuel with
  | O => diverge
  | S fuel =>
    if u64 (p + PGSIZE) <=? vend then kfree p;; freerange_loop fuel (u64 (p + PGSIZE)) vend
    else mret tt
  end.

Definition freerange (vstart vend : Z) : M kst unit :=
  let p := PGROUNDUP vstart in
  freerange_loop (Z.to_nat ((vend - p) / PGSIZE) + 1) p vend.

Definition kinit1 (vstart vend : Z) : M kst unit :=
  modify (set_uselock 0);;
  modify (set_freelist 0);;
  freerange vstart vend.

Definition kinit2 : M kst unit := modify (set_uselock 1).

(** ** The free list is a stack of pages *)

Definition page (d : list Z) : Prop := length d = Z.to_nat PGSIZE ∧ bytes d.

(** An address [kfree] accepts. *)
Record kpage (p : Z) : Prop := {
  kp_align : p mod PGSIZE = 0;
  kp_end : kend ≤ p;
  kp_base : KERNBASE ≤ p < KERNBASE + PHYSTOP;
}.

Fixpoint chain (m : gmap Z (list Z)) (a : Z) (F : list Z) : Prop :=
  match F with
  | [] => a = 0
  | p :: F => a = p ∧ ∃ d, m !! p = Some d ∧ chain m (load64 0 d) F
  end.

(** The state of the allocator whose free pages are [F], last freed first. *)
Record krepr (F : list Z) (s : kst) : Prop := {
  kr_chain : chain (k_mem s) (k_freelist s) F;
  kr_nodup : NoDup F;
  kr_pages : Forall kpage F;
  kr_mem p : kpage p → ∃ d, k_mem s !! p = Some d ∧ page d;
  kr_locks : LKmem ∉ c_locks (k_core s);
}.

(** A page as [kfree] leaves it. *)
Definition junk (next : Z) : list Z := store64 0 next (replicate (Z.to_nat PGSIZE) 1).

Lemma kpage_pos p : kpage p → 0 < p < 2 ^ 64.
Proof. intros [_ _ H]. rw /KERNBASE /PHYSTOP in H. lia. Qed.

Lemma V2P_kpage p : kpage p → V2P p = p - KERNBASE.
Proof. intros [_ _ H]. rw /V2P u64_small; [|done]. rw /KERNBASE /PHYSTOP in H |- *. lia. Qed.

Lemma P2V_V2P p : 0 ≤ p < 2 ^ 64 → P2V (V2P p) = p.
Proof. rw /P2V /V2P /u64 /KERNBASE. intros. rw Zplus_mod_idemp_l Z.mod_small; lia. Qed.

Lemma page_junk n : page (junk n).
Proof.
  split; [|by apply bytes_store, Forall_replicate; rw /byte; lia]. rw /junk length_store //; rw ?length_replicate //.
Qed.

Lemma page_zero c : page (replicate (Z.to_nat PGSIZE) (u8 c)).
Proof. split; [by rw length_replicate|]. apply Forall_replicate. rw /byte /u8. lia. Qed.

Lemma load_junk n : 0 ≤ n < 2 ^ 64 → load64 0 (junk n) = n.
Proof. intros. apply load_store_small; [lia|by rw length_replicate|done]. Qed.

Lemma pagebase_page p : p mod PGSIZE = 0 → pagebase p = p.
Proof. rw /pagebase. lia. Qed.

(** A change of a page that is not on the list leaves the list. *)
Lemma chain_frame m m' a F : (∀ p, p ∈ F → m' !! p = m !! p) → chain m a F → chain m' a F.
Proof.
  revert a. induction F as [|p F IH]; intros a Hm; simpl; [done|]. intros (-> & d & Hd & Hc).
  split; [done|]. exists d. rw Hm; [by left|]. split; [done|]. apply IH; [|done]. intros; apply Hm; by right.
Qed.

#[local] Opaque acquire release.

(** Locking changes nothing once it is undone. *)
Lemma klocked {A} s (m : M kst A) x s' :
  LKmem ∉ c_locks (k_core s) →
  (∀ c, m (lset c s) = Ret x (lset c s')) → k_uselock s' = k_uselock s → k_core s' = k_core s →
  (klock;; (a ← m; kunlock;; mret a)) s = Ret x s'.
Proof.
  intros Hl Hm Hu Hc. rw /klock /kunlock /mbind /M_bind /gets /=. destruct (Z.eqb_spec (k_uselock s) 0) as [E|E]; simpl.
  - assert (lset (k_core s) s = s ∧ lset (k_core s) s' = s') as [E1 E2] by (rw -{2}Hc; by destruct s, s').
    rw -{1}E1 Hm E2 /= Hu E //.
  - rw /lift (acquire_run _ _ Hl) /=. rw Hm /= Hu. destruct (Z.eqb_spec (k_uselock s) 0); [done|]. simpl.
    rw (release_run _ (c_locks (k_core s))) //= set_locks_set_locks set_locks_id -Hc -Hu. by destruct s'.
Qed.

Lemma kfree_guard v : kpage v → negb (v mod PGSIZE =? 0) || (v <? kend) || (V2P v >=? PHYSTOP) = false.
Proof.
  intros Hv. rw V2P_kpage //. destruct Hv as [Ha He Hb]. rw Ha Z.geb_leb. bool_cases; simpl; try done; lia.
Qed.

Lemma kfree_ok F s v :
  krepr F s → kpage v → v ∉ F →
  ∃ s', kfree v s = Ret tt s' ∧ krepr (v :: F) s' ∧
    k_mem s' = <[v := junk (k_freelist s)]> (k_mem s) ∧ k_core s' = k_core s ∧ k_uselock s' = k_uselock s ∧ k_vm s' = k_vm s.
Proof.
  intros Hk Hv Hn. pose proof Hk as [Hc Hd Hp Hm Hl]. destruct (Hm v Hv) as (d & Hvd & Hpd).
  set (s1 := set_mem (<[v := replicate (Z.to_nat PGSIZE) (u8 1)]> (k_mem s)) s).
  set (s' := mkKst (k_core s) (<[v := junk (k_freelist s)]> (k_mem s)) v (k_uselock s) (k_vm s)).
  assert (0 ≤ k_freelist s < 2 ^ 64) as Hfl.
  { destruct F as [|p F]; simpl in Hc; [rw Hc; lia|]. destruct Hc as [-> _].
    apply list.Forall_cons in Hp as [?%kpage_pos _]. lia. }
  exists s'. split_and!; [|split|done|done|done|done].
  - rw /kfree kfree_guard //. rw /mbind /M_bind. cbn [memset_page]. rw /memset_page /putpage Hvd. cbn [bindo]. fold s1.
    pose proof (klocked s1 (l ← gets k_freelist; wr64 v l;; modify (set_freelist v)) tt s') as Hlk.
    etrans; [|apply Hlk; [done| |done|done]].
    + rw /mbind /M_bind /=. destruct (klock s1) as [[] s2| | | |]; [|done..]. rw /mbind /M_bind /=. rw /gets /=.
      destruct (wr64 v (k_freelist s2) s2); [|done..]. simpl. by destruct (kunlock _) as [[]| | | |].
    + intros c. rw /mbind /M_bind /gets /=. rw (wr64_run _ _ _ (replicate (Z.to_nat PGSIZE) (u8 1))).
      { by rw (pagebase_page v (kp_align _ Hv)) /= lookup_insert_eq. }
      rw (pagebase_page v (kp_align _ Hv)) (kp_align _ Hv) /= insert_insert_eq //.
  - cbn. split; [done|]. exists (junk (k_freelist s)). rw lookup_insert_eq. split; [done|].
    rw load_junk //. eapply chain_frame; [|done]. intros p Hpin. rw lookup_insert_ne //. by intros <-.
  - by apply list.NoDup_cons.
  - by apply list.Forall_cons.
  - intros p Hpp. cbn. destruct (decide (p = v)) as [->|]; [rw lookup_insert_eq; eexists; split; [done|apply page_junk]|].
    rw lookup_insert_ne //. by apply Hm.
  - done.
Qed.

Lemma kalloc_ok F s :
  krepr F s →
  ∃ s', kalloc s = Ret (hd 0 F) s' ∧ krepr (tl F) s' ∧ k_mem s' = k_mem s ∧ k_core s' = k_core s ∧ k_uselock s' = k_uselock s ∧ k_vm s' = k_vm s.
Proof.
  intros Hk. pose proof Hk as [Hc Hd Hp Hm Hl].
  set (nx := match F with [] => 0 | p :: _ => load64 0 (k_mem s !!! p) end).
  set (s' := set_freelist nx s).
  assert (chain (k_mem s) nx (tl F)) as Hnx.
  { destruct F as [|p F]; [done|]. destruct Hc as (_ & d & Hpd & Hc'). simpl. by rw /nx (lookup_total_correct _ _ _ Hpd). }
  exists s'. split_and!; [|split|done|done|done|done].
  - pose proof (klocked s (r ← gets k_freelist; when (negb (r =? 0)) (n ← rd64 r; modify (set_freelist n));; mret r) (hd 0 F) s') as Hlk.
    etrans; [|apply Hlk; [done| |done|done]].
    + rw /kalloc /mbind /M_bind /=. destruct (klock s) as [[] s2| | | |]; [|done..]. rw /mbind /M_bind /=. rw /gets /=.
      by destruct (when _ _ s2) as [[]| | | |].
    + intros c. rw /mbind /M_bind /gets /=. destruct F as [|p F]; simpl in Hc.
      * by rw Hc.
      * destruct Hc as (-> & d & Hpd & _). apply list.Forall_cons in Hp as [Hpp _]. pose proof (kpage_pos _ Hpp).
        destruct (Z.eqb_spec p 0); [lia|]. cbn [negb when]. rw /when /mbind /M_bind (rd64_run _ _ d).
        { by rw (pagebase_page _ (kp_align _ Hpp)). }
        rw (kp_align _ Hpp) /s' /nx (lookup_total_correct _ _ _ Hpd). done.
  - done.
  - destruct F; [done|]. by apply list.NoDup_cons in Hd as [_ ?].
  - destruct F; [done|]. by apply list.Forall_cons in Hp as [_ ?].
  - done.
  - done.
Qed.

(** The pages of [freerange]: [n] of them, upwards from [p]. *)
Definition page_run (p : Z) (n : nat) : list Z := (λ i, p + PGSIZE * Z.of_nat i) <$> seq 0 n.

Lemma page_run_S p n : page_run p (S n) = p :: page_run (p + PGSIZE) n.
Proof.
  rw /page_run. cbn [seq]. rw fmap_cons -fmap_S_seq -list_fmap_compose. f_equal; [lia|]. apply list_fmap_ext. intros i x _. simpl. lia.
Qed.

Lemma freerange_loop_ok (n : nat) F s p vend fuel :
  krepr F s → (n < fuel)%nat → Forall kpage (page_run p n) → (∀ q, q ∈ page_run p n → q ∉ F) →
  0 ≤ p → p + PGSIZE * Z.of_nat n ≤ vend < p + PGSIZE * Z.of_nat n + PGSIZE → vend < 2 ^ 64 - PGSIZE →
  ∃ s', freerange_loop fuel p vend s = Ret tt s' ∧ krepr (rev (page_run p n) ++ F) s' ∧
    k_core s' = k_core s ∧ k_uselock s' = k_uselock s ∧ k_vm s' = k_vm s.
Proof.
  revert F s p fuel. induction n as [|n IH]; intros F s p fuel Hk Hf Hp Hd H0 Hv Hw; (destruct fuel as [|fuel]; [lia|]);
    cbn [freerange_loop]; rw u64_small; try (plia).
  - destruct (Z.leb_spec (p + PGSIZE) vend); [plia|]. by exists s.
  - destruct (Z.leb_spec (p + PGSIZE) vend); [|plia]. rw page_run_S in Hp, Hd.
    apply list.Forall_cons in Hp as [Hpp Hp]. destruct (kfree_ok F s p) as (s1 & Hr & Hk1 & _ & Hc1 & Hu1 & Hg1); [done|done|set_solver|].
    destruct (IH (p :: F) s1 (p + PGSIZE) fuel) as (s2 & Hr2 & Hk2 & Hc2 & Hu2 & Hg2); [done|lia|done| |plia|lia|lia|].
    + intros q Hq [->|Hin]%elem_of_cons; [|by apply (Hd q); [right|]].
      apply list_elem_of_fmap in Hq as (i & E & _). rw /PGSIZE in E. lia.
    + exists s2. rw page_run_S /mbind /M_bind Hr. cbn [bindo rev]. rw Hr2 -app_assoc. split_and!; [done|done|congruence..].
Qed.

(** [kinit1] puts every whole page between [vstart] and [vend] on the free
    list, once, and nothing else. *)
Theorem kinit1_ok s vstart vend :
  0 ≤ vstart ≤ vend → KERNBASE ≤ vstart → kend ≤ vstart → vend ≤ KERNBASE + PHYSTOP → LKmem ∉ c_locks (k_core s) →
  (∀ p, kpage p → ∃ d, k_mem s !! p = Some d ∧ page d) →
  ∃ s' F, kinit1 vstart vend s = Ret tt s' ∧ krepr F s' ∧
    ∀ p, p ∈ F ↔ p mod PGSIZE = 0 ∧ vstart ≤ p ∧ p + PGSIZE ≤ vend.
Proof.
  intros H0 Hb He Hv Hl Hm. rw /KERNBASE /PHYSTOP in Hb, Hv.
  assert (PGROUNDUP vstart = (vstart + 4095) / 4096 * 4096) as Hr.
  { rw /PGROUNDUP u64_small; [plia|]. rw land_page; [plia|]. done. }
  set (p0 := (vstart + 4095) / 4096 * 4096) in *. set (n := Z.to_nat ((vend - p0) / PGSIZE)).
  assert (∀ q, q ∈ page_run p0 n ↔ q mod PGSIZE = 0 ∧ vstart ≤ q ∧ q + PGSIZE ≤ vend) as Hin.
  { intros q. rw /page_run list_elem_of_fmap. rw /n /PGSIZE. split.
    - intros (i & -> & Hi%elem_of_seq). lia.
    - intros (? & ? & ?). exists (Z.to_nat ((q - p0) / 4096)). split; [lia|]. apply elem_of_seq. lia. }
  destruct (decide (p0 ≤ vend)) as [Hle|Hgt].
  - destruct (freerange_loop_ok n [] (set_freelist 0 (set_uselock 0 s)) p0 vend (n + 1)) as (s' & Hrun & Hk & _).
    + split; [done|constructor|constructor|done|done].
    + lia.
    + apply list.Forall_forall. intros q Hq%Hin. rw /PGSIZE in Hq. split; [apply Hq|lia|rw /KERNBASE /PHYSTOP; lia].
    + intros q _. apply not_elem_of_nil.
    + lia.
    + rw /n /PGSIZE. lia.
    + rw /PGSIZE. lia.
    + exists s', (rev (page_run p0 n) ++ []). split_and!; [|done|].
      * by rw /kinit1 /mbind /M_bind /= /freerange Hr.
      * intros q. rw app_nil_r. rw -Hin !list_elem_of_In -in_rev //.
  - exists (set_freelist 0 (set_uselock 0 s)), []. split_and!.
    + rw /kinit1 /mbind /M_bind /= /freerange Hr. rw (Nat.add_comm _ 1). cbn [freerange_loop Nat.add]. rw u64_small; [plia|].
      destruct (Z.leb_spec (p0 + PGSIZE) vend); [plia|done].
    + split; [done|constructor|constructor|done|done].
    + intros q. split; [by intros ?%not_elem_of_nil|]. rw /PGSIZE. lia.
Qed.

(** C27: [kalloc] and [kfree] implement a stack of free pages.  [kalloc] returns 0
    only when none is left, otherwise a page that was free, which then no longer
    is, its contents untouched; [kfree] of a page that is not free makes it free,
    and only overwrites that page; neither panics or blocks. *)
Theorem kalloc_kfree_refine F s v :
  krepr F s →
  (∃ s', kalloc s = Ret (hd 0 F) s' ∧ krepr (tl F) s' ∧ k_mem s' = k_mem s ∧
     (F ≠ [] → kpage (hd 0 F) ∧ hd 0 F ∉ tl F)) ∧
  (kpage v → v ∉ F → ∃ s', kfree v s = Ret tt s' ∧ krepr (v :: F) s' ∧ ∀ p, p ≠ v → k_mem s' !! p = k_mem s !! p) ∧
  (¬ kpage v → 0 ≤ v < 2 ^ 64 → kfree v s = Panic "kfree" s).
Proof.
  intros Hk. split_and!.
  - destruct (kalloc_ok F s Hk) as (s' & ? & ? & ? & _). exists s'. split_and!; try done. destruct Hk as [_ Hd Hp _ _].
    destruct F; [done|]. intros _. by apply list.NoDup_cons in Hd as [? _]; apply list.Forall_cons in Hp as [? _].
  - intros Hv Hn. destruct (kfree_ok F s v Hk Hv Hn) as (s' & ? & ? & Hm & _). exists s'. split_and!; [done|done|].
    intros p Hp. by rw Hm lookup_insert_ne.
  - intros Hv Hr. rw /kfree. destruct (negb _ || _ || _) eqn:E; [done|]. exfalso. apply Hv.
    rw !orb_false_iff negb_false_iff Z.eqb_eq Z.ltb_ge Z.geb_leb Z.leb_gt in E. destruct E as [[E1 E2] E3].
    split; [done|done|]. rw /V2P /u64 /KERNBASE /PHYSTOP in E3 |- *. lia.
Qed.
End kalloc.
