(* ===== verification/Vm.v ===== *)
(** * Page tables: vm.c

    Page tables are pages of 512 64-bit entries in the memory of Kalloc.v, four
    levels deep; every function below reads and writes them there, as the
    source does.  [loaduvm], which reads a file, is in Exec.v.  The theorems are
    in VmTree.v (the tree of tables), VmSpace.v (address spaces), VmOps.v (single
    pages), VmSize.v (growing and shrinking) and VmCopy.v (freeing and copying). *)

From S2P Require Import Prelude Kernel Kalloc.

Definition PTE_P : Z := 0x001.
Definition PTE_W : Z := 0x002.
Definition PTE_U : Z := 0x004.
Definition PTE_PWT : Z := 0x008.
Definition PTE_PCD : Z := 0x010.
Definition PTE_PS : Z := 0x080.
Definition PTE_ADDR (pte : Z) : Z := Z.land pte (u64 (Z.lnot 0xFFF)).
Definition PTE_FLAGS (pte : Z) : Z := Z.land pte 0xFFF.

Definition PXMASK : Z := 0x1FF.
Definition NPDENTRIES : Z := 512.
Definition KSTACKSIZE : Z := 4096.
Definition PMX (va : Z) : Z := Z.land (Z.shiftr va 39) PXMASK.
Definition PDPX (va : Z) : Z := Z.land (Z.shiftr va 30) PXMASK.
Definition PDX (va : Z) : Z := Z.land (Z.shiftr va 21) PXMASK.
Definition PTX (va : Z) : Z := Z.land (Z.shiftr va 12) PXMASK.

(** [if (pte & bit)] *)
Definition has (bit pte : Z) : bool := negb (Z.land pte bit =? 0).

Section vm.
Context (kend : Z).

Abbreviation kalloc := Kalloc.kalloc.
Abbreviation kfree := (Kalloc.kfree kend).

(** Find or allocate the table that the entry at [e] leads to; 0 on failure. *)
Definition walk_step (e : Z) (alloc : bool) : M kst Z :=
  v ← rd64 e;
  if has PTE_P v then mret (P2V (PTE_ADDR v)) else
  if negb alloc then mret 0 else
  p ← kalloc;
  if p =? 0 then mret 0 else
  memset_page p 0;;
  wr64 e (Z.lor (Z.lor (Z.lor (V2P p) PTE_P) PTE_W) PTE_U);;
  mret p.

Definition walkpgdir (pml4 va : Z) (alloc : bool) : M kst Z :=
  pdp ← walk_step (pml4 + 8 * PMX va) alloc;
  if pdp =? 0 then mret 0 else
  pd ← walk_step (pdp + 8 * PDPX va) alloc;
  if pd =? 0 then mret 0 else
  pgtab ← walk_step (pd + 8 * PDX va) alloc;
  if pgtab =? 0 then mret 0 else
  mret (pgtab + 8 * PTX va).

Fixpoint mappages_loop (fuel : nat) (pgdir a last pa perm : Z) : M kst Z :=
  match fuel with
  | O => diverge
  | S fuel =>
    pte ← walkpgdir pgdir a true;
    if pte =? 0 then mret (-1) else
    v ← rd64 pte;
    if has PTE_P v then panic "remap" else
    wr64 pte (Z.lor (Z.lor pa perm) PTE_P);;
    if a =? last then mret 0
    else mappages_loop fuel pgdir (u64 (a + PGSIZE)) last (u64 (pa + PGSIZE)) perm
  end.

Definition mappages (pgdir va size pa perm : Z) : M kst Z :=
  let a := PGROUNDDOWN va in
  let last := PGROUNDDOWN (u64 (va + size - 1)) in
  mappages_loop (Z.to_nat ((last - a) / PGSIZE) + 1) pgdir a last pa perm.

Definition setupkvm : M kst Z :=
  pml4 ← kalloc;
  memset_page pml4 0;;
  g ← gets k_vm;
  wr64 (pml4 + 8 * 256) (Z.lor (Z.lor (V2P (g_kpdpt g)) PTE_P) PTE_W);;
  mret pml4.

Definition lcr3 (v : Z) : M kst unit :=
  g ← gets k_vm; modify (set_vm (mkVmg (g_kpml4 g) (g_kpdpt g) v (g_stktop g))).

Definition switchkvm : M kst unit := g ← gets k_vm; lcr3 (V2P (g_kpml4 g)).

(** [pushcli] and [popcli] around it are Spinlock.v's. *)
Definition switchuvm (p : proc) : M kst unit :=
  if p_pgdir p =? 0 then panic "switchuvm: no pgdir" else
  g ← gets k_vm;
  modify (set_vm (mkVmg (g_kpml4 g) (g_kpdpt g) (g_cr3 g) (u64 (p_kstack p + KSTACKSIZE))));;
  lcr3 (V2P (p_pgdir p)).

Definition kvmalloc : M kst unit :=
  kpml4 ← kalloc;
  memset_page kpml4 0;;
  kpdpt ← kalloc;
  memset_page kpdpt 0;;
  g ← gets k_vm;
  modify (set_vm (mkVmg kpml4 kpdpt (g_cr3 g) (g_stktop g)));;
  wr64 (kpml4 + 8 * PMX KERNBASE) (Z.lor (Z.lor (V2P kpdpt) PTE_P) PTE_W);;
  wr64 kpdpt (Z.lor (Z.lor (Z.lor 0 PTE_PS) PTE_P) PTE_W);;
  wr64 (kpdpt + 8 * 3) (Z.lor (Z.lor (Z.lor (Z.lor (Z.lor 0xC0000000 PTE_PS) PTE_P) PTE_W) PTE_PWT) PTE_PCD);;
  switchkvm.

(** [init] is the program, of [lenZ init] bytes. *)
Definition inituvm (pgdir : Z) (init : list Z) : M kst unit :=
  if lenZ init >=? PGSIZE then panic "inituvm: more than a page" else
  mem ← kalloc;
  memset_page mem 0;;
  mappages pgdir PGSIZE PGSIZE (V2P mem) (Z.lor PTE_W PTE_U);;
  d ← getpage mem;
  putpage mem (splice 0 init d).

Fixpoint deallocuvm_loop (fuel : nat) (pgdir a oldsz : Z) : M kst unit :=
  match fuel with
  | O => diverge
  | S fuel =>
    if a <? oldsz then
      pte ← walkpgdir pgdir a false;
      (if pte =? 0 then mret tt else
       v ← rd64 pte;
       when (has PTE_P v)
         (let pa := PTE_ADDR v in
          if pa =? 0 then panic "kfree" else
          kfree (P2V pa);;
          wr64 pte 0));;
      deallocuvm_loop fuel pgdir (u64 (a + PGSIZE)) oldsz
    else mret tt
  end.

Definition npages (lo hi : Z) : nat := Z.to_nat ((hi - lo) / PGSIZE) + 2.

Definition deallocuvm (pgdir oldsz newsz : Z) : M kst Z :=
  if newsz >=? oldsz then mret oldsz else
  let a := PGROUNDUP newsz in
  deallocuvm_loop (npages a oldsz) pgdir a oldsz;;
  mret newsz.

Fixpoint allocuvm_loop (fuel : nat) (pgdir a oldsz newsz : Z) : M kst Z :=
  match fuel with
  | O => diverge
  | S fuel =>
    if a <? newsz then
      mem ← kalloc;
      if mem =? 0 then deallocuvm pgdir newsz oldsz;; mret 0 else
      memset_page mem 0;;
      r ← mappages pgdir a PGSIZE (V2P mem) (Z.lor PTE_W PTE_U);
      if r <? 0 then deallocuvm pgdir newsz oldsz;; kfree mem;; mret 0 else
      allocuvm_loop fuel pgdir (u64 (a + PGSIZE)) oldsz newsz
    else mret newsz
  end.

Definition allocuvm (pgdir oldsz newsz : Z) : M kst Z :=
  if newsz >=? KERNBASE then mret 0 else
  if newsz <? oldsz then mret oldsz else
  let a := PGROUNDUP oldsz in
  allocuvm_loop (npages a newsz) pgdir a oldsz newsz.

(** The loops of [freevm] over the entries of one table; [sub] frees what a
    present entry leads to. *)
Definition free_table (n : Z) (t : Z) (sub : Z → M kst unit) : M kst unit :=
  for_up (Z.to_nat n) 0 (λ i,
    v ← rd64 (t + 8 * i);
    when (has PTE_P v) (sub (P2V (PTE_ADDR v))));;
  kfree t.

Definition free_pt (pt : Z) : M kst unit := free_table NPDENTRIES pt kfree.
Definition free_pd (pd : Z) : M kst unit := free_table NPDENTRIES pd free_pt.
Definition free_pdp (pdp : Z) : M kst unit := free_table NPDENTRIES pdp free_pd.

Definition freevm (pml4 : Z) : M kst unit :=
  if pml4 =? 0 then panic "freevm: no pgdir" else
  free_table (NPDENTRIES / 2) pml4 free_pdp.

Definition clearpteu (pgdir uva : Z) : M kst unit :=
  pte ← walkpgdir pgdir uva false;
  if pte =? 0 then panic "clearpteu" else
  v ← rd64 pte;
  wr64 pte (Z.land v (u64 (Z.lnot PTE_U))).

Fixpoint copyuvm_loop (fuel : nat) (pgdir d i sz : Z) : M kst Z :=
  match fuel with
  | O => diverge
  | S fuel =>
    if i <? sz then
      pte ← walkpgdir pgdir i false;
      if pte =? 0 then panic "copyuvm: pte should exist" else
      v ← rd64 pte;
      if negb (has PTE_P v) then panic "copyuvm: page not present" else
      mem ← kalloc;
      if mem =? 0 then freevm d;; mret 0 else
      x ← getpage (P2V (PTE_ADDR v));
      putpage mem x;;
      r ← mappages d i PGSIZE (V2P mem) (PTE_FLAGS v);
      if r <? 0 then freevm d;; mret 0 else
      copyuvm_loop fuel pgdir d (u64 (i + PGSIZE)) sz
    else mret d
  end.

(** The size is a [uint]. *)
Definition copyuvm (pgdir sz : Z) : M kst Z :=
  let sz := u32 sz in
  d ← setupkvm;
  if d =? 0 then mret 0 else
  copyuvm_loop (npages PGSIZE sz) pgdir d PGSIZE sz.

Definition uva2ka (pgdir uva : Z) : M kst Z :=
  pte ← walkpgdir pgdir uva false;
  v ← rd64 pte;
  if negb (has PTE_P v) then mret 0 else
  if negb (has PTE_U v) then mret 0 else
  mret (P2V (PTE_ADDR v)).

(** [p] is what is left to copy. *)
Fixpoint copyout_loop (fuel : nat) (pgdir va : Z) (p : list Z) : M kst Z :=
  match fuel with
  | O => diverge
  | S fuel =>
    if lenZ p =? 0 then mret 0 else
    let va0 := PGROUNDDOWN va in
    pa0 ← uva2ka pgdir va0;
    if pa0 =? 0 then mret (-1) else
    let n := Z.min (PGSIZE - (va - va0)) (lenZ p) in
    d ← getpage pa0;
    putpage pa0 (splice (va - va0) (slice 0 n p) d);;
    copyout_loop fuel pgdir (u64 (va0 + PGSIZE)) (drop (Z.to_nat n) p)
  end.

Definition copyout (pgdir va : Z) (p : list Z) : M kst Z :=
  copyout_loop (Z.to_nat (lenZ p / PGSIZE) + 3) pgdir va p.
End vm.
