(* ===== verification/VmTree.v ===== *)
(** * The tree of page tables

    A page table of level [l] (4 for the root, 1 for the tables of leaf entries)
    and everything below it, as a list of pages; and the entry that a virtual
    address leads to.  [walkpgdir] finds that entry, and in allocating tables on
    the way changes no entry of any address. *)

From S2P Require Import Prelude Kernel Kalloc Vm.

Abbreviation pmem := (gmap Z (list Z)).

Definition entry (m : pmem) (a i : Z) : Z := load64 (8 * i) (m !!! a).
Definition child (v : Z) : Z := P2V (PTE_ADDR v).
Definition idx (l : nat) (va : Z) : Z := Z.land (Z.shiftr va (12 + 9 * (Z.of_nat l - 1))) PXMASK.

(** Entries of a table that belong to the address space: the upper half of the
    root is the kernel's. *)
Definition lim (l : nat) : Z := if Nat.eqb l 4 then NPDENTRIES / 2 else NPDENTRIES.

(** The pages of a tree: the tables, and with [b] the pages they map. *)
Fixpoint foot (b : bool) (l : nat) (m : pmem) (a : Z) : list Z :=
  match l with
  | O => if b then [a] else []
  | S l' => a :: concat ((λ i, let v := entry m a i in if has PTE_P v then foot b l' m (child v) else []) <$> seqZ 0 (lim l))
  end.
Abbreviation tabs := (foot false).

(** The address of the leaf entry of [va]. *)
Fixpoint walk (l : nat) (m : pmem) (a va : Z) : option Z :=
  match l with
  | O => None
  | S O => Some (a + 8 * idx 1 va)
  | S l' => let v := entry m a (idx l va) in if has PTE_P v then walk l' m (child v) va else None
  end.

(** The leaf entry of [va]; 0 when there is no table for it. *)
Definition pte (l : nat) (m : pmem) (a va : Z) : Z :=
  match walk l m a va with
  | Some e => load64 (e mod PGSIZE) (m !!! pagebase e)
  | None => 0
  end.

(** A tree whose pages are distinct from one another and from [X]. *)
Record tree (kend : Z) (l : nat) (m : pmem) (a : Z) (X : list Z) : Prop := {
  tr_nodup : NoDup (foot true l m a ++ X);
  tr_pages : Forall (kpage kend) (foot true l m a);
}.

(** ** Indices *)

Lemma idx_range l va : 0 ≤ idx l va < 512.
Proof. rw /idx /PXMASK (Z.land_ones _ 9); [lia|]. apply Z.mod_pos_bound. lia. Qed.

Lemma lim_range l : 0 < lim l ≤ 512.
Proof. rw /lim /NPDENTRIES. destruct (Nat.eqb l 4); lia. Qed.

(** A user address: below the upper half. *)
Definition uaddr (va : Z) : Prop := 0 ≤ va < 2 ^ 47.

Lemma idx_div l va : (1 ≤ l)%nat → idx l va = va / 2 ^ (12 + 9 * (Z.of_nat l - 1)) mod 512.
Proof. intros Hl. rw /idx /PXMASK (Z.land_ones _ 9); [lia|]. by rw Z.shiftr_div_pow2; [lia|]. Qed.

Lemma idx_lim l va : (1 ≤ l ≤ 4)%nat → uaddr va → 0 ≤ idx l va < lim l.
Proof.
  intros Hl Hu. rw /lim. destruct (Nat.eqb_spec l 4) as [->|]; [|apply idx_range].
  rw idx_div; [lia|]. rw /uaddr in Hu. change (2 ^ (12 + 9 * (Z.of_nat 4 - 1))) with (2 ^ 39). change (NPDENTRIES / 2) with 256.
  assert (0 ≤ va / 2 ^ 39 < 256) by lia. lia.
Qed.

(** ** Lists of children *)

Section children.
Context {A : Type}.
Implicit Types (f g : Z → list A).

Definition others (i n : Z) : list Z := filter (λ j, j ≠ i) (seqZ 0 n).

Lemma seqZ_others i n : 0 ≤ i < n → seqZ 0 n ≡ₚ i :: others i n.
Proof.
  intros Hi. rw /others (_ : seqZ 0 n = seqZ 0 i ++ i :: seqZ (i + 1) (n - i - 1)).
  { rw -{3}(Z.add_0_l i). rw -(seqZ_cons (0 + i)); [lia|]. rw -seqZ_app; [lia|lia|]. f_equal. lia. }
  rw list.filter_app filter_cons decide_False; [auto|].
  assert (∀ k m, i < k ∨ k + m ≤ i → filter (λ j, j ≠ i) (seqZ k m) = seqZ k m) as Hf.
  { intros k m Hkm. apply filter_ne_notin. rw elem_of_seqZ. lia. }
  rw !Hf; [lia..|]. by rw -Permutation_middle.
Qed.

Lemma concat_others f i n : 0 ≤ i < n → concat (f <$> seqZ 0 n) ≡ₚ f i ++ concat (f <$> others i n).
Proof. intros Hi. by rw (seqZ_others i n Hi). Qed.

Lemma concat_ext f g l : (∀ j, j ∈ l → f j = g j) → concat (f <$> l) = concat (g <$> l).
Proof. intros H. f_equal. apply list_fmap_ext. intros ? j ?%list_elem_of_lookup_2. by apply H. Qed.

Lemma elem_of_others i n j : j ∈ others i n ↔ j ≠ i ∧ 0 ≤ j < n.
Proof. rw /others list_elem_of_filter elem_of_seqZ. lia. Qed.

Lemma elem_of_concat_map f (l : list Z) x : x ∈ concat (f <$> l) ↔ ∃ j, j ∈ l ∧ x ∈ f j.
Proof.
  induction l as [|j l IH]; [set_solver|]. rw fmap_cons /= elem_of_app IH. set_solver.
Qed.
End children.

(** ** Trees *)

(** The children of a table. *)
Definition kid (b : bool) (l : nat) (m : pmem) (a i : Z) : list Z :=
  if has PTE_P (entry m a i) then foot b l m (child (entry m a i)) else [].

Lemma foot_S b l m a : foot b (S l) m a = a :: concat (kid b l m a <$> seqZ 0 (lim (S l))).
Proof. done. Qed.

Lemma foot_split b l m a i :
  0 ≤ i < lim (S l) → foot b (S l) m a ≡ₚ a :: kid b l m a i ++ concat (kid b l m a <$> others i (lim (S l))).
Proof. intros Hi. rw foot_S. by rw (concat_others (kid b l m a) i). Qed.

Lemma tabs_foot l m a p : p ∈ tabs l m a → p ∈ foot true l m a.
Proof.
  revert a. induction l as [|l IH]; intros a; [by intros ?%not_elem_of_nil|]. rw !foot_S !elem_of_cons !elem_of_concat_map.
  intros [->|(j & Hj & Hp)]; [by left|right]. exists j. split; [done|]. rw /kid in Hp |- *. destruct (has _ _); [by apply IH|done].
Qed.

(** A change outside the tables of a tree changes nothing about it. *)
Lemma foot_frame b l m m' a :
  (∀ p, p ∈ tabs l m a → m' !!! p = m !!! p) → foot b l m' a = foot b l m a.
Proof.
  revert a. induction l as [|l IH]; intros a Hm; [done|]. rw !foot_S. f_equal.
  assert (m' !!! a = m !!! a) as Ha by (apply Hm; rw foot_S; by left).
  apply concat_ext. intros j Hj. rw /kid /entry Ha. destruct (has PTE_P (load64 (8 * j) (m !!! a))) eqn:E; [|done].
  apply IH. intros p Hp. apply Hm. rw foot_S elem_of_cons elem_of_concat_map. right. exists j. split; [done|]. by rw /kid /entry E.
Qed.

Lemma tabs_kid l m a i p : 0 ≤ i < lim (S l) → has PTE_P (entry m a i) = true →
  p ∈ tabs l m (child (entry m a i)) → p ∈ tabs (S l) m a.
Proof.
  intros Hi Hv Hp. rw foot_S elem_of_cons elem_of_concat_map. right. exists i. rw elem_of_seqZ. split; [lia|]. by rw /kid Hv.
Qed.

Lemma walk_SS l m a va : walk (S (S l)) m a va =
  let v := entry m a (idx (S (S l)) va) in if has PTE_P v then walk (S l) m (child v) va else None.
Proof. done. Qed.

Lemma walk_frame l m m' a va :
  (l ≤ 4)%nat → uaddr va → (∀ p, p ∈ tabs l m a → m' !!! p = m !!! p) → walk l m' a va = walk l m a va.
Proof.
  revert a. induction l as [|[|l] IH]; intros a Hl Hu Hm; [done|done|]. rw !walk_SS /=.
  assert (m' !!! a = m !!! a) as Ha by (apply Hm; rw foot_S; by left). rw /entry Ha. fold (entry m a (idx (S (S l)) va)).
  destruct (has PTE_P _) eqn:E; [|done]. apply IH; [lia|done|]. intros p Hp. apply Hm. eapply tabs_kid; [|done|done].
  apply idx_lim; [lia|done].
Qed.

Lemma pte_SS l m a va : pte (S (S l)) m a va =
  let v := entry m a (idx (S (S l)) va) in if has PTE_P v then pte (S l) m (child v) va else 0.
Proof. rw /pte walk_SS /=. by destruct (has PTE_P _). Qed.

Section trees.
Context (kend : Z).
Implicit Types (m : pmem) (X Y F : list Z).

Lemma entry_addr a i : kpage kend a → 0 ≤ i < 512 → pagebase (a + 8 * i) = a ∧ (a + 8 * i) mod PGSIZE = 8 * i.
Proof. intros [Ha _ _] Hi. rw /pagebase. plia. Qed.

Lemma pte_1 m a va : kpage kend a → pte 1 m a va = entry m a (idx 1 va).
Proof. intros Ha. destruct (entry_addr a (idx 1 va) Ha (idx_range _ _)) as [E1 E2]. by rw /pte /= E1 E2. Qed.

Lemma tree_self l m a X : tree kend (S l) m a X → kpage kend a.
Proof. intros [_ H]. rw foot_S in H. by apply list.Forall_cons in H as [? _]. Qed.

Lemma tree_ctx l m a X X' : X' ≡ₚ X → tree kend l m a X → tree kend l m a X'.
Proof. intros HX [H1 H2]. split; [by rw HX|done]. Qed.

(** The pages a table has besides those under entry [i]. *)
Definition rest (l : nat) m a i : list Z := concat (kid true l m a <$> others i (lim (S l))).

Lemma foot_child l m a i :
  0 ≤ i < lim (S l) → has PTE_P (entry m a i) = true →
  foot true (S l) m a ≡ₚ a :: foot true l m (child (entry m a i)) ++ rest l m a i.
Proof. intros Hi Hv. rw (foot_split true l m a i Hi). rw {1}/kid Hv. done. Qed.

Lemma tree_kid l m a X i :
  tree kend (S l) m a X → 0 ≤ i < lim (S l) → has PTE_P (entry m a i) = true →
  tree kend l m (child (entry m a i)) (a :: rest l m a i ++ X).
Proof.
  intros [Hn Hp] Hi Hv. pose proof (foot_child l m a i Hi Hv) as E. split.
  - by rw -Permutation_middle app_comm_cons app_assoc -app_comm_cons -E.
  - rw E in Hp. apply list.Forall_cons in Hp as [_ Hp]. by apply Forall_app in Hp as [? _].
Qed.

(** What happens under entry [i] does not touch the rest. *)
Lemma rest_frame l m m' a X i :
  tree kend (S l) m a X → 0 ≤ i < lim (S l) →
  m' !!! a = m !!! a → (∀ p, p ∈ rest l m a i → m' !!! p = m !!! p) → rest l m' a i = rest l m a i.
Proof.
  intros Ht Hi Ha Hr. rw /rest. apply concat_ext. intros j Hj. rw /kid /entry Ha. destruct (has PTE_P _) eqn:E; [|done].
  apply foot_frame. intros p Hp%tabs_foot. apply Hr. rw /rest elem_of_concat_map. exists j. split; [done|]. by rw /kid /entry E.
Qed.

Lemma pte_frame l m m' a X va :
  (l ≤ 4)%nat → uaddr va → tree kend l m a X → (∀ p, p ∈ tabs l m a → m' !!! p = m !!! p) → pte l m' a va = pte l m a va.
Proof.
  intros Hl Hu. revert a X. induction l as [|[|l] IH]; intros a X Ht Hm; [done| |].
  - pose proof (tree_self _ _ _ _ Ht) as Ha. rw !pte_1 // /entry Hm //. rw foot_S. by left.
  - rw !pte_SS /=. assert (m' !!! a = m !!! a) as Ha by (apply Hm; rw foot_S; by left).
    rw /entry Ha. fold (entry m a (idx (S (S l)) va)). destruct (has PTE_P _) eqn:E; [|done].
    assert (0 ≤ idx (S (S l)) va < lim (S (S l))) by (apply idx_lim; [lia|done]).
    eapply IH; [lia|by eapply tree_kid|]. intros p Hp. apply Hm. by eapply tabs_kid.
Qed.

(** What allocating tables may do: take pages from the free list [F], change
    tables and nothing else, and change no leaf entry. *)
Record alloc_ok (l : nat) m F a X m' F' : Prop := {
  ao_tree : tree kend l m' a (F' ++ X);
  ao_perm : foot true l m' a ++ F' ≡ₚ foot true l m a ++ F;
  ao_frame p : p ∉ tabs l m a → p ∉ F → m' !! p = m !! p;
  ao_pte va : uaddr va → pte l m' a va = pte l m a va;
  ao_tabs p : p ∈ tabs l m' a → p ∈ tabs l m a ∨ p ∈ F;
  ao_free p : p ∈ F' → p ∈ F;
}.

Lemma alloc_ok_refl l m F a X : tree kend l m a (F ++ X) → alloc_ok l m F a X m F.
Proof. intros Ht. split; auto. Qed.

Lemma alloc_ok_trans l m F a X m1 F1 m2 F2 :
  alloc_ok l m F a X m1 F1 → alloc_ok l m1 F1 a X m2 F2 → alloc_ok l m F a X m2 F2.
Proof.
  intros H1 H2. split.
  - apply H2.
  - etrans; [apply H2|apply H1].
  - intros p Ht Hf. rw (ao_frame _ _ _ _ _ _ _ H2); [|by intros ?%(ao_free _ _ _ _ _ _ _ H1)|by apply H1].
    intros [?|?]%(ao_tabs _ _ _ _ _ _ _ H1); done.
  - intros va Hu. rw (ao_pte _ _ _ _ _ _ _ H2) //. by apply H1.
  - intros p [Hp|Hp]%(ao_tabs _ _ _ _ _ _ _ H2); [by apply H1|right; by apply H1].
  - intros p Hp. by apply (ao_free _ _ _ _ _ _ _ H1), (ao_free _ _ _ _ _ _ _ H2).
Qed.

Lemma lookup_total_eq {A} `{Inhabited A} (m m' : gmap Z A) p : m' !! p = m !! p → m' !!! p = m !!! p.
Proof. intros E. by rw !lookup_total_alt E. Qed.

(** An allocation under entry [i] of a table. *)
Lemma alloc_up l m F a X i m' F' :
  (S l < 4)%nat → tree kend (S (S l)) m a (F ++ X) → 0 ≤ i < lim (S (S l)) → has PTE_P (entry m a i) = true →
  alloc_ok (S l) m F (child (entry m a i)) (a :: rest (S l) m a i ++ X) m' F' →
  alloc_ok (S (S l)) m F a X m' F' ∧ m' !!! a = m !!! a.
Proof.
  intros Hl Ht Hi Hv Ha. set (v := entry m a i) in *. set (c := child v) in *.
  pose proof (tree_kid _ _ _ _ _ Ht Hi Hv) as Hk. fold v c in Hk. pose proof (tr_nodup _ _ _ _ _ Hk) as Hn.
  assert (∀ p, p ∈ a :: rest (S l) m a i → m' !! p = m !! p) as Hfr.
  { intros p Hp. apply Ha; intros Hp'; [apply tabs_foot in Hp'|]; rw app_comm_cons in Hn; apply list.NoDup_app in Hn as (_ & Hd & Hn').
    - apply (Hd p Hp'). rw elem_of_app. by left.
    - apply list.NoDup_app in Hn' as (_ & Hd' & _). apply (Hd' p Hp). rw elem_of_app. by left. }
  assert (m' !!! a = m !!! a) as Ea by (apply lookup_total_eq, Hfr; by left).
  assert (rest (S l) m' a i = rest (S l) m a i) as Er.
  { eapply rest_frame; [done|done|done|]. intros p Hp. apply lookup_total_eq, Hfr. by right. }
  assert (entry m' a i = v) as Ev by (by rw /entry Ea).
  pose proof (foot_child (S l) m' a i Hi ltac:(by rw Ev)) as E'. rw Er Ev in E'. fold c in E'.
  pose proof (foot_child (S l) m a i Hi Hv) as E. fold v c in E.
  pose proof (ao_tree _ _ _ _ _ _ _ Ha) as [Hn' Hp'].
  split; [split|done].
  - split.
    + rw E'. assert ((a :: foot true (S l) m' c ++ rest (S l) m a i) ++ F' ++ X ≡ₚ
        foot true (S l) m' c ++ F' ++ a :: rest (S l) m a i ++ X) as ->; [|done]. solve_Permutation.
    + rw E'. pose proof (tree_self _ _ _ _ Ht). apply list.Forall_cons. split; [done|]. apply Forall_app. split; [done|].
      pose proof (tr_pages _ _ _ _ _ Ht) as Hall. rw E in Hall. apply list.Forall_cons in Hall as [_ Hall]. by apply Forall_app in Hall as [_ ?].
  - rw E' E. pose proof (ao_perm _ _ _ _ _ _ _ Ha) as Hp2. clear -Hp2.
    transitivity (a :: (foot true (S l) m' c ++ F') ++ rest (S l) m a i); [solve_Permutation|]. rw Hp2. solve_Permutation.
  - intros p Ht' Hf. apply Ha; [|done]. intros Hp. apply Ht'. by eapply tabs_kid.
  - intros va Hu. rw !pte_SS /=. destruct (decide (idx (S (S l)) va = i)) as [->|Hne].
    + rw Ev. fold v. rw Hv. by apply Ha.
    + assert (0 ≤ idx (S (S l)) va < lim (S (S l))) as Hj by (apply idx_lim; [lia|done]).
      rw /entry Ea. fold (entry m a (idx (S (S l)) va)). destruct (has PTE_P (entry m a _)) eqn:Ew; [|done].
      eapply pte_frame; [lia|done|by eapply tree_kid|]. intros p Hp%tabs_foot. apply lookup_total_eq, Hfr. right.
      rw /rest elem_of_concat_map. exists (idx (S (S l)) va). rw elem_of_others. split; [done|]. by rw /kid Ew.
  - intros p. rw foot_S elem_of_cons elem_of_concat_map. intros [->|(j & Hj & Hp)]; [left; rw foot_S; by left|].
    rw /kid /entry Ea in Hp. fold (entry m a j) in Hp. destruct (has PTE_P (entry m a j)) eqn:Ew; [|by apply not_elem_of_nil in Hp].
    apply elem_of_seqZ in Hj. destruct (decide (j = i)) as [->|Hne].
    + fold v c in Hp. apply (ao_tabs _ _ _ _ _ _ _ Ha) in Hp as [Hp|?]; [left|by right]. by eapply tabs_kid.
    + left. eapply tabs_kid; [|exact Ew|]; [lia|]. rw (foot_frame false (S l) m m') in Hp; [|done].
      intros q Hq%tabs_foot. apply lookup_total_eq, Hfr. right. rw /rest elem_of_concat_map. exists j. rw elem_of_others.
      split; [lia|]. by rw /kid Ew.
  - apply Ha.
Qed.

(** ** A new table *)

Definition zpage : list Z := replicate (Z.to_nat PGSIZE) (u8 0).

Lemma page_zpage : page zpage.
Proof. apply page_zero. Qed.

Lemma load_zpage o : 0 ≤ o → load64 o zpage = 0.
Proof.
  intros Ho. rw /load /slice /zpage drop_replicate take_replicate. generalize (Z.to_nat (Z.of_nat 8) `min` (Z.to_nat PGSIZE - Z.to_nat o))%nat.
  induction n as [|n IH]; [done|]. change (u8 0) with 0 in *. cbn [replicate le_decode]. by rw IH.
Qed.

Lemma entry_zpage m p i : m !!! p = zpage → 0 ≤ i → entry m p i = 0.
Proof. intros E Hi. rw /entry E load_zpage //. lia. Qed.

Lemma concat_nils {A B} (L : list A) : concat ((λ _, @nil B) <$> L) = [].
Proof. by induction L. Qed.

Lemma foot_zpage l m p : m !!! p = zpage → foot true (S l) m p = [p].
Proof.
  intros E. rw foot_S (concat_ext _ (λ _, [])).
  - intros j Hj%elem_of_seqZ. rw /kid entry_zpage //. lia.
  - by rw concat_nils.
Qed.

Lemma pte_zpage l m p va : kpage kend p → m !!! p = zpage → pte (S l) m p va = 0.
Proof.
  intros Hp E. destruct l as [|l]; [rw pte_1 // entry_zpage //; apply idx_range|]. rw pte_SS entry_zpage //. apply idx_range.
Qed.

(** The entry of a new table. *)
Definition table_pte (p : Z) : Z := Z.lor (Z.lor (Z.lor (V2P p) PTE_P) PTE_W) PTE_U.

Lemma has_lor b x y : has b (Z.lor x y) = has b x || has b y.
Proof.
  rw /has Z.land_lor_distr_l. destruct (Z.eqb_spec (Z.land x b) 0) as [->|Hx]; [by rw Z.lor_0_l|].
  destruct (Z.eqb_spec (Z.lor (Z.land x b) (Z.land y b)) 0) as [E|]; [|done]. by apply Z.lor_eq_0_iff in E as [? _].
Qed.

Lemma addr_lor x f : 0 ≤ x < 2 ^ 64 → x mod PGSIZE = 0 → 0 ≤ f < PGSIZE → PTE_ADDR (Z.lor x f) = x.
Proof.
  intros Hx Ha Hf. rw /PTE_ADDR Z.land_lor_distr_l. change (u64 (Z.lnot 4095)) with (u64 (Z.lnot (PGSIZE - 1))).
  rw !land_page; [plia..|]. rw (Z.div_small f); [plia|]. rw Z.lor_0_r. plia.
Qed.

Lemma lor_range x y n : 0 ≤ n → 0 ≤ x < 2 ^ n → 0 ≤ y < 2 ^ n → 0 ≤ Z.lor x y < 2 ^ n.
Proof.
  intros Hn Hx Hy. assert (0 ≤ Z.lor x y) by (by apply Z.lor_nonneg; lia). split; [done|].
  destruct (decide (Z.lor x y = 0)) as [->|]; [lia|]. apply Z.log2_lt_pow2; [lia|]. rw Z.log2_lor; [lia|lia|].
  assert (∀ z, 0 ≤ z < 2 ^ n → Z.log2 z < n ∨ z = 0) as H'.
  { intros z Hz. destruct (decide (z = 0)); [by right|left]. apply Z.log2_lt_pow2; lia. }
  pose proof (Z.log2_nonneg x). pose proof (Z.log2_nonneg y).
  destruct (H' x Hx) as [? | ->], (H' y Hy) as [? | ->]; simpl in *; done || lia.
Qed.

Lemma table_pte_ok p : kpage kend p → has PTE_P (table_pte p) = true ∧ child (table_pte p) = p ∧ 0 ≤ table_pte p < 2 ^ 64.
Proof.
  intros Hp. pose proof (V2P_kpage kend p Hp) as E. pose proof (kpage_pos kend p Hp). destruct Hp as [Ha _ Hb].
  assert (0 ≤ V2P p < 2 ^ 64 ∧ V2P p mod PGSIZE = 0) as [Hr Hm] by (rw E; plia). rw /table_pte. split; [|split].
  - rw !has_lor. by rw (orb_true_r (has PTE_P (V2P p))).
  - rw -!Z.lor_assoc. rw /child addr_lor //. apply P2V_V2P. lia.
  - do 2 (apply lor_range; [lia| |done]). by apply lor_range.
Qed.

Lemma tree_absent l m a i :
  0 ≤ i < lim (S l) → has PTE_P (entry m a i) = false → foot true (S l) m a ≡ₚ a :: rest l m a i.
Proof. intros Hi Hv. rw (foot_split true l m a i Hi). rw {1}/kid Hv. done. Qed.

Lemma entry_store m a i j v d :
  m !!! a = store64 (8 * i) v d → page d → 0 ≤ i < 512 → 0 ≤ j < 512 → 0 ≤ v < 2 ^ 64 →
  entry m a j = if decide (j = i) then v else load64 (8 * j) d.
Proof.
  intros E [Hl _] Hi Hj Hv. rw /entry E. rw /PGSIZE in Hl. case_decide as Hji.
  - subst j. apply load_store_small; [lia|lia|done].
  - apply load_store_ne; lia.
Qed.

(** [walkpgdir] allocates the table [p] for entry [i] of table [a]. *)
Lemma alloc_new l m F a X i p :
  (S l < 4)%nat → tree kend (S (S l)) m a ((p :: F) ++ X) → kpage kend p → 0 ≤ i < lim (S (S l)) →
  has PTE_P (entry m a i) = false → page (m !!! a) →
  let m' := <[a := store64 (8 * i) (table_pte p) (m !!! a)]> (<[p := zpage]> m) in
  alloc_ok (S (S l)) m (p :: F) a X m' F ∧ entry m' a i = table_pte p.
Proof.
  intros Hl Ht Hp Hi Hv Hpg m'. destruct (table_pte_ok p Hp) as (Hpp & Hpc & Hpr).
  pose proof (lim_range (S (S l))) as Hlim. pose proof (tree_self _ _ _ _ Ht) as Hka.
  pose proof (tree_absent (S l) m a i Hi Hv) as E. pose proof Ht as [Hn Hpages]. rw E in Hn, Hpages.
  apply list.NoDup_app in Hn as (Hn1 & Hdis & Hn2). apply list.NoDup_cons in Hn1 as [Har Hnr].
  assert (a ≠ p) as Hap by (intros ->; apply (Hdis p); set_solver).
  assert (p ∉ rest (S l) m a i) as Hpr' by (intros ?; apply (Hdis p); set_solver).
  assert (m' !!! a = store64 (8 * i) (table_pte p) (m !!! a)) as Ea by apply lookup_total_insert_eq.
  assert (m' !!! p = zpage) as Ep by (by rw /m' lookup_total_insert_ne // lookup_total_insert_eq).
  assert (∀ q, q ≠ a → q ≠ p → m' !! q = m !! q) as Hfr by (intros q Hqa Hqp; by rw /m' !lookup_insert_ne).
  assert (∀ j, 0 ≤ j < 512 → entry m' a j = if decide (j = i) then table_pte p else entry m a j) as Ee.
  { intros j Hj. apply (entry_store m' a i j); [done|done|lia|done|done]. }
  assert (entry m' a i = table_pte p) as Ei by (rw Ee; [lia|]; by rw decide_True).
  assert (∀ b j, j ∈ others i (lim (S (S l))) → kid b (S l) m' a j = kid b (S l) m a j) as Hkid.
  { intros b j Hj. pose proof Hj as Hj'. apply elem_of_others in Hj' as [Hji Hj']. rw /kid Ee; [lia|]. rw decide_False //.
    destruct (has PTE_P (entry m a j)) eqn:Ej; [|done]. apply foot_frame. intros q Hq%tabs_foot.
    assert (q ∈ rest (S l) m a i) by (rw /rest elem_of_concat_map; exists j; split; [done|by rw /kid Ej]).
    apply lookup_total_eq, Hfr; [by intros ->|by intros ->]. }
  assert (rest (S l) m' a i = rest (S l) m a i) as Er by (apply concat_ext; intros; by apply Hkid).
  assert (foot true (S (S l)) m' a ≡ₚ a :: p :: rest (S l) m a i) as E'.
  { rw (foot_child (S l) m' a i Hi); [by rw Ei|]. rw Ei Hpc Er (foot_zpage l m' p) //. }
  split; [split|done].
  - split.
    + rw E'. assert ((a :: p :: rest (S l) m a i) ++ F ++ X ≡ₚ (a :: rest (S l) m a i) ++ (p :: F) ++ X) as -> by solve_Permutation.
      rw -E. apply Ht.
    + rw E'. apply list.Forall_cons in Hpages as [? ?]. by repeat (apply list.Forall_cons; split).
  - rw E' E. solve_Permutation.
  - intros q Hq1 Hq2. apply Hfr; [intros ->; apply Hq1; rw foot_S; by left|intros ->; apply Hq2; by left].
  - intros va Hu. rw !pte_SS /=. assert (0 ≤ idx (S (S l)) va < lim (S (S l))) as Hj by (apply idx_lim; [lia|done]).
    rw Ee; [lia|]. case_decide as Hji.
    + rw Hpp Hpc (pte_zpage l m' p) // Hji Hv //.
    + destruct (has PTE_P (entry m a (idx (S (S l)) va))) eqn:Ej; [|done].
      eapply pte_frame; [lia|done|by eapply tree_kid|]. intros q Hq%tabs_foot.
      assert (q ∈ rest (S l) m a i) by (rw /rest elem_of_concat_map; exists (idx (S (S l)) va); rw elem_of_others; split; [done|by rw /kid Ej]).
      apply lookup_total_eq, Hfr; [by intros ->|by intros ->].
  - intros q. rw (foot_split false (S l) m' a i Hi) elem_of_cons elem_of_app. intros [->|[Hq|Hq]].
    + left. rw foot_S. by left.
    + rw /kid Ei Hpp Hpc in Hq. apply tabs_foot in Hq. rw foot_zpage // in Hq. right. set_solver.
    + left. rw (foot_split false (S l) m a i Hi) elem_of_cons elem_of_app. do 2 right.
      rw elem_of_concat_map in Hq. rw elem_of_concat_map. destruct Hq as (j & Hj & Hq). exists j. by rw -Hkid.
  - intros q Hq. by right.
Qed.

(** ** [walkpgdir] *)

(** The unrolled levels of the source as a recursion. *)
Fixpoint walk_from (l : nat) (a va : Z) (alloc : bool) : M kst Z :=
  match l with
  | O => mret 0
  | S O => mret (a + 8 * idx 1 va)
  | S l' => c ← walk_step (a + 8 * idx l va) alloc; if c =? 0 then mret 0 else walk_from l' c va alloc
  end.

Lemma walk_from_SS l a va alloc : walk_from (S (S l)) a va alloc =
  c ← walk_step (a + 8 * idx (S (S l)) va) alloc; if c =? 0 then mret 0 else walk_from (S l) c va alloc.
Proof. done. Qed.

Lemma walkpgdir_from pml4 va alloc : walkpgdir pml4 va alloc = walk_from 4 pml4 va alloc.
Proof. done. Qed.

(** The state but for the pages and the free list. *)
Record same (s s' : kst) : Prop := {
  sm_core : k_core s' = k_core s;
  sm_uselock : k_uselock s' = k_uselock s;
  sm_vm : k_vm s' = k_vm s;
}.
Lemma same_refl s : same s s.
Proof. done. Qed.
Lemma same_trans s1 s2 s3 : same s1 s2 → same s2 s3 → same s1 s3.
Proof. intros [] []. split; congruence. Qed.

Lemma krepr_put F s p d : krepr kend F s → p ∉ F → page d → krepr kend F (set_mem (<[p := d]> (k_mem s)) s).
Proof.
  intros [Hc Hd Hp Hm Hl] Hn Hpg. split; try done.
  - eapply chain_frame; [|done]. intros q Hq. simpl. rw lookup_insert_ne //. by intros ->.
  - intros q Hq. simpl. destruct (decide (q = p)) as [->|]; [rw lookup_insert_eq; eauto|]. rw lookup_insert_ne //. by apply Hm.
Qed.

Lemma kr_lookup F s p : krepr kend F s → kpage kend p → k_mem s !! p = Some (k_mem s !!! p) ∧ page (k_mem s !!! p).
Proof. intros Hk Hp. destruct (kr_mem _ _ _ Hk p Hp) as (d & Hd & ?). by rw (lookup_total_correct _ _ _ Hd). Qed.

Lemma memset_zero F s p :
  krepr kend F s → kpage kend p → memset_page p 0 s = Ret tt (set_mem (<[p := zpage]> (k_mem s)) s).
Proof. intros Hk Hp. rw /memset_page /putpage. by destruct (kr_lookup F s p Hk Hp) as [-> _]. Qed.

Lemma rd_entry F s a i :
  krepr kend F s → kpage kend a → 0 ≤ i < 512 → rd64 (a + 8 * i) s = Ret (entry (k_mem s) a i) s.
Proof.
  intros Hk Ha Hi. destruct (entry_addr a i Ha Hi) as [E1 E2]. destruct (kr_lookup F s a Hk Ha) as [Hd _].
  rw (rd64_run _ _ (k_mem s !!! a)) ?E1 // E2 //.
Qed.

Lemma wr_entry F s a i v :
  krepr kend F s → kpage kend a → 0 ≤ i < 512 →
  wr64 (a + 8 * i) v s = Ret tt (set_mem (<[a := store64 (8 * i) v (k_mem s !!! a)]> (k_mem s)) s).
Proof.
  intros Hk Ha Hi. destruct (entry_addr a i Ha Hi) as [E1 E2]. destruct (kr_lookup F s a Hk Ha) as [Hd _].
  rw (wr64_run _ _ _ (k_mem s !!! a)) ?E1 // E2 //.
Qed.

Lemma page_store i v d : page d → 0 ≤ i < 512 → page (store64 (8 * i) v d).
Proof.
  intros [Hl Hb] Hi. split; [|by apply bytes_store]. rw length_store //; [lia|]. rw Hl /PGSIZE. lia.
Qed.

Lemma table_notin l m a F X p : tree kend l m a (F ++ X) → p ∈ foot true l m a → p ∉ F.
Proof. intros [Hn _] Hp Hf. apply list.NoDup_app in Hn as (_ & Hd & _). apply (Hd p Hp), elem_of_app. by left. Qed.

Lemma self_in b l m a : a ∈ foot b (S l) m a.
Proof. rw foot_S. by left. Qed.

Lemma walk_none l m a va F s :
  krepr kend F s → m = k_mem s → (S l ≤ 4)%nat → uaddr va → ∀ X, tree kend (S l) m a X →
  walk_from (S l) a va false s = Ret (default 0 (walk (S l) m a va)) s ∧
  ∀ e, walk (S l) m a va = Some e → ∃ t, t ∈ tabs (S l) m a ∧ e = t + 8 * idx 1 va ∧ kpage kend t.
Proof.
  intros Hk -> Hl Hu. revert a Hl. induction l as [|l IH]; intros a Hl X Ht.
  - split; [done|]. intros e [= <-]. exists a. split_and!; [apply self_in|done|by eapply tree_self].
  - pose proof (tree_self _ _ _ _ Ht) as Ha. rw walk_from_SS {1}/mbind {1}/M_bind /walk_step {1}/mbind {1}/M_bind.
    assert (0 ≤ idx (S (S l)) va < lim (S (S l))) as Hi by (apply idx_lim; [lia|done]).
    rw (rd_entry F) //; [apply idx_range|]. cbn [bindo]. rw walk_SS. cbv zeta. set (v := entry _ _ _). destruct (has PTE_P v) eqn:Hv; [|done].
    pose proof (tree_kid _ _ _ _ _ Ht Hi Hv) as Hkid. fold v in Hkid. fold (child v). cbn [mret M_ret bindo].
    destruct (Z.eqb_spec (child v) 0) as [E0|_].
    { pose proof (kpage_pos _ _ (tree_self _ _ _ _ Hkid)). lia. }
    destruct (IH (child v) ltac:(lia) _ Hkid) as [IH1 IH2]. split; [done|]. intros e He.
    destruct (IH2 e He) as (t & Ht' & ?). exists t. split; [|done]. by eapply tabs_kid.
Qed.

(** What a walk that allocates does. *)
(** Below a present entry: what the walk does from the table there, it does from here. *)
Lemma walk_below l s F a X va s1 F1 :
  (S (S l) ≤ 4)%nat → uaddr va →
  (∀ s F a X, krepr kend F s → tree kend (S l) (k_mem s) a (F ++ X) →
    ∃ e s' F', walk_from (S l) a va true s = Ret e s' ∧ krepr kend F' s' ∧ same s s' ∧
      alloc_ok (S l) (k_mem s) F a X (k_mem s') F' ∧
      (e = 0 ∧ F' = [] ∨ e ≠ 0 ∧ walk (S l) (k_mem s') a va = Some e)) →
  let i := idx (S (S l)) va in
  krepr kend F1 s1 → same s s1 → alloc_ok (S (S l)) (k_mem s) F a X (k_mem s1) F1 →
  has PTE_P (entry (k_mem s1) a i) = true →
  ∃ e s' F', walk_from (S l) (child (entry (k_mem s1) a i)) va true s1 = Ret e s' ∧ krepr kend F' s' ∧ same s s' ∧
    alloc_ok (S (S l)) (k_mem s) F a X (k_mem s') F' ∧
    (e = 0 ∧ F' = [] ∨ e ≠ 0 ∧ walk (S (S l)) (k_mem s') a va = Some e).
Proof.
  intros Hl Hu IH i Hk1 Hs1 Ha1 Hv. assert (0 ≤ i < lim (S (S l))) as Hi by (apply idx_lim; [lia|done]).
  pose proof (ao_tree _ _ _ _ _ _ _ Ha1) as Ht1. pose proof (tree_kid _ _ _ _ _ Ht1 Hi Hv) as Hkid.
  destruct (IH s1 F1 (child (entry (k_mem s1) a i)) (a :: rest (S l) (k_mem s1) a i ++ X) Hk1) as (e & s' & F' & Hr & Hk' & Hs' & Ha' & Hor).
  { eapply tree_ctx; [|exact Hkid]. solve_Permutation. }
  destruct (alloc_up l (k_mem s1) F1 a X i (k_mem s') F') as [Hup Ea]; [lia|done|done|done|done|].
  exists e, s', F'. split_and!; [done|done|by eapply same_trans|by eapply alloc_ok_trans|].
  destruct Hor as [?|[? Hw]]; [by left|right]. split; [done|]. rw walk_SS. cbv zeta. fold i. rw /entry Ea.
  fold (entry (k_mem s1) a i). by rw Hv.
Qed.

Lemma walk_alloc l s F a X va :
  krepr kend F s → (S l ≤ 4)%nat → uaddr va → tree kend (S l) (k_mem s) a (F ++ X) →
  ∃ e s' F', walk_from (S l) a va true s = Ret e s' ∧ krepr kend F' s' ∧ same s s' ∧
    alloc_ok (S l) (k_mem s) F a X (k_mem s') F' ∧
    (e = 0 ∧ F' = [] ∨ e ≠ 0 ∧ walk (S l) (k_mem s') a va = Some e).
Proof.
  intros Hk Hl Hu. revert s F a X Hk Hl. induction l as [|l IH]; intros s F a X Hk Hl Ht.
  { pose proof (tree_self _ _ _ _ Ht) as Ha. pose proof (kpage_pos _ _ Ha). pose proof (idx_range 1 va).
    exists (a + 8 * idx 1 va), s, F. split_and!; [done|done|done|by apply alloc_ok_refl|right; split; [lia|done]]. }
  pose proof (tree_self _ _ _ _ Ht) as Ha. set (i := idx (S (S l)) va).
  assert (0 ≤ i < lim (S (S l))) as Hi by (apply idx_lim; [lia|done]). pose proof (idx_range (S (S l)) va) as Hi'. fold i in Hi'.
  pose proof (λ s1 F1, walk_below l s F a X va s1 F1 Hl Hu (λ s F a X Hk, IH s F a X Hk ltac:(lia))) as Hdown. cbv zeta in Hdown. fold i in Hdown.
  rw walk_from_SS. fold i. rw {1}/mbind {1}/M_bind /walk_step {1}/mbind {1}/M_bind. rw (rd_entry F) //. cbn [bindo].
  destruct (has PTE_P (entry (k_mem s) a i)) eqn:Hv.
  { pose proof (tree_kid _ _ _ _ _ Ht Hi Hv) as Hkid. fold (child (entry (k_mem s) a i)). cbn [mret M_ret bindo].
    destruct (Z.eqb_spec (child (entry (k_mem s) a i)) 0) as [E0|_].
    { pose proof (kpage_pos _ _ (tree_self _ _ _ _ Hkid)). lia. }
    apply (Hdown s F); [done|done|by apply alloc_ok_refl|done]. }
  cbn [negb]. destruct (kalloc_ok kend F s Hk) as (s1 & Hr1 & Hk1 & Em1 & Hc1 & Hu1 & Hg1).
  rw {1}/mbind {1}/M_bind Hr1. cbn [bindo]. destruct F as [|p F]; cbn [hd tl] in *.
  { exists 0, s1, []. split_and!; [done|done|done| |by left]. rw Em1. by apply alloc_ok_refl. }
  pose proof (kr_pages _ _ _ Hk) as Hpp. apply list.Forall_cons in Hpp as [Hp _].
  pose proof (kr_nodup _ _ _ Hk) as Hnd. apply list.NoDup_cons in Hnd as [HpF _].
  assert (a ∉ p :: F) as HaF by (eapply table_notin; [exact Ht|apply self_in]).
  destruct (Z.eqb_spec p 0) as [E0|_]; [pose proof (kpage_pos _ _ Hp); lia|].
  assert (p ≠ a) as Hpa by set_solver.
  rw {1}/mbind {1}/M_bind (memset_zero F) //. cbn [bindo].
  set (s2 := set_mem (<[p := zpage]> (k_mem s1)) s1).
  assert (krepr kend F s2) as Hk2 by (apply krepr_put; [done|done|apply page_zero]).
  rw {1}/mbind {1}/M_bind (wr_entry F) //. cbn [bindo]. cbn [mret M_ret bindo].
  destruct (Z.eqb_spec p 0) as [E0|_]; [pose proof (kpage_pos _ _ Hp); lia|].
  assert (k_mem s2 !!! a = k_mem s !!! a) as E2 by (by rw /s2 /= lookup_total_insert_ne // Em1).
  rw E2. set (s3 := set_mem _ s2).
  assert (k_mem s3 = <[a := store64 (8 * i) (table_pte p) (k_mem s !!! a)]> (<[p := zpage]> (k_mem s))) as E3 by (by rw /s3 /s2 /= Em1).
  destruct (kr_lookup _ _ a Hk Ha) as [_ Hpga].
  destruct (alloc_new l (k_mem s) F a X i p) as [Hnew Hent]; [lia|done|done|done|done|done|]. rw -E3 in Hnew, Hent.
  destruct (table_pte_ok p Hp) as (Hpres & Hch & _).
  assert (krepr kend F s3) as Hk3 by (apply krepr_put; [done|set_solver|by apply page_store]).
  assert (same s s3) as Hs3 by done.
  destruct (Hdown s3 F Hk3 Hs3 Hnew) as (e & s' & F' & Hr & Hrest); [by rw Hent|]. rw Hent Hch in Hr.
  exists e, s', F'. split; [exact Hr|done].
Qed.
End trees.
