(* ===== verification/VmSpace.v ===== *)
(** * Address spaces

    The leaf entries of a page table seen as a map from user addresses, and what
    the functions of vm.c do to that map, to the pages it leads to and to the
    free list. *)

From S2P Require Import Prelude Kernel Kalloc Vm VmTree.

(** The pages a leaf entry maps. *)
Definition leaf (v : Z) : list Z := if has PTE_P v then [child v] else [].

(** The leaf pages of a tree. *)
Fixpoint leaves (l : nat) (m : pmem) (a : Z) : list Z :=
  match l with
  | O => [a]
  | S l' => concat ((λ i, let v := entry m a i in if has PTE_P v then leaves l' m (child v) else []) <$> seqZ 0 (lim l))
  end.

(** Two addresses take the same way through the tables below level [l]. *)
Definition same_path (l : nat) (va va' : Z) : Prop := ∀ k, (1 ≤ k ≤ l)%nat → idx k va = idx k va'.

Lemma same_path_page va va' : uaddr va → uaddr va' → same_path 4 va va' ↔ va / PGSIZE = va' / PGSIZE.
Proof.
  rw /uaddr /PGSIZE. intros Hu Hu'. split.
  - intros H. pose proof (H 1%nat ltac:(lia)) as H1. pose proof (H 2%nat ltac:(lia)) as H2.
    pose proof (H 3%nat ltac:(lia)) as H3. pose proof (H 4%nat ltac:(lia)) as H4. clear H.
    rw !idx_div in H1, H2, H3, H4; [lia..|]. simpl in *. lia.
  - intros E k Hk. rw !idx_div; [lia..|].
    rw Z.pow_add_r; [lia..|]. change (2 ^ 12) with 4096. pose proof (Z.pow_pos_nonneg 2 (9 * (Z.of_nat k - 1))).
    rw -!Z.div_div; [lia..|]. by rw E.
Qed.

Lemma pte_none l m a va : walk l m a va = None → pte l m a va = 0.
Proof. intros E. by rw /pte E. Qed.

Section leafs.
Context (kend : Z).
Implicit Types (m : pmem) (X F : list Z).

Lemma leaves_S l m a : leaves (S l) m a =
  concat ((λ i, if has PTE_P (entry m a i) then leaves l m (child (entry m a i)) else []) <$> seqZ 0 (lim (S l))).
Proof. done. Qed.

Lemma concat_app_perm {A} (f g h : Z → list A) (L : list Z) :
  (∀ i, f i ≡ₚ g i ++ h i) → concat (f <$> L) ≡ₚ concat (g <$> L) ++ concat (h <$> L).
Proof.
  intros H. induction L as [|i L IH]; [done|]. rw !fmap_cons /= H IH. solve_Permutation.
Qed.

Lemma foot_leaves l m a : foot true l m a ≡ₚ tabs l m a ++ leaves l m a.
Proof.
  revert a. induction l as [|l IH]; intros a; [done|]. rw !foot_S leaves_S -app_comm_cons. f_equiv. apply concat_app_perm.
  intros i. rw /kid. destruct (has PTE_P _); [apply IH|done].
Qed.

Lemma leaves_notin_tabs l m a X p : tree kend l m a X → p ∈ leaves l m a → p ∉ tabs l m a.
Proof.
  intros [Hn _] Hp Ht. apply list.NoDup_app in Hn as (Hn & _ & _). rw foot_leaves in Hn.
  apply list.NoDup_app in Hn as (_ & Hd & _). by apply (Hd p).
Qed.

(** A present entry leads to a leaf page. *)
Lemma pte_leaf l m a X va :
  (S l ≤ 4)%nat → uaddr va → tree kend (S l) m a X → has PTE_P (pte (S l) m a va) = true →
  child (pte (S l) m a va) ∈ leaves (S l) m a.
Proof.
  intros Hl Hu. revert a X Hl. induction l as [|l IH]; intros a X Hl Ht Hp.
  - pose proof (tree_self _ _ _ _ _ Ht) as Ha. rw (pte_1 kend) // in Hp |- *. rw leaves_S elem_of_concat_map.
    exists (idx 1 va). rw elem_of_seqZ. split; [apply idx_lim; [lia|done]|]. rw Hp. by left.
  - rw pte_SS in Hp |- *. cbv zeta in Hp |- *. destruct (has PTE_P (entry m a (idx (S (S l)) va))) eqn:E; [|done].
    assert (0 ≤ idx (S (S l)) va < lim (S (S l))) as Hi by (apply idx_lim; [lia|done]).
    rw leaves_S elem_of_concat_map. exists (idx (S (S l)) va). rw elem_of_seqZ E. split; [lia|].
    eapply IH; [lia|by eapply tree_kid|done].
Qed.

Lemma leaves_foot l m a p : p ∈ leaves l m a → p ∈ foot true l m a.
Proof. intros Hp. rw foot_leaves elem_of_app. by right. Qed.

(** Different addresses have different pages. *)
Lemma pte_inj l m a X va va' :
  (S l ≤ 4)%nat → uaddr va → uaddr va' → tree kend (S l) m a X →
  has PTE_P (pte (S l) m a va) = true → has PTE_P (pte (S l) m a va') = true →
  child (pte (S l) m a va) = child (pte (S l) m a va') → same_path (S l) va va'.
Proof.
  intros Hl Hu Hu'. revert a X Hl. induction l as [|l IH]; intros a X Hl Ht.
  - pose proof (tree_self _ _ _ _ _ Ht) as Ha. rw !(pte_1 kend) //. intros Hp Hp' He.
    assert (idx 1 va = idx 1 va') as Hi; [|intros k Hk; by rw (_ : k = 1%nat); [lia|]].
    destruct (decide (idx 1 va = idx 1 va')) as [|Hne]; [done|exfalso].
    assert (0 ≤ idx 1 va < lim 1) as Hi by (apply idx_lim; [lia|done]).
    assert (0 ≤ idx 1 va' < lim 1) as Hi' by (apply idx_lim; [lia|done]).
    destruct Ht as [Hn _]. apply list.NoDup_app in Hn as (Hn & _ & _).
    rw (foot_child 0 m a (idx 1 va)) // in Hn. apply list.NoDup_cons in Hn as [_ Hn]. apply list.NoDup_app in Hn as (_ & Hd & _).
    apply (Hd (child (entry m a (idx 1 va)))); [by left|]. rw /rest elem_of_concat_map. exists (idx 1 va').
    rw elem_of_others /kid Hp' -He. split; [done|by left].
  - rw !pte_SS. cbv zeta. destruct (has PTE_P (entry m a (idx (S (S l)) va))) eqn:E; [|done].
    destruct (has PTE_P (entry m a (idx (S (S l)) va'))) eqn:E'; [|done]. intros Hp Hp' He.
    assert (0 ≤ idx (S (S l)) va < lim (S (S l))) as Hi by (apply idx_lim; [lia|done]).
    assert (0 ≤ idx (S (S l)) va' < lim (S (S l))) as Hi' by (apply idx_lim; [lia|done]).
    pose proof (tree_kid _ _ _ _ _ _ Ht Hi E) as Hk. pose proof (tree_kid _ _ _ _ _ _ Ht Hi' E') as Hk'.
    destruct (decide (idx (S (S l)) va = idx (S (S l)) va')) as [Heq|Hne].
    + rw -Heq in Hp', He. pose proof (IH _ _ ltac:(lia) Hk Hp Hp' He) as Hsp. intros k Hk0.
      destruct (decide (k = S (S l))) as [->|]; [done|]. apply Hsp. lia.
    + exfalso. pose proof (pte_leaf l m _ _ va ltac:(lia) Hu Hk Hp) as Hin. pose proof (pte_leaf l m _ _ va' ltac:(lia) Hu' Hk' Hp') as Hin'.
      rw -He in Hin'. apply leaves_foot in Hin, Hin'. destruct Hk as [Hn _]. apply list.NoDup_app in Hn as (_ & Hd & _).
      apply (Hd _ Hin). right. rw elem_of_app. left. rw /rest elem_of_concat_map. exists (idx (S (S l)) va').
      rw elem_of_others /kid E'. done.
Qed.

Lemma walk_table l m a X va e :
  (S l ≤ 4)%nat → uaddr va → tree kend (S l) m a X → walk (S l) m a va = Some e →
  ∃ t, t ∈ tabs (S l) m a ∧ e = t + 8 * idx 1 va ∧ kpage kend t ∧ pte (S l) m a va = entry m t (idx 1 va).
Proof.
  intros Hl Hu. revert a X Hl. induction l as [|l IH]; intros a X Hl Ht.
  - intros [= <-]. exists a. pose proof (tree_self _ _ _ _ _ Ht). split_and!; [apply self_in|done|done|by apply (pte_1 kend)].
  - rw walk_SS pte_SS. cbv zeta. destruct (has PTE_P (entry m a (idx (S (S l)) va))) eqn:E; [|done]. intros Hw.
    assert (0 ≤ idx (S (S l)) va < lim (S (S l))) as Hi by (apply idx_lim; [lia|done]).
    destruct (IH _ _ ltac:(lia) (tree_kid _ _ _ _ _ _ Ht Hi E) Hw) as (t & Hin & ? & ? & ?). exists t.
    split_and!; [by eapply tabs_kid|done..].
Qed.

(** Writing the leaf entry of [va], which is in table [t]. *)
Record leaf_set (l : nat) m a va v m' : Prop := {
  ls_tabs : tabs l m' a = tabs l m a;
  ls_pte va' : uaddr va' → same_path l va va' → pte l m' a va' = v;
  ls_other va' : uaddr va' → ¬ same_path l va va' → pte l m' a va' = pte l m a va';
  ls_foot : foot true l m' a ++ leaf (pte l m a va) ≡ₚ foot true l m a ++ leaf v;
}.

Lemma kid_leaf m a i : kid true 0 m a i = leaf (entry m a i).
Proof. done. Qed.

Lemma leaf_set_1 m a va v X :
  uaddr va → tree kend 1 m a X → page (m !!! a) → 0 ≤ v < 2 ^ 64 →
  leaf_set 1 m a va v (<[a := store64 (8 * idx 1 va) v (m !!! a)]> m).
Proof.
  intros Hu Ht Hpg Hv. pose proof (tree_self _ _ _ _ _ Ht) as Ha. set (m' := <[a := _]> m). set (i := idx 1 va) in *.
  assert (0 ≤ i < lim 1) as Hi by (apply idx_lim; [lia|done]). pose proof (idx_range 1 va) as Hr. fold i in Hr.
  assert (∀ j, 0 ≤ j < 512 → entry m' a j = if decide (j = i) then v else entry m a j) as Ee.
  { intros j Hj. apply (entry_store m' a i j); [apply lookup_total_insert_eq|done|done|done|done]. }
  split.
  - rw !foot_S. f_equal. apply concat_ext. intros j _. rw /kid. by destruct (has _ (entry m' a j)), (has _ (entry m a j)).
  - intros va' Hu' Hp. rw (pte_1 kend) // Ee; [apply idx_range|]. rw decide_True //. symmetry. apply Hp. lia.
  - intros va' Hu' Hp. rw !(pte_1 kend) // Ee; [apply idx_range|]. rw decide_False //. intros E. apply Hp.
    intros k Hk. rw (_ : k = 1%nat); [lia|done].
  - rw (pte_1 kend) //. fold i. rw (foot_split true 0 m' a i Hi) (foot_split true 0 m a i Hi) !kid_leaf.
    rw (concat_ext (kid true 0 m' a) (kid true 0 m a)).
    { intros j [? ?]%elem_of_others. pose proof (lim_range 1). rw /kid Ee; [lia|]. by rw decide_False. }
    rw Ee // decide_True //. solve_Permutation.
Qed.

Lemma leaf_set_ok l m a X va t v :
  (S l ≤ 4)%nat → uaddr va → tree kend (S l) m a X → walk (S l) m a va = Some (t + 8 * idx 1 va) →
  page (m !!! t) → 0 ≤ v < 2 ^ 64 →
  leaf_set (S l) m a va v (<[t := store64 (8 * idx 1 va) v (m !!! t)]> m).
Proof.
  intros Hl Hu. revert a X Hl. induction l as [|l IH]; intros a X Hl Ht Hw Hpg Hv.
  { injection Hw as Hw. assert (t = a) as -> by lia. by eapply leaf_set_1. }
  set (m' := <[t := _]> m) in *. rw walk_SS in Hw. cbv zeta in Hw. set (i := idx (S (S l)) va) in *.
  destruct (has PTE_P (entry m a i)) eqn:E; [|done]. assert (0 ≤ i < lim (S (S l))) as Hi by (apply idx_lim; [lia|done]).
  pose proof (tree_kid _ _ _ _ _ _ Ht Hi E) as Hk. set (c := child (entry m a i)) in *.
  destruct (walk_table l m c _ va _ ltac:(lia) Hu Hk Hw) as (t' & Hin & Het & _ & _). assert (t' = t) as -> by lia.
  destruct (IH c _ ltac:(lia) Hk Hw Hpg Hv) as [I1 I2 I3 I4]. fold m' in I1, I2, I3, I4.
  assert (∀ p, p ∈ a :: rest (S l) m a i → m' !! p = m !! p) as Hfr.
  { intros p Hp. rw /m' lookup_insert_ne //. intros <-. destruct Hk as [Hn _]. apply list.NoDup_app in Hn as (_ & Hd & _).
    apply (Hd t); [by apply tabs_foot|]. rw app_comm_cons elem_of_app. by left. }
  assert (m' !!! a = m !!! a) as Ea by (apply lookup_total_eq, Hfr; by left).
  assert (∀ j, entry m' a j = entry m a j) as Ee by (intros j; by rw /entry Ea).
  assert (rest (S l) m' a i = rest (S l) m a i) as Er.
  { eapply rest_frame; [done|done|done|]. intros p Hp. apply lookup_total_eq, Hfr. by right. }
  assert (∀ j, j ≠ i → 0 ≤ j < lim (S (S l)) → has PTE_P (entry m a j) = true →
    ∀ p, p ∈ tabs (S l) m (child (entry m a j)) → m' !!! p = m !!! p) as Hkid.
  { intros j Hji Hj Hv' p Hp%tabs_foot. apply lookup_total_eq, Hfr. right. rw /rest elem_of_concat_map. exists j.
    rw elem_of_others /kid Hv'. done. }
  split.
  - rw !foot_S. f_equal. apply concat_ext. intros j Hj%elem_of_seqZ. rw /kid Ee. destruct (has PTE_P (entry m a j)) eqn:Ej; [|done].
    destruct (decide (j = i)) as [->|Hji]; [done|]. apply foot_frame. apply Hkid; [done|lia|done].
  - intros va' Hu' Hp. rw pte_SS. cbv zeta. rw Ee -(Hp (S (S l))); [lia|]. fold i. rw E. apply I2; [done|].
    intros k Hk'. apply Hp. lia.
  - intros va' Hu' Hp. rw !pte_SS. cbv zeta. rw Ee. destruct (has PTE_P (entry m a (idx (S (S l)) va'))) eqn:Ej; [|done].
    assert (0 ≤ idx (S (S l)) va' < lim (S (S l))) as Hj by (apply idx_lim; [lia|done]).
    destruct (decide (idx (S (S l)) va' = i)) as [Hji|Hji].
    + rw Hji. apply I3; [done|]. intros Hp'. apply Hp. intros k Hk'. destruct (decide (k = S (S l))) as [->|]; [done|]. apply Hp'. lia.
    + eapply pte_frame; [lia|done|by eapply tree_kid|]. by apply Hkid.
  - rw pte_SS. cbv zeta. fold i. rw E. rw (foot_child (S l) m' a i Hi ltac:(by rw Ee)) (foot_child (S l) m a i Hi E) Ee Er. fold c.
    transitivity (a :: (foot true (S l) m' c ++ leaf (pte (S l) m c va)) ++ rest (S l) m a i); [solve_Permutation|].
    rw I4. solve_Permutation.
Qed.

Lemma pte_path l m a X va va' :
  (l ≤ 4)%nat → uaddr va → uaddr va' → tree kend l m a X → same_path l va va' → pte l m a va = pte l m a va'.
Proof.
  intros Hl Hu Hu'. revert a X Hl. induction l as [|[|l] IH]; intros a X Hl Ht Hp; [done| |].
  - pose proof (tree_self _ _ _ _ _ Ht) as Ha. rw !(pte_1 kend) // Hp //.
  - rw !pte_SS -(Hp (S (S l))); [lia|]. cbv zeta. destruct (has PTE_P _) eqn:E; [|done].
    eapply IH; [lia| |intros k Hk; apply Hp; lia]. eapply tree_kid; [done|apply idx_lim; [lia|done]|done].
Qed.
End leafs.
