(* ===== verification/VmOps.v ===== *)
(** * What vm.c does to an address space *)

From S2P Require Import Prelude Kernel Kalloc Vm VmTree VmSpace.

(** The trees are never computed. *)
#[local] Opaque foot leaves walk pte junk zpage.

Section ops.
Context (kend : Z) (Hend : KERNBASE < kend).
Implicit Types (m : pmem) (X F : list Z) (s : kst) (a va : Z).

(** The page table [a], the free pages [F] and pages [X] in use elsewhere. *)
Record vspace F a X s : Prop := {
  vs_k : krepr kend F s;
  vs_tree : tree kend 4 (k_mem s) a (F ++ X);
}.

(** The leaf entry of a user address. *)
Definition pt s a va : Z := pte 4 (k_mem s) a va.

Lemma vs_table F a X s p : vspace F a X s → p ∈ tabs 4 (k_mem s) a → kpage kend p ∧ p ∉ F.
Proof.
  intros [Hk Ht] Hp%tabs_foot. split; [|by eapply table_notin]. by eapply list.Forall_forall; [apply Ht|].
Qed.

(** Reading and writing the entry a walk has found. *)
Lemma pte_access_gen F a X s va e :
  krepr kend F s → tree kend 4 (k_mem s) a X → (∀ p, p ∈ tabs 4 (k_mem s) a → p ∉ F) → uaddr va → walk 4 (k_mem s) a va = Some e →
  e ≠ 0 ∧ rd64 e s = Ret (pt s a va) s ∧
  ∀ v, 0 ≤ v < 2 ^ 64 → ∃ s', wr64 e v s = Ret tt s' ∧ krepr kend F s' ∧ same s s' ∧
    leaf_set 4 (k_mem s) a va v (k_mem s') ∧ ∀ p, p ∉ tabs 4 (k_mem s) a → k_mem s' !! p = k_mem s !! p.
Proof.
  intros Hk Ht HF Hu Hw. destruct (walk_table kend 3 _ _ _ va e ltac:(lia) Hu Ht Hw) as (t & Hin & -> & Hkt & Hpt).
  pose proof (kpage_pos _ _ Hkt). pose proof (idx_range 1 va) as Hi.
  destruct (kr_lookup _ _ _ t Hk Hkt) as [_ Hpg]. split_and!; [lia|rw (rd_entry kend F) // /pt Hpt //|].
  intros v Hvr. rw (wr_entry kend F) //. eexists. split; [done|]. split_and!; [|done| |].
  - by apply krepr_put; [|apply HF|apply page_store].
  - by eapply leaf_set_ok.
  - intros p Hp. simpl. rw lookup_insert_ne //. by intros <-.
Qed.

Lemma pte_access F a X s va e :
  vspace F a X s → uaddr va → walk 4 (k_mem s) a va = Some e →
  e ≠ 0 ∧ rd64 e s = Ret (pt s a va) s ∧
  ∀ v, 0 ≤ v < 2 ^ 64 → ∃ s', wr64 e v s = Ret tt s' ∧ krepr kend F s' ∧ same s s' ∧
    leaf_set 4 (k_mem s) a va v (k_mem s') ∧ ∀ p, p ∉ tabs 4 (k_mem s) a → k_mem s' !! p = k_mem s !! p.
Proof.
  intros Hv Hu Hw. pose proof Hv as [Hk Ht]. eapply pte_access_gen; [done|done| |done|done].
  intros p Hp. by eapply vs_table.
Qed.

Lemma walk_get F a X s va :
  vspace F a X s → uaddr va → walkpgdir a va false s = Ret (default 0 (walk 4 (k_mem s) a va)) s.
Proof. intros [Hk Ht] Hu. rw walkpgdir_from. by eapply walk_none. Qed.

Lemma pt_none s a va : walk 4 (k_mem s) a va = None → pt s a va = 0.
Proof. apply pte_none. Qed.

Lemma walk_new F a X s va :
  vspace F a X s → uaddr va →
  ∃ e s' F', walkpgdir a va true s = Ret e s' ∧ same s s' ∧ vspace F' a X s' ∧
    alloc_ok kend 4 (k_mem s) F a X (k_mem s') F' ∧ (e = 0 ∧ F' = [] ∨ e ≠ 0 ∧ walk 4 (k_mem s') a va = Some e).
Proof.
  intros [Hk Ht] Hu. rw walkpgdir_from. destruct (walk_alloc kend 3 s F a X va Hk ltac:(lia) Hu Ht) as (e & s' & F' & Hr & Hk' & Hs & Ha & Hor).
  exists e, s', F'. split_and!; [done|done| |done|done]. split; [done|apply Ha].
Qed.

(** ** [mappages] of one page *)

Lemma pgrounddown va : 0 ≤ va < 2 ^ 64 → PGROUNDDOWN va = va / 4096 * 4096.
Proof. intros. by apply land_page. Qed.
Lemma pgroundup va : 0 ≤ va < 2 ^ 64 - PGSIZE → PGROUNDUP va = (va + 4095) / 4096 * 4096.
Proof. intros. rw /PGROUNDUP u64_small; [plia|]. by rw land_page; [plia|]. Qed.

Lemma mappages_unfold a va pa perm :
  uaddr va → va mod PGSIZE = 0 →
  mappages a va PGSIZE pa perm =
    pte ← walkpgdir a va true;
    if pte =? 0 then mret (-1) else
    v ← rd64 pte;
    if has PTE_P v then panic "remap" else
    wr64 pte (Z.lor (Z.lor pa perm) PTE_P);;
    mret 0.
Proof.
  rw /uaddr. intros Hu Ha. rw /mappages u64_small; [plia|]. rw !pgrounddown; [plia..|].
  rw (_ : va / 4096 * 4096 = va); [plia|]. rw (_ : (va + PGSIZE - 1) / 4096 * 4096 = va); [plia|].
  rw Z.sub_diag. change (Z.to_nat (0 / PGSIZE) + 1)%nat with 1%nat. cbn [mappages_loop]. rw (Z.eqb_refl va). reflexivity.
Qed.

(** The leaf entry that maps page [q]. *)
Definition page_pte (q perm : Z) : Z := Z.lor (Z.lor (V2P q) perm) PTE_P.

Lemma page_pte_ok q perm :
  kpage kend q → 0 ≤ perm < PGSIZE →
  has PTE_P (page_pte q perm) = true ∧ child (page_pte q perm) = q ∧ 0 ≤ page_pte q perm < 2 ^ 64 ∧
  PTE_ADDR (page_pte q perm) = V2P q.
Proof.
  intros Hq Hp. pose proof (V2P_kpage kend q Hq) as E. pose proof (kpage_pos kend q Hq). destruct Hq as [Ha _ Hb].
  assert (0 ≤ V2P q < 2 ^ 64 ∧ V2P q mod PGSIZE = 0) as [Hr Hm] by (rw E; plia).
  assert (0 ≤ Z.lor perm PTE_P < 2 ^ 12) as Hl by (apply lor_range; [lia|done|done]).
  assert (PTE_ADDR (page_pte q perm) = V2P q) as Ea by (rw /page_pte -Z.lor_assoc addr_lor //).
  split; [|split; [|split]].
  - rw /page_pte has_lor. apply orb_true_r.
  - rw /child Ea. apply P2V_V2P. lia.
  - rw /page_pte. apply lor_range; [lia| |done]. apply lor_range; [lia|done|plia].
  - done.
Qed.

(** Mapping succeeded: the free list went from [F] to [F'], the page [q] went
    into the tree, [va] and no other page has a new entry. *)
Record mapped1 F a va q v F' s s' : Prop := {
  m1_same : same s s';
  m1_here va' : uaddr va' → va' / PGSIZE = va / PGSIZE → pt s' a va' = v;
  m1_other va' : uaddr va' → va' / PGSIZE ≠ va / PGSIZE → pt s' a va' = pt s a va';
  m1_foot : foot true 4 (k_mem s') a ++ F' ≡ₚ q :: foot true 4 (k_mem s) a ++ F;
  m1_frame p : p ∉ tabs 4 (k_mem s) a → p ∉ F → k_mem s' !! p = k_mem s !! p;
  m1_free p : p ∈ F' → p ∈ F;
  m1_tabs p : p ∈ tabs 4 (k_mem s') a → p ∈ tabs 4 (k_mem s) a ∨ p ∈ F;
}.

Lemma mappages_ok F a X s va q perm :
  vspace F a (q :: X) s → kpage kend q → uaddr va → va mod PGSIZE = 0 → 0 ≤ perm < PGSIZE →
  has PTE_P (pt s a va) = false →
  ∃ r s' F', mappages a va PGSIZE (V2P q) perm s = Ret r s' ∧
    (r = 0 ∧ vspace F' a X s' ∧ mapped1 F a va q (page_pte q perm) F' s s' ∨
     r = -1 ∧ F' = [] ∧ same s s' ∧ vspace F' a (q :: X) s' ∧ alloc_ok kend 4 (k_mem s) F a (q :: X) (k_mem s') F').
Proof.
  intros Hv Hq Hu Ha Hp Hn. rw mappages_unfold //. destruct (walk_new F a (q :: X) s va Hv Hu) as (e & s1 & F1 & Hr & Hs1 & Hv1 & Ha1 & Hor).
  rw {1}/mbind {1}/M_bind Hr. cbn [bindo]. destruct Hor as [[-> ->]|[He Hw]].
  { rw Z.eqb_refl. exists (-1), s1, []. split; [done|]. right. done. }
  destruct (Z.eqb_spec e 0); [done|]. destruct (pte_access F1 a (q :: X) s1 va e Hv1 Hu Hw) as (_ & Hrd & Hwr).
  destruct (page_pte_ok q perm Hq Hp) as (Hpp & Hpc & Hpr & _).
  destruct (Hwr _ Hpr) as (s2 & Hwr2 & Hk2 & Hs2 & [L1 L2 L3 L4] & Hfr2).
  assert (pt s1 a va = pt s a va) as Ept by by apply Ha1.
  rw {1}/mbind {1}/M_bind Hrd. cbn [bindo]. rw Ept Hn {1}/mbind {1}/M_bind. rw Hwr2. cbn [bindo].
  exists 0, s2, F1. split; [done|left]. fold (pt s1 a va) in L4. rw Ept {1}/leaf Hn app_nil_r /leaf Hpp Hpc in L4.
  assert (foot true 4 (k_mem s2) a ++ F1 ≡ₚ q :: foot true 4 (k_mem s) a ++ F) as Hfoot.
  { rw L4. pose proof (ao_perm _ _ _ _ _ _ _ _ Ha1) as Hperm.
    transitivity (q :: foot true 4 (k_mem s1) a ++ F1); [solve_Permutation|]. by rw Hperm. }
  split_and!; [done|split; [done|split]|split].
  - rw L4. pose proof (tr_nodup _ _ _ _ _ (vs_tree _ _ _ _ Hv1)) as Hnd.
    assert ((foot true 4 (k_mem s1) a ++ [q]) ++ F1 ++ X ≡ₚ foot true 4 (k_mem s1) a ++ F1 ++ q :: X) as -> by solve_Permutation. done.
  - rw L4. apply Forall_app. split; [apply (vs_tree _ _ _ _ Hv1)|]. by apply list.Forall_singleton.
  - by eapply same_trans.
  - intros va' Hu' E. apply L2; [done|]. by apply same_path_page.
  - intros va' Hu' E. rw /pt L3 //; [|by apply Ha1]. intros Hsp%same_path_page; [by apply E|done|done].
  - done.
  - intros p Hp1 Hp2. rw Hfr2; [intros [?|?]%(ao_tabs _ _ _ _ _ _ _ _ Ha1); done|]. by apply Ha1.
  - apply Ha1.
  - intros p. rw L1. apply Ha1.
Qed.

(** ** [deallocuvm] *)

(** A page that is present is unmapped and freed. *)
Definition clear (v : Z) : Z := if has PTE_P v then 0 else v.

(** The pages of the addresses in [P] are gone. *)
Record unmapped F a (P : Z → Prop) F' s s' : Prop := {
  um_same : same s s';
  um_in va : uaddr va → P (va / PGSIZE) → pt s' a va = clear (pt s a va);
  um_out va : uaddr va → ¬ P (va / PGSIZE) → pt s' a va = pt s a va;
  um_foot : foot true 4 (k_mem s') a ++ F' ≡ₚ foot true 4 (k_mem s) a ++ F;
  um_tabs : tabs 4 (k_mem s') a = tabs 4 (k_mem s) a;
  um_frame p : p ∉ tabs 4 (k_mem s) a → p ∉ F' → k_mem s' !! p = k_mem s !! p;
  um_free p : p ∈ F → p ∈ F';
  um_new p : p ∈ F' → p ∈ F ∨ ∃ va, uaddr va ∧ P (va / PGSIZE) ∧ has PTE_P (pt s a va) = true ∧ p = child (pt s a va);
}.

Lemma clear_clear v : clear (clear v) = clear v.
Proof. rw /clear. destruct (has PTE_P v) eqn:E; [done|by rw E]. Qed.

Lemma pt_page s a F X va va' : vspace F a X s → uaddr va → uaddr va' → va / PGSIZE = va' / PGSIZE → pt s a va' = pt s a va.
Proof.
  intros [Hk Ht] Hu Hu' E. apply same_path_page in E; [|done|done]. symmetry. eapply pte_path; [|done|done|done|done]. lia.
Qed.

Lemma present_leaf F a X s va :
  vspace F a X s → uaddr va → has PTE_P (pt s a va) = true →
  let q := child (pt s a va) in kpage kend q ∧ q ∉ F ∧ q ∉ X ∧ q ∉ tabs 4 (k_mem s) a ∧ q ∈ foot true 4 (k_mem s) a.
Proof.
  intros [Hk Ht] Hu Hp q. pose proof (pte_leaf kend 3 _ _ _ va ltac:(lia) Hu Ht Hp) as Hin. fold (pt s a va) q in Hin.
  assert (q ∈ foot true 4 (k_mem s) a) as Hf by by apply leaves_foot.
  pose proof Ht as [Hn Hpg]. apply list.NoDup_app in Hn as (_ & Hd & _). pose proof (Hd q Hf) as Hx. rw elem_of_app in Hx.
  split_and!; [by eapply list.Forall_forall|naive_solver|naive_solver|by eapply leaves_notin_tabs|done].
Qed.

(** The body of the loop. *)
Definition dealloc_body (pgdir a : Z) : M kst unit :=
  pte ← walkpgdir pgdir a false;
  if pte =? 0 then mret tt else
  v ← rd64 pte;
  when (has PTE_P v)
    (let pa := PTE_ADDR v in
     if pa =? 0 then panic "kfree" else kfree kend (P2V pa);; wr64 pte 0).

Lemma dealloc_body_ok F a X s va :
  vspace F a X s → uaddr va →
  ∃ s' F', dealloc_body a va s = Ret tt s' ∧ vspace F' a X s' ∧ unmapped F a (λ n, n = va / PGSIZE) F' s s'.
Proof.
  intros Hv Hu. rw /dealloc_body {1}/mbind {1}/M_bind (walk_get F a X) //. cbn [bindo].
  assert (∀ s, vspace F a X s → clear (pt s a va) = pt s a va → unmapped F a (λ n, n = va / PGSIZE) F s s) as Hid.
  { intros s0 Hv0 Hc. split; [apply same_refl| |auto|auto|auto|auto|auto|auto]. intros va' Hu' E. rw (pt_page s0 a F X va va') //. }
  destruct (walk 4 (k_mem s) a va) as [e|] eqn:Hw; cbn [default].
  2:{ exists s, F. split_and!; [done|done|]. apply Hid; [done|]. by rw (pt_none s a va). }
  pose proof Hv as [Hk Ht]. destruct (pte_access F a X s va e Hv Hu Hw) as (He & Hrd & _).
  cbn [from_option id]. destruct (Z.eqb_spec e 0); [done|]. rw {1}/mbind {1}/M_bind Hrd. cbn [bindo]. destruct (has PTE_P (pt s a va)) eqn:Hp; cbn [when].
  2:{ exists s, F. split_and!; [done|done|]. apply Hid; [done|]. by rw /clear Hp. }
  destruct (present_leaf F a X s va Hv Hu Hp) as (Hkq & HqF & HqX & HqT & Hqf). rw /child in Hkq, HqF, HqX, HqT, Hqf.
  set (pa := PTE_ADDR (pt s a va)) in *. set (q := P2V pa) in *. destruct (Z.eqb_spec pa 0) as [E0|_].
  { exfalso. destruct Hkq as [_ Hq _]. rw /q E0 in Hq. change (P2V 0) with KERNBASE in Hq. lia. }
  destruct (kfree_ok kend F s q Hk Hkq HqF) as (s1 & Hr1 & Hk1 & Em1 & Hc1 & Hu1 & Hg1).
  rw {1}/mbind {1}/M_bind Hr1. cbn [bindo]. assert (child (pt s a va) = q) as Hq by reflexivity. clearbody q. clear Hr1 pa.
  assert (∀ p, p ∈ tabs 4 (k_mem s) a → k_mem s1 !!! p = k_mem s !!! p) as Hfr1.
  { intros p Hp'. rw Em1. apply lookup_total_insert_ne. by intros <-. }
  assert (∀ b, foot b 4 (k_mem s1) a = foot b 4 (k_mem s) a) as Ef by (intros b; by apply foot_frame).
  assert (∀ va', uaddr va' → pt s1 a va' = pt s a va') as Ep by (intros va' Hu'; by eapply pte_frame; [lia|..]).
  assert (tree kend 4 (k_mem s1) a (F ++ X)) as Ht1 by (destruct Ht; split; by rw Ef).
  destruct (pte_access_gen (q :: F) a (F ++ X) s1 va e) as (_ & _ & Hwr); [done|done| |done|by rw (walk_frame 4 (k_mem s)); [lia|..]|].
  { intros p. rw Ef. intros Hp'. apply not_elem_of_cons. split; [by intros ->|]. apply (vs_table F a X s p Hv Hp'). }
  destruct (Hwr 0) as (s2 & Hr2 & Hk2 & Hs2 & [L1 L2 L3 L4] & Hfr2); [lia|].
  fold (pt s1 a va) in L4. rw (Ep va Hu) {1}/leaf Hp Hq Ef in L4. change (leaf 0) with (@nil Z) in L4. rw app_nil_r in L4.
  assert (foot true 4 (k_mem s2) a ++ q :: F ≡ₚ foot true 4 (k_mem s) a ++ F) as Hfoot by (rw -L4; solve_Permutation).
  exists s2, (q :: F). split_and!; [exact Hr2|split; [done|split]|split].
  - destruct Ht as [Hn _]. rw app_assoc. rw Hfoot -app_assoc //.
  - destruct Ht as [_ Hpg]. rw -L4 in Hpg. by apply Forall_app in Hpg as [? _].
  - eapply same_trans; [split; [exact Hc1|exact Hu1|exact Hg1]|exact Hs2].
  - intros va' Hu' E. rw (pt_page s a F X va va' Hv Hu Hu' (eq_sym E)) /clear Hp. apply L2; [exact Hu'|].
    apply same_path_page; [exact Hu|exact Hu'|exact (eq_sym E)].
  - intros va' Hu' E. rw -(Ep va' Hu'). apply L3; [exact Hu'|]. intros Hsp%same_path_page; [exact (E (eq_sym Hsp))|exact Hu|exact Hu'].
  - exact Hfoot.
  - rw L1. apply Ef.
  - intros p Hpt HpF. rw Hfr2; [by rw Ef|]. rw Em1. apply lookup_insert_ne. intros ->. apply HpF. by left.
  - intros p Hp'. by right.
  - intros p [->|Hp']%elem_of_cons; [right; exists va; auto|left; exact Hp'].
Qed.
End ops.
