(* ===== verification/VmSize.v ===== *)
(** * Growing and shrinking an address space: allocuvm and deallocuvm *)

From S2P Require Import Prelude Kernel Kalloc Vm VmTree VmSpace VmOps.

#[local] Opaque foot leaves walk pte junk zpage.

Section size.
Context (kend : Z) (Hend : KERNBASE < kend).
Implicit Types (F X : list Z) (s : kst) (a va : Z) (P Q : Z → Prop).

(** Page numbers of the addresses from [lo], a multiple of the page size, up to [hi]. *)
Definition pages (lo hi n : Z) : Prop := lo ≤ n * PGSIZE < hi.

(** ** [deallocuvm] *)

Lemma unmapped_refl F a P s : (∀ n, ¬ P n) → unmapped F a P F s s.
Proof. intros HP. split; [apply same_refl| |auto|auto|auto|auto|auto|auto]. intros va _ []%HP. Qed.

Lemma unmapped_ext F a P Q F' s s' : (∀ n, P n ↔ Q n) → unmapped F a P F' s s' → unmapped F a Q F' s s'.
Proof.
  intros E [H1 H2 H3 H4 H5 H6 H7 H8]. split; [exact H1| | |exact H4|exact H5|exact H6|exact H7|].
  - intros va Hu ?%E. auto.
  - intros va Hu Hn. apply H3; [done|]. by rw E.
  - intros p [?|(va & ? & ?%E & ?)]%H8; [by left|right]. by exists va.
Qed.

Lemma unmapped_trans F a P Q F1 F2 s s1 s2 :
  (∀ n, Decision (P n)) → (∀ n, Decision (Q n)) →
  unmapped F a P F1 s s1 → unmapped F1 a Q F2 s1 s2 → unmapped F a (λ n, P n ∨ Q n) F2 s s2.
Proof.
  intros dP dQ [H1 H2 H3 H4 H5 H6 H7 H8] [K1 K2 K3 K4 K5 K6 K7 K8]. split.
  - by eapply same_trans.
  - intros va Hu HPQ. destruct (dP (va / PGSIZE)) as [HP|HP], (dQ (va / PGSIZE)) as [HQ|HQ].
    + by rw K2 // H2 // clear_clear.
    + by rw K3 // H2.
    + by rw K2 // H3.
    + by destruct HPQ.
  - intros va Hu HPQ. rw K3 //; [tauto|]. apply H3; tauto.
  - by rw K4.
  - by rw K5.
  - intros p Hp HF. rw K6 //; [by rw H5|]. apply H6; [done|]. by intros ?%K7.
  - auto.
  - intros p [Hp|(va & Hu & HQ & Hpr & ->)]%K8.
    + apply H8 in Hp as [?|(va & ? & ? & ?)]; [by left|right]. exists va. auto.
    + right. exists va. destruct (dP (va / PGSIZE)) as [HP|HP].
      * rw (H2 va Hu HP) /clear in Hpr. destruct (has PTE_P (pt s a va)) eqn:E; [done|]. by rw E in Hpr.
      * rw (H3 va Hu HP) in Hpr. rw (H3 va Hu HP). auto.
Qed.

Lemma deallocuvm_loop_S fuel a lo hi s :
  deallocuvm_loop kend (S fuel) a lo hi s =
  (if lo <? hi then dealloc_body kend a lo;; deallocuvm_loop kend fuel a (u64 (lo + PGSIZE)) hi else mret tt) s.
Proof. cbn [deallocuvm_loop]. destruct (lo <? hi); [|done]. rw /dealloc_body run_assoc //. Qed.

#[local] Instance pages_dec lo hi n : Decision (pages lo hi n) := _.

Lemma dealloc_loop_ok fuel F a X s lo hi :
  vspace kend F a X s → 0 ≤ lo → hi ≤ 2 ^ 47 → lo mod PGSIZE = 0 → Z.max 0 ((hi - lo) / PGSIZE + 1) < Z.of_nat fuel →
  ∃ s' F', deallocuvm_loop kend fuel a lo hi s = Ret tt s' ∧ vspace kend F' a X s' ∧ unmapped F a (pages lo hi) F' s s'.
Proof.
  revert F s lo. induction fuel as [|fuel IH]; intros F s lo Hv Hlo Hhi Hal Hf; [plia|]. rw deallocuvm_loop_S.
  destruct (Z.ltb_spec lo hi).
  2:{ exists s, F. split_and!; [done|done|]. apply unmapped_refl. rw /pages. lia. }
  destruct (dealloc_body_ok kend Hend F a X s lo Hv) as (s1 & F1 & Hr1 & Hv1 & H1); [rw /uaddr; lia|].
  erewrite run_bind; [|exact Hr1]. rw u64_small; [plia|].
  destruct (IH F1 s1 (lo + PGSIZE) Hv1) as (s2 & F2 & Hr2 & Hv2 & H2); [plia..|].
  exists s2, F2. split_and!; [done|done|]. eapply unmapped_ext; [|exact (unmapped_trans F a _ _ F1 F2 s s1 s2 _ _ H1 H2)].
  intros n. rw /pages. plia.
Qed.

Lemma dealloc_ok F a X s oldsz newsz :
  vspace kend F a X s → 0 ≤ newsz < oldsz → oldsz ≤ 2 ^ 47 →
  ∃ s' F', deallocuvm kend a oldsz newsz s = Ret newsz s' ∧ vspace kend F' a X s' ∧ unmapped F a (pages newsz oldsz) F' s s'.
Proof.
  intros Hv Hn Ho. rw /deallocuvm Z.geb_leb. destruct (Z.leb_spec oldsz newsz); [lia|]. rw pgroundup; [plia|].
  destruct (dealloc_loop_ok (npages ((newsz + 4095) / 4096 * 4096) oldsz) F a X s ((newsz + 4095) / 4096 * 4096) oldsz Hv) as (s' & F' & Hr & Hv' & H');
    [lia|done|plia|rw /npages /PGSIZE; lia|].
  exists s', F'. split_and!; [by erewrite run_bind|done|]. eapply unmapped_ext; [|exact H']. intros n. rw /pages /PGSIZE. lia.
Qed.

(** ** Pages put into an address space *)

(** The pages with numbers in [P] are new: they come from [F], page [n] has the
    permissions [perm n] and the contents [cont n]; nothing else has changed. *)
Record grown (perm : Z → Z) (cont : Z → list Z) F a P F' s s' : Prop := {
  gr_same : same s s';
  gr_in va : uaddr va → P (va / PGSIZE) → ∃ q, q ∈ F ∧ kpage kend q ∧
    pt s' a va = page_pte q (perm (va / PGSIZE)) ∧ k_mem s' !! q = Some (cont (va / PGSIZE));
  gr_out va : uaddr va → ¬ P (va / PGSIZE) → pt s' a va = pt s a va;
  gr_foot : foot true 4 (k_mem s') a ++ F' ≡ₚ foot true 4 (k_mem s) a ++ F;
  gr_frame p : p ∉ tabs 4 (k_mem s) a → p ∉ F → k_mem s' !! p = k_mem s !! p;
  gr_free p : p ∈ F' → p ∈ F;
  gr_tabs p : p ∈ tabs 4 (k_mem s') a → p ∈ tabs 4 (k_mem s) a ∨ p ∈ F;
}.

(** The pages with numbers in [P] are absent again. *)
Record restored F a P F' s s' : Prop := {
  re_same : same s s';
  re_in va : uaddr va → P (va / PGSIZE) → has PTE_P (pt s' a va) = false;
  re_out va : uaddr va → ¬ P (va / PGSIZE) → pt s' a va = pt s a va;
  re_foot : foot true 4 (k_mem s') a ++ F' ≡ₚ foot true 4 (k_mem s) a ++ F;
  re_frame p : p ∉ tabs 4 (k_mem s) a → p ∉ F → k_mem s' !! p = k_mem s !! p;
}.

Section grown.
Context (perm : Z → Z) (cont : Z → list Z) (Hperm : ∀ n, 0 ≤ perm n < PGSIZE).

Lemma grown_refl F a P s : (∀ n, ¬ P n) → grown perm cont F a P F s s.
Proof. intros HP. split; auto using same_refl. intros va _ []%HP. Qed.

Lemma grown_ext F a P Q F' s s' : (∀ n, P n ↔ Q n) → grown perm cont F a P F' s s' → grown perm cont F a Q F' s s'.
Proof.
  intros E [H1 H2 H3 H4 H5 H6 H7]. split; auto.
  - intros va Hu ?%E. auto.
  - intros va Hu Hn. apply H3; [done|]. by rw E.
Qed.

Lemma grown_eq F a P F' s s1 s2 :
  k_mem s2 = k_mem s1 → same s1 s2 → grown perm cont F a P F' s s1 → grown perm cont F a P F' s s2.
Proof.
  intros Em Hs [H1 H2 H3 H4 H5 H6 H7]. rw /pt -Em in H2, H3, H4, H5, H7. split; [by eapply same_trans|exact H2|exact H3|exact H4|exact H5|exact H6|exact H7].
Qed.

Lemma grown_trans F a P Q F1 F2 X s s1 s2 :
  (∀ n, Decision (P n)) → (∀ n, Decision (Q n)) → vspace kend F1 a X s1 →
  grown perm cont F a P F1 s s1 → grown perm cont F1 a Q F2 s1 s2 → grown perm cont F a (λ n, P n ∨ Q n) F2 s s2.
Proof.
  intros dP dQ Hv [H1 H2 H3 H4 H5 H6 H7] [K1 K2 K3 K4 K5 K6 K7]. split.
  - by eapply same_trans.
  - intros va Hu HPQ. destruct (dQ (va / PGSIZE)) as [HQ|HQ].
    + destruct (K2 va Hu HQ) as (q & ? & ? & ? & ?). exists q. auto.
    + destruct HPQ as [HP|]; [|done]. destruct (H2 va Hu HP) as (q & Hq & Hkq & Hpt & Hm). exists q.
      destruct (page_pte_ok kend q (perm (va / PGSIZE)) Hkq (Hperm _)) as (Hpr & Hch & _). rw -Hpt in Hpr, Hch.
      destruct (present_leaf kend F1 a X s1 va Hv Hu Hpr) as (_ & HF & _ & HT & _). rw Hch in HF, HT.
      split_and!; [done|done|by rw K3|by rw K5].
  - intros va Hu HPQ. rw K3 //; [tauto|]. apply H3; tauto.
  - by rw K4.
  - intros p Hp HF. rw K5; [intros [?|?]%H7; done|by intros ?%H6|]. by apply H5.
  - auto.
  - intros p [Hp|Hp]%K7; auto.
Qed.

Lemma grown_restored F a P Q F1 F2 s s1 s2 :
  (∀ n, Decision (P n)) → (∀ n, P n → Q n) → (∀ va, uaddr va → Q (va / PGSIZE) → has PTE_P (pt s a va) = false) →
  grown perm cont F a P F1 s s1 → unmapped F1 a Q F2 s1 s2 → restored F a Q F2 s s2.
Proof.
  intros dP HPQ Habs [H1 H2 H3 H4 H5 H6 H7] [K1 K2 K3 K4 K5 K6 K7 K8]. split.
  - by eapply same_trans.
  - intros va Hu HQ. rw K2 // /clear. destruct (has PTE_P (pt s1 a va)) eqn:E; [done|exact E].
  - intros va Hu HQ. rw K3 //. apply H3; [done|]. by intros ?%HPQ.
  - by rw K4.
  - intros p Hp HF. rw K6; [intros [?|?]%H7; done| |by apply H5].
    intros [?%H6|(va & Hu & HQ & Hpr & ->)]%K8; [done|]. destruct (dP (va / PGSIZE)) as [HP|HP].
    + destruct (H2 va Hu HP) as (q & Hq & Hkq & Hpt & _). apply HF. rw Hpt.
      by destruct (page_pte_ok kend q (perm (va / PGSIZE)) Hkq (Hperm _)) as (_ & -> & _).
    + rw H3 // Habs // in Hpr.
Qed.

(** ** One page *)

Lemma vspace_alloc F a X q s s1 d :
  vspace kend (q :: F) a X s → krepr kend F s1 → k_mem s1 = k_mem s → page d →
  kpage kend q ∧ q ∉ F ∧ q ∉ foot true 4 (k_mem s) a ∧ vspace kend F a (q :: X) (set_mem (<[q := d]> (k_mem s1)) s1).
Proof.
  intros [Hk Ht] Hk1 Em Hd. pose proof (kr_pages _ _ _ Hk) as Hp. apply list.Forall_cons in Hp as [Hq _].
  pose proof (kr_nodup _ _ _ Hk) as Hn. apply list.NoDup_cons in Hn as [HqF _].
  assert (q ∉ foot true 4 (k_mem s) a) as Hqf by (intros Hf; eapply (table_notin kend 4 _ a (q :: F) X q Ht Hf); by left).
  split_and!; [done|done|done|]. split; [by apply krepr_put|]. simpl. rw Em.
  assert (∀ b, foot b 4 (<[q := d]> (k_mem s)) a = foot b 4 (k_mem s) a) as Ef.
  { intros b. apply foot_frame. intros p Hp%tabs_foot. apply lookup_total_insert_ne. by intros ->. }
  destruct Ht as [H1 H2]. split; rw Ef; [|done]. by rw -Permutation_middle.
Qed.

(** A free page [q] with the contents [cont] is mapped at [va], or there is no page for the tables. *)
Lemma map_new F a X q s s1 va :
  let n := va / PGSIZE in
  vspace kend (q :: F) a X s → krepr kend F s1 → k_mem s1 = k_mem s → same s s1 → page (cont n) →
  uaddr va → va mod PGSIZE = 0 → has PTE_P (pt s a va) = false →
  ∃ r s' F', mappages a va PGSIZE (V2P q) (perm n) (set_mem (<[q := cont n]> (k_mem s1)) s1) = Ret r s' ∧
    (r = 0 ∧ vspace kend F' a X s' ∧ grown perm cont (q :: F) a (λ i, i = n) F' s s' ∨
     r = -1 ∧ F' = [] ∧ vspace kend [] a (q :: X) s' ∧ grown perm cont (q :: F) a (λ _, False) [q] s s').
Proof.
  intros n Hv Hk1 Em Hsm Hpg Hu Ha Hab. destruct (vspace_alloc F a X q s s1 (cont n) Hv Hk1 Em Hpg) as (Hq & HqF & Hqf & Hv2).
  set (s2 := set_mem _ s1) in *. assert (same s s2) as Hs2 by (destruct Hsm; by split).
  assert (∀ p, p ∈ tabs 4 (k_mem s) a → k_mem s2 !!! p = k_mem s !!! p) as Hfr.
  { intros p Hp%tabs_foot. rw /s2 /= Em. apply lookup_total_insert_ne. by intros ->. }
  assert (∀ b, foot b 4 (k_mem s2) a = foot b 4 (k_mem s) a) as Ef by (intros b; by apply foot_frame).
  assert (∀ va', uaddr va' → pt s2 a va' = pt s a va') as Ep by (intros va' Hu'; eapply pte_frame; [|done|apply Hv|done]; lia).
  assert (∀ p, p ∉ q :: F → k_mem s2 !! p = k_mem s !! p) as Hfo.
  { intros p Hp. rw /s2 /= Em lookup_insert_ne //. intros ->. apply Hp. by left. }
  destruct (mappages_ok kend F a X s2 va q (perm n) Hv2 Hq Hu Ha (Hperm n)) as (r & s' & F' & Hr & Hor); [by rw Ep|].
  exists r, s', F'. split; [done|]. destruct Hor as [(-> & Hv' & [M1 M2 M3 M4 M5 M6 M7])|(-> & -> & Hs' & Hv' & [A1 A2 A3 A4 A5 A6])].
  - left. split_and!; [done|done|]. split.
    + by apply (same_trans s s2).
    + intros va' Hu' E. exists q. rw M2 // E. split_and!; [by left|done|done|]. fold n in E.
      rw M5; [rw Ef; by intros ?%tabs_foot|done|]. rw /s2 /= lookup_insert_eq //.
    + intros va' Hu' E. rw M3 //. by apply Ep.
    + rw M4 Ef. solve_Permutation.
    + intros p Hp Hn'. rw M5; [by rw Ef|intros HF; apply Hn'; by right|]. by apply Hfo.
    + intros p Hp. right. by apply M6.
    + intros p [Hp|Hp]%M7; [left; by rw Ef in Hp|right; by right].
  - right. split_and!; [done|done|done|]. split.
    + by apply (same_trans s s2).
    + done.
    + intros va' Hu' _. rw -(Ep va' Hu'). by apply A4.
    + rw app_nil_r in A2. rw A2 Ef. solve_Permutation.
    + intros p Hp Hn'. rw A3; [by rw Ef|intros HF; apply Hn'; by right|]. by apply Hfo.
    + intros p ->%list_elem_of_singleton. by left.
    + intros p [Hp|Hp]%A5; [left; by rw Ef in Hp|right; by right].
Qed.

(** ** Giving up *)

Lemma unmapped_cons F a P q F' s s' : unmapped F a P F' s s' → unmapped (q :: F) a P (q :: F') s s'.
Proof.
  intros [K1 K2 K3 K4 K5 K6 K7 K8]. split; auto.
  - rw -!Permutation_middle K4 //.
  - intros p Hp Hn. apply K6; [done|]. intros ?. apply Hn. by right.
  - intros p [->|?]%elem_of_cons; [by left|]. right. auto.
  - intros p [->|[?|?]%K8]%elem_of_cons; [left; by left|left; by right|by right].
Qed.

Lemma unmapped_kfree F a P F' X q s s1 s2 d :
  vspace kend F' a (q :: X) s1 → same s1 s2 → k_mem s2 = <[q := d]> (k_mem s1) → krepr kend (q :: F') s2 →
  unmapped F a P F' s s1 → vspace kend (q :: F') a X s2 ∧ unmapped (q :: F) a P (q :: F') s s2.
Proof.
  intros [_ Ht] Hs Em Hk [K1 K2 K3 K4 K5 K6 K7 K8]%(unmapped_cons _ _ _ q).
  assert (q ∉ foot true 4 (k_mem s1) a) as Hq.
  { intros Hf. apply (table_notin kend 4 (k_mem s1) a (q :: F') X q); [|done|by left]. eapply tree_ctx; [|exact Ht]. by rw -Permutation_middle. }
  assert (∀ p, p ∈ tabs 4 (k_mem s1) a → k_mem s2 !!! p = k_mem s1 !!! p) as Hfr.
  { intros p Hp%tabs_foot. rw Em. apply lookup_total_insert_ne. by intros ->. }
  assert (∀ b, foot b 4 (k_mem s2) a = foot b 4 (k_mem s1) a) as Ef by (intros b; by apply foot_frame).
  assert (∀ va', uaddr va' → pt s2 a va' = pt s1 a va') as Ep by (intros va' Hu'; eapply pte_frame; [|done|exact Ht|done]; lia).
  split; [split; [done|]|split].
  - destruct Ht as [H1 H2]. split; rw Ef; [|done]. by rw -app_comm_cons Permutation_middle.
  - by eapply same_trans.
  - intros va Hu HP. rw Ep //. auto.
  - intros va Hu HP. rw Ep //. auto.
  - by rw Ef.
  - by rw Ef.
  - intros p Hp Hn. rw Em lookup_insert_ne; [intros ->; apply Hn; by left|]. auto.
  - auto.
  - auto.
Qed.

(** The two exits of [allocuvm] on failure. *)
Section undo.
Context (F0 : list Z) (s0 : kst) (a oldsz newsz : Z) (P : Z → Prop) (dP : ∀ n, Decision (P n)).
Context (HPQ : ∀ n, P n → pages oldsz newsz n).
Context (Habs : ∀ va, uaddr va → pages oldsz newsz (va / PGSIZE) → has PTE_P (pt s0 a va) = false).
Context (Hsz : 0 ≤ oldsz < newsz) (Hmax : newsz ≤ 2 ^ 47).

Lemma alloc_undo X s :
  vspace kend [] a X s → grown perm cont F0 a P [] s0 s →
  ∃ s' F', (deallocuvm kend a newsz oldsz;; mret 0) s = Ret 0 s' ∧ vspace kend F' a X s' ∧ restored F0 a (pages oldsz newsz) F' s0 s'.
Proof.
  intros Hv Hg. destruct (dealloc_ok [] a X s newsz oldsz Hv Hsz Hmax) as (s' & F' & Hr & Hv' & Hu).
  exists s', F'. split_and!; [by erewrite run_bind|done|]. by eapply grown_restored.
Qed.

Lemma alloc_undo_page X q s :
  vspace kend [] a (q :: X) s → kpage kend q → grown perm cont F0 a P [q] s0 s →
  ∃ s' F', (deallocuvm kend a newsz oldsz;; kfree kend q;; mret 0) s = Ret 0 s' ∧ vspace kend F' a X s' ∧
    restored F0 a (pages oldsz newsz) F' s0 s'.
Proof.
  intros Hv Hq Hg. destruct (dealloc_ok [] a (q :: X) s newsz oldsz Hv Hsz Hmax) as (s1 & F1 & Hr & Hv1 & Hu).
  assert (q ∉ F1) as HqF.
  { destruct Hv1 as [_ [Hn _]]. apply list.NoDup_app in Hn as (_ & _ & Hn). apply list.NoDup_app in Hn as (_ & Hd & _).
    intros Hf. apply (Hd q Hf). by left. }
  destruct (kfree_ok kend F1 s1 q (vs_k _ _ _ _ _ Hv1) Hq HqF) as (s2 & Hr2 & Hk2 & Em2 & ? & ? & ?).
  destruct (unmapped_kfree [] a (pages oldsz newsz) F1 X q s s1 s2 _ Hv1 ltac:(by split) Em2 Hk2 Hu) as [Hv2 Hu2].
  exists s2, (q :: F1). split_and!; [|done|by eapply grown_restored].
  erewrite run_bind; [|exact Hr]. by erewrite run_bind.
Qed.
End undo.
End grown.

(** ** [allocuvm] *)

Definition uw (n : Z) : Z := Z.lor PTE_W PTE_U.
Lemma uw_range n : 0 ≤ uw n < PGSIZE.
Proof. done. Qed.
Definition zeros (n : Z) : list Z := zpage.

Lemma alloc_loop_ok fuel F0 s0 F s a X oldsz newsz cur :
  let lo := PGROUNDUP oldsz in
  vspace kend F a X s → grown uw zeros F0 a (pages lo cur) F s0 s →
  0 ≤ oldsz ≤ newsz → newsz ≤ 2 ^ 47 → lo ≤ cur < newsz + PGSIZE → cur mod PGSIZE = 0 →
  (∀ va, uaddr va → pages oldsz newsz (va / PGSIZE) → has PTE_P (pt s0 a va) = false) →
  Z.max 0 ((newsz - cur) / PGSIZE + 1) < Z.of_nat fuel →
  ∃ r s' F', allocuvm_loop kend fuel a cur oldsz newsz s = Ret r s' ∧ vspace kend F' a X s' ∧
    (r = newsz ∧ grown uw zeros F0 a (pages oldsz newsz) F' s0 s' ∨
     r = 0 ∧ oldsz < newsz ∧ restored F0 a (pages oldsz newsz) F' s0 s').
Proof.
  intros lo. revert F s cur. induction fuel as [|fuel IH]; intros F s cur Hv Hg Ho Hmax Hlo Hal Habs Hf; [plia|].
  assert (lo = (oldsz + 4095) / 4096 * 4096) as Elo by (apply pgroundup; plia).
  cbn [allocuvm_loop]. destruct (Z.ltb_spec cur newsz) as [Hlt|Hge].
  2:{ exists newsz, s, F. split_and!; [done|done|]. left. split; [done|]. eapply grown_ext; [|exact Hg].
      intros n. rw /pages. plia. }
  assert (uaddr cur) as Hu by (rw /uaddr; lia).
  assert (has PTE_P (pt s a cur) = false) as Hab.
  { rw (gr_out _ _ _ _ _ _ _ _ Hg) //; [rw /pages; plia|]. apply Habs; [done|]. rw /pages. plia. }
  assert (∀ n, pages lo cur n → pages oldsz newsz n) as HPQ by (intros n; rw /pages; plia).
  destruct (kalloc_ok kend F s (vs_k _ _ _ _ _ Hv)) as (s1 & Hr1 & Hk1 & Em1 & ? & ? & ?). assert (same s s1) as Hs1 by by split.
  erewrite run_bind; [|exact Hr1]. destruct F as [|q F]; cbn [hd tl] in *.
  { destruct (alloc_undo uw zeros uw_range F0 s0 a oldsz newsz _ _ HPQ Habs ltac:(lia) Hmax X s1) as (s' & F' & Hr & Hv' & Hre).
    - destruct Hv as [_ Ht]. rw -Em1 in Ht. by split.
    - by eapply grown_eq.
    - exists 0, s', F'. split_and!; [exact Hr|done|]. right. split_and!; [done|lia|done]. }
  pose proof (vs_k _ _ _ _ _ Hv) as Hk. pose proof (kr_pages _ _ _ Hk) as Hp. apply list.Forall_cons in Hp as [Hq _].
  destruct (Z.eqb_spec q 0) as [E0|_]; [pose proof (kpage_pos _ _ Hq); lia|].
  erewrite (run_bind (memset_page q 0)); [|exact (memset_zero kend F s1 q Hk1 Hq)].
  destruct (map_new uw zeros uw_range F a X q s s1 cur Hv Hk1 Em1 Hs1) as (r & s' & F' & Hr & Hor); [apply page_zero|done|done|done|].
  erewrite run_bind; [|exact Hr]. destruct Hor as [(-> & Hv' & Hg')|(-> & -> & Hv' & Hg')]; cbn [Z.ltb Z.compare].
  - rw u64_small; [plia|]. apply (IH F'); [done| |done|done|plia|plia|done|plia].
    eapply grown_ext; [|exact (grown_trans uw zeros uw_range _ _ _ _ _ _ _ _ _ _ _ _ Hv Hg Hg')]. intros n. rw /pages. plia.
  - assert (grown uw zeros F0 a (pages lo cur) [q] s0 s') as Hg2.
    { eapply grown_ext; [|exact (grown_trans uw zeros uw_range _ _ _ _ _ _ _ _ _ _ _ _ Hv Hg Hg')]. tauto. }
    destruct (alloc_undo_page uw zeros uw_range F0 s0 a oldsz newsz _ _ HPQ Habs ltac:(lia) Hmax X q s' Hv' Hq Hg2) as (s2 & F2 & Hr2 & Hv2 & Hre).
    exists 0, s2, F2. split_and!; [exact Hr2|done|]. right. split_and!; [done|lia|done].
Qed.

Lemma alloc_run F a X s oldsz newsz :
  vspace kend F a X s → 0 ≤ oldsz ≤ newsz → newsz ≤ 2 ^ 47 →
  (∀ va, uaddr va → pages oldsz newsz (va / PGSIZE) → has PTE_P (pt s a va) = false) →
  ∃ r s' F', allocuvm kend a oldsz newsz s = Ret r s' ∧ vspace kend F' a X s' ∧
    (r = newsz ∧ grown uw zeros F a (pages oldsz newsz) F' s s' ∨
     r = 0 ∧ oldsz < newsz ∧ restored F a (pages oldsz newsz) F' s s').
Proof.
  intros Hv Ho Hmax Habs. rw /allocuvm !Z.geb_leb. destruct (Z.leb_spec KERNBASE newsz); [plia|]. destruct (Z.ltb_spec newsz oldsz); [lia|].
  assert (PGROUNDUP oldsz = (oldsz + 4095) / 4096 * 4096) as Elo by (apply pgroundup; plia).
  apply (alloc_loop_ok _ F s F s a X oldsz newsz (PGROUNDUP oldsz) Hv);
    [apply grown_refl; rw /pages; plia|plia|lia|plia|plia|done|rw /npages; plia].
Qed.

(** Shrinking a process returns [newsz] and frees exactly the pages between the
    rounded new size and the old size: each page goes to the free list once,
    with its entry cleared, every other entry, every table and every page that
    is not freed is as before, and a size that is not smaller changes nothing. *)
Theorem deallocuvm_correct F a X s oldsz newsz :
  vspace kend F a X s → 0 ≤ newsz → oldsz ≤ 2 ^ 47 →
  (oldsz ≤ newsz → deallocuvm kend a oldsz newsz s = Ret oldsz s) ∧
  (newsz < oldsz → total (deallocuvm kend a oldsz newsz) s (λ r s', r = newsz ∧
    ∃ F', vspace kend F' a X s' ∧ unmapped F a (pages newsz oldsz) F' s s')).
Proof.
  intros Hv Hn Ho. split.
  - intros Hle. rw /deallocuvm Z.geb_leb. by destruct (Z.leb_spec oldsz newsz); [|lia].
  - intros Hlt. destruct (dealloc_ok F a X s oldsz newsz Hv) as (s' & F' & Hr & ? & ?); [lia|done|]. exists newsz, s'. eauto.
Qed.

(** Growing a process maps a zeroed page of its own, from the free list and
    writable by the user, at every new page address, and keeps every page and
    entry the process had; when the pages run out it returns 0 with every new
    page unmapped and back on the free list (tables it needed on the way stay
    part of the tree); sizes that are no growth or reach the kernel are
    refused without effect. *)
Theorem allocuvm_correct F a X s oldsz newsz :
  vspace kend F a X s → 0 ≤ oldsz →
  (∀ va, uaddr va → pages oldsz newsz (va / PGSIZE) → has PTE_P (pt s a va) = false) →
  (KERNBASE ≤ newsz → allocuvm kend a oldsz newsz s = Ret 0 s) ∧
  (newsz < KERNBASE → newsz < oldsz → allocuvm kend a oldsz newsz s = Ret oldsz s) ∧
  (oldsz ≤ newsz ≤ 2 ^ 47 → total (allocuvm kend a oldsz newsz) s (λ r s', ∃ F', vspace kend F' a X s' ∧
    (r = newsz ∧ grown uw zeros F a (pages oldsz newsz) F' s s' ∨
     r = 0 ∧ oldsz < newsz ∧ restored F a (pages oldsz newsz) F' s s'))).
Proof.
  intros Hv Ho Habs. split_and!.
  - intros Hk. rw /allocuvm Z.geb_leb. by destruct (Z.leb_spec KERNBASE newsz); [|lia].
  - intros Hk Hlt. rw /allocuvm Z.geb_leb. destruct (Z.leb_spec KERNBASE newsz); [lia|]. by destruct (Z.ltb_spec newsz oldsz); [|lia].
  - intros Hle. destruct (alloc_run F a X s oldsz newsz Hv) as (r & s' & F' & Hr & Hv' & Hor); [lia|lia|done|].
    exists r, s'. eauto.
Qed.
End size.
