(* ===== verification/VmCopy.v ===== *)
(** * Giving an address space back and copying one: freevm and copyuvm *)

From S2P Require Import Prelude Kernel Kalloc Vm VmTree VmSpace VmOps VmSize.

#[local] Opaque leaves walk pte junk zpage.

Section copy.
Context (kend : Z).
Implicit Types (F X : list Z) (s : kst) (a va : Z).

(** ** [freevm] *)

(** All pages in [l] are free now, and nothing else has changed. *)
Record freed (l : list Z) F F' s s' : Prop := {
  fd_k : krepr kend F' s';
  fd_same : same s s';
  fd_perm : F' ≡ₚ l ++ F;
  fd_frame p : p ∉ l → k_mem s' !! p = k_mem s !! p;
}.

Lemma tree_drop l m a F X : tree kend l m a (F ++ X) → tree kend l m a F.
Proof. intros [Hn Hp]. split; [|done]. rw app_assoc in Hn. by apply list.NoDup_app in Hn as [? _]. Qed.

(** [sub] frees a tree of level [l]. *)
Definition frees (l : nat) (sub : Z → M kst unit) : Prop :=
  ∀ F s c, krepr kend F s → tree kend l (k_mem s) c F →
    ∃ s' F', sub c s = Ret tt s' ∧ freed (foot true l (k_mem s) c) F F' s s'.

Lemma freed_trans l l' F F1 F2 s s1 s2 : freed l F F1 s s1 → freed l' F1 F2 s1 s2 → freed (l ++ l') F F2 s s2.
Proof.
  intros [H1 H2 H3 H4] [K1 K2 K3 K4]. split; [done|by eapply same_trans|rw K3 H3; solve_Permutation|].
  intros p [Hp Hp']%not_elem_of_app. by rw K4 // H4.
Qed.

Lemma frees_page : frees 0 (kfree kend).
Proof.
  intros F s c Hk [Hn Hp]. simpl in *. apply list.NoDup_cons in Hn as [HcF _]. apply list.Forall_cons in Hp as [Hc _].
  destruct (kfree_ok kend F s c Hk Hc HcF) as (s' & Hr & Hk' & Em & ? & ? & ?). exists s', (c :: F). split; [done|].
  split; [done|by split|done|]. intros p Hp. rw Em lookup_insert_ne //. set_solver.
Qed.

(** The body of the loop over the entries of a table. *)
Definition free_entry (t : Z) (sub : Z → M kst unit) (i : Z) : M kst unit :=
  v ← rd64 (t + 8 * i); when (has PTE_P v) (sub (P2V (PTE_ADDR v))).

Lemma free_entry_ok l sub F s t i :
  frees l sub → krepr kend F s → kpage kend t → 0 ≤ i < 512 →
  NoDup (kid true l (k_mem s) t i ++ F) → Forall (kpage kend) (kid true l (k_mem s) t i) →
  ∃ s' F', free_entry t sub i s = Ret tt s' ∧ freed (kid true l (k_mem s) t i) F F' s s'.
Proof.
  intros Hsub Hk Ht Hi Hn Hp. rw /free_entry. erewrite run_bind; [|by apply (rd_entry kend F)].
  rw /kid in Hn, Hp |- *. destruct (has PTE_P _); cbn [when].
  - by apply Hsub; [|split].
  - exists s, F. done.
Qed.

Lemma free_loop_ok l sub n lo F s t :
  let ks lo n := concat (kid true l (k_mem s) t <$> seqZ lo (Z.of_nat n)) in
  frees l sub → krepr kend F s → kpage kend t → 0 ≤ lo → lo + Z.of_nat n ≤ 512 →
  NoDup (t :: ks lo n ++ F) → Forall (kpage kend) (ks lo n) →
  ∃ s' F', for_up n lo (free_entry t sub) s = Ret tt s' ∧ freed (ks lo n) F F' s s'.
Proof.
  cbv zeta. intros Hsub. revert lo F s. induction n as [|n IH]; intros lo F s Hk Ht Hlo Hhi Hn Hp.
  { exists s, F. split; [done|]. by split. }
  assert (seqZ lo (Z.of_nat (S n)) = lo :: seqZ (lo + 1) (Z.of_nat n)) as Es by (rw seqZ_cons; [lia|]; f_equal; f_equal; lia).
  rw Es fmap_cons in Hn, Hp |- *. cbn [concat] in *. set (k := kid true l (k_mem s) t lo) in *. set (ks := concat _) in *.
  apply Forall_app in Hp as [Hp1 Hp2]. apply list.NoDup_cons in Hn as [Htn Hn]. rw -app_assoc in Hn.
  destruct (free_entry_ok l sub F s t lo) as (s1 & F1 & Hr & Hf1); [done|done|done|lia| |done|].
  { rw (Permutation_app_comm ks F) app_assoc in Hn. by apply list.NoDup_app in Hn as [? _]. }
  fold k in Hf1. cbn [for_up]. erewrite run_bind; [|exact Hr]. destruct Hf1 as [H1 H2 H3 H4].
  assert (∀ p, p ∈ t :: ks → k_mem s1 !! p = k_mem s !! p) as Hfr.
  { intros p Hp. apply H4. intros Hk'. apply elem_of_cons in Hp as [->|Hp]; [apply Htn; rw !elem_of_app; auto|].
    apply list.NoDup_app in Hn as (_ & Hd & _). apply (Hd p Hk'), elem_of_app. by left. }
  assert (concat (kid true l (k_mem s1) t <$> seqZ (lo + 1) (Z.of_nat n)) = ks) as Eks.
  { apply concat_ext. intros j Hj. assert (entry (k_mem s1) t j = entry (k_mem s) t j) as Ee.
    { rw /entry. f_equal. apply lookup_total_eq, Hfr. by left. }
    rw /kid Ee. destruct (has PTE_P _) eqn:E; [|done]. apply foot_frame. intros p Hp%tabs_foot. apply lookup_total_eq, Hfr. right.
    rw /ks elem_of_concat_map. exists j. split; [done|]. by rw /kid E. }
  destruct (IH (lo + 1) F1 s1) as (s2 & F2 & Hr2 & Hf2); [done|done|lia|lia| |by rw Eks|].
  - rw Eks H3. apply list.NoDup_cons. split; [intros ?; apply Htn; rw !elem_of_app; rw !elem_of_app in H; tauto|].
    assert (ks ++ k ++ F ≡ₚ k ++ ks ++ F) as -> by solve_Permutation. done.
  - rw Eks in Hf2. exists s2, F2. split; [done|]. by apply (freed_trans k ks F F1 F2 s s1 s2).
Qed.

Lemma frees_table l sub : frees l sub → frees (S l) (λ t, free_table kend (lim (S l)) t sub).
Proof.
  intros Hsub F s t Hk Ht. pose proof (tree_self _ _ _ _ _ Ht) as Hkt. pose proof (lim_range (S l)) as Hl.
  destruct Ht as [Hn Hp]. rw foot_S in Hn, Hp |- *. apply list.Forall_cons in Hp as [_ Hp].
  destruct (free_loop_ok l sub (Z.to_nat (lim (S l))) 0 F s t) as (s1 & F1 & Hr & Hf); [done|done|done|lia|lia|by rw Z2Nat.id; [lia|]..|].
  rw Z2Nat.id in Hf; [lia|]. set (ks := concat _) in *. pose proof Hf as [H1 H2 H3 H4].
  apply list.NoDup_cons in Hn as [Htn _].
  destruct (kfree_ok kend F1 s1 t H1 Hkt) as (s2 & Hr2 & Hk2 & Em & ? & ? & ?); [by rw H3|].
  exists s2, (t :: F1). split; [rw /free_table; by erewrite run_bind|].
  assert (t :: ks ≡ₚ ks ++ [t]) as E by (by rw -Permutation_cons_append).
  destruct (freed_trans ks [t] F F1 (t :: F1) s s1 s2 Hf) as [K1 K2 K3 K4].
  { split; [done|by split|done|]. intros p Hp'. rw Em lookup_insert_ne //. intros ->. apply Hp'. by left. }
  split; [done|done|by rw E|]. intros p. rw E. apply K4.
Qed.

Lemma frees_vm a : a ≠ 0 → ∀ F s, krepr kend F s → tree kend 4 (k_mem s) a F →
  ∃ s' F', freevm kend a s = Ret tt s' ∧ freed (foot true 4 (k_mem s) a) F F' s s'.
Proof.
  intros Ha F s. rw /freevm. destruct (Z.eqb_spec a 0); [done|].
  exact (frees_table 3 (free_pdp kend) (frees_table 2 (free_pd kend) (frees_table 1 (free_pt kend) (frees_table 0 (kfree kend) frees_page))) F s a).
Qed.

(** C17: giving up an address space frees its tables and its pages, each once, and
    touches nothing else; a null page table panics. *)
Theorem freevm_correct F a X s :
  vspace kend F a X s →
  total (freevm kend a) s (λ _ s', ∃ F', freed (foot true 4 (k_mem s) a) F F' s s') ∧
  freevm kend 0 s = Panic "freevm: no pgdir" s.
Proof.
  intros [Hk Ht]. split; [|done]. pose proof (kpage_pos _ _ (tree_self _ _ _ _ _ Ht)).
  destruct (frees_vm a ltac:(lia) F s Hk) as (s' & F' & ? & ?); [|exists tt, s'; eauto].
  by eapply tree_drop.
Qed.

(** ** [setupkvm] *)

(** A table that is empty below its entry [i] has no tree. *)
Lemma kernel_root m d i v :
  kpage kend d → m !!! d = store64 (8 * i) v zpage → 256 ≤ i < 512 →
  foot true 4 m d = [d] ∧ ∀ va, uaddr va → pte 4 m d va = 0.
Proof.
  intros Hd E Hi. assert (∀ j, 0 ≤ j < 256 → entry m d j = 0) as Ej.
  { intros j Hj. destruct page_zpage as [Hl _]. rw /entry E load_store_ne; [lia|lia|rw Hl /PGSIZE; lia|lia|]. apply load_zpage. lia. }
  split.
  - rw foot_S (concat_ext _ (λ _, [])); [|by rw concat_nils].
    intros j Hj%elem_of_seqZ. change (lim 4) with 256 in Hj. rw /kid Ej //; lia.
  - intros va Hu. pose proof (idx_lim 4 va ltac:(lia) Hu) as Hi4. rw pte_SS. cbv zeta. rw Ej //.
Qed.

Lemma setupkvm_ok F d X s :
  krepr kend (d :: F) s → NoDup ((d :: F) ++ X) →
  ∃ s', setupkvm s = Ret d s' ∧ vspace kend F d X s' ∧ same s s' ∧ foot true 4 (k_mem s') d = [d] ∧
    (∀ va, uaddr va → pt s' d va = 0) ∧ ∀ p, p ≠ d → k_mem s' !! p = k_mem s !! p.
Proof.
  intros Hk Hn. rw /setupkvm. destruct (kalloc_ok kend _ s Hk) as (s1 & Hr1 & Hk1 & Em1 & ? & ? & ?). cbn [hd tl] in *.
  pose proof (kr_pages _ _ _ Hk) as Hp. apply list.Forall_cons in Hp as [Hd _]. pose proof (kr_nodup _ _ _ Hk) as Hn'.
  apply list.NoDup_cons in Hn' as [HdF _].
  erewrite run_bind; [|exact Hr1]. erewrite run_bind; [|exact (memset_zero kend F s1 d Hk1 Hd)]. set (s2 := set_mem _ s1).
  assert (krepr kend F s2) as Hk2 by (apply krepr_put; [done|done|apply page_zpage]).
  rw run_gets. set (v := Z.lor _ PTE_W). erewrite run_bind; [|apply (wr_entry kend F); [done|done|lia]].
  assert (k_mem s2 !!! d = zpage) as -> by apply lookup_total_insert_eq.
  set (s3 := set_mem _ s2). exists s3. assert (k_mem s3 !!! d = store64 (8 * 256) v zpage) as E3 by apply lookup_total_insert_eq.
  destruct (kernel_root (k_mem s3) d 256 v Hd E3) as [Hf Hpt]; [lia|]. split_and!; [done| |by split|done|exact Hpt|].
  - split; [apply krepr_put; [done|done|apply page_store; [apply page_zpage|lia]]|]. split; rw Hf; [done|by apply list.Forall_singleton].
  - intros q Hq. by rw /s3 /s2 /= !lookup_insert_ne // Em1.
Qed.

(** ** [copyuvm] *)

#[local] Opaque foot.

(** What the copy of page [n] of the address space [a] is to be. *)
Definition perm_of s a (n : Z) : Z := PTE_FLAGS (pt s a (n * PGSIZE)).
Definition cont_of s a (n : Z) : list Z := k_mem s !!! child (pt s a (n * PGSIZE)).

Lemma perm_of_range s a n : 0 ≤ perm_of s a n < PGSIZE.
Proof. rw /perm_of /PTE_FLAGS (Z.land_ones _ 12); [lia|]. by apply Z.mod_pos_bound. Qed.

Section loop.
Context (a : Z) (X : list Z) (s0 : kst) (d : Z) (F1 : list Z) (s1 : kst) (sz : Z).
Abbreviation A := (foot true 4 (k_mem s0) a).
Context (Ht0 : tree kend 4 (k_mem s0) a []) (Hsz : 0 ≤ sz < 2 ^ 32).
Context (Hv1 : vspace kend F1 d (A ++ X) s1) (Hf1 : foot true 4 (k_mem s1) d = [d]).
Context (Hsrc : ∀ p, p ∈ A → k_mem s1 !! p = k_mem s0 !! p ∧ page (k_mem s0 !!! p)) (Hnew : ∀ va, uaddr va → pt s1 d va = 0).
Context (Hpres : ∀ n, pages PGSIZE sz n → has PTE_P (pt s0 a (n * PGSIZE)) = true).
Abbreviation copied := (grown kend (perm_of s0 a) (cont_of s0 a) F1 d).

(** The source is not touched. *)
Lemma copy_source P F s p : copied P F s1 s → p ∈ A → k_mem s !! p = k_mem s0 !! p.
Proof.
  intros Hg Hp. destruct Hv1 as [_ [Hn _]]. rw Hf1 in Hn. apply list.NoDup_app in Hn as (_ & Hd & Hn).
  apply list.NoDup_app in Hn as (_ & Hd' & _). destruct (Hsrc p Hp) as [<- _]. apply (gr_frame _ _ _ _ _ _ _ _ _ Hg).
  - intros Ht%tabs_foot. rw Hf1 in Ht. apply (Hd p Ht). rw !elem_of_app. auto.
  - intros HF. apply (Hd' p HF). rw elem_of_app. auto.
Qed.

Lemma copy_foot P F s b : copied P F s1 s → foot b 4 (k_mem s) a = foot b 4 (k_mem s0) a.
Proof. intros Hg. apply foot_frame. intros p Hp%tabs_foot. apply lookup_total_eq. by eapply copy_source. Qed.

Lemma copy_tree P F s : copied P F s1 s → vspace kend F d (A ++ X) s →
  vspace kend F a [] s ∧ (∀ va, uaddr va → pt s a va = pt s0 a va).
Proof.
  intros Hg [Hk [Hn _]]. assert (∀ p, p ∈ tabs 4 (k_mem s0) a → k_mem s !!! p = k_mem s0 !!! p) as Hfr.
  { intros p Hp%tabs_foot. apply lookup_total_eq. by eapply copy_source. }
  split.
  - split; [done|]. split; rw (copy_foot P F s true Hg); [|apply Ht0]. rw app_nil_r.
    apply list.NoDup_app in Hn as (_ & _ & Hn). rw app_assoc (Permutation_app_comm F) in Hn. by apply list.NoDup_app in Hn as [? _].
  - intros va Hu. eapply pte_frame; [|done|exact Ht0|done]. lia.
Qed.

(** The page of the source at [va]. *)
Lemma copy_read P F s va : copied P F s1 s → vspace kend F d (A ++ X) s → uaddr va → va mod PGSIZE = 0 → pages PGSIZE sz (va / PGSIZE) →
  let v := pt s0 a va in
  ∃ e, walkpgdir a va false s = Ret e s ∧ e ≠ 0 ∧ rd64 e s = Ret v s ∧ has PTE_P v = true ∧
    k_mem s !! child v = Some (cont_of s0 a (va / PGSIZE)) ∧ page (cont_of s0 a (va / PGSIZE)) ∧ PTE_FLAGS v = perm_of s0 a (va / PGSIZE).
Proof.
  intros Hg Hv Hu Hal HP v. destruct (copy_tree P F s Hg Hv) as [Hva Ept]. pose proof (Hpres _ HP) as Hpr.
  assert (va / PGSIZE * PGSIZE = va) as Eva by plia. rw Eva in Hpr. fold v in Hpr.
  rw (walk_get kend F a []) //. destruct (walk 4 (k_mem s) a va) as [e|] eqn:Hw.
  2:{ apply pt_none in Hw. rw Ept // in Hw. fold v in Hw. by rw Hw in Hpr. }
  destruct (pte_access kend F a [] s va e Hva Hu Hw) as (He & Hrd & _). rw Ept // in Hrd. exists e.
  destruct (present_leaf kend F a [] s va Hva Hu) as (Hkq & _ & _ & _ & Hin); [by rw Ept|]. rw Ept // in Hkq, Hin. fold v in Hkq, Hin, Hrd.
  assert (child v ∈ A) as HA.
  { by rw -(copy_foot P F s true Hg). }
  assert (cont_of s0 a (va / PGSIZE) = k_mem s0 !!! child v) as Ec by by rw /cont_of Eva.
  split_and!; [done|done|done|done| |rw Ec; by apply Hsrc|by rw /perm_of Eva].
  destruct (kr_lookup kend F s (child v) (vs_k _ _ _ _ _ Hva) Hkq) as [Hl _]. rw Hl. f_equal. rw Ec.
  apply lookup_total_eq. by eapply copy_source.
Qed.

(** The copy is given up; at most [leak] is lost. *)
Record copy_failed (leak F : list Z) s : Prop := {
  cf_k : krepr kend F s;
  cf_same : same s1 s;
  cf_perm : leak ++ F ≡ₚ d :: F1;
  cf_frame p : p ∉ d :: F1 → k_mem s !! p = k_mem s1 !! p;
}.

Lemma copy_undo P Y leak F s s' :
  copied P (leak ++ F) s1 s → same s s' → k_mem s' = k_mem s → krepr kend F s' → tree kend 4 (k_mem s) d (F ++ Y) →
  ∃ s2 F2, (freevm kend d;; mret 0) s' = Ret 0 s2 ∧ copy_failed leak F2 s2.
Proof.
  intros Hg Hs Em Hk Ht. pose proof (kpage_pos _ _ (tree_self _ _ _ _ _ Ht)) as Hd.
  destruct (frees_vm d ltac:(lia) F s' Hk) as (s2 & F2 & Hr & [D1 D2 D3 D4]); [rw Em; by eapply tree_drop|].
  destruct Hg as [G1 _ _ G4 G5 _ _]. rw Hf1 in G4. rw Em in D3, D4.
  exists s2, F2. split; [by erewrite run_bind|]. split; [done| | |].
  - by eapply same_trans; [|eapply same_trans].
  - rw D3. transitivity (foot true 4 (k_mem s) d ++ leak ++ F); [solve_Permutation|]. by rw G4.
  - intros p Hp. rw D4.
    + intros Hf. apply Hp. assert (p ∈ [d] ++ F1) as Hin; [|done]. rw -G4 elem_of_app. by left.
    + apply G5; [|intros ?; apply Hp; by right]. intros Hf%tabs_foot. rw Hf1 in Hf. apply Hp. apply list_elem_of_singleton in Hf as ->. by left.
Qed.

Lemma copy_loop_ok fuel F s cur :
  vspace kend F d (A ++ X) s → copied (pages PGSIZE cur) F s1 s →
  PGSIZE ≤ cur → cur = PGSIZE ∨ cur < sz + PGSIZE → cur mod PGSIZE = 0 → Z.max 0 ((sz - cur) / PGSIZE + 1) < Z.of_nat fuel →
  ∃ r s' F', copyuvm_loop kend fuel a d cur sz s = Ret r s' ∧
    (r = d ∧ vspace kend F' d (A ++ X) s' ∧ copied (pages PGSIZE sz) F' s1 s' ∨
     r = 0 ∧ ∃ leak, (length leak ≤ 1)%nat ∧ copy_failed leak F' s').
Proof.
  revert F s cur. induction fuel as [|fuel IH]; intros F s cur Hv Hg Hlo Hhi Hal Hf; [plia|].
  cbn [copyuvm_loop]. destruct (Z.ltb_spec cur sz) as [Hlt|Hge].
  2:{ exists d, s, F. split; [done|]. left. split_and!; [done|done|]. eapply grown_ext; [|exact Hg]. intros n. rw /pages. plia. }
  assert (uaddr cur) as Hu by (rw /uaddr; plia). set (n := cur / PGSIZE).
  destruct (copy_read _ F s cur Hg Hv Hu Hal) as (e & Hw & He & Hrd & Hpr & Hld & Hpg & Hfl); [rw /pages; plia|]. fold n in Hld, Hpg, Hfl.
  erewrite run_bind; [|exact Hw]. destruct (Z.eqb_spec e 0); [done|]. erewrite run_bind; [|exact Hrd]. rw Hpr. cbn [negb].
  destruct (kalloc_ok kend F s (vs_k _ _ _ _ _ Hv)) as (s2 & Hr2 & Hk2 & Em2 & ? & ? & ?). assert (same s s2) as Hs2 by by split.
  erewrite run_bind; [|exact Hr2]. destruct F as [|q F]; cbn [hd tl] in *.
  { destruct (copy_undo _ (A ++ X) [] [] s s2 Hg Hs2 Em2 Hk2 (vs_tree _ _ _ _ _ Hv)) as (s3 & F3 & Hr3 & Hc).
    exists 0, s3, F3. split; [exact Hr3|]. right. split; [done|]. exists []. split; [simpl; lia|done]. }
  pose proof (vs_k _ _ _ _ _ Hv) as Hk. pose proof (kr_pages _ _ _ Hk) as Hp. apply list.Forall_cons in Hp as [Hq _].
  destruct (Z.eqb_spec q 0) as [E0|_]; [pose proof (kpage_pos _ _ Hq); lia|].
  erewrite run_bind; [|rw /getpage Em2; fold (child (pt s0 a cur)); rw Hld; reflexivity].
  erewrite run_bind; [|rw /putpage; destruct (kr_lookup _ _ _ q Hk2 Hq) as [-> _]; reflexivity].
  rw Hfl. assert (has PTE_P (pt s d cur) = false) as Hab.
  { rw (gr_out _ _ _ _ _ _ _ _ _ Hg) //; [rw /pages; plia|]. by rw Hnew. }
  destruct (map_new kend _ _ (perm_of_range s0 a) F d (A ++ X) q s s2 cur Hv Hk2 Em2 Hs2 Hpg Hu Hal Hab) as (r & s' & F' & Hr & Hor).
  erewrite run_bind; [|exact Hr]. destruct Hor as [(-> & Hv' & Hg')|(-> & -> & Hv' & Hg')]; cbn [Z.ltb Z.compare];
    pose proof (grown_trans kend _ _ (perm_of_range s0 a) _ _ _ _ _ _ _ _ _ _ _ _ Hv Hg Hg') as Hg2.
  - rw u64_small; [plia|]. apply (IH F'); [done| |plia|plia|plia|plia].
    eapply grown_ext; [|exact Hg2]. intros i. rw /pages. plia.
  - destruct Hv' as [Hk' Ht']. destruct (copy_undo _ (q :: A ++ X) [q] [] s' s' Hg2 (same_refl _) eq_refl Hk' Ht') as (s3 & F3 & Hr3 & Hc).
    exists 0, s3, F3. split; [exact Hr3|]. right. split; [done|]. exists [q]. done.
Qed.
End loop.

(** With a page for the root of the new table. *)
Lemma copyuvm_run F d a X s sz :
  vspace kend (d :: F) a X s → 0 ≤ sz < 2 ^ 32 →
  (∀ n, pages PGSIZE sz n → has PTE_P (pt s a (n * PGSIZE)) = true) →
  total (copyuvm kend a sz) s (λ r s', same s s' ∧ (∀ p, p ∉ d :: F → k_mem s' !! p = k_mem s !! p) ∧ ∃ F',
    (r = d ∧ vspace kend F' d (foot true 4 (k_mem s) a ++ X) s' ∧ foot true 4 (k_mem s') d ++ F' ≡ₚ d :: F ∧
     (∀ va, uaddr va → pages PGSIZE sz (va / PGSIZE) → ∃ q, q ∈ F ∧
       pt s' d va = page_pte q (PTE_FLAGS (pt s a va)) ∧ k_mem s' !! q = k_mem s !! child (pt s a va)) ∧
     (∀ va, uaddr va → ¬ pages PGSIZE sz (va / PGSIZE) → pt s' d va = 0)) ∨
    (r = 0 ∧ krepr kend F' s' ∧ ∃ leak, (length leak ≤ 1)%nat ∧ leak ++ F' ≡ₚ d :: F)).
Proof.
  intros Hv Hsz Hpres. pose proof Hv as [Hk Ht]. pose proof (kr_pages _ _ _ Hk) as Hp. apply list.Forall_cons in Hp as [Hd _].
  assert (NoDup ((d :: F) ++ foot true 4 (k_mem s) a ++ X)) as Hn.
  { pose proof (tr_nodup _ _ _ _ _ Ht) as Hn. eapply NoDup_Permutation_proper; [|exact Hn]. solve_Permutation. }
  destruct (setupkvm_ok F d _ s Hk Hn) as (s1 & Hr1 & Hv1 & Hs1 & Hf1 & Hnew & Hfr1).
  assert (∀ p, p ∈ foot true 4 (k_mem s) a → k_mem s1 !! p = k_mem s !! p ∧ page (k_mem s !!! p)) as Hsrc.
  { intros p Hp. split; [apply Hfr1; intros ->; by eapply table_notin; [exact Ht|exact Hp|left]|].
    apply (kr_lookup kend (d :: F) s p Hk). eapply list.Forall_forall; [apply Ht|done]. }
  assert (tree kend 4 (k_mem s) a []) as Ht0 by (by apply (tree_drop 4 (k_mem s) a [] ((d :: F) ++ X))).
  destruct (copy_loop_ok a X s d F s1 sz Ht0 Hsz Hv1 Hf1 Hsrc Hnew Hpres (npages PGSIZE sz) F s1 PGSIZE Hv1) as (r & s' & F' & Hr & Hor);
    [apply grown_refl; rw /pages; plia|lia|by left|done|rw /npages; lia|].
  exists r, s'. split.
  { rw /copyuvm u32_small //. erewrite run_bind; [|exact Hr1]. pose proof (kpage_pos _ _ Hd). by destruct (Z.eqb_spec d 0); [lia|]. }
  assert (∀ p, p ∉ d :: F → k_mem s1 !! p = k_mem s !! p) as Hfd by (intros p Hp; apply Hfr1; intros ->; apply Hp; by left).
  destruct Hor as [(-> & Hv' & [G1 G2 G3 G4 G5 G6 G7])|(-> & leak & Hl & [C1 C2 C3 C4])].
  - rw Hf1 in G4. split; [by eapply same_trans|]. split.
    { intros p Hp. rw G5; [intros Ht'%tabs_foot; rw Hf1 in Ht'; apply list_elem_of_singleton in Ht' as ->; apply Hp; by left|intros ?; apply Hp; by right|by apply Hfd]. }
    exists F'. left. split_and!; [done|done|done| |].
    + intros va Hu HP. destruct (G2 va Hu HP) as (q & Hq & _ & Hpt & Hm). exists q. split; [done|].
      assert (pt s a (va / PGSIZE * PGSIZE) = pt s a va) as Epg by (eapply pt_page; [exact Hv|done|rw /uaddr in Hu |- *; plia|plia]).
      rw /perm_of Epg in Hpt. rw /cont_of Epg in Hm. split; [done|]. rw Hm.
      destruct (present_leaf kend _ a X s va Hv Hu) as (Hkq & _); [rw -Epg; by apply Hpres|].
      by destruct (kr_lookup _ _ _ _ Hk Hkq) as [-> _].
    + intros va Hu HP. rw G3 //. by apply Hnew.
  - split; [by eapply same_trans|]. split; [intros p Hp; rw C4 //; by apply Hfd|]. exists F'. right. eauto.
Qed.

(** [setupkvm] does not test what [kalloc] gives it. *)
Lemma copyuvm_null a s sz : krepr kend [] s → k_mem s !! 0 = None → ∃ s', copyuvm kend a sz s = Fault s'.
Proof.
  intros Hk H0. destruct (kalloc_ok kend _ s Hk) as (s1 & Hr1 & _ & Em1 & _). exists s1.
  rw /copyuvm /setupkvm run_assoc. erewrite run_bind; [|exact Hr1]. cbn [hd].
  by rw /mbind /M_bind /memset_page /putpage Em1 H0.
Qed.

(** C2: when there is a free page, copying an address space of less than 4 GB whose
    pages are present up to its size gives a new one in which every page has the
    permissions and a copy of the contents of the original, made of pages that
    were free, and leaves the original; or, when the memory runs out, it returns 0
    with every page it took free again but at most one.  When there is no free
    page at all, it writes through a null pointer. *)
Theorem copyuvm_correct F0 a X s sz :
  vspace kend F0 a X s → 0 ≤ sz < 2 ^ 32 →
  (∀ n, pages PGSIZE sz n → has PTE_P (pt s a (n * PGSIZE)) = true) →
  match F0 with
  | [] => k_mem s !! 0 = None → ∃ s', copyuvm kend a sz s = Fault s'
  | d :: F =>
    total (copyuvm kend a sz) s (λ r s', same s s' ∧ (∀ p, p ∉ d :: F → k_mem s' !! p = k_mem s !! p) ∧ ∃ F',
      (r = d ∧ vspace kend F' d (foot true 4 (k_mem s) a ++ X) s' ∧ foot true 4 (k_mem s') d ++ F' ≡ₚ d :: F ∧
       (∀ va, uaddr va → pages PGSIZE sz (va / PGSIZE) → ∃ q, q ∈ F ∧
         pt s' d va = page_pte q (PTE_FLAGS (pt s a va)) ∧ k_mem s' !! q = k_mem s !! child (pt s a va)) ∧
       (∀ va, uaddr va → ¬ pages PGSIZE sz (va / PGSIZE) → pt s' d va = 0)) ∨
      (r = 0 ∧ krepr kend F' s' ∧ ∃ leak, (length leak ≤ 1)%nat ∧ leak ++ F' ≡ₚ d :: F))
  end.
Proof. intros Hv Hsz Hp. destruct F0 as [|d F]; [apply copyuvm_null, Hv|by apply copyuvm_run]. Qed.
End copy.
