(* ===== verification/Bio.v ===== *)
(** * The block device and the buffer cache (memide.c, bio.c)

    [bst] is the state of the cache: the shared [core], the array
    [bcache.buf] with the list head [bcache.head] as its last element (so that
    a [struct buf *] is an index), and the disk.  The [prev]/[next] pointers
    are fields of the buffers, as in the source; the list they form is an
    abstraction the invariant recovers.

    The disk driver is memide.c's, which the kernel links instead of ide.c
    when the image is in memory; Ide.v models the queueing driver of ide.c. *)

From S2P Require Import Prelude Layout Kernel.

Definition B_VALID : Z := 0x2.
Definition B_DIRTY : Z := 0x4.

Record buf := mkBuf {
  b_flags : Z;
  b_dev : Z;
  b_blockno : Z;
  b_lock : sleeplock;
  b_refcnt : Z;
  b_prev : nat;
  b_next : nat;
  b_data : list Z;
}.

Definition buf0 : buf := mkBuf 0 0 0 sleeplock0 0 0 0 (replicate 512 0).
#[global] Instance buf_inhabited : Inhabited buf := populate buf0.

(** [memdisk] cut into blocks, and the writes it received, oldest first: the
    history gives the disk a power failure leaves behind (Log.v). *)
Record disk := mkDisk {
  disksize : Z;
  memdisk : gmap Z (list Z);
  d_writes : list (Z * list Z);
}.

Record bst := mkBst { bs_core : core; bs_bufs : list buf; bs_disk : disk }.

#[global] Instance bst_core : Lens bst core.
Proof.
  refine {| lget := bs_core; lset := λ c s, mkBst c (bs_bufs s) (bs_disk s) |};
    intros; by try destruct o.
Defined.

Definition set_bufs (l : list buf) (s : bst) : bst := mkBst (bs_core s) l (bs_disk s).
Definition set_disk (d : disk) (s : bst) : bst := mkBst (bs_core s) (bs_bufs s) d.
Definition upd (i : nat) (f : buf → buf) (s : bst) : bst := set_bufs (alter f i (bs_bufs s)) s.
Definition nb (i : nat) (s : bst) : buf := bs_bufs s !!! i.

(** Field updates. *)
Definition with_flags (v : Z) (b : buf) : buf :=
  mkBuf v (b_dev b) (b_blockno b) (b_lock b) (b_refcnt b) (b_prev b) (b_next b) (b_data b).
Definition with_id (dev blockno : Z) (b : buf) : buf :=
  mkBuf (b_flags b) dev blockno (b_lock b) (b_refcnt b) (b_prev b) (b_next b) (b_data b).
Definition with_lock (v : sleeplock) (b : buf) : buf :=
  mkBuf (b_flags b) (b_dev b) (b_blockno b) v (b_refcnt b) (b_prev b) (b_next b) (b_data b).
Definition with_refcnt (v : Z) (b : buf) : buf :=
  mkBuf (b_flags b) (b_dev b) (b_blockno b) (b_lock b) v (b_prev b) (b_next b) (b_data b).
Definition with_prev (v : nat) (b : buf) : buf :=
  mkBuf (b_flags b) (b_dev b) (b_blockno b) (b_lock b) (b_refcnt b) v (b_next b) (b_data b).
Definition with_next (v : nat) (b : buf) : buf :=
  mkBuf (b_flags b) (b_dev b) (b_blockno b) (b_lock b) (b_refcnt b) (b_prev b) v (b_data b).
Definition with_data (v : list Z) (b : buf) : buf :=
  mkBuf (b_flags b) (b_dev b) (b_blockno b) (b_lock b) (b_refcnt b) (b_prev b) (b_next b) v.

Definition HEAD : nat := NBUF.

(** The sleep lock of buffer [i]. *)
Definition buf_lock (i : nat) (s : bst) : sleeplock := b_lock (nb i s).
Definition set_buf_lock (i : nat) (l : sleeplock) : bst → bst := upd i (with_lock l).

(** ** memide.c *)

Definition dwrite (b : Z) (x : list Z) (d : disk) : disk :=
  mkDisk (disksize d) (<[b := x]> (memdisk d)) (d_writes d ++ [(b, x)]).

Definition iderw (i : nat) : M bst unit :=
  h ← holdingsleep (SLBuf i) (buf_lock i);
  if h =? 0 then panic "iderw: buf not locked" else
  b ← gets (nb i);
  if Z.land (b_flags b) (Z.lor B_VALID B_DIRTY) =? B_VALID then panic "iderw: nothing to do" else
  if negb (b_dev b =? 1) then panic "iderw: request not for disk 1" else
  d ← gets bs_disk;
  if b_blockno b >=? disksize d then panic "iderw: block out of range" else
  (if negb (Z.land (b_flags b) B_DIRTY =? 0) then
     modify (upd i (with_flags (Z.ldiff (b_flags b) B_DIRTY)));;
     modify (set_disk (dwrite (b_blockno b) (b_data b) d))
   else modify (upd i (with_data (memdisk d !!! b_blockno b))));;
  modify (upd i (λ b, with_flags (Z.lor (b_flags b) B_VALID) b)).

(** ** bio.c *)

(** One iteration of the loop of [binit], on buffer [b]. *)
Definition binit_link (b : nat) (s : bst) : bst :=
  let s := upd b (with_next (b_next (nb HEAD s))) s in
  let s := upd b (with_prev HEAD) s in
  let s := upd b (with_lock sleeplock0) s in
  let s := upd (b_next (nb HEAD s)) (with_prev b) s in
  upd HEAD (with_next b) s.

Definition binit : M bst unit :=
  modify (upd HEAD (with_prev HEAD));;
  modify (upd HEAD (with_next HEAD));;
  modify (λ s, foldl (λ s b, binit_link b s) s (seq 0 NBUF)).

(** The two loops of [bget]: [None] is a list that does not get back to the
    head within the bound. *)
Fixpoint bget_find (fuel : nat) (bufs : list buf) (dev blockno : Z) (b : nat) : option (option nat) :=
  match fuel with
  | O => None
  | S fuel =>
    if Nat.eqb b HEAD then Some None else
    let x := bufs !!! b in
    if (b_dev x =? dev) && (b_blockno x =? blockno) then Some (Some b)
    else bget_find fuel bufs dev blockno (b_next x)
  end.

Fixpoint bget_recycle (fuel : nat) (bufs : list buf) (b : nat) : option (option nat) :=
  match fuel with
  | O => None
  | S fuel =>
    if Nat.eqb b HEAD then Some None else
    let x := bufs !!! b in
    if (b_refcnt x =? 0) && (Z.land (b_flags x) B_DIRTY =? 0) then Some (Some b)
    else bget_recycle fuel bufs (b_prev x)
  end.

(** Every list through the [NBUF + 1] nodes is shorter than this. *)
Definition list_bound : nat := S (S NBUF).

Definition acquire_buf (b : nat) : M bst unit := acquiresleep (SLBuf b) (buf_lock b) (set_buf_lock b).

Definition bget (dev blockno : Z) : M bst nat :=
  lift (acquire LBcache);;
  r ← gets (λ s, bget_find list_bound (bs_bufs s) dev blockno (b_next (nb HEAD s)));
  match r with
  | None => diverge
  | Some (Some b) =>
    modify (upd b (λ x, with_refcnt (u32 (b_refcnt x + 1)) x));;
    lift (release LBcache);;
    acquire_buf b;;
    mret b
  | Some None =>
    r ← gets (λ s, bget_recycle list_bound (bs_bufs s) (b_prev (nb HEAD s)));
    match r with
    | None => diverge
    | Some (Some b) =>
      modify (upd b (λ x, with_refcnt 1 (with_flags 0 (with_id dev blockno x))));;
      lift (release LBcache);;
      acquire_buf b;;
      mret b
    | Some None => panic "bget: no buffers"
    end
  end.

Definition bread (dev blockno : Z) : M bst nat :=
  b ← bget dev blockno;
  fl ← gets (λ s, b_flags (nb b s));
  when (Z.land fl B_VALID =? 0) (iderw b);;
  mret b.

Definition bwrite (b : nat) : M bst unit :=
  h ← holdingsleep (SLBuf b) (buf_lock b);
  if h =? 0 then panic "bwrite" else
  modify (upd b (λ x, with_flags (Z.lor (b_flags x) B_DIRTY) x));;
  iderw b.

(** The pointer updates at the end of [brelse]. *)
Definition move_to_front (b : nat) (s : bst) : bst :=
  let s := upd (b_next (nb b s)) (with_prev (b_prev (nb b s))) s in
  let s := upd (b_prev (nb b s)) (with_next (b_next (nb b s))) s in
  let s := upd b (with_next (b_next (nb HEAD s))) s in
  let s := upd b (with_prev HEAD) s in
  let s := upd (b_next (nb HEAD s)) (with_prev b) s in
  upd HEAD (with_next b) s.

Definition brelse (b : nat) : M bst unit :=
  h ← holdingsleep (SLBuf b) (buf_lock b);
  if h =? 0 then panic "brelse" else
  releasesleep (SLBuf b) (set_buf_lock b);;
  lift (acquire LBcache);;
  modify (upd b (λ x, with_refcnt (u32 (b_refcnt x - 1)) x));;
  r ← gets (λ s, b_refcnt (nb b s));
  when (r =? 0) (modify (move_to_front b));;
  lift (release LBcache).

(** The caller's access to [b->data]. *)
Definition bdata (b : nat) (s : bst) : list Z := b_data (nb b s).
Definition set_bdata (b : nat) (d : list Z) : M bst unit := modify (upd b (with_data d)).

(** [b->flags |= B_DIRTY] in [log_write]. *)
Definition pin (i : nat) : M bst unit :=
  modify (upd i (λ x, with_flags (Z.lor (b_flags x) B_DIRTY) x)).

(** ** Reading updated nodes *)

Lemma nb_upd_eq i f s : (i < length (bs_bufs s))%nat → nb i (upd i f s) = f (nb i s).
Proof. intros. rw /nb /upd /= list_lookup_total_alter decide_True //. Qed.

Lemma nb_upd_ne i j f s : i ≠ j → nb j (upd i f s) = nb j s.
Proof. intros. rw /nb /upd /=. rw list_lookup_total_alter decide_False //; naive_solver. Qed.

Lemma length_upd i f s : length (bs_bufs (upd i f s)) = length (bs_bufs s).
Proof. by rw /upd /= length_alter. Qed.

(** A field no update of [f] touches. *)
Lemma nb_upd_field {A} (fld : buf → A) f i j s :
  (∀ x, fld (f x) = fld x) → fld (nb j (upd i f s)) = fld (nb j s).
Proof.
  intros Hf. destruct (decide (i = j)) as [<-|Hne]; [|by rw nb_upd_ne].
  destruct (decide (i < length (bs_bufs s))%nat); [by rw nb_upd_eq|].
  rw /nb /upd /= list_lookup_total_alter decide_False //; naive_solver.
Qed.

(** ** Doubly linked rings *)

(** [path f a l z]: following [f] from [a] goes through [l] and arrives at [z]. *)
Fixpoint path (f : nat → nat) (a : nat) (l : list nat) (z : nat) : Prop :=
  match l with
  | [] => f a = z
  | x :: l => f a = x ∧ path f x l z
  end.

(** The last element of [a :: l]. *)
Fixpoint lastd (a : nat) (l : list nat) : nat :=
  match l with [] => a | x :: l => lastd x l end.

Section paths.
Implicit Types (f g : nat → nat) (a b z : nat) (l : list nat).

Lemma path_ext f g a l z : (∀ x, x ∈ a :: l → g x = f x) → path f a l z → path g a l z.
Proof.
  revert a. induction l as [|x l IH]; intros a He; simpl.
  - intros <-. apply He. by left.
  - intros [Ha Hp]. split; [rw He //; by left|].
    apply IH; [|done]. intros y Hy. apply He. by right.
Qed.

Lemma path_app f a l1 b l2 z : path f a (l1 ++ b :: l2) z ↔ path f a l1 b ∧ path f b l2 z.
Proof.
  revert a. induction l1 as [|x l1 IH]; intros a; simpl; [done|]. rw IH. tauto.
Qed.

Lemma path_hd f a l z : path f a l z → f a = List.hd z l.
Proof. destruct l; simpl; [done|by intros [? _]]. Qed.

(** The last node before [z]. *)
Lemma path_last f a l z : path f a l z → f (lastd a l) = z.
Proof.
  revert a. induction l as [|x l IH]; intros a; simpl; [done|].
  intros [_ Hp]. by apply IH in Hp.
Qed.

Lemma last_elem_of l a : lastd a l ∈ a :: l.
Proof.
  revert a. induction l as [|x l IH]; intros a; [by left|].
  right. apply IH.
Qed.

(** Cutting a node out of the path changes one successor. *)
Lemma path_unlink f a l1 b l2 z :
  NoDup (a :: l1 ++ b :: l2) → path f a (l1 ++ b :: l2) z →
  path (<[lastd a l1 := f b]> f) a (l1 ++ l2) z.
Proof.
  revert a. induction l1 as [|x l1 IH]; intros a Hnd; simpl.
  - intros [Ha Hp]. apply list.NoDup_cons in Hnd as [Hna Hnd].
    destruct l2 as [|n l2]; simpl in *; [by rw fn_lookup_insert|].
    destruct Hp as [Hb Hp]. split; [by rw fn_lookup_insert|].
    apply (path_ext f); [|done]. intros y Hy. rw fn_lookup_insert_ne //. set_solver.
  - intros [Ha Hp]. apply list.NoDup_cons in Hnd as [Hna Hnd].
    split; [|by apply IH].
    rw fn_lookup_insert_ne //. intros Hl. apply Hna. rw -Hl.
    pose proof (last_elem_of l1 x). set_solver.
Qed.

(** Inserting a node at the front, and at the back. *)
Lemma path_push f a b l z :
  a ≠ b → b ∉ l → a ∉ l → path f a l z → path (<[a := b]> (<[b := f a]> f)) a (b :: l) z.
Proof.
  intros Hab Hbl Hal Hp. split; [by rw fn_lookup_insert|].
  destruct l as [|x l]; simpl in *.
  - rw fn_lookup_insert_ne // fn_lookup_insert //.
  - destruct Hp as [Ha Hp]. split; [rw fn_lookup_insert_ne // fn_lookup_insert //|].
    apply (path_ext f); [|done]. intros y Hy. rw !fn_lookup_insert_ne //; set_solver.
Qed.

Lemma path_snoc f a b l z :
  NoDup (a :: l) → b ∉ a :: l → path f a l z →
  path (<[lastd a l := b]> (<[b := z]> f)) a (l ++ [b]) z.
Proof.
  revert a. induction l as [|x l IH]; intros a Hnd Hb; simpl.
  - intros Ha. split; [by rw fn_lookup_insert|].
    rw fn_lookup_insert_ne; [set_solver|]. by rw fn_lookup_insert.
  - intros [Ha Hp]. apply list.NoDup_cons in Hnd as [Hna Hnd].
    split; [|apply IH; [done|set_solver|done]].
    rw fn_lookup_insert_ne; [intros Hl; apply Hna; rw -Hl; apply last_elem_of|].
    rw fn_lookup_insert_ne //. set_solver.
Qed.

Lemma hd_reverse l a : List.hd a (reverse l) = lastd a l.
Proof.
  revert a. induction l as [|x l IH]; intros a; [done|].
  rw reverse_cons /= -IH. by destruct (reverse l).
Qed.

Lemma last_reverse l a : lastd a (reverse l) = List.hd a l.
Proof. by rw -hd_reverse reverse_involutive. Qed.
End paths.

(** The ring the pointers form, from most to least recently used. *)
Definition nextf (s : bst) (i : nat) : nat := b_next (nb i s).
Definition prevf (s : bst) (i : nat) : nat := b_prev (nb i s).

Record ring (s : bst) (l : list nat) : Prop := {
  ring_next : path (nextf s) HEAD l HEAD;
  ring_prev : path (prevf s) HEAD (reverse l) HEAD;
  ring_perm : l ≡ₚ seq 0 NBUF;
  ring_len : length (bs_bufs s) = S NBUF;
}.

(** Everything but the links. *)
Definition payload (b : buf) := (b_flags b, b_dev b, b_blockno b, b_lock b, b_refcnt b, b_data b).

Record links_only (s s' : bst) : Prop := {
  lo_core : bs_core s' = bs_core s;
  lo_disk : bs_disk s' = bs_disk s;
  lo_len : length (bs_bufs s') = length (bs_bufs s);
  lo_pay i : payload (nb i s') = payload (nb i s);
}.

Lemma nextf_upd s i v f j :
  (i < length (bs_bufs s))%nat → (∀ x, b_next (f x) = v) → nextf (upd i f s) j = <[i := v]> (nextf s) j.
Proof.
  intros Hi Hf. rw /nextf. destruct (decide (i = j)) as [<-|].
  - by rw nb_upd_eq // Hf fn_lookup_insert.
  - by rw nb_upd_ne // fn_lookup_insert_ne.
Qed.

Lemma prevf_upd s i v f j :
  (i < length (bs_bufs s))%nat → (∀ x, b_prev (f x) = v) → prevf (upd i f s) j = <[i := v]> (prevf s) j.
Proof.
  intros Hi Hf. rw /prevf. destruct (decide (i = j)) as [<-|].
  - by rw nb_upd_eq // Hf fn_lookup_insert.
  - by rw nb_upd_ne // fn_lookup_insert_ne.
Qed.

Lemma nextf_frame s i f j : (∀ x, b_next (f x) = b_next x) → nextf (upd i f s) j = nextf s j.
Proof. intros. by apply (nb_upd_field b_next). Qed.
Lemma prevf_frame s i f j : (∀ x, b_prev (f x) = b_prev x) → prevf (upd i f s) j = prevf s j.
Proof. intros. by apply (nb_upd_field b_prev). Qed.

Lemma links_only_upd i f s :
  (∀ x, payload (f x) = payload x) → links_only s (upd i f s).
Proof.
  intros Hf. split; [done|done|apply length_upd|]. intros j. by apply (nb_upd_field payload).
Qed.

#[global] Instance links_only_trans : Transitive links_only.
Proof. intros s1 s2 s3 [] []. split; congruence. Qed.

(** The first two and the last four assignments of [brelse]'s list update. *)
Definition unlink_node (b : nat) (s : bst) : bst :=
  let s := upd (b_next (nb b s)) (with_prev (b_prev (nb b s))) s in
  upd (b_prev (nb b s)) (with_next (b_next (nb b s))) s.
Definition push_node (b : nat) (s : bst) : bst :=
  let s := upd b (with_next (b_next (nb HEAD s))) s in
  let s := upd b (with_prev HEAD) s in
  let s := upd (b_next (nb HEAD s)) (with_prev b) s in
  upd HEAD (with_next b) s.

Lemma move_to_front_split b s : move_to_front b s = push_node b (unlink_node b s).
Proof. done. Qed.

Lemma unlink_paths s b l1 l2 :
  NoDup (HEAD :: l1 ++ b :: l2) →
  (∀ x, x ∈ HEAD :: l1 ++ b :: l2 → (x < length (bs_bufs s))%nat) →
  path (nextf s) HEAD (l1 ++ b :: l2) HEAD →
  path (prevf s) HEAD (reverse (l1 ++ b :: l2)) HEAD →
  let s' := unlink_node b s in
  path (nextf s') HEAD (l1 ++ l2) HEAD ∧ path (prevf s') HEAD (reverse (l1 ++ l2)) HEAD ∧
  links_only s s'.
Proof.
  intros Hnd Hb Hn Hp s'.
  rw !reverse_app reverse_cons -app_assoc in Hp |- *. simpl in Hp.
  assert (nextf s b = lastd HEAD (reverse l2)) as Hnb.
  { apply path_app in Hn as [_ Hn]. by rw (path_hd _ _ _ _ Hn) last_reverse. }
  assert (prevf s b = lastd HEAD l1) as Hpb.
  { apply path_app in Hp as [_ Hp]. by rw (path_hd _ _ _ _ Hp) hd_reverse. }
  assert (NoDup (HEAD :: reverse l2 ++ b :: reverse l1)) as Hndr.
  { rw (_ : HEAD :: reverse l2 ++ b :: reverse l1 ≡ₚ HEAD :: l1 ++ b :: l2) //.
    rw !reverse_Permutation. solve_Permutation. }
  assert (nextf s b < length (bs_bufs s))%nat as Hnl.
  { apply Hb. rw Hnb. pose proof (last_elem_of (reverse l2) HEAD). set_solver. }
  assert (prevf s b < length (bs_bufs s))%nat as Hpl.
  { apply Hb. rw Hpb. pose proof (last_elem_of l1 HEAD). set_solver. }
  assert (nextf s b ≠ b) as Hne.
  { rw Hnb. intros He. pose proof (last_elem_of (reverse l2) HEAD) as Hi. rw He in Hi.
    apply list.NoDup_cons in Hndr as [? [_ [Hx _]]%list.NoDup_app]. set_solver. }
  rw /s' /unlink_node. set (s1 := upd (b_next (nb b s)) _ s).
  assert (nb b s1 = nb b s) as Hb1 by (by rw /s1 nb_upd_ne).
  rw Hb1. split_and!.
  - apply (path_ext (<[lastd HEAD l1 := nextf s b]> (nextf s))); [|by apply path_unlink].
    intros x _. rw (nextf_upd _ _ (b_next (nb b s))) //; [by rw length_upd|].
    rw -Hpb. rw /prevf. destruct (decide (b_prev (nb b s) = x)) as [->|];
      rw ?fn_lookup_insert // !fn_lookup_insert_ne // nextf_frame //.
  - apply (path_ext (<[lastd HEAD (reverse l2) := prevf s b]> (prevf s))); [|by apply path_unlink].
    intros x _. rw prevf_frame // (prevf_upd _ _ (b_prev (nb b s))) //. by rw -Hnb.
  - etrans; by apply links_only_upd.
Qed.

Lemma push_paths s b l :
  NoDup (HEAD :: b :: l) →
  (∀ x, x ∈ HEAD :: b :: l → (x < length (bs_bufs s))%nat) →
  path (nextf s) HEAD l HEAD → path (prevf s) HEAD (reverse l) HEAD →
  let s' := push_node b s in
  path (nextf s') HEAD (b :: l) HEAD ∧ path (prevf s') HEAD (reverse (b :: l)) HEAD ∧
  links_only s s'.
Proof.
  intros Hnd Hb Hn Hp s'.
  apply list.NoDup_cons in Hnd as [HH [Hbl Hnd]%list.NoDup_cons].
  assert (b < length (bs_bufs s))%nat by (apply Hb; set_solver).
  assert (HEAD < length (bs_bufs s))%nat by (apply Hb; set_solver).
  assert (HEAD ≠ b ∧ HEAD ∉ l) as [? ?] by set_solver.
  assert (nextf s HEAD = lastd HEAD (reverse l)) as Hh by (by rw (path_hd _ _ _ _ Hn) last_reverse).
  assert (nextf s HEAD < length (bs_bufs s))%nat as Hl.
  { apply Hb. rw Hh. pose proof (last_elem_of (reverse l) HEAD). set_solver. }
  rw /s' /push_node. set (s1 := upd b (with_next _) s). set (s2 := upd b (with_prev _) s1).
  assert (b_next (nb HEAD s2) = nextf s HEAD) as ->.
  { by rw /s2 /s1 !nb_upd_ne. }
  set (s3 := upd (nextf s HEAD) _ s2). split_and!.
  - apply (path_ext (<[HEAD := b]> (<[b := nextf s HEAD]> (nextf s)))); [|by apply path_push].
    intros x _. rw (nextf_upd _ _ b) //; [by rw !length_upd|].
    destruct (decide (HEAD = x)) as [<-|]; [by rw !fn_lookup_insert|].
    rw !(fn_lookup_insert_ne _ HEAD) // /s3 nextf_frame // /s2 nextf_frame // /s1.
    by rw (nextf_upd _ _ (nextf s HEAD)).
  - rw reverse_cons.
    apply (path_ext (<[lastd HEAD (reverse l) := b]> (<[b := HEAD]> (prevf s)))).
    + intros x _. rw prevf_frame // /s3 (prevf_upd _ _ b) //; [by rw !length_upd|]. rw -Hh.
      destruct (decide (nextf s HEAD = x)) as [<-|]; [by rw !fn_lookup_insert|].
      rw !(fn_lookup_insert_ne _ (nextf s HEAD)) // /s2 (prevf_upd _ _ HEAD) //; [by rw length_upd|].
      destruct (decide (b = x)) as [<-|]; [by rw !fn_lookup_insert|].
      by rw !fn_lookup_insert_ne // /s1 prevf_frame.
    + apply path_snoc; [|set_solver|done]. apply list.NoDup_cons.
      split; [set_solver|]. by rw reverse_Permutation.
  - do 3 (etrans; [|by apply links_only_upd]). by apply links_only_upd.
Qed.

Lemma HEAD_notin l : l ≡ₚ seq 0 NBUF → HEAD ∉ l.
Proof. intros ->. rw elem_of_seq /HEAD. lia. Qed.

Lemma ring_nodup s l : ring s l → NoDup (HEAD :: l).
Proof.
  intros [_ _ Hp _]. apply list.NoDup_cons. split; [by apply HEAD_notin|].
  rw Hp. apply NoDup_seq.
Qed.

Lemma ring_bound s l x : ring s l → x ∈ HEAD :: l → (x < length (bs_bufs s))%nat.
Proof.
  intros [_ _ Hp ->] [->|Hx]%elem_of_cons; [rw /HEAD; lia|].
  rw Hp elem_of_seq in Hx. lia.
Qed.

Lemma ring_elem s l i : ring s l → i ∈ l ↔ (i < NBUF)%nat.
Proof. intros [_ _ -> _]. rw elem_of_seq. lia. Qed.

(** The pointer assignments of [brelse] move the buffer to the front of the
    list and touch nothing else. *)
Lemma move_to_front_ring s b l1 l2 :
  ring s (l1 ++ b :: l2) →
  ring (move_to_front b s) (b :: l1 ++ l2) ∧ links_only s (move_to_front b s).
Proof.
  intros Hr. pose proof (ring_nodup _ _ Hr) as Hnd.
  pose proof (λ x, ring_bound s _ x Hr) as Hb.
  destruct (unlink_paths s b l1 l2) as (Hn & Hp & Hl); [done|done|apply Hr|apply Hr|].
  assert (NoDup (HEAD :: b :: l1 ++ l2)) as Hnd'.
  { assert (HEAD :: b :: l1 ++ l2 ≡ₚ HEAD :: l1 ++ b :: l2) as -> by solve_Permutation. done. }
  rw move_to_front_split.
  destruct (push_paths (unlink_node b s) b (l1 ++ l2)) as (Hn' & Hp' & Hl'); [done| |done|done|].
  { intros x Hx. rw (lo_len _ _ Hl). apply Hb. set_solver. }
  split; [|by etrans]. split; [done|done| |].
  - rw -(ring_perm _ _ Hr). solve_Permutation.
  - rw (lo_len _ _ Hl') (lo_len _ _ Hl). apply Hr.
Qed.

(** The ring does not depend on anything but the links. *)
Lemma ring_frame s s' l :
  length (bs_bufs s') = length (bs_bufs s) →
  (∀ i, nextf s' i = nextf s i) → (∀ i, prevf s' i = prevf s i) → ring s l → ring s' l.
Proof.
  intros Hl Hn Hp [H1 H2 H3 H4]. split; [apply (path_ext (nextf s)); auto|apply (path_ext (prevf s)); auto|done|congruence].
Qed.

Lemma ring_upd s i f l :
  (∀ x, b_next (f x) = b_next x) → (∀ x, b_prev (f x) = b_prev x) → ring s l → ring (upd i f s) l.
Proof.
  intros Hn Hp. apply ring_frame; [apply length_upd| |]; intros; [by apply nextf_frame|by apply prevf_frame].
Qed.

Lemma upd_upd i f g s : upd i f (upd i g s) = upd i (λ x, f (g x)) s.
Proof.
  rw /upd /set_bufs /=. f_equal. apply list_eq => j. rw !list_lookup_alter.
  destruct (decide (i = j)) as [->|]; [|done]. rw decide_True //. by destruct (bs_bufs s !! j).
Qed.

Lemma binit_link_push b s :
  b ≠ HEAD → binit_link b s = push_node b (upd b (with_lock sleeplock0) s).
Proof.
  intros Hb. rw /binit_link /push_node. cbv zeta. rw !(upd_upd b) /=.
  by rw !(nb_upd_ne b HEAD).
Qed.

(** [binit] builds the ring of all buffers, the last one first, with every
    sleep lock initialised. *)
Lemma binit_loop n s :
  (n ≤ NBUF)%nat → length (bs_bufs s) = S NBUF →
  nextf s HEAD = HEAD → prevf s HEAD = HEAD →
  let s' := foldl (λ s b, binit_link b s) s (seq 0 n) in
  path (nextf s') HEAD (reverse (seq 0 n)) HEAD ∧ path (prevf s') HEAD (seq 0 n) HEAD ∧
  length (bs_bufs s') = S NBUF ∧ bs_disk s' = bs_disk s ∧ bs_core s' = bs_core s ∧
  ∀ i, (i < n)%nat → b_lock (nb i s') = sleeplock0.
Proof.
  intros Hn Hl Hh Hp. induction n as [|n IH]; [split_and!; done || lia|].
  cbv zeta. rw seq_S foldl_app. cbn [foldl Nat.add].
  destruct IH as (H1 & H2 & H3 & H4 & H5 & H6); [lia|].
  set (s1 := foldl _ s (seq 0 n)) in *.
  rw binit_link_push; [rw /HEAD; lia|].
  set (s2 := upd n (with_lock sleeplock0) s1).
  destruct (push_paths s2 n (reverse (seq 0 n))) as (Hn1 & Hp1 & Hlo).
  - rw reverse_Permutation. repeat (apply list.NoDup_cons; split); [| |apply NoDup_seq];
      rw ?elem_of_cons ?elem_of_seq /HEAD; lia.
  - intros x. rw /s2 length_upd H3. rw !elem_of_cons elem_of_reverse elem_of_seq /HEAD. lia.
  - apply (path_ext (nextf s1)); [|done]. intros. by apply nextf_frame.
  - rw reverse_involutive. apply (path_ext (prevf s1)); [|done]. intros. by apply prevf_frame.
  - rw reverse_cons reverse_involutive in Hp1. rw reverse_snoc. split_and!; try done.
    + rw (lo_len _ _ Hlo) /s2 length_upd //.
    + intros i Hi. assert (b_lock (nb i (push_node n s2)) = b_lock (nb i s2)) as ->.
      { pose proof (lo_pay _ _ Hlo i) as Hpay. rw /payload in Hpay. congruence. }
      rw /s2. destruct (decide (n = i)) as [<-|].
      * rw nb_upd_eq //. lia.
      * rw nb_upd_ne //. apply H6. lia.
Qed.

Lemma find_path f bufs dev bn a l fuel :
  (∀ i, f i = b_next (bufs !!! i)) → path f a l HEAD → HEAD ∉ l → (length l < fuel)%nat →
  bget_find fuel bufs dev bn (f a) =
    Some (List.find (λ i, (b_dev (bufs !!! i) =? dev) && (b_blockno (bufs !!! i) =? bn)) l).
Proof.
  intros Hf. revert a fuel. induction l as [|x l IH]; intros a [|fuel] Hp HH Hl;
    simpl in *; try lia.
  - by rw Hp Nat.eqb_refl.
  - destruct Hp as [-> Hp]. apply not_elem_of_cons in HH as [Hx HH].
    destruct (Nat.eqb_spec x HEAD); [congruence|].
    destruct (_ && _); [done|]. rw -Hf. apply IH; [done|done|lia].
Qed.

Lemma recycle_path f bufs a l fuel :
  (∀ i, f i = b_prev (bufs !!! i)) → path f a l HEAD → HEAD ∉ l → (length l < fuel)%nat →
  bget_recycle fuel bufs (f a) =
    Some (List.find (λ i, (b_refcnt (bufs !!! i) =? 0) && (Z.land (b_flags (bufs !!! i)) B_DIRTY =? 0)) l).
Proof.
  intros Hf. revert a fuel. induction l as [|x l IH]; intros a [|fuel] Hp HH Hl;
    simpl in *; try lia.
  - by rw Hp Nat.eqb_refl.
  - destruct Hp as [-> Hp]. apply not_elem_of_cons in HH as [Hx HH].
    destruct (Nat.eqb_spec x HEAD); [congruence|].
    destruct (_ && _); [done|]. rw -Hf. apply IH; [done|done|lia].
Qed.

(** ** The invariant of the cache *)

Record bwf (s : bst) : Prop := {
  bw_ring : ∃ l, ring s l;
  bw_flags i : (i < NBUF)%nat → b_flags (nb i s) = 0 ∨ b_flags (nb i s) = 2 ∨ b_flags (nb i s) = 6;
  bw_uniq i j : (i < NBUF)%nat → (j < NBUF)%nat → b_dev (nb i s) = 1 →
    b_dev (nb i s) = b_dev (nb j s) → b_blockno (nb i s) = b_blockno (nb j s) → i = j;
  bw_data i : (i < NBUF)%nat → b_flags (nb i s) ≠ 0 → blk (b_data (nb i s));
  bw_dev i : (i < NBUF)%nat → b_flags (nb i s) ≠ 0 →
    b_dev (nb i s) = 1 ∧ 0 ≤ b_blockno (nb i s) < disksize (bs_disk s);
  bw_ref i : (i < NBUF)%nat → 0 ≤ b_refcnt (nb i s) < 2 ^ 32 ∧
    (sl_locked (b_lock (nb i s)) ≠ 0 → 0 < b_refcnt (nb i s));
  bw_clean i : (i < NBUF)%nat → b_flags (nb i s) = 2 → b_refcnt (nb i s) = 0 →
    b_data (nb i s) = memdisk (bs_disk s) !!! b_blockno (nb i s);
  bw_disk b : 0 ≤ b < disksize (bs_disk s) → blk (memdisk (bs_disk s) !!! b);
}.

(** The contents of block [b] as the file system sees it: the cached copy when
    there is one, the disk otherwise. *)
Definition caches (s : bst) (b : Z) (i : nat) : bool :=
  (b_dev (nb i s) =? 1) && (b_blockno (nb i s) =? b) && negb (b_flags (nb i s) =? 0).
Definition bview (s : bst) (b : Z) : list Z :=
  match List.find (caches s b) (seq 0 NBUF) with
  | Some i => b_data (nb i s)
  | None => memdisk (bs_disk s) !!! b
  end.

Lemma caches_spec s b i :
  caches s b i = true ↔ b_dev (nb i s) = 1 ∧ b_blockno (nb i s) = b ∧ b_flags (nb i s) ≠ 0.
Proof. rw /caches. lia. Qed.

Lemma bview_hit s b i :
  bwf s → (i < NBUF)%nat → caches s b i = true → bview s b = b_data (nb i s).
Proof.
  intros Hw Hi Hc. rw /bview. destruct (List.find _ _) as [j|] eqn:Hf.
  - apply List.find_some in Hf as [Hj%in_seq Hcj].
    apply caches_spec in Hc as (? & ? & _), Hcj as (? & ? & _).
    rw (bw_uniq _ Hw i j) //; [lia|congruence..].
  - eapply List.find_none in Hf; [|apply in_seq; split; [lia|apply Hi]]. congruence.
Qed.

Lemma bview_miss s b :
  (∀ i, (i < NBUF)%nat → caches s b i = false) → bview s b = memdisk (bs_disk s) !!! b.
Proof.
  intros Hc. rw /bview. destruct (List.find _ _) as [j|] eqn:Hf; [|done].
  apply List.find_some in Hf as [Hj%in_seq Hcj]. rw Hc in Hcj; [lia|done].
Qed.

(** Views agree when the payloads and the disk do. *)
Lemma bview_ext s s' b :
  (∀ i, (i < NBUF)%nat → caches s' b i = caches s b i ∧
    (caches s b i = true → b_data (nb i s') = b_data (nb i s))) →
  memdisk (bs_disk s') = memdisk (bs_disk s) → bview s' b = bview s b.
Proof.
  intros Hc Hd. rw /bview Hd.
  assert (List.find (caches s' b) (seq 0 NBUF) = List.find (caches s b) (seq 0 NBUF)) as ->.
  { assert (∀ i, In i (seq 0 NBUF) → caches s' b i = caches s b i) as H.
    { intros i Hi%in_seq. apply Hc. lia. }
    revert H. generalize (seq 0 NBUF). induction l as [|x l IH]; intros H; [done|]. simpl.
    rw H; [by left|]. destruct (caches s b x); [done|]. apply IH. intros. apply H. by right. }
  destruct (List.find _ _) as [j|] eqn:Hf; [|done].
  apply List.find_some in Hf as [Hj%in_seq Hcj]. apply Hc; [lia|done].
Qed.

#[global] Instance buf_sleeploc i : SleepLoc (buf_lock i) (set_buf_lock i).
Proof. by split. Qed.

(** ** What the operations do *)

Lemma nb_const i x s : (i < length (bs_bufs s))%nat → nb i (upd i (λ _, x) s) = x.
Proof. intros. by rw nb_upd_eq. Qed.

Lemma bufs_len s : bwf s → length (bs_bufs s) = S NBUF.
Proof. intros Hw. destruct (bw_ring _ Hw) as [l Hl]. apply Hl. Qed.

Lemma holding_buf_run s i :
  LSleep (SLBuf i) ∉ c_locks (bs_core s) →
  holdingsleep (SLBuf i) (buf_lock i) s = Ret (sl_locked (b_lock (nb i s))) s.
Proof. exact (holdingsleep_run (SLBuf i) (buf_lock i) (set_buf_lock i) s). Qed.

Lemma acquire_buf_run s i :
  LSleep (SLBuf i) ∉ c_locks (bs_core s) → sl_locked (b_lock (nb i s)) = 0 →
  acquire_buf i s = Ret tt (upd i (with_lock (mkSleeplock 1 (p_pid (cur_proc (bs_core s))))) s).
Proof. exact (acquiresleep_run (SLBuf i) (buf_lock i) (set_buf_lock i) s). Qed.

Lemma release_buf_run s i :
  c_locks (bs_core s) = [] →
  releasesleep (SLBuf i) (set_buf_lock i) s =
    Ret tt (lset (set_procs (map (wake (ChSleep (SLBuf i))) (c_procs (bs_core s))) (bs_core s))
              (upd i (with_lock sleeplock0) s)).
Proof.
  intros H. refine (releasesleep_run (SLBuf i) (buf_lock i) (set_buf_lock i) s _ _);
    rw /= H; apply not_elem_of_nil.
Qed.

Lemma iderw_read_run s i :
  LSleep (SLBuf i) ∉ c_locks (bs_core s) → (i < length (bs_bufs s))%nat →
  sl_locked (b_lock (nb i s)) ≠ 0 → b_flags (nb i s) = 0 → b_dev (nb i s) = 1 →
  b_blockno (nb i s) < disksize (bs_disk s) →
  iderw i s = Ret tt (upd i (λ x, with_flags 2 (with_data (memdisk (bs_disk s) !!! b_blockno (nb i s)) x)) s).
Proof.
  intros Hl Hi Hk Hf Hd Hb. rw /iderw (run_bind _ _ _ _ _ (holding_buf_run _ _ Hl)).
  destruct (Z.eqb_spec (sl_locked (b_lock (nb i s))) 0); [done|].
  rw run_gets Hf Hd /= run_gets. rw Z.geb_leb. destruct (Z.leb_spec (disksize (bs_disk s)) (b_blockno (nb i s))); [lia|].
  rw run_modify /modify upd_upd. f_equal. rw /upd /set_bufs. f_equal.
  apply list_alter_ext; [|done]. intros x Hx.
  assert (x = nb i s) as -> by (symmetry; by apply list_lookup_total_correct).
  by rw /with_data /with_flags /= Hf.
Qed.

Lemma iderw_write_run s i :
  LSleep (SLBuf i) ∉ c_locks (bs_core s) → (i < length (bs_bufs s))%nat →
  sl_locked (b_lock (nb i s)) ≠ 0 → b_flags (nb i s) = 4 ∨ b_flags (nb i s) = 6 → b_dev (nb i s) = 1 →
  b_blockno (nb i s) < disksize (bs_disk s) →
  iderw i s = Ret tt (set_disk (dwrite (b_blockno (nb i s)) (b_data (nb i s)) (bs_disk s))
                        (upd i (with_flags 2) s)).
Proof.
  intros Hl Hi Hk Hf Hd Hb. rw /iderw (run_bind _ _ _ _ _ (holding_buf_run _ _ Hl)).
  destruct (Z.eqb_spec (sl_locked (b_lock (nb i s))) 0); [done|].
  rw run_gets Hd /=.
  assert (Z.land (b_flags (nb i s)) (Z.lor B_VALID B_DIRTY) =? B_VALID = false ∧
    Z.land (b_flags (nb i s)) B_DIRTY =? 0 = false ∧
    Z.lor (Z.ldiff (b_flags (nb i s)) B_DIRTY) B_VALID = 2) as (-> & -> & Hv).
  { destruct Hf as [-> | ->]; done. }
  rw run_gets /=. rw Z.geb_leb. destruct (Z.leb_spec (disksize (bs_disk s)) (b_blockno (nb i s))); [lia|].
  rw run_assoc run_modify run_modify /modify. f_equal. rw /upd /set_bufs /set_disk /=. f_equal.
  apply list_eq => j. rw !list_lookup_alter. case_decide; [subst|done]. rw decide_True //.
  destruct (bs_bufs s !! j) eqn:E; [|done]. simpl. f_equal. rw /with_flags /=. by rw Hv.
Qed.

(** A run of [lift (acquire l); m; lift (release l)] with [m] outside the
    shared state. *)
Lemma acquire_bst_run s l :
  l ∉ c_locks (bs_core s) →
  (lift (acquire l) : M bst unit) s = Ret tt (mkBst (set_locks (l :: c_locks (bs_core s)) (bs_core s)) (bs_bufs s) (bs_disk s)).
Proof. intros H. exact (run_lift (acquire l) s tt _ (acquire_run l (bs_core s) H)). Qed.

Lemma release_bst_run c l bufs d :
  l ∉ c_locks c →
  (lift (release l) : M bst unit) (mkBst (set_locks (l :: c_locks c) c) bufs d) = Ret tt (mkBst c bufs d).
Proof.
  intros H. etrans; [eapply (run_lift (release l)); by apply (release_run _ (c_locks c))|].
  by rw /= set_locks_set_locks set_locks_id.
Qed.

(** The two scans of [bget] go through all buffers. *)
Lemma scan_find s dev bn :
  bwf s →
  (∃ i, bget_find list_bound (bs_bufs s) dev bn (b_next (nb HEAD s)) = Some (Some i) ∧
    (i < NBUF)%nat ∧ b_dev (nb i s) = dev ∧ b_blockno (nb i s) = bn) ∨
  (bget_find list_bound (bs_bufs s) dev bn (b_next (nb HEAD s)) = Some None ∧
    ∀ i, (i < NBUF)%nat → ¬ (b_dev (nb i s) = dev ∧ b_blockno (nb i s) = bn)).
Proof.
  intros Hw. destruct (bw_ring _ Hw) as [l Hr].
  rw (find_path (nextf s) _ _ _ HEAD l) //; [apply Hr|apply HEAD_notin, Hr| |].
  { rw (ring_perm _ _ Hr) length_seq /list_bound. lia. }
  destruct (List.find _ l) as [i|] eqn:Hf; [left|right].
  - apply List.find_some in Hf as [Hi%list_elem_of_In Hf]. exists i. rw (ring_elem _ _ _ Hr) in Hi.
    rw /nb. split_and!; [done|done|lia|lia].
  - split; [done|]. intros i Hi [Hd Hb]. rw -(ring_elem _ _ _ Hr) list_elem_of_In in Hi.
    apply (List.find_none _ _ Hf) in Hi. rw /nb in Hd Hb. lia.
Qed.

Lemma scan_recycle s :
  bwf s → (∃ i, (i < NBUF)%nat ∧ b_refcnt (nb i s) = 0 ∧ b_flags (nb i s) ≠ 6) →
  ∃ i, bget_recycle list_bound (bs_bufs s) (b_prev (nb HEAD s)) = Some (Some i) ∧
    (i < NBUF)%nat ∧ b_refcnt (nb i s) = 0 ∧ b_flags (nb i s) ≠ 6.
Proof.
  intros Hw (j & Hj & Hjr & Hjf). destruct (bw_ring _ Hw) as [l Hr].
  rw (recycle_path (prevf s) _ HEAD (reverse l)) //; [apply Hr| | |].
  { rw elem_of_reverse. apply HEAD_notin, Hr. }
  { rw length_reverse (ring_perm _ _ Hr) length_seq /list_bound. lia. }
  destruct (List.find _ _) as [i|] eqn:Hf.
  - apply List.find_some in Hf as [Hi%list_elem_of_In Hf]. exists i.
    rw elem_of_reverse (ring_elem _ _ _ Hr) in Hi.
    apply andb_prop in Hf as [Hf1 Hf2]. split_and!; [done|done|rw /nb; lia|].
    intros H6. rw /nb in H6. by rw H6 in Hf2.
  - pose proof Hj as Hin. rw -(ring_elem _ _ _ Hr) -elem_of_reverse list_elem_of_In in Hin.
    apply (List.find_none _ _ Hf) in Hin. rw -/(nb j s) Hjr in Hin.
    by destruct (bw_flags _ Hw j Hj) as [H|[H|H]]; rw H in Hin Hjf.
Qed.

Lemma upd_ext i f g s : f (nb i s) = g (nb i s) → upd i f s = upd i g s.
Proof.
  intros H. rw /upd /set_bufs. f_equal. apply list_alter_ext; [|done]. intros x Hx.
  assert (x = nb i s) as -> by (symmetry; by apply list_lookup_total_correct). done.
Qed.

#[local] Arguments bget_find : simpl never.
#[local] Arguments bget_recycle : simpl never.

(** The sleep lock as the running process takes it. *)
Definition my_lock (s : bst) : sleeplock := mkSleeplock 1 (p_pid (cur_proc (bs_core s))).

Lemma bget_run s b :
  bwf s → c_locks (bs_core s) = [] →
  (∀ i, (i < NBUF)%nat → b_dev (nb i s) = 1 → b_blockno (nb i s) = b → b_refcnt (nb i s) = 0) →
  (∀ i, (i < NBUF)%nat → b_refcnt (nb i s) = 0 → sl_locked (b_lock (nb i s)) = 0) →
  (∃ i, (i < NBUF)%nat ∧ b_dev (nb i s) = 1 ∧ b_blockno (nb i s) = b) ∨
  (∃ i, (i < NBUF)%nat ∧ b_refcnt (nb i s) = 0 ∧ b_flags (nb i s) ≠ 6) →
  ∃ i x, bget 1 b s = Ret i (upd i (λ _, x) s) ∧ (i < NBUF)%nat ∧ b_refcnt (nb i s) = 0 ∧
   ((b_dev (nb i s) = 1 ∧ b_blockno (nb i s) = b ∧ x = with_lock (my_lock s) (with_refcnt 1 (nb i s))) ∨
    ((∀ j, (j < NBUF)%nat → ¬ (b_dev (nb j s) = 1 ∧ b_blockno (nb j s) = b)) ∧ b_flags (nb i s) ≠ 6 ∧
      x = with_lock (my_lock s) (with_refcnt 1 (with_flags 0 (with_id 1 b (nb i s)))))).
Proof.
  intros Hw Hc Hb Hu Hex. pose proof (bufs_len _ Hw) as Hlen.
  assert (∀ l : lockid, l ∉ c_locks (bs_core s)) as Hnl by (intros l; rw Hc; apply not_elem_of_nil).
  rw /bget (run_bind _ _ _ _ _ (acquire_bst_run _ _ (Hnl LBcache))) run_gets /=.
  change (nb HEAD (mkBst _ (bs_bufs s) _)) with (nb HEAD s).
  destruct (scan_find s 1 b Hw) as [(i & -> & Hi & Hd & Hbn)|[-> Hno]].
  - exists i. eexists. rw run_modify /upd /set_bufs /=.
    rw (run_bind _ _ _ _ _ (release_bst_run _ _ _ _ (Hnl LBcache))).
    set (s1 := mkBst _ _ _).
    assert (s1 = upd i (λ x, with_refcnt 1 x) s) as ->.
    { transitivity (upd i (λ x, with_refcnt (u32 (b_refcnt x + 1)) x) s); [done|].
      apply upd_ext. by rw Hb. }
    rw (run_bind _ _ _ _ _ (acquire_buf_run (upd i _ s) i (Hnl _) _)).
    + rw nb_upd_eq /=; [lia|]. apply Hu; auto.
    + rw upd_upd run_mret. split_and!; [f_equal; apply upd_ext; done|done|by apply Hb|left; done].
  - destruct (scan_recycle s Hw) as (i & Hrc & Hi & Hr & Hf).
    { destruct Hex as [(i & ? & ? & ?)|?]; [|done]. by destruct (Hno i). }
    exists i. eexists. rw run_gets /=. change (nb HEAD (mkBst _ (bs_bufs s) _)) with (nb HEAD s). rw Hrc.
    rw run_modify /upd /set_bufs /=.
    rw (run_bind _ _ _ _ _ (release_bst_run _ _ _ _ (Hnl LBcache))).
    set (s1 := mkBst _ _ _).
    assert (s1 = upd i (λ x, with_refcnt 1 (with_flags 0 (with_id 1 b x))) s) as -> by done.
    rw (run_bind _ _ _ _ _ (acquire_buf_run (upd i _ s) i (Hnl _) _)).
    + rw nb_upd_eq /=; [lia|]. apply Hu; auto.
    + rw upd_upd run_mret. split_and!; [f_equal; apply upd_ext; done|done|done|right; done].
Qed.

(** ** Updating one buffer *)

Lemma nb_upd_cases i j x s :
  (i < length (bs_bufs s))%nat → nb j (upd i (λ _, x) s) = if decide (j = i) then x else nb j s.
Proof. intros. case_decide; [subst; by apply nb_const|by apply nb_upd_ne]. Qed.

(** What one buffer has to satisfy for the invariant to hold, the rest of the
    cache being fixed. *)
Record buf_ok (s : bst) (i : nat) (x : buf) : Prop := {
  bo_flags : b_flags x = 0 ∨ b_flags x = 2 ∨ b_flags x = 6;
  bo_uniq j : (j < NBUF)%nat → j ≠ i → b_dev x = 1 → b_dev (nb j s) = 1 → b_blockno (nb j s) ≠ b_blockno x;
  bo_data : b_flags x ≠ 0 → blk (b_data x) ∧ b_dev x = 1 ∧ 0 ≤ b_blockno x < disksize (bs_disk s);
  bo_ref : 0 ≤ b_refcnt x < 2 ^ 32 ∧ (sl_locked (b_lock x) ≠ 0 → 0 < b_refcnt x);
  bo_clean : b_flags x = 2 → b_refcnt x = 0 → b_data x = memdisk (bs_disk s) !!! b_blockno x;
}.

Lemma bwf_buf_ok s i : bwf s → (i < NBUF)%nat → buf_ok s i (nb i s).
Proof.
  intros Hw Hi. split.
  - by apply Hw.
  - intros j Hj Hne Hd Hd' Hb. apply Hne. apply (bw_uniq _ Hw); congruence.
  - intros. split; by apply Hw.
  - by apply Hw.
  - by apply Hw.
Qed.

Lemma bwf_upd s i x :
  bwf s → (i < NBUF)%nat → b_next x = b_next (nb i s) → b_prev x = b_prev (nb i s) →
  buf_ok s i x → bwf (upd i (λ _, x) s).
Proof.
  intros Hw Hi Hn Hp Hx. pose proof (bufs_len _ Hw) as Hlen.
  assert (∀ j, nb j (upd i (λ _, x) s) = if decide (j = i) then x else nb j s) as Hnb.
  { intros. apply nb_upd_cases. lia. }
  split.
  - destruct (bw_ring _ Hw) as [l Hl]. exists l. revert Hl. apply ring_frame; [apply length_upd| |];
      intros j; rw /nextf /prevf Hnb; by case_decide; subst.
  - intros j Hj. rw Hnb. case_decide; [by apply Hx|by apply Hw].
  - intros j k Hj Hk. rw !Hnb. case_decide as Hji; case_decide as Hki; subst; [done| | |].
    + intros H1 H2 H3. destruct (bo_uniq _ _ _ Hx k); congruence.
    + intros H1 H2 H3. destruct (bo_uniq _ _ _ Hx j); congruence.
    + by apply Hw.
  - intros j Hj. rw Hnb. case_decide; [intros; by apply Hx|by apply Hw].
  - intros j Hj. rw Hnb. case_decide; [intros; by apply Hx|by apply Hw].
  - intros j Hj. rw Hnb. case_decide; [by apply Hx|by apply Hw].
  - intros j Hj. rw Hnb. case_decide; [by apply Hx|by apply Hw].
  - apply Hw.
Qed.

(** The view after the update of one buffer: its own block shows its data;
    another block does not change, provided the buffer was not its only
    up-to-date copy. *)
Lemma bview_upd s i x b :
  bwf s → bwf (upd i (λ _, x) s) → (i < NBUF)%nat → b_flags x ≠ 0 → b_dev x = 1 →
  (b ≠ b_blockno x → caches s b i = true → b_data (nb i s) = memdisk (bs_disk s) !!! b) →
  bview (upd i (λ _, x) s) b = if decide (b = b_blockno x) then b_data x else bview s b.
Proof.
  intros Hw Hw' Hi Hf Hd Hev. pose proof (bufs_len _ Hw) as Hlen.
  assert (∀ j, nb j (upd i (λ _, x) s) = if decide (j = i) then x else nb j s) as Hnb.
  { intros. apply nb_upd_cases. lia. }
  case_decide as Hb.
  - rw (bview_hit _ _ i Hw' Hi); [|by rw Hnb decide_True].
    apply caches_spec. by rw Hnb decide_True.
  - assert (caches (upd i (λ _, x) s) b i = false) as Hci.
    { apply not_true_iff_false. rw caches_spec Hnb decide_True //. naive_solver. }
    assert (∀ j, j ≠ i → caches (upd i (λ _, x) s) b j = caches s b j) as Hcj.
    { intros j Hj. by rw /caches Hnb decide_False. }
    destruct (caches s b i) eqn:Hc.
    + rw (bview_hit _ _ i Hw Hi Hc) Hev //. apply (bview_miss (upd i _ s)). intros j Hj.
      destruct (decide (j = i)) as [->|Hji]; [done|]. rw Hcj //.
      apply not_true_iff_false. intros Hcc. apply Hji.
      apply caches_spec in Hc as (? & ? & ?), Hcc as (? & ? & ?). apply (bw_uniq _ Hw); congruence.
    + apply bview_ext; [|done]. intros j Hj. destruct (decide (j = i)) as [->|Hji].
      * rw Hci Hc. done.
      * rw Hcj // Hnb decide_False //.
Qed.

(** ** What the cache promises

    The cache as its clients see it: the contents of every block, the disk,
    the blocks the process has locked (by buffer) and the pinned blocks, which
    are only in memory. *)
Record cache := mkCache {
  ca_view : gmap Z (list Z);
  ca_disk : disk;
  ca_held : gmap nat Z;
  ca_dirty : gset Z;
}.

Definition a_hold (i : nat) (b : Z) (a : cache) : cache :=
  mkCache (ca_view a) (ca_disk a) (<[i := b]> (ca_held a)) (ca_dirty a).
Definition a_unhold (i : nat) (a : cache) : cache :=
  mkCache (ca_view a) (ca_disk a) (delete i (ca_held a)) (ca_dirty a).
Definition a_put (b : Z) (d : list Z) (a : cache) : cache :=
  mkCache (<[b := d]> (ca_view a)) (ca_disk a) (ca_held a) (ca_dirty a).
Definition a_pin (b : Z) (a : cache) : cache :=
  mkCache (ca_view a) (ca_disk a) (ca_held a) ({[b]} ∪ ca_dirty a).
Definition a_flush (b : Z) (a : cache) : cache :=
  mkCache (ca_view a) (dwrite b (ca_view a !!! b) (ca_disk a)) (ca_held a) (ca_dirty a ∖ {[b]}).

(** The refinement relation, for a cache only the running process uses. *)
Record brepr (s : bst) (a : cache) : Prop := {
  br_wf : bwf s;
  br_locks : c_locks (bs_core s) = [];
  br_disk : ca_disk a = bs_disk s;
  br_view b : 0 ≤ b < disksize (bs_disk s) → ca_view a !! b = Some (bview s b);
  br_held i b : ca_held a !! i = Some b →
    (i < NBUF)%nat ∧ sl_locked (b_lock (nb i s)) ≠ 0 ∧ b_refcnt (nb i s) = 1 ∧
    b_flags (nb i s) ≠ 0 ∧ b_blockno (nb i s) = b;
  br_free i : (i < NBUF)%nat → ca_held a !! i = None →
    sl_locked (b_lock (nb i s)) = 0 ∧ b_refcnt (nb i s) = 0;
  br_dirty b : b ∈ ca_dirty a ↔ ∃ i, (i < NBUF)%nat ∧ b_flags (nb i s) = 6 ∧ b_blockno (nb i s) = b;
}.

(** Room for one more block in the cache. *)
Definition ca_room (a : cache) : Prop := (size (ca_dirty a) + size (ca_held a) < NBUF)%nat.

Lemma view_bview s a b :
  brepr s a → 0 ≤ b < disksize (bs_disk s) → ca_view a !!! b = bview s b.
Proof. intros Hr Hb. by apply lookup_total_correct, (br_view _ _ Hr). Qed.

Lemma held_caches s a i b :
  brepr s a → ca_held a !! i = Some b → caches s b i = true.
Proof.
  intros Hr (Hi & _ & _ & Hf & Hb)%(br_held _ _ Hr). apply caches_spec. split_and!; [|done|done].
  by apply (br_wf _ _ Hr).
Qed.

(** A held buffer gives access to its block. *)
Lemma bdata_ok s a i b :
  brepr s a → ca_held a !! i = Some b →
  bdata i s = ca_view a !!! b ∧ 0 ≤ b < disksize (ca_disk a) ∧ b_blockno (nb i s) = b.
Proof.
  intros Hr Hh. pose proof (br_held _ _ Hr _ _ Hh) as (Hi & _ & _ & Hf & <-).
  pose proof (bw_dev _ (br_wf _ _ Hr) i Hi Hf) as [_ Hb]. rw (br_disk _ _ Hr). split; [|done].
  rw (view_bview s) //. rw (bview_hit _ _ i (br_wf _ _ Hr)) //.
  by apply (held_caches _ a).
Qed.

Lemma view_blk s a b :
  brepr s a → 0 ≤ b < disksize (ca_disk a) → blk (ca_view a !!! b).
Proof.
  intros Hr Hb. pose proof (br_wf _ _ Hr) as Hw. rw (br_disk _ _ Hr) in Hb. rw (view_bview s) //.
  rw /bview. destruct (List.find _ _) as [j|] eqn:Hf; [|by apply Hw].
  apply List.find_some in Hf as [Hj%in_seq Hc]. apply caches_spec in Hc as (_ & _ & ?).
  apply Hw; [lia|done].
Qed.

Lemma ca_room_empty v d : ca_room (mkCache v d ∅ ∅).
Proof. apply (Nat.lt_0_succ 29). Qed.

(** Splitting a list by a predicate. *)
Lemma length_filter_split {A} (P : A → Prop) `{!∀ x, Decision (P x)} (l : list A) :
  (length (filter P l) + length (filter (λ x, ¬ P x) l) = length l)%nat.
Proof.
  induction l as [|x l IH]; [done|]. rw !filter_cons. destruct (decide (P x)).
  - rw decide_False; [naive_solver|]. simpl. lia.
  - rw decide_True //. simpl. lia.
Qed.

(** Counting: when there is room, some buffer is neither used nor pinned. *)
Lemma room_free s a :
  brepr s a → ca_room a → ∃ i, (i < NBUF)%nat ∧ b_refcnt (nb i s) = 0 ∧ b_flags (nb i s) ≠ 6.
Proof.
  intros Hr Hroom. pose proof (br_wf _ _ Hr) as Hw.
  destruct (decide (Exists (λ i, ca_held a !! i = None ∧ b_flags (nb i s) ≠ 6) (seq 0 NBUF))) as [He|He].
  { apply list.Exists_exists in He as (i & Hi%elem_of_seq & Hn & Hf). exists i.
    split_and!; [lia| |done]. apply (br_free _ _ Hr); [lia|done]. }
  apply not_Exists_Forall in He; [|apply _]. exfalso. rw /ca_room in Hroom.
  pose proof (length_filter_split (λ i, is_Some (ca_held a !! i)) (seq 0 NBUF)) as H3.
  rw length_seq in H3.
  set (L1 := filter (λ i, is_Some (ca_held a !! i)) (seq 0 NBUF)) in H3.
  set (L2 := filter (λ i, ¬ is_Some (ca_held a !! i)) (seq 0 NBUF)) in H3.
  assert (length L1 ≤ size (ca_held a))%nat as H1.
  { rw -size_dom -(size_list_to_set (C:=gset nat) L1); [apply list.NoDup_filter, NoDup_seq|].
    apply subseteq_size. intros i. rw elem_of_list_to_set list_elem_of_filter elem_of_dom. by intros [? _]. }
  assert (∀ i, i ∈ L2 → (i < NBUF)%nat ∧ b_flags (nb i s) = 6) as HL2.
  { intros i [Hn Hi]%list_elem_of_filter. pose proof Hi as Hi'%elem_of_seq. split; [lia|].
    rw list.Forall_forall in He. specialize (He i Hi). destruct (decide (b_flags (nb i s) = 6)); [done|].
    destruct He. split; [|done]. by apply eq_None_not_Some. }
  assert (length L2 ≤ size (ca_dirty a))%nat as H2; [|lia].
  rw -(length_fmap (λ i, b_blockno (nb i s)) L2).
  rw -(size_list_to_set (C:=gset Z) ((λ i, b_blockno (nb i s)) <$> L2)).
  - apply (NoDup_fmap_2_strong (λ i, b_blockno (nb i s)) L2); [|apply list.NoDup_filter, NoDup_seq].
    intros i j [Hi Hfi]%HL2 [Hj Hfj]%HL2 Hb.
    apply (bw_uniq _ Hw); [done|done| | |done]; [apply Hw; [done|congruence]|].
    transitivity 1; [|symmetry]; apply Hw; congruence.
  - apply subseteq_size. intros b. rw elem_of_list_to_set list_elem_of_fmap.
    intros (i & -> & [? ?]%HL2). apply (br_dirty _ _ Hr). by exists i.
Qed.

(** Locking a buffer for block [b]. *)
Lemma hold_repr s a i b x :
  brepr s a → ca_held a !! i = None → (i < NBUF)%nat → 0 ≤ b < disksize (bs_disk s) →
  b_next x = b_next (nb i s) → b_prev x = b_prev (nb i s) →
  b_dev x = 1 → b_blockno x = b → sl_locked (b_lock x) ≠ 0 → b_refcnt x = 1 →
  b_data x = bview s b →
  (∀ j, (j < NBUF)%nat → j ≠ i → ¬ (b_dev (nb j s) = 1 ∧ b_blockno (nb j s) = b)) →
  (b_flags x = 6 ∧ b_flags (nb i s) = 6 ∧ b_blockno (nb i s) = b) ∨ (b_flags x = 2 ∧ b_flags (nb i s) ≠ 6) →
  brepr (upd i (λ _, x) s) (a_hold i b a).
Proof.
  intros Hr Hh Hi Hb Hn Hp Hd Hbn Hlk Href Hdata Huniq Hf. pose proof (br_wf _ _ Hr) as Hw.
  pose proof (bufs_len _ Hw) as Hlen.
  assert (b_flags x ≠ 0) as Hf0 by (destruct Hf as [(? & _ & _)|[? _]]; congruence).
  assert (bwf (upd i (λ _, x) s)) as Hw'.
  { apply bwf_upd; [done..|]. split; [naive_solver| | |lia|lia].
    - intros j Hj Hji _ Hdj. rw Hbn. naive_solver.
    - intros _. rw Hdata Hbn. split; [|done]. rw -(view_bview s a) //.
      apply (view_blk s); [done|]. by rw (br_disk _ _ Hr). }
  assert (∀ j, nb j (upd i (λ _, x) s) = if decide (j = i) then x else nb j s) as Hnb.
  { intros. apply nb_upd_cases. lia. }
  split; simpl; [done|apply Hr|apply Hr| | | |].
  - intros b' Hb'. rw (br_view _ _ Hr) // (bview_upd s) //.
    + intros Hne (_ & Hbo & Ho)%caches_spec. rw -Hbo. apply Hw; [done| |by apply (br_free _ _ Hr)].
      destruct Hf as [(? & ? & ?)|[_ ?]]; [congruence|]. by destruct (bw_flags _ Hw i Hi) as [?|[?|?]].
    + case_decide; congruence.
  - intros j c [[<- <-]|[Hij Hj]]%lookup_insert_Some; rw Hnb.
    + rw decide_True //.
    + rw decide_False //. by apply (br_held _ _ Hr).
  - intros j Hj. rw lookup_insert_None. intros [? ?]. rw Hnb decide_False //. by apply (br_free _ _ Hr).
  - intros c. rw (br_dirty _ _ Hr). split; intros (j & Hj & Hfj & Hbj).
    + destruct (decide (j = i)) as [->|Hne].
      * exists i. rw Hnb decide_True //. destruct Hf as [(? & ? & ?)|[? ?]]; [|done]. split_and!; congruence.
      * exists j. by rw Hnb decide_False.
    + rw Hnb in Hfj. rw Hnb in Hbj. case_decide; [subst j|by exists j].
      exists i. destruct Hf as [(? & ? & ?)|[? ?]]; [|congruence]. split_and!; congruence.
Qed.

Lemma bread_ok s a b :
  brepr s a → 0 ≤ b < disksize (ca_disk a) → (∀ i, ca_held a !! i ≠ Some b) →
  b ∈ ca_dirty a ∨ ca_room a →
  total (bread 1 b) s (λ i s',
    ca_held a !! i = None ∧ brepr s' (a_hold i b a) ∧ bs_core s' = bs_core s).
Proof.
  intros Hr Hb Hnh Hroom. pose proof (br_wf _ _ Hr) as Hw. rw (br_disk _ _ Hr) in Hb.
  pose proof (bufs_len _ Hw) as Hlen.
  assert (∀ l : lockid, l ∉ c_locks (bs_core s)) as Hnl by (intros l; rw (br_locks _ _ Hr); apply not_elem_of_nil).
  assert (∀ i, (i < NBUF)%nat → b_refcnt (nb i s) = 0 → ca_held a !! i = None) as Hfree.
  { intros i Hi H0. destruct (ca_held a !! i) eqn:E; [|done]. apply (br_held _ _ Hr) in E. naive_solver lia. }
  destruct (bget_run s b) as (i & x & Hget & Hi & Href & Hx); [done|apply Hr| | | |].
  - intros i Hi Hdi Hbi. destruct (ca_held a !! i) eqn:E; [|by apply (br_free _ _ Hr)].
    destruct (Hnh i). apply (br_held _ _ Hr) in E as Hbn. naive_solver.
  - intros i Hi H0. apply (br_free _ _ Hr); auto.
  - destruct Hroom as [(i & Hi & Hf & Hbi)%(br_dirty _ _ Hr)|Hroom]; [left|right; by apply (room_free s a)].
    exists i. split_and!; [done| |done]. apply Hw; [done|congruence].
  - exists i. rw /bread (run_bind _ _ _ _ _ Hget) run_gets nb_const; [lia|].
    assert (∀ j, (j < NBUF)%nat → j ≠ i → ¬ (b_dev (nb j s) = 1 ∧ b_blockno (nb j s) = b)) as Hoth.
    { intros j Hj Hji [? ?]. destruct Hx as [(? & ? & _)|(Hno & _)]; [|naive_solver].
      apply Hji, (bw_uniq _ Hw); congruence. }
    assert (b_next x = b_next (nb i s) ∧ b_prev x = b_prev (nb i s) ∧ b_dev x = 1 ∧ b_blockno x = b ∧
      sl_locked (b_lock x) ≠ 0 ∧ b_refcnt x = 1) as (Hn & Hp & Hd & Hbn & Hlk & Hrx).
    { by destruct Hx as [(? & ? & ->)|(_ & _ & ->)]. }
    assert (b_flags x = 0 ∧ b_flags (nb i s) ≠ 6 ∧ bview s b = memdisk (bs_disk s) !!! b ∨
      b_flags x ≠ 0 ∧ b_flags x = b_flags (nb i s) ∧ b_blockno (nb i s) = b ∧ b_data x = bview s b) as [(H0 & Hf6 & Hv)|(H0 & Hfx & Hbi & Hv)].
    { destruct Hx as [(Hdi & Hbi & ->)|(Hno & Hf & ->)]; simpl.
      - destruct (decide (b_flags (nb i s) = 0)) as [Hz|Hz]; [left|right].
        + split_and!; [done|congruence|]. apply bview_miss. intros j Hj. apply not_true_iff_false.
          rw caches_spec. intros (? & ? & ?). destruct (decide (j = i)); naive_solver.
        + split_and!; [done..|]. rw (bview_hit _ _ i Hw Hi) //. by apply caches_spec.
      - left. split_and!; [done..|]. apply bview_miss. intros j Hj. apply not_true_iff_false.
        rw caches_spec. naive_solver. }
    + assert (iderw i (upd i (λ _, x) s) =
        Ret tt (upd i (λ _, with_flags 2 (with_data (memdisk (bs_disk s) !!! b) x)) s)) as Hrd.
      { rw iderw_read_run ?upd_upd ?length_upd ?nb_const ?Hbn //; try lia; apply Hb. }
      rw H0 /when /= (run_bind _ _ _ _ _ Hrd). eexists. split; [done|].
      split_and!; [by apply Hfree| |done]. apply hold_repr; auto.
    + assert (Z.land (b_flags x) B_VALID =? 0 = false) as ->.
      { rw Hfx. rw Hfx in H0. by destruct (bw_flags _ Hw i Hi) as [? | [-> | ->]]. }
      eexists. split; [done|]. split_and!; [by apply Hfree| |done]. apply hold_repr; auto.
      destruct (bw_flags _ Hw i Hi) as [?|[Hf|Hf]]; [congruence|right|left]; split_and!; congruence.
Qed.

(** Changing the data and the flags of a held buffer. *)
Lemma held_repr s a i b x :
  brepr s a → ca_held a !! i = Some b →
  b_next x = b_next (nb i s) → b_prev x = b_prev (nb i s) → b_dev x = b_dev (nb i s) →
  b_blockno x = b → b_lock x = b_lock (nb i s) → b_refcnt x = b_refcnt (nb i s) →
  b_flags x = 2 ∨ b_flags x = 6 → blk (b_data x) →
  brepr (upd i (λ _, x) s) (mkCache (<[b := b_data x]> (ca_view a)) (ca_disk a) (ca_held a)
    (if b_flags x =? 6 then {[b]} ∪ ca_dirty a else ca_dirty a ∖ {[b]})).
Proof.
  intros Hr Hh Hn Hp Hd Hbn Hlk Href Hf Hdata. pose proof (br_wf _ _ Hr) as Hw.
  pose proof (bufs_len _ Hw) as Hlen. pose proof (br_held _ _ Hr _ _ Hh) as (Hi & Hl & Hr1 & Hf0 & Hb).
  pose proof (bw_dev _ Hw _ Hi Hf0) as [Hd1 Hrange].
  assert (bwf (upd i (λ _, x) s)) as Hw'.
  { apply bwf_upd; [done..|]. split; [naive_solver| | |lia|lia].
    - intros j Hj Hji _ Hdj Hbj. apply Hji, (bw_uniq _ Hw); congruence.
    - intros _. split_and!; [done|congruence|lia|lia]. }
  assert (∀ j, nb j (upd i (λ _, x) s) = if decide (j = i) then x else nb j s) as Hnb.
  { intros. apply nb_upd_cases. lia. }
  split; simpl; [done|apply Hr|apply Hr| | | |].
  - intros b' Hb'. rw (bview_upd s); [done|done|done|lia|lia| |].
    + intros Hne (_ & Hbo & Ho)%caches_spec. congruence.
    + rw Hbn. destruct (decide (b' = b)) as [->|].
      * by rw lookup_insert_eq.
      * rw lookup_insert_ne //. by apply Hr.
  - intros j c Hj. pose proof (br_held _ _ Hr _ _ Hj). rw Hnb. case_decide; [subst j|done].
    split_and!; try lia; [congruence..|]. rw Hh in Hj. congruence.
  - intros j Hj Hjn. rw Hnb. case_decide; [congruence|]. by apply (br_free _ _ Hr).
  - intros c. transitivity (c = b ∧ b_flags x = 6 ∨ c ≠ b ∧ c ∈ ca_dirty a).
    { destruct Hf as [->|Hf]; [simpl; set_solver|]. rw Hf /=. destruct (decide (c = b)); set_solver. }
    rw (br_dirty _ _ Hr). split.
    + intros [[-> H6]|(Hcb & j & Hj & Hfj & Hbj)]; [exists i|exists j]; rw Hnb.
      * by rw decide_True.
      * rw decide_False //. congruence.
    + intros (j & Hj & Hfj & Hbj). rw Hnb in Hfj. rw Hnb in Hbj. case_decide as Hji; [naive_solver|].
      right. split; [|by exists j]. intros ->. apply Hji, (bw_uniq _ Hw); try congruence.
      * apply Hw; [done|congruence].
      * rw Hd1. apply Hw; [done|congruence].
Qed.

Lemma cache_eta a : mkCache (ca_view a) (ca_disk a) (ca_held a) (ca_dirty a) = a.
Proof. by destruct a. Qed.

Lemma set_bdata_ok s a i b d :
  brepr s a → ca_held a !! i = Some b → blk d →
  total (set_bdata i d) s (λ _ s', brepr s' (a_put b d a) ∧ bs_core s' = bs_core s).
Proof.
  intros Hr Hh Hd. apply total_modify. split; [|done].
  pose proof (br_held _ _ Hr _ _ Hh) as (Hi & _ & _ & Hf0 & Hb).
  rw (upd_ext i _ (λ _, with_data d (nb i s))) //.
  destruct (bw_flags _ (br_wf _ _ Hr) i Hi) as [?|Hf]; [done|].
  pose proof (held_repr s a i b (with_data d (nb i s)) Hr Hh) as H. simpl in H.
  rw /a_put. rw (_ : ca_dirty a = if b_flags (nb i s) =? 6 then {[b]} ∪ ca_dirty a else ca_dirty a ∖ {[b]}).
  - destruct Hf as [Hf|Hf]; rw Hf /=; symmetry; apply leibniz_equiv.
    + assert (b ∉ ca_dirty a); [|set_solver]. rw (br_dirty _ _ Hr). intros (j & Hj & Hfj & Hbj).
      assert (i = j); [|congruence]. pose proof (br_wf _ _ Hr) as Hw. apply (bw_uniq _ Hw); try congruence.
      * by apply Hw.
      * transitivity 1; [by apply Hw|symmetry; apply Hw; [done|congruence]].
    + assert (b ∈ ca_dirty a); [|set_solver]. apply (br_dirty _ _ Hr). eauto.
  - apply H; auto.
Qed.

(** Storing what a held buffer already shows. *)
Lemma bdata_insert s a i b :
  brepr s a → ca_held a !! i = Some b → <[b := b_data (nb i s)]> (ca_view a) = ca_view a.
Proof.
  intros Hr Hh. pose proof (bdata_ok _ _ _ _ Hr Hh) as (Hv & Hb & _). rw /bdata in Hv. rw Hv.
  rw (br_disk _ _ Hr) in Hb. apply insert_id. by rw (view_bview s) // (br_view _ _ Hr).
Qed.

Lemma pin_ok s a i b :
  brepr s a → ca_held a !! i = Some b →
  total (pin i) s
    (λ _ s', brepr s' (a_pin b a) ∧ bs_core s' = bs_core s).
Proof.
  intros Hr Hh. apply total_modify. split; [|done].
  pose proof (br_held _ _ Hr _ _ Hh) as (Hi & _ & _ & Hf0 & Hb). pose proof (br_wf _ _ Hr) as Hw.
  rw (upd_ext i _ (λ _, with_flags 6 (nb i s))).
  { by destruct (bw_flags _ Hw i Hi) as [? | [-> | ->]]. }
  pose proof (held_repr s a i b (with_flags 6 (nb i s)) Hr Hh) as H. simpl in H.
  pose proof (bdata_ok _ _ _ _ Hr Hh) as [Hv _]. rw /bdata in Hv.
  rw (bdata_insert _ _ _ _ Hr Hh) in H. apply H; auto. by apply Hw.
Qed.

(** Writing the block of a held buffer to the disk. *)
Lemma dwrite_repr s a i b :
  brepr s a → ca_held a !! i = Some b →
  brepr (set_disk (dwrite b (bdata i s) (bs_disk s)) s)
    (mkCache (ca_view a) (dwrite b (ca_view a !!! b) (ca_disk a)) (ca_held a) (ca_dirty a)).
Proof.
  intros Hr Hh. pose proof (br_held _ _ Hr _ _ Hh) as (Hi & Hl & Hr1 & Hf0 & Hb).
  pose proof (bdata_ok _ _ _ _ Hr Hh) as (Hv & Hrange & _). pose proof (br_wf _ _ Hr) as Hw.
  set (s' := set_disk _ s). assert (∀ j, nb j s' = nb j s) as Hnb by done.
  assert (bwf s') as Hw'.
  { split; [|apply Hw|apply Hw|apply Hw|apply Hw|apply Hw| |].
    - destruct (bw_ring _ Hw) as [l Hring]. exists l. revert Hring. by apply ring_frame.
    - intros j Hj. rw Hnb /=. intros Hf Href. rw lookup_total_insert_ne; [|by apply Hw].
      intros Hbj. assert (i = j); [|subst; congruence].
      apply (bw_uniq _ Hw); try congruence; [by apply Hw|].
      transitivity 1; [by apply Hw|symmetry; apply Hw; congruence].
    - intros c Hc. simpl. destruct (decide (b = c)) as [->|].
      + rw lookup_total_insert_eq. by apply Hw.
      + rw lookup_total_insert_ne //. by apply Hw. }
  split; simpl; [done|apply Hr| | |apply Hr|apply Hr|apply Hr].
  - by rw (br_disk _ _ Hr) Hv.
  - intros c Hc. rw (br_view _ _ Hr) //. f_equal. rw /bview.
    destruct (decide (b = c)) as [->|].
    + pose proof (held_caches _ _ _ _ Hr Hh) as Hcc.
      assert (caches s' c = caches s c) as -> by done.
      destruct (List.find _ _) as [j|] eqn:Hf; [done|].
      eapply List.find_none in Hf; [|apply in_seq; split; [lia|apply Hi]]. congruence.
    + assert (caches s' c = caches s c) as -> by done.
      destruct (List.find _ _) as [j|] eqn:Hf; [done|]. simpl. by rw lookup_total_insert_ne.
Qed.

Lemma bwrite_ok s a i b :
  brepr s a → ca_held a !! i = Some b →
  total (bwrite i) s (λ _ s', brepr s' (a_flush b a) ∧ bs_core s' = bs_core s).
Proof.
  intros Hr Hh. pose proof (br_held _ _ Hr _ _ Hh) as (Hi & Hl & Hr1 & Hf0 & Hb).
  pose proof (br_wf _ _ Hr) as Hw. pose proof (bufs_len _ Hw) as Hlen.
  pose proof (bw_dev _ Hw _ Hi Hf0) as [Hd Hrange].
  assert (LSleep (SLBuf i) ∉ c_locks (bs_core s)) as Hnl by (rw (br_locks _ _ Hr); apply not_elem_of_nil).
  rw /total /bwrite (run_bind _ _ _ _ _ (holding_buf_run s i Hnl)).
  destruct (Z.eqb_spec (sl_locked (b_lock (nb i s))) 0); [done|]. rw run_modify.
  rw (upd_ext i _ (λ _, with_flags 6 (nb i s))).
  { by destruct (bw_flags _ Hw i Hi) as [? | [-> | ->]]. }
  rw iderw_write_run ?length_upd ?nb_const /= //; try lia.
  eexists _, _. split; [done|]. split; [|done]. rw upd_upd /= Hb.
  pose proof (held_repr s a i b (with_flags 2 (nb i s)) Hr Hh) as H. simpl in H.
  rw (bdata_insert _ _ _ _ Hr Hh) in H.
  pose proof (dwrite_repr (upd i (λ _, with_flags 2 (nb i s)) s) _ i b (H ltac:(auto) ltac:(auto) ltac:(auto) ltac:(auto) ltac:(auto) ltac:(auto) ltac:(auto) ltac:(by apply Hw))) as H2.
  rw /bdata nb_const in H2; [lia|]. simpl in H2. by apply H2.
Qed.

(** The refinement relation does not look at the order of the list, nor at
    the process table. *)
Lemma brepr_links s s' a :
  links_only s s' → (∃ l, ring s' l) → brepr s a → brepr s' a.
Proof.
  intros [Hc Hd Hlen Hpay] Hring Hr. pose proof (br_wf _ _ Hr) as Hw.
  pose proof (λ j, f_equal (λ p, p.1.1.1.1.1) (Hpay j)) as Ef. pose proof (λ j, f_equal (λ p, p.1.1.1.1.2) (Hpay j)) as Ed.
  pose proof (λ j, f_equal (λ p, p.1.1.1.2) (Hpay j)) as Eb. pose proof (λ j, f_equal (λ p, p.1.1.2) (Hpay j)) as El.
  pose proof (λ j, f_equal (λ p, p.1.2) (Hpay j)) as Er. pose proof (λ j, f_equal (λ p, p.2) (Hpay j)) as Ex.
  simpl in *.
  assert (∀ b, bview s' b = bview s b) as Hv.
  { intros b. apply bview_ext; [|by rw Hd]. intros i Hi. by rw /caches Ed Eb Ef Ex. }
  split.
  - split; [done|..]; [intros i|intros i j|intros i..|]; rw ?Ef ?Ed ?Eb ?El ?Er ?Ex ?Hd; apply Hw.
  - rw Hc. apply Hr.
  - rw Hd. apply Hr.
  - intros b. rw Hd Hv. apply Hr.
  - intros i b. rw Ef Eb El Er. apply Hr.
  - intros i. rw El Er. apply Hr.
  - intros b. rw (br_dirty _ _ Hr). split; intros (i & Hi & H1 & H2); exists i;
      specialize (Ef i); specialize (Eb i); split_and!; congruence.
Qed.

Lemma brepr_core s a c : c_locks c = [] → brepr s a → brepr (lset c s) a.
Proof.
  intros Hc Hr. pose proof (br_wf _ _ Hr) as Hw. split; [|done|apply Hr..].
  split; [|apply Hw..]. destruct (bw_ring _ Hw) as [l Hl]. exists l. revert Hl. by apply ring_frame.
Qed.

(** Unlocking a buffer that is pinned, or agrees with the disk. *)
Lemma unhold_repr s a i b x :
  brepr s a → ca_held a !! i = Some b →
  b ∈ ca_dirty a ∨ ca_view a !!! b = memdisk (ca_disk a) !!! b →
  x = with_lock sleeplock0 (with_refcnt 0 (nb i s)) →
  brepr (upd i (λ _, x) s) (a_unhold i a).
Proof.
  intros Hr Hh Hcl Hx. pose proof (br_wf _ _ Hr) as Hw. pose proof (bufs_len _ Hw) as Hlen.
  pose proof (br_held _ _ Hr _ _ Hh) as (Hi & Hl & Hr1 & Hf0 & Hb).
  pose proof (bw_dev _ Hw _ Hi Hf0) as [Hd1 Hrange].
  pose proof (bdata_ok _ _ _ _ Hr Hh) as (Hv & _ & _). rw /bdata in Hv.
  pose proof (bwf_buf_ok _ _ Hw Hi) as Hok.
  assert (bwf (upd i (λ _, x) s)) as Hw'.
  { apply bwf_upd; [done|done|by subst x..|]. subst x. split; simpl; [apply Hok|apply Hok|apply Hok|done|].
    intros Hf2 _. rw Hv Hb. destruct Hcl as [(j & Hj & Hf6 & Hbj)%(br_dirty _ _ Hr)| ->]; [|by rw (br_disk _ _ Hr)].
    assert (i = j); [|congruence]. apply (bw_uniq _ Hw); try congruence.
    rw Hd1. symmetry. apply Hw; congruence. }
  assert (∀ j, nb j (upd i (λ _, x) s) = if decide (j = i) then x else nb j s) as Hnb.
  { intros. apply nb_upd_cases. lia. }
  split; simpl; [done|apply Hr|apply Hr| | | |].
  - intros c Hc. rw (bview_upd s); [done|done|done|by subst x|by subst x| |].
    + intros Hne (_ & Hbo & Ho)%caches_spec. subst x. simpl in Hne. congruence.
    + rw (br_view _ _ Hr) //. f_equal. case_decide as Hcb; [|done]. subst x c. simpl in *.
      rw Hb -(view_bview s a) //. by rw -Hb.
  - intros j c [Hij Hj]%lookup_delete_Some. rw Hnb decide_False //. by apply (br_held _ _ Hr).
  - intros j Hj Hjn. rw Hnb. case_decide; [by subst x|]. apply (br_free _ _ Hr); [done|].
    apply lookup_delete_None in Hjn as [?|?]; congruence.
  - intros c. rw (br_dirty _ _ Hr). split; intros (j & Hj & Hfj & Hbj); exists j; revert Hfj Hbj;
      rw Hnb; case_decide; by subst.
Qed.

Lemma brelse_ok s a i b :
  brepr s a → ca_held a !! i = Some b →
  b ∈ ca_dirty a ∨ ca_view a !!! b = memdisk (ca_disk a) !!! b →
  total (brelse i) s (λ _ s', brepr s' (a_unhold i a) ∧ core_le (bs_core s) (bs_core s')).
Proof.
  intros Hr Hh Hcl. pose proof (br_wf _ _ Hr) as Hw. pose proof (bufs_len _ Hw) as Hlen.
  pose proof (br_held _ _ Hr _ _ Hh) as (Hi & Hl & Hr1 & Hf0 & Hb).
  assert (∀ l : lockid, l ∉ c_locks (bs_core s)) as Hnl by (intros l; rw (br_locks _ _ Hr); apply not_elem_of_nil).
  rw /total /brelse (run_bind _ _ _ _ _ (holding_buf_run s i (Hnl _))).
  destruct (Z.eqb_spec (sl_locked (b_lock (nb i s))) 0); [done|].
  rw (run_bind _ _ _ _ _ (release_buf_run s i (br_locks _ _ Hr))).
  set (c := set_procs _ (bs_core s)). set (s1 := lset c _).
  assert (∀ l : lockid, l ∉ c_locks c) as Hnl' by apply Hnl.
  rw (run_bind _ _ _ _ _ (acquire_bst_run s1 _ (Hnl' LBcache))) run_modify run_gets.
  set (y := with_lock sleeplock0 (with_refcnt 0 (nb i s))).
  assert (upd i (λ x, with_refcnt (u32 (b_refcnt x - 1)) x) s1 = lset c (upd i (λ _, y) s)) as He.
  { rw /s1. change (upd i ?f (lset c ?z)) with (lset c (upd i f z)). f_equal. rw upd_upd. apply upd_ext.
    rw /y /= Hr1. done. }
  set (c' := set_locks _ (bs_core s1)).
  change (upd i _ (mkBst c' (bs_bufs s1) (bs_disk s1))) with
    (lset c' (upd i (λ x, with_refcnt (u32 (b_refcnt x - 1)) x) s1)).
  rw He lset_lset. change (b_refcnt (nb i (lset c' ?z))) with (b_refcnt (nb i z)).
  rw nb_const /=; [lia|]. rw run_modify.
  change (move_to_front i (mkBst c' ?b ?d)) with (lset c' (move_to_front i (upd i (λ _, y) s))).
  pose proof (release_bst_run c LBcache (bs_bufs (move_to_front i (upd i (λ _, y) s)))
    (bs_disk (move_to_front i (upd i (λ _, y) s))) (Hnl' _)) as Hrel.
  eexists _, _. split; [exact Hrel|]. split; [|apply wakeup_le].
  change (mkBst c _ _) with (lset c (move_to_front i (upd i (λ _, y) s))).
  apply brepr_core; [apply Hr|]. pose proof (unhold_repr s a i b y Hr Hh Hcl eq_refl) as Hu.
  destruct (bw_ring _ (br_wf _ _ Hu)) as [l Hring].
  assert (i ∈ l) as Hil by (by apply (ring_elem _ _ _ Hring)).
  apply list_elem_of_split in Hil as (l1 & l2 & ->).
  destruct (move_to_front_ring _ _ _ _ Hring) as [Hring' Hlo].
  by eapply brepr_links; [|eexists|].
Qed.

(** A block nobody has locked is pinned or agrees with the disk. *)
Lemma repr_sync s a b :
  brepr s a → 0 ≤ b < disksize (ca_disk a) → (∀ i, ca_held a !! i ≠ Some b) →
  b ∈ ca_dirty a ∨ ca_view a !!! b = memdisk (ca_disk a) !!! b.
Proof.
  intros Hr Hb Hh. rw (br_disk _ _ Hr) in Hb |- *. rw (view_bview s) // /bview.
  destruct (List.find _ _) as [i|] eqn:Hf; [|by right].
  apply List.find_some in Hf as [Hi%in_seq Hc]. apply caches_spec in Hc as (Hd & Hbi & Hf0).
  destruct (ca_held a !! i) as [b'|] eqn:Hhi.
  { destruct (Hh i). rw Hhi. apply (br_held _ _ Hr) in Hhi. by destruct Hhi as (_ & _ & _ & _ & <-); subst. }
  pose proof (br_wf _ _ Hr) as Hw.
  destruct (bw_flags _ Hw i ltac:(lia)) as [?|[H2|H6]]; [done|right|left].
  - rw -Hbi. apply Hw; [lia|done|]. apply (br_free _ _ Hr); [lia|done].
  - apply (br_dirty _ _ Hr). exists i. split_and!; [lia|done|done].
Qed.

(** ** Initialisation *)

(** The cache at boot: zeroed memory over a disk whose blocks are there. *)
Definition bst0 (c : core) (d : disk) : bst := mkBst c (replicate (S NBUF) buf0) d.

Definition disk_ok (d : disk) : Prop :=
  ∀ b, 0 ≤ b < disksize d → ∃ x, memdisk d !! b = Some x ∧ blk x.

(** Every update of [binit] keeps flags, device, block number, reference count
    and data. *)
Definition bkeep (b : buf) := (b_flags b, b_dev b, b_blockno b, b_refcnt b, b_data b).

Lemma binit_link_keep b s j : bkeep (nb j (binit_link b s)) = bkeep (nb j s).
Proof. rw /binit_link. cbv zeta. by rw !(nb_upd_field bkeep). Qed.

Lemma binit_loop_keep n s j :
  bkeep (nb j (foldl (λ s b, binit_link b s) s (seq 0 n))) = bkeep (nb j s).
Proof.
  induction n as [|n IH]; [done|]. rw seq_S foldl_app. cbn [foldl]. by rw binit_link_keep.
Qed.

Lemma nb_bst0 c d j : nb j (bst0 c d) = buf0.
Proof.
  rw /nb. change (bs_bufs (bst0 c d)) with (replicate (S NBUF) buf0).
  destruct (decide (j < S NBUF)%nat); [by rw lookup_total_replicate_2|].
  rw list_lookup_total_alt lookup_ge_None_2 //. rw length_replicate. lia.
Qed.

Lemma binit_ok c d :
  c_locks c = [] → disk_ok d →
  total binit (bst0 c d) (λ _ s', brepr s' (mkCache (memdisk d) d ∅ ∅) ∧ bs_core s' = c).
Proof.
  intros Hc Hd. rw /binit /total. rw run_modify run_modify upd_upd.
  set (s1 := upd HEAD _ (bst0 c d)).
  assert (length (bs_bufs s1) = S NBUF) as Hlen by (by rw /s1 length_upd).
  assert (nb HEAD s1 = with_next HEAD (with_prev HEAD buf0)) as Hh.
  { rw /s1 nb_upd_eq; [apply Nat.lt_succ_diag_r|by rw nb_bst0]. }
  destruct (binit_loop NBUF s1) as (H1 & H2 & H3 & H4 & H5 & H6); [done|done|by rw /nextf Hh|by rw /prevf Hh|].
  assert (∀ j, bkeep (nb j (foldl (λ s b, binit_link b s) s1 (seq 0 NBUF))) = bkeep buf0) as Hk.
  { intros j. etrans; [apply binit_loop_keep|]. etrans; [by apply (nb_upd_field bkeep)|]. by rw nb_bst0. }
  eexists _, _. split; [reflexivity|].
  generalize dependent (foldl (λ s b, binit_link b s) s1 (seq 0 NBUF)). intros s2 H1 H2 H3 H4 H5 H6 Hk.
  split; [|by rw H5].
  assert (∀ j, b_flags (nb j s2) = 0 ∧ b_dev (nb j s2) = 0 ∧ b_refcnt (nb j s2) = 0) as Hz.
  { intros j. pose proof (Hk j) as H. rw /bkeep in H. by injection H. }
  split; simpl.
  - split.
    + eexists. split; [exact H1|by rw reverse_involutive|apply reverse_Permutation|done].
    + intros j Hj. left. apply Hz.
    + intros i j Hi Hj Hdev. destruct (Hz i) as (_ & ? & _). congruence.
    + intros j Hj Hf. by destruct (Hz j).
    + intros j Hj Hf. by destruct (Hz j).
    + intros j Hj. destruct (Hz j) as (_ & _ & ->). rw H6 //.
    + intros j Hj Hf. destruct (Hz j); congruence.
    + rw H4. intros b (x & Hx & ?)%Hd. by rw (lookup_total_correct _ _ _ Hx).
  - by rw H5.
  - by rw H4.
  - rw H4 /=. intros b Hb. rw bview_miss.
    + intros i Hi. apply not_true_iff_false. rw caches_spec. destruct (Hz i). naive_solver.
    + rw H4 /=. destruct (Hd b Hb) as (x & Hx & _). by rw Hx (lookup_total_correct _ _ _ Hx).
  - done.
  - intros i Hi _. by rw H6 //; destruct (Hz i) as (_ & _ & ->).
  - intros b. split; [set_solver|]. intros (i & Hi & Hf & _). destruct (Hz i). congruence.
Qed.

(** ** The contract of the cache *)

(** What a client does with the cache. *)
Inductive cop :=
| ORead (b : Z)
| OWrite (i : nat) (d : list Z)
| OPin (i : nat)
| OFlush (i : nat)
| ORelse (i : nat).

Definition run_cop (o : cop) : M bst (option nat) :=
  match o with
  | ORead b => i ← bread 1 b; mret (Some i)
  | OWrite i d => set_bdata i d;; mret None
  | OPin i => pin i;; mret None
  | OFlush i => bwrite i;; mret None
  | ORelse i => brelse i;; mret None
  end.

(** When the client may do it. *)
Definition enabled (a : cache) (o : cop) : Prop :=
  match o with
  | ORead b => 0 ≤ b < disksize (ca_disk a) ∧ (∀ i, ca_held a !! i ≠ Some b) ∧ (b ∈ ca_dirty a ∨ ca_room a)
  | OWrite i d => is_Some (ca_held a !! i) ∧ blk d
  | OPin i | OFlush i => is_Some (ca_held a !! i)
  | ORelse i => ∃ b, ca_held a !! i = Some b ∧
      (b ∈ ca_dirty a ∨ ca_view a !!! b = memdisk (ca_disk a) !!! b)
  end.

(** What it does to the abstract cache, given the buffer the read returned. *)
Definition astep (a : cache) (o : cop) (r : option nat) : cache :=
  match o, r with
  | ORead b, Some i => a_hold i b a
  | OWrite i d, _ => a_put (ca_held a !!! i) d a
  | OPin i, _ => a_pin (ca_held a !!! i) a
  | OFlush i, _ => a_flush (ca_held a !!! i) a
  | ORelse i, _ => a_unhold i a
  | _, _ => a
  end.

(** C5: bio.c and memide.c implement the abstract cache: from any state that
    represents the abstract cache [a], an operation [a] permits returns, no
    panic and no lost wakeup, in a state that represents what the abstract
    operation gives; a read hands out a buffer nobody holds that shows the
    current contents of the block, and the shared kernel state changes by
    wakeups only. *)
Theorem bio_refines_cache s a o :
  brepr s a → enabled a o →
  total (run_cop o) s (λ r s',
    brepr s' (astep a o r) ∧ core_le (bs_core s) (bs_core s') ∧
    match o with
    | ORead b => ∃ i, r = Some i ∧ ca_held a !! i = None ∧ bdata i s' = ca_view a !!! b
    | _ => r = None
    end).
Proof.
  intros Hr He. destruct o as [b|i d|i|i|i]; simpl in He.
  - destruct He as (Hb & Hh & Hroom). eapply total_bind; [by apply (bread_ok s a)|].
    simpl. intros i s' (Hi & Hr' & Hc). apply total_ret. split_and!; [done|by rw Hc|].
    exists i. split_and!; [done|done|]. by destruct (bdata_ok s' _ i b Hr' (lookup_insert_eq _ _ _)) as [-> _].
  - destruct He as [[b Hb] Hd]. eapply total_bind; [by apply (set_bdata_ok s a i b)|].
    simpl. intros _ s' (Hr' & Hc). apply total_ret. rw (lookup_total_correct _ _ _ Hb). split_and!; [done|by rw Hc|done].
  - destruct He as [b Hb]. eapply total_bind; [by apply (pin_ok s a i b)|].
    simpl. intros _ s' (Hr' & Hc). apply total_ret. rw (lookup_total_correct _ _ _ Hb). split_and!; [done|by rw Hc|done].
  - destruct He as [b Hb]. eapply total_bind; [by apply (bwrite_ok s a i b)|].
    simpl. intros _ s' (Hr' & Hc). apply total_ret. rw (lookup_total_correct _ _ _ Hb). split_and!; [done|by rw Hc|done].
  - destruct He as (b & Hb & Hcl). eapply total_bind; [by apply (brelse_ok s a i b)|].
    simpl. intros _ s' (Hr' & Hc). by apply total_ret.
Qed.

(** [binit] on zeroed memory builds a working cache: a read that follows
    it returns a locked buffer with the block's contents on the disk, and
    releasing it leaves an empty cache again. *)
Theorem binit_then_read c d b :
  c_locks c = [] → disk_ok d → 0 ≤ b < disksize d →
  total (binit;; i ← bread 1 b; x ← gets (bdata i); brelse i;; mret x) (bst0 c d) (λ x s',
    x = memdisk d !!! b ∧ brepr s' (mkCache (memdisk d) d ∅ ∅) ∧ core_le c (bs_core s')).
Proof.
  intros Hc Hd Hb. eapply total_bind; [by apply binit_ok|]. simpl. intros _ s1 [Hr1 Hc1].
  eapply total_bind; [apply (bread_ok s1 _ b Hr1 Hb); [done|right; apply ca_room_empty]|].
  simpl. intros i s2 (_ & Hr2 & Hc2). apply (total_bind _ _ _ (λ x s, s = s2 ∧ x = bdata i s2)); [by apply total_gets|].
  intros x ? [-> ->]. destruct (bdata_ok _ _ i b Hr2) as (Hx & _); [apply lookup_insert_eq|].
  eapply total_bind; [apply (brelse_ok s2 _ i b Hr2); [apply lookup_insert_eq|by right]|].
  simpl. intros _ s3 [Hr3 Hc3]. apply total_ret. rw Hc2 Hc1 in Hc3. split_and!; [done| |done].
  rw /a_unhold /a_hold /= in Hr3. by rw delete_insert_id in Hr3.
Qed.

(** When every buffer is in use or pinned, reading a block that is not
    cached stops the machine: the only way [bread] fails on a good block. *)
Theorem bread_no_buffers s b :
  bwf s → LBcache ∉ c_locks (bs_core s) →
  (∀ i, (i < NBUF)%nat → ¬ (b_dev (nb i s) = 1 ∧ b_blockno (nb i s) = b)) →
  (∀ i, (i < NBUF)%nat → b_refcnt (nb i s) ≠ 0 ∨ b_flags (nb i s) = 6) →
  ∃ s', bread 1 b s = Panic "bget: no buffers" s'.
Proof.
  intros Hw Hl Hno Hbusy. rw /bread /bget. eexists. apply run_bind_panic.
  rw (run_bind _ _ _ _ _ (acquire_bst_run _ _ Hl)) run_gets /=.
  change (nb HEAD (mkBst _ (bs_bufs s) _)) with (nb HEAD s).
  destruct (scan_find s 1 b Hw) as [(i & _ & Hi & Hd & Hb)|[-> _]]; [by destruct (Hno i Hi)|].
  rw run_gets /=. change (nb HEAD (mkBst _ (bs_bufs s) _)) with (nb HEAD s).
  destruct (bw_ring _ Hw) as [l Hr].
  rw (recycle_path (prevf s) _ HEAD (reverse l)) //; [apply Hr| | |].
  { rw elem_of_reverse. apply HEAD_notin, Hr. }
  { rw length_reverse (ring_perm _ _ Hr) length_seq /list_bound. lia. }
  destruct (List.find _ _) as [i|] eqn:Hf; [exfalso|done].
  apply List.find_some in Hf as [Hi%list_elem_of_In Hf].
  rw elem_of_reverse (ring_elem _ _ _ Hr) in Hi. rw -/(nb i s) in Hf.
  destruct (Hbusy i Hi) as [?|H6]; [lia|]. rw H6 in Hf. simpl in Hf. lia.
Qed.
