(* ===== verification/Store.v ===== *)
(** * What the file system asks of the block layer

    fs.c calls [bread], [brelse] and [log_write] and accesses [b->data]; the
    system calls bracket it with [begin_op] and [end_op].  [BlockStore] states
    what those promise, in terms of an abstract store: the contents of every
    block, the disk, the buffers this transaction has locked and the blocks it
    has logged.  The file system is verified against this class; LogStore.v
    shows that log.c over bio.c implements it. *)

From S2P Require Import Prelude Layout Kernel.

(** The transaction as fs.c sees it.  [st_held] maps a buffer to its block, and
    says whether its data was changed since the last [log_write]. *)
Record store := mkStore {
  st_view : gmap Z (list Z);
  st_disk : gmap Z (list Z);
  st_held : gmap nat (Z * bool);
  st_log : gset Z;
  st_size : Z;      (** number of blocks of the disk *)
  st_base : Z;      (** first block that may be logged *)
  st_cap : Z;       (** blocks a transaction can log *)
}.

Definition st_hold (i : nat) (b : Z) (st : store) : store :=
  mkStore (st_view st) (st_disk st) (<[i := (b, false)]> (st_held st)) (st_log st)
    (st_size st) (st_base st) (st_cap st).
Definition st_put (i : nat) (b : Z) (d : list Z) (st : store) : store :=
  mkStore (<[b := d]> (st_view st)) (st_disk st) (<[i := (b, true)]> (st_held st)) (st_log st)
    (st_size st) (st_base st) (st_cap st).
Definition st_logw (i : nat) (b : Z) (st : store) : store :=
  mkStore (st_view st) (st_disk st) (<[i := (b, false)]> (st_held st)) ({[b]} ∪ st_log st)
    (st_size st) (st_base st) (st_cap st).
Definition st_rel (i : nat) (st : store) : store :=
  mkStore (st_view st) (st_disk st) (delete i (st_held st)) (st_log st)
    (st_size st) (st_base st) (st_cap st).

(** Nobody in this transaction has block [b]. *)
Definition unheld (b : Z) (st : store) : Prop := ∀ i f, st_held st !! i ≠ Some (b, f).

(** There is a buffer left for one more block. *)
Definition st_room (st : store) : Prop := (size (st_log st) + size (st_held st) < NBUF)%nat.

(** A transaction that has done nothing. *)
Definition st_clean (st : store) : Prop :=
  st_held st = ∅ ∧ st_log st = ∅ ∧ ∀ b, 0 ≤ b < st_size st → st_view st !!! b = st_disk st !!! b.

Class BlockStore (S : Type) `{!Lens S core} := {
  (** The operations. *)
  bread : Z → Z → M S nat;
  bdata : nat → S → list Z;
  set_bdata : nat → list Z → M S unit;
  log_write : nat → M S unit;
  brelse : nat → M S unit;
  begin_op : M S unit;
  end_op : M S unit;

  (** The state represents a transaction, or, between transactions, a store. *)
  in_txn : S → store → Prop;
  idle : S → store → Prop;

  in_txn_locks s st : in_txn s st → c_locks (lget s) = [];
  in_txn_core s st c : in_txn s st → c_locks c = [] → in_txn (lset c s) st;
  in_txn_cap s st : in_txn s st → st_cap st < Z.of_nat NBUF;
  in_txn_log s st : in_txn s st → Z.of_nat (size (st_log st)) ≤ st_cap st;
  in_txn_blk s st b : in_txn s st → 0 ≤ b < st_size st → blk (st_view st !!! b);
  in_txn_data s st i b f : in_txn s st → st_held st !! i = Some (b, f) → bdata i s = st_view st !!! b;
  bdata_core s i c : bdata i (lset c s) = bdata i s;

  bread_spec s st b :
    in_txn s st → 0 ≤ b < st_size st → unheld b st → b ∈ st_log st ∨ st_room st →
    total (bread 1 b) s (λ i s',
      st_held st !! i = None ∧ in_txn s' (st_hold i b st) ∧ core_le (lget s) (lget s'));
  set_bdata_spec s st i b f d :
    in_txn s st → st_held st !! i = Some (b, f) → blk d →
    total (set_bdata i d) s (λ _ s', in_txn s' (st_put i b d st) ∧ core_le (lget s) (lget s'));
  log_write_spec s st i b f :
    in_txn s st → st_held st !! i = Some (b, f) → st_base st ≤ b < st_size st →
    Z.of_nat (size (st_log st)) < st_cap st →
    total (log_write i) s (λ _ s', in_txn s' (st_logw i b st) ∧ core_le (lget s) (lget s'));
  brelse_spec s st i b :
    in_txn s st → st_held st !! i = Some (b, false) →
    total (brelse i) s (λ _ s', in_txn s' (st_rel i st) ∧ core_le (lget s) (lget s'));
  begin_op_spec s st :
    idle s st → total begin_op s (λ _ s', in_txn s' st ∧ st_clean st ∧ core_le (lget s) (lget s'));
  end_op_spec s st :
    in_txn s st → st_held st = ∅ →
    total end_op s (λ _ s', core_le (lget s) (lget s') ∧ ∃ st',
      idle s' st' ∧ st_size st' = st_size st ∧ st_base st' = st_base st ∧ st_cap st' = st_cap st ∧
      ∀ b, 0 ≤ b < st_size st → b = 1 ∨ st_base st ≤ b → st_view st' !!! b = st_view st !!! b);
}.
