(* ===== verification/Fs.v ===== *)
(** * The file system (fs.c)

    Every function of fs.c, over any block layer [S] that implements
    [BlockStore].  [fst S] adds to it the in-memory super block and the inode
    cache; an inode pointer is an index into the cache.  [readi] and [writei]
    exchange byte lists with their caller instead of an address.

    The theorems are in FsAlloc.v (the block allocator), FsInode.v (inodes),
    FsMap.v (block maps), FsFile.v and FsRw.v (contents) and FsDir.v
    (directories). *)

From S2P Require Import Prelude CString Layout Kernel Store.

Definition NINODE : nat := 50.
Definition NDEV : Z := 10.
Definition ROOTDEV : Z := 1.
Definition T_DIR : Z := 1.
Definition T_FILE : Z := 2.
Definition T_DEV : Z := 3.
Definition I_VALID : Z := 0x2.

(** [struct inode] (file.h) *)
Record inode := mkInode {
  i_dev : Z;
  i_inum : Z;
  i_ref : Z;
  i_lock : sleeplock;
  i_flags : Z;
  i_type : Z;
  i_major : Z;
  i_minor : Z;
  i_nlink : Z;
  i_size : Z;
  i_addrs : list Z;
}.

Definition inode0 : inode := mkInode 0 0 0 sleeplock0 0 0 0 0 0 0 (replicate 13 0).
#[global] Instance inode_inhabited : Inhabited inode := populate inode0.

Record fst_state (S : Type) := mkFst {
  fs_store : S;
  fs_sb : superblock;
  fs_inodes : list inode;
}.
Arguments mkFst {S} _ _ _.
Arguments fs_store {S} _.
Arguments fs_sb {S} _.
Arguments fs_inodes {S} _.

(** The C struct updates. *)
Definition w_id (dev inum ref flags : Z) (i : inode) : inode :=
  mkInode dev inum ref (i_lock i) flags (i_type i) (i_major i) (i_minor i) (i_nlink i) (i_size i) (i_addrs i).
Definition w_ref (v : Z) (i : inode) : inode :=
  mkInode (i_dev i) (i_inum i) v (i_lock i) (i_flags i) (i_type i) (i_major i) (i_minor i) (i_nlink i) (i_size i) (i_addrs i).
Definition w_ilock (v : sleeplock) (i : inode) : inode :=
  mkInode (i_dev i) (i_inum i) (i_ref i) v (i_flags i) (i_type i) (i_major i) (i_minor i) (i_nlink i) (i_size i) (i_addrs i).
Definition w_flags (v : Z) (i : inode) : inode :=
  mkInode (i_dev i) (i_inum i) (i_ref i) (i_lock i) v (i_type i) (i_major i) (i_minor i) (i_nlink i) (i_size i) (i_addrs i).
Definition w_type (v : Z) (i : inode) : inode :=
  mkInode (i_dev i) (i_inum i) (i_ref i) (i_lock i) (i_flags i) v (i_major i) (i_minor i) (i_nlink i) (i_size i) (i_addrs i).
Definition w_meta (major minor nlink : Z) (i : inode) : inode :=
  mkInode (i_dev i) (i_inum i) (i_ref i) (i_lock i) (i_flags i) (i_type i) major minor nlink (i_size i) (i_addrs i).
Definition w_size (v : Z) (i : inode) : inode :=
  mkInode (i_dev i) (i_inum i) (i_ref i) (i_lock i) (i_flags i) (i_type i) (i_major i) (i_minor i) (i_nlink i) v (i_addrs i).
Definition w_addrs (v : list Z) (i : inode) : inode :=
  mkInode (i_dev i) (i_inum i) (i_ref i) (i_lock i) (i_flags i) (i_type i) (i_major i) (i_minor i) (i_nlink i) (i_size i) v.

(** The fields an inode shares with its copy on the disk. *)
Definition to_dinode (i : inode) : dinode :=
  mkDinode (i_type i) (i_major i) (i_minor i) (i_nlink i) (i_size i) (i_addrs i).
Definition from_dinode (d : dinode) (i : inode) : inode :=
  mkInode (i_dev i) (i_inum i) (i_ref i) (i_lock i) (i_flags i)
    (di_type d) (di_major d) (di_minor d) (di_nlink d) (di_size d) (di_addrs d).

(** [struct stat] *)
Record stat := mkStat { st_type : Z; st_dev : Z; st_ino : Z; st_nlink : Z; st_fsize : Z }.

Section fs.
Context {S : Type} `{!Lens S core, !BlockStore S}.

Abbreviation fst := (fst_state S).

#[global] Instance fst_store : Lens fst S.
Proof.
  refine {| lget := fs_store; lset := λ x (s : fst), mkFst x (fs_sb s) (fs_inodes s) |};
    intros; by try destruct o.
Defined.

#[global] Instance fst_core : Lens fst core.
Proof.
  refine {| lget := λ s : fst, lget (fs_store s);
            lset := λ c (s : fst), mkFst (lset c (fs_store s)) (fs_sb s) (fs_inodes s) |}; intros.
  - apply lget_lset.
  - by rw /= lset_lset.
  - rw lset_lget. by destruct o.
Defined.

Definition set_sb (sb : superblock) (s : fst) : fst := mkFst (fs_store s) sb (fs_inodes s).
Definition iupd (i : nat) (f : inode → inode) (s : fst) : fst :=
  mkFst (fs_store s) (fs_sb s) (alter f i (fs_inodes s)).
Definition nin (i : nat) (s : fst) : inode := fs_inodes s !!! i.

Definition inode_lock (i : nat) (s : fst) : sleeplock := i_lock (nin i s).
Definition set_inode_lock (i : nat) (l : sleeplock) : fst → fst := iupd i (w_ilock l).

(** ** Blocks *)

(** Access to the data of a locked buffer. *)
Definition getb (b : nat) : M fst (list Z) := gets (λ s, bdata b (fs_store s)).
Definition setb (b : nat) (d : list Z) : M fst unit := lift (set_bdata b d).
Definition breadf (dev b : Z) : M fst nat := lift (bread dev b).
Definition brelsef (b : nat) : M fst unit := lift (brelse b).
Definition log_writef (b : nat) : M fst unit := lift (log_write b).

Definition readsb (dev : Z) : M fst superblock :=
  bp ← breadf (u32 dev) 1;
  d ← getb bp;
  brelsef bp;;
  mret (sb_decode d).

Definition bzero (dev bno : Z) : M fst unit :=
  bp ← breadf (u32 dev) (u32 bno);
  setb bp (replicate (Z.to_nat BSIZE) 0);;
  log_writef bp;;
  brelsef bp.

(** [1 << (bi % 8)], the test and the two updates of a bitmap byte. *)
Definition bmask (bi : Z) : Z := Z.shiftl 1 (bi mod 8).
Definition bit_free (d : list Z) (bi : Z) : bool := Z.land (nthZ d (bi / 8)) (bmask bi) =? 0.
Definition bit_set (d : list Z) (bi : Z) : list Z := setZ (bi / 8) (u8 (Z.lor (nthZ d (bi / 8)) (bmask bi))) d.
Definition bit_clear (d : list Z) (bi : Z) : list Z := setZ (bi / 8) (u8 (Z.ldiff (nthZ d (bi / 8)) (bmask bi))) d.

(** The inner loop of [balloc]: the first clear bit. *)
Fixpoint find_free (fuel : nat) (d : list Z) (b size bi : Z) : option Z :=
  match fuel with
  | O => None
  | Datatypes.S fuel =>
    if (bi <? BPB) && (b + bi <? size)
    then if bit_free d bi then Some bi else find_free fuel d b size (bi + 1)
    else None
  end.

Fixpoint balloc_loop (fuel : nat) (dev b : Z) : M fst Z :=
  match fuel with
  | O => diverge
  | Datatypes.S fuel =>
    sb ← gets fs_sb;
    if b <? sb_size sb then
      bp ← breadf dev (BBLOCK b sb);
      d ← getb bp;
      match find_free (Z.to_nat BPB) d b (sb_size sb) 0 with
      | Some bi =>
        setb bp (bit_set d bi);;
        log_writef bp;;
        brelsef bp;;
        bzero dev (b + bi);;
        mret (u32 (b + bi))
      | None =>
        brelsef bp;;
        balloc_loop fuel dev (b + BPB)
      end
    else panic "balloc: out of blocks"
  end.

(** One iteration per bitmap block, and one to leave the loop. *)
Definition balloc (dev : Z) : M fst Z :=
  sb ← gets fs_sb;
  balloc_loop (Z.to_nat (sb_size sb / BPB) + 2) dev 0.

Definition bfree (dev b : Z) : M fst unit :=
  sb ← readsb dev;
  modify (set_sb sb);;
  bp ← breadf (u32 dev) (BBLOCK b sb);
  let bi := b mod BPB in
  d ← getb bp;
  if bit_free d bi then panic "freeing free block" else
  setb bp (bit_clear d bi);;
  log_writef bp;;
  brelsef bp.

(** ** Inodes *)

Definition iinit (dev : Z) : M fst unit :=
  for_up NINODE 0 (λ i, modify (set_inode_lock (Z.to_nat i) (mkSleeplock 0 0)));;
  sb ← readsb dev;
  modify (set_sb sb).

(** The scan of [iget]: a cached inode, and the first free slot before it. *)
Fixpoint iget_find (n i : nat) (l : list inode) (dev inum : Z) (empty : option nat) : option nat * option nat :=
  match n with
  | O => (None, empty)
  | Datatypes.S n =>
    let ip := l !!! i in
    if (0 <? i_ref ip) && (i_dev ip =? dev) && (i_inum ip =? inum) then (Some i, empty)
    else iget_find n (Datatypes.S i) l dev inum
      (match empty with None => if i_ref ip =? 0 then Some i else None | Some _ => empty end)
  end.

Definition iget (dev inum : Z) : M fst nat :=
  lift (acquire LIcache);;
  r ← gets (λ s, iget_find NINODE 0 (fs_inodes s) dev inum None);
  match r with
  | (Some ip, _) =>
    modify (iupd ip (λ i, w_ref (i32 (i_ref i + 1)) i));;
    lift (release LIcache);;
    mret ip
  | (None, None) => panic "iget: no inodes"
  | (None, Some ip) =>
    modify (iupd ip (w_id dev inum 1 0));;
    lift (release LIcache);;
    mret ip
  end.

Fixpoint ialloc_loop (fuel : nat) (dev type inum : Z) : M fst nat :=
  match fuel with
  | O => diverge
  | Datatypes.S fuel =>
    sb ← gets fs_sb;
    if inum <? sb_ninodes sb then
      bp ← breadf dev (IBLOCK inum sb);
      d ← getb bp;
      if di_type (get_dinode (inum mod IPB) d) =? 0 then
        setb bp (put_dinode (inum mod IPB) (mkDinode type 0 0 0 0 (replicate 13 0)) d);;
        log_writef bp;;
        brelsef bp;;
        iget dev (u32 inum)
      else
        brelsef bp;;
        ialloc_loop fuel dev type (inum + 1)
    else panic "ialloc: no inodes"
  end.

Definition ialloc (dev type : Z) : M fst nat :=
  sb ← gets fs_sb;
  ialloc_loop (Z.to_nat (sb_ninodes sb) + 1) dev type 1.

Definition iupdate (ip : nat) : M fst unit :=
  i ← gets (nin ip);
  sb ← gets fs_sb;
  bp ← breadf (i_dev i) (IBLOCK (i_inum i) sb);
  d ← getb bp;
  setb bp (put_dinode (i_inum i mod IPB) (to_dinode i) d);;
  log_writef bp;;
  brelsef bp.

Definition idup (ip : nat) : M fst nat :=
  lift (acquire LIcache);;
  modify (iupd ip (λ i, w_ref (i32 (i_ref i + 1)) i));;
  lift (release LIcache);;
  mret ip.

Definition ilock (ipo : option nat) : M fst unit :=
  match ipo with
  | None => panic "ilock"
  | Some ip =>
    i ← gets (nin ip);
    if i_ref i <? 1 then panic "ilock" else
    acquiresleep (SLInode ip) (inode_lock ip) (set_inode_lock ip);;
    i ← gets (nin ip);
    when (Z.land (i_flags i) I_VALID =? 0)
      (sb ← gets fs_sb;
       bp ← breadf (i_dev i) (IBLOCK (i_inum i) sb);
       d ← getb bp;
       modify (iupd ip (from_dinode (get_dinode (i_inum i mod IPB) d)));;
       brelsef bp;;
       modify (iupd ip (λ i, w_flags (Z.lor (i_flags i) I_VALID) i));;
       i ← gets (nin ip);
       when (i_type i =? 0) (panic "ilock: no type"))
  end.

Definition iunlock (ipo : option nat) : M fst unit :=
  match ipo with
  | None => panic "iunlock"
  | Some ip =>
    h ← holdingsleep (SLInode ip) (inode_lock ip);
    i ← gets (nin ip);
    if (h =? 0) || (i_ref i <? 1) then panic "iunlock" else
    releasesleep (SLInode ip) (set_inode_lock ip)
  end.

(** ** Inode content *)

(** [bp->data] as an array of block numbers. *)
Definition word (k : Z) (d : list Z) : Z := load32 (4 * k) d.
Definition set_word (k v : Z) (d : list Z) : list Z := store32 (4 * k) v d.

Definition set_addr (ip : nat) (k a : Z) : M fst unit :=
  modify (iupd ip (λ i, w_addrs (setZ k a (i_addrs i)) i)).

Definition bmap (ip : nat) (bn : Z) : M fst Z :=
  i ← gets (nin ip);
  if bn <? NDIRECT then
    let addr := nthZ (i_addrs i) bn in
    if addr =? 0 then
      addr ← balloc (i_dev i);
      set_addr ip bn addr;;
      mret addr
    else mret addr
  else
  let bn := bn - NDIRECT in
  if bn <? NINDIRECT then
    addr ← (let addr := nthZ (i_addrs i) NDIRECT in
            if addr =? 0 then
              addr ← balloc (i_dev i);
              set_addr ip NDIRECT addr;;
              mret addr
            else mret addr);
    bp ← breadf (i_dev i) addr;
    d ← getb bp;
    let addr := word bn d in
    if addr =? 0 then
      addr ← balloc (i_dev i);
      d ← getb bp;
      setb bp (set_word bn addr d);;
      log_writef bp;;
      brelsef bp;;
      mret addr
    else
      brelsef bp;;
      mret addr
  else panic "bmap: out of range".

Definition itrunc (ip : nat) : M fst unit :=
  for_up (Z.to_nat NDIRECT) 0 (λ k,
    i ← gets (nin ip);
    let a := nthZ (i_addrs i) k in
    when (negb (a =? 0))
      (bfree (i_dev i) a;;
       set_addr ip k 0));;
  i ← gets (nin ip);
  let ind := nthZ (i_addrs i) NDIRECT in
  when (negb (ind =? 0))
    (bp ← breadf (i_dev i) ind;
     for_up (Z.to_nat NINDIRECT) 0 (λ j,
       d ← getb bp;
       when (negb (word j d =? 0)) (bfree (i_dev i) (word j d)));;
     brelsef bp;;
     i ← gets (nin ip);
     bfree (i_dev i) (nthZ (i_addrs i) NDIRECT);;
     set_addr ip NDIRECT 0);;
  modify (iupd ip (w_size 0));;
  iupdate ip.

Definition iput (ip : nat) : M fst unit :=
  lift (acquire LIcache);;
  i ← gets (nin ip);
  when ((i_ref i =? 1) && negb (Z.land (i_flags i) I_VALID =? 0) && (i_nlink i =? 0))
    (lift (release LIcache);;
     itrunc ip;;
     modify (iupd ip (w_type 0));;
     iupdate ip;;
     lift (acquire LIcache);;
     modify (iupd ip (w_flags 0)));;
  modify (iupd ip (λ i, w_ref (i32 (i_ref i - 1)) i));;
  lift (release LIcache).

Definition iunlockput (ip : nat) : M fst unit := iunlock (Some ip);; iput ip.

Definition stati (ip : nat) : M fst stat :=
  i ← gets (nin ip);
  mret (mkStat (i_type i) (i32 (i_dev i)) (i_inum i) (i_nlink i) (i_size i)).

(** The device switch: the read and write entry points by major number. *)
Context (dev_read : Z → option (nat → Z → Z → M fst (Z * list Z))).
Context (dev_write : Z → option (nat → Z → list Z → M fst Z)).

Definition devsw_read (major : Z) : option (nat → Z → Z → M fst (Z * list Z)) :=
  if (major <? 0) || (major >=? NDEV) then None else dev_read major.
Definition devsw_write (major : Z) : option (nat → Z → list Z → M fst Z) :=
  if (major <? 0) || (major >=? NDEV) then None else dev_write major.

(** The copying loop of [readi]; the result is what it stores at [dst]. *)
Fixpoint readi_loop (fuel : nat) (ip : nat) (off n tot : Z) : M fst (list Z) :=
  match fuel with
  | O => diverge
  | Datatypes.S fuel =>
    if tot <? n then
      a ← bmap ip (off / BSIZE);
      i ← gets (nin ip);
      bp ← breadf (i_dev i) a;
      let m := Z.min (n - tot) (BSIZE - off mod BSIZE) in
      d ← getb bp;
      brelsef bp;;
      rest ← readi_loop fuel ip (off + m) n (tot + m);
      mret (slice (off mod BSIZE) m d ++ rest)
    else mret []
  end.

(** A transfer of [n] bytes touches at most this many blocks. *)
Definition nblocks (n : Z) : nat := (Z.to_nat (n / BSIZE) + 3)%nat.

Definition readi (ip : nat) (off n : Z) : M fst (Z * list Z) :=
  i ← gets (nin ip);
  if i_type i =? T_DEV then
    match devsw_read (i_major i) with
    | None => mret (-1, [])
    | Some f => f ip off n
    end
  else
  if (off >? i_size i) || (u32 (off + n) <? off) then mret (-1, []) else
  let n := if u32 (off + n) >? i_size i then u32 (i_size i - off) else n in
  d ← readi_loop (nblocks n) ip off n 0;
  mret (i32 n, d).

(** The copying loop of [writei], returning the offset it ends at. *)
Fixpoint writei_loop (fuel : nat) (ip : nat) (src : list Z) (off n tot : Z) : M fst Z :=
  match fuel with
  | O => diverge
  | Datatypes.S fuel =>
    if tot <? n then
      a ← bmap ip (off / BSIZE);
      i ← gets (nin ip);
      bp ← breadf (i_dev i) a;
      let m := Z.min (n - tot) (BSIZE - off mod BSIZE) in
      d ← getb bp;
      setb bp (splice (off mod BSIZE) (slice tot m src) d);;
      log_writef bp;;
      brelsef bp;;
      writei_loop fuel ip src (off + m) n (tot + m)
    else mret off
  end.

Definition writei (ip : nat) (src : list Z) (off n : Z) : M fst Z :=
  i ← gets (nin ip);
  if i_type i =? T_DEV then
    match devsw_write (i_major i) with
    | None => mret (-1)
    | Some f => f ip off (slice 0 n src)
    end
  else
  if (off >? i_size i) || (u32 (off + n) <? off) then mret (-1) else
  if u32 (off + n) >? MAXFILE * BSIZE then mret (-1) else
  off ← writei_loop (nblocks n) ip src off n 0;
  i ← gets (nin ip);
  when ((0 <? n) && (off >? i_size i))
    (modify (iupd ip (w_size off));;
     iupdate ip);;
  mret (i32 n).

(** ** Directories *)

Definition sizeof_dirent : Z := 16.
(** [struct dirent] read from, and written to, 16 bytes. *)
Definition de_inum (d : list Z) : Z := load16 0 d.
Definition de_name (d : list Z) : list Z := slice 2 DIRSIZ d.
Definition mk_dirent (inum : Z) (name : list Z) : list Z := le_encode 2 inum ++ name.

Definition namecmp (s t : list Z) : Z := strncmp (nthZ s) (nthZ t) DIRSIZ.

(** Entries of a directory of this size, plus one to leave the loop. *)
Definition nentries (size : Z) : nat := (Z.to_nat (size / sizeof_dirent) + 2)%nat.

Fixpoint dirlookup_loop (fuel : nat) (dp : nat) (name : list Z) (off : Z) : M fst (option (nat * Z)) :=
  match fuel with
  | O => diverge
  | Datatypes.S fuel =>
    i ← gets (nin dp);
    if off <? i_size i then
      r ← readi dp off sizeof_dirent;
      if negb (r.1 =? sizeof_dirent) then panic "dirlookup read" else
      if de_inum r.2 =? 0 then dirlookup_loop fuel dp name (u32 (off + sizeof_dirent))
      else if namecmp name (de_name r.2) =? 0 then
        ip ← iget (i_dev i) (de_inum r.2);
        mret (Some (ip, off))
      else dirlookup_loop fuel dp name (u32 (off + sizeof_dirent))
    else mret None
  end.

(** The inode and the offset of its entry. *)
Definition dirlookup (dp : nat) (name : list Z) : M fst (option (nat * Z)) :=
  i ← gets (nin dp);
  if negb (i_type i =? T_DIR) then panic "dirlookup not DIR" else
  dirlookup_loop (nentries (i_size i)) dp name 0.

(** The scan of [dirlink] for an unused entry. *)
Fixpoint dirlink_loop (fuel : nat) (dp : nat) (off : Z) : M fst Z :=
  match fuel with
  | O => diverge
  | Datatypes.S fuel =>
    i ← gets (nin dp);
    if off <? i_size i then
      r ← readi dp off sizeof_dirent;
      if negb (r.1 =? sizeof_dirent) then panic "dirlink read" else
      if de_inum r.2 =? 0 then mret off
      else dirlink_loop fuel dp (off + sizeof_dirent)
    else mret off
  end.

Definition dirlink (dp : nat) (name : list Z) (inum : Z) : M fst Z :=
  r ← dirlookup dp name;
  match r with
  | Some (ip, _) => iput ip;; mret (-1)
  | None =>
    i ← gets (nin dp);
    off ← dirlink_loop (nentries (i_size i)) dp 0;
    w ← writei dp (mk_dirent (u16 inum) (strncpy (nthZ name) DIRSIZ)) off sizeof_dirent;
    if negb (w =? sizeof_dirent) then panic "dirlink" else mret 0
  end.

(** ** Paths *)

(** The loops of [skipelem] over the characters of the path. *)
Fixpoint skip_slashes (p : list Z) : list Z :=
  match p with
  | c :: p' => if c =? 47 then skip_slashes p' else p
  | [] => []
  end.
Fixpoint elem_split (p : list Z) : list Z * list Z :=
  match p with
  | c :: p' => if c =? 47 then ([], p) else let r := elem_split p' in (c :: r.1, r.2)
  | [] => ([], [])
  end.

(** A path is the characters before its NUL.  [name] is the caller's buffer,
    of which only the stored bytes change. *)
Definition skipelem (path name : list Z) : option (list Z * list Z) :=
  let path := skip_slashes path in
  match path with
  | [] => None
  | _ =>
    let (s, path) := elem_split path in
    let len := lenZ s in
    let name := if len >=? DIRSIZ then splice 0 (slice 0 DIRSIZ s) name
                else splice 0 (s ++ [0]) name in
    Some (skip_slashes path, name)
  end.

Fixpoint namex_loop (fuel : nat) (ip : nat) (path : list Z) (parent : bool) (name : list Z)
  : M fst (option nat * list Z) :=
  match fuel with
  | O => diverge
  | Datatypes.S fuel =>
    match skipelem path name with
    | None =>
      if parent then iput ip;; mret (None, name) else mret (Some ip, name)
    | Some (path, name) =>
      ilock (Some ip);;
      i ← gets (nin ip);
      if negb (i_type i =? T_DIR) then iunlockput ip;; mret (None, name) else
      if parent && bool_decide (path = []) then iunlock (Some ip);; mret (Some ip, name) else
      r ← dirlookup ip name;
      match r with
      | None => iunlockput ip;; mret (None, name)
      | Some (next, _) => iunlockput ip;; namex_loop fuel next path parent name
      end
    end
  end.

Definition namex (path : list Z) (parent : bool) (name : list Z) : M fst (option nat * list Z) :=
  ip ← (if bool_decide (head path = Some 47) then iget ROOTDEV ROOTINO
        else
          cwd ← gets (λ s, p_cwd (cur_proc (lget s)));
          match cwd with Some ip => idup ip | None => fault end);
  namex_loop (length path + 1) ip path parent name.

Definition namei (path : list Z) : M fst (option nat) :=
  r ← namex path false (replicate (Z.to_nat DIRSIZ) 0); mret r.1.

Definition nameiparent (path name : list Z) : M fst (option nat * list Z) := namex path true name.

End fs.
