(* ===== verification/FsAlloc.v ===== *)
(** * The block layer and the block allocator of fs.c

    The rules that run the code of fs.c over a [BlockStore], and the theorems
    about [bzero], [balloc] and [bfree]. *)

From S2P Require Import Prelude CString Layout Kernel Store Fs.

(** ** Bits of the free map *)

Section bits.
Implicit Types (d : list Z) (b bi j : Z).

Definition used (d : list Z) (b : Z) : bool := Z.testbit (nthZ d (b / 8)) (b mod 8).

Lemma bmask_bits bi n : 0 ≤ n → Z.testbit (bmask bi) n = bool_decide (n = bi mod 8).
Proof.
  intros Hn. rw /bmask Z.shiftl_1_l. case_bool_decide as H.
  - rw H. apply Z.pow2_bits_true. lia.
  - apply Z.pow2_bits_false. lia.
Qed.

Lemma bit_free_used d bi : bit_free d bi = negb (used d bi).
Proof.
  rw /bit_free /used. destruct (Z.testbit (nthZ d (bi / 8)) (bi mod 8)) eqn:E; simpl.
  - apply Z.eqb_neq. intros H. apply (f_equal (λ x, Z.testbit x (bi mod 8))) in H.
    rw Z.land_spec Z.bits_0 E bmask_bits in H; [lia|]. by rw bool_decide_true in H.
  - apply Z.eqb_eq. apply Z.bits_inj'. intros n Hn. rw Z.land_spec Z.bits_0 bmask_bits //.
    case_bool_decide as Hb; [by rw Hb E|apply andb_false_r].
Qed.

Lemma nthZ_byte d i : bytes d → byte (nthZ d i).
Proof.
  intros Hd. rw /nthZ nth_lookup. destruct (d !! Z.to_nat i) eqn:E; [|done].
  by eapply Forall_lookup_1 in Hd.
Qed.

Lemma bit_byte x n : byte x → 8 ≤ n → Z.testbit x n = false.
Proof.
  intros [H0 H1] Hn. destruct (decide (x = 0)) as [->|]; [apply Z.bits_0|].
  apply Z.bits_above_log2; [done|]. assert (Z.log2 x < 8); [|lia]. apply Z.log2_lt_pow2; lia.
Qed.

Lemma byte_bits x : 0 ≤ x → (∀ n, 8 ≤ n → Z.testbit x n = false) → byte x.
Proof.
  intros H0 Hn. split; [done|]. destruct (decide (x = 0)) as [->|]; [done|].
  apply Z.log2_lt_cancel. change (Z.log2 256) with 8.
  destruct (decide (Z.log2 x < 8)); [done|]. pose proof (Z.bit_log2 x ltac:(lia)) as Hb. rw Hn in Hb; [lia|done].
Qed.

Lemma lor_byte x bi : byte x → byte (Z.lor x (bmask bi)).
Proof.
  intros Hx. apply byte_bits.
  - apply Z.lor_nonneg. split; [apply Hx|]. rw /bmask. apply Z.shiftl_nonneg. lia.
  - intros n Hn. rw Z.lor_spec bmask_bits; [lia|]. rw bool_decide_false; [lia|]. by rw bit_byte.
Qed.

Lemma ldiff_byte x bi : byte x → byte (Z.ldiff x (bmask bi)).
Proof.
  intros Hx. apply byte_bits.
  - apply Z.ldiff_nonneg. left. apply Hx.
  - intros n Hn. rw Z.ldiff_spec. by rw bit_byte.
Qed.

(** Setting or clearing one bit leaves the others. *)
Lemma used_bit_set d bi j :
  blk d → 0 ≤ bi < BPB → 0 ≤ j < BPB →
  used (bit_set d bi) j = bool_decide (j = bi) || used d j.
Proof.
  rw /BPB. change (BSIZE * 8) with 4096. intros Hd Hbi Hj. pose proof (blk_len _ Hd) as Hl. destruct Hd as [_ Hd].
  rw /used /bit_set. rw u8_small; [apply lor_byte; by apply nthZ_byte|].
  destruct (decide (j / 8 = bi / 8)) as [E|E].
  - rw E nthZ_setZ_eq; [lia|]. rw Z.lor_spec bmask_bits; [lia|]. rw orb_comm. f_equal.
    apply bool_decide_ext. lia.
  - rw nthZ_setZ_ne; [lia|lia|lia|]. rw bool_decide_false //. congruence.
Qed.

Lemma used_bit_clear d bi j :
  blk d → 0 ≤ bi < BPB → 0 ≤ j < BPB →
  used (bit_clear d bi) j = negb (bool_decide (j = bi)) && used d j.
Proof.
  rw /BPB. change (BSIZE * 8) with 4096. intros Hd Hbi Hj. pose proof (blk_len _ Hd) as Hl. destruct Hd as [_ Hd].
  rw /used /bit_clear. rw u8_small; [apply ldiff_byte; by apply nthZ_byte|].
  destruct (decide (j / 8 = bi / 8)) as [E|E].
  - rw E nthZ_setZ_eq; [lia|]. rw Z.ldiff_spec bmask_bits; [lia|]. rw andb_comm. do 2 f_equal.
    apply bool_decide_ext. lia.
  - rw nthZ_setZ_ne; [lia|lia|lia|]. rw bool_decide_false //. congruence.
Qed.

Lemma blk_setZ d i x : blk d → byte x → blk (setZ i x d).
Proof.
  intros [Hl Hd] Hx. split; [by rw length_setZ|]. rw /setZ. by apply Forall_insert.
Qed.

Lemma blk_bit_set d bi : blk d → blk (bit_set d bi).
Proof.
  intros Hd. apply blk_setZ; [done|]. rw u8_small; apply lor_byte, nthZ_byte, Hd.
Qed.

Lemma blk_bit_clear d bi : blk d → blk (bit_clear d bi).
Proof.
  intros Hd. apply blk_setZ; [done|]. rw u8_small; apply ldiff_byte, nthZ_byte, Hd.
Qed.

(** The scan finds the first free block. *)
Lemma find_free_spec fuel d size bi :
  0 ≤ bi → size ≤ BPB → size - bi ≤ Z.of_nat fuel →
  match find_free fuel d 0 size bi with
  | Some r => bi ≤ r < size ∧ used d r = false ∧ ∀ j, bi ≤ j < r → used d j = true
  | None => ∀ j, bi ≤ j < size → used d j = true
  end.
Proof.
  revert bi. induction fuel as [|fuel IH]; intros bi Hbi Hs Hf; [simpl; intros; lia|]. cbn [find_free]. rw Z.add_0_l.
  destruct (Z.ltb_spec bi BPB); [destruct (Z.ltb_spec bi size)|]; simpl; [|intros; lia|intros; lia].
  rw bit_free_used. destruct (used d bi) eqn:E; simpl.
  - specialize (IH (bi + 1)). destruct (find_free fuel d 0 size (bi + 1)) as [r|].
    + destruct IH as (H1 & H2 & H3); [lia..|]. split_and!; [lia|lia|done|].
      intros j Hj. destruct (decide (j = bi)) as [->|]; [done|apply H3; lia].
    + intros j Hj. destruct (decide (j = bi)) as [->|]; [done|apply IH; lia].
  - split_and!; [lia|lia|done|lia].
Qed.
End bits.

Lemma nth_replicate0 (n i : nat) : nth i (replicate n 0) 0 = 0.
Proof. revert i. induction n as [|n IH]; intros [|i]; [done..|apply IH]. Qed.

(** ** Running fs.c *)

(** A block was changed and logged. *)
Definition st_wr (b : Z) (d : list Z) (st : store) : store :=
  mkStore (<[b := d]> (st_view st)) (st_disk st) (st_held st) ({[b]} ∪ st_log st)
    (st_size st) (st_base st) (st_cap st).

(** A buffer and a log slot for one more block. *)
Definition can_read (b : Z) (st : store) : Prop :=
  0 ≤ b < st_size st ∧ unheld b st ∧ (b ∈ st_log st ∨ st_room st).
Definition can_log (b : Z) (st : store) : Prop :=
  st_base st ≤ b < st_size st ∧ Z.of_nat (size (st_log st)) < st_cap st.

Section rules.
Context {S : Type} `{!Lens S core, !BlockStore S}.
Abbreviation fst := (fst_state S).

(** The transaction is [st], the super block [sb], the inode cache [is], and
    the shared state is [c] but for wakeups. *)
Record fat (st : store) (sb : superblock) (ino : list inode) (c : core) (s : fst) : Prop := {
  fa_txn : in_txn (fs_store s) st;
  fa_sb : fs_sb s = sb;
  fa_ino : fs_inodes s = ino;
  fa_core : core_le c (lget (fs_store s));
}.

Context (sb : superblock) (ino : list inode) (c : core).
Implicit Types (s : fst) (i : nat) (b : Z) (st : store).

Lemma fat_blk st s b : fat st sb ino c s → 0 ≤ b < st_size st → blk (st_view st !!! b).
Proof. intros [Ht _ _ _]. by apply (in_txn_blk _ _ _ Ht). Qed.

Lemma fat_cap st s : fat st sb ino c s → st_cap st < Z.of_nat NBUF.
Proof. intros [Ht _ _ _]. by apply in_txn_cap in Ht. Qed.

(** A block operation that leaves the rest of the state alone. *)
Lemma fat_lift {A B} st (m : M S A) s (k : A → M fst B) (P : A → store → Prop) (Q : B → fst → Prop) :
  fat st sb ino c s →
  total m (fs_store s) (λ a (s' : S), ∃ st', P a st' ∧ in_txn s' st' ∧ core_le (lget (fs_store s)) (lget s')) →
  (∀ a st' s', P a st' → fat st' sb ino c s' → total (k a) s' Q) →
  total (lift m ≫= k) s Q.
Proof.
  intros [Ht Hsb Hi Hc] Hm Hk. apply (total_bind _ _ _ (λ a s', ∃ st', P a st' ∧ fat st' sb ino c s')).
  - apply total_lift. eapply total_mono; [exact Hm|]. cbv beta. intros a s' (st' & HP & Ht' & Hc').
    exists st'. split; [done|]. split; simpl; [done|done|done|by etrans].
  - intros a s' (st' & HP & Hf). by apply (Hk _ _ _ HP).
Qed.

Lemma run_breadf {A} st s b (k : nat → M fst A) Q :
  fat st sb ino c s → can_read b st →
  (∀ i s', st_held st !! i = None → fat (st_hold i b st) sb ino c s' → total (k i) s' Q) →
  total (breadf 1 b ≫= k) s Q.
Proof.
  intros Hf (Hb & Hu & Hr) Hk.
  apply (fat_lift st _ _ _ (λ i st', st_held st !! i = None ∧ st' = st_hold i b st) Q Hf).
  - eapply total_mono; [apply (bread_spec _ st b (fa_txn _ _ _ _ _ Hf) Hb Hu Hr)|].
    cbv beta. intros i s' (Hn & Ht' & Hc'). eauto.
  - intros i st' s' [Hn ->]. by apply Hk.
Qed.

Lemma run_getb {A} st s i b f (k : list Z → M fst A) Q :
  fat st sb ino c s → st_held st !! i = Some (b, f) → total (k (st_view st !!! b)) s Q →
  total (getb i ≫= k) s Q.
Proof.
  intros Hf Hi Hk. apply total_gets_bind. by rw (in_txn_data _ _ _ _ _ (fa_txn _ _ _ _ _ Hf) Hi).
Qed.

Lemma run_setb {A} st s i b f d (k : unit → M fst A) Q :
  fat st sb ino c s → st_held st !! i = Some (b, f) → blk d →
  (∀ s', fat (st_put i b d st) sb ino c s' → total (k tt) s' Q) → total (setb i d ≫= k) s Q.
Proof.
  intros Hf Hi Hd Hk. apply (fat_lift st _ _ _ (λ _ st', st' = st_put i b d st) Q Hf).
  - eapply total_mono; [apply (set_bdata_spec _ st i b f d (fa_txn _ _ _ _ _ Hf) Hi Hd)|].
    cbv beta. intros _ s' (Ht' & Hc'). eauto.
  - intros [] st' s' ->. by apply Hk.
Qed.

Lemma run_log_writef {A} st s i b f (k : unit → M fst A) Q :
  fat st sb ino c s → st_held st !! i = Some (b, f) → can_log b st →
  (∀ s', fat (st_logw i b st) sb ino c s' → total (k tt) s' Q) → total (log_writef i ≫= k) s Q.
Proof.
  intros Hf Hi [Hb Hl] Hk. apply (fat_lift st _ _ _ (λ _ st', st' = st_logw i b st) Q Hf).
  - eapply total_mono; [apply (log_write_spec _ st i b f (fa_txn _ _ _ _ _ Hf) Hi Hb Hl)|].
    cbv beta. intros _ s' (Ht' & Hc'). eauto.
  - intros [] st' s' ->. by apply Hk.
Qed.

Lemma run_brelsef {A} st s i b (k : unit → M fst A) Q :
  fat st sb ino c s → st_held st !! i = Some (b, false) →
  (∀ s', fat (st_rel i st) sb ino c s' → total (k tt) s' Q) → total (brelsef i ≫= k) s Q.
Proof.
  intros Hf Hi Hk. apply (fat_lift st _ _ _ (λ _ st', st' = st_rel i st) Q Hf).
  - eapply total_mono; [apply (brelse_spec _ st i b (fa_txn _ _ _ _ _ Hf) Hi)|].
    cbv beta. intros _ s' (Ht' & Hc'). eauto.
  - intros [] st' s' ->. by apply Hk.
Qed.

(** A block operation at the end of a function. *)
Lemma total_tail {A} (m : M fst A) s Q : total (m ≫= mret) s Q → total m s Q.
Proof.
  intros (a & s' & Hm & HQ). apply run_bind_inv in Hm as (a' & s1 & Hm & [= <- <-]). by exists a', s1.
Qed.

Lemma rel_hold st i b : st_held st !! i = None → st_rel i (st_hold i b st) = st.
Proof. intros. destruct st. by rw /st_rel /st_hold /= delete_insert_id. Qed.

(** Reading a block and letting it go. *)
Lemma run_rel {A} st s i b (k : unit → M fst A) Q :
  fat (st_hold i b st) sb ino c s → st_held st !! i = None →
  (∀ s', fat st sb ino c s' → total (k tt) s' Q) → total (brelsef i ≫= k) s Q.
Proof.
  intros Hf Hi Hk. eapply run_brelsef; [done|by rw /= lookup_insert_eq|]. by rw rel_hold.
Qed.

(** Changing a block: store, log, release. *)
Lemma run_update {A} st s i b d (k : unit → M fst A) Q :
  fat (st_hold i b st) sb ino c s → st_held st !! i = None → blk d → can_log b st →
  (∀ s', fat (st_wr b d st) sb ino c s' → total (k tt) s' Q) →
  total (setb i d ≫= λ _, log_writef i ≫= λ _, brelsef i ≫= k) s Q.
Proof.
  intros Hf Hi Hd Hl Hk. eapply run_setb; [done|by rw /= lookup_insert_eq|done|]. intros s1 H1.
  eapply run_log_writef; [done|by rw /= lookup_insert_eq|done|]. intros s2 H2.
  eapply run_brelsef; [done|by rw /= lookup_insert_eq|]. intros s3 H3. apply Hk.
  by rw /st_rel /st_logw /st_put /st_hold /= !insert_insert_eq delete_insert_id in H3.
Qed.

(** The same at the end of a function. *)
Lemma run_rel_end st s i b Q :
  fat (st_hold i b st) sb ino c s → st_held st !! i = None →
  (∀ s', fat st sb ino c s' → Q tt s') → total (brelsef i) s Q.
Proof.
  intros Hf Hi HQ. apply total_tail. eapply run_rel; [done|done|]. intros s' H'. apply total_ret. auto.
Qed.

Lemma run_update_end st s i b d Q :
  fat (st_hold i b st) sb ino c s → st_held st !! i = None → blk d → can_log b st →
  (∀ s', fat (st_wr b d st) sb ino c s' → Q tt s') → total (setb i d;; log_writef i;; brelsef i) s Q.
Proof.
  intros Hf Hi Hd Hl HQ. eapply run_setb; [done|by rw /= lookup_insert_eq|done|]. intros s1 H1.
  eapply run_log_writef; [done|by rw /= lookup_insert_eq|done|]. intros s2 H2. apply total_tail.
  eapply run_brelsef; [done|by rw /= lookup_insert_eq|]. intros s3 H3. apply total_ret, HQ.
  by rw /st_rel /st_logw /st_put /st_hold /= !insert_insert_eq delete_insert_id in H3.
Qed.
End rules.

(** ** The layout of the file system *)

Record fsgeo (sb : superblock) (st : store) : Prop := {
  fg_size : sb_size sb ≤ st_size st;
  fg_bpb : sb_size sb ≤ BPB;                 (** one bitmap block, as for [FSSIZE] *)
  fg_one : 1 < st_base st;
  fg_base : st_base st ≤ sb_inodestart sb;
  fg_ib : sb_inodestart sb < sb_bmapstart sb;
  fg_ino : sb_inodestart sb + (sb_ninodes sb - 1) / IPB < sb_bmapstart sb;
  fg_bmap : sb_bmapstart sb < sb_size sb;
  fg_sz : st_size st < 2 ^ 31;
  fg_sb : sb_decode (st_view st !!! 1) = sb;
}.

(** The free map, and the blocks it says are in use. *)
Definition bmp (sb : superblock) (st : store) : list Z := st_view st !!! sb_bmapstart sb.
Definition inuse (sb : superblock) (st : store) (b : Z) : Prop := used (bmp sb st) b = true.
#[global] Instance inuse_dec sb st b : Decision (inuse sb st b).
Proof. rw /inuse. apply _. Defined.

(** The blocks before the data blocks are never free. *)
Definition meta_used (sb : superblock) (st : store) : Prop :=
  ∀ b, 0 ≤ b ≤ sb_bmapstart sb → inuse sb st b.

(** A data block of the file system. *)
Definition data_block (sb : superblock) (b : Z) : Prop := sb_bmapstart sb < b < sb_size sb.

(** Log space for the bitmap block and [k] more blocks. *)
Definition budget (sb : superblock) (st : store) (k : Z) : Prop :=
  Z.of_nat (size ({[sb_bmapstart sb]} ∪ st_log st)) + k ≤ st_cap st.

(** This transaction has locked at most [n] blocks, all of them in use, and
    not the bitmap. *)
Record held_ok (sb : superblock) (st : store) (n : nat) : Prop := {
  hd_size : (size (st_held st) ≤ n)%nat;
  hd_used i b f : st_held st !! i = Some (b, f) → inuse sb st b;
  hd_bmap : unheld (sb_bmapstart sb) st;
}.

Section sizes.
Implicit Types (X : gset Z) (b : Z).

Lemma size_add_le b X : (size X ≤ size ({[b]} ∪ X) ≤ Datatypes.S (size X))%nat.
Proof.
  split; [apply subseteq_size; set_solver|]. rw size_union_alt size_singleton.
  assert (size (X ∖ {[b]}) ≤ size X)%nat; [apply subseteq_size; set_solver|lia].
Qed.

Lemma size_add_notin b X : b ∉ X → size ({[b]} ∪ X) = Datatypes.S (size X).
Proof. intros. rw size_union; [set_solver|]. by rw size_singleton. Qed.

Lemma size_add_in b X : b ∈ X → size ({[b]} ∪ X) = size X.
Proof. intros. f_equal. apply leibniz_equiv. set_solver. Qed.
End sizes.

Lemma budget_log sb st k :
  budget sb st k → Z.of_nat (size (st_log st)) + k ≤ st_cap st.
Proof. rw /budget. pose proof (size_add_le (sb_bmapstart sb) (st_log st)). lia. Qed.

(** Reading the bitmap, or a block that will be logged. *)
Lemma budget_read sb st k n b :
  budget sb st k → 1 ≤ k → (size (st_held st) ≤ n)%nat → Z.of_nat n ≤ 1 → st_cap st < Z.of_nat NBUF →
  0 ≤ b < st_size st → unheld b st → can_read b st.
Proof.
  intros Hb Hk Hh Hn Hc Hr Hu. split_and!; [lia|lia|done|]. right. rw /st_room.
  pose proof (budget_log _ _ _ Hb). unfold NBUF in *. lia.
Qed.

Section alloc.
Context {S : Type} `{!Lens S core, !BlockStore S}.
Abbreviation fst := (fst_state S).
Context (sb : superblock) (ino : list inode) (c : core).
Implicit Types (s : fst) (st : store).

(** The state after [balloc] has returned [b]. *)
Definition st_alloc (b : Z) (st : store) : store :=
  st_wr b (replicate (Z.to_nat BSIZE) 0) (st_wr (sb_bmapstart sb) (bit_set (bmp sb st) b) st).

Lemma blk_zeros : blk (replicate (Z.to_nat BSIZE) 0).
Proof. split; [by rw length_replicate|]. apply Forall_replicate. done. Qed.

Lemma BBLOCK_one st b : fsgeo sb st → 0 ≤ b < sb_size sb → 0 ≤ sb_bmapstart sb → BBLOCK b sb = sb_bmapstart sb.
Proof.
  intros Hg Hb H0. destruct Hg. rw /BBLOCK /BPB. rw /BPB in fg_bpb0. change (BSIZE * 8) with 4096 in *.
  rw (Z.div_small b 4096); [lia|]. apply u32_small. lia.
Qed.

Lemma bzero_fat st s b :
  fat st sb ino c s → can_read b st → can_log b st → b < 2 ^ 31 →
  total (bzero 1 b) s (λ _, fat (st_wr b (replicate (Z.to_nat BSIZE) 0) st) sb ino c).
Proof.
  intros Hf Hr Hl Hb. rw /bzero (u32_small b); [destruct Hr; lia|].
  eapply run_breadf; [done|done|]. intros i s1 Hi H1.
  eapply run_update_end; [done|done|apply blk_zeros|done|done].
Qed.

(** Every block operation of [balloc] is within the budget. *)
Lemma alloc_steps st n b k :
  fsgeo sb st → meta_used sb st → held_ok sb st n → Z.of_nat n ≤ 1 → budget sb st k → 1 ≤ k →
  st_cap st < Z.of_nat NBUF → 0 ≤ b < sb_size sb → ¬ inuse sb st b → 0 ≤ sb_bmapstart sb →
  let st1 := st_wr (sb_bmapstart sb) (bit_set (bmp sb st) b) st in
  can_read (sb_bmapstart sb) st ∧ can_log (sb_bmapstart sb) st ∧ can_read b st1 ∧ can_log b st1 ∧
  sb_bmapstart sb < b.
Proof.
  intros Hg Hm Hh Hn Hbud Hk Hc Hb Hfree H0 st1. pose proof (budget_log _ _ _ Hbud) as Hl. destruct Hg.
  assert (sb_bmapstart sb < b) as Hlt.
  { destruct (decide (b ≤ sb_bmapstart sb)); [|lia]. destruct Hfree. apply Hm. lia. }
  split_and!; [| | | |done].
  - apply (budget_read sb st k n); [done|done|apply Hh|done|done|lia|apply Hh].
  - split; lia.
  - split_and!; [simpl; lia|simpl; lia| |].
    + intros i f Hi. apply Hfree. by eapply Hh.
    + right. rw /st_room /=. rw /budget in Hbud. pose proof (hd_size _ _ _ Hh). unfold NBUF in *. lia.
  - split; simpl; [lia|]. rw /budget in Hbud. lia.
Qed.

Lemma balloc_fat st s n k :
  fat st sb ino c s → fsgeo sb st → meta_used sb st → held_ok sb st n → Z.of_nat n ≤ 1 →
  budget sb st k → 1 ≤ k → (∃ b, 0 ≤ b < sb_size sb ∧ ¬ inuse sb st b) →
  total (balloc 1) s (λ b s', data_block sb b ∧ ¬ inuse sb st b ∧ (∀ j, 0 ≤ j < b → inuse sb st j) ∧
    fat (st_alloc b st) sb ino c s').
Proof.
  intros Hf Hg Hm Hh Hn Hbud Hk (b0 & Hb0 & Hfree). pose proof (fat_cap _ _ _ _ _ Hf) as Hc.
  assert (0 ≤ sb_bmapstart sb) as H0 by (destruct Hg; lia).
  rw /balloc. apply total_gets_bind. rw (fa_sb _ _ _ _ _ Hf).
  rw (_ : (Z.to_nat (sb_size sb / BPB) + 2)%nat = Datatypes.S (Z.to_nat (sb_size sb / BPB) + 1)); [lia|].
  cbn [balloc_loop]. apply total_gets_bind. rw (fa_sb _ _ _ _ _ Hf).
  destruct (Z.ltb_spec 0 (sb_size sb)); [|lia]. rw (BBLOCK_one st 0) //.
  eapply run_breadf; [done|by apply (alloc_steps st n b0 k)|]. intros i s1 Hi H1.
  eapply run_getb; [done|by rw /= lookup_insert_eq|]. cbn [st_hold st_view]. rw -/(bmp sb st).
  assert (sb_size sb - 0 ≤ Z.of_nat (Z.to_nat BPB)) as Hfuel by (destruct Hg; lia).
  pose proof (find_free_spec (Z.to_nat BPB) (bmp sb st) (sb_size sb) 0 ltac:(lia) (fg_bpb _ _ Hg) Hfuel) as Hfind.
  revert Hfind. generalize (find_free (Z.to_nat BPB) (bmp sb st) 0 (sb_size sb) 0). clear Hfuel.
  intros [b|] Hfind; [|by destruct Hfree; apply Hfind]. destruct Hfind as (Hb & Hbf & Hfirst).
  assert (¬ inuse sb st b) as Hnb by (rw /inuse Hbf; done).
  destruct (alloc_steps st n b k) as (_ & Hl1 & Hr2 & Hl2 & Hlt); [done..|].
  eapply run_update; [done|done| |done|].
  - apply blk_bit_set. eapply fat_blk; [done|]. destruct Hg. lia.
  - intros s2 H2. eapply total_bind; [apply bzero_fat; [done|done|done|destruct Hg; lia]|].
    cbv beta. intros _ s3 H3. apply total_ret. rw u32_small; [destruct Hg; lia|]. by split_and!; [split; lia|..].
Qed.

(** The state after [bfree] of [b]. *)
Definition st_free (b : Z) (st : store) : store :=
  st_wr (sb_bmapstart sb) (bit_clear (bmp sb st) b) st.

Lemma fat_set_sb st s : fat st sb ino c s → fat st sb ino c (set_sb sb s).
Proof. by intros [? ? ? ?]. Qed.

Lemma readsb_fat st s :
  fat st sb ino c s → fsgeo sb st → can_read 1 st →
  total (readsb 1) s (λ r s', r = sb ∧ fat st sb ino c s').
Proof.
  intros Hf Hg Hr. rw /readsb. eapply run_breadf; [done|done|]. intros i s1 Hi H1.
  eapply run_getb; [done|by rw /= lookup_insert_eq|]. eapply run_rel; [done|done|]. intros s2 H2.
  apply total_ret. split; [apply Hg|done].
Qed.

Lemma bfree_reads st n k :
  fsgeo sb st → meta_used sb st → held_ok sb st n → Z.of_nat n ≤ 1 → unheld 1 st → budget sb st k → 1 ≤ k →
  st_cap st < Z.of_nat NBUF → can_read 1 st ∧ can_read (sb_bmapstart sb) st.
Proof.
  intros Hg Hm Hh Hn Hu Hbud Hk Hc. destruct Hg.
  split; apply (budget_read sb st k n); try done; try lia; apply Hh.
Qed.

Lemma bfree_fat st s n k b :
  fat st sb ino c s → fsgeo sb st → meta_used sb st → held_ok sb st n → Z.of_nat n ≤ 1 → unheld 1 st →
  budget sb st k → 1 ≤ k → data_block sb b → inuse sb st b →
  total (bfree 1 b) s (λ _, fat (st_free b st) sb ino c).
Proof.
  intros Hf Hg Hm Hh Hn Hu Hbud Hk Hb Hin. pose proof (fat_cap _ _ _ _ _ Hf) as Hc.
  destruct (bfree_reads st n k) as [Hr1 Hr2]; [done..|]. pose proof (budget_log _ _ _ Hbud).
  assert (0 ≤ sb_bmapstart sb) as H0 by (destruct Hg; lia).
  rw /bfree. eapply total_bind; [by apply readsb_fat|]. cbv beta. intros ? s1 [-> H1].
  apply total_modify_bind. rw (BBLOCK_one st b); [done|destruct Hb; lia|done|].
  eapply run_breadf; [by apply fat_set_sb|done|]. intros i s2 Hi H2. cbv zeta.
  eapply run_getb; [done|by rw /= lookup_insert_eq|]. cbn [st_hold st_view]. rw -/(bmp sb st).
  rw (Z.mod_small b); [destruct Hg, Hb; lia|]. rw bit_free_used. rw /inuse in Hin. rw Hin. cbn [negb].
  eapply run_update_end; [done|done| | |done].
  - apply blk_bit_clear. eapply fat_blk; [done|]. destruct Hg. lia.
  - destruct Hg. split; lia.
Qed.
End alloc.

(** ** What the allocator does to the file system *)

Section alloc_effect.
Context (sb : superblock) (st : store) (Hg : fsgeo sb st).
Context (Hblk : blk (bmp sb st)).

Lemma view_st_wr b d x : st_view (st_wr b d st) !!! x = if decide (x = b) then d else st_view st !!! x.
Proof. simpl. case_decide; [subst; apply lookup_total_insert_eq|by rw lookup_total_insert_ne]. Qed.

Lemma alloc_bmp b : data_block sb b → bmp sb (st_alloc sb b st) = bit_set (bmp sb st) b.
Proof.
  intros [? ?]. rw /bmp /st_alloc /=. rw lookup_total_insert_ne; [lia|]. by rw lookup_total_insert_eq.
Qed.

Lemma alloc_inuse b j :
  data_block sb b → 0 ≤ j < sb_size sb → inuse sb (st_alloc sb b st) j ↔ j = b ∨ inuse sb st j.
Proof.
  intros Hb Hj. rw /inuse alloc_bmp // used_bit_set //; [destruct Hg, Hb; lia|destruct Hg; lia|].
  rw orb_true_iff bool_decide_eq_true. done.
Qed.

Lemma alloc_view b x :
  data_block sb b → x ≠ b → x ≠ sb_bmapstart sb → st_view (st_alloc sb b st) !!! x = st_view st !!! x.
Proof. intros. rw /st_alloc /= !lookup_total_insert_ne //. Qed.

Lemma alloc_zero b : st_view (st_alloc sb b st) !!! b = replicate (Z.to_nat BSIZE) 0.
Proof. by rw /st_alloc; cbn [st_view st_wr]; rw lookup_total_insert_eq. Qed.

Lemma free_bmp b : bmp sb (st_free sb b st) = bit_clear (bmp sb st) b.
Proof. by rw /bmp /st_free /= lookup_total_insert_eq. Qed.

Lemma free_inuse b j :
  data_block sb b → 0 ≤ j < sb_size sb → inuse sb (st_free sb b st) j ↔ j ≠ b ∧ inuse sb st j.
Proof.
  intros Hb Hj. rw /inuse free_bmp used_bit_clear //; [destruct Hg, Hb; lia|destruct Hg; lia|].
  rw andb_true_iff negb_true_iff bool_decide_eq_false. done.
Qed.
End alloc_effect.

Section claims.
Context {S : Type} `{!Lens S core, !BlockStore S}.
Implicit Types (s : fst_state S).

(** [balloc] returns the lowest free data block, marks it and only it in
    use, fills it with zeros and leaves every other block as it was. *)
Theorem balloc_correct sb ino c st s :
  fat st sb ino c s → fsgeo sb st → meta_used sb st → held_ok sb st 1 → budget sb st 1 →
  (∃ b, 0 ≤ b < sb_size sb ∧ ¬ inuse sb st b) →
  total (balloc 1) s (λ b s', ∃ st', fat st' sb ino c s' ∧ data_block sb b ∧
    ¬ inuse sb st b ∧ (∀ j, 0 ≤ j < b → inuse sb st j) ∧
    (∀ j, 0 ≤ j < sb_size sb → inuse sb st' j ↔ j = b ∨ inuse sb st j) ∧
    st_view st' !!! b = replicate (Z.to_nat BSIZE) 0 ∧
    (∀ x, x ≠ b → x ≠ sb_bmapstart sb → st_view st' !!! x = st_view st !!! x) ∧
    st_held st' = st_held st).
Proof.
  intros Hf Hg Hm Hh Hbud Hfree. eapply total_mono; [by apply (balloc_fat sb ino c st s 1 1)|].
  cbv beta. intros b s' (Hb & Hn & Hfirst & Hf'). exists (st_alloc sb b st).
  assert (blk (bmp sb st)) by (eapply fat_blk; [done|]; destruct Hg; lia).
  split_and!; try done; [|apply alloc_zero|]; intros; [by apply alloc_inuse|by apply alloc_view].
Qed.

(** [bfree] of a data block in use marks it and only it free, and changes
    no other block. *)
Theorem bfree_correct sb ino c st s b :
  fat st sb ino c s → fsgeo sb st → meta_used sb st → held_ok sb st 1 → unheld 1 st → budget sb st 1 →
  data_block sb b → inuse sb st b →
  total (bfree 1 b) s (λ _ s', ∃ st', fat st' sb ino c s' ∧
    (∀ j, 0 ≤ j < sb_size sb → inuse sb st' j ↔ j ≠ b ∧ inuse sb st j) ∧
    (∀ x, x ≠ sb_bmapstart sb → st_view st' !!! x = st_view st !!! x) ∧
    st_held st' = st_held st).
Proof.
  intros Hf Hg Hm Hh Hu Hbud Hb Hin. eapply total_mono; [by apply (bfree_fat sb ino c st s 1 1)|].
  cbv beta. intros _ s' Hf'. exists (st_free sb b st).
  assert (blk (bmp sb st)) by (eapply fat_blk; [done|]; destruct Hg; lia).
  split_and!; try done; intros; [by apply free_inuse|by rw view_st_wr decide_False].
Qed.

(** Freeing a block that is already free stops the machine. *)
Theorem bfree_double_free sb ino c st s b :
  fat st sb ino c s → fsgeo sb st → meta_used sb st → held_ok sb st 1 → unheld 1 st → budget sb st 1 →
  data_block sb b → ¬ inuse sb st b →
  ∃ s', bfree 1 b s = Panic "freeing free block" s'.
Proof.
  intros Hf Hg Hm Hh Hu Hbud Hb Hin. pose proof (fat_cap _ _ _ _ _ Hf) as Hc.
  destruct (bfree_reads sb st 1 1) as [Hr1 Hr2]; [done..|].
  assert (0 ≤ sb_bmapstart sb) as H0 by (destruct Hg; lia).
  rw /bfree. destruct (readsb_fat sb ino c st s Hf Hg Hr1) as (r & s1 & E1 & -> & H1).
  rw (run_bind _ _ _ _ _ E1) run_modify (BBLOCK_one sb st b) //; [destruct Hb; lia|].
  destruct (run_breadf sb ino c st (set_sb sb s1) (sb_bmapstart sb) (λ i, mret i) (λ i s', st_held st !! i = None ∧
    fat (st_hold i (sb_bmapstart sb) st) sb ino c s')) as (i & s2 & E2 & Hi & H2); [by apply fat_set_sb|done| |].
  { intros i s' Hi H'. by apply total_ret. }
  apply run_bind_inv in E2 as (i' & s2' & E2 & [= -> ->]).
  change (u32 1) with 1. rw (run_bind _ _ _ _ _ E2) /getb run_gets.
  rw (in_txn_data _ _ i (sb_bmapstart sb) false (fa_txn _ _ _ _ _ H2)); [by rw /= lookup_insert_eq|].
  cbn [st_hold st_view]. rw (Z.mod_small b); [destruct Hg, Hb; lia|]. rw bit_free_used.
  destruct (used (st_view st !!! sb_bmapstart sb) b) eqn:E; [by destruct Hin|]. by eexists.
Qed.
End claims.
