(* ===== verification/FsInode.v ===== *)
(** * Inodes: the copy in memory and the copy on the disk

    [iupdate] and [ilock] move an inode between the cache and its slot in an
    inode block; [iget] and [idup] manage the references of the cache. *)

From S2P Require Import Prelude CString Layout Kernel Store Fs FsAlloc.

(** The inode [inum] as the disk has it. *)
Definition disk_inode (sb : superblock) (st : store) (inum : Z) : dinode :=
  get_dinode (inum mod IPB) (st_view st !!! IBLOCK inum sb).

Definition inum_ok (sb : superblock) (inum : Z) : Prop := 0 ≤ inum < sb_ninodes sb.

Lemma IBLOCK_range sb st inum :
  fsgeo sb st → inum_ok sb inum →
  IBLOCK inum sb = inum / IPB + sb_inodestart sb ∧ st_base st ≤ IBLOCK inum sb < sb_bmapstart sb ∧
  0 ≤ inum mod IPB < IPB.
Proof.
  intros Hg [Hi0 Hi]. pose proof Hg as [H1 H2 H3 H4 H5 H6 H7 H8 _]. rw /IBLOCK. rw /IPB in H6 |- *.
  change (BSIZE / sizeof_dinode) with 8 in *.
  assert (inum / 8 ≤ (sb_ninodes sb - 1) / 8) by (apply Z.div_le_mono; lia).
  rw u32_small; [lia|]. lia.
Qed.

(** Inode numbers that share a block differ in their slot. *)
Lemma inum_slot sb st i j :
  fsgeo sb st → inum_ok sb i → inum_ok sb j → IBLOCK i sb = IBLOCK j sb → i mod IPB = j mod IPB → i = j.
Proof.
  intros Hg Hi Hj Hb Hs. destruct (IBLOCK_range sb st i Hg Hi) as (E1 & _).
  destruct (IBLOCK_range sb st j Hg Hj) as (E2 & _). rw /IPB in E1, E2, Hs. change (BSIZE / sizeof_dinode) with 8 in *. lia.
Qed.

(** The fields of an inode fit the disk structure. *)
Definition inode_fits (x : inode) : Prop := dinode_ok (to_dinode x).

Section inodes.
Context {S : Type} `{!Lens S core, !BlockStore S}.
Abbreviation fst := (fst_state S).
Context (sb : superblock) (c : core).
Implicit Types (s : fst) (st : store) (ino : list inode) (ip : nat) (x : inode).

Lemma fat_iupd st ino s ip f : fat st sb ino c s → fat st sb (alter f ip ino) c (iupd ip f s).
Proof. intros [? ? Hi ?]. split; [done|done|by rw /= Hi|done]. Qed.

Lemma fat_nin st ino s ip : fat st sb ino c s → nin ip s = ino !!! ip.
Proof. intros [_ _ Hi _]. by rw /nin Hi. Qed.

(** The inode block of [x] can be read and logged. *)
Definition iblock_ok (st : store) (inum : Z) : Prop :=
  can_read (IBLOCK inum sb) st ∧ can_log (IBLOCK inum sb) st.

(** The state after [iupdate]. *)
Definition st_iupdate (x : inode) (st : store) : store :=
  st_wr (IBLOCK (i_inum x) sb)
    (put_dinode (i_inum x mod IPB) (to_dinode x) (st_view st !!! IBLOCK (i_inum x) sb)) st.

Lemma iupdate_fat st ino s ip x :
  fat st sb ino c s → fsgeo sb st → ino !!! ip = x → i_dev x = 1 → inum_ok sb (i_inum x) →
  inode_fits x → iblock_ok st (i_inum x) →
  total (iupdate ip) s (λ _, fat (st_iupdate x st) sb ino c).
Proof.
  intros Hf Hg Hx Hd Hi Hfit [Hr Hl]. rw /iupdate. do 2 apply total_gets_bind.
  rw (fat_nin _ _ _ _ Hf) Hx (fa_sb _ _ _ _ _ Hf) Hd.
  eapply run_breadf; [done|done|]. intros b s1 Hb H1. eapply run_getb; [done|by rw /= lookup_insert_eq|].
  destruct (IBLOCK_range sb st (i_inum x) Hg Hi) as (_ & Hrange & Hslot).
  eapply run_update_end; [done|done| |done|done].
  apply put_dinode_frame; [|done|apply Hfit|apply Hfit]. eapply fat_blk; [done|]. destruct Hg. simpl. lia.
Qed.

(** After [iupdate] the disk has the inode, and the other inodes are untouched. *)
Lemma st_iupdate_disk st x j :
  fsgeo sb st → inum_ok sb (i_inum x) → inum_ok sb j → inode_fits x → blk (st_view st !!! IBLOCK (i_inum x) sb) →
  disk_inode sb (st_iupdate x st) j = if decide (j = i_inum x) then to_dinode x else disk_inode sb st j.
Proof.
  intros Hg Hi Hj Hfit Hblk. rw /disk_inode /st_iupdate. rw view_st_wr.
  destruct (IBLOCK_range sb st _ Hg Hi) as (_ & _ & Hs). destruct (IBLOCK_range sb st _ Hg Hj) as (_ & _ & Hsj).
  case_decide as Hb.
  - case_decide as Hij; [subst j; by apply get_put_dinode|]. rw Hb. apply get_put_dinode_ne; [done..| |apply Hfit|apply Hfit].
    intros He. by apply Hij, (inum_slot sb st).
  - rw decide_False //. congruence.
Qed.

(** ** Locking an inode *)

#[global] Instance inode_sleeploc i : SleepLoc (S:=fst) (inode_lock i) (set_inode_lock i).
Proof. by split. Qed.

(** A process other than the holder is not in the way, and the slot is in use. *)
Definition lockable (ino : list inode) (ip : nat) : Prop :=
  (ip < length ino)%nat ∧ 1 ≤ i_ref (ino !!! ip) ∧ sl_locked (i_lock (ino !!! ip)) = 0.

Lemma fat_lset st ino s d : fat st sb ino c s → core_le c d → c_locks d = [] → fat st sb ino c (lset d s).
Proof.
  intros [Ht Hsb Hi Hc] Hd Hl. split; simpl; [by apply in_txn_core|done|done|]. by rw lget_lset.
Qed.

Lemma fat_locks st ino s : fat st sb ino c s → c_locks (lget (fs_store s)) = [].
Proof. intros [Ht _ _ _]. by eapply in_txn_locks. Qed.

Lemma acquire_inode_fat st ino s ip :
  fat st sb ino c s → sl_locked (i_lock (ino !!! ip)) = 0 →
  total (acquiresleep (SLInode ip) (inode_lock ip) (set_inode_lock ip)) s (λ _ s', ∃ pid,
    fat st sb (alter (w_ilock (mkSleeplock 1 pid)) ip ino) c s').
Proof.
  intros Hf Hl. pose proof (fat_locks _ _ _ Hf) as Hk.
  eexists _, _. split.
  - apply (acquiresleep_run (SLInode ip) (inode_lock ip) (set_inode_lock ip)).
    + change (lget s) with (lget (fs_store s)). rw Hk. apply not_elem_of_nil.
    + by rw /inode_lock (fat_nin _ _ _ _ Hf).
  - eexists. by apply fat_iupd.
Qed.

Lemma release_inode_fat st ino s ip :
  fat st sb ino c s →
  total (releasesleep (SLInode ip) (set_inode_lock ip)) s
    (λ _, fat st sb (alter (w_ilock sleeplock0) ip ino) c).
Proof.
  intros Hf. pose proof (fat_locks _ _ _ Hf) as Hk. eexists _, _. split.
  - apply (releasesleep_run (SLInode ip) (inode_lock ip) (set_inode_lock ip));
      change (lget s) with (lget (fs_store s)); rw Hk; apply not_elem_of_nil.
  - apply fat_lset; [by apply fat_iupd| |done]. etrans; [apply Hf|apply wakeup_le].
Qed.
End inodes.
