(* ===== verification/FsMap.v ===== *)
(** * The block map of a file: [bmap]

    [bmap] finds the block that holds a given part of a file, allocating it and
    the indirect block when they are missing.  The theorems say what it may
    change: the map of its own inode, the bitmap, and blocks that were free. *)

From S2P Require Import Prelude CString Layout Kernel Store Fs FsAlloc FsInode.

(** ** The block map of an inode *)

Definition ind (x : inode) : Z := nthZ (i_addrs x) NDIRECT.

Definition iaddr (st : store) (x : inode) (k : Z) : Z :=
  if k <? NDIRECT then nthZ (i_addrs x) k
  else if ind x =? 0 then 0 else word (k - NDIRECT) (st_view st !!! ind x).

(** A well-formed block map: data blocks in use, no block used twice. *)
Record iwf (sb : superblock) (st : store) (x : inode) : Prop := {
  iw_dev : i_dev x = 1;
  iw_len : length (i_addrs x) = 13%nat;
  iw_ind : ind x = 0 ∨ data_block sb (ind x) ∧ inuse sb st (ind x);
  iw_data k : 0 ≤ k < MAXFILE → iaddr st x k = 0 ∨ data_block sb (iaddr st x k) ∧ inuse sb st (iaddr st x k);
  iw_inj k j : 0 ≤ k < MAXFILE → 0 ≤ j < MAXFILE → iaddr st x k ≠ 0 → iaddr st x k = iaddr st x j → k = j;
  iw_indne k : 0 ≤ k < MAXFILE → iaddr st x k ≠ 0 → iaddr st x k ≠ ind x;
}.

(** The blocks of a file. *)
Definition owns (st : store) (x : inode) (b : Z) : Prop :=
  b ≠ 0 ∧ (b = ind x ∨ ∃ k, 0 ≤ k < MAXFILE ∧ b = iaddr st x k).

(** The number of free blocks. *)
Definition nfree (sb : superblock) (st : store) : nat :=
  length (filter (λ b, used (bmp sb st) b = false) (seqZ 0 (sb_size sb))).

(** The log space a file operation needs: the bitmap, the inode, the indirect
    block (to be allocated or not) and [k] data blocks. *)
Definition reserve (sb : superblock) (st : store) (x : inode) : gset Z :=
  {[sb_bmapstart sb]} ∪ ({[IBLOCK (i_inum x) sb]} ∪ ((if ind x =? 0 then ∅ else {[ind x]}) ∪ st_log st)).
Definition fbudget (sb : superblock) (st : store) (x : inode) (k : Z) : Prop :=
  Z.of_nat (size (reserve sb st x)) + (if ind x =? 0 then 1 else 0) + k < st_cap st.

(** Everything file operations rely on and preserve. *)
Record fsinv (sb : superblock) (st : store) : Prop := {
  fi_geo : fsgeo sb st;
  fi_meta : meta_used sb st;
  fi_held : st_held st = ∅;
}.

Section count.
Context (sb : superblock).
Implicit Types (st : store).

Lemma nfree_pos st : (0 < nfree sb st)%nat → ∃ b, 0 ≤ b < sb_size sb ∧ ¬ inuse sb st b.
Proof.
  rw /nfree. intros H. destruct (filter _ _) as [|b l] eqn:E; [simpl in H; lia|].
  assert (b ∈ filter (λ b, used (bmp sb st) b = false) (seqZ 0 (sb_size sb))) as [Hb Hin]%list_elem_of_filter.
  { rw E. by left. }
  apply elem_of_seqZ in Hin. exists b. split; [lia|]. by rw /inuse Hb.
Qed.

(** Allocating a block uses up one free block. *)
Lemma length_filter_flip {A} `{EqDecision A} (P Q : A → Prop) `{!∀ x, Decision (P x), !∀ x, Decision (Q x)} (b : A) (l : list A) :
  NoDup l → P b → ¬ Q b → (∀ x, x ∈ l → x ≠ b → P x ↔ Q x) →
  length (filter P l) = (length (filter Q l) + (if decide (b ∈ l) then 1 else 0))%nat.
Proof.
  intros Hnd HP HQ. induction Hnd as [|a l Ha Hnd IH]; intros Hx; [done|].
  assert (∀ x, x ∈ l → x ≠ b → P x ↔ Q x) as Hx' by (intros; apply Hx; [by right|done]).
  specialize (IH Hx'). rw !filter_cons. destruct (decide (a = b)) as [->|Hab].
  - rw (decide_True _ (P:=P b)) // (decide_False _ (P:=Q b)) //.
    destruct (decide (b ∈ b :: l)) as [_|Hn]; [|destruct Hn; by left].
    destruct (decide (b ∈ l)); [done|]. simpl. lia.
  - assert (P a ↔ Q a) as Hpq by (apply Hx; [by left|done]).
    rw (decide_ext (b ∈ a :: l) (b ∈ l)); [rw elem_of_cons; naive_solver|].
    destruct (decide (P a)), (decide (Q a)); simpl; naive_solver lia.
Qed.

Lemma nfree_alloc st b :
  fsgeo sb st → blk (bmp sb st) → data_block sb b → ¬ inuse sb st b → 0 ≤ sb_bmapstart sb →
  nfree sb st = S (nfree sb (st_alloc sb b st)).
Proof.
  intros Hg Hblk Hb Hn H0. rw /nfree.
  rw (length_filter_flip (λ x, used (bmp sb st) x = false) (λ x, used (bmp sb (st_alloc sb b st)) x = false)
    b (seqZ 0 (sb_size sb)) (NoDup_seqZ _ _)); [by apply not_true_iff_false| | |].
  - rw not_false_iff_true. apply alloc_inuse; [done|done|done|destruct Hb; lia|by left].
  - intros x Hx%elem_of_seqZ Hne. rw -!not_true_iff_false.
    pose proof (alloc_inuse sb st Hg Hblk b x Hb ltac:(lia)) as Hiff. rw /inuse in Hiff. rw Hiff. naive_solver.
  - destruct (decide (b ∈ seqZ 0 (sb_size sb))) as [_|Hout]; [lia|].
    destruct Hout. apply elem_of_seqZ. destruct Hb. lia.
Qed.
End count.

(** A data block may be logged. *)
Lemma data_log sb st b : fsgeo sb st → data_block sb b → st_base st ≤ b < st_size st.
Proof. intros [] []. lia. Qed.

(** ** Preservation *)

Section preserve.
Context (sb : superblock).
Implicit Types (st : store) (x : inode).

(** Writing a block that is neither the super block nor a bitmap. *)
Lemma fsinv_wr st b d : fsinv sb st → sb_bmapstart sb ≠ b → b ≠ 1 → fsinv sb (st_wr b d st).
Proof.
  intros [[? ? ? ? ? ? ? ? Hsb] Hm Hh] Hb H1. split; [|intros j Hj|done].
  - split; try done. by rw view_st_wr decide_False.
  - rw /inuse /bmp view_st_wr decide_False //. by apply Hm.
Qed.

Lemma inuse_wr st b d j : sb_bmapstart sb ≠ b → inuse sb (st_wr b d st) j ↔ inuse sb st j.
Proof. intros Hb. by rw /inuse /bmp view_st_wr decide_False. Qed.

Lemma nfree_wr st b d : sb_bmapstart sb ≠ b → nfree sb (st_wr b d st) = nfree sb st.
Proof. intros Hb. by rw /nfree /bmp view_st_wr decide_False. Qed.

Lemma fsinv_alloc st b :
  fsinv sb st → blk (bmp sb st) → data_block sb b → fsinv sb (st_alloc sb b st).
Proof.
  intros [Hg Hm Hh] Hblk Hb. pose proof Hg as [? ? ? ? ? ? ? ? Hsb]. pose proof Hb as [? ?]. split; [|intros j Hj|done].
  - split; try done. rw alloc_view //; lia.
  - apply alloc_inuse; [done|done|done|lia|]. right. by apply Hm.
Qed.

(** An update of a block that is not the indirect block leaves the map. *)
Lemma iaddr_ext st st' x k :
  (ind x ≠ 0 → st_view st' !!! ind x = st_view st !!! ind x) → iaddr st' x k = iaddr st x k.
Proof. intros H. rw /iaddr. destruct (k <? NDIRECT); [done|]. destruct (Z.eqb_spec (ind x) 0); [done|]. by rw H. Qed.

Lemma iwf_ext st st' x :
  iwf sb st x → (∀ j, data_block sb j → inuse sb st j → inuse sb st' j) →
  (ind x ≠ 0 → st_view st' !!! ind x = st_view st !!! ind x) → iwf sb st' x.
Proof.
  intros [H1 H2 H3 H4 H5 H6] Hu Hv.
  assert (∀ k, iaddr st' x k = iaddr st x k) as E by (intros; by apply iaddr_ext).
  split; [done|done| | | |].
  - destruct H3 as [?|[? ?]]; [by left|right; auto].
  - intros k Hk. rw E. destruct (H4 k Hk) as [?|[? ?]]; [by left|right; auto].
  - intros k j. rw !E. apply H5.
  - intros k. rw E. apply H6.
Qed.
End preserve.

(** ** Extending a file by one block *)

Record ext (sb : superblock) (k : Z) (st : store) (x : inode) (st' : store) (x' : inode) : Prop := {
  ex_x : x' = w_addrs (i_addrs x') x;
  ex_inv : fsinv sb st';
  ex_wf : iwf sb st' x';
  ex_other j : 0 ≤ j < MAXFILE → j ≠ k → iaddr st' x' j = iaddr st x j;
  ex_keep : iaddr st x k ≠ 0 → iaddr st' x' k = iaddr st x k;
  ex_ind : ind x ≠ 0 → ind x' = ind x;
  ex_indnew : ind x = 0 → ind x' = 0 ∨ ¬ inuse sb st (ind x');
  ex_view y : 0 ≤ y < sb_size sb → inuse sb st y → y ≠ sb_bmapstart sb → y ≠ ind x →
    st_view st' !!! y = st_view st !!! y;
  ex_used j : 0 ≤ j < sb_size sb → inuse sb st j → inuse sb st' j;
  ex_new j : 0 ≤ j < sb_size sb → inuse sb st' j → inuse sb st j ∨ owns st' x' j;
  ex_consts : st_size st' = st_size st ∧ st_base st' = st_base st ∧ st_cap st' = st_cap st ∧ st_disk st' = st_disk st;
}.

Section ext_facts.
Context (sb : superblock).
Implicit Types (st : store) (x : inode).

Lemma ext_refl k st x : fsinv sb st → iwf sb st x → ext sb k st x st x.
Proof. intros Hi Hw. split; [by destruct x|done..|intros; by left|done|done|intros; by left|done]. Qed.

Lemma ext_owns k st x st' x' j : ext sb k st x st' x' → owns st x j → owns st' x' j.
Proof.
  intros He [Hj [->|(i & Hi & ->)]]; (split; [done|]).
  - left. by rw (ex_ind _ _ _ _ _ _ He).
  - right. exists i. split; [done|]. destruct (decide (i = k)) as [->|].
    + by rw (ex_keep _ _ _ _ _ _ He).
    + by rw (ex_other _ _ _ _ _ _ He).
Qed.

Lemma data_range b : 0 ≤ sb_bmapstart sb → data_block sb b → 0 ≤ b < sb_size sb.
Proof. intros ? [? ?]. lia. Qed.

Lemma ext_trans k st x st1 x1 st2 x2 :
  0 ≤ sb_bmapstart sb → ext sb k st x st1 x1 → ext sb k st1 x1 st2 x2 → ext sb k st x st2 x2.
Proof.
  intros H0 H1 H2. split.
  - rw (ex_x _ _ _ _ _ _ H2) (ex_x _ _ _ _ _ _ H1). done.
  - apply H2.
  - apply H2.
  - intros j Hj Hne. rw (ex_other _ _ _ _ _ _ H2) //. by apply (ex_other _ _ _ _ _ _ H1).
  - intros Hk. rw -(ex_keep _ _ _ _ _ _ H1) // (ex_keep _ _ _ _ _ _ H2) //. by rw (ex_keep _ _ _ _ _ _ H1).
  - intros Hi. rw (ex_ind _ _ _ _ _ _ H2); rw (ex_ind _ _ _ _ _ _ H1) //.
  - intros Hi. destruct (ex_indnew _ _ _ _ _ _ H1 Hi) as [Hz|Hn].
    + destruct (ex_indnew _ _ _ _ _ _ H2 Hz) as [?|Hn]; [by left|].
      destruct (decide (ind x2 = 0)); [by left|right]. intros Hu. apply Hn.
      apply (ex_used _ _ _ _ _ _ H1); [|done].
      destruct (iw_ind _ _ _ (ex_wf _ _ _ _ _ _ H2)) as [?|[? _]]; [done|by apply data_range].
    + destruct (decide (ind x1 = 0)) as [Hz|Hz].
      * destruct (ex_indnew _ _ _ _ _ _ H2 Hz) as [?|Hn2]; [by left|].
        destruct (decide (ind x2 = 0)); [by left|right]. intros Hu. apply Hn2.
        apply (ex_used _ _ _ _ _ _ H1); [|done].
        destruct (iw_ind _ _ _ (ex_wf _ _ _ _ _ _ H2)) as [?|[? _]]; [done|by apply data_range].
      * right. by rw (ex_ind _ _ _ _ _ _ H2).
  - intros y Hy Hu Hb Hi. rw (ex_view _ _ _ _ _ _ H2) //; [by apply (ex_used _ _ _ _ _ _ H1)| |by apply (ex_view _ _ _ _ _ _ H1)].
    destruct (decide (ind x = 0)) as [Hz|Hz].
    + destruct (ex_indnew _ _ _ _ _ _ H1 Hz) as [Hz1|Hn]; [|congruence].
      congruence.
    + by rw (ex_ind _ _ _ _ _ _ H1).
  - intros j Hj Hu. apply (ex_used _ _ _ _ _ _ H2); [done|]. by apply (ex_used _ _ _ _ _ _ H1).
  - intros j Hj Hu. destruct (ex_new _ _ _ _ _ _ H2 j Hj Hu) as [Hu1|?]; [|by right].
    destruct (ex_new _ _ _ _ _ _ H1 j Hj Hu1) as [?|?]; [by left|right]. by eapply ext_owns.
  - destruct (ex_consts _ _ _ _ _ _ H1) as (? & ? & ? & ?), (ex_consts _ _ _ _ _ _ H2) as (? & ? & ? & ?).
    split_and!; congruence.
Qed.
End ext_facts.

Section extend.
Context (sb : superblock) (st : store) (x : inode) (b : Z).
Context (Hi : fsinv sb st) (Hw : iwf sb st x) (Hblk : blk (bmp sb st)) (Hb : data_block sb b) (Hfree : ¬ inuse sb st b).

Let Hg : fsgeo sb st := fi_geo _ _ Hi.

Lemma bmap_nonneg : 1 < sb_bmapstart sb.
Proof using Hi. destruct Hg. lia. Qed.

Lemma data_nz d : data_block sb d → 1 < d < sb_size sb.
Proof using Hi. intros [? ?]. pose proof bmap_nonneg. lia. Qed.

Lemma used_ne d : inuse sb st d → d ≠ b.
Proof using Hfree. congruence. Qed.

Lemma ind_view : ind x ≠ 0 → st_view (st_alloc sb b st) !!! ind x = st_view st !!! ind x.
Proof using Hw Hb Hfree.
  intros Hz. destruct (iw_ind _ _ _ Hw) as [?|[[Hd _] Hu]]; [done|]. apply alloc_view; [done|congruence|lia].
Qed.

Lemma alloc_iaddr k : iaddr (st_alloc sb b st) x k = iaddr st x k.
Proof using Hw Hb Hfree. apply iaddr_ext, ind_view. Qed.

Lemma alloc_iwf : iwf sb (st_alloc sb b st) x.
Proof using Hi Hw Hblk Hb Hfree.
  apply (iwf_ext _ st); [done| |apply ind_view]. intros j [? ?] Hu. pose proof bmap_nonneg.
  apply alloc_inuse; [done|done|done|lia|by right].
Qed.

(** The new block is not in the map. *)
Lemma iaddr_ne k : 0 ≤ k < MAXFILE → iaddr st x k ≠ b.
Proof using Hw Hfree Hb Hi.
  intros Hk E. destruct (iw_data _ _ _ Hw k Hk) as [Hz|[_ Hu]]; [|by rw E in Hu].
  pose proof (data_nz b Hb). lia.
Qed.
Lemma ind_ne : ind x ≠ b.
Proof using Hw Hfree Hb Hi.
  intros E. destruct (iw_ind _ _ _ Hw) as [Hz|[_ Hu]]; [|by rw E in Hu]. pose proof (data_nz b Hb). lia.
Qed.

(** A map that shows the new block at [k] and is otherwise unchanged. *)
Lemma ext_build k st' x' :
  0 ≤ k < MAXFILE → iaddr st x k = 0 → x' = w_addrs (i_addrs x') x → length (i_addrs x') = 13%nat →
  fsinv sb st' → ind x' = ind x → iaddr st' x' k = b →
  (∀ j, 0 ≤ j < MAXFILE → j ≠ k → iaddr st' x' j = iaddr st x j) →
  (∀ j, 0 ≤ j < sb_size sb → inuse sb st' j ↔ j = b ∨ inuse sb st j) →
  (∀ y, y ≠ b → y ≠ sb_bmapstart sb → y ≠ ind x → st_view st' !!! y = st_view st !!! y) →
  st_size st' = st_size st ∧ st_base st' = st_base st ∧ st_cap st' = st_cap st ∧ st_disk st' = st_disk st →
  ext sb k st x st' x'.
Proof using Hi Hw Hb Hfree.
  intros Hk Hz Hx Hlen Hi' Hind Hkb Hoth Hu Hv Hc. pose proof bmap_nonneg as Hbm.
  pose proof (data_nz b Hb) as Hb1.
  assert (∀ d, data_block sb d → inuse sb st d → inuse sb st' d) as Hmono.
  { intros d [? ?] ?. apply Hu; [lia|by right]. }
  split; [done|done| |done|by intros|by intros|intros; left; congruence| | | |done].
  - split; [rw Hx; apply Hw|done| | | |].
    + rw Hind. destruct (iw_ind _ _ _ Hw) as [?|[? ?]]; [by left|right; auto].
    + intros j Hj. destruct (decide (j = k)) as [->|Hne].
      * right. rw Hkb. split; [done|]. apply Hu; [lia|by left].
      * rw Hoth //. destruct (iw_data _ _ _ Hw j Hj) as [?|[? ?]]; [by left|right; auto].
    + intros i j Hi0 Hj. destruct (decide (i = k)) as [->|Hik], (decide (j = k)) as [->|Hjk]; rw ?Hkb ?Hoth //.
      * intros _ E. by destruct (iaddr_ne j).
      * intros _ E. by destruct (iaddr_ne i).
      * by apply (iw_inj _ _ _ Hw).
    + intros j Hj. rw Hind. destruct (decide (j = k)) as [->|Hne]; rw ?Hkb ?Hoth //.
      * intros _ E. by apply ind_ne.
      * by apply (iw_indne _ _ _ Hw).
  - intros y Hy Huy Hyb Hyi. apply Hv; [congruence|done|done].
  - intros j Hj ?. apply Hu; [done|by right].
  - intros j Hj [->|?]%Hu; [|by left|done]. right. split; [lia|]. right. exists k. done.
Qed.

Lemma ext_direct k :
  0 ≤ k < NDIRECT → nthZ (i_addrs x) k = 0 →
  ext sb k st x (st_alloc sb b st) (w_addrs (setZ k b (i_addrs x)) x).
Proof using Hi Hw Hblk Hb Hfree.
  intros Hk Hz. pose proof (iw_len _ _ _ Hw) as Hlen.
  assert (ind (w_addrs (setZ k b (i_addrs x)) x) = ind x) as Hind.
  { rw /ind /= nthZ_setZ_ne //; rw /NDIRECT in Hk |- *; lia. }
  apply ext_build; [rw /MAXFILE /NINDIRECT /BSIZE; lia| |done|by rw /= length_setZ|by apply fsinv_alloc|done| | | | |done].
  - rw /iaddr. destruct (Z.ltb_spec k NDIRECT); [done|lia].
  - rw /iaddr. destruct (Z.ltb_spec k NDIRECT); [|lia]. simpl. apply nthZ_setZ_eq. rw Hlen. rw /NDIRECT in Hk. lia.
  - intros j Hj Hne. rw -(alloc_iaddr j) /iaddr Hind. destruct (j <? NDIRECT); [|done]. simpl. apply nthZ_setZ_ne; lia.
  - intros j Hj. by apply alloc_inuse.
  - intros y H1 H2 _. by apply alloc_view.
Qed.

Lemma word_zeros k : 0 ≤ k < NINDIRECT → word k (replicate (Z.to_nat BSIZE) 0) = 0.
Proof using.
  rw /NINDIRECT /BSIZE. change (512 / 4) with 128. intros Hk. rw /word /load /slice drop_replicate take_replicate.
  rw (_ : (Z.to_nat (Z.of_nat 4) `min` (Z.to_nat 512 - Z.to_nat (4 * k)))%nat = 4%nat); [lia|done].
Qed.

(** Allocating the indirect block changes no entry of the map. *)
Lemma ext_indirect k :
  NDIRECT ≤ k < MAXFILE → ind x = 0 →
  ext sb k st x (st_alloc sb b st) (w_addrs (setZ NDIRECT b (i_addrs x)) x).
Proof using Hi Hw Hblk Hb Hfree.
  intros Hk Hz. pose proof (iw_len _ _ _ Hw) as Hlen. pose proof bmap_nonneg as Hbm. pose proof (data_nz b Hb) as Hb1.
  set (x' := w_addrs _ x). assert (ind x' = b) as Hind.
  { rw /ind /x' /= nthZ_setZ_eq // Hlen. rw /NDIRECT. lia. }
  assert (∀ j, 0 ≤ j < MAXFILE → iaddr (st_alloc sb b st) x' j = iaddr st x j) as Hsame.
  { intros j Hj. rw /iaddr Hind Hz /=. destruct (Z.ltb_spec j NDIRECT).
    - rw /x' /=. apply nthZ_setZ_ne; rw /NDIRECT in H |- *; lia.
    - destruct (Z.eqb_spec b 0); [lia|]. rw alloc_zero. apply word_zeros. rw /MAXFILE in Hj. lia. }
  assert (∀ j, data_block sb j → inuse sb st j → inuse sb (st_alloc sb b st) j) as Hmono.
  { intros j [? ?] ?. apply alloc_inuse; [done|done|done|lia|by right]. }
  split; [done| | | | |done| | | | |done].
  - by apply fsinv_alloc.
  - split; [apply Hw|by rw /x' /= length_setZ| | | |].
    + right. rw Hind. split; [done|]. apply alloc_inuse; [done|done|done|lia|by left].
    + intros j Hj. rw Hsame //. destruct (iw_data _ _ _ Hw j Hj) as [?|[? ?]]; [by left|right; auto].
    + intros i j Hi0 Hj. rw !Hsame //. by apply (iw_inj _ _ _ Hw).
    + intros j Hj. rw Hsame // Hind. intros _. by apply iaddr_ne.
  - intros j Hj _. by apply Hsame.
  - intros _. apply Hsame. rw /NDIRECT in Hk. lia.
  - intros _. right. by rw Hind.
  - intros y Hy Huy Hyb Hyi. apply alloc_view; [done|congruence|done].
  - intros j Hj ?. apply alloc_inuse; [done..|by right].
  - intros j Hj Hu. apply alloc_inuse in Hu as [->|?]; [|by left|done..]. right. split; [lia|]. by left.
Qed.

(** Allocating an entry of the indirect block. *)
Lemma ext_entry k :
  NDIRECT ≤ k < MAXFILE → ind x ≠ 0 → iaddr st x k = 0 → blk (st_view st !!! ind x) →
  ext sb k st x (st_wr (ind x) (set_word (k - NDIRECT) b (st_view st !!! ind x)) (st_alloc sb b st)) x.
Proof using Hi Hw Hblk Hb Hfree.
  intros Hk Hz Hk0 Hbi. pose proof bmap_nonneg as Hbm. pose proof (data_nz b Hb) as Hb1.
  destruct (iw_ind _ _ _ Hw) as [?|[Hdi Hui]]; [done|]. pose proof (data_nz _ Hdi) as Hdi1. destruct Hdi as [Hdi _].
  pose proof (blk_len _ Hbi) as Hlen. assert (sb_size sb < 2 ^ 31) as Hsz by (destruct Hg; lia).
  assert (∀ j, NDIRECT ≤ j < MAXFILE → 0 ≤ 4 * (j - NDIRECT) ∧ 4 * (j - NDIRECT) + 4 ≤ 512) as Hoff.
  { rw /MAXFILE /NINDIRECT /NDIRECT /BSIZE. change (512 / 4) with 128. lia. }
  apply ext_build; [rw /NDIRECT in Hk; lia|done|by destruct x|apply Hw| |done| | | | |done].
  - apply fsinv_wr; [by apply fsinv_alloc|lia|lia].
  - rw /iaddr. destruct (Z.ltb_spec k NDIRECT); [lia|]. destruct (Z.eqb_spec (ind x) 0); [done|].
    rw view_st_wr decide_True // /word /set_word load_store_small //; [apply Hoff; lia| |lia].
    pose proof (Hoff k Hk). lia.
  - intros j Hj Hne. rw /iaddr. destruct (Z.ltb_spec j NDIRECT); [done|]. destruct (Z.eqb_spec (ind x) 0); [done|].
    rw view_st_wr decide_True // /word /set_word. pose proof (Hoff k Hk). pose proof (Hoff j ltac:(lia)).
    apply load_store_ne; lia.
  - intros j Hj. rw inuse_wr; [lia|]. by apply alloc_inuse.
  - intros y H1 H2 H3. rw view_st_wr decide_False //. by apply alloc_view.
Qed.
End extend.

(** ** Log space *)

Section log_space.
Context (sb : superblock).
Implicit Types (st : store) (x : inode).

(** What is logged or reserved, the indirect block counted once. *)
Definition rsize (st : store) (x : inode) : Z :=
  Z.of_nat (size (reserve sb st x)) + (if ind x =? 0 then 1 else 0).

Lemma fbudget_rsize st x k : fbudget sb st x k ↔ rsize st x + k < st_cap st.
Proof. done. Qed.

Lemma reserve_wr st x b d : reserve sb (st_wr b d st) x = {[b]} ∪ reserve sb st x.
Proof. rw /reserve /=. apply leibniz_equiv. set_solver. Qed.

Lemma rsize_wr st x b d : rsize (st_wr b d st) x ≤ rsize st x + 1.
Proof. rw /rsize reserve_wr. pose proof (size_add_le b (reserve sb st x)). lia. Qed.

Lemma rsize_wr_in st x b d : b ∈ reserve sb st x → rsize (st_wr b d st) x = rsize st x.
Proof. intros. by rw /rsize reserve_wr size_add_in. Qed.

Lemma bmap_reserve st x : sb_bmapstart sb ∈ reserve sb st x.
Proof. rw /reserve. set_solver. Qed.

Lemma rsize_alloc st x b : rsize (st_alloc sb b st) x ≤ rsize st x + 1.
Proof.
  rw /st_alloc. etrans; [apply rsize_wr|]. rw rsize_wr_in; [apply bmap_reserve|done].
Qed.

Lemma alloc_reserve st x b : b ∈ reserve sb (st_alloc sb b st) x.
Proof. rw /st_alloc reserve_wr. set_solver. Qed.

Lemma rsize_ind st x x' : i_inum x' = i_inum x → ind x' = ind x → rsize st x' = rsize st x.
Proof. intros E1 E2. by rw /rsize /reserve E1 E2. Qed.

(** The indirect block was accounted for before it was allocated. *)
Lemma rsize_indirect st x x' b :
  i_inum x' = i_inum x → ind x = 0 → ind x' = b → b ≠ 0 → rsize (st_alloc sb b st) x' ≤ rsize st x.
Proof.
  intros E1 E2 E3 Hb. rw /rsize E2 E3. destruct (Z.eqb_spec b 0); [done|]. simpl.
  assert (reserve sb (st_alloc sb b st) x' = {[b]} ∪ reserve sb st x) as ->.
  { rw /reserve E1 E2 E3 /=. destruct (Z.eqb_spec b 0); [done|]. apply leibniz_equiv. set_solver. }
  pose proof (size_add_le b (reserve sb st x)). lia.
Qed.

Lemma log_reserve st x : (size (st_log st) ≤ size (reserve sb st x))%nat.
Proof. apply subseteq_size. rw /reserve. set_solver. Qed.

Lemma fbudget_budget st x k : fbudget sb st x k → budget sb st k.
Proof.
  rw /fbudget /budget. intros H.
  assert (size ({[sb_bmapstart sb]} ∪ st_log st) ≤ size (reserve sb st x))%nat.
  { apply subseteq_size. rw /reserve. set_solver. }
  destruct (ind x =? 0); lia.
Qed.

Lemma fbudget_log st x k : fbudget sb st x k → 0 ≤ k → Z.of_nat (size (st_log st)) < st_cap st.
Proof. rw /fbudget. intros. pose proof (log_reserve st x). destruct (ind x =? 0); lia. Qed.
End log_space.

Section reading.
Context {S : Type} `{!Lens S core, !BlockStore S}.
Abbreviation fst := (fst_state S).
Context (sb : superblock) (c : core).
Implicit Types (s : fst) (st : store) (ino : list inode) (ip : nat) (x : inode).

(** With no buffer held, any block can be read. *)
Lemma fat_read st ino s b :
  fat st sb ino c s → st_held st = ∅ → 0 ≤ b < st_size st → can_read b st.
Proof.
  intros Hf Hh Hb. split_and!; [lia|lia| |].
  - intros i f. by rw Hh.
  - right. rw /st_room Hh map_size_empty. pose proof (fat_cap _ _ _ _ _ Hf).
    pose proof (in_txn_log _ _ (fa_txn _ _ _ _ _ Hf)). lia.
Qed.

Lemma held_ok_empty st n : st_held st = ∅ → held_ok sb st n.
Proof. intros Hh. split; rw ?Hh; [rw map_size_empty; lia|done|intros i f; by rw Hh]. Qed.

Lemma held_ok_one st i b :
  st_held st = ∅ → inuse sb st b → b ≠ sb_bmapstart sb → held_ok sb (st_hold i b st) 1.
Proof.
  intros Hh Hu Hb. split; simpl; rw ?Hh.
  - by rw map_size_insert_None // map_size_empty.
  - intros j b' f' [[_ [= <- _]]|[_ ?]]%lookup_insert_Some; done.
  - intros j f'. rw /= Hh. intros [[_ [= ? _]]|[_ ?]]%lookup_insert_Some; done.
Qed.

(** What [bmap] of block [k] does. *)
Record mapped (k : Z) (st : store) (x : inode) (b : Z) (st' : store) (x' : inode) : Prop := {
  mp_ext : ext sb k st x st' x';
  mp_addr : iaddr st' x' k = b;
  mp_nz : b ≠ 0;
  mp_old : iaddr st x k ≠ 0 → st' = st ∧ x' = x;
  mp_new : iaddr st x k = 0 → ¬ inuse sb st b ∧ st_view st' !!! b = replicate (Z.to_nat BSIZE) 0;
  mp_log d n : fbudget sb st x (n + 1) → fbudget sb (st_wr b d st') x' n;
  mp_free : (nfree sb st ≤ nfree sb st' + 2)%nat;
}.

Lemma mapped_old k st x :
  fsinv sb st → iwf sb st x → iaddr st x k ≠ 0 → mapped k st x (iaddr st x k) st x.
Proof.
  intros Hi Hw Hz. split; [by apply ext_refl|done|done|done|done| |lia].
  intros d n. rw !fbudget_rsize. pose proof (rsize_wr sb st x (iaddr st x k) d). simpl. lia.
Qed.

(** Taking the free block [b] for a direct entry. *)
Lemma mapped_direct k st x b :
  fsinv sb st → iwf sb st x → blk (bmp sb st) → data_block sb b → ¬ inuse sb st b →
  0 ≤ k < NDIRECT → iaddr st x k = 0 →
  mapped k st x b (st_alloc sb b st) (w_addrs (setZ k b (i_addrs x)) x).
Proof.
  intros Hi Hw Hblk Hb Hn Hk Hz. pose proof (data_nz sb st Hi b Hb) as Hb1.
  rw /iaddr in Hz. destruct (Z.ltb_spec k NDIRECT) as [Hd|]; [|lia].
  split; [by apply ext_direct| |lia| | | |].
  - rw /iaddr. destruct (Z.ltb_spec k NDIRECT); [|lia]. simpl. apply nthZ_setZ_eq. rw (iw_len _ _ _ Hw). rw /NDIRECT in Hd. lia.
  - rw /iaddr. destruct (Z.ltb_spec k NDIRECT); [done|lia].
  - intros _. split; [done|apply alloc_zero].
  - intros d n. rw !fbudget_rsize rsize_wr_in; [apply alloc_reserve|].
    rw (rsize_ind _ _ x); [done| |]. { rw /ind /= nthZ_setZ_ne //; rw /NDIRECT in Hd |- *; lia. }
    pose proof (rsize_alloc sb st x b). simpl. lia.
  - rw (nfree_alloc sb st b) //; [apply Hi| |lia]. pose proof (bmap_nonneg sb st Hi). lia.
Qed.

(** The indirect block is there and the map is what it was. *)
Record indirected (k : Z) (st : store) (x : inode) (a : Z) (st' : store) (x' : inode) : Prop := {
  id_ext : ext sb k st x st' x';
  id_ind : ind x' = a;
  id_nz : a ≠ 0;
  id_same : iaddr st' x' k = iaddr st x k;
  id_log : rsize sb st' x' ≤ rsize sb st x;
  id_free : (nfree sb st ≤ nfree sb st' + 1)%nat;
  id_old : ind x ≠ 0 → st' = st ∧ x' = x;
}.

Lemma indirected_old k st x : fsinv sb st → iwf sb st x → ind x ≠ 0 → indirected k st x (ind x) st x.
Proof. intros. split; try done; [by apply ext_refl|lia]. Qed.

Lemma indirected_new k st x b :
  fsinv sb st → iwf sb st x → blk (bmp sb st) → data_block sb b → ¬ inuse sb st b →
  NDIRECT ≤ k < MAXFILE → ind x = 0 →
  indirected k st x b (st_alloc sb b st) (w_addrs (setZ NDIRECT b (i_addrs x)) x).
Proof.
  intros Hi Hw Hblk Hb Hn Hk Hz. pose proof (data_nz sb st Hi b Hb) as Hb1.
  assert (ind (w_addrs (setZ NDIRECT b (i_addrs x)) x) = b) as Hind.
  { rw /ind /= nthZ_setZ_eq // (iw_len _ _ _ Hw). rw /NDIRECT. lia. }
  split; [by apply ext_indirect|done|lia| |apply rsize_indirect; [done|done|done|lia]| |done].
  - rw /iaddr Hind. destruct (Z.ltb_spec k NDIRECT); [lia|]. rw Hz /=. destruct (Z.eqb_spec b 0); [lia|].
    rw alloc_zero. apply word_zeros. rw /MAXFILE in Hk. lia.
  - rw (nfree_alloc sb st b) //; [apply Hi| |lia]. pose proof (bmap_nonneg sb st Hi). lia.
Qed.

(** [a] of an indirect entry. *)
Lemma iaddr_entry st x k :
  NDIRECT ≤ k → ind x ≠ 0 → iaddr st x k = word (k - NDIRECT) (st_view st !!! ind x).
Proof.
  intros Hk Hz. rw /iaddr. destruct (Z.ltb_spec k NDIRECT); [lia|]. by destruct (Z.eqb_spec (ind x) 0).
Qed.

(** Taking the free block [b] for an entry of the indirect block [a]. *)
Lemma mapped_entry k st x a st1 x1 b :
  indirected k st x a st1 x1 → blk (bmp sb st1) → blk (st_view st1 !!! a) → data_block sb b → ¬ inuse sb st1 b →
  NDIRECT ≤ k < MAXFILE → iaddr st1 x1 k = 0 →
  mapped k st x b (st_wr a (set_word (k - NDIRECT) b (st_view st1 !!! a)) (st_alloc sb b st1)) x1.
Proof.
  intros [He Ha Haz Hsame Hrs Hnf Hold] Hblk1 Hba Hb Hn Hk Hz.
  pose proof (ex_inv _ _ _ _ _ _ He) as Hi1. pose proof (ex_wf _ _ _ _ _ _ He) as Hw1.
  destruct (iw_ind _ _ _ Hw1) as [?|[Hda Hua]]; [congruence|]. rw Ha in Hda, Hua.
  pose proof (data_nz sb st1 Hi1 a Hda) as Har. pose proof (bmap_nonneg sb st1 Hi1) as Hbm.
  pose proof (fi_geo _ _ Hi1) as Hg1. pose proof (ex_consts _ _ _ _ _ _ He) as (_ & _ & Ecap & _).
  pose proof (data_nz sb st1 Hi1 b Hb) as Hbr.
  pose proof (ext_entry sb st1 x1 b Hi1 Hw1 Hblk1 Hb Hn k) as Hex. rw Ha in Hex.
  specialize (Hex Hk Haz Hz Hba).
  split; [by eapply ext_trans; [|done|done]; lia| |lia|congruence| | |].
  - rw iaddr_entry //; [lia|congruence|]. rw Ha view_st_wr decide_True // /word /set_word.
    rw /MAXFILE /NINDIRECT /BSIZE in Hk. change (512 / 4) with 128 in Hk. pose proof (blk_len _ Hba).
    apply load_store_small; [lia|lia|]. destruct Hg1. lia.
  - intros _. split.
    + intros Hu. apply Hn. apply (ex_used _ _ _ _ _ _ He); [lia|done].
    + rw view_st_wr decide_False; [congruence|]. apply alloc_zero.
  - intros d n. rw !fbudget_rsize /=. rw (rsize_wr_in _ _ _ b).
    { rw reserve_wr. pose proof (alloc_reserve sb st1 x1 b). set_solver. }
    rw rsize_wr_in. { rw /reserve Ha. destruct (Z.eqb_spec a 0); [done|]. set_solver. }
    pose proof (rsize_alloc sb st1 x1 b). simpl in *. rw Ecap. lia.
  - rw nfree_wr; [destruct Hda; lia|]. rw (nfree_alloc sb st1 b) // in Hnf; [lia|]. lia.
Qed.

(** The bitmap block is a block. *)
Lemma fat_bmp st ino s : fat st sb ino c s → fsgeo sb st → blk (bmp sb st).
Proof. intros Hf Hg. eapply fat_blk; [done|]. destruct Hg. lia. Qed.

Lemma insert_addrs ino ip x k b :
  ino !!! ip = x → (ip < length ino)%nat →
  alter (λ i, w_addrs (setZ k b (i_addrs i)) i) ip ino = <[ip := w_addrs (setZ k b (i_addrs x)) x]> ino.
Proof.
  intros Hx Hl. apply list_eq. intros j. destruct (lookup_lt_is_Some_2 _ _ Hl) as [y Hy].
  rw (list_lookup_total_correct _ _ _ Hy) in Hx. subst y.
  destruct (decide (ip = j)) as [->|Hne].
  - rw list_lookup_alter decide_True // Hy /= list_lookup_insert_eq //.
  - rw list_lookup_alter decide_False // list_lookup_insert_ne //.
Qed.

(** The indirect block is there once [bmap] has looked for it. *)
Lemma bmap_indirect st ino s ip x k :
  fat st sb ino c s → ino !!! ip = x → (ip < length ino)%nat → fsinv sb st → iwf sb st x →
  NDIRECT ≤ k < MAXFILE → ind x ≠ 0 ∨ fbudget sb st x 1 ∧ (0 < nfree sb st)%nat →
  total (if ind x =? 0 then addr ← balloc 1; set_addr ip NDIRECT addr;; mret addr else mret (ind x)) s
    (λ a s', ∃ st' x', fat st' sb (<[ip := x']> ino) c s' ∧ indirected k st x a st' x').
Proof.
  intros Hf Hx Hl Hi Hw Hk Hor. destruct (Z.eqb_spec (ind x) 0) as [Hz|Hz].
  - destruct Hor as [?|[Hbud Hnf]]; [done|]. pose proof (fat_bmp _ _ _ Hf (fi_geo _ _ Hi)) as Hblk.
    eapply total_bind; [apply (balloc_fat sb ino c st s 0 1); [done|apply Hi|apply Hi|apply held_ok_empty, Hi|lia|by eapply fbudget_budget|lia|by apply nfree_pos]|].
    cbv beta. intros b s1 (Hb & Hn & _ & H1). rw /set_addr. apply total_modify_bind, total_ret.
    exists (st_alloc sb b st), (w_addrs (setZ NDIRECT b (i_addrs x)) x).
    split; [rw -insert_addrs //; by apply fat_iupd|]. by apply indirected_new.
  - apply total_ret. exists st, x. split; [|by apply indirected_old].
    rw list_insert_id //. destruct (lookup_lt_is_Some_2 _ _ Hl) as [y Hy].
    by rw (list_lookup_total_correct _ _ _ Hy) in Hx; subst y.
Qed.

Lemma insert_self ino ip x : ino !!! ip = x → (ip < length ino)%nat → <[ip := x]> ino = ino.
Proof.
  intros Hx Hl. apply list_insert_id. destruct (lookup_lt_is_Some_2 _ _ Hl) as [y Hy].
  by rw (list_lookup_total_correct _ _ _ Hy) in Hx; subst y.
Qed.

Lemma fsgeo_hold st i b : fsgeo sb st → fsgeo sb (st_hold i b st).
Proof. by intros []. Qed.

(** Blocks past the direct ones. *)
Lemma bmap_entry st ino s ip x k :
  fat st sb ino c s → ino !!! ip = x → (ip < length ino)%nat → fsinv sb st → iwf sb st x →
  0 ≤ k < MAXFILE → iaddr st x k ≠ 0 ∨ fbudget sb st x 1 ∧ (2 ≤ nfree sb st)%nat → NDIRECT ≤ k →
  total (let bn := k - NDIRECT in
    if bn <? NINDIRECT then
      addr ← (let addr := nthZ (i_addrs x) NDIRECT in
              if addr =? 0 then addr ← balloc 1; set_addr ip NDIRECT addr;; mret addr else mret addr);
      bp ← breadf 1 addr;
      d ← getb bp;
      let addr := word bn d in
      if addr =? 0 then
        addr ← balloc 1; d ← getb bp; setb bp (set_word bn addr d);; log_writef bp;; brelsef bp;; mret addr
      else brelsef bp;; mret addr
    else panic "bmap: out of range") s
    (λ b s', ∃ st' x', fat st' sb (<[ip := x']> ino) c s' ∧ mapped k st x b st' x').
Proof.
  intros Hf Hx Hl Hi Hw Hk Hor Hd. cbv zeta. rw /MAXFILE in Hk. destruct (Z.ltb_spec (k - NDIRECT) NINDIRECT); [|lia].
  rw -/(ind x). eapply total_bind.
  { apply (bmap_indirect st ino s ip x k); [done|done|done|done|done|rw /MAXFILE; lia|].
    destruct Hor as [Hz|[? ?]]; [left|right; split; [done|lia]]. intros Ei. apply Hz. rw /iaddr Ei.
    destruct (Z.ltb_spec k NDIRECT); [lia|done]. }
  cbv beta. intros a s1 (st1 & x1 & H1 & Hid). pose proof Hid as [He Ha Haz Hsame Hrs Hnf Hold].
  pose proof (ex_inv _ _ _ _ _ _ He) as Hi1. pose proof (ex_wf _ _ _ _ _ _ He) as Hw1.
  destruct (iw_ind _ _ _ Hw1) as [?|[Hda Hua]]; [congruence|]. rw Ha in Hda, Hua.
  pose proof (data_nz sb st1 Hi1 a Hda) as Har. pose proof (bmap_nonneg sb st1 Hi1) as Hbm.
  pose proof (fi_geo _ _ Hi1) as Hg1. pose proof (ex_consts _ _ _ _ _ _ He) as (_ & _ & Ecap & _).
  assert (0 ≤ a < st_size st1) as Har' by (destruct Hg1; lia).
  eapply run_breadf; [done|by eapply fat_read; [|apply Hi1|]|]. intros i s2 Hih H2.
  eapply run_getb; [done|by rw /= lookup_insert_eq|]. cbn [st_hold st_view].
  assert (iaddr st1 x1 k = word (k - NDIRECT) (st_view st1 !!! a)) as Ew by (rw iaddr_entry //; congruence).
  rw -Ew. destruct (Z.eqb_spec (iaddr st1 x1 k) 0) as [Hz|Hz].
  - assert (fbudget sb st x 1 ∧ (2 ≤ nfree sb st)%nat) as [Hbud Hnf2] by (destruct Hor as [?|?]; [congruence|done]).
    assert (fbudget sb st1 x1 1) as Hbud1 by (rw !fbudget_rsize in Hbud |- *; rw Ecap; lia).
    pose proof (fat_bmp _ _ _ H1 Hg1) as Hblk1.
    eapply total_bind; [apply (balloc_fat sb (<[ip := x1]> ino) c (st_hold i a st1) s2 1 1); [done|by apply fsgeo_hold|exact (fi_meta _ _ Hi1)| |lia|exact (fbudget_budget _ _ _ _ Hbud1)|lia|]|].
    { apply held_ok_one; [apply Hi1|done|destruct Hda; lia]. }
    { apply (nfree_pos sb st1). lia. }
    cbv beta. intros b s3 (Hb & Hn & _ & H3). change (¬ inuse sb st1 b) in Hn.
    change (st_alloc sb b (st_hold i a st1)) with (st_hold i a (st_alloc sb b st1)) in H3.
    pose proof (data_nz sb st1 Hi1 b Hb) as Hbr.
    eapply run_getb; [done|by rw /= lookup_insert_eq|]. cbn [st_hold st_view].
    assert (st_view (st_alloc sb b st1) !!! a = st_view st1 !!! a) as Eva.
    { apply alloc_view; [done|congruence|destruct Hda; lia]. }
    rw Eva. assert (blk (st_view st1 !!! a)) as Hba by (eapply fat_blk; [exact H1|done]).
    eapply (run_update sb _ c (st_alloc sb b st1)); [done|done| | |].
    + apply blk_store; [done|lia|]. rw /NINDIRECT /BSIZE in Hk. change (512 / 4) with 128 in Hk. lia.
    + pose proof (rsize_alloc sb st1 x1 b). rw fbudget_rsize in Hbud1. pose proof (log_reserve sb (st_alloc sb b st1) x1).
      split; simpl; [destruct Hg1, Hda; lia|]. rw /rsize in Hbud1, H0. destruct (ind x1 =? 0); simpl in *; lia.
    + intros s4 H4. apply total_ret. eexists _, x1. split; [exact H4|]. apply mapped_entry; [done..|rw /MAXFILE; lia|done].
  - eapply run_rel; [done|done|]. intros s3 H3. apply total_ret. destruct Hold as [-> ->].
    { intros Ei. rw Hsame /iaddr Ei /= in Hz. destruct (Z.ltb_spec k NDIRECT); [lia|done]. }
    exists st, x. split; [done|]. by apply mapped_old.
Qed.

Lemma bmap_fat st ino s ip x k :
  fat st sb ino c s → ino !!! ip = x → (ip < length ino)%nat → fsinv sb st → iwf sb st x →
  0 ≤ k < MAXFILE → iaddr st x k ≠ 0 ∨ fbudget sb st x 1 ∧ (2 ≤ nfree sb st)%nat →
  total (bmap ip k) s (λ b s', ∃ st' x', fat st' sb (<[ip := x']> ino) c s' ∧ mapped k st x b st' x').
Proof.
  intros Hf Hx Hl Hi Hw Hk Hor. pose proof (iw_dev _ _ _ Hw) as Hdev.
  rw /bmap. apply total_gets_bind. rw (fat_nin _ _ _ _ _ _ Hf) Hx Hdev.
  destruct (Z.ltb_spec k NDIRECT) as [Hd|Hd].
  - cbv zeta. assert (iaddr st x k = nthZ (i_addrs x) k) as Ea by (rw /iaddr; destruct (Z.ltb_spec k NDIRECT); [done|lia]).
    rw -Ea. destruct (Z.eqb_spec (iaddr st x k) 0) as [Hz|Hz].
    + destruct Hor as [?|[Hbud Hnf]]; [done|]. pose proof (fat_bmp _ _ _ Hf (fi_geo _ _ Hi)) as Hblk.
      eapply total_bind; [apply (balloc_fat sb ino c st s 0 1); [done|apply Hi|apply Hi|apply held_ok_empty, Hi|lia|by eapply fbudget_budget|lia|apply nfree_pos; lia]|].
      cbv beta. intros b s1 (Hb & Hn & _ & H1). rw /set_addr. apply total_modify_bind, total_ret.
      exists (st_alloc sb b st), (w_addrs (setZ k b (i_addrs x)) x).
      split; [rw -insert_addrs //; by apply fat_iupd|]. apply mapped_direct; [done..|lia|done].
    + apply total_ret. exists st, x. rw insert_self //. split; [done|by apply mapped_old].
  - by apply bmap_entry.
Qed.
End reading.
