(* ===== verification/FsFile.v ===== *)
(** * The contents of files: [readi] and [writei]

    The contents of a file are the bytes its block map leads to.  [readi] reads
    a slice of them, [writei] replaces one, growing the file when it writes
    past its end, and neither touches another file. *)

From S2P Require Import Prelude CString Layout Kernel Store Fs FsAlloc FsInode FsMap.

(** The byte at offset [j] of a file, and all of them. *)
Definition fbyte (st : store) (x : inode) (j : Z) : Z :=
  nthZ (st_view st !!! iaddr st x (j / BSIZE)) (j mod BSIZE).
Definition contents (st : store) (x : inode) : list Z := fbyte st x <$> seqZ 0 (i_size x).

(** A regular file or directory: its size is within bounds and every block
    below it is there. *)
Record full (st : store) (x : inode) : Prop := {
  fl_type : i_type x ≠ T_DEV;
  fl_size : 0 ≤ i_size x ≤ MAXFILE * BSIZE;
  fl_addr j : 0 ≤ j < i_size x → iaddr st x (j / BSIZE) ≠ 0;
}.

Lemma slice_seqZ (d : list Z) o m :
  0 ≤ o → 0 ≤ m → o + m ≤ lenZ d → slice o m d = nthZ d <$> seqZ o m.
Proof.
  intros Ho Hm Hl. apply list_eq. intros i. rw lookup_slice //. rw list_lookup_fmap.
  case_decide as Hi.
  - rw lookup_seqZ_lt; [lia|]. simpl. rw /nthZ nth_lookup (_ : Z.to_nat (o + Z.of_nat i) = (Z.to_nat o + i)%nat); [lia|].
    destruct (d !! (Z.to_nat o + i)%nat) eqn:E; [done|]. apply lookup_ge_None in E. lia.
  - rw lookup_seqZ_ge //. lia.
Qed.

Lemma slice_contents st x off n :
  0 ≤ off → 0 ≤ n → off + n ≤ i_size x → slice off n (contents st x) = fbyte st x <$> seqZ off n.
Proof.
  intros Ho Hn Hs. assert (lenZ (contents st x) = i_size x) as Hl.
  { rw /contents length_fmap length_seqZ. lia. }
  rw slice_seqZ; [lia..|]. apply list_fmap_ext. intros i j Hj. apply list_elem_of_lookup_2, elem_of_seqZ in Hj.
  rw /nthZ nth_lookup /contents list_lookup_fmap lookup_seqZ_lt; [lia|]. simpl. f_equal. lia.
Qed.

Section readi.
Context {S : Type} `{!Lens S core, !BlockStore S}.
Abbreviation fst := (fst_state S).
Context (sb : superblock) (c : core).
Implicit Types (s : fst) (st : store) (ino : list inode) (ip : nat) (x : inode).

Lemma iaddr_range st x k :
  fsinv sb st → iwf sb st x → 0 ≤ k < MAXFILE → iaddr st x k ≠ 0 →
  data_block sb (iaddr st x k) ∧ inuse sb st (iaddr st x k) ∧ 1 < iaddr st x k < st_size st.
Proof.
  intros Hi Hw Hk Hz. destruct (iw_data _ _ _ Hw k Hk) as [?|[Hd Hu]]; [done|].
  pose proof (data_nz sb st Hi _ Hd). destruct (fi_geo _ _ Hi). split_and!; [done|done|lia|lia].
Qed.

Lemma readi_loop_fat (fuel : nat) st ino s ip x off n tot :
  fat st sb ino c s → ino !!! ip = x → (ip < length ino)%nat → fsinv sb st → iwf sb st x → full st x →
  0 ≤ off → tot ≤ n → off + (n - tot) ≤ i_size x → (0 < fuel)%nat →
  n = tot ∨ off mod BSIZE + (n - tot) ≤ BSIZE * (Z.of_nat fuel - 1) →
  total (readi_loop fuel ip off n tot) s (λ d s', fat st sb ino c s' ∧ d = fbyte st x <$> seqZ off (n - tot)).
Proof.
  intros Hf Hx Hl Hi Hw Hfl. revert s off tot Hf. induction fuel as [|fuel IH]; intros s off tot Hf Ho Ht Hsz Hfu Hor; [lia|].
  cbn [readi_loop]. destruct (Z.ltb_spec tot n) as [Hlt|Hge].
  2:{ apply total_ret. split; [done|]. by rw (_ : n - tot = 0); [lia|]. }
  pose proof (fl_size _ _ Hfl) as Hmax. rw /MAXFILE /NDIRECT /NINDIRECT /BSIZE in Hmax. change (512 / 4) with 128 in Hmax.
  rw /BSIZE in Hor |- *. assert (0 ≤ off / 512 < MAXFILE) as Hk.
  { rw /MAXFILE /NDIRECT /NINDIRECT /BSIZE. change (512 / 4) with 128. lia. }
  pose proof (fl_addr _ _ Hfl off ltac:(lia)) as Hz. rw /BSIZE in Hz.
  destruct (iaddr_range st x _ Hi Hw Hk Hz) as (_ & _ & Har).
  eapply total_bind; [by apply (bmap_fat sb c st ino s ip x (off / 512)); auto|].
  cbv beta. intros a s1 (st' & x' & H1 & Hmp). destruct (mp_old _ _ _ _ _ _ _ Hmp Hz) as [-> ->].
  rw insert_self // in H1. assert (a = iaddr st x (off / 512)) as -> by (by rw -(mp_addr _ _ _ _ _ _ _ Hmp)).
  apply total_gets_bind. rw (fat_nin _ _ _ _ _ _ H1) Hx (iw_dev _ _ _ Hw).
  eapply run_breadf; [done|eapply fat_read; [done|apply Hi|lia]|]. intros i s2 Hih H2. cbv zeta.
  eapply run_getb; [done|by rw /= lookup_insert_eq|]. cbn [st_hold st_view].
  eapply run_rel; [done|done|]. intros s3 H3.
  set (m := Z.min (n - tot) (512 - off mod 512)).
  assert (0 < m ≤ n - tot ∧ m ≤ 512 - off mod 512 ∧ (m = n - tot ∨ m = 512 - off mod 512)) as (Hm1 & Hm2 & Hm3) by lia.
  eapply total_bind; [apply (IH s3 (off + m) (tot + m)); [done|lia|lia|lia|lia|]|].
  { rw /BSIZE. destruct Hm3; [left; lia|]. destruct (decide (n = tot + m)); [by left|right]. lia. }
  cbv beta. intros rest s4 [H4 ->]. apply total_ret. split; [done|].
  assert (blk (st_view st !!! iaddr st x (off / 512))) as Hblk by (eapply fat_blk; [exact Hf|lia]).
  rw (_ : n - tot = m + (n - (tot + m))); [lia|]. rw seqZ_app; [lia|lia|]. rw fmap_app. f_equal.
  rw slice_seqZ; [lia|lia|rw (blk_len _ Hblk); lia|].
  apply fmap_seqZ_ext. intros j Hj. rw /fbyte /BSIZE. f_equal; [do 2 f_equal; lia|lia].
Qed.
End readi.

(** ** Writing *)

(** Bytes [off .. off+r) of the file became [data], and nothing else of any file changed. *)
Record wrote (sb : superblock) (off r : Z) (data : Z → Z) (st : store) (x : inode) (st' : store) (x' : inode) : Prop := {
  wt_x : x' = w_addrs (i_addrs x') x;
  wt_inv : fsinv sb st';
  wt_wf : iwf sb st' x';
  wt_addr k : 0 ≤ k < MAXFILE → iaddr st x k ≠ 0 → iaddr st' x' k = iaddr st x k;
  wt_ind : ind x ≠ 0 → ind x' = ind x;
  wt_alloc j : off ≤ j < off + r → iaddr st' x' (j / BSIZE) ≠ 0;
  wt_data j : off ≤ j < off + r → fbyte st' x' j = data (j - off);
  wt_keep j : 0 ≤ j < MAXFILE * BSIZE → iaddr st x (j / BSIZE) ≠ 0 → j < off ∨ off + r ≤ j →
    fbyte st' x' j = fbyte st x j;
  wt_same : (∀ j, off ≤ j < off + r → iaddr st x (j / BSIZE) ≠ 0) → x' = x;
  wt_view y : 0 < y < sb_size sb → inuse sb st y → y ≠ sb_bmapstart sb → ¬ owns st x y →
    st_view st' !!! y = st_view st !!! y;
  wt_used y : 0 ≤ y < sb_size sb → inuse sb st y → inuse sb st' y;
  wt_new y : 0 ≤ y < sb_size sb → inuse sb st' y → inuse sb st y ∨ owns st' x' y;
  wt_own y : owns st' x' y → owns st x y ∨ ¬ inuse sb st y;
  wt_consts : st_size st' = st_size st ∧ st_base st' = st_base st ∧ st_cap st' = st_cap st ∧ st_disk st' = st_disk st;
}.

(** Blocks touched by [r] bytes at [off]. *)
Definition nb_touched (off r : Z) : Z := if r <=? 0 then 0 else (off + r - 1) / BSIZE - off / BSIZE + 1.

Section wrote_facts.
Context (sb : superblock).
Implicit Types (st : store) (x : inode).

(** The blocks of a file are data blocks in use. *)
Lemma owns_data st x y : iwf sb st x → owns st x y → data_block sb y ∧ inuse sb st y.
Proof.
  intros Hw [Hz [->|(k & Hk & ->)]].
  - by destruct (iw_ind _ _ _ Hw).
  - by destruct (iw_data _ _ _ Hw k Hk).
Qed.

Lemma owns_range st x y : fsinv sb st → iwf sb st x → owns st x y → 0 ≤ y < sb_size sb.
Proof. intros Hi Hw [Hd _]%(owns_data st x y Hw). pose proof (data_nz sb st Hi y Hd). lia. Qed.

Lemma wrote_nil off data st x : fsinv sb st → iwf sb st x → wrote sb off 0 data st x st x.
Proof.
  intros Hi Hw. split; try done; [by destruct x|intros; lia|intros; lia|by intros; left|by intros; left].
Qed.

Lemma MAXFILE_val : MAXFILE = 140.
Proof. done. Qed.
Lemma byte_block j : 0 ≤ j < MAXFILE * BSIZE → 0 ≤ j / BSIZE < MAXFILE.
Proof. rw MAXFILE_val /BSIZE. lia. Qed.

Lemma wrote_trans off r1 r2 data st x st1 x1 st2 x2 :
  0 ≤ off → 0 ≤ r1 → 0 ≤ r2 → off + r1 + r2 ≤ MAXFILE * BSIZE →
  wrote sb off r1 data st x st1 x1 → wrote sb (off + r1) r2 (λ j, data (r1 + j)) st1 x1 st2 x2 →
  wrote sb off (r1 + r2) data st x st2 x2.
Proof.
  intros Ho H01 H02 Hmax H1 H2. split.
  - rw (wt_x _ _ _ _ _ _ _ _ H2) (wt_x _ _ _ _ _ _ _ _ H1). done.
  - apply H2.
  - apply H2.
  - intros k Hk Hz. rw (wt_addr _ _ _ _ _ _ _ _ H2) // (wt_addr _ _ _ _ _ _ _ _ H1) //.
  - intros Hz. rw (wt_ind _ _ _ _ _ _ _ _ H2); by rw (wt_ind _ _ _ _ _ _ _ _ H1).
  - intros j Hj. destruct (decide (j < off + r1)).
    + pose proof (wt_alloc _ _ _ _ _ _ _ _ H1 j ltac:(lia)) as Hz. rw (wt_addr _ _ _ _ _ _ _ _ H2) //. apply byte_block. lia.
    + apply (wt_alloc _ _ _ _ _ _ _ _ H2). lia.
  - intros j Hj. destruct (decide (j < off + r1)).
    + rw (wt_keep _ _ _ _ _ _ _ _ H2); [lia|apply (wt_alloc _ _ _ _ _ _ _ _ H1); lia|lia|].
      apply (wt_data _ _ _ _ _ _ _ _ H1). lia.
    + rw (wt_data _ _ _ _ _ _ _ _ H2); [lia|]. f_equal. lia.
  - intros j Hj Hz Hor. pose proof (byte_block j Hj) as Hk. rw (wt_keep _ _ _ _ _ _ _ _ H2); [lia| |lia|].
    + by rw (wt_addr _ _ _ _ _ _ _ _ H1).
    + apply (wt_keep _ _ _ _ _ _ _ _ H1); [done|done|lia].
  - intros Hal. rw (wt_same _ _ _ _ _ _ _ _ H2); [|apply (wt_same _ _ _ _ _ _ _ _ H1); intros; apply Hal; lia].
    intros j Hj. rw (wt_addr _ _ _ _ _ _ _ _ H1); [apply byte_block; lia|apply Hal; lia|apply Hal; lia].
  - intros y Hy Hu Hb Hn. rw (wt_view _ _ _ _ _ _ _ _ H2) //.
    + apply (wt_used _ _ _ _ _ _ _ _ H1); [lia|done].
    + intros [?|?]%(wt_own _ _ _ _ _ _ _ _ H1); done.
    + by apply (wt_view _ _ _ _ _ _ _ _ H1).
  - intros y Hy Hu. apply (wt_used _ _ _ _ _ _ _ _ H2); [done|]. by apply (wt_used _ _ _ _ _ _ _ _ H1).
  - intros y Hy Hu. destruct (wt_new _ _ _ _ _ _ _ _ H2 y Hy Hu) as [Hu1|?]; [|by right].
    destruct (wt_new _ _ _ _ _ _ _ _ H1 y Hy Hu1) as [?|[Hnz Hown]]; [by left|right]. split; [done|].
    destruct Hown as [->|(k & Hk & ->)].
    + left. by rw (wt_ind _ _ _ _ _ _ _ _ H2).
    + right. exists k. split; [done|]. by rw (wt_addr _ _ _ _ _ _ _ _ H2).
  - intros y Hy. destruct (wt_own _ _ _ _ _ _ _ _ H2 y Hy) as [Hy1|Hn].
    + by apply (wt_own _ _ _ _ _ _ _ _ H1).
    + right. intros Hu. apply Hn. apply (wt_used _ _ _ _ _ _ _ _ H1); [|done].
      by eapply owns_range; [apply H2|apply H2|].
  - destruct (wt_consts _ _ _ _ _ _ _ _ H1) as (? & ? & ? & ?), (wt_consts _ _ _ _ _ _ _ _ H2) as (? & ? & ? & ?).
    split_and!; congruence.
Qed.

(** One iteration of the loop of [writei]. *)
(** The block [bmap] gives for block [k] is the file's own, or was free. *)
Lemma mapped_own st x b st1 x1 k :
  0 ≤ k < MAXFILE → mapped sb k st x b st1 x1 → owns st x b ∨ ¬ inuse sb st b.
Proof.
  intros Hk Hmp. destruct (decide (iaddr st x k = 0)) as [Hz|Hz]; [right; by apply (mp_new _ _ _ _ _ _ _ Hmp)|left].
  split; [apply Hmp|right]. exists k. split; [done|].
  by rw -(mp_addr _ _ _ _ _ _ _ Hmp) (ex_keep _ _ _ _ _ _ (mp_ext _ _ _ _ _ _ _ Hmp)).
Qed.

Lemma wrote_step st x b st1 x1 off m src' :
  fsinv sb st → iwf sb st x → mapped sb (off / BSIZE) st x b st1 x1 → 0 ≤ off < MAXFILE * BSIZE →
  lenZ src' = m → 0 < m → off mod BSIZE + m ≤ BSIZE → blk (st_view st1 !!! b) →
  wrote sb off m (nthZ src') st x (st_wr b (splice (off mod BSIZE) src' (st_view st1 !!! b)) st1) x1.
Proof.
  intros Hi Hw Hmp Hoff Hlen Hm Hfit Hblk. pose proof (mp_ext _ _ _ _ _ _ _ Hmp) as He.
  pose proof (byte_block off Hoff) as Hk. set (k := off / BSIZE) in *.
  pose proof (ex_inv _ _ _ _ _ _ He) as Hi1. pose proof (ex_wf _ _ _ _ _ _ He) as Hw1.
  assert (iaddr st1 x1 k ≠ 0) as Hkz by (rw (mp_addr _ _ _ _ _ _ _ Hmp); apply Hmp).
  destruct (iaddr_range sb st1 x1 k Hi1 Hw1 Hk Hkz) as ([Hdb _] & Hub & Hrange).
  pose proof (iw_indne _ _ _ Hw1 k Hk Hkz) as Hne. pose proof (iw_inj _ _ _ Hw1 k) as Hinj.
  rw (mp_addr _ _ _ _ _ _ _ Hmp) in Hdb, Hub, Hrange, Hne, Hinj.
  set (st2 := st_wr b _ st1). pose proof (blk_len _ Hblk) as Hblen.
  assert (∀ j, iaddr st2 x1 j = iaddr st1 x1 j) as Ea.
  { intros j. apply iaddr_ext. intros _. rw view_st_wr decide_False; [congruence|done]. }
  assert (∀ j, 0 ≤ j < MAXFILE * BSIZE → j / BSIZE = k → fbyte st2 x1 j =
    nthZ (splice (off mod BSIZE) src' (st_view st1 !!! b)) (j mod BSIZE)) as Eb.
  { intros j Hj Ejk. by rw /fbyte Ea Ejk (mp_addr _ _ _ _ _ _ _ Hmp) view_st_wr decide_True. }
  assert (sb_bmapstart sb ≠ b ∧ b ≠ 1) as [Hbm Hb1] by (pose proof (bmap_nonneg sb st Hi); lia).
  assert (0 ≤ off mod BSIZE) as Hmod by (rw /BSIZE; lia).
  pose proof (mapped_own st x b st1 x1 k Hk Hmp) as Hown.
  split; [apply He|by apply fsinv_wr| | | | | | | | | | | |apply He].
  - apply (iwf_ext _ st1); [done| |]; intros; [by apply inuse_wr|]. rw view_st_wr decide_False; [congruence|done].
  - intros j Hj Hz. rw Ea. destruct (decide (j = k)) as [->|]; [by apply (ex_keep _ _ _ _ _ _ He)|by apply (ex_other _ _ _ _ _ _ He)].
  - apply (ex_ind _ _ _ _ _ _ He).
  - intros j Hj. rw Ea (_ : j / BSIZE = k) //. rw /k. rw /BSIZE in Hfit |- *. lia.
  - intros j Hj. assert (j / BSIZE = k ∧ j mod BSIZE = off mod BSIZE + (j - off)) as [Ejk Em] by (rw /k; rw /BSIZE in Hfit |- *; lia).
    rw Eb //; [rw MAXFILE_val in Hoff |- *; rw /k MAXFILE_val /BSIZE in Hk; rw /BSIZE in Hfit |- *; lia|].
    rw nthZ_splice; [done|rw /BSIZE in Hfit |- *; lia|lia|]. rw Em decide_True; [lia|]. f_equal. lia.
  - intros j Hj Hz Hor. destruct (decide (j / BSIZE = k)) as [Ejk|Ejk].
    + rw Eb // nthZ_splice; [done|rw /BSIZE in Hfit |- *; lia|rw /BSIZE; lia|].
      rw decide_False; [rw /k in Ejk; rw /BSIZE in Ejk |- *; lia|]. rw Ejk in Hz.
      destruct (mp_old _ _ _ _ _ _ _ Hmp Hz) as [-> ->]. by rw /fbyte Ejk (mp_addr _ _ _ _ _ _ _ Hmp).
    + pose proof (byte_block j Hj) as Hjk. rw /fbyte Ea (ex_other _ _ _ _ _ _ He) //. f_equal.
      destruct (iaddr_range sb st x (j / BSIZE) Hi Hw Hjk Hz) as ([? ?] & Hu & ?).
      rw view_st_wr decide_False.
      * intros E. apply Ejk. symmetry. apply Hinj; [done|done|apply Hmp|]. by rw (ex_other _ _ _ _ _ _ He).
      * apply (ex_view _ _ _ _ _ _ He); [lia|done|lia|]. by apply (iw_indne _ _ _ Hw).
  - intros Hal. by apply (mp_old _ _ _ _ _ _ _ Hmp), (Hal off); lia.
  - intros y Hy Hu Hyb Hno. rw view_st_wr decide_False; [by intros ->; destruct Hown|].
    apply (ex_view _ _ _ _ _ _ He); [lia|done|done|]. intros ->. apply Hno. split; [lia|by left].
  - intros y Hy Hu. apply inuse_wr; [done|]. by apply (ex_used _ _ _ _ _ _ He).
  - intros y Hy Hu%inuse_wr; [|done]. destruct (ex_new _ _ _ _ _ _ He y Hy Hu) as [?|[Hz Ho]]; [by left|right].
    split; [done|]. destruct Ho as [?|(j & Hj & ->)]; [by left|right]. exists j. by rw Ea.
  - intros y [Hz [->|(j & Hj & ->)]].
    + destruct (decide (ind x = 0)) as [Hzi|Hzi].
      * destruct (ex_indnew _ _ _ _ _ _ He Hzi) as [?|?]; [done|by right].
      * left. rw (ex_ind _ _ _ _ _ _ He) //. split; [done|by left].
    + rw Ea in Hz |- *. destruct (decide (j = k)) as [->|Hjk]; [by rw (mp_addr _ _ _ _ _ _ _ Hmp)|].
      left. rw (ex_other _ _ _ _ _ _ He) // in Hz |- *. split; [done|right]. by exists j.
Qed.
End wrote_facts.

Section writei.
Context {S : Type} `{!Lens S core, !BlockStore S}.
Abbreviation fst := (fst_state S).
Context (sb : superblock) (c : core).
Implicit Types (s : fst) (st : store) (ino : list inode) (ip : nat) (x : inode).

Lemma wrote_data_ext off r f g st x st' x' :
  (∀ j, 0 ≤ j < r → f j = g j) → wrote sb off r f st x st' x' → wrote sb off r g st x st' x'.
Proof.
  intros Hfg [? ? ? ? ? ? Hd ? ? ? ? ? ? ?]. split; try done. intros j Hj. rw Hd //. apply Hfg. lia.
Qed.

(** The chunk of one iteration. *)
Lemma chunk_facts off r :
  0 ≤ off → 0 < r → let m := Z.min r (BSIZE - off mod BSIZE) in
  0 < m ≤ r ∧ off mod BSIZE + m ≤ BSIZE ∧ nb_touched off r = 1 + nb_touched (off + m) (r - m) ∧
  0 ≤ nb_touched (off + m) (r - m) ∧
  (m = r ∨ (off + m) mod BSIZE = 0 ∧ m = BSIZE - off mod BSIZE).
Proof.
  intros Ho Hr m. rw /nb_touched. assert (m = Z.min r (BSIZE - off mod BSIZE)) as Em by done. clearbody m.
  rw /BSIZE in Em |- *. destruct (Z.leb_spec r 0); [lia|]. destruct (Z.leb_spec (r - m) 0); split_and!; lia.
Qed.

(** There is room on the disk, or nothing to allocate. *)
Definition space (st : store) (x : inode) (off r : Z) : Prop :=
  (∀ j, off ≤ j < off + r → iaddr st x (j / BSIZE) ≠ 0) ∨ 2 * nb_touched off r ≤ Z.of_nat (nfree sb st).

Lemma space_alloc st x off r :
  0 < r → 0 ≤ nb_touched off r - 1 → fbudget sb st x (nb_touched off r) → space st x off r →
  iaddr st x (off / BSIZE) ≠ 0 ∨ fbudget sb st x 1 ∧ (2 ≤ nfree sb st)%nat.
Proof.
  intros Hr Hnb Hbud [Hal|Hsp]; [left; apply Hal; lia|right]. split; [|lia]. rw !fbudget_rsize in Hbud |- *. lia.
Qed.

Lemma writei_loop_fat (fuel : nat) st ino s ip x src off n tot :
  fat st sb ino c s → ino !!! ip = x → (ip < length ino)%nat → fsinv sb st → iwf sb st x →
  0 ≤ off → 0 ≤ tot ≤ n → off + (n - tot) ≤ MAXFILE * BSIZE → n ≤ lenZ src → bytes src → (0 < fuel)%nat →
  n = tot ∨ off mod BSIZE + (n - tot) ≤ BSIZE * (Z.of_nat fuel - 1) →
  fbudget sb st x (nb_touched off (n - tot)) → space st x off (n - tot) →
  total (writei_loop fuel ip src off n tot) s (λ r s', r = off + (n - tot) ∧ ∃ st' x',
    fat st' sb (<[ip := x']> ino) c s' ∧ fbudget sb st' x' 0 ∧
    wrote sb off (n - tot) (λ j, nthZ src (tot + j)) st x st' x').
Proof.
  intros Hf Hx Hl Hi Hw. revert st ino s x off tot Hf Hx Hl Hi Hw.
  induction fuel as [|fuel IH]; intros st ino s x off tot Hf Hx Hl Hi Hw Ho Ht Hmax Hsrc Hby Hfu Hor Hbud Hsp; [lia|].
  cbn [writei_loop]. destruct (Z.ltb_spec tot n) as [Hlt|Hge].
  2:{ apply total_ret. rw (_ : n - tot = 0) in Hbud |- *; [lia|]. split; [lia|]. exists st, x. rw insert_self //.
      split_and!; [done|done|by apply wrote_nil]. }
  set (r := n - tot) in *. destruct (chunk_facts off r Ho ltac:(lia)) as (Hm & Hfit & Hnb & Hnb0 & Hcase).
  set (m := Z.min r (BSIZE - off mod BSIZE)) in *.
  assert (0 ≤ off < MAXFILE * BSIZE) as Hoff by lia. pose proof (byte_block off Hoff) as Hk.
  assert (iaddr st x (off / BSIZE) ≠ 0 ∨ fbudget sb st x 1 ∧ (2 ≤ nfree sb st)%nat) as Hal.
  { apply (space_alloc st x off r); [lia|lia|done|done]. }
  eapply total_bind; [by apply (bmap_fat sb c st ino s ip x (off / BSIZE))|].
  cbv beta. intros b s1 (st1 & x1 & H1 & Hmp). pose proof (mp_ext _ _ _ _ _ _ _ Hmp) as He.
  pose proof (ex_inv _ _ _ _ _ _ He) as Hi1. pose proof (ex_wf _ _ _ _ _ _ He) as Hw1.
  assert (iaddr st1 x1 (off / BSIZE) ≠ 0) as Hkz by (rw (mp_addr _ _ _ _ _ _ _ Hmp); apply Hmp).
  destruct (iaddr_range sb st1 x1 _ Hi1 Hw1 Hk Hkz) as ([Hdb1 Hdb2] & _ & Hrange).
  rw (mp_addr _ _ _ _ _ _ _ Hmp) in Hdb1, Hdb2, Hrange.
  apply total_gets_bind. rw (fat_nin _ _ _ _ _ _ H1).
  rw list_lookup_total_insert_eq // (iw_dev _ _ _ Hw1).
  eapply run_breadf; [done|eapply fat_read; [done|apply Hi1|lia]|]. intros i s2 Hih H2. cbv zeta. fold r. fold m.
  eapply run_getb; [done|by rw /= lookup_insert_eq|]. cbn [st_hold st_view].
  assert (blk (st_view st1 !!! b)) as Hblk by (eapply fat_blk; [exact H1|lia]).
  assert (lenZ (slice tot m src) = m) as Hlen by (apply length_slice; lia).
  pose proof (mp_log _ _ _ _ _ _ _ Hmp (splice (off mod BSIZE) (slice tot m src) (st_view st1 !!! b)) (nb_touched (off + m) (r - m))) as Hbud2.
  rw (Z.add_comm _ 1) -Hnb in Hbud2. specialize (Hbud2 Hbud).
  eapply run_update; [done|done| | |].
  - apply blk_splice; [done|by apply Forall_slice|rw /BSIZE; lia|]. rw Hlen. rw /BSIZE in Hfit |- *. lia.
  - split; [apply (data_log sb); [apply Hi1|done]|]. apply (fbudget_log sb _ _ _) in Hbud2; [|done]. simpl in Hbud2.
    pose proof (size_add_le b (st_log st1)). lia.
  - intros s3 H3.
    pose proof (wrote_step sb st x b st1 x1 off m (slice tot m src) Hi Hw Hmp Hoff Hlen ltac:(lia) Hfit Hblk) as Hstep.
    set (st2 := st_wr b _ st1) in *.
    eapply total_mono; [apply (IH st2 (<[ip := x1]> ino) s3 x1 (off + m) (tot + m)); try done|].
    + by rw list_lookup_total_insert_eq.
    + by rw length_insert.
    + apply Hstep.
    + apply Hstep.
    + lia.
    + lia.
    + lia.
    + destruct Hcase as [?|[? ?]]; [lia|]. destruct Hor as [?|Hor]; [lia|]. rw /BSIZE in Hor. lia.
    + destruct Hcase as [?|[Hc1 Hc2]]; [left; lia|]. destruct Hor as [?|Hor]; [lia|right]. rw Hc1. lia.
    + by rw (_ : n - (tot + m) = r - m); [lia|].
    + rw (_ : n - (tot + m) = r - m); [lia|]. destruct Hsp as [Hal'|Hsp]; [left|right].
      * intros j Hj. rw (wt_addr _ _ _ _ _ _ _ _ Hstep); [apply byte_block; lia|apply Hal'; lia|apply Hal'; lia].
      * pose proof (mp_free _ _ _ _ _ _ _ Hmp) as Hfr. rw /st2 nfree_wr; [|lia]. lia.
    + cbv beta. intros off' s4 (-> & st3 & x3 & H4 & Hb3 & Hwr). split; [lia|]. exists st3, x3.
      rw list_insert_insert_eq in H4. split_and!; [done|done|].
      rw (_ : r = m + (n - (tot + m))); [lia|].
      eapply (wrote_trans sb off m (n - (tot + m))); [lia|lia|lia|lia| |].
      * eapply wrote_data_ext; [|exact Hstep]. intros j Hj. apply nthZ_slice; lia.
      * eapply wrote_data_ext; [|exact Hwr]. intros j Hj. simpl. f_equal. lia.
Qed.

(** The bytes of a file depend on its blocks only. *)
Lemma fbyte_ext st st' x j :
  (ind x ≠ 0 → st_view st' !!! ind x = st_view st !!! ind x) →
  st_view st' !!! iaddr st x (j / BSIZE) = st_view st !!! iaddr st x (j / BSIZE) →
  fbyte st' x j = fbyte st x j.
Proof. intros Hi Hb. by rw /fbyte (iaddr_ext st st' x) // Hb. Qed.

(** The other files: same contents, still well formed. *)
Record others_kept (st st' : store) (x : inode) : Prop := {
  ok_file y : iwf sb st y → full st y → (∀ b, owns st y b → ¬ owns st x b) →
    contents st' y = contents st y ∧ iwf sb st' y ∧ full st' y;
  ok_inode i : inum_ok sb i → i ≠ i_inum x → disk_inode sb st' i = disk_inode sb st i;
}.

Lemma size_block y j : full y.1 y.2 → 0 ≤ j < i_size y.2 → 0 ≤ j / BSIZE < MAXFILE.
Proof. intros Hf Hj. apply byte_block. destruct (fl_size _ _ Hf). lia. Qed.

(** A view change outside a file leaves the file. *)
Lemma file_kept st st' y :
  fsinv sb st → iwf sb st y → full st y →
  (∀ b, owns st y b → st_view st' !!! b = st_view st !!! b) →
  (∀ b, data_block sb b → inuse sb st b → inuse sb st' b) →
  contents st' y = contents st y ∧ iwf sb st' y ∧ full st' y.
Proof.
  intros Hi Hw Hf Hv Hu.
  assert (ind y ≠ 0 → st_view st' !!! ind y = st_view st !!! ind y) as Hind.
  { intros Hz. apply Hv. split; [done|by left]. }
  split_and!.
  - apply fmap_seqZ_ext. intros j Hj. rw !Z.add_0_l. apply fbyte_ext; [done|]. apply Hv.
    split; [by apply Hf|right]. exists (j / BSIZE). split; [|done]. by apply (size_block (st, y)).
  - by eapply iwf_ext.
  - destruct Hf as [H1 H2 H3]. split; [done|done|]. intros j Hj. rw (iaddr_ext st) //. by apply H3.
Qed.

Lemma iblock_facts st i :
  fsinv sb st → inum_ok sb i →
  1 < IBLOCK i sb < sb_bmapstart sb ∧ inuse sb st (IBLOCK i sb) ∧ IBLOCK i sb < st_size st ∧
  ∀ x b, iwf sb st x → owns st x b → b ≠ IBLOCK i sb.
Proof.
  intros Hi Hok. destruct (IBLOCK_range sb st i (fi_geo _ _ Hi) Hok) as (_ & Hr & _).
  pose proof (fi_geo _ _ Hi) as Hg. assert (1 < IBLOCK i sb) by (destruct Hg; lia).
  split_and!; [lia|lia| |destruct Hg; lia|].
  - apply (fi_meta _ _ Hi). lia.
  - intros x b Hw Ho. destruct (owns_data sb st x b Hw Ho) as [[? ?] _]. lia.
Qed.

(** [writei]'s loop leaves the other files and all inodes on the disk. *)
Lemma wrote_others off r data st x st' x' :
  fsinv sb st → iwf sb st x → wrote sb off r data st x st' x' →
  others_kept st st' x ∧ ∀ i, inum_ok sb i → disk_inode sb st' i = disk_inode sb st i.
Proof.
  intros Hi Hwx Hwr. assert (∀ i, inum_ok sb i → disk_inode sb st' i = disk_inode sb st i) as Hd.
  { intros i Hok. destruct (iblock_facts st i Hi Hok) as (Hr & Hu & _ & Hno).
    rw /disk_inode. f_equal. destruct (fi_geo _ _ Hi). apply (wt_view _ _ _ _ _ _ _ _ Hwr); [lia|done|lia|].
    intros Ho. by destruct (Hno x (IBLOCK i sb)). }
  split; [|done]. split; [|auto].
  intros y Hw Hf Hdis. apply file_kept; [done|done|done| |].
  - intros b Ho. destruct (owns_data sb st y b Hw Ho) as [[? ?] Hu].
    pose proof (bmap_nonneg sb st Hi). apply (wt_view _ _ _ _ _ _ _ _ Hwr); [lia|done|lia|by apply Hdis].
  - intros b [? ?] Hu. pose proof (bmap_nonneg sb st Hi). apply (wt_used _ _ _ _ _ _ _ _ Hwr); [lia|done].
Qed.
End writei.
