(* ===== verification/FsRw.v ===== *)
(** * Reading and writing files: the theorems

    [readi] returns a slice of the contents; [writei] replaces one and grows
    the file; a file written through its inode can be read back, and the other
    files keep their contents. *)

From S2P Require Import Prelude CString Layout Kernel Store Fs FsAlloc FsInode FsMap FsFile.

(** The contents after [src] was written at [off]. *)
Definition overwrite (off : Z) (src old : list Z) : list Z :=
  take (Z.to_nat off) old ++ src ++ drop (Z.to_nat off + length src) old.

(** What a write of [src] at [off] does to the file [x]. *)
Record written (sb : superblock) (off : Z) (src : list Z) (st : store) (x : inode) (st' : store) (x' : inode) : Prop := {
  wn_x : x' = w_size (Z.max (i_size x) (off + lenZ src)) (w_addrs (i_addrs x') x);
  wn_inv : fsinv sb st';
  wn_wf : iwf sb st' x';
  wn_full : full st' x';
  wn_fits : inode_fits x';
  wn_contents : contents st' x' = overwrite off src (contents st x);
  wn_sync : disk_inode sb st (i_inum x) = to_dinode x → disk_inode sb st' (i_inum x) = to_dinode x';
  wn_others : others_kept sb st st' x;
  wn_used b : 0 ≤ b < sb_size sb → inuse sb st b → inuse sb st' b;
  wn_own b : owns st' x' b → owns st x b ∨ ¬ inuse sb st b;
  wn_consts : st_size st' = st_size st ∧ st_base st' = st_base st ∧ st_cap st' = st_cap st ∧ st_disk st' = st_disk st;
}.

Section contents.
Implicit Types (st : store) (x : inode).

Lemma length_contents st x : 0 ≤ i_size x → lenZ (contents st x) = i_size x.
Proof. intros. rw /contents length_fmap length_seqZ. lia. Qed.

Lemma seqZ_three a b m : 0 ≤ a → 0 ≤ b → a + b ≤ m → seqZ 0 m = seqZ 0 a ++ seqZ a b ++ seqZ (a + b) (m - a - b).
Proof.
  intros. rw -(seqZ_app a b (m - a - b)); [lia..|]. rw -{2}(Z.add_0_l a) -seqZ_app; [lia..|]. f_equal. lia.
Qed.

Lemma list_as_fmap (l : list Z) : l = nthZ l <$> seqZ 0 (lenZ l).
Proof. rw -slice_seqZ; [lia..|]. by rw /slice /= Nat2Z.id firstn_all. Qed.

Lemma take_contents st x off : 0 ≤ off ≤ i_size x → take (Z.to_nat off) (contents st x) = fbyte st x <$> seqZ 0 off.
Proof. intros. rw -(slice_contents st x 0 off); [lia..|]. done. Qed.

Lemma drop_contents st x o : 0 ≤ o → 0 ≤ i_size x → drop (Z.to_nat o) (contents st x) = fbyte st x <$> seqZ o (i_size x - o).
Proof.
  intros Ho Hs. destruct (decide (o ≤ i_size x)).
  - rw -(slice_contents st x o); [lia..|]. rw /slice firstn_all2 //. rw length_drop. pose proof (length_contents st x Hs). lia.
  - rw drop_ge; [pose proof (length_contents st x Hs); lia|]. by rw seqZ_nil; [lia|].
Qed.

(** The contents when the bytes at [off] changed to [src] and no others. *)
Lemma contents_overwrite st x st' x' off src :
  0 ≤ off ≤ i_size x → i_size x' = Z.max (i_size x) (off + lenZ src) →
  (∀ j, off ≤ j < off + lenZ src → fbyte st' x' j = nthZ src (j - off)) →
  (∀ j, 0 ≤ j < i_size x → j < off ∨ off + lenZ src ≤ j → fbyte st' x' j = fbyte st x j) →
  contents st' x' = overwrite off src (contents st x).
Proof.
  intros Ho Hs Hd Hk. rw /overwrite {1}/contents Hs (seqZ_three off (lenZ src)); [lia..|].
  rw !fmap_app take_contents; [lia|].
  rw (_ : (Z.to_nat off + length src)%nat = Z.to_nat (off + lenZ src)); [lia|]. rw drop_contents; [lia..|].
  f_equal; [|f_equal].
  - apply fmap_seqZ_ext. intros i Hi. apply Hk; lia.
  - rw {2}(list_as_fmap src). apply fmap_seqZ_ext. intros i Hi. rw Hd; [lia|]. f_equal. lia.
  - destruct (decide (i_size x ≤ off + lenZ src)).
    + by rw !seqZ_nil; [lia..|].
    + rw (_ : Z.max (i_size x) (off + lenZ src) - off - lenZ src = i_size x - (off + lenZ src)); [lia|].
      apply fmap_seqZ_ext. intros i Hi. apply Hk; lia.
Qed.
End contents.

Lemma nblocks_fuel off n : 0 ≤ off → 0 ≤ n → (0 < nblocks n)%nat ∧
  (n = 0 ∨ off mod BSIZE + (n - 0) ≤ BSIZE * (Z.of_nat (nblocks n) - 1)).
Proof. rw /nblocks /BSIZE. intros. split; lia. Qed.

Section read.
Context {S : Type} `{!Lens S core, !BlockStore S}.
Abbreviation fst := (fst_state S).
Context (dev_read : Z → option (nat → Z → Z → M fst (Z * list Z))).
Context (sb : superblock) (c : core).
Implicit Types (s : fst) (st : store) (ino : list inode) (ip : nat) (x : inode).

Lemma readi_fat st ino s ip x off n :
  fat st sb ino c s → ino !!! ip = x → (ip < length ino)%nat → fsinv sb st → iwf sb st x → full st x →
  0 ≤ off ≤ i_size x → 0 ≤ n → off + n < 2 ^ 32 →
  let m := Z.min n (i_size x - off) in
  total (readi dev_read ip off n) s (λ r s', fat st sb ino c s' ∧ r = (m, slice off m (contents st x))).
Proof.
  intros Hf Hx Hl Hi Hw Hfl Ho Hn Hov m. pose proof (fl_size _ _ Hfl) as Hsz. rw MAXFILE_val /BSIZE in Hsz.
  rw /readi. apply total_gets_bind. rw (fat_nin _ _ _ _ _ _ Hf) Hx.
  destruct (Z.eqb_spec (i_type x) T_DEV) as [?|_]; [by destruct (fl_type _ _ Hfl)|].
  rw u32_small; [lia|]. destruct (Z.gtb_spec off (i_size x)); [lia|]. destruct (Z.ltb_spec (off + n) off); [lia|]. simpl.
  assert ((if off + n >? i_size x then u32 (i_size x - off) else n) = m) as ->.
  { rw u32_small; [lia|]. rw /m. destruct (Z.gtb_spec (off + n) (i_size x)); lia. }
  destruct (nblocks_fuel off m) as [Hfu Hfu']; [lia|lia|].
  eapply total_bind; [apply (readi_loop_fat sb c (nblocks m) st ino s ip x off m 0); try done; lia|].
  cbv beta. intros d s' [Hf' ->]. apply total_ret. split; [done|]. rw i32_small; [lia|].
  rw slice_contents; [lia|lia|lia|]. by rw Z.sub_0_r.
Qed.

(** C25: [readi] within a file returns the bytes of its contents from [off], as
    many as asked for or as there are, and changes nothing. *)
Theorem readi_correct st ino s ip x off n :
  fat st sb ino c s → ino !!! ip = x → (ip < length ino)%nat → fsinv sb st → iwf sb st x → full st x →
  0 ≤ off ≤ i_size x → 0 ≤ n → off + n < 2 ^ 32 →
  total (readi dev_read ip off n) s (λ r s', fat st sb ino c s' ∧
    r = (Z.min n (i_size x - off), slice off (Z.min n (i_size x - off)) (contents st x))).
Proof. apply readi_fat. Qed.
End read.

Section written.
Context (sb : superblock).
Implicit Types (st : store) (x : inode).

(** The block numbers of an inode fit the disk structure. *)
Lemma iwf_addrs st x : fsinv sb st → iwf sb st x → Forall (λ w, 0 ≤ w < 2 ^ 32) (i_addrs x).
Proof.
  intros Hi Hw. pose proof (iw_len _ _ _ Hw) as Hl. pose proof (fi_geo _ _ Hi) as Hg.
  assert (∀ b, b = 0 ∨ data_block sb b ∧ inuse sb st b → 0 ≤ b < 2 ^ 32) as Hb.
  { intros b [->|[Hd _]]; [lia|]. pose proof (data_nz sb st Hi b Hd). destruct Hg. rw /BPB /BSIZE in fg_bpb. lia. }
  apply Forall_lookup. intros i w Hiw. assert (w = nthZ (i_addrs x) (Z.of_nat i)) as ->.
  { rw /nthZ Nat2Z.id. by erewrite nth_lookup_Some. }
  apply lookup_lt_Some in Hiw. destruct (decide (i = 12%nat)) as [->|].
  - apply Hb, (iw_ind _ _ _ Hw).
  - pose proof (iw_data _ _ _ Hw (Z.of_nat i)) as Hk. rw /iaddr in Hk.
    destruct (Z.ltb_spec (Z.of_nat i) NDIRECT) as [?|Hge]; [|rw /NDIRECT in Hge; lia].
    apply Hb, Hk. rw MAXFILE_val. lia.
Qed.

Lemma alter_insert_eq {A} (l : list A) i f y : alter f i (<[i := y]> l) = <[i := f y]> l.
Proof. revert i. induction l as [|a l IH]; intros [|i]; [done..|]. cbn. f_equal. apply IH. Qed.

(** A write of [wrote], with the size adjusted, is a write of the contents. *)
Lemma wrote_contents st x st1 x1 off src :
  full st x → wrote sb off (lenZ src) (nthZ src) st x st1 x1 → 0 ≤ off ≤ i_size x → off + lenZ src ≤ MAXFILE * BSIZE →
  let x2 := w_size (Z.max (i_size x) (off + lenZ src)) x1 in
  full st1 x2 ∧ contents st1 x2 = overwrite off src (contents st x).
Proof.
  intros Hfl Hwr Ho Hmax x2. destruct Hfl as [Ht Hs Ha].
  assert (∀ j, iaddr st1 x2 j = iaddr st1 x1 j) as Ea by done.
  assert (∀ j, fbyte st1 x2 j = fbyte st1 x1 j) as Eb by done. split.
  - split; [by rw /= (wt_x _ _ _ _ _ _ _ _ Hwr)|simpl; lia|]. cbn [x2 w_size i_size]. intros j Hj. rw Ea.
    destruct (decide (off ≤ j < off + lenZ src)); [by apply (wt_alloc _ _ _ _ _ _ _ _ Hwr)|].
    rw (wt_addr _ _ _ _ _ _ _ _ Hwr); [apply byte_block; lia|apply Ha; lia|apply Ha; lia].
  - apply contents_overwrite; [done|done| |]; intros j Hj; rw Eb; [by apply (wt_data _ _ _ _ _ _ _ _ Hwr)|].
    intros Hor. apply (wt_keep _ _ _ _ _ _ _ _ Hwr); [lia|by apply Ha|done].
Qed.

Lemma inode_fits_size x v : inode_fits x → 0 ≤ v < 2 ^ 32 → inode_fits (w_size v x).
Proof. intros [] Hv. by split. Qed.

Lemma inode_fits_addrs st x x1 : fsinv sb st → iwf sb st x1 → x1 = w_addrs (i_addrs x1) x → inode_fits x → inode_fits x1.
Proof. intros Hi Hw -> []. split; try done; [apply (iw_len _ _ _ Hw)|by apply (iwf_addrs st x1)]. Qed.

Lemma w_size_self x : w_size (i_size x) x = x.
Proof. by destruct x. Qed.

(** A write that does not grow the file changes no inode. *)
Lemma written_inside st x st1 x1 off src :
  fsinv sb st → iwf sb st x → full st x → inode_fits x → inum_ok sb (i_inum x) →
  wrote sb off (lenZ src) (nthZ src) st x st1 x1 → 0 ≤ off ≤ i_size x → off + lenZ src ≤ MAXFILE * BSIZE →
  off + lenZ src ≤ i_size x → x1 = x ∧ written sb off src st x st1 x.
Proof.
  intros Hi Hw Hfl Hfit Hok Hwr Ho Hmax Hin.
  assert (x1 = x) as -> by (apply (wt_same _ _ _ _ _ _ _ _ Hwr); intros; apply Hfl; lia). split; [done|].
  destruct (wrote_contents st x st1 x off src Hfl Hwr Ho Hmax) as [Hf1 Hc1].
  rw (_ : Z.max (i_size x) (off + lenZ src) = i_size x) in Hf1, Hc1; [lia|]. rw w_size_self in Hf1, Hc1.
  destruct (wrote_others sb off _ _ st x st1 x Hi Hw Hwr) as [Hoth Hdi].
  split; [|apply Hwr|apply Hwr|done|done|done| |done|apply Hwr|apply Hwr|apply Hwr].
  - rw (_ : Z.max (i_size x) (off + lenZ src) = i_size x); [lia|]. by destruct x.
  - by rw Hdi.
Qed.

Lemma iwf_size st x v : iwf sb st x → iwf sb st (w_size v x).
Proof. intros []. by split. Qed.

(** A write that grows the file updates its inode on the disk. *)
Lemma written_grow st x st1 x1 off src :
  fsinv sb st → iwf sb st x → full st x → inode_fits x → inum_ok sb (i_inum x) →
  wrote sb off (lenZ src) (nthZ src) st x st1 x1 → 0 ≤ off ≤ i_size x → off + lenZ src ≤ MAXFILE * BSIZE →
  i_size x < off + lenZ src → blk (st_view st1 !!! IBLOCK (i_inum x) sb) →
  let x2 := w_size (off + lenZ src) x1 in
  inode_fits x2 ∧ written sb off src st x (st_iupdate sb x2 st1) x2.
Proof.
  intros Hi Hw Hfl Hfit Hok Hwr Ho Hmax Hout Hblk x2.
  pose proof (wt_x _ _ _ _ _ _ _ _ Hwr) as Ex. pose proof (wt_inv _ _ _ _ _ _ _ _ Hwr) as Hi1.
  destruct (wrote_contents st x st1 x1 off src Hfl Hwr Ho Hmax) as [Hf1 Hc1].
  rw (_ : Z.max (i_size x) (off + lenZ src) = off + lenZ src) in Hf1, Hc1; [lia|]. fold x2 in Hf1, Hc1.
  destruct (wrote_others sb off _ _ st x st1 x1 Hi Hw Hwr) as [Hoth Hdi].
  assert (i_inum x2 = i_inum x) as En by (by rw /= Ex).
  assert (iwf sb st1 x2) as Hw2 by apply iwf_size, (wt_wf _ _ _ _ _ _ _ _ Hwr).
  assert (inode_fits x2) as Hfit2.
  { apply inode_fits_size; [|rw MAXFILE_val /BSIZE in Hmax; lia]. by apply (inode_fits_addrs st1 x); [|apply Hwr| |]. }
  destruct (iblock_facts sb st1 (i_inum x) Hi1 Hok) as (Hr & Hu & Hlt & Hno).
  assert (∀ b, b ≠ IBLOCK (i_inum x) sb → st_view (st_iupdate sb x2 st1) !!! b = st_view st1 !!! b) as Hv.
  { intros b Hb. by rw /st_iupdate En view_st_wr decide_False. }
  assert (∀ b, inuse sb (st_iupdate sb x2 st1) b ↔ inuse sb st1 b) as Hus.
  { intros b. rw /st_iupdate En. apply inuse_wr. lia. }
  assert (∀ y, iwf sb st1 y → full st1 y → contents (st_iupdate sb x2 st1) y = contents st1 y ∧
    iwf sb (st_iupdate sb x2 st1) y ∧ full (st_iupdate sb x2 st1) y) as Hkeep.
  { intros y Hy Hfy. apply (file_kept sb); [done|done|done| |].
    - intros b Hb. apply Hv. by apply (Hno y).
    - intros b _ Hb. by apply Hus. }
  destruct (Hkeep x2 Hw2 Hf1) as (Hc2 & Hw3 & Hf3).
  assert (∀ j, inum_ok sb j → disk_inode sb (st_iupdate sb x2 st1) j =
    if decide (j = i_inum x) then to_dinode x2 else disk_inode sb st1 j) as Hdisk.
  { intros j Hj. rw st_iupdate_disk //; [apply Hi1|by rw En..|]. by rw En. }
  split; [done|]. split; [|apply fsinv_wr; [done|rw En; lia|rw En; lia]|done|done|done|by rw Hc2| | | | |apply Hwr].
  - rw (_ : Z.max (i_size x) (off + lenZ src) = off + lenZ src); [lia|]. rw /x2 {1}Ex. done.
  - intros _. by rw Hdisk // decide_True.
  - split.
    + intros y Hy Hfy Hdis. destruct (ok_file _ _ _ _ Hoth y Hy Hfy Hdis) as (E1 & Hy1 & Hfy1).
      destruct (Hkeep y Hy1 Hfy1) as (E2 & ? & ?). by rw E2 E1.
    + intros i Hj Hne. rw Hdisk // decide_False // Hdi //.
  - intros b Hb Hub. apply Hus. by apply (wt_used _ _ _ _ _ _ _ _ Hwr).
  - intros b Hob. apply (wt_own _ _ _ _ _ _ _ _ Hwr). destruct Hob as [Hz [->|(k & Hk & ->)]]; (split; [done|]); [by left|right].
    exists k. split; [done|]. apply (iaddr_ext st1 _ x2). intros Hzi. apply Hv. apply (Hno x2); [done|]. split; [done|by left].
Qed.

End written.

Section write.
Context {S : Type} `{!Lens S core, !BlockStore S}.
Abbreviation fst := (fst_state S).
Context (dev_write : Z → option (nat → Z → list Z → M fst Z)).
Context (sb : superblock) (c : core).
Implicit Types (s : fst) (st : store) (ino : list inode) (ip : nat) (x : inode).

Lemma writei_fat st ino s ip x src off :
  fat st sb ino c s → ino !!! ip = x → (ip < length ino)%nat → fsinv sb st → iwf sb st x → full st x →
  inode_fits x → inum_ok sb (i_inum x) →
  bytes src → 0 ≤ off ≤ i_size x → off + lenZ src ≤ MAXFILE * BSIZE →
  fbudget sb st x (nb_touched off (lenZ src)) → space sb st x off (lenZ src) →
  total (writei dev_write ip src off (lenZ src)) s (λ r s', r = lenZ src ∧ ∃ st' x',
    fat st' sb (<[ip := x']> ino) c s' ∧ written sb off src st x st' x').
Proof.
  intros Hf Hx Hl Hi Hw Hfl Hfit Hok Hby Ho Hmax Hbud Hsp. pose proof Hmax as Hm'. rw MAXFILE_val /BSIZE in Hm'.
  rw /writei. apply total_gets_bind. rw (fat_nin _ _ _ _ _ _ Hf) Hx.
  destruct (Z.eqb_spec (i_type x) T_DEV) as [?|_]; [by destruct (fl_type _ _ Hfl)|].
  rw u32_small; [lia|]. destruct (Z.gtb_spec off (i_size x)) as [?|_]; [lia|]. destruct (Z.ltb_spec (off + lenZ src) off) as [?|_]; [lia|]. simpl.
  destruct (Z.gtb_spec (off + lenZ src) (MAXFILE * BSIZE)) as [?|_]; [lia|]. simpl.
  destruct (nblocks_fuel off (lenZ src)) as [Hfu Hfu']; [lia|lia|].
  eapply total_bind; [apply (writei_loop_fat sb c (nblocks (lenZ src)) st ino s ip x src off (lenZ src) 0); try done; try lia; by rw ?Z.sub_0_r|].
  cbv beta. rw !Z.sub_0_r. intros off' s1 (-> & st1 & x1 & H1 & Hb1 & Hwr).
  apply total_gets_bind. rw (fat_nin _ _ _ _ _ _ H1) list_lookup_total_insert_eq //.
  pose proof (wt_x _ _ _ _ _ _ _ _ Hwr) as Ex. pose proof (wt_inv _ _ _ _ _ _ _ _ Hwr) as Hi1.
  eapply wrote_data_ext in Hwr; [|by intros j _; rw Z.add_0_l].
  assert (i_size x1 = i_size x) as -> by (by rw Ex). rw (i32_small (lenZ src)); [lia|].
  destruct (decide (off + lenZ src ≤ i_size x)) as [Hin|Hout].
  - destruct (written_inside sb st x st1 x1 off src) as [-> Hwn]; try done. rw (_ : (_ && _) = false); [bool_cases; lia|].
    apply total_ret_bind, total_ret. split; [done|]. by exists st1, x.
  - destruct (iblock_facts sb st1 (i_inum x) Hi1 Hok) as (Hr & _ & Hlt & _).
    assert (blk (st_view st1 !!! IBLOCK (i_inum x) sb)) as Hblk by (eapply fat_blk; [exact H1|lia]).
    destruct (written_grow sb st x st1 x1 off src) as [Hfit2 Hwn]; try done; [lia|]. set (x2 := w_size _ x1) in *.
    assert (i_inum x2 = i_inum x) as En by (by rw /= Ex).
    rw (_ : (_ && _) = true); [bool_cases; lia|]. rw /when. apply total_assoc, total_modify_bind.
    pose proof (fat_iupd sb c st1 _ s1 ip (w_size (off + lenZ src)) H1) as H2. rw alter_insert_eq in H2. fold x2 in H2.
    eapply total_bind; [apply (iupdate_fat sb c st1 _ _ ip x2 H2); [apply Hi1|by rw list_lookup_total_insert_eq| |by rw En|done|]|].
    + rw /= Ex. apply Hw.
    + rw En. split; [eapply fat_read; [exact H1|apply Hi1|lia]|]. pose proof (fi_geo _ _ Hi1) as Hg.
      destruct (IBLOCK_range sb st1 _ Hg Hok) as (_ & Hib & _). split; [lia|].
      apply (fbudget_log sb) in Hb1; [|lia]. pose proof (size_add_le (IBLOCK (i_inum x) sb) (st_log st1)). lia.
    + cbv beta. intros _ s2 H3. apply total_ret. split; [done|]. by exists (st_iupdate sb x2 st1), x2.
Qed.

(** C3: [writei] within the maximal file size, given log space and free blocks,
    returns the number of bytes asked for; the contents of the file become the
    old ones overwritten at [off] (and the file grows to hold them), the new
    blocks were free before, the inode on the disk follows the one in memory,
    and every other file keeps its inode, its blocks and its contents. *)
Theorem writei_correct st ino s ip x src off :
  fat st sb ino c s → ino !!! ip = x → (ip < length ino)%nat → fsinv sb st → iwf sb st x → full st x →
  inode_fits x → inum_ok sb (i_inum x) →
  bytes src → 0 ≤ off ≤ i_size x → off + lenZ src ≤ MAXFILE * BSIZE →
  fbudget sb st x (nb_touched off (lenZ src)) → space sb st x off (lenZ src) →
  total (writei dev_write ip src off (lenZ src)) s (λ r s', r = lenZ src ∧ ∃ st' x',
    fat st' sb (<[ip := x']> ino) c s' ∧ written sb off src st x st' x').
Proof. apply writei_fat. Qed.

(** A write beyond the end of the file, or past the maximal file size, fails
    and changes nothing. *)
Theorem writei_rejects st ino s ip x src off :
  fat st sb ino c s → ino !!! ip = x → i_type x ≠ T_DEV → 0 ≤ off < 2 ^ 31 → lenZ src < 2 ^ 31 →
  i_size x < off ∨ MAXFILE * BSIZE < off + lenZ src →
  writei dev_write ip src off (lenZ src) s = Ret (-1) s.
Proof.
  intros Hf Hx Ht Ho Hn Hor. pose proof (fat_nin _ _ _ _ _ ip Hf) as E. rw Hx in E.
  rw /writei /mbind /M_bind /gets. cbn -[Z.gtb Z.ltb Z.mul u32 MAXFILE nin]. rw E.
  destruct (Z.eqb_spec (i_type x) T_DEV); [done|]. rw u32_small; [lia|].
  destruct (Z.gtb_spec off (i_size x)); [done|]. destruct (Z.ltb_spec (off + lenZ src) off); [done|]. simpl.
  destruct (Z.gtb_spec (off + lenZ src) (MAXFILE * BSIZE)); [done|lia].
Qed.
End write.
