(* ===== verification/FsDir.v ===== *)
(** * Directories: dirlookup and dirlink

    A directory is a file of 16-byte entries.  [dscan] is what looking up a name
    in it means; [dirlookup] finds that entry, and [dirlink] stores a new one
    that [dirlookup] finds from then on, and leaves the lookup of every other
    name. *)

From S2P Require Import Prelude CString Layout Kernel Store Fs FsAlloc FsInode FsMap FsFile FsRw.

(** ** Entries *)

Fixpoint chunks (n : nat) (d : list Z) : list (list Z) :=
  match n with O => [] | S n => take 16 d :: chunks n (drop 16 d) end.

(** The entries of a directory with contents [d]. *)
Definition ents (d : list Z) : list (list Z) := chunks (Z.to_nat (lenZ d / 16)) d.

Definition dmatch (name e : list Z) : bool := negb (de_inum e =? 0) && (namecmp name (de_name e) =? 0).

(** The inode number and the offset of the first entry with this name. *)
Fixpoint dscan (l : list (list Z)) (off : Z) (name : list Z) : option (Z * Z) :=
  match l with
  | [] => None
  | e :: l => if dmatch name e then Some (de_inum e, off) else dscan l (off + 16) name
  end.

(** The offset of the first free entry, or the end. *)
Fixpoint dfree (l : list (list Z)) (off : Z) : Z :=
  match l with
  | [] => off
  | e :: l => if de_inum e =? 0 then off else dfree l (off + 16)
  end.

Lemma ents_nil d : lenZ d = 0 → ents d = [].
Proof. intros E. by rw /ents E. Qed.

Lemma ents_cons d1 d2 : lenZ d1 = 16 → ents (d1 ++ d2) = d1 :: ents d2.
Proof.
  intros H. assert (length d1 = 16%nat) as Hl by lia.
  rw /ents length_app (_ : Z.to_nat (Z.of_nat (length d1 + length d2) / 16) = S (Z.to_nat (lenZ d2 / 16))); [lia|].
  cbn [chunks]. rw take_app_length' // drop_app_length' //.
Qed.

Lemma split16 n (d : list Z) : lenZ d = 16 * Z.of_nat (S n) → ∃ a b, d = a ++ b ∧ lenZ a = 16 ∧ lenZ b = 16 * Z.of_nat n.
Proof. intros H. exists (take 16 d), (drop 16 d). rw take_drop length_take length_drop. split_and!; [done|lia|lia]. Qed.

Lemma ents_app n d1 d2 : lenZ d1 = 16 * Z.of_nat n → ents (d1 ++ d2) = ents d1 ++ ents d2.
Proof.
  revert d1. induction n as [|n IH]; intros d1 H.
  - destruct d1; [done|simpl in H; lia].
  - destruct (split16 n d1 H) as (a & b & -> & Ha & Hb). rw -app_assoc (ents_cons a (b ++ d2)) // (ents_cons a b) // IH //.
Qed.

Lemma length_ents n d : lenZ d = 16 * Z.of_nat n → length (ents d) = n.
Proof.
  revert d. induction n as [|n IH]; intros d H; [by rw ents_nil; [lia|]|].
  destruct (split16 n d H) as (a & b & -> & Ha & Hb). rw ents_cons //. cbn. f_equal. by apply IH.
Qed.

(** ** Scans *)

Lemma dscan_app l1 l2 off name :
  dscan (l1 ++ l2) off name = match dscan l1 off name with Some r => Some r | None => dscan l2 (off + 16 * lenZ l1) name end.
Proof.
  revert off. induction l1 as [|e l1 IH]; intros off; cbn [app dscan length]; [f_equal; lia|].
  destruct (dmatch name e); [done|]. rw IH. destruct (dscan l1 _ _); [done|]. f_equal. lia.
Qed.

(** The entry that [dirlink] replaces. *)
Lemma dfree_split l off :
  ∃ l1 l2, dfree l off = off + 16 * lenZ l1 ∧
    (l = l1 ∧ l2 = [] ∨ ∃ e, l = l1 ++ e :: l2 ∧ de_inum e = 0).
Proof.
  revert off. induction l as [|e l IH]; intros off; cbn [dfree].
  { exists [], []. split; [simpl; lia|by left]. }
  destruct (Z.eqb_spec (de_inum e) 0) as [E|E].
  { exists [], l. split; [simpl; lia|]. right. by exists e. }
  destruct (IH (off + 16)) as (l1 & l2 & Hd & Hor). exists (e :: l1), l2. split; [rw Hd /=; lia|].
  destruct Hor as [[-> ->]|(e0 & -> & ?)]; [by left|right; by exists e0].
Qed.

(** A new entry [e] in place of a free one, or at the end. *)
Lemma dscan_new l l1 l2 e name :
  l = l1 ∧ l2 = [] ∨ (∃ e0, l = l1 ++ e0 :: l2 ∧ de_inum e0 = 0) →
  (dmatch name e = false → dscan (l1 ++ e :: l2) 0 name = dscan l 0 name) ∧
  (dmatch name e = true → dscan l 0 name = None → dscan (l1 ++ e :: l2) 0 name = Some (de_inum e, 16 * lenZ l1)).
Proof.
  intros Hor. split.
  - intros Hm. destruct Hor as [[-> ->]|(e0 & -> & H0)]; rw !dscan_app; cbn [dscan]; rw Hm.
    + by destruct (dscan l1 0 name).
    + by rw /dmatch H0.
  - intros Hm Hn. assert (dscan l1 0 name = None) as H1.
    { destruct Hor as [[-> ->]|(e0 & -> & _)]; [done|]. rw dscan_app in Hn. by destruct (dscan l1 0 name). }
    by rw dscan_app H1 /= Hm Z.add_0_l.
Qed.

(** ** The entry of a name *)

Lemma chars_bytes l : bytes l → chars (nthZ l).
Proof. intros H i. rw /nthZ nth_lookup. destruct (l !! Z.to_nat i) as [b|] eqn:E; [by eapply list.Forall_lookup|done]. Qed.

(** Two names that are the same to [namecmp]. *)
Definition same_name (n n' : list Z) : Prop := cname 14 (nthZ n) 0 = cname 14 (nthZ n') 0.
#[global] Instance same_name_dec n n' : Decision (same_name n n').
Proof. rw /same_name. apply _. Defined.

Definition new_entry (inum : Z) (name : list Z) : list Z := mk_dirent (u16 inum) (strncpy (nthZ name) DIRSIZ).

Lemma length_entry inum name : lenZ (new_entry inum name) = 16.
Proof. rw /new_entry /mk_dirent length_app length_le_encode. pose proof (length_strncpy (nthZ name) DIRSIZ ltac:(done)). rw /DIRSIZ in H |- *. lia. Qed.

Lemma bytes_entry inum name : bytes name → bytes (new_entry inum name).
Proof.
  intros H. apply Forall_app. split; [apply bytes_le_encode|]. apply list.Forall_lookup. intros i b Hib.
  pose proof (chars_strncpy (nthZ name) DIRSIZ (chars_bytes _ H) (Z.of_nat i)) as Hc. by rw /nthZ Nat2Z.id nth_lookup Hib in Hc.
Qed.

Lemma entry_inum inum name : 0 ≤ inum < 2 ^ 16 → de_inum (new_entry inum name) = inum.
Proof.
  intros H. rw /de_inum /load /new_entry /mk_dirent /slice drop_0 take_app_length'; [by rw length_le_encode|].
  rw le_decode_encode /u16. change (256 ^ Z.of_nat 2) with (2 ^ 16). by rw !Z.mod_small.
Qed.

Lemma entry_match inum name name' :
  0 < inum < 2 ^ 16 → bytes name → bytes name' → dmatch name' (new_entry inum name) = bool_decide (same_name name' name).
Proof.
  intros Hi Hb Hb'. rw /dmatch entry_inum; [lia|]. destruct (Z.eqb_spec inum 0); [lia|]. cbn [negb andb].
  assert (de_name (new_entry inum name) = strncpy (nthZ name) DIRSIZ) as ->.
  { rw /de_name /slice /new_entry /mk_dirent drop_app_length'; [by rw length_le_encode|]. apply take_ge.
    pose proof (length_strncpy (nthZ name) DIRSIZ ltac:(done)). lia. }
  pose proof (strncmp_from_eq 14 (nthZ name') (nthZ (strncpy (nthZ name) DIRSIZ)) 0 (chars_bytes _ Hb') (chars_strncpy _ _ (chars_bytes _ Hb))) as E.
  change (strncmp_from 14 ?p ?q 0) with (namecmp name' (strncpy (nthZ name) DIRSIZ)) in E.
  assert (cname 14 (nthZ (strncpy (nthZ name) DIRSIZ)) 0 = cname 14 (nthZ name) 0) as E' by apply (cname_strncpy 14).
  rw E' in E. case_bool_decide; [apply Z.eqb_eq; tauto|apply Z.eqb_neq; tauto].
Qed.

(** The entries after [dirlink] has stored [e]. *)
Lemma ents_overwrite n d e :
  lenZ d = 16 * Z.of_nat n → lenZ e = 16 →
  ∃ l1 l2, dfree (ents d) 0 = 16 * lenZ l1 ∧ 0 ≤ dfree (ents d) 0 ≤ lenZ d ∧ ents (overwrite (dfree (ents d) 0) e d) = l1 ++ e :: l2 ∧
    (ents d = l1 ∧ l2 = [] ∨ ∃ e0, ents d = l1 ++ e0 :: l2 ∧ de_inum e0 = 0).
Proof.
  intros Hn He. destruct (dfree_split (ents d) 0) as (l1 & l2 & Hd & Hor). rw Z.add_0_l in Hd. exists l1, l2. rw Hd.
  pose proof (length_ents n d Hn) as Hlen. assert (length l1 ≤ n)%nat as Hle.
  { destruct Hor as [[E _]|(e0 & E & _)]; rw E in Hlen; [lia|]. rw length_app in Hlen. lia. }
  split_and!; [done|lia|lia| |done]. rw /overwrite. set (k := Z.to_nat (16 * lenZ l1)).
  assert (lenZ (take k d) = 16 * lenZ l1) as H1 by (rw length_take; lia).
  rw (ents_app (length l1)) // ents_cons //. assert (drop (k + length e) d = drop 16 (drop k d)) as -> by (rw drop_drop; f_equal; lia).
  destruct Hor as [[E ->]|(e0 & E & _)].
  - assert (length l1 = n) as Hl1 by (by rw -E). rw take_ge; [lia|]. rw (drop_ge d k); [lia|]. by rw E.
  - pose proof (ents_app (length l1) (take k d) (drop k d) H1) as Es. rw take_drop E in Es.
    apply app_inj_1 in Es as [E1 E2]; [|by rw (length_ents _ _ H1)]. rw -E1. do 2 f_equal.
    rw E length_app /= in Hlen. destruct (split16 (n - length l1 - 1) (drop k d)) as (a & b & Eab & Ha & Hb); [rw length_drop; lia|].
    rw Eab ents_cons // in E2. injection E2 as _ ->. rw Eab drop_app_length' //. lia.
Qed.

Lemma dir_blocks st x :
  full st x → i_size x mod 16 = 0 → ∃ n, lenZ (contents st x) = 16 * Z.of_nat n ∧ (n < nentries (i_size x))%nat.
Proof.
  intros Hfl Hsz. pose proof (fl_size _ _ Hfl). exists (Z.to_nat (i_size x / 16)). rw length_contents; [lia|]. rw /nentries /sizeof_dirent. lia.
Qed.

Section dir.
Context {S : Type} `{!Lens S core, !BlockStore S}.
Abbreviation fst := (fst_state S).
Context (dev_read : Z → option (nat → Z → Z → M fst (Z * list Z))).
Context (sb : superblock) (c : core) (st : store) (ino : list inode) (dp : nat) (x : inode).
Context (Hx : ino !!! dp = x) (Hl : (dp < length ino)%nat) (Hi : fsinv sb st) (Hw : iwf sb st x) (Hfl : full st x).
Context (Hdir : i_type x = T_DIR) (Hsz : i_size x mod 16 = 0).
Implicit Types (s : fst) (name : list Z).

Abbreviation dc := (contents st x).

Lemma dir_length d1 d2 : dc = d1 ++ d2 → lenZ d1 + lenZ d2 = i_size x ∧ i_size x ≤ MAXFILE * BSIZE.
Proof.
  intros E. pose proof (fl_size _ _ Hfl). pose proof (length_contents st x ltac:(lia)) as Hlen. rw E length_app in Hlen. lia.
Qed.

(** Reading the next entry. *)
Lemma dir_read s d1 a d2 :
  fat st sb ino c s → dc = d1 ++ a ++ d2 → lenZ a = 16 →
  ∃ s', readi dev_read dp (lenZ d1) sizeof_dirent s = Ret (16, a) s' ∧ fat st sb ino c s'.
Proof.
  intros Hf E Ha. pose proof (dir_length d1 (a ++ d2) E) as [H1 H2]. rw length_app in H1. rw MAXFILE_val /BSIZE in H2.
  destruct (readi_fat dev_read sb c st ino s dp x (lenZ d1) sizeof_dirent Hf Hx Hl Hi Hw Hfl) as (r & s' & Hr & Hf' & Er);
    [lia|done|rw /sizeof_dirent; lia|].
  exists s'. split; [|done]. rw Hr Er. rw (_ : Z.min sizeof_dirent (i_size x - lenZ d1) = 16); [rw /sizeof_dirent; lia|].
  do 2 f_equal. rw E /slice. rw drop_app_length'; [lia|]. rw take_app_length' //. lia.
Qed.

(** What [dirlookup] does with the entry it has found. *)
Definition dfound (r : option (Z * Z)) : M fst (option (nat * Z)) :=
  match r with
  | None => mret None
  | Some (i, off) => ip ← iget (i_dev x) i; mret (Some (ip, off))
  end.

Lemma dirlookup_loop_ok fuel n d1 d2 s name :
  fat st sb ino c s → dc = d1 ++ d2 → lenZ d2 = 16 * Z.of_nat n → (n < fuel)%nat →
  ∃ s', fat st sb ino c s' ∧ dirlookup_loop dev_read fuel dp name (lenZ d1) s = dfound (dscan (ents d2) (lenZ d1) name) s'.
Proof.
  revert fuel d1 d2 s. induction n as [|n IH]; intros fuel d1 d2 s Hf E Hn Hfu; (destruct fuel as [|fuel]; [lia|]);
    cbn [dirlookup_loop]; rw run_gets (fat_nin _ _ _ _ _ _ Hf) Hx; pose proof (dir_length d1 d2 E) as [H1 H2].
  - destruct (Z.ltb_spec (lenZ d1) (i_size x)); [lia|]. exists s. split; [done|]. by rw ents_nil; [lia|].
  - destruct (Z.ltb_spec (lenZ d1) (i_size x)); [|lia]. destruct (split16 n d2 Hn) as (a & b & -> & Ha & Hb).
    destruct (dir_read s d1 a b Hf E Ha) as (s1 & Hr & Hf1). erewrite run_bind; [|exact Hr]. cbn -[Z.mul]. rw ents_cons //. cbn [dscan].
    assert (u32 (lenZ d1 + sizeof_dirent) = lenZ (d1 ++ a)) as Eo.
    { rw length_app u32_small; rw MAXFILE_val /BSIZE in H2; rw /sizeof_dirent; lia. }
    assert (lenZ d1 + 16 = lenZ (d1 ++ a)) as Eo' by (rw length_app; lia).
    destruct (IH fuel (d1 ++ a) b s1 Hf1) as (s2 & Hf2 & Hr2); [by rw E app_assoc|done|lia|].
    rw /dmatch Eo Eo'. destruct (de_inum a =? 0); [by exists s2|]. cbn [negb andb].
    destruct (namecmp name (de_name a) =? 0); [|by exists s2]. exists s1. split; [done|]. done.
Qed.

Lemma dirlink_loop_ok fuel n d1 d2 s :
  fat st sb ino c s → dc = d1 ++ d2 → lenZ d2 = 16 * Z.of_nat n → (n < fuel)%nat →
  ∃ s', fat st sb ino c s' ∧ dirlink_loop dev_read fuel dp (lenZ d1) s = Ret (dfree (ents d2) (lenZ d1)) s'.
Proof.
  revert fuel d1 d2 s. induction n as [|n IH]; intros fuel d1 d2 s Hf E Hn Hfu; (destruct fuel as [|fuel]; [lia|]);
    cbn [dirlink_loop]; rw run_gets (fat_nin _ _ _ _ _ _ Hf) Hx; pose proof (dir_length d1 d2 E) as [H1 H2].
  - destruct (Z.ltb_spec (lenZ d1) (i_size x)); [lia|]. exists s. split; [done|]. by rw ents_nil; [lia|].
  - destruct (Z.ltb_spec (lenZ d1) (i_size x)); [|lia]. destruct (split16 n d2 Hn) as (a & b & -> & Ha & Hb).
    destruct (dir_read s d1 a b Hf E Ha) as (s1 & Hr & Hf1). erewrite run_bind; [|exact Hr]. cbn -[Z.mul]. rw ents_cons //. cbn [dfree].
    assert (lenZ d1 + 16 = lenZ (d1 ++ a)) as Eo' by (rw length_app; lia). rw /sizeof_dirent Eo'.
    destruct (IH fuel (d1 ++ a) b s1 Hf1) as (s2 & Hf2 & Hr2); [by rw E app_assoc|done|lia|].
    destruct (de_inum a =? 0); [by exists s1|by exists s2].
Qed.

Lemma dirlookup_fat s name :
  fat st sb ino c s → ∃ s', fat st sb ino c s' ∧ dirlookup dev_read dp name s = dfound (dscan (ents dc) 0 name) s'.
Proof.
  intros Hf. destruct (dir_blocks st x Hfl Hsz) as (n & Hn & Hfu). rw /dirlookup run_gets (fat_nin _ _ _ _ _ _ Hf) Hx Hdir.
  exact (dirlookup_loop_ok _ n [] dc s name Hf eq_refl Hn Hfu).
Qed.

(** Looking up a name in a directory finds the first used entry with that name,
    returns its offset and gets the inode it names, or returns null when there
    is none; the scan changes neither the disk nor the inodes. *)
Theorem dirlookup_correct s name :
  fat st sb ino c s → ∃ s', fat st sb ino c s' ∧ dirlookup dev_read dp name s = dfound (dscan (ents dc) 0 name) s'.
Proof. apply dirlookup_fat. Qed.

End dir.

Section link.
Context {S : Type} `{!Lens S core, !BlockStore S}.
Abbreviation fst := (fst_state S).
Context (dev_read : Z → option (nat → Z → Z → M fst (Z * list Z))).
Context (dev_write : Z → option (nat → Z → list Z → M fst Z)).
Context (sb : superblock) (c : core) (st : store) (ino : list inode) (dp : nat) (x : inode).
Context (Hx : ino !!! dp = x) (Hl : (dp < length ino)%nat) (Hi : fsinv sb st) (Hw : iwf sb st x) (Hfl : full st x).
Context (Hdir : i_type x = T_DIR) (Hsz : i_size x mod 16 = 0).
Implicit Types (s : fst) (name : list Z).

Abbreviation dc := (contents st x).

(** Storing the entry of a name that is not there. *)
Lemma dirlink_fat s name inum :
  let off := dfree (ents dc) 0 in
  fat st sb ino c s → inode_fits x → inum_ok sb (i_inum x) → bytes name → 0 < inum < 2 ^ 16 →
  dscan (ents dc) 0 name = None → off + 16 ≤ MAXFILE * BSIZE →
  fbudget sb st x (nb_touched off 16) → space sb st x off 16 →
  total (dirlink dev_read dev_write dp name inum) s (λ r s', r = 0 ∧ off mod 16 = 0 ∧ ∃ st' x',
    fat st' sb (<[dp := x']> ino) c s' ∧ written sb off (new_entry inum name) st x st' x' ∧
    dscan (ents (contents st' x')) 0 name = Some (inum, off) ∧
    ∀ name', bytes name' → ¬ same_name name' name → dscan (ents (contents st' x')) 0 name' = dscan (ents dc) 0 name').
Proof.
  intros off Hf Hfit Hok Hb Hin Hnone Hmax Hbud Hsp. destruct (dir_blocks st x Hfl Hsz) as (n & Hn & Hfu).
  pose proof (fl_size _ _ Hfl) as Hs. pose proof (length_contents st x ltac:(lia)) as Hlen.
  destruct (dirlookup_fat dev_read sb c st ino dp x Hx Hl Hi Hw Hfl Hdir Hsz s name Hf) as (s1 & Hf1 & Hr1). rw Hnone in Hr1.
  destruct (dirlink_loop_ok dev_read sb c st ino dp x Hx Hl Hi Hw Hfl _ n [] dc s1 Hf1 eq_refl Hn Hfu) as (s2 & Hf2 & Hr2).
  pose proof (length_entry inum name) as He. destruct (ents_overwrite n dc _ Hn He) as (l1 & l2 & Hd & Hoff & Hents & Hor). fold off in Hd, Hoff, Hents.
  rw /dirlink. eapply total_run; [exact Hr1|]. apply total_gets_bind. rw (fat_nin _ _ _ _ _ _ Hf1) Hx.
  eapply total_run; [exact Hr2|]. fold (new_entry inum name).
  destruct (writei_fat dev_write sb c st ino s2 dp x (new_entry inum name) off Hf2 Hx Hl Hi Hw Hfl Hfit Hok) as (r & s3 & Hr3 & -> & st' & x' & Hf3 & Hwn);
    [by apply bytes_entry|lia|by rw He|by rw He|by rw He|].
  rw He in Hr3. eapply total_run; [exact Hr3|]. apply total_ret. split; [done|]. split; [lia|]. exists st', x'. split_and!; [done|done| |].
  - rw (wn_contents _ _ _ _ _ _ _ Hwn) Hents. destruct (dscan_new _ l1 l2 (new_entry inum name) name Hor) as [_ Hyes].
    rw Hyes //; [rw entry_match // bool_decide_eq_true_2 //|]. rw entry_inum; [lia|]. by rw Hd.
  - intros name' Hb' Hne. rw (wn_contents _ _ _ _ _ _ _ Hwn) Hents. destruct (dscan_new _ l1 l2 (new_entry inum name) name' Hor) as [Hno _].
    apply Hno. rw entry_match // bool_decide_eq_false_2 //.
Qed.

(** C10: linking a name that is not in the directory stores its entry in the first
    free place, or at the end.  From then on [dirlookup] of the name gets the inode
    linked, at the offset of the entry, and [dirlookup] of every other name finds
    what was there before. *)
Theorem dirlink_correct s name inum :
  let off := dfree (ents dc) 0 in
  fat st sb ino c s → inode_fits x → inum_ok sb (i_inum x) → bytes name → 0 < inum < 2 ^ 16 →
  dscan (ents dc) 0 name = None → off + 16 ≤ MAXFILE * BSIZE →
  fbudget sb st x (nb_touched off 16) → space sb st x off 16 →
  total (dirlink dev_read dev_write dp name inum) s (λ r s', r = 0 ∧ ∃ st' x',
    fat st' sb (<[dp := x']> ino) c s' ∧ written sb off (new_entry inum name) st x st' x' ∧
    (∃ s1, fat st' sb (<[dp := x']> ino) c s1 ∧
      dirlookup dev_read dp name s' = (ip ← iget (i_dev x) inum; mret (Some (ip, off))) s1) ∧
    ∀ name', bytes name' → ¬ same_name name' name → ∃ s1, fat st' sb (<[dp := x']> ino) c s1 ∧
      dirlookup dev_read dp name' s' = dfound x (dscan (ents dc) 0 name') s1).
Proof.
  intros off Hf Hfit Hok Hb Hin Hnone Hmax Hbud Hsp.
  eapply total_mono; [by apply (dirlink_fat s name inum)|]. cbv beta. intros r s' (-> & Hm & st' & x' & Hf' & Hwn & Hnew & Hold).
  split; [done|]. exists st', x'. split; [done|]. split; [done|]. pose proof (wn_x _ _ _ _ _ _ _ Hwn) as Ex.
  assert (i_dev x' = i_dev x) as Ed by (by rw Ex). assert (i_type x' = T_DIR) as Et by (by rw Ex).
  assert (i_size x' mod 16 = 0) as Es.
  { assert (i_size x' = Z.max (i_size x) (off + 16)) as -> by (rw Ex; change (Z.max (i_size x) (off + lenZ (new_entry inum name)) = Z.max (i_size x) (off + 16)); by rw length_entry).
    change (off mod 16 = 0) in Hm. clear -Hm Hsz. clearbody off. destruct (Z.max_spec (i_size x) (off + 16)) as [[_ ->]|[_ ->]]; lia. }
  assert (∀ nm, ∃ s1, fat st' sb (<[dp := x']> ino) c s1 ∧
    dirlookup dev_read dp nm s' = dfound x' (dscan (ents (contents st' x')) 0 nm) s1) as Hlook.
  { intros nm. apply (dirlookup_fat dev_read sb c st' (<[dp := x']> ino) dp x');
      [by rw list_lookup_total_insert_eq|by rw length_insert|apply Hwn..|done|done|done]. }
  split.
  - destruct (Hlook name) as (s1 & Hf1 & Hr1). exists s1. split; [done|]. by rw Hr1 Hnew /dfound Ed.
  - intros name' Hb' Hne. destruct (Hlook name') as (s1 & Hf1 & Hr1). exists s1. split; [done|].
    by rw Hr1 (Hold name' Hb' Hne) /dfound Ed.
Qed.
End link.

(** ** Paths *)

(** The elements of a path: what is between its slashes, when it is not empty. *)
Fixpoint split47 (p : list Z) : list (list Z) :=
  match p with
  | [] => [[]]
  | c :: p =>
    if c =? 47 then [] :: split47 p
    else match split47 p with w :: ws => (c :: w) :: ws | [] => [[c]] end
  end.

Definition elements (p : list Z) : list (list Z) := filter (λ w, w ≠ []) (split47 p).

Lemma split47_slash p : elements (47 :: p) = elements p.
Proof. reflexivity. Qed.

Lemma skip_slashes_ok p : elements (skip_slashes p) = elements p ∧ head (skip_slashes p) ≠ Some 47 ∧ (length (skip_slashes p) ≤ length p)%nat.
Proof.
  induction p as [|c p (IH1 & IH2 & IH3)]; [done|]. cbn [skip_slashes]. destruct (Z.eqb_spec c 47) as [->|Hc].
  - rw split47_slash. cbn [length]. split_and!; [done|done|lia].
  - split_and!; [done|by intros [= ?]|lia].
Qed.

Lemma skip_slashes_elem p b : b ∈ skip_slashes p → b ∈ p.
Proof. induction p as [|c p IH]; [done|]. cbn [skip_slashes]. destruct (c =? 47); [|done]. intros ?. right. auto. Qed.

Lemma elem_split_ok p :
  let (w, r) := elem_split p in
  p = w ++ r ∧ 47 ∉ w ∧ (r = [] ∨ head r = Some 47) ∧ (p = [] ∨ head p = Some 47 ∨ w ≠ []) ∧ ∃ ws, split47 p = w :: ws ∧ filter (λ w, w ≠ []) ws = elements r.
Proof.
  induction p as [|c p IH]; [split_and!; [done|apply not_elem_of_nil|by left|by left|by exists []]|].
  cbn [elem_split split47]. destruct (Z.eqb_spec c 47) as [->|Hc].
  - split_and!; [done|apply not_elem_of_nil|by right|by right; left|]. exists (split47 p). split; [done|]. by rw split47_slash.
  - destruct (elem_split p) as [w r]. destruct IH as (-> & H1 & H2 & _ & ws & H3 & H4). cbn [Datatypes.fst snd].
    split_and!; [done|by apply not_elem_of_cons|done|by right; right|]. exists ws. by rw H3.
Qed.

Lemma elements_cons p : p ≠ [] → head p ≠ Some 47 →
  let (w, r) := elem_split p in elements p = w :: elements r ∧ (length r < length p)%nat ∧ (∀ b, b ∈ w → b ∈ p ∧ b ≠ 47).
Proof.
  intros Hp Hh. pose proof (elem_split_ok p) as H. destruct (elem_split p) as [w r]. destruct H as (E & H1 & _ & [?|[?|H2]] & ws & H3 & H4); [done..|].
  split_and!.
  - rw /elements H3 filter_cons decide_True // H4 //.
  - rw E length_app. destruct w; [done|]. cbn [length]. lia.
  - intros b Hb. split; [rw E elem_of_app; by left|]. by intros ->.
Qed.

Lemma elements_nil r : skip_slashes r = [] ↔ elements r = [].
Proof.
  destruct (skip_slashes_ok r) as (H1 & H2 & _). rw -H1. destruct (decide (skip_slashes r = [])) as [->|Hp]; [done|]. split; [done|].
  pose proof (elements_cons _ Hp H2) as H. destruct (elem_split (skip_slashes r)) as [w r']. by destruct H as [-> _].
Qed.

(** The name at the start of a buffer. *)
Lemma cname_prefix n w r : 0 ∉ w → (n ≤ length w)%nat ∨ head r = Some 0 → cname n (nthZ (w ++ r)) 0 = take n w.
Proof.
  revert w. induction n as [|n IH]; intros w Hz Hn; [done|]. destruct w as [|b w].
  - destruct Hn as [Hn|Hn]; [simpl in Hn; lia|]. destruct r as [|b r]; [done|]. by injection Hn as ->.
  - cbn [cname take app]. change (nthZ (b :: w ++ r) 0) with b. apply not_elem_of_cons in Hz as [Hb Hz].
    destruct (Z.eqb_spec b 0); [congruence|]. f_equal. rw (cname_shift n b (w ++ r) 0) //. apply IH; [done|]. simpl in Hn. destruct Hn; [left; lia|by right].
Qed.

(** Taking an element from a path: nothing when there is none, else the first,
    cut to the length of a name in the caller's buffer; what is left holds the
    other elements, does not start with a slash, and is shorter. *)
Theorem skipelem_correct path name :
  lenZ name = DIRSIZ → 0 ∉ path →
  match elements path with
  | [] => skipelem path name = None
  | w :: ws => ∃ path' name', skipelem path name = Some (path', name') ∧ elements path' = ws ∧
      (path' = [] ↔ ws = []) ∧ (length path' < length path)%nat ∧ lenZ name' = DIRSIZ ∧ cname 14 (nthZ name') 0 = take 14 w
  end.
Proof.
  intros Hl Hz. destruct (skip_slashes_ok path) as (H1 & H2 & H3). rw /skipelem -H1.
  set (p := skip_slashes path) in *. destruct (decide (p = [])) as [->|Hp]; [done|].
  assert (0 ∉ p) as Hzp by (intros Hin; apply Hz; by eapply skip_slashes_elem).
  pose proof (elements_cons p Hp H2) as He. destruct (elem_split p) as [w r]. destruct He as (-> & Hlt & Hin).
  destruct (skip_slashes_ok r) as (K1 & K2 & K3). destruct p as [|c p]; [done|].
  assert (0 ∉ w) as Hzw by (intros Hw; apply Hzp; by apply Hin).
  eexists _, _. split; [reflexivity|]. split; [done|]. split; [by apply elements_nil|]. split; [lia|].
  rw Z.geb_leb /splice. change (Z.to_nat 0) with 0%nat. destruct (Z.leb_spec DIRSIZ (lenZ w)) as [Hge|Hlt'].
  - assert (slice 0 DIRSIZ w = take 14 w) as -> by done. rw /DIRSIZ in Hl, Hge |- *. rw !Nat.add_0_l take_0 app_nil_l.
    assert (length (take 14 w) = 14%nat) as Ht by (rw length_take; lia). rw Ht (drop_ge name 14); [lia|]. rw app_nil_r. split; [lia|].
    rw -(app_nil_r (take 14 w)) cname_prefix; [intros Hw; apply Hzw; rw -(take_drop 14 w) elem_of_app; by left|by left; rw Ht|]. rw take_take app_nil_r //.
  - rw /DIRSIZ in Hl, Hlt' |- *. rw !Nat.add_0_l take_0 app_nil_l. split; [rw !length_app length_drop /=; lia|].
    rw -app_assoc cname_prefix //. by right.
Qed.
