(* ===== verification/Log.v ===== *)
(** * The log (log.c)

    [lst] adds the in-memory [struct log] to the cache.  The functions are
    those of log.c (and [readsb] of fs.c, which [initlog] calls).  The theorems
    at the end are about crashes: the disk a power failure leaves is a prefix
    of the writes the driver received, and recovery turns every such disk into
    the one before or the one after the transaction. *)

From S2P Require Import Prelude Layout Kernel Bio.

Definition MAXOPBLOCKS : Z := 10.
Definition LOGSIZE : Z := 30.

Record log := mkLog {
  l_start : Z;
  l_size : Z;
  l_outstanding : Z;
  l_committing : Z;
  l_dev : Z;
  lh_n : Z;
  lh_block : list Z;
}.

Definition log0 : log := mkLog 0 0 0 0 0 0 (replicate 30 0).

Record lst := mkLst { ls_bst : bst; ls_log : log }.

#[global] Instance lst_bst : Lens lst bst.
Proof.
  refine {| lget := ls_bst; lset := λ b s, mkLst b (ls_log s) |}; intros; by try destruct o.
Defined.

#[global] Instance lst_core : Lens lst core.
Proof.
  refine {| lget := λ s, bs_core (ls_bst s);
            lset := λ c s, mkLst (lset c (ls_bst s)) (ls_log s) |}; intros; by try destruct o as [[] ?].
Defined.

Definition set_log (f : log → log) (s : lst) : lst := mkLst (ls_bst s) (f (ls_log s)).

Definition with_geom (start size dev : Z) (l : log) : log :=
  mkLog start size (l_outstanding l) (l_committing l) dev (lh_n l) (lh_block l).
Definition with_outstanding (v : Z) (l : log) : log :=
  mkLog (l_start l) (l_size l) v (l_committing l) (l_dev l) (lh_n l) (lh_block l).
Definition with_committing (v : Z) (l : log) : log :=
  mkLog (l_start l) (l_size l) (l_outstanding l) v (l_dev l) (lh_n l) (lh_block l).
Definition with_n (v : Z) (l : log) : log :=
  mkLog (l_start l) (l_size l) (l_outstanding l) (l_committing l) (l_dev l) v (lh_block l).
Definition with_block (v : list Z) (l : log) : log :=
  mkLog (l_start l) (l_size l) (l_outstanding l) (l_committing l) (l_dev l) (lh_n l) v.

(** ** Reading the super block ([readsb] in fs.c) *)

Definition readsb (dev : Z) : M lst superblock :=
  bp ← lift (bread (u32 dev) 1);
  d ← gets (λ s, bdata bp (ls_bst s));
  lift (brelse bp);;
  mret (sb_decode d).

(** ** The log *)

(** [memmove(dst->data, src->data, BSIZE)] *)
Definition copy_buf (dst src : nat) : M lst unit :=
  d ← gets (λ s, bdata src (ls_bst s));
  old ← gets (λ s, bdata dst (ls_bst s));
  lift (set_bdata dst (splice 0 (slice 0 BSIZE d) old)).

Definition log_dev (s : lst) : Z := u32 (l_dev (ls_log s)).
(** The block of the log that holds the [tail]-th logged block. *)
Definition log_block (tail : Z) (s : lst) : Z := u32 (l_start (ls_log s) + tail + 1).
Definition home_block (tail : Z) (s : lst) : Z := u32 (nthZ (lh_block (ls_log s)) tail).

Definition install_body (tail : Z) : M lst unit :=
  dev ← gets log_dev;
  lb ← gets (log_block tail);
  lbuf ← lift (bread dev lb);
  hb ← gets (home_block tail);
  dbuf ← lift (bread dev hb);
  copy_buf dbuf lbuf;;
  lift (bwrite dbuf);;
  lift (brelse lbuf);;
  lift (brelse dbuf).

Definition install_trans : M lst unit :=
  n ← gets (λ s, lh_n (ls_log s));
  for_up (Z.to_nat n) 0 install_body.

(** The header read from, and written over, the bytes of a block. *)
Definition head_n (d : list Z) : Z := i32 (load32 0 d).
Definition head_block (d : list Z) (i : Z) : Z := i32 (load32 (4 + 4 * i) d).

Fixpoint put_blocks (n : nat) (i : Z) (blocks : list Z) (d : list Z) : list Z :=
  match n with
  | O => d
  | S n => put_blocks n (i + 1) blocks (store32 (4 + 4 * i) (nthZ blocks i) d)
  end.
Definition put_head (n : Z) (blocks d : list Z) : list Z :=
  put_blocks (Z.to_nat n) 0 blocks (store32 0 n d).

(** A count above [LOGSIZE] makes the loop write past [log.lh.block]. *)
Definition read_head : M lst unit :=
  dev ← gets log_dev;
  start ← gets (λ s, u32 (l_start (ls_log s)));
  buf ← lift (bread dev start);
  d ← gets (λ s, bdata buf (ls_bst s));
  modify (set_log (with_n (head_n d)));;
  if head_n d >? LOGSIZE then fault else
  for_up (Z.to_nat (head_n d)) 0 (λ i,
    modify (set_log (λ l, with_block (setZ i (head_block d i) (lh_block l)) l)));;
  lift (brelse buf).

Definition write_head : M lst unit :=
  dev ← gets log_dev;
  start ← gets (λ s, u32 (l_start (ls_log s)));
  buf ← lift (bread dev start);
  d ← gets (λ s, bdata buf (ls_bst s));
  l ← gets ls_log;
  lift (set_bdata buf (put_head (lh_n l) (lh_block l) d));;
  lift (bwrite buf);;
  lift (brelse buf).

Definition recover_from_log : M lst unit :=
  read_head;;
  install_trans;;
  modify (set_log (with_n 0));;
  write_head.

(** [sizeof(struct logheader)] *)
Definition sizeof_logheader : Z := 4 + 4 * LOGSIZE.

Definition initlog (dev : Z) : M lst unit :=
  if sizeof_logheader >=? BSIZE then panic "initlog: too big logheader" else
  sb ← readsb dev;
  modify (set_log (with_geom (i32 (sb_logstart sb)) (i32 (sb_nlog sb)) dev));;
  recover_from_log.

(** The loop of [begin_op], entered with [log.lock] held. *)
Definition begin_op_loop : M lst unit :=
  l ← gets ls_log;
  if negb (l_committing l =? 0) then lift (sleep ChLog LLog)
  else if lh_n l + (l_outstanding l + 1) * MAXOPBLOCKS >? LOGSIZE then lift (sleep ChLog LLog)
  else modify (set_log (λ l, with_outstanding (l_outstanding l + 1) l));; lift (release LLog).

Definition begin_op : M lst unit := lift (acquire LLog);; begin_op_loop.

(** What a process woken in [begin_op] executes. *)
Definition begin_op_resume : M lst unit := lift (sleep_resume LLog);; begin_op_loop.

Definition write_log_body (tail : Z) : M lst unit :=
  dev ← gets log_dev;
  lb ← gets (log_block tail);
  to ← lift (bread dev lb);
  hb ← gets (home_block tail);
  from ← lift (bread dev hb);
  copy_buf to from;;
  lift (bwrite to);;
  lift (brelse from);;
  lift (brelse to).

Definition write_log : M lst unit :=
  n ← gets (λ s, lh_n (ls_log s));
  for_up (Z.to_nat n) 0 write_log_body.

Definition commit : M lst unit :=
  n ← gets (λ s, lh_n (ls_log s));
  when (n >? 0)
    (write_log;;
     write_head;;
     install_trans;;
     modify (set_log (with_n 0));;
     write_head).

Definition end_op : M lst unit :=
  lift (acquire LLog);;
  modify (set_log (λ l, with_outstanding (l_outstanding l - 1) l));;
  l ← gets ls_log;
  if negb (l_committing l =? 0) then panic "log.committing" else
  (if l_outstanding l =? 0 then
     modify (set_log (with_committing 1));;
     lift (release LLog);;
     commit;;
     lift (acquire LLog);;
     modify (set_log (with_committing 0));;
     lift (wakeup ChLog);;
     lift (release LLog)
   else
     lift (wakeup ChLog);;
     lift (release LLog)).

(** The scan of [log_write]: the first slot holding [b], or [n]. *)
Fixpoint find_block (n : nat) (i : Z) (blocks : list Z) (b : Z) : Z :=
  match n with
  | O => i
  | S n => if u32 (nthZ blocks i) =? b then i else find_block n (i + 1) blocks b
  end.

Definition log_write (b : nat) : M lst unit :=
  l ← gets ls_log;
  if (lh_n l >=? LOGSIZE) || (lh_n l >=? l_size l - 1) then panic "too big a transaction" else
  if l_outstanding l <? 1 then panic "log_write outside of trans" else
  lift (acquire LLog);;
  bn ← gets (λ s, b_blockno (nb b (ls_bst s)));
  let i := find_block (Z.to_nat (lh_n l)) 0 (lh_block l) bn in
  modify (set_log (λ l, with_block (setZ i (i32 bn) (lh_block l)) l));;
  when (i =? lh_n l) (modify (set_log (λ l, with_n (lh_n l + 1) l)));;
  lift (pin b);;
  lift (release LLog).

(** ** Sequences of disk writes *)

Definition apply_writes (ws : list (Z * list Z)) (m : gmap Z (list Z)) : gmap Z (list Z) :=
  foldl (λ m w, <[w.1 := w.2]> m) m ws.

Definition dwrites (ws : list (Z * list Z)) (d : disk) : disk :=
  mkDisk (disksize d) (apply_writes ws (memdisk d)) (d_writes d ++ ws).

Section writes.
Implicit Types (ws : list (Z * list Z)) (m : gmap Z (list Z)).

Lemma apply_writes_app ws1 ws2 m :
  apply_writes (ws1 ++ ws2) m = apply_writes ws2 (apply_writes ws1 m).
Proof. apply foldl_app. Qed.

Lemma dwrites_app ws1 ws2 d : dwrites (ws1 ++ ws2) d = dwrites ws2 (dwrites ws1 d).
Proof. by rw /dwrites /= apply_writes_app app_assoc. Qed.

Lemma apply_writes_ne ws m b : b ∉ ws.*1 → apply_writes ws m !!! b = m !!! b.
Proof.
  revert m. induction ws as [|w ws IH]; intros m; [done|].
  simpl. intros [? ?]%not_elem_of_cons. rw IH // lookup_total_insert_ne //.
Qed.

(** The last write to a block wins. *)
Lemma apply_writes_snoc ws m b x : apply_writes (ws ++ [(b, x)]) m !!! b = x.
Proof. by rw apply_writes_app /= lookup_total_insert_eq. Qed.

(** All writes to a block agree: it has the value they carry. *)
Lemma apply_writes_eq ws m b x :
  b ∈ ws.*1 → (∀ y, (b, y) ∈ ws → y = x) → apply_writes ws m !!! b = x.
Proof.
  induction ws as [|[c y] ws IH] using rev_ind; [by intros ?%not_elem_of_nil|]. intros Hin Hx.
  destruct (decide (b = c)) as [->|Hne].
  - rw apply_writes_snoc. apply Hx. apply elem_of_app. right. by left.
  - rw apply_writes_app /= lookup_total_insert_ne //. apply IH.
    + rw fmap_app elem_of_app in Hin. destruct Hin as [?|Hin]; [done|]. simpl in Hin. set_solver.
    + intros z Hz. apply Hx. apply elem_of_app. by left.
Qed.
End writes.

(** Writing through the cache. *)
Definition a_writes (ws : list (Z * list Z)) (a : cache) : cache :=
  mkCache (apply_writes ws (ca_view a)) (dwrites ws (ca_disk a)) (ca_held a)
    (ca_dirty a ∖ list_to_set ws.*1).

Lemma a_writes_nil a : a_writes [] a = a.
Proof.
  destruct a as [v [] h d]. rw /a_writes /dwrites /= app_nil_r. f_equal. apply leibniz_equiv. set_solver.
Qed.

Lemma a_writes_app ws1 ws2 a : a_writes (ws1 ++ ws2) a = a_writes ws2 (a_writes ws1 a).
Proof.
  rw /a_writes /= apply_writes_app dwrites_app. f_equal. apply leibniz_equiv.
  rw fmap_app list_to_set_app. set_solver.
Qed.

(** ** The cache's laws, at the level of the log *)

(** The log is [l], the cache shows [a], and the shared state is [c] but for wakeups. *)
Record lat (l : log) (c : core) (a : cache) (s : lst) : Prop := {
  lat_log : ls_log s = l;
  lat_repr : brepr (ls_bst s) a;
  lat_core : core_le c (bs_core (ls_bst s));
}.

Section lat_rules.
Context (l : log) (c : core) (a : cache) (s : lst) (Hs : lat l c a s).

Lemma lat_bread b :
  0 ≤ b < disksize (ca_disk a) → (∀ i, ca_held a !! i ≠ Some b) → b ∈ ca_dirty a ∨ ca_room a →
  total (lift (bread 1 b)) s (λ i s', ca_held a !! i = None ∧ lat l c (a_hold i b a) s').
Proof.
  intros Hb Hh Hr. apply total_lift. destruct Hs as [Hl Hrep Hc].
  eapply total_mono; [by apply (bread_ok (ls_bst s) a)|].
  simpl. intros i s' (Hi & Hr' & Hc'). split; [done|]. split; simpl; [done|done|by rw Hc'].
Qed.

Lemma lat_set_bdata i b d :
  ca_held a !! i = Some b → blk d → total (lift (set_bdata i d)) s (λ _, lat l c (a_put b d a)).
Proof.
  intros Hb Hd. apply total_lift. destruct Hs as [Hl Hrep Hc].
  eapply total_mono; [by apply (set_bdata_ok (ls_bst s) a i b)|].
  simpl. intros _ s' (Hr' & Hc'). split; simpl; [done|done|by rw Hc'].
Qed.

Lemma lat_pin i b :
  ca_held a !! i = Some b → total (lift (pin i)) s (λ _, lat l c (a_pin b a)).
Proof.
  intros Hb. apply total_lift. destruct Hs as [Hl Hrep Hc].
  eapply total_mono; [by apply (pin_ok (ls_bst s) a i b)|].
  simpl. intros _ s' (Hr' & Hc'). split; simpl; [done|done|by rw Hc'].
Qed.

Lemma lat_bwrite i b :
  ca_held a !! i = Some b → total (lift (bwrite i)) s (λ _, lat l c (a_flush b a)).
Proof.
  intros Hb. apply total_lift. destruct Hs as [Hl Hrep Hc].
  eapply total_mono; [by apply (bwrite_ok (ls_bst s) a i b)|].
  simpl. intros _ s' (Hr' & Hc'). split; simpl; [done|done|by rw Hc'].
Qed.

Lemma lat_brelse i b :
  ca_held a !! i = Some b → b ∈ ca_dirty a ∨ ca_view a !!! b = memdisk (ca_disk a) !!! b →
  total (lift (brelse i)) s (λ _, lat l c (a_unhold i a)).
Proof.
  intros Hb Hcl. apply total_lift. destruct Hs as [Hl Hrep Hc].
  eapply total_mono; [by apply (brelse_ok (ls_bst s) a i b)|].
  simpl. intros _ s' (Hr' & Hc'). split; simpl; [done|done|by etrans].
Qed.

Lemma lat_data i b :
  ca_held a !! i = Some b → bdata i (ls_bst s) = ca_view a !!! b.
Proof. intros Hb. by apply (bdata_ok (ls_bst s) a i b); [apply Hs|]. Qed.

Lemma lat_blk b : 0 ≤ b < disksize (ca_disk a) → blk (ca_view a !!! b).
Proof. by apply (view_blk (ls_bst s)), Hs. Qed.

(** Blocks nobody has locked are pinned or agree with the disk. *)
Lemma lat_sync b :
  0 ≤ b < disksize (ca_disk a) → (∀ i, ca_held a !! i ≠ Some b) →
  b ∈ ca_dirty a ∨ ca_view a !!! b = memdisk (ca_disk a) !!! b.
Proof. destruct Hs as [_ Hr _]. by apply (repr_sync (ls_bst s)). Qed.
End lat_rules.

Lemma splice_all (d old : list Z) : blk d → blk old → splice 0 (slice 0 BSIZE d) old = d.
Proof.
  intros [Hd _] [Ho _]. rw slice_all; [rw Hd; done|]. rw /splice take_0 drop_ge; [lia|]. by rw app_nil_r.
Qed.

(** The bodies of [install_trans] and [write_log] end the same way: [dst]
    receives the contents of [src] and is written to the disk. *)
Lemma copy_lat l c a s i j src dst :
  lat l c a s → ca_held a !! i = Some src → ca_held a !! j = Some dst → src ≠ dst →
  src ∈ ca_dirty a ∨ ca_view a !!! src = memdisk (ca_disk a) !!! src →
  total (copy_buf j i;; lift (bwrite j);; lift (brelse i);; lift (brelse j)) s
    (λ _, lat l c (a_unhold j (a_unhold i (a_writes [(dst, ca_view a !!! src)] a)))).
Proof.
  intros Hs Hi Hj Hne Hcl. assert (i ≠ j) as Hij by congruence.
  pose proof (bdata_ok _ _ _ _ (lat_repr _ _ _ _ Hs) Hi) as (_ & Hsr & _).
  pose proof (bdata_ok _ _ _ _ (lat_repr _ _ _ _ Hs) Hj) as (_ & Hdr & _).
  eapply total_bind.
  { rw /copy_buf. do 2 apply total_gets_bind. rw (lat_data _ _ _ _ Hs i src) // (lat_data _ _ _ _ Hs j dst) //.
    rw splice_all; [by apply (lat_blk _ _ _ _ Hs)..|].
    apply (lat_set_bdata _ _ _ _ Hs j dst); [done|by apply (lat_blk _ _ _ _ Hs)]. }
  cbv beta. intros _ s1 H1. eapply total_bind; [by apply (lat_bwrite _ _ _ _ H1 j dst)|].
  assert (a_flush dst (a_put dst (ca_view a !!! src) a) = a_writes [(dst, ca_view a !!! src)] a) as ->.
  { rw /a_flush /a_writes /a_put /dwrite /dwrites /= lookup_total_insert_eq. f_equal. apply leibniz_equiv. set_solver. }
  cbv beta. intros _ s2 H2. eapply total_bind; [apply (lat_brelse _ _ _ _ H2 i src); [done|]|].
  { simpl. rw !lookup_total_insert_ne //. set_solver. }
  cbv beta. intros _ s3 H3. apply (lat_brelse _ _ _ _ H3 j dst); simpl; [by rw lookup_delete_ne|].
  right. by rw !lookup_total_insert_eq.
Qed.

Lemma unhold2 i j b1 b2 ws a :
  ca_held a !! i = None → ca_held a !! j = None → i ≠ j →
  a_unhold j (a_unhold i (a_writes ws (a_hold j b2 (a_hold i b1 a)))) = a_writes ws a ∧
  a_unhold i (a_unhold j (a_writes ws (a_hold j b2 (a_hold i b1 a)))) = a_writes ws a.
Proof.
  intros Hi Hj Hij. rw /a_unhold /a_writes /a_hold /=. split; f_equal.
  - rw delete_insert_ne // (delete_insert_id _ i) //. by rw delete_insert_id.
  - rw delete_insert_id; [by rw lookup_insert_ne|]. by rw delete_insert_id.
Qed.

(** The geometry of the log: its header, its blocks and the blocks it logs. *)
Record geom (l : log) (sz : Z) : Prop := {
  g_dev : l_dev l = 1;
  g_start : 2 ≤ l_start l;
  g_size : 1 ≤ l_size l;
  g_end : l_start l + l_size l ≤ sz;
  g_sz : sz < 2 ^ 31;
}.

(** The logged blocks are blocks outside the log. *)
Definition home (l : log) (sz b : Z) : Prop := l_start l + l_size l ≤ b < sz.

Record head_ok (l : log) (sz : Z) : Prop := {
  hk_n : 0 ≤ lh_n l ≤ LOGSIZE;
  hk_sz : lh_n l ≤ l_size l - 1;
  hk_len : length (lh_block l) = Z.to_nat LOGSIZE;
  hk_home i : 0 ≤ i < lh_n l → home l sz (nthZ (lh_block l) i);
}.

Lemma log_blocks l c a s i :
  geom l (disksize (ca_disk a)) → head_ok l (disksize (ca_disk a)) → lat l c a s → 0 ≤ i < lh_n l →
  log_dev s = 1 ∧ log_block i s = l_start l + i + 1 ∧ home_block i s = nthZ (lh_block l) i.
Proof.
  intros Hg Hk Hs Hi. destruct Hg, Hk. pose proof (hk_home0 _ Hi) as [? ?].
  rw /log_dev /log_block /home_block (lat_log _ _ _ _ Hs).
  split_and!; [by rw g_dev0|apply u32_small; lia|apply u32_small; lia].
Qed.

(** The writes of [write_log] and of [install_trans], [v] being the cache. *)
Definition log_writes (l : log) (v : gmap Z (list Z)) (n : Z) : list (Z * list Z) :=
  (λ i, (l_start l + i + 1, v !!! nthZ (lh_block l) i)) <$> seqZ 0 n.
Definition home_writes (l : log) (v : gmap Z (list Z)) (n : Z) : list (Z * list Z) :=
  (λ i, (nthZ (lh_block l) i, v !!! (l_start l + i + 1))) <$> seqZ 0 n.

(** No block is logged twice. *)
Definition log_inj (l : log) : Prop := ∀ i j, 0 ≤ i < lh_n l → 0 ≤ j < lh_n l →
  nthZ (lh_block l) i = nthZ (lh_block l) j → i = j.

Lemma seqZ_snoc n : 0 ≤ n → seqZ 0 (n + 1) = seqZ 0 n ++ [n].
Proof.
  intros. rw (_ : n + 1 = Z.of_nat (S (Z.to_nat n))); [lia|].
  rw seqZ_S. f_equal; [f_equal; lia|f_equal; lia].
Qed.

Lemma log_writes_snoc l v n : 0 ≤ n →
  log_writes l v (n + 1) = log_writes l v n ++ [(l_start l + n + 1, v !!! nthZ (lh_block l) n)].
Proof. intros. by rw /log_writes seqZ_snoc // fmap_app. Qed.

Lemma home_writes_snoc l v n : 0 ≤ n →
  home_writes l v (n + 1) = home_writes l v n ++ [(nthZ (lh_block l) n, v !!! (l_start l + n + 1))].
Proof. intros. by rw /home_writes seqZ_snoc // fmap_app. Qed.

Lemma room_empty a : ca_held a = ∅ → (size (ca_dirty a) < NBUF)%nat → ca_room a.
Proof. intros Hh Hd. rw /ca_room Hh map_size_empty. lia. Qed.

Lemma room_hold a i b :
  ca_held a = ∅ → (S (size (ca_dirty a)) < NBUF)%nat → ca_room (a_hold i b a).
Proof. intros Hh Hd. rw /ca_room /= Hh map_size_insert_None // map_size_empty. lia. Qed.

Lemma held_one a i b b' : ca_held a = ∅ → b ≠ b' → ∀ j, ca_held (a_hold i b a) !! j ≠ Some b'.
Proof. intros Hh Hne j. rw /= Hh. rw lookup_insert. case_decide; [congruence|by rw lookup_empty]. Qed.

Section bodies.
Context (l : log) (c : core).

Lemma write_log_body_lat a s i :
  lat l c a s → geom l (disksize (ca_disk a)) → head_ok l (disksize (ca_disk a)) → ca_held a = ∅ →
  0 ≤ i < lh_n l → nthZ (lh_block l) i ∈ ca_dirty a → (size (ca_dirty a) < NBUF)%nat →
  total (write_log_body i) s
    (λ _, lat l c (a_writes [(l_start l + i + 1, ca_view a !!! nthZ (lh_block l) i)] a)).
Proof.
  intros Hs Hg Hk Hh Hi Hd Hroom. destruct (log_blocks _ _ _ _ _ Hg Hk Hs Hi) as (E1 & E2 & E3).
  pose proof (hk_home _ _ Hk i Hi) as [Hb1 Hb2]. destruct Hg, Hk.
  rw /write_log_body. do 2 apply total_gets_bind. rw E1 E2.
  eapply total_bind; [apply (lat_bread _ _ _ _ Hs); [lia|rw Hh; done|right; by apply room_empty]|].
  cbv beta. intros t s1 [Ht H1]. apply total_gets_bind.
  rw (_ : home_block i s1 = home_block i s); [by rw /home_block (lat_log _ _ _ _ H1) (lat_log _ _ _ _ Hs)|]. rw E3.
  eapply total_bind; [apply (lat_bread _ _ _ _ H1); [simpl; lia|apply held_one; [done|lia]|by left]|].
  cbv beta. intros f s2 [Hf H2]. assert (ca_held a !! f = None ∧ f ≠ t) as [Hf' Hft].
  { rw /= lookup_insert_None in Hf. naive_solver. }
  pose proof (copy_lat _ _ _ _ f t (nthZ (lh_block l) i) (l_start l + i + 1) H2) as Hc.
  eapply total_mono; [apply Hc|].
  - by rw /= lookup_insert_eq.
  - by rw /= lookup_insert_ne // lookup_insert_eq.
  - lia.
  - by left.
  - cbv beta. intros _ s3. by rw (proj2 (unhold2 _ _ _ _ _ _ Ht Hf' (not_eq_sym Hft))).
Qed.

Lemma install_body_lat a s i :
  lat l c a s → geom l (disksize (ca_disk a)) → head_ok l (disksize (ca_disk a)) → ca_held a = ∅ →
  0 ≤ i < lh_n l → (size (ca_dirty a) < NBUF)%nat →
  nthZ (lh_block l) i ∈ ca_dirty a ∨ (S (size (ca_dirty a)) < NBUF)%nat →
  total (install_body i) s
    (λ _, lat l c (a_writes [(nthZ (lh_block l) i, ca_view a !!! (l_start l + i + 1))] a)).
Proof.
  intros Hs Hg Hk Hh Hi Hroom Hd. destruct (log_blocks _ _ _ _ _ Hg Hk Hs Hi) as (E1 & E2 & E3).
  pose proof (hk_home _ _ Hk i Hi) as [Hb1 Hb2]. destruct Hg, Hk.
  rw /install_body. do 2 apply total_gets_bind. rw E1 E2.
  eapply total_bind; [apply (lat_bread _ _ _ _ Hs); [lia|rw Hh; done|right; by apply room_empty]|].
  cbv beta. intros t s1 [Ht H1]. apply total_gets_bind.
  rw (_ : home_block i s1 = home_block i s); [by rw /home_block (lat_log _ _ _ _ H1) (lat_log _ _ _ _ Hs)|]. rw E3.
  eapply total_bind; [apply (lat_bread _ _ _ _ H1); [simpl; lia|apply held_one; [done|lia]|]|].
  { destruct Hd; [by left|right; by apply room_hold]. }
  cbv beta. intros f s2 [Hf H2]. assert (ca_held a !! f = None ∧ f ≠ t) as [Hf' Hft].
  { rw /= lookup_insert_None in Hf. naive_solver. }
  pose proof (copy_lat _ _ _ _ t f (l_start l + i + 1) (nthZ (lh_block l) i) H2) as Hc.
  eapply total_mono; [apply Hc|].
  - by rw /= lookup_insert_ne // lookup_insert_eq.
  - by rw /= lookup_insert_eq.
  - lia.
  - apply (lat_sync _ _ _ _ Hs); [lia|by rw Hh].
  - cbv beta. intros _ s3. by rw (proj1 (unhold2 _ _ _ _ _ _ Ht Hf' (not_eq_sym Hft))).
Qed.

Lemma disksize_a_writes ws a : disksize (ca_disk (a_writes ws a)) = disksize (ca_disk a).
Proof. done. Qed.

Lemma size_dirty_writes ws a : (size (ca_dirty (a_writes ws a)) ≤ size (ca_dirty a))%nat.
Proof. apply subseteq_size. simpl. set_solver. Qed.

Lemma elem_log_writes v n b : b ∈ (log_writes l v n).*1 ↔ ∃ i, 0 ≤ i < n ∧ b = l_start l + i + 1.
Proof.
  rw /log_writes -list_fmap_compose list_elem_of_fmap. simpl.
  split; [intros (i & -> & Hi%elem_of_seqZ)|intros (i & Hi & ->)]; exists i; [|split; [done|]; apply elem_of_seqZ]; lia.
Qed.

Lemma elem_home_writes v n b : b ∈ (home_writes l v n).*1 ↔ ∃ i, 0 ≤ i < n ∧ b = nthZ (lh_block l) i.
Proof.
  rw /home_writes -list_fmap_compose list_elem_of_fmap. simpl.
  split; [intros (i & -> & Hi%elem_of_seqZ)|intros (i & Hi & ->)]; exists i; [split; [lia|done]|split; [done|]; apply elem_of_seqZ; lia].
Qed.

Lemma write_log_lat a s :
  lat l c a s → geom l (disksize (ca_disk a)) → head_ok l (disksize (ca_disk a)) → ca_held a = ∅ →
  (∀ i, 0 ≤ i < lh_n l → nthZ (lh_block l) i ∈ ca_dirty a) → (size (ca_dirty a) < NBUF)%nat →
  total write_log s (λ _, lat l c (a_writes (log_writes l (ca_view a) (lh_n l)) a)).
Proof.
  intros Hs Hg Hk Hh Hd Hroom. rw /write_log. apply total_gets_bind. rw (lat_log _ _ _ _ Hs).
  pose proof (hk_n _ _ Hk) as Hn. pose proof (hk_sz _ _ Hk) as Hsz.
  eapply total_mono; [apply (total_for_up _ _ _ (λ i, lat l c (a_writes (log_writes l (ca_view a) i) a)))|].
  - by rw /log_writes /= a_writes_nil.
  - rw Z2Nat.id; [lia|]. intros i s1 Hi H1. eapply total_mono.
    + apply (write_log_body_lat _ _ i H1); [done|done|done|lia| |].
      * simpl. apply elem_of_difference. split; [apply Hd; lia|]. rw elem_of_list_to_set elem_log_writes.
        intros (j & Hj & He). destruct (hk_home _ _ Hk i); lia.
      * eapply Nat.le_lt_trans; [apply size_dirty_writes|done].
    + cbv beta. intros _ s2. rw -a_writes_app. simpl. rw apply_writes_ne.
      { rw elem_log_writes. intros (j & Hj & He). destruct (hk_home _ _ Hk i); lia. }
      rw log_writes_snoc //. lia.
  - cbv beta. intros _ s1. rw Z2Nat.id; [lia|done].
Qed.

Lemma install_lat a s :
  lat l c a s → geom l (disksize (ca_disk a)) → head_ok l (disksize (ca_disk a)) → ca_held a = ∅ →
  (S (size (ca_dirty a)) < NBUF)%nat ∨ (size (ca_dirty a) < NBUF)%nat ∧
    log_inj l ∧ (∀ i, 0 ≤ i < lh_n l → nthZ (lh_block l) i ∈ ca_dirty a) →
  total install_trans s (λ _, lat l c (a_writes (home_writes l (ca_view a) (lh_n l)) a)).
Proof.
  intros Hs Hg Hk Hh Hd. rw /install_trans. apply total_gets_bind. rw (lat_log _ _ _ _ Hs).
  pose proof (hk_n _ _ Hk) as Hn. pose proof (hk_sz _ _ Hk) as Hsz.
  eapply total_mono; [apply (total_for_up _ _ _ (λ i, lat l c (a_writes (home_writes l (ca_view a) i) a)))|].
  - by rw /home_writes /= a_writes_nil.
  - rw Z2Nat.id; [lia|]. intros i s1 Hi H1. eapply total_mono.
    + pose proof (size_dirty_writes (home_writes l (ca_view a) i) a) as Hle.
      apply (install_body_lat _ _ i H1); [done|done|done|lia|lia|].
      destruct Hd as [Hd|(Hr & Hnd & Hd)]; [right; lia|left].
      simpl. apply elem_of_difference. split; [apply Hd; lia|]. rw elem_of_list_to_set elem_home_writes.
      intros (j & Hj & He). apply Hnd in He; lia.
    + cbv beta. intros _ s2. rw -a_writes_app. simpl. rw apply_writes_ne.
      { rw elem_home_writes. intros (j & Hj & He). destruct (hk_home _ _ Hk j); lia. }
      rw home_writes_snoc //. lia.
  - cbv beta. intros _ s1. rw Z2Nat.id; [lia|done].
Qed.
End bodies.

(** ** The header block *)

Section header.
Implicit Types (d blocks : list Z) (n i : Z).

Lemma blk_store32 o v d : blk d → 0 ≤ o → o + 4 ≤ 512 → blk (store32 o v d).
Proof.
  intros [Hl Hb] Ho Ho'. assert (lenZ d = 512) by (rw Hl; done). split; [|by apply bytes_store].
  rw length_store; lia.
Qed.

Lemma put_blocks_spec (k : nat) i blocks d :
  blk d → 0 ≤ i → i + Z.of_nat k ≤ 30 →
  blk (put_blocks k i blocks d) ∧
  (∀ j, i ≤ j < i + Z.of_nat k → load32 (4 + 4 * j) (put_blocks k i blocks d) = nthZ blocks j mod 2 ^ 32) ∧
  (∀ o, 0 ≤ o → o + 4 ≤ 4 + 4 * i → load32 o (put_blocks k i blocks d) = load32 o d).
Proof.
  revert i d. induction k as [|k IH]; intros i d Hd Hi Hk; simpl; [split_and!; [done|lia|done]|].
  assert (lenZ d = 512) as Hl by (destruct Hd as [-> _]; done).
  destruct (IH (i + 1) (store32 (4 + 4 * i) (nthZ blocks i) d)) as (H1 & H2 & H3);
    [apply blk_store32; [done|lia|lia]|lia|lia|].
  split_and!; [done| |].
  - intros j Hj. destruct (decide (j = i)) as [->|Hne]; [|apply H2; lia].
    rw H3; [lia|lia|]. rw load_store_eq //; lia.
  - intros o Ho Ho'. rw H3; [lia|lia|]. rw load_store_ne //; lia.
Qed.

Lemma put_head_spec n blocks d :
  blk d → 0 ≤ n ≤ LOGSIZE →
  blk (put_head n blocks d) ∧ head_n (put_head n blocks d) = n ∧
  (∀ i, 0 ≤ i < n → 0 ≤ nthZ blocks i < 2 ^ 31 → head_block (put_head n blocks d) i = nthZ blocks i).
Proof.
  rw /LOGSIZE /put_head. intros Hd Hn. assert (lenZ d = 512) as Hl by (destruct Hd as [-> _]; done).
  destruct (put_blocks_spec (Z.to_nat n) 0 blocks (store32 0 n d)) as (H1 & H2 & H3);
    [apply blk_store32; [done|lia|lia]|lia|lia|].
  split_and!; [done| |].
  - rw /head_n H3; [lia|lia|]. rw load_store_small; [lia|lia|lia|]. apply i32_small. lia.
  - intros i Hi Hb. rw /head_block H2; [lia|]. rw Z.mod_small; [lia|]. apply i32_small. lia.
Qed.
End header.

Lemma write_head_lat l c a s :
  lat l c a s → geom l (disksize (ca_disk a)) → 0 ≤ lh_n l ≤ LOGSIZE → ca_held a = ∅ →
  (size (ca_dirty a) < NBUF)%nat →
  total write_head s
    (λ _, lat l c (a_writes [(l_start l, put_head (lh_n l) (lh_block l) (ca_view a !!! l_start l))] a)).
Proof.
  intros Hs Hg Hn Hh Hroom. destruct Hg. rw /write_head. do 2 apply total_gets_bind.
  rw /log_dev (lat_log _ _ _ _ Hs) g_dev0 (u32_small (l_start l)); [lia|].
  eapply total_bind; [apply (lat_bread _ _ _ _ Hs); [lia|rw Hh; done|right; by apply room_empty]|].
  cbv beta. intros i s1 [Hi H1]. do 2 apply total_gets_bind.
  assert (ca_held (a_hold i (l_start l) a) !! i = Some (l_start l)) as Hhi by (by rw /= lookup_insert_eq).
  rw (lat_data _ _ _ _ H1 _ _ Hhi) (lat_log _ _ _ _ H1) /=.
  destruct (put_head_spec (lh_n l) (lh_block l) (ca_view a !!! l_start l)) as (Hblk & _ & _);
    [apply (lat_blk _ _ _ _ Hs); lia|done|].
  eapply total_bind; [by apply (lat_set_bdata _ _ _ _ H1 i (l_start l))|].
  cbv beta. intros _ s2 H2. eapply total_bind; [by apply (lat_bwrite _ _ _ _ H2 i (l_start l))|].
  cbv beta. intros _ s3 H3. eapply total_mono; [apply (lat_brelse _ _ _ _ H3 i (l_start l)); [done|]|].
  - right. simpl. by rw !lookup_total_insert_eq.
  - cbv beta. intros _ s4. rw /a_unhold /a_flush /a_put /a_hold /a_writes /= delete_insert_id //.
    rw lookup_total_insert_eq /dwrites /dwrite /=. by rw right_id_L.
Qed.

(** The in-memory header after [read_head] has read the block [d]. *)
Record head_from (l : log) (d : list Z) (l' : log) : Prop := {
  hf_geom : l_start l' = l_start l ∧ l_size l' = l_size l ∧ l_dev l' = l_dev l ∧
    l_outstanding l' = l_outstanding l ∧ l_committing l' = l_committing l;
  hf_n : lh_n l' = head_n d;
  hf_len : length (lh_block l') = length (lh_block l);
  hf_block i : 0 ≤ i < head_n d → nthZ (lh_block l') i = head_block d i;
}.

Lemma lat_set_log l c a s f : lat l c a s → lat (f l) c a (set_log f s).
Proof. intros [Hl Hr Hc]. split; [by rw /= Hl|done|done]. Qed.

Lemma read_head_lat l c a s :
  lat l c a s → geom l (disksize (ca_disk a)) → ca_held a = ∅ → (size (ca_dirty a) < NBUF)%nat →
  length (lh_block l) = Z.to_nat LOGSIZE →
  let d := ca_view a !!! l_start l in 0 ≤ head_n d ≤ LOGSIZE →
  total read_head s (λ _ s', ∃ l', head_from l d l' ∧ lat l' c a s').
Proof.
  intros Hs Hg Hh Hroom Hlen d Hd. destruct Hg. rw /read_head. do 2 apply total_gets_bind.
  rw /log_dev (lat_log _ _ _ _ Hs) g_dev0 (u32_small (l_start l)); [lia|].
  eapply total_bind; [apply (lat_bread _ _ _ _ Hs); [lia|rw Hh; done|right; by apply room_empty]|].
  cbv beta. intros i s1 [Hi H1]. apply total_gets_bind, total_modify_bind.
  assert (ca_held (a_hold i (l_start l) a) !! i = Some (l_start l)) as Hhi by (by rw /= lookup_insert_eq).
  rw (lat_data _ _ _ _ H1 _ _ Hhi) /= -/d. destruct (Z.gtb_spec (head_n d) LOGSIZE); [lia|].
  set (I := λ k s', ∃ l', lat l' c (a_hold i (l_start l) a) s' ∧ lh_n l' = head_n d ∧
    (l_start l' = l_start l ∧ l_size l' = l_size l ∧ l_dev l' = l_dev l ∧
    l_outstanding l' = l_outstanding l ∧ l_committing l' = l_committing l) ∧
    length (lh_block l') = length (lh_block l) ∧ (∀ j, 0 ≤ j < k → nthZ (lh_block l') j = head_block d j)).
  eapply total_bind; [apply (total_for_up _ _ _ I)|].
  - exists (with_n (head_n d) l). split_and!; [|done..|lia]. by apply lat_set_log.
  - rw Z2Nat.id; [lia|]. intros k s2 Hk (l' & H2 & Hn & Hgeo & Hl & Hb). apply total_modify.
    eexists. split; [by apply lat_set_log|]. split_and!; [done|naive_solver..| |].
    + by rw /= length_setZ.
    + intros j Hj. simpl. destruct (decide (j = k)) as [->|Hne].
      * rw nthZ_setZ_eq // Hl Hlen. rw /LOGSIZE in Hd |- *. lia.
      * rw nthZ_setZ_ne; [lia|lia|lia|]. apply Hb. lia.
  - cbv beta. intros _ s3 (l' & H3 & Hn & Hgeo & Hl & Hb). rw Z2Nat.id in Hb; [lia|].
    eapply total_mono; [apply (lat_brelse _ _ _ _ H3 i (l_start l)); [done|]|].
    + simpl. apply (lat_sync _ _ _ _ Hs); [lia|by rw Hh].
    + cbv beta. intros _ s4 H4. exists l'. split; [done|].
      rw /a_unhold /a_hold /= delete_insert_id // in H4. by rw cache_eta in H4.
Qed.

(** ** Commit *)

Lemma size_list_to_set_le (xs : list Z) : (size (list_to_set xs : gset Z) ≤ length xs)%nat.
Proof.
  induction xs as [|x xs IH]; [by rw size_empty|]. simpl. rw size_union_alt size_singleton.
  assert (size ((list_to_set xs : gset Z) ∖ {[x]}) ≤ size (list_to_set xs : gset Z))%nat; [|lia].
  apply subseteq_size. set_solver.
Qed.

(** The blocks pinned in the cache are the logged ones. *)
Definition logs (l : log) (D : gset Z) : Prop :=
  ∀ b, b ∈ D ↔ ∃ i, 0 ≤ i < lh_n l ∧ b = nthZ (lh_block l) i.

Lemma logs_size l D : logs l D → (size D ≤ Z.to_nat (lh_n l))%nat.
Proof.
  intros HD. rw -(length_seqZ 0 (lh_n l)) -(length_fmap (nthZ (lh_block l))).
  etrans; [|apply size_list_to_set_le]. apply subseteq_size. intros b (i & Hi & ->)%HD.
  rw elem_of_list_to_set. apply list_elem_of_fmap_2, elem_of_seqZ. lia.
Qed.

(** The writes of a commit, in order: the logged blocks to the log, the header,
    the logged blocks to their homes, the empty header. *)
Definition inst_writes (l : log) (v : gmap Z (list Z)) : list (Z * list Z) :=
  (λ i, (nthZ (lh_block l) i, v !!! nthZ (lh_block l) i)) <$> seqZ 0 (lh_n l).
Definition new_head (l : log) (v : gmap Z (list Z)) : list Z :=
  put_head (lh_n l) (lh_block l) (v !!! l_start l).
Definition commit_writes (l : log) (v : gmap Z (list Z)) : list (Z * list Z) :=
  log_writes l v (lh_n l) ++ [(l_start l, new_head l v)] ++
  inst_writes l v ++ [(l_start l, put_head 0 (lh_block l) (new_head l v))].

Section commit.
Context (l : log).

Lemma start_notin_log v n : l_start l ∉ (log_writes l v n).*1.
Proof. rw elem_log_writes. intros (i & Hi & He). lia. Qed.

Lemma elem_inst_writes v b : b ∈ (inst_writes l v).*1 ↔ ∃ i, 0 ≤ i < lh_n l ∧ b = nthZ (lh_block l) i.
Proof.
  rw /inst_writes -list_fmap_compose list_elem_of_fmap. simpl.
  split; [intros (i & -> & Hi%elem_of_seqZ)|intros (i & Hi & ->)]; exists i;
    [split; [lia|done]|split; [done|]; apply elem_of_seqZ; lia].
Qed.

(** What the log blocks hold once they are written. *)
Lemma log_writes_read v m n i :
  0 ≤ i < n → apply_writes (log_writes l v n) m !!! (l_start l + i + 1) = v !!! nthZ (lh_block l) i.
Proof.
  intros Hi. apply apply_writes_eq.
  - apply elem_log_writes. eauto.
  - intros y (j & Hj & _)%list_elem_of_fmap. injection Hj as Hj ->. do 2 f_equal. lia.
Qed.

Lemma home_writes_inst v x :
  home_writes l (apply_writes [(l_start l, x)] (apply_writes (log_writes l v (lh_n l)) v)) (lh_n l) = inst_writes l v.
Proof.
  apply list_fmap_ext. intros k i Hi. f_equal. apply list_elem_of_lookup_2, elem_of_seqZ in Hi.
  rw apply_writes_ne; [simpl; set_solver by lia|]. apply log_writes_read. lia.
Qed.
Lemma start_notin_inst sz v : geom l sz → head_ok l sz → l_start l ∉ (inst_writes l v).*1.
Proof. intros Hg Hk. rw elem_inst_writes. intros (i & Hi & He). destruct (hk_home _ _ Hk i Hi), Hg. lia. Qed.

End commit.

Lemma commit_lat l c a s :
  lat l c a s → geom l (disksize (ca_disk a)) → head_ok l (disksize (ca_disk a)) → ca_held a = ∅ →
  log_inj l → logs l (ca_dirty a) → lh_n l < Z.of_nat NBUF →
  total commit s (λ _, lat (with_n 0 l) c (a_writes (if lh_n l >? 0 then commit_writes l (ca_view a) else []) a)).
Proof.
  intros Hs Hg Hk Hh Hinj Hlogs Hn. pose proof (logs_size _ _ Hlogs) as Hsz. pose proof (hk_n _ _ Hk) as Hn0.
  rw /commit. apply total_gets_bind. rw (lat_log _ _ _ _ Hs).
  destruct (Z.gtb_spec (lh_n l) 0) as [Hpos|Hz]; simpl.
  2:{ apply total_ret. rw a_writes_nil. assert (lh_n l = 0) by lia. by rw (_ : with_n 0 l = l); [destruct l; simpl in *; subst|]. }
  eapply total_bind; [apply (write_log_lat _ _ _ _ Hs); try done; [|lia]|].
  { intros i Hi. apply Hlogs. eauto. }
  cbv beta. intros _ s1 H1. eapply total_bind.
  { apply (write_head_lat _ _ _ _ H1); [done|done|done|]. eapply Nat.le_lt_trans; [apply size_dirty_writes|lia]. }
  cbv beta. intros _ s2. rw -a_writes_app /=. rw apply_writes_ne; [apply start_notin_log|]. rw -/(new_head l (ca_view a)).
  intros H2. eapply total_bind.
  { apply (install_lat _ _ _ _ H2); [done|done|done|]. right. split_and!; [|done|].
    - eapply Nat.le_lt_trans; [apply size_dirty_writes|lia].
    - intros i Hi. simpl. apply elem_of_difference. split; [apply Hlogs; eauto|].
      rw elem_of_list_to_set fmap_app elem_of_app elem_log_writes. destruct (hk_home _ _ Hk i Hi), Hg.
      intros [(j & ? & ?)|?%list_elem_of_singleton]; [destruct Hk|]; simpl in *; lia. }
  cbv beta. intros _ s3. rw -a_writes_app /= apply_writes_app home_writes_inst.
  intros H3. apply total_modify_bind. eapply total_mono.
  { apply (write_head_lat (with_n 0 l) c _ _ (lat_set_log _ _ _ _ (with_n 0) H3)); [by destruct Hg|done|done|].
    eapply Nat.le_lt_trans; [apply size_dirty_writes|lia]. }
  cbv beta. intros _ s4. rw -a_writes_app /= !apply_writes_app.
  rw (apply_writes_ne (inst_writes _ _)); [by eapply start_notin_inst|].
  rw /= lookup_total_insert_eq. by rw /commit_writes -!app_assoc.
Qed.

(** ** Recovery *)

(** A header block recovery can use. *)
Record hdr_ok (l : log) (sz : Z) (d : list Z) : Prop := {
  ho_n : 0 ≤ head_n d ≤ LOGSIZE;
  ho_sz : head_n d ≤ l_size l - 1;
  ho_home i : 0 ≤ i < head_n d → home l sz (head_block d i);
}.

(** The writes of recovery over a disk with contents [m]. *)
Definition rec_writes (start : Z) (m : gmap Z (list Z)) : list (Z * list Z) :=
  let d := m !!! start in
  ((λ i, (head_block d i, m !!! (start + i + 1))) <$> seqZ 0 (head_n d)) ++ [(start, store32 0 0 d)].

Lemma elem_rec_writes start m b :
  b ∈ (rec_writes start m).*1 ↔ b = start ∨ ∃ i, 0 ≤ i < head_n (m !!! start) ∧ b = head_block (m !!! start) i.
Proof.
  rw /rec_writes fmap_app -list_fmap_compose elem_of_app list_elem_of_fmap list_elem_of_singleton. simpl. split.
  - intros [(i & -> & Hi%elem_of_seqZ)| ->]; [right; exists i; split; [lia|done]|by left].
  - intros [->|(i & Hi & ->)]; [by right|left]. exists i. rw elem_of_seqZ. split; [done|lia].
Qed.

Lemma recover_lat l c a s :
  lat l c a s → geom l (disksize (ca_disk a)) → ca_held a = ∅ → ca_dirty a = ∅ →
  length (lh_block l) = Z.to_nat LOGSIZE → hdr_ok l (disksize (ca_disk a)) (ca_view a !!! l_start l) →
  total recover_from_log s (λ _ s', ∃ l', lat l' c (a_writes (rec_writes (l_start l) (ca_view a)) a) s' ∧
    lh_n l' = 0 ∧ l_start l' = l_start l ∧ l_size l' = l_size l ∧ l_dev l' = l_dev l ∧
    l_outstanding l' = l_outstanding l ∧ l_committing l' = l_committing l ∧
    length (lh_block l') = Z.to_nat LOGSIZE).
Proof.
  intros Hs Hg Hh Hd Hlen Hok. set (d := ca_view a !!! l_start l) in *.
  assert (size (ca_dirty a) = 0)%nat as Hsz by (by rw Hd size_empty).
  rw /recover_from_log. eapply total_bind; [apply (read_head_lat _ _ _ _ Hs); try done; [rw Hsz /NBUF; lia|apply Hok]|].
  cbv beta. intros _ s1 (l' & [(E1 & E2 & E3 & E4 & E5) Hn Hlen' Hb] & H1). rw -/d in Hn, Hb.
  assert (geom l' (disksize (ca_disk a))) as Hg'.
  { destruct Hg. split; rw ?E1 ?E2 ?E3 //. }
  eapply total_bind; [apply (install_lat _ _ _ _ H1); [done| |done|left; rw Hsz /NBUF; lia]|].
  { split; rw ?Hn ?E2 ?Hlen' //; [apply Hok|apply Hok|]. intros i Hi. rw Hb // /home E1 E2. by apply Hok. }
  cbv beta. intros _ s2 H2. apply total_modify_bind. eapply total_mono.
  { apply (write_head_lat (with_n 0 l') c _ _ (lat_set_log _ _ _ _ (with_n 0) H2)); [by destruct Hg'|done|done|].
    eapply Nat.le_lt_trans; [apply size_dirty_writes|rw Hsz /NBUF; lia]. }
  cbv beta. intros _ s3. rw -a_writes_app. intros H3. exists (with_n 0 l'). split; [|split_and!; simpl; congruence].
  match type of H3 with lat _ _ (a_writes ?w _) _ =>
    assert (rec_writes (l_start l) (ca_view a) = w) as ->; [|exact H3] end.
  simpl. rw apply_writes_ne.
  - rw elem_home_writes. intros (i & Hi & He). rw Hn in Hi. rw Hb // in He.
    destruct (ho_home _ _ _ Hok i Hi), Hg. rw E1 in He. lia.
  - rw /rec_writes -/d /home_writes Hn E1. f_equal. apply list_fmap_ext.
    intros k i Hi. apply list_elem_of_lookup_2, elem_of_seqZ in Hi. by rw Hb; [lia|].
Qed.

(** A cold start: [binit], then [initlog] on the root device. *)
Definition cold (c : core) (d : disk) : lst := mkLst (bst0 c d) log0.
Definition boot : M lst unit := lift binit;; initlog 1.

(** What the super block of a disk says about the log. *)
Record disk_geom (start size : Z) (d : disk) : Prop := {
  dg_start : sb_logstart (sb_decode (memdisk d !!! 1)) = start;
  dg_size : sb_nlog (sb_decode (memdisk d !!! 1)) = size;
  dg_lo : 2 ≤ start;
  dg_pos : 1 ≤ size;
  dg_end : start + size ≤ disksize d;
  dg_sz : disksize d < 2 ^ 31;
}.

Definition dlog (start size : Z) : log := with_geom start size 1 log0.

(** The log after a boot: empty, and nobody uses it. *)
Record fresh (start size : Z) (l : log) : Prop := {
  fr_n : lh_n l = 0;
  fr_start : l_start l = start;
  fr_size : l_size l = size;
  fr_dev : l_dev l = 1;
  fr_out : l_outstanding l = 0;
  fr_com : l_committing l = 0;
  fr_len : length (lh_block l) = Z.to_nat LOGSIZE;
}.

Lemma boot_lat start size c d :
  c_locks c = [] → disk_ok d → disk_geom start size d →
  hdr_ok (dlog start size) (disksize d) (memdisk d !!! start) →
  total boot (cold c d) (λ _ s', ∃ l', fresh start size l' ∧
    lat l' c (a_writes (rec_writes start (memdisk d)) (mkCache (memdisk d) d ∅ ∅)) s').
Proof.
  intros Hc Hd Hg Hh. set (a := mkCache (memdisk d) d ∅ ∅). rw /boot.
  apply (total_bind _ _ _ (λ _, lat log0 c a)).
  { apply total_lift. eapply total_mono; [by apply (binit_ok c d)|]. cbv beta.
    intros _ b [Hr Hb]. split; [done|done|]. simpl. by rw Hb. }
  intros _ s1 H1. rw /initlog /=.
  apply (total_bind _ _ _ (λ sb s, sb = sb_decode (memdisk d !!! 1) ∧ lat log0 c a s)).
  { rw /readsb. eapply total_bind; [apply (lat_bread _ _ _ _ H1); [simpl; destruct Hg; lia|done|right; apply ca_room_empty]|].
    cbv beta. intros i s2 [Hi H2]. apply total_gets_bind. eapply total_bind.
    { apply (lat_brelse _ _ _ _ H2 i 1); [by rw /= lookup_insert_eq|by right]. }
    cbv beta. intros _ s3 H3. rw (lat_data _ _ _ _ H2 i 1); [by rw /= lookup_insert_eq|].
    apply total_ret. split; [done|]. by rw /a_unhold /a_hold /= delete_insert_id in H3. }
  intros sb s4 [-> H4]. apply total_modify_bind. destruct Hg.
  rw dg_start0 dg_size0 !i32_small; [lia|lia|].
  eapply total_mono; [apply (recover_lat (dlog start size) c _ _ (lat_set_log _ _ _ _ (with_geom start size 1) H4)); try done|].
  cbv beta. intros _ s5 (l' & H5 & ? & ? & ? & ? & ? & ? & ?). by exists l'.
Qed.

(** ** Critical sections of [log.lock] *)

(** [s] with one spinlock held. *)
Definition lk (k : lockid) (s : lst) : lst := lset (set_locks [k] (bs_core (ls_bst s))) s.

Lemma acquire_lk k s : c_locks (bs_core (ls_bst s)) = [] → (lift (acquire k) : M lst unit) s = Ret tt (lk k s).
Proof.
  intros H. rw /lk -H. refine (run_lift (acquire k) s tt _ (acquire_run k _ _)). simpl. rw H. apply not_elem_of_nil.
Qed.

Lemma release_lk k s : c_locks (bs_core (ls_bst s)) = [] → (lift (release k) : M lst unit) (lk k s) = Ret tt s.
Proof.
  intros H. etrans; [exact (run_lift (release k) (lk k s) tt _ (release_run k [] (lget (lk k s)) eq_refl (not_elem_of_nil k)))|].
  rw /lk lset_lset. f_equal. destruct s as [[[] ? ?] ?]. simpl in *. by subst.
Qed.

Lemma wakeup_lk k ch s :
  k ≠ LPtable →
  (lift (wakeup ch) : M lst unit) (lk k s) =
    Ret tt (lk k (lset (set_procs (map (wake ch) (c_procs (bs_core (ls_bst s)))) (bs_core (ls_bst s))) s)).
Proof.
  intros Hk. etrans; [refine (run_lift (wakeup ch) (lk k s) tt _ (wakeup_run ch _ _)); simpl; set_solver|].
  by rw /lk lset_lset.
Qed.

Lemma lat_wake l c a s ch :
  lat l c a s →
  lat l c a (lset (set_procs (map (wake ch) (c_procs (bs_core (ls_bst s)))) (bs_core (ls_bst s))) s).
Proof.
  intros [Hl Hr Hc]. split; [done| |].
  - apply (brepr_core (ls_bst s)); [apply Hr|done].
  - etrans; [done|apply wakeup_le].
Qed.

Lemma lat_locks l c a s : lat l c a s → c_locks (bs_core (ls_bst s)) = [].
Proof. intros [_ Hr _]. apply Hr. Qed.

(** ** The log between the operations of a transaction *)

Record txn (l : log) (c : core) (a : cache) (s : lst) : Prop := {
  tx_lat : lat l c a s;
  tx_geom : geom l (disksize (ca_disk a));
  tx_head : head_ok l (disksize (ca_disk a));
  tx_inj : log_inj l;
  tx_logs : logs l (ca_dirty a);
  tx_room : l_size l ≤ Z.of_nat NBUF;
  tx_com : l_committing l = 0;
  tx_empty : head_n (memdisk (ca_disk a) !!! l_start l) = 0;
}.

(** [end_op] of one of several operations wakes those waiting for log space. *)
Lemma end_op_inner l c a s :
  txn l c a s → l_outstanding l ≠ 1 →
  total end_op s (λ _, lat (with_outstanding (l_outstanding l - 1) l) c a).
Proof.
  intros [Hs _ _ _ _ _ Hcom _] Ho. pose proof (lat_locks _ _ _ _ Hs) as Hl. pose proof (lat_log _ _ _ _ Hs) as Hlog.
  rw /total /end_op (run_bind _ _ _ _ _ (acquire_lk LLog s Hl)) run_modify run_gets.
  change (set_log ?f (lk LLog s)) with (lk LLog (set_log f s)). simpl. rw Hlog /= Hcom /=.
  destruct (Z.eqb_spec (l_outstanding l - 1) 0); [lia|].
  rw (run_bind _ _ _ _ _ (wakeup_lk LLog ChLog (set_log _ s) ltac:(done))).
  rw release_lk; [done|]. eexists _, _. split; [done|]. apply lat_wake.
  pose proof (lat_set_log _ _ _ _ (λ l, with_outstanding (l_outstanding l - 1) l) Hs) as H. exact H.
Qed.

(** The last [end_op] commits. *)
Lemma end_op_commit l c a s :
  txn l c a s → l_outstanding l = 1 → ca_held a = ∅ →
  total end_op s (λ _, lat (with_outstanding 0 (with_n 0 l)) c
    (a_writes (if lh_n l >? 0 then commit_writes l (ca_view a) else []) a)).
Proof.
  intros [Hs Hg Hk Hi Hlg Hr Hcom He] Ho Hh. pose proof (lat_locks _ _ _ _ Hs) as Hl. pose proof (lat_log _ _ _ _ Hs) as Hlog.
  rw /total /end_op (run_bind _ _ _ _ _ (acquire_lk LLog s Hl)) run_modify run_gets.
  change (set_log ?f (lk LLog s)) with (lk LLog (set_log f s)). simpl. rw Hlog /= Hcom /= Ho /=.
  rw run_modify. change (set_log ?f (lk LLog ?s)) with (lk LLog (set_log f s)).
  set (s1 := set_log (with_committing 1) _).
  rw (run_bind _ _ _ _ _ (release_lk LLog s1 _)); [done|].
  pose proof (lat_set_log _ _ _ _ (with_committing 1)
    (lat_set_log _ _ _ _ (λ l, with_outstanding (l_outstanding l - 1) l) Hs)) as H1.
  cbv beta in H1. rw -/s1 in H1. set (l1 := with_committing 1 _) in H1.
  destruct (commit_lat l1 c a s1) as ([] & s2 & Hc2 & H2); [done|by destruct Hg|by destruct Hk|done..| |].
  { pose proof (hk_sz _ _ Hk). simpl. lia. }
  rw (run_bind _ _ _ _ _ Hc2). pose proof (lat_locks _ _ _ _ H2) as Hl2.
  rw (run_bind _ _ _ _ _ (acquire_lk LLog s2 Hl2)) run_modify.
  change (set_log ?f (lk LLog ?s)) with (lk LLog (set_log f s)).
  rw (run_bind _ _ _ _ _ (wakeup_lk LLog ChLog (set_log _ s2) ltac:(done))).
  rw release_lk; [done|]. eexists _, _. split; [done|]. apply lat_wake.
  pose proof (lat_set_log _ _ _ _ (with_committing 0) H2) as H3. simpl in H3.
  assert (with_committing 0 (with_n 0 l1) = with_outstanding 0 (with_n 0 l)) as <-; [|exact H3].
  destruct l. simpl in *. by subst.
Qed.

(** ** Crashes *)

(** [d'] is a disk a power failure can leave between disk state [d] and the
    later [d2]: a prefix of the writes made in between reached it. *)
Definition crash_disk (d d2 d' : disk) : Prop :=
  disksize d' = disksize d ∧ ∃ ws1 ws2, d_writes d2 = d_writes d ++ ws1 ++ ws2 ∧
    memdisk d' = apply_writes ws1 (memdisk d).

Definition outside (start size b : Z) : Prop := b < start ∨ start + size ≤ b.

Definition writes_ok (sz : Z) (ws : list (Z * list Z)) : Prop :=
  Forall (λ w, 0 ≤ w.1 < sz ∧ blk w.2) ws.

Lemma crash_of_writes d ws d' :
  crash_disk d (dwrites ws d) d' →
  disksize d' = disksize d ∧ ∃ ws1 ws2, ws = ws1 ++ ws2 ∧ memdisk d' = apply_writes ws1 (memdisk d).
Proof. intros (Hs & ws1 & ws2 & He & Hm). simpl in He. apply app_inv_head in He. split; [done|]. eauto. Qed.

Lemma disk_ok_writes d ws d' :
  disk_ok d → writes_ok (disksize d) ws → disksize d' = disksize d →
  memdisk d' = apply_writes ws (memdisk d) → disk_ok d'.
Proof.
  intros Hd Hw Hs Hm b. rw Hs Hm. clear Hs Hm. intros Hb.
  induction ws as [|[c x] ws IH] using rev_ind; [by apply Hd|].
  apply Forall_app in Hw as [Hw Hx]. apply list.Forall_singleton in Hx as [? ?]. rw apply_writes_app /=.
  destruct (decide (c = b)) as [->|].
  - rw lookup_insert_eq. eauto.
  - rw lookup_insert_ne //. by apply IH.
Qed.

(** Writes over different contents agree on what was written. *)
Lemma apply_writes_agree ws m m' b :
  b ∈ ws.*1 ∨ m !!! b = m' !!! b → apply_writes ws m !!! b = apply_writes ws m' !!! b.
Proof.
  revert m m'. induction ws as [|w ws IH]; intros m m'; [by intros [?%not_elem_of_nil|?]|].
  simpl. intros Hb. apply IH. destruct (decide (b = w.1)) as [->|]; [right; by rw !lookup_total_insert_eq|].
  destruct Hb as [[?|?]%elem_of_cons|?]; [done|by left|right]. by rw !lookup_total_insert_ne.
Qed.

(** An empty header: recovery only rewrites it. *)
Lemma rec_empty start m b :
  head_n (m !!! start) = 0 → b ≠ start → apply_writes (rec_writes start m) m !!! b = m !!! b.
Proof.
  intros H0 Hb. apply apply_writes_ne. rw elem_rec_writes H0. intros [?|(i & ? & _)]; [done|lia].
Qed.

Lemma head_n_clear d : blk d → head_n (store32 0 0 d) = 0.
Proof. intros [Hl _]. rw /head_n load_store_small //. rw Hl. done. Qed.

(** A crash during recovery, followed by recovery. *)
Lemma rec_again start size sz m ws1 ws2 b :
  2 ≤ start → 1 ≤ size → hdr_ok (dlog start size) sz (m !!! start) → blk (m !!! start) →
  rec_writes start m = ws1 ++ ws2 → outside start size b →
  let m1 := apply_writes ws1 m in
  hdr_ok (dlog start size) sz (m1 !!! start) ∧
  apply_writes (rec_writes start m1) m1 !!! b = apply_writes (rec_writes start m) m !!! b.
Proof.
  intros Hs Hz Hh Hblk He Hb m1. assert (b ≠ start) by (destruct Hb; lia).
  assert (∀ i, 0 ≤ i < head_n (m !!! start) → start + size ≤ head_block (m !!! start) i) as Hhome.
  { intros i Hi. by apply Hh in Hi as [? ?]. }
  destruct ws2 as [|w ws2 _] using rev_ind.
  - rw app_nil_r in He. subst ws1. assert (head_n (m1 !!! start) = 0) as H0.
    { rw /m1 /rec_writes apply_writes_snoc. by apply head_n_clear. }
    split; [|by apply rec_empty]. split; rw H0 /LOGSIZE /=; lia.
  - rw /rec_writes app_assoc in He. apply app_inj_tail in He as [Ha _].
    assert (∀ x, x ∈ ws1.*1 → start + size ≤ x) as Hk1.
    { intros x Hx. assert (x ∈ ((ws1 ++ ws2).*1)) as Hx' by (rw fmap_app; set_solver). rw -Ha in Hx'.
      rw -list_fmap_compose in Hx'. apply list_elem_of_fmap in Hx' as (i & -> & Hi%elem_of_seqZ). apply Hhome. lia. }
    assert (m1 !!! start = m !!! start) as E1 by (apply apply_writes_ne; intros ?%Hk1; lia).
    assert (rec_writes start m1 = rec_writes start m) as E2.
    { rw /rec_writes E1. f_equal. apply list_fmap_ext. intros j i Hi. f_equal.
      apply list_elem_of_lookup_2, elem_of_seqZ in Hi. apply apply_writes_ne. intros ?%Hk1.
      pose proof (ho_sz _ _ _ Hh). simpl in *. lia. }
    rw E1. split; [done|]. rw E2. apply apply_writes_agree.
    destruct (decide (b ∈ ws1.*1)) as [Hin|Hin]; [left|right; by apply apply_writes_ne].
    rw /rec_writes Ha. rw !fmap_app. set_solver.
Qed.

(** What recovery makes of contents [m]. *)
Definition recovered (start : Z) (m : gmap Z (list Z)) : gmap Z (list Z) :=
  apply_writes (rec_writes start m) m.

(** [m'] has the contents of [x] outside the log. *)
Definition agrees (l : log) (sz : Z) (x m' : gmap Z (list Z)) : Prop :=
  ∀ b, 0 ≤ b < sz → outside (l_start l) (l_size l) b → m' !!! b = x !!! b.

Section commit_crash.
Context (l : log) (sz : Z) (v m : gmap Z (list Z)).
Context (Hg : geom l sz) (Hk : head_ok l sz).
Context (Hempty : head_n (m !!! l_start l) = 0) (Hvs : blk (v !!! l_start l)).
(** Blocks the transaction did not log are the same in the cache and on the disk. *)
Context (Hsame : ∀ b, home l sz b ∨ 0 ≤ b < l_start l →
  (∀ i, 0 ≤ i < lh_n l → b ≠ nthZ (lh_block l) i) → v !!! b = m !!! b).

Lemma hdr_zero d : head_n d = 0 → hdr_ok l sz d.
Proof. intros H. destruct Hg, Hk. split; rw H; lia. Qed.

(** Crash before the header is written. *)
Lemma crash_before ws1 :
  (∀ b, b ∈ ws1.*1 → l_start l < b < l_start l + l_size l) →
  hdr_ok l sz (apply_writes ws1 m !!! l_start l) ∧ agrees l sz m (recovered (l_start l) (apply_writes ws1 m)).
Proof.
  intros Hin. destruct Hg. assert (apply_writes ws1 m !!! l_start l = m !!! l_start l) as E.
  { apply apply_writes_ne. intros ?%Hin. lia. }
  split; [apply hdr_zero; by rw E|]. intros b Hb Ho. rw /recovered rec_empty.
  - by rw E.
  - destruct Ho; lia.
  - apply apply_writes_ne. intros ?%Hin. destruct Ho; lia.
Qed.

Lemma inst_value b x : (b, x) ∈ inst_writes l v → x = v !!! b.
Proof. intros (i & Hi & _)%list_elem_of_fmap. congruence. Qed.

(** Contents in which the logged blocks are new and the others old. *)
Lemma new_of_agree m' :
  (∀ b, b ∈ (inst_writes l v).*1 → m' !!! b = v !!! b) →
  (∀ b, 0 ≤ b < sz → outside (l_start l) (l_size l) b → b ∉ (inst_writes l v).*1 → m' !!! b = m !!! b) → agrees l sz v m'.
Proof.
  intros H1 H2 b Hb Ho. destruct (decide (b ∈ (inst_writes l v).*1)) as [|Hin]; [auto|].
  rw H2 //. symmetry. apply Hsame.
  - rw /home. destruct Ho; [right|left]; lia.
  - intros i Hi ->. apply Hin, elem_inst_writes. eauto.
Qed.

(** Crash after the header and before it is cleared. *)
Lemma crash_between k r :
  inst_writes l v = k ++ r →
  let m1 := apply_writes (log_writes l v (lh_n l) ++ [(l_start l, new_head l v)] ++ k) m in
  hdr_ok l sz (m1 !!! l_start l) ∧ agrees l sz v (recovered (l_start l) m1).
Proof.
  intros Hkr m1. destruct (put_head_spec (lh_n l) (lh_block l) (v !!! l_start l)) as (_ & Hn & Hb); [done|apply Hk|].
  assert (∀ b, b ∈ k.*1 → b ∈ (inst_writes l v).*1) as Hsub.
  { intros b Hin. rw Hkr fmap_app. set_solver. }
  assert (∀ b, b ∈ (inst_writes l v).*1 → l_start l + l_size l ≤ b < sz) as Hhome.
  { intros b (i & Hi & ->)%elem_inst_writes. by apply Hk. }
  assert (m1 !!! l_start l = new_head l v) as E.
  { rw /m1 !apply_writes_app apply_writes_ne; [|by rw /= lookup_total_insert_eq].
    intros ?%Hsub%Hhome. destruct Hg. lia. }
  assert (∀ i, 0 ≤ i < lh_n l → m1 !!! (l_start l + i + 1) = v !!! nthZ (lh_block l) i) as Elog.
  { intros i Hi. destruct Hg, Hk. rw /m1 !apply_writes_app (apply_writes_ne k); [intros ?%Hsub%Hhome; lia|].
    rw apply_writes_ne; [simpl; rw list_elem_of_singleton; lia|]. by apply log_writes_read. }
  assert (∀ i, 0 ≤ i < lh_n l → head_block (new_head l v) i = nthZ (lh_block l) i) as Hblk.
  { intros i Hi. apply Hb; [done|]. destruct (hk_home _ _ Hk i Hi), Hg. lia. }
  rw E. split.
  { split; rw /new_head Hn; [apply Hk|apply Hk|]. intros i Hi. rw -/(new_head l v) Hblk //. by apply Hk. }
  assert (rec_writes (l_start l) m1 = inst_writes l v ++ [(l_start l, store32 0 0 (new_head l v))]) as Er.
  { rw /rec_writes E {1}/new_head Hn. f_equal. apply list_fmap_ext. intros j i Hi.
    apply list_elem_of_lookup_2, elem_of_seqZ in Hi. rw Hblk ?Elog //; lia. }
  rw /recovered Er. apply new_of_agree.
  - intros b Hin. rw apply_writes_app apply_writes_ne.
    + simpl. rw list_elem_of_singleton. apply Hhome in Hin. destruct Hg. lia.
    + apply apply_writes_eq; [done|]. apply inst_value.
  - intros b Hb' Ho Hin. rw !apply_writes_ne //.
    + rw fmap_app /= elem_of_app list_elem_of_singleton. intros [?|?]; [done|]. destruct Ho, Hg; lia.
    + rw fmap_app /= elem_of_app elem_of_cons elem_log_writes.
      intros [(i & ? & ?)|[?|?%Hsub]]; [destruct Ho, Hg, Hk; lia|destruct Ho, Hg; lia|done].
Qed.

Lemma commit_contents : agrees l sz v (apply_writes (commit_writes l v) m).
Proof.
  assert (∀ b, b ∈ (inst_writes l v).*1 → l_start l + l_size l ≤ b < sz) as Hhome.
  { intros b (i & Hi & ->)%elem_inst_writes. by apply Hk. }
  rw /commit_writes. apply new_of_agree.
  - intros b Hin. rw !apply_writes_app apply_writes_ne.
    + simpl. rw list_elem_of_singleton. apply Hhome in Hin. destruct Hg. lia.
    + apply apply_writes_eq; [done|]. apply inst_value.
  - intros b Hb' Ho Hin. apply apply_writes_ne. rw !fmap_app /= elem_of_app elem_of_cons elem_of_app list_elem_of_singleton elem_log_writes.
    intros [(i & ? & ?)|[?|[?|?]]]; [destruct Ho, Hg, Hk; lia|destruct Ho, Hg; lia|done|destruct Ho, Hg; lia].
Qed.

(** Crash after the header is cleared. *)
Lemma crash_after :
  let m1 := apply_writes (commit_writes l v) m in
  hdr_ok l sz (m1 !!! l_start l) ∧ agrees l sz v (recovered (l_start l) m1).
Proof.
  intros m1. destruct (put_head_spec (lh_n l) (lh_block l) (v !!! l_start l)) as (Hblk & _); [done|apply Hk|].
  assert (head_n (m1 !!! l_start l) = 0) as H0.
  { rw /m1 /commit_writes !app_assoc apply_writes_snoc. by apply head_n_clear. }
  split; [by apply hdr_zero|]. intros b Hb Ho. rw /recovered rec_empty //; [destruct Ho, Hg; lia|].
  by apply commit_contents.
Qed.

(** Every prefix of the writes of a commit recovers to the old or to the new contents. *)
Lemma commit_crash ws1 ws2 :
  commit_writes l v = ws1 ++ ws2 →
  let m1 := apply_writes ws1 m in
  hdr_ok l sz (m1 !!! l_start l) ∧
  (agrees l sz m (recovered (l_start l) m1) ∨ agrees l sz v (recovered (l_start l) m1)).
Proof.
  intros He m1. assert (∀ k, (∃ r, log_writes l v (lh_n l) = k ++ r) → 
    ∀ b, b ∈ k.*1 → l_start l < b < l_start l + l_size l) as Hpre.
  { intros k [r Hr] b Hin. assert (b ∈ (log_writes l v (lh_n l)).*1) as Hb by (rw Hr fmap_app; set_solver).
    apply elem_log_writes in Hb as (i & Hi & ->). destruct Hk. lia. }
  rw /commit_writes in He. apply app_eq_inv in He as [(k & Ha & _)|(k & -> & He)].
  { destruct (crash_before ws1) as [? ?]; [apply Hpre; eauto|auto]. }
  destruct k as [|w k].
  { rw /m1 app_nil_r. destruct (crash_before (log_writes l v (lh_n l))) as [? ?]; [|auto].
    apply Hpre. exists []. by rw app_nil_r. }
  injection He as <- He. destruct ws2 as [|w ws2 _] using rev_ind.
  - rw app_nil_r in He. subst k. destruct crash_after as [? ?]. auto.
  - rw app_assoc in He. apply app_inj_tail in He as [He _].
    destruct (crash_between _ _ He) as [? ?]. auto.
Qed.
End commit_crash.

Lemma hdr_ok_dlog l sz d : hdr_ok l sz d ↔ hdr_ok (dlog (l_start l) (l_size l)) sz d.
Proof. split; intros []; by split. Qed.

Lemma writes_ok_app sz ws1 ws2 : writes_ok sz (ws1 ++ ws2) ↔ writes_ok sz ws1 ∧ writes_ok sz ws2.
Proof. apply Forall_app. Qed.

(** Every write of a commit is a whole block inside the disk. *)
Lemma commit_writes_ok l c a s :
  txn l c a s → writes_ok (disksize (ca_disk a)) (commit_writes l (ca_view a)).
Proof.
  intros [Hs Hg Hk _ _ _ _ _].
  assert (∀ i, 0 ≤ i < lh_n l → blk (ca_view a !!! nthZ (lh_block l) i)) as Hb.
  { intros i Hi. destruct (hk_home _ _ Hk i Hi), Hg. apply (lat_blk _ _ _ _ Hs). lia. }
  assert (blk (new_head l (ca_view a))) as Hh.
  { apply put_head_spec; [|apply Hk]. apply (lat_blk _ _ _ _ Hs). destruct Hg. lia. }
  rw /commit_writes !writes_ok_app. split_and!.
  - apply list.Forall_fmap, list.Forall_forall. intros i Hi%elem_of_seqZ. simpl.
    split; [destruct Hg, Hk; lia|apply Hb; lia].
  - apply list.Forall_singleton. simpl. split; [destruct Hg; lia|done].
  - apply list.Forall_fmap, list.Forall_forall. intros i Hi%elem_of_seqZ. simpl.
    split; [|apply Hb; lia]. destruct (hk_home _ _ Hk i), Hg; lia.
  - apply list.Forall_singleton. simpl. split; [destruct Hg; lia|]. by apply put_head_spec.
Qed.

(** Reading the geometry back from a disk whose super block is intact. *)
Lemma disk_geom_writes start size d d' ws :
  disk_geom start size d → disksize d' = disksize d → memdisk d' = apply_writes ws (memdisk d) →
  1 ∉ ws.*1 → disk_geom start size d'.
Proof.
  intros [] Hsz Hm H1. split; rw ?Hsz ?Hm ?apply_writes_ne //.
Qed.

(** Booting from a disk left by a crash. *)
Lemma boot_crash start size c d d' ws :
  c_locks c = [] → disk_ok d → disk_geom start size d → writes_ok (disksize d) ws → 1 ∉ ws.*1 →
  disksize d' = disksize d → memdisk d' = apply_writes ws (memdisk d) →
  hdr_ok (dlog start size) (disksize d) (memdisk d' !!! start) →
  total boot (cold c d') (λ _ s', bs_disk (ls_bst s') = dwrites (rec_writes start (memdisk d')) d').
Proof.
  intros Hc Hd Hg Hw H1 Hsz Hm Hh. eapply total_mono.
  - apply (boot_lat start size); [done|by eapply disk_ok_writes|by eapply disk_geom_writes|by rw Hsz].
  - cbv beta. intros _ s' (l' & _ & H). by rw -(br_disk _ _ (lat_repr _ _ _ _ H)).
Qed.

Lemma txn_same l c a s b :
  txn l c a s → ca_held a = ∅ → home l (disksize (ca_disk a)) b ∨ 0 ≤ b < l_start l →
  (∀ i, 0 ≤ i < lh_n l → b ≠ nthZ (lh_block l) i) → ca_view a !!! b = memdisk (ca_disk a) !!! b.
Proof.
  intros Ht Hh Hb Hn. destruct (tx_geom _ _ _ _ Ht).
  destruct (lat_sync _ _ _ _ (tx_lat _ _ _ _ Ht) b) as [Hd|?]; [|by rw Hh| |done].
  { destruct Hb as [[? ?]|?]; lia. }
  apply (tx_logs _ _ _ _ Ht) in Hd as (i & Hi & ->). by destruct (Hn i Hi).
Qed.

(** C1: a transaction is atomic with respect to power failures.  The last
    [end_op] returns with every logged block on the disk at its home; and
    whatever prefix of its disk writes reached the disk when the power fails,
    booting from that disk returns, with every block outside the log either
    as it was on the disk before the transaction or as the transaction left
    it in the cache, the same choice for all of them. *)
Theorem end_op_crash_atomic l c a s c0 :
  txn l c a s → l_outstanding l = 1 → ca_held a = ∅ →
  disk_ok (ca_disk a) → disk_geom (l_start l) (l_size l) (ca_disk a) → c_locks c0 = [] →
  let sz := disksize (ca_disk a) in
  total end_op s (λ _ s',
    agrees l sz (ca_view a) (memdisk (bs_disk (ls_bst s'))) ∧
    ∀ d', crash_disk (ca_disk a) (bs_disk (ls_bst s')) d' →
      total boot (cold c0 d') (λ _ s'',
        agrees l sz (memdisk (ca_disk a)) (memdisk (bs_disk (ls_bst s''))) ∨
        agrees l sz (ca_view a) (memdisk (bs_disk (ls_bst s''))))).
Proof.
  intros Ht Ho Hh Hd Hdg Hc0 sz. eapply total_mono; [by apply (end_op_commit l c a s)|]. cbv beta.
  intros _ s' H'. pose proof (br_disk _ _ (lat_repr _ _ _ _ H')) as <-. simpl.
  pose proof Ht as [Hs Hg Hk _ Hlg _ _ He]. pose proof (hk_n _ _ Hk) as Hn.
  assert (blk (ca_view a !!! l_start l)) as Hvs by (apply (lat_blk _ _ _ _ Hs); destruct Hg; lia).
  pose proof (λ b, txn_same _ _ _ _ b Ht Hh) as Hsame.
  set (ws := if lh_n l >? 0 then _ else []) in *.
  assert (1 ∉ ws.*1 ∧ writes_ok sz ws ∧ agrees l sz (ca_view a) (apply_writes ws (memdisk (ca_disk a))) ∧
    ∀ ws1 ws2, ws = ws1 ++ ws2 → let m1 := apply_writes ws1 (memdisk (ca_disk a)) in
      hdr_ok l sz (m1 !!! l_start l) ∧ (agrees l sz (memdisk (ca_disk a)) (recovered (l_start l) m1) ∨
        agrees l sz (ca_view a) (recovered (l_start l) m1))) as (H1 & Hok & Hag & Hcr).
  { rw /ws. destruct (Z.gtb_spec (lh_n l) 0) as [Hpos|Hz].
    - split_and!; [|by eapply commit_writes_ok|by apply commit_contents|intros ? ?; by apply commit_crash].
      rw /commit_writes !fmap_app /= elem_of_app elem_of_cons elem_of_app list_elem_of_singleton elem_log_writes elem_inst_writes.
      intros [(i & ? & ?)|[?|[(i & Hi & He1)|?]]]; destruct Hg; [lia|lia| |lia].
      destruct (hk_home _ _ Hk i Hi). lia.
    - split_and!; [set_solver|by constructor| |].
      + intros b Hb Hob. symmetry. apply Hsame; [rw /home; destruct Hob; [right|left]; lia|]. intros; lia.
      + intros ws1 ws2 [-> ->]%(eq_sym (x:=[]) (y:=ws1 ++ ws2))%app_eq_nil. simpl.
        destruct (crash_before l sz (memdisk (ca_disk a)) Hg Hk He []) as [? ?]; [set_solver|auto]. }
  split; [done|]. intros d' (Hsz & ws1 & ws2 & Hws & Hm)%crash_of_writes.
  destruct (Hcr _ _ Hws) as [Hhdr Hres]. rw Hws in H1, Hok. rw fmap_app not_elem_of_app in H1.
  apply writes_ok_app in Hok as [Hok _].
  eapply total_mono; [apply (boot_crash (l_start l) (l_size l) c0 (ca_disk a) d' ws1); try done; [apply H1|]|].
  - rw Hm. exact (proj1 (hdr_ok_dlog l sz _) Hhdr).
  - cbv beta. intros _ s'' ->. simpl. by rw Hm.
Qed.

(** C8: recovery can itself be interrupted.  Booting from a disk with a usable
    log header returns; a power failure at any point of that boot leaves a
    disk from which booting again gives the same contents outside the log. *)
Theorem recovery_crash_safe start size c c' d :
  c_locks c = [] → c_locks c' = [] → disk_ok d → disk_geom start size d →
  hdr_ok (dlog start size) (disksize d) (memdisk d !!! start) →
  total boot (cold c d) (λ _ s1, ∀ d', crash_disk d (bs_disk (ls_bst s1)) d' →
    total boot (cold c' d') (λ _ s2,
      agrees (dlog start size) (disksize d) (memdisk (bs_disk (ls_bst s1))) (memdisk (bs_disk (ls_bst s2))))).
Proof.
  intros Hc Hc' Hd Hg Hh. pose proof Hg as [_ _ Hlo Hpos Hend Hsz].
  eapply total_mono; [by apply (boot_crash start size c d d []); try done; [constructor|set_solver]|].
  cbv beta. intros _ s1 ->. intros d' (Hz & ws1 & ws2 & Hws & Hm)%crash_of_writes.
  assert (blk (memdisk d !!! start)) as Hblk.
  { destruct (Hd start) as (x & Hx & ?); [lia|]. by rw (lookup_total_correct _ _ _ Hx). }
  assert (writes_ok (disksize d) (rec_writes start (memdisk d))) as Hok.
  { rw /rec_writes writes_ok_app. split.
    - apply list.Forall_fmap, list.Forall_forall. intros i Hi%elem_of_seqZ. simpl.
      destruct (ho_home _ _ _ Hh i) as [? ?]; [lia|]. pose proof (ho_sz _ _ _ Hh). simpl in *.
      split; [lia|]. destruct (Hd (start + i + 1)) as (x & Hx & ?); [lia|]. by rw (lookup_total_correct _ _ _ Hx).
    - apply list.Forall_singleton. simpl. split; [lia|]. by apply blk_store32. }
  assert (1 ∉ (rec_writes start (memdisk d)).*1) as H1.
  { rw elem_rec_writes. intros [?|(i & Hi & He)]; [lia|]. destruct (ho_home _ _ _ Hh i Hi). simpl in *. lia. }
  rw Hws in H1, Hok. rw fmap_app not_elem_of_app in H1. apply writes_ok_app in Hok as [Hok _].
  pose proof (λ b, rec_again start size (disksize d) (memdisk d) ws1 ws2 b Hlo Hpos Hh Hblk Hws) as Hag.
  eapply total_mono; [apply (boot_crash start size c' d d' ws1); try done; [apply H1|]|].
  - rw Hm. apply (Hag 0). left. lia.
  - cbv beta. intros _ s2 ->. intros b Hb Ho. simpl. rw Hm. by apply Hag.
Qed.

(** ** The operations a transaction uses *)

Lemma find_block_spec (k : nat) i blocks b :
  let r := find_block k i blocks b in
  i ≤ r ≤ i + Z.of_nat k ∧ (∀ j, i ≤ j < r → u32 (nthZ blocks j) ≠ b) ∧
  (r < i + Z.of_nat k → u32 (nthZ blocks r) = b).
Proof.
  revert i. induction k as [|k IH]; intros i; simpl; [split_and!; lia|].
  destruct (Z.eqb_spec (u32 (nthZ blocks i)) b); [split_and!; [lia|lia|lia|done]|].
  destruct (IH (i + 1)) as (H1 & H2 & H3). split_and!; [lia|lia| |intros; apply H3; lia].
  intros j Hj. destruct (decide (j = i)) as [->|]; [done|apply H2; lia].
Qed.

(** Recording a block in the header: its slot if it has one, the next one otherwise. *)
Definition log_add (b : Z) (l : log) : log :=
  let i := find_block (Z.to_nat (lh_n l)) 0 (lh_block l) b in
  with_n (if i =? lh_n l then lh_n l + 1 else lh_n l) (with_block (setZ i (i32 b) (lh_block l)) l).

Lemma log_add_spec l sz b D :
  geom l sz → head_ok l sz → log_inj l → logs l D → home l sz b →
  lh_n l < LOGSIZE → lh_n l < l_size l - 1 →
  head_ok (log_add b l) sz ∧ log_inj (log_add b l) ∧ logs (log_add b l) ({[b]} ∪ D).
Proof.
  intros Hg Hk Hi Hl Hb Hn Hs. pose proof Hg as [_ Hg1 Hg2 Hg3 Hg4]. pose proof Hk as [Hk1 Hk2 Hk3 Hk4].
  destruct (find_block_spec (Z.to_nat (lh_n l)) 0 (lh_block l) b) as (H1 & H2 & H3).
  rw /log_add. set (i := find_block _ _ _ _) in *. rw Z2Nat.id in H1, H3; [lia|]. simpl in H1, H3.
  assert (lenZ (lh_block l) = 30) as Hlen by (rw Hk3; done). rw /LOGSIZE in Hn, Hk1.
  assert (i32 b = b) as Eb by (destruct Hb; apply i32_small; lia).
  assert (∀ j, 0 ≤ j < lh_n l → u32 (nthZ (lh_block l) j) = nthZ (lh_block l) j) as Hu.
  { intros j Hj. destruct (Hk4 j Hj). apply u32_small. lia. }
  set (n' := if i =? lh_n l then lh_n l + 1 else lh_n l).
  assert (∀ j, 0 ≤ j < n' → nthZ (setZ i b (lh_block l)) j = if decide (j = i) then b else nthZ (lh_block l) j) as Hnth.
  { intros j Hj. case_decide; [subst; apply nthZ_setZ_eq; lia|apply nthZ_setZ_ne; lia]. }
  assert (0 ≤ n' ≤ lh_n l + 1 ∧ (∀ j, 0 ≤ j < n' → j = i ∨ j ≠ i ∧ j < lh_n l) ∧ i < n' ∧ lh_n l ≤ n') as (Hn1 & Hn2 & Hn3 & Hn4).
  { rw /n'. destruct (Z.eqb_spec i (lh_n l)); split_and!; lia. }
  rw Eb. split_and!.
  - split; simpl; [rw /LOGSIZE; lia|lia|by rw length_setZ|]. intros j Hj. rw Hnth //.
    case_decide; [done|]. apply Hk4. destruct (Hn2 j Hj); lia.
  - intros j k. simpl. intros Hj Hk'. rw !Hnth //. pose proof (Hn2 j Hj). pose proof (Hn2 k Hk').
    repeat case_decide; subst; try done.
    + intros He. destruct (decide (k < i)); [destruct (H2 k); [lia|rw Hu; [lia|done]]|].
      assert (i < lh_n l) by lia. rw -(H3 ltac:(lia)) Hu in He; [lia|]. apply Hi in He; lia.
    + intros He. destruct (decide (j < i)); [destruct (H2 j); [lia|rw Hu; [lia|done]]|].
      assert (i < lh_n l) by lia. rw -(H3 ltac:(lia)) Hu in He; [lia|]. apply Hi in He; lia.
    + intros He. apply Hi; lia || done.
  - intros x. rw elem_of_union elem_of_singleton (Hl x). simpl. split.
    + intros [->|(j & Hj & ->)].
      * exists i. split; [lia|]. rw Hnth; [lia|]. by rw decide_True.
      * exists j. split; [lia|]. rw Hnth; [lia|]. case_decide; [subst j|done].
        rw -Hu //. apply H3. lia.
    + intros (j & Hj & ->). rw Hnth //. case_decide; [by left|right]. exists j. destruct (Hn2 j Hj); split; lia || done.
Qed.

Lemma log_write_run l c a s i b :
  lat l c a s → ca_held a !! i = Some b → 0 ≤ lh_n l →
  lh_n l < LOGSIZE → lh_n l < l_size l - 1 → 1 ≤ l_outstanding l →
  total (log_write i) s (λ _, lat (log_add b l) c (a_pin b a)).
Proof.
  intros Hs Hh Hn0 Hn Hsz Ho. pose proof (lat_locks _ _ _ _ Hs) as Hl. pose proof (lat_log _ _ _ _ Hs) as Hlog.
  pose proof (bdata_ok _ _ _ _ (lat_repr _ _ _ _ Hs) Hh) as (_ & _ & Hb).
  rw /log_write. apply total_gets_bind. rw Hlog.
  destruct (Z.geb_spec (lh_n l) LOGSIZE); [lia|]. destruct (Z.geb_spec (lh_n l) (l_size l - 1)); [lia|].
  destruct (Z.ltb_spec (l_outstanding l) 1); [lia|]. cbn [orb].
  rw /total (run_bind _ _ _ _ _ (acquire_lk LLog s Hl)) run_gets.
  change (nb i (ls_bst (lk LLog s))) with (nb i (ls_bst s)). rw Hb run_modify.
  change (set_log ?f (lk LLog s)) with (lk LLog (set_log f s)).
  set (s1 := set_log _ s).
  assert (∃ s2, (∀ k, when (find_block (Z.to_nat (lh_n l)) 0 (lh_block l) b =? lh_n l)
      (modify (set_log (λ l, with_n (lh_n l + 1) l))) (lk k s1) = Ret tt (lk k s2)) ∧ lat (log_add b l) c a s2) as (s2 & Hw & H2).
  { pose proof (lat_set_log _ _ _ _ (λ l0, with_block (setZ (find_block (Z.to_nat (lh_n l)) 0 (lh_block l) b) (i32 b) (lh_block l0)) l0) Hs) as Hs1.
    rw -/s1 in Hs1. rw /log_add. cbv zeta beta in Hs1 |- *. destruct (Z.eqb_spec (find_block (Z.to_nat (lh_n l)) 0 (lh_block l) b) (lh_n l)).
    - exists (set_log (λ l, with_n (lh_n l + 1) l) s1). split; [done|]. by apply (lat_set_log _ _ _ _ (λ l, with_n (lh_n l + 1) l)) in Hs1.
    - exists s1. split; [done|]. rw (_ : with_n (lh_n l) _ = with_block (setZ (find_block (Z.to_nat (lh_n l)) 0 (lh_block l) b) (i32 b) (lh_block l)) l) //. }
  rw (run_bind _ _ _ _ _ (Hw LLog)).
  destruct (lat_pin _ _ _ _ H2 i b Hh) as ([] & s3 & Hp & H3).
  assert ((lift (pin i) : M lst unit) (lk LLog s2) = Ret tt (lk LLog s3)) as Hp'.
  { injection Hp as <-. reflexivity. }
  rw (run_bind _ _ _ _ _ Hp') release_lk; [apply (lat_locks _ _ _ _ H3)|]. by eexists _, _.
Qed.

Lemma log_write_txn l c a s i b :
  txn l c a s → ca_held a !! i = Some b → home l (disksize (ca_disk a)) b →
  lh_n l < l_size l - 1 → 1 ≤ l_outstanding l →
  total (log_write i) s (λ _, txn (log_add b l) c (a_pin b a)).
Proof.
  intros [Hs Hg Hk Hi Hlg Hr Hcom He] Hh Hb Hn Ho. assert (lh_n l < LOGSIZE) as Hn'.
  { rw /LOGSIZE. rw /NBUF in Hr. lia. }
  eapply total_mono; [apply (log_write_run _ _ _ _ i b Hs); try done; apply Hk|].
  cbv beta. intros _ s' H'. destruct (log_add_spec l _ b _ Hg Hk Hi Hlg Hb Hn' Hn) as (H1 & H2 & H3).
  split; [done|by destruct Hg|done..].
Qed.

Lemma lat_self l c a s : lat l c a s → lat l (bs_core (ls_bst s)) a s.
Proof. intros [? ? ?]. by split. Qed.

Lemma txn_self l c a s : txn l c a s → txn l (bs_core (ls_bst s)) a s.
Proof. intros [? ? ? ? ? ? ? ?]. split; try done. by eapply lat_self. Qed.

(** [begin_op] when the log has room for one more operation. *)
Lemma begin_op_run l c a s :
  lat l c a s → l_committing l = 0 → lh_n l + (l_outstanding l + 1) * MAXOPBLOCKS ≤ LOGSIZE →
  total begin_op s (λ _, lat (with_outstanding (l_outstanding l + 1) l) c a).
Proof.
  intros Hs Hc Hn. pose proof (lat_locks _ _ _ _ Hs) as Hl. pose proof (lat_log _ _ _ _ Hs) as Hlog.
  rw /total /begin_op (run_bind _ _ _ _ _ (acquire_lk LLog s Hl)) /begin_op_loop run_gets /= Hlog Hc /=.
  destruct (Z.gtb_spec (lh_n l + (l_outstanding l + 1) * MAXOPBLOCKS) LOGSIZE); [lia|]. rw run_modify.
  change (set_log ?f (lk LLog s)) with (lk LLog (set_log f s)). rw release_lk; [done|].
  eexists _, _. split; [done|]. by apply (lat_set_log _ _ _ _ (λ l, with_outstanding (l_outstanding l + 1) l)).
Qed.

(** There are as many pinned blocks as header slots. *)
Lemma logs_count l D : logs l D → log_inj l → 0 ≤ lh_n l → Z.of_nat (size D) = lh_n l.
Proof.
  intros HD Hi Hn. rw (_ : D = list_to_set (nthZ (lh_block l) <$> seqZ 0 (lh_n l))).
  - apply leibniz_equiv. intros b. rw (HD b) elem_of_list_to_set list_elem_of_fmap.
    split; intros (i & H1 & H2); exists i; rw elem_of_seqZ in H2 |- *; split; try done; try lia.
  - rw size_list_to_set; [|rw length_fmap length_seqZ; lia].
    apply NoDup_fmap_2_strong; [|apply NoDup_seqZ].
    intros i j Hi'%elem_of_seqZ Hj%elem_of_seqZ. apply Hi; lia.
Qed.

(** What a commit leaves behind. *)
Lemma commit_facts l c a s :
  txn l c a s → let ws := if lh_n l >? 0 then commit_writes l (ca_view a) else [] in
  head_n (memdisk (ca_disk (a_writes ws a)) !!! l_start l) = 0 ∧
  ca_dirty (a_writes ws a) = ∅ ∧
  (∀ b, b = 1 ∨ l_start l + l_size l ≤ b → ca_view (a_writes ws a) !!! b = ca_view a !!! b).
Proof.
  intros [Hs Hg Hk Hi Hlg Hr Hcom He] ws. pose proof (hk_n _ _ Hk). rw /ws. destruct (Z.gtb_spec (lh_n l) 0).
  - destruct (put_head_spec (lh_n l) (lh_block l) (ca_view a !!! l_start l)) as (Hblk & _);
      [apply (lat_blk _ _ _ _ Hs); destruct Hg; lia|apply Hk|].
    assert (∀ b, b ∈ (inst_writes l (ca_view a)).*1 → l_start l + l_size l ≤ b) as Hhome.
    { intros b (i & Hib & ->)%elem_inst_writes. by apply Hk. }
    split_and!; simpl.
    + rw /commit_writes !app_assoc apply_writes_snoc. by apply head_n_clear.
    + apply leibniz_equiv. intros b. rw elem_of_difference elem_of_list_to_set (Hlg b) /commit_writes.
      rw !fmap_app /= elem_of_app elem_of_cons elem_of_app elem_inst_writes. split; [|set_solver]. naive_solver.
    + intros b Hb. assert (l_start l ≠ b) by (destruct Hg; lia).
      rw /commit_writes !apply_writes_app /= lookup_total_insert_ne //.
      assert (apply_writes (log_writes l (ca_view a) (lh_n l)) (ca_view a) !!! b = ca_view a !!! b) as E.
      { apply apply_writes_ne. rw elem_log_writes. intros (i & ? & ?). destruct Hg, Hk. lia. }
      destruct (decide (b ∈ (inst_writes l (ca_view a)).*1)).
      * apply apply_writes_eq; [done|]. apply inst_value.
      * rw apply_writes_ne // lookup_total_insert_ne //.
  - rw a_writes_nil. split_and!; [done| |done]. apply leibniz_equiv. intros b. rw (Hlg b).
    split; [intros (i & ? & _); lia|set_solver].
Qed.
