(* ===== verification/LogStore.v ===== *)
(** * log.c over bio.c implements the block layer of the file system *)

From S2P Require Import Prelude Layout Kernel Store Bio Log.

(** The abstract store a cache and a log represent. *)
Record st_of (l : log) (a : cache) (st : store) : Prop := {
  so_view : st_view st = ca_view a;
  so_disk : st_disk st = memdisk (ca_disk a);
  so_held : ca_held a = fst <$> st_held st;
  so_clean i b : st_held st !! i = Some (b, false) →
    b ∈ ca_dirty a ∨ ca_view a !!! b = memdisk (ca_disk a) !!! b;
  so_log : st_log st = ca_dirty a;
  so_size : st_size st = disksize (ca_disk a);
  so_base : st_base st = l_start l + l_size l;
  so_cap : st_cap st = l_size l - 1;
}.

(** This process's operation is the one the log knows of; or there is none. *)
Definition log_txn (s : lst) (st : store) : Prop :=
  ∃ l a, txn l (bs_core (ls_bst s)) a s ∧ l_outstanding l = 1 ∧ st_of l a st.
Definition log_idle (s : lst) (st : store) : Prop :=
  ∃ l a, txn l (bs_core (ls_bst s)) a s ∧ l_outstanding l = 0 ∧ lh_n l = 0 ∧ ca_held a = ∅ ∧ st_of l a st.

Section laws.
Implicit Types (s : lst) (st : store).

(** The shape of the proofs: run the cache's law, and re-establish [txn]. *)
Lemma txn_lat l l' c a a' s s' :
  txn l c a s → lat l' c a' s' → ca_dirty a' = ca_dirty a → ca_disk a' = ca_disk a → l' = l →
  txn l (bs_core (ls_bst s')) a' s'.
Proof.
  intros [Hs Hg Hk Hi Hlg Hr Hcom He] H' Ed Ek ->. split; rw ?Ed ?Ek //. by eapply lat_self.
Qed.

Lemma held_lookup l a st i b f :
  st_of l a st → st_held st !! i = Some (b, f) → ca_held a !! i = Some b.
Proof. intros Ho Hi. by rw (so_held _ _ _ Ho) lookup_fmap Hi. Qed.

Lemma log_txn_locks s st : log_txn s st → c_locks (bs_core (ls_bst s)) = [].
Proof. intros (l & a & Ht & _). by eapply lat_locks, tx_lat. Qed.

Lemma log_txn_core s st c : log_txn s st → c_locks c = [] → log_txn (lset c s) st.
Proof.
  intros (l & a & [Hs Hg Hk Hi Hlg Hr Hcom He] & Ho & Hst) Hc. exists l, a. split; [|done].
  split; [|done..]. split; [by destruct Hs| |done]. apply (brepr_core (ls_bst s)); [done|by destruct Hs].
Qed.

Lemma log_txn_cap s st : log_txn s st → st_cap st < Z.of_nat NBUF.
Proof.
  intros (l & a & Ht & _ & Hst). rw (so_cap _ _ _ Hst). pose proof (tx_room _ _ _ _ Ht). lia.
Qed.

Lemma log_txn_log s st : log_txn s st → Z.of_nat (size (st_log st)) ≤ st_cap st.
Proof.
  intros (l & a & Ht & _ & Hst). pose proof (tx_head _ _ _ _ Ht) as Hk.
  rw (so_cap _ _ _ Hst) (so_log _ _ _ Hst) (logs_count l); [apply Ht|apply Ht|apply Hk|apply Hk].
Qed.

Lemma log_txn_blk s st b : log_txn s st → 0 ≤ b < st_size st → blk (st_view st !!! b).
Proof.
  intros (l & a & Ht & _ & Hst) Hb. rw (so_view _ _ _ Hst). rw (so_size _ _ _ Hst) in Hb.
  by eapply lat_blk; [apply (tx_lat _ _ _ _ Ht)|].
Qed.

Lemma log_txn_data s st i b f :
  log_txn s st → st_held st !! i = Some (b, f) → bdata i (ls_bst s) = st_view st !!! b.
Proof.
  intros (l & a & Ht & _ & Hst) Hi. rw (so_view _ _ _ Hst).
  eapply lat_data; [apply (tx_lat _ _ _ _ Ht)|by eapply held_lookup].
Qed.

Lemma log_bread_spec s st b :
  log_txn s st → 0 ≤ b < st_size st → unheld b st → b ∈ st_log st ∨ st_room st →
  total (lift (bread 1 b)) s (λ i s',
    st_held st !! i = None ∧ log_txn s' (st_hold i b st) ∧ core_le (bs_core (ls_bst s)) (bs_core (ls_bst s'))).
Proof.
  intros (l & a & Ht & Ho & Hst) Hb Hu Hr. pose proof (tx_lat _ _ _ _ Ht) as Hs.
  pose proof Hst as [E1 E2 E3 E4 E5 E6 E7 E8].
  assert (∀ i, ca_held a !! i ≠ Some b) as Hnh.
  { intros i. rw E3 lookup_fmap. destruct (st_held st !! i) as [[b' f]|] eqn:E; [|done]. simpl.
    intros [= ->]. by apply (Hu i f). }
  eapply total_mono; [apply (lat_bread _ _ _ _ Hs); [by rw -E6|done|]|].
  { rw -E5. destruct Hr as [?|Hr]; [by left|right]. rw /ca_room E3 map_size_fmap -E5. exact Hr. }
  cbv beta. intros i s' [Hi H']. split_and!.
  - rw E3 lookup_fmap in Hi. by destruct (st_held st !! i).
  - exists l, (a_hold i b a). split_and!; [by eapply txn_lat|done|].
    split; simpl; try done; [by rw E3 fmap_insert|].
    intros j b' [[<- [= <-]]|[? ?]]%lookup_insert_Some; [|by eapply E4].
    apply (lat_sync _ _ _ _ Hs); [by rw -E6|done].
  - apply (lat_core _ _ _ _ H').
Qed.

Lemma log_set_bdata_spec s st i b f d :
  log_txn s st → st_held st !! i = Some (b, f) → blk d →
  total (lift (set_bdata i d)) s (λ _ s',
    log_txn s' (st_put i b d st) ∧ core_le (bs_core (ls_bst s)) (bs_core (ls_bst s'))).
Proof.
  intros (l & a & Ht & Ho & Hst) Hi Hd. pose proof (tx_lat _ _ _ _ Ht) as Hs.
  pose proof (held_lookup _ _ _ _ _ _ Hst Hi) as Hh. pose proof Hst as [E1 E2 E3 E4 E5 E6 E7 E8].
  eapply total_mono; [by apply (lat_set_bdata _ _ _ _ Hs i b)|].
  cbv beta. intros _ s' H'. split; [|apply (lat_core _ _ _ _ H')].
  exists l, (a_put b d a). split_and!; [by eapply txn_lat|done|]. split; simpl; try done.
  - by rw E1.
  - rw fmap_insert E3 /=. symmetry. apply insert_id. by rw -E3.
  - intros j b' [[_ ?]|[Hne Hj]]%lookup_insert_Some; [congruence|].
    destruct (E4 _ _ Hj) as [?|He]; [by left|right]. rw lookup_total_insert_ne //. intros <-.
    pose proof (held_lookup _ _ _ _ _ _ Hst Hj) as Hj'. apply Hne.
    apply (br_held _ _ (lat_repr _ _ _ _ Hs)) in Hh as (? & _ & _ & Hf & Hb), Hj' as (? & _ & _ & Hf' & Hb').
    pose proof (br_wf _ _ (lat_repr _ _ _ _ Hs)) as Hw. apply (bw_uniq _ Hw); [done|done| | |congruence].
    + by apply Hw.
    + transitivity 1; [by apply Hw|symmetry; by apply Hw].
Qed.

Lemma log_log_write_spec s st i b f :
  log_txn s st → st_held st !! i = Some (b, f) → st_base st ≤ b < st_size st →
  Z.of_nat (size (st_log st)) < st_cap st →
  total (log_write i) s (λ _ s',
    log_txn s' (st_logw i b st) ∧ core_le (bs_core (ls_bst s)) (bs_core (ls_bst s'))).
Proof.
  intros (l & a & Ht & Ho & Hst) Hi Hb Hc. pose proof (tx_lat _ _ _ _ Ht) as Hs.
  pose proof (held_lookup _ _ _ _ _ _ Hst Hi) as Hh. pose proof Hst as [E1 E2 E3 E4 E5 E6 E7 E8].
  rw E7 E6 in Hb. rw E5 E8 (logs_count l (ca_dirty a)) in Hc; [apply Ht..|].
  eapply total_mono; [apply (log_write_txn _ _ _ _ i b Ht); [done|done|lia|lia]|].
  cbv beta. intros _ s' H'. split; [|apply (lat_core _ _ _ _ (tx_lat _ _ _ _ H'))].
  exists (log_add b l), (a_pin b a). split_and!; [by eapply txn_self|done|]. split; simpl; try done.
  - rw fmap_insert E3 /=. symmetry. apply insert_id. by rw -E3.
  - intros j b' [[_ [= <-]]|[Hne Hj]]%lookup_insert_Some; [left; set_solver|].
    destruct (E4 _ _ Hj) as [?|He]; [left; set_solver|by right].
  - by rw E5.
Qed.

Lemma log_brelse_spec s st i b :
  log_txn s st → st_held st !! i = Some (b, false) →
  total (lift (brelse i)) s (λ _ s',
    log_txn s' (st_rel i st) ∧ core_le (bs_core (ls_bst s)) (bs_core (ls_bst s'))).
Proof.
  intros (l & a & Ht & Ho & Hst) Hi. pose proof (tx_lat _ _ _ _ Ht) as Hs.
  pose proof (held_lookup _ _ _ _ _ _ Hst Hi) as Hh. pose proof Hst as [E1 E2 E3 E4 E5 E6 E7 E8].
  eapply total_mono; [apply (lat_brelse _ _ _ _ Hs i b); [done|by eapply E4]|].
  cbv beta. intros _ s' H'. split; [|apply (lat_core _ _ _ _ H')].
  exists l, (a_unhold i a). split_and!; [by eapply txn_lat|done|]. split; simpl; try done.
  - by rw fmap_delete E3.
  - intros j b' [? ?]%lookup_delete_Some. by eapply E4.
Qed.

Lemma log_begin_op_spec s st :
  log_idle s st →
  total begin_op s (λ _ s', log_txn s' st ∧ st_clean st ∧ core_le (bs_core (ls_bst s)) (bs_core (ls_bst s'))).
Proof.
  intros (l & a & Ht & Ho & Hn & Hh & Hst). pose proof Ht as [Hs Hg Hk Hi Hlg Hr Hcom He].
  pose proof Hst as [E1 E2 E3 E4 E5 E6 E7 E8].
  eapply total_mono; [apply (begin_op_run _ _ _ _ Hs Hcom); rw Ho Hn; done|].
  cbv beta. intros _ s' H'. split_and!; [| |apply (lat_core _ _ _ _ H')].
  - exists (with_outstanding 1 l), a. split_and!; [|done|by destruct Hst].
    apply txn_self with (bs_core (ls_bst s)). rw Ho in H'.
    split; [exact H'|by destruct Hg|by destruct Hk|done..].
  - assert (st_held st = ∅) as Eh by (rw Hh in E3; by apply (fmap_empty_inv fst)).
    assert (ca_dirty a = ∅) as Ed.
    { apply leibniz_equiv. intros b. rw (Hlg b) Hn. split; [intros (i & ? & _); lia|set_solver]. }
    split_and!; [done|by rw E5|]. rw E1 E2 E6. intros b Hb.
    destruct (lat_sync _ _ _ _ Hs b Hb) as [?|?]; [by rw Hh|set_solver|done].
Qed.

Lemma log_end_op_spec s st :
  log_txn s st → st_held st = ∅ →
  total end_op s (λ _ s', core_le (bs_core (ls_bst s)) (bs_core (ls_bst s')) ∧ ∃ st',
    log_idle s' st' ∧ st_size st' = st_size st ∧ st_base st' = st_base st ∧ st_cap st' = st_cap st ∧
    ∀ b, 0 ≤ b < st_size st → b = 1 ∨ st_base st ≤ b → st_view st' !!! b = st_view st !!! b).
Proof.
  intros (l & a & Ht & Ho & Hst) Hh. pose proof Hst as [E1 E2 E3 E4 E5 E6 E7 E8].
  assert (ca_held a = ∅) as Hh' by (by rw E3 Hh fmap_empty).
  eapply total_mono; [by apply (end_op_commit _ _ _ _ Ht)|]. cbv beta. intros _ s' H'.
  split; [apply (lat_core _ _ _ _ H')|].
  set (ws := if lh_n l >? 0 then _ else []) in H'.
  destruct (commit_facts l _ a s Ht) as (H1 & H2 & H3). rw -/ws in H1, H2, H3.
  set (l' := with_outstanding 0 (with_n 0 l)) in H'. pose proof Ht as [Hs Hg Hk Hi Hlg Hr Hcom He].
  exists (mkStore (ca_view (a_writes ws a)) (memdisk (ca_disk (a_writes ws a))) ∅ ∅ (st_size st) (st_base st) (st_cap st)).
  split_and!; [|done|done|done|].
  - exists l', (a_writes ws a). split_and!; [|done|done|done|].
    + apply txn_self with (bs_core (ls_bst s)). split; [done|by destruct Hg| | | |done|done|done].
      * pose proof (hk_sz _ _ Hk). split; simpl; [by rw /LOGSIZE| |apply Hk|lia]. destruct Hg. lia.
      * intros i j; simpl; lia.
      * intros b. rw H2 /=. split; [set_solver|]. intros (i & ? & _). lia.
    + split; rw ?H2 //=.
  - intros b Hb Hor. simpl. rw E1. apply H3. rw -E7. destruct Hg. lia.
Qed.

(** The store after a boot. *)
Definition boot_store (start size : Z) (d : disk) : store :=
  let m := recovered start (memdisk d) in mkStore m m ∅ ∅ (disksize d) (start + size) (size - 1).

Lemma boot_idle start size c d :
  c_locks c = [] → disk_ok d → disk_geom start size d → size ≤ Z.of_nat NBUF →
  hdr_ok (dlog start size) (disksize d) (memdisk d !!! start) →
  total boot (cold c d) (λ _ s', log_idle s' (boot_store start size d) ∧ core_le c (bs_core (ls_bst s'))).
Proof.
  intros Hc Hd Hg Hsz Hh. eapply total_mono; [by apply (boot_lat start size)|]. cbv beta.
  intros _ s' (l & [F1 F2 F3 F4 F5 F6 F7] & H). pose proof Hg as [_ _ G1 G2 G3 G4].
  set (a := a_writes _ _) in H. assert (ca_dirty a = ∅) as Ed by (apply leibniz_equiv; rw /a /=; set_solver).
  split; [|by destruct H]. exists l, a. split_and!; [|done|done|done|].
  - split; [by eapply lat_self| | | | |by rw F3|done|].
    + by split; rw ?F2 ?F3.
    + split; rw ?F1 ?F3 //; lia.
    + intros i j. lia.
    + intros b. rw Ed. split; [set_solver|]. intros (i & ? & _). lia.
    + rw F2 /a /= /rec_writes apply_writes_snoc. apply head_n_clear.
      destruct (Hd start) as (x & Hx & ?); [lia|]. by rw (lookup_total_correct _ _ _ Hx).
  - split; rw ?Ed ?F2 ?F3 //.
Qed.

(** C19: starting the machine on a disk with a usable log header establishes the
    block store the file system is verified against, idle, showing the disk
    with the committed transaction of the log installed. *)
Theorem boot_establishes_store start size c d :
  c_locks c = [] → disk_ok d → disk_geom start size d → size ≤ Z.of_nat NBUF →
  hdr_ok (dlog start size) (disksize d) (memdisk d !!! start) →
  total boot (cold c d) (λ _ s', log_idle s' (boot_store start size d) ∧ core_le c (bs_core (ls_bst s'))).
Proof. apply boot_idle. Qed.
End laws.

#[global] Instance lst_store : Store.BlockStore lst := {|
  Store.bread := λ dev b, lift (bread dev b);
  Store.bdata := λ i s, bdata i (ls_bst s);
  Store.set_bdata := λ i d, lift (set_bdata i d);
  Store.log_write := log_write;
  Store.brelse := λ i, lift (brelse i);
  Store.begin_op := begin_op;
  Store.end_op := end_op;
  Store.in_txn := log_txn;
  Store.idle := log_idle;
  Store.in_txn_locks := log_txn_locks;
  Store.in_txn_core := log_txn_core;
  Store.in_txn_cap := log_txn_cap;
  Store.in_txn_log := log_txn_log;
  Store.in_txn_blk := log_txn_blk;
  Store.in_txn_data := log_txn_data;
  Store.bdata_core := λ s i c, eq_refl;
  Store.bread_spec := log_bread_spec;
  Store.set_bdata_spec := log_set_bdata_spec;
  Store.log_write_spec := log_log_write_spec;
  Store.brelse_spec := log_brelse_spec;
  Store.begin_op_spec := log_begin_op_spec;
  Store.end_op_spec := log_end_op_spec;
|}.
