(* ===== verification/FsImage.v ===== *)
(** * A small file system

    A disk of 40 blocks with a log of 10, a root directory and a file, as mkfs
    lays them out; booting from it and starting a transaction gives a state in
    which the theorems on the file system apply. *)

From S2P Require Import Prelude CString Layout Kernel Store Fs FsAlloc FsInode FsMap FsFile FsRw Bio Log LogStore.

Definition sb0 : superblock := mkSb 40 25 16 10 2 12 14.

Definition zeros : list Z := replicate 512 0.
Definition sb_block : list Z :=
  store32 24 14 (store32 20 12 (store32 16 2 (store32 12 10 (store32 8 16 (store32 4 25 (store32 0 40 zeros)))))).

(** The inodes of the root directory and of a file of 5 bytes. *)
Definition root_dinode : dinode := mkDinode 1 0 0 1 48 (15 :: replicate 12 0).
Definition file_dinode : dinode := mkDinode 2 0 0 1 5 (16 :: replicate 12 0).
Definition inode_block : list Z := put_dinode 2 file_dinode (put_dinode 1 root_dinode zeros).
(** Blocks 0 to 16 are in use. *)
Definition bitmap_block : list Z := [255; 255; 1] ++ replicate 509 0.
(** Entries for [.], [..] and [f]. *)
Definition dot_name (n : list Z) : list Z := n ++ replicate (14 - length n) 0.
Definition root_block : list Z :=
  splice 0 (mk_dirent 1 (dot_name [46]) ++ mk_dirent 1 (dot_name [46; 46]) ++ mk_dirent 2 (dot_name [102])) zeros.
Definition file_block : list Z := splice 0 [104; 101; 108; 108; 111] zeros.

Definition block0 (b : Z) : list Z :=
  if b =? 1 then sb_block else if b =? 12 then inode_block else if b =? 14 then bitmap_block
  else if b =? 15 then root_block else if b =? 16 then file_block else zeros.
Definition disk0 : disk := mkDisk 40 (list_to_map ((λ b, (b, block0 b)) <$> seqZ 0 40)) [].
Definition core0 : core := mkCore [] [set_state RUNNING proc0] (Some 0%nat) 1 None.
Definition st0 : store := boot_store 2 10 disk0.

(** The file, in the cache and locked. *)
Definition file_inode : inode := from_dinode file_dinode (mkInode 1 2 1 (mkSleeplock 1 0) 2 0 0 0 0 0 []).
(** The root directory, in the same state. *)
Definition root_inode : inode := from_dinode root_dinode (mkInode 1 1 1 (mkSleeplock 1 0) 2 0 0 0 0 0 []).
Definition ino0 : list inode := file_inode :: root_inode :: replicate 48 inode0.

(** Bounded quantifiers by evaluation. *)
Lemma forall_range (P : Z → Prop) `{!∀ x, Decision (P x)} (lo n : Z) :
  forallb (λ x, bool_decide (P x)) (seqZ lo n) = true → ∀ x, lo ≤ x < lo + n → P x.
Proof.
  intros Hf x Hx. rw forallb_forall in Hf. apply (bool_decide_eq_true (P x)), Hf, list_elem_of_In, elem_of_seqZ. lia.
Qed.

#[global] Instance blk_dec d : Decision (blk d).
Proof. rw /blk /byte. apply _. Defined.
#[global] Instance data_block_dec sb b : Decision (data_block sb b).
Proof. rw /data_block. apply _. Defined.

Lemma disk0_ok : disk_ok disk0.
Proof.
  intros b Hb. exists (block0 b). assert (memdisk disk0 !! b = Some (block0 b) ∧ blk (block0 b)) as [? ?]; [|done].
  revert b Hb. apply (forall_range (λ b, memdisk disk0 !! b = Some (block0 b) ∧ blk (block0 b)) 0 40). by vm_compute.
Qed.

Lemma disk0_geom : disk_geom 2 10 disk0.
Proof. split; by vm_compute. Qed.

Lemma disk0_hdr : hdr_ok (dlog 2 10) (disksize disk0) (memdisk disk0 !!! 2).
Proof.
  assert (head_n (memdisk disk0 !!! 2) = 0) as E by by vm_compute. split; rw E; [done|done|]. intros i Hi. lia.
Qed.

Lemma image_fat : ∃ s : fst_state lst, fat st0 sb0 ino0 core0 s.
Proof.
  destruct (boot_idle 2 10 core0 disk0) as (_ & s1 & _ & H1 & Hc1); [done|apply disk0_ok|apply disk0_geom|done|apply disk0_hdr|].
  destruct (log_begin_op_spec s1 _ H1) as (_ & s2 & _ & H2 & _ & Hc2).
  exists (mkFst s2 sb0 ino0). split; [exact H2|done|done|]. etrans; [exact Hc1|exact Hc2].
Qed.

(** The contents of a block of the image. *)
Lemma view0 b : st_view st0 !!! b = if b =? 2 then zeros else memdisk disk0 !!! b.
Proof.
  assert (st_view st0 = <[2 := zeros]> (memdisk disk0)) as -> by by vm_compute.
  destruct (Z.eqb_spec b 2) as [->|]; [apply lookup_total_insert_eq|by rw lookup_total_insert_ne].
Qed.

Lemma image_geo : fsgeo sb0 st0.
Proof. split; by vm_compute. Qed.

Lemma image_inuse b : 0 ≤ b < 40 → inuse sb0 st0 b ↔ b ≤ 16.
Proof.
  revert b. apply (forall_range (λ b, inuse sb0 st0 b ↔ b ≤ 16) 0 40). by vm_compute.
Qed.

Lemma image_meta : meta_used sb0 st0.
Proof. intros b Hb. apply image_inuse; simpl in Hb; lia. Qed.

Lemma image_inv : fsinv sb0 st0.
Proof. split; [apply image_geo|apply image_meta|done]. Qed.

(** An inode of one block. *)
Definition one_block (x : inode) (b : Z) : Prop :=
  i_addrs x = b :: replicate 12 0 ∧ 15 ≤ b ≤ 16 ∧ 0 ≤ i_size x ≤ 512 ∧ i_type x ≠ T_DEV.

Lemma file_one : one_block file_inode 16.
Proof. split_and!; done. Qed.
Lemma root_one : one_block root_inode 15.
Proof. split_and!; done. Qed.

Lemma one_iaddr x b k : one_block x b → 0 ≤ k → iaddr st0 x k = if k =? 0 then b else 0.
Proof.
  intros (E & _) Hk. rw /iaddr. destruct (Z.ltb_spec k NDIRECT) as [H|H].
  - rw E /nthZ. rw /NDIRECT in H. destruct (Z.eqb_spec k 0) as [->|]; [done|].
    rw (_ : Z.to_nat k = S (Z.to_nat (k - 1))); [lia|]. cbn [nth]. by apply nth_replicate0.
  - rw /ind E. destruct (Z.eqb_spec k 0); [rw /NDIRECT in H; lia|done].
Qed.

Lemma one_iwf x b : one_block x b → i_dev x = 1 → iwf sb0 st0 x.
Proof.
  intros Hx Hd. pose proof Hx as (E & Hb & _). split; [done|by rw E|by left; rw /ind E| | |].
  - intros k Hk. rw (one_iaddr x b); [done|lia|]. destruct (k =? 0); [right|by left]. split; [rw /data_block; simpl; lia|]. apply image_inuse; lia.
  - intros k j Hk Hj. rw !(one_iaddr x b); [done|lia|done|lia|]. destruct (Z.eqb_spec k 0), (Z.eqb_spec j 0); lia.
  - intros k Hk. rw (one_iaddr x b); [done|lia|]. rw /ind E. destruct (k =? 0); intros Hne; exact Hne.
Qed.

Lemma one_full x b : one_block x b → full st0 x.
Proof.
  intros Hx. pose proof Hx as (E & Hb & Hs & Ht). split; [done|rw MAXFILE_val /BSIZE; lia|].
  intros j Hj. rw (one_iaddr x b); [done|rw /BSIZE; lia|]. rw (_ : j / BSIZE = 0); [rw /BSIZE; lia|]. simpl. lia.
Qed.

Lemma image_iwf : iwf sb0 st0 file_inode.
Proof. by apply (one_iwf _ _ file_one). Qed.
Lemma image_full : full st0 file_inode.
Proof. apply (one_full _ _ file_one). Qed.
Lemma root_iwf : iwf sb0 st0 root_inode.
Proof. by apply (one_iwf _ _ root_one). Qed.
Lemma root_full : full st0 root_inode.
Proof. apply (one_full _ _ root_one). Qed.

Lemma file_iaddr k : 0 ≤ k → iaddr st0 file_inode k = if k =? 0 then 16 else 0.
Proof. apply (one_iaddr _ _ _ file_one). Qed.

Lemma image_fits : inode_fits file_inode.
Proof.
  split; simpl; [lia..|done|]. by repeat (apply list.Forall_cons; split; [lia|]).
Qed.
Lemma root_fits : inode_fits root_inode.
Proof.
  split; simpl; [lia..|done|]. by repeat (apply list.Forall_cons; split; [lia|]).
Qed.
