(* ===== verification/Examples.v ===== *)
(** * The theorems at work

    Each of the theorems of the kernel part that has hypotheses, applied in a
    concrete state in which they hold: spinlocks on a machine after boot, the
    buffer cache and the log on the disk of FsImage.v, the file system in a
    transaction on it. *)

From S2P Require Import Prelude CString Layout Kernel Kalloc Store Fs FsAlloc FsInode FsMap FsFile FsRw FsDir Bio Log LogStore FsImage.
From S2P Require Spinlock.

(** ** Spinlocks *)

Module SpinlockExamples.
Import Spinlock.

Definition mach0 : mach := mkMach (λ _, mkCpu 0 0 512) (λ _, mkSpinlock 0 None (replicate 10 0)).
Definition sys0 : sys := mkSys mach0 (λ _, mkThread Out []).

Lemma boot0 : boot sys0.
Proof. done. Qed.

(** CPU 0 has acquired the log's lock. *)
Lemma reach1 : ∃ σ, reach sys0 σ ∧ LLog ∈ tcs (sth σ 0%nat) ∧ tpc (sth σ 0%nat) = Out.
Proof.
  pose proof (reach_step _ 0%nat _ _ (reach_refl sys0) (st_push 0 sys0 LLog _ eq_refl eq_refl)) as H1.
  match type of H1 with reach _ ?σ => pose proof (reach_step _ 0%nat _ _ H1 (st_check 0 σ LLog eq_refl eq_refl)) as H2 end.
  match type of H2 with reach _ ?σ => pose proof (reach_step _ 0%nat _ _ H2 (st_xchg 0 σ LLog _ _ eq_refl eq_refl)) as H3 end.
  match type of H3 with reach _ ?σ => pose proof (reach_step _ 0%nat _ _ H3 (st_mark 0 σ LLog [] _ eq_refl eq_refl)) as H4 end.
  eexists. split; [exact H4|]. split; [by left|done].
Qed.

Lemma spinlock_mutual_exclusion_witness : ∃ σ, reach sys0 σ ∧ locked (lks (sm σ) LLog) = 1.
Proof.
  destruct reach1 as (σ & Hr & Hin & _). exists σ. split; [exact Hr|].
  apply (spinlock_mutual_exclusion sys0 σ 0 0 LLog boot0 Hr Hin Hin).
Defined.

Lemma spinlock_discipline_witness : ∃ σ, reach sys0 σ ∧ ints_on (cpus (sm σ) 0%nat) = false.
Proof.
  destruct reach1 as (σ & Hr & Hin & Hp). exists σ. split; [exact Hr|].
  apply (spinlock_discipline sys0 σ 0 boot0 Hr); [congruence|]. intros E. rw E in Hin. by apply not_elem_of_nil in Hin.
Defined.

Lemma holds0 : holds mach0 0 (c_locks core0).
Proof. split; [|constructor|done|done]. intros l. split; [by intros ?%not_elem_of_nil|]. by intros [? _]. Qed.

Lemma acquire_refines_witness : ∃ m', acquire 0 [] LLog mach0 = Ret tt m' ∧ holds m' 0 [LLog].
Proof.
  destruct (acquire_refines mach0 core0 0 [] LLog holds0 (λ _, eq_refl)) as (m' & Hr & Hh & _). by exists m'.
Defined.

Lemma release_refines_witness : ∃ m', release 0 LLog mach0 = Panic "release" m'.
Proof. exact (release_refines mach0 core0 0 LLog holds0). Defined.
End SpinlockExamples.

(** ** The buffer cache and the log *)

Lemma booted : ∃ s, log_idle s st0.
Proof.
  destruct (boot_idle 2 10 core0 disk0) as (_ & s & _ & H & _); [done|apply disk0_ok|apply disk0_geom|done|apply disk0_hdr|eauto].
Qed.

Lemma cache0 : ∃ s, brepr s (mkCache (memdisk disk0) disk0 ∅ ∅).
Proof. destruct (binit_ok core0 disk0) as (_ & s & _ & H & _); [done|apply disk0_ok|eauto]. Qed.

Lemma bio_refines_cache_witness :
  ∃ s, total (run_cop (ORead 1)) s (λ r s', ∃ i, r = Some i ∧ bdata i s' = memdisk disk0 !!! 1).
Proof.
  destruct cache0 as [s Hs]. exists s. eapply total_mono; [apply (bio_refines_cache s _ (ORead 1) Hs)|].
  - split; [done|]. split; [intros i; by rw lookup_empty|]. right. apply ca_room_empty.
  - cbv beta. intros r s' (_ & _ & i & ? & _ & ?). eauto.
Defined.

Lemma binit_then_read_witness :
  total (binit;; i ← bread 1 1; x ← gets (bdata i); brelse i;; mret x) (bst0 core0 disk0) (λ x _, x = sb_block).
Proof.
  eapply total_mono; [apply (binit_then_read core0 disk0 1); [done|apply disk0_ok|done]|]. cbv beta.
  intros x s' [-> _]. by vm_compute.
Defined.

Lemma boot_establishes_store_witness : total boot (cold core0 disk0) (λ _ s', log_idle s' st0).
Proof.
  eapply total_mono; [apply (boot_establishes_store 2 10); [done|apply disk0_ok|apply disk0_geom|done|apply disk0_hdr]|].
  cbv beta. by intros _ s' [? _].
Defined.

Lemma recovery_crash_safe_witness :
  total boot (cold core0 disk0) (λ _ s1, ∀ d', crash_disk disk0 (bs_disk (ls_bst s1)) d' →
    total boot (cold core0 d') (λ _ s2,
      agrees (dlog 2 10) 40 (memdisk (bs_disk (ls_bst s1))) (memdisk (bs_disk (ls_bst s2))))).
Proof.
  apply (recovery_crash_safe 2 10 core0 core0 disk0); [done|done|apply disk0_ok|apply disk0_geom|apply disk0_hdr].
Defined.

Lemma end_op_crash_atomic_witness : ∃ l a s, l_outstanding l = 1 ∧
  total end_op s (λ _ s', ∀ d', crash_disk (ca_disk a) (bs_disk (ls_bst s')) d' →
    total boot (cold core0 d') (λ _ s'',
      agrees l 40 (memdisk (ca_disk a)) (memdisk (bs_disk (ls_bst s''))) ∨
      agrees l 40 (ca_view a) (memdisk (bs_disk (ls_bst s''))))).
Proof.
  destruct image_fat as [s [(l & a & Ht & Ho & [E1 E2 E3 E4 E5 E6 E7 E8]) _ _ _]]. exists l, a, (fs_store s). split; [done|].
  assert (disksize (ca_disk a) = 40) as E40 by by rw -E6.
  assert (l_size l = 10 ∧ l_start l = 2) as [Es Et].
  { change (st_cap st0) with 9 in E8. change (st_base st0) with 12 in E7. lia. }
  eapply total_mono; [apply (end_op_crash_atomic l _ a (fs_store s) core0 Ht Ho)|].
  - by rw E3 fmap_empty.
  - intros b. rw E40 -E2 => Hb. exists (st_disk st0 !!! b).
    assert (st_disk st0 !! b = Some (st_disk st0 !!! b) ∧ blk (st_disk st0 !!! b)) as [? ?]; [|done].
    revert b Hb. apply (forall_range (λ b, st_disk st0 !! b = Some (st_disk st0 !!! b) ∧ blk (st_disk st0 !!! b)) 0 40).
    by vm_compute.
  - rw Es Et. split; rw -?E2 ?E40 //; by vm_compute.
  - done.
  - cbv beta. intros _ s' [_ H] d' Hd'. rw E40 in H. by apply H.
Defined.

(** ** The file system *)

Lemma held0 : held_ok sb0 st0 1.
Proof. split; [rw map_size_empty; lia|intros i b f; by rw lookup_empty|intros i f; by rw lookup_empty]. Qed.

Lemma balloc_correct_witness : ∃ s, fat st0 sb0 ino0 core0 s ∧ total (balloc 1) s (λ b _, b = 17).
Proof.
  destruct image_fat as [s Hs]. exists s. split; [exact Hs|]. eapply total_mono.
  - apply (balloc_correct sb0 ino0 core0 st0 s Hs image_geo image_meta held0); [by vm_compute|].
    exists 17. split; [done|]. intros Hin%image_inuse; lia.
  - cbv beta. intros b s' (st' & _ & Hd & Hn & Hall & _). destruct Hd. simpl in *. rw image_inuse in Hn; [lia|].
    destruct (decide (b = 17)) as [|]; [done|]. specialize (Hall 17 ltac:(lia)). rw image_inuse in Hall; lia.
Defined.

Lemma bfree_correct_witness : ∃ s, fat st0 sb0 ino0 core0 s ∧
  total (bfree 1 16) s (λ _ s', ∃ st', fat st' sb0 ino0 core0 s' ∧ ¬ inuse sb0 st' 16).
Proof.
  destruct image_fat as [s Hs]. exists s. split; [exact Hs|]. eapply total_mono.
  - apply (bfree_correct sb0 ino0 core0 st0 s 16 Hs image_geo image_meta held0); [intros i f; by rw lookup_empty|by vm_compute|done|].
    by apply image_inuse.
  - cbv beta. intros _ s' (st' & Hf & Hu & _). exists st'. split; [done|]. rw Hu; [by vm_compute|]. naive_solver.
Defined.

Lemma bfree_double_free_witness : ∃ s s', fat st0 sb0 ino0 core0 s ∧ bfree 1 17 s = Panic "freeing free block" s'.
Proof.
  destruct image_fat as [s Hs].
  destruct (bfree_double_free sb0 ino0 core0 st0 s 17 Hs image_geo image_meta held0) as [s' Hr];
    [intros i f; by rw lookup_empty|by vm_compute|done|intros Hin%image_inuse; lia|].
  by exists s, s'.
Defined.

Lemma readi_correct_witness : ∃ s, fat st0 sb0 ino0 core0 s ∧
  total (readi (λ _, None) 0 1 10) s (λ r _, r = (4, [101; 108; 108; 111])).
Proof.
  destruct image_fat as [s Hs]. exists s. split; [exact Hs|]. eapply total_mono.
  - apply (readi_correct (λ _, None) sb0 core0 st0 ino0 s 0 file_inode 1 10 Hs); [done|simpl; lia|apply image_inv|apply image_iwf|apply image_full|done|done|done].
  - cbv beta. intros r s' [_ ->]. by vm_compute.
Defined.

Lemma writei_correct_witness : ∃ s, fat st0 sb0 ino0 core0 s ∧
  total (writei (λ _, None) 0 [33; 33] 5 2) s (λ r s', r = 2 ∧ ∃ st' x', contents st' x' = [104; 101; 108; 108; 111; 33; 33]).
Proof.
  destruct image_fat as [s Hs]. exists s. split; [exact Hs|]. eapply total_mono.
  - apply (writei_correct (λ _, None) sb0 core0 st0 ino0 s 0 file_inode [33; 33] 5 Hs);
      [done|simpl; lia|apply image_inv|apply image_iwf|apply image_full|apply image_fits|done|by repeat constructor|done|done|by vm_compute|].
    left. intros j Hj. simpl in Hj. rw file_iaddr; [rw /BSIZE; lia|]. by rw (_ : j / BSIZE = 0); [rw /BSIZE; lia|].
  - cbv beta. intros r s' (-> & st' & x' & _ & Hw). split; [done|]. exists st', x'. rw (wn_contents _ _ _ _ _ _ _ Hw). by vm_compute.
Defined.

Lemma writei_rejects_witness : ∃ s, fat st0 sb0 ino0 core0 s ∧ writei (λ _, None) 0 [33] 6 1 s = Ret (-1) s.
Proof.
  destruct image_fat as [s Hs]. exists s. split; [exact Hs|].
  apply (writei_rejects (λ _, None) sb0 core0 st0 ino0 s 0 file_inode [33] 6 Hs); [done|done|done|done|by left].
Defined.

(** The entry of [f]. *)
Lemma dirlookup_correct_witness : ∃ s s', fat st0 sb0 ino0 core0 s' ∧
  dirlookup (λ _, None) 1 [102; 0] s = (ip ← iget 1 2; mret (Some (ip, 32))) s'.
Proof.
  destruct image_fat as [s Hs]. exists s.
  destruct (dirlookup_correct (λ _, None) sb0 core0 st0 ino0 1 root_inode ltac:(done) ltac:(simpl; lia) image_inv root_iwf root_full ltac:(done) ltac:(done) s [102; 0] Hs) as (s' & Hf & Hr).
  exists s'. split; [exact Hf|]. assert (dscan (ents (contents st0 root_inode)) 0 [102; 0] = Some (2, 32)) as Hd by (vm_compute; reflexivity).
  rw Hd in Hr. exact Hr.
Defined.

(** A second name, [g], for the file: it is found afterwards. *)
Lemma dirlink_correct_witness : ∃ s, fat st0 sb0 ino0 core0 s ∧
  total (dirlink (λ _, None) (λ _, None) 1 [103; 0] 2) s (λ r s', r = 0 ∧
    ∃ s1, dirlookup (λ _, None) 1 [103; 0] s' = (ip ← iget 1 2; mret (Some (ip, 48))) s1).
Proof.
  destruct image_fat as [s Hs]. exists s. split; [exact Hs|].
  assert (dfree (ents (contents st0 root_inode)) 0 = 48) as Hd by (vm_compute; reflexivity). eapply total_mono.
  - apply (dirlink_correct (λ _, None) (λ _, None) sb0 core0 st0 ino0 1 root_inode ltac:(done) ltac:(simpl; lia) image_inv root_iwf root_full ltac:(done) ltac:(done) s [103; 0] 2 Hs);
      [apply root_fits|done|by repeat constructor|done|by vm_compute|by vm_compute|by vm_compute|].
    left. intros j Hj. rw Hd in Hj. rw (one_iaddr _ _ _ root_one); [rw /BSIZE; lia|]. by rw (_ : j / BSIZE = 0); [rw /BSIZE; lia|].
  - cbv beta. rw Hd. intros r s' (-> & st' & x' & _ & _ & (s1 & _ & Hr) & _). split; [done|]. exists s1. exact Hr.
Defined.

Lemma skipelem_correct_witness : ∃ p n, skipelem [47; 97; 47; 47; 98] (replicate 14 0) = Some (p, n) ∧ elements p = [[98]].
Proof.
  destruct (skipelem_correct [47; 97; 47; 47; 98] (replicate 14 0)) as (p & n & Hs & He & _); [done|by apply (bool_decide_eq_true _)|].
  exists p, n. split; [exact Hs|exact He].
Defined.

(** ** Strings *)

Definition str (l : list Z) : Z → Z := nthZ l.

Lemma memset_correct_witness : memset 8 1 5 (λ _, 0) 12 = 1 ∧ memset 8 1 5 (λ _, 0) 13 = 0.
Proof. rw !memset_correct; [done|done|]. done. Defined.

Lemma umemmove_overlap_witness : umemmove 1 0 3 (str [1; 2; 3; 4]) 3 = 1.
Proof. exact (umemmove_overlap (str [1; 2; 3; 4]) 0 3 ltac:(done) ltac:(done)). Defined.

Lemma str_chars l : bytes l → chars (str l).
Proof.
  intros Hl i. rw /str /nthZ nth_lookup. destruct (l !! Z.to_nat i) eqn:E; [|by rw /byte]. simpl. by eapply Forall_lookup_1.
Qed.

Lemma strlen_correct_witness : ∃ r, strlen 4 (str [97; 98; 0]) = Some r ∧ str [97; 98; 0] r = 0.
Proof. destruct (strlen_correct 4 (str [97; 98; 0]) 2) as (r & ? & _ & ? & _); [done|done|]. by exists r. Defined.

(** ** Pages *)

Definition kend0 : Z := KERNBASE + PHYSTOP - 2 * PGSIZE.
Definition kst0 : kst :=
  mkKst core0 {[kend0 := replicate (Z.to_nat PGSIZE) 0; kend0 + PGSIZE := replicate (Z.to_nat PGSIZE) 0]} 0 0 (mkVmg 0 0 0 0).

Lemma kpage0 p : kpage kend0 p → p = kend0 ∨ p = kend0 + PGSIZE.
Proof. intros [Ha He Hb]. rw /kend0 in He |- *. plia. Qed.

Lemma kmem0 p : kpage kend0 p → ∃ d, k_mem kst0 !! p = Some d ∧ page d.
Proof.
  assert (page (replicate (Z.to_nat PGSIZE) 0)) by (split; [by rw length_replicate|]; apply Forall_replicate; rw /byte; lia).
  intros [-> | ->]%kpage0; eexists; (split; [|done]); [apply lookup_insert_eq|].
  rw lookup_insert_ne; [plia|]. apply lookup_insert_eq.
Qed.

Lemma kinit1_ok_witness : ∃ s' F, kinit1 kend0 (kend0 + 1) (KERNBASE + PHYSTOP) kst0 = Ret tt s' ∧ krepr kend0 F s' ∧ kend0 + PGSIZE ∈ F.
Proof.
  destruct (kinit1_ok kend0 kst0 (kend0 + 1) (KERNBASE + PHYSTOP)) as (s' & F & Hr & Hk & HF);
    [rw /kend0; plia|rw /kend0; plia|lia|lia|apply not_elem_of_nil|apply kmem0|].
  exists s', F. split; [exact Hr|]. split; [exact Hk|]. apply HF. rw /kend0. plia.
Defined.

Lemma krepr0 : krepr kend0 [] kst0.
Proof. split; [done|constructor|constructor|apply kmem0|apply not_elem_of_nil]. Qed.

Lemma kalloc_kfree_refine_witness : ∃ s', kfree kend0 kend0 kst0 = Ret tt s' ∧ krepr kend0 [kend0] s'.
Proof.
  destruct (kalloc_kfree_refine kend0 [] kst0 kend0 krepr0) as (_ & Hf & _).
  destruct Hf as (s' & ? & ? & _); [split; rw /kend0; plia|apply not_elem_of_nil|]. by exists s'.
Defined.

Lemma strncmp_strncpy_witness : strncmp (nthZ (strncpy (str [97; 98; 0]) 14)) (str [97; 98; 0]) 14 = 0.
Proof.
  assert (chars (str [97; 98; 0])) as Hc by (apply str_chars; repeat constructor; rw /byte; lia).
  apply (strncmp_strncpy (str [97; 98; 0]) (str [97; 98; 0]) 14 Hc Hc ltac:(done)).
Defined.
