(* ===== verification/Boot.v ===== *)
(** * The boot loader: bootmain.c

    The loader reads the start of the kernel image from the disk, finds the
    multiboot header in it, loads the part of the image the header describes at
    the address it names, clears the bss and jumps to the entry point.

    The state is the physical memory, a byte for every address.  The disk is a
    function from a drive, a sector and an offset to a byte; waiting until the
    controller is ready is not represented.  The loader runs in 32-bit mode, so
    addresses wrap at [2^32].  [bootmain] gives the address it jumps to, or
    [None] where it returns. *)

From S2P Require Import Prelude CString Kernel.

Definition SECTSIZE : Z := 512.
(** [x], the scratch space *)
Definition scratch : Z := 0x10000.

(** [struct mbheader] at address [hdr]. *)
Record mbheader := mkMb {
  mb_magic : Z; mb_flags : Z; mb_checksum : Z; header_addr : Z;
  load_addr : Z; load_end_addr : Z; bss_end_addr : Z; entry_addr : Z;
}.
Definition get_mbheader (hdr : Z) (m : mem) : mbheader :=
  mkMb (word32 m hdr) (word32 m (hdr + 4)) (word32 m (hdr + 8)) (word32 m (hdr + 12))
    (word32 m (hdr + 16)) (word32 m (hdr + 20)) (word32 m (hdr + 24)) (word32 m (hdr + 28)).

(** The registers of the disk controller, ports [0x1F2] to [0x1F6]. *)
Record ata := mkAta { ata_count : Z; ata_lba0 : Z; ata_lba1 : Z; ata_lba2 : Z; ata_drive : Z }.

(** The sector and the drive they select. *)
Definition ata_sector (r : ata) : Z :=
  ata_lba0 r + ata_lba1 r * 2 ^ 8 + ata_lba2 r * 2 ^ 16 + Z.land (ata_drive r) 0xF * 2 ^ 24.
Definition ata_slave (r : ata) : bool := Z.testbit (ata_drive r) 4.

Section boot.
Context (disk : bool → Z → Z → Z).

(** [insl(0x1F0, dst, SECTSIZE/4)] *)
Definition insl (dst : Z) (r : ata) (m : mem) : mem := λ a,
  if (dst <=? a) && (a <? dst + SECTSIZE) then disk (ata_slave r) (ata_sector r) (a - dst) else m a.

Definition readsect (dst offset : Z) (m : mem) : mem :=
  insl dst (mkAta 1 (u8 offset) (u8 (Z.shiftr offset 8)) (u8 (Z.shiftr offset 16)) (u8 (Z.lor (Z.shiftr offset 24) 0xE0))) m.

Fixpoint readseg_loop (fuel : nat) (pa epa offset : Z) : M mem unit :=
  match fuel with
  | O => diverge
  | S fuel =>
    if pa <? epa then
      modify (readsect pa offset);;
      readseg_loop fuel (u32 (pa + SECTSIZE)) epa (u32 (offset + 1))
    else mret tt
  end.

Definition readseg (pa count offset : Z) : M mem unit :=
  let epa := u32 (pa + count) in
  let pa := u32 (pa - offset mod SECTSIZE) in
  readseg_loop (Z.to_nat ((epa - pa) / SECTSIZE + 2)) pa epa (u32 (offset / SECTSIZE + 1)).

(** The word [x[n]], and the test of the loop for it. *)
Definition header_at (m : mem) (x n : Z) : bool :=
  (word32 m (x + 4 * n) =? 0x1BADB002) &&
  (u32 (word32 m (x + 4 * n) + word32 m (x + 4 * (n + 1)) + word32 m (x + 4 * (n + 2))) =? 0).

Fixpoint find_header (fuel : nat) (n : Z) (m : mem) : option Z :=
  match fuel with
  | O => None
  | S fuel => if header_at m scratch n then Some n else find_header fuel (n + 1) m
  end.

Definition bootmain : M mem (option Z) :=
  readseg scratch 8192 0;;
  r ← gets (find_header (Z.to_nat (8192 / 4)) 0);
  match r with
  | None => mret None
  | Some n =>
    let hdr := scratch + 4 * n in
    h ← gets (get_mbheader hdr);
    if Z.land (mb_flags h) 0x10000 =? 0 then mret None else
    if load_addr h >? header_addr h then mret None else
    if load_end_addr h <? load_addr h then mret None else
    readseg (load_addr h) (u32 (load_end_addr h - load_addr h)) (u32 (n * 4 - (header_addr h - load_addr h)));;
    h ← gets (get_mbheader hdr);
    when (bss_end_addr h >? load_end_addr h)
      (modify (stosb (Z.to_nat (bss_end_addr h - load_end_addr h)) (load_end_addr h) 0));;
    h ← gets (get_mbheader hdr);
    mret (Some (entry_addr h))
  end.

(** ** Correctness *)

(** Byte [i] of the kernel image, which starts at sector 1 of the first drive. *)
Definition img (i : Z) : Z := disk false (1 + i / SECTSIZE) (i mod SECTSIZE).

Lemma land15 x : Z.land x 0xF = x mod 2 ^ 4.
Proof. by rw -(Z.land_ones x 4). Qed.

Lemma drive_bits x : 0 ≤ x < 16 → Z.land (u8 (Z.lor x 0xE0)) 0xF = x ∧ Z.testbit (u8 (Z.lor x 0xE0)) 4 = false.
Proof.
  intros Hx. assert (x ∈ seqZ 0 16) as Hin by (apply elem_of_seqZ; lia). clear Hx. revert x Hin.
  apply list.Forall_forall. repeat (constructor; [done|]). constructor.
Qed.

Lemma readsect_run dst offset m a :
  0 ≤ offset < 2 ^ 28 →
  readsect dst offset m a = if decide (dst ≤ a < dst + SECTSIZE) then disk false offset (a - dst) else m a.
Proof.
  intros Ho. rw /readsect /insl /ata_slave /ata_sector. cbn [ata_lba0 ata_lba1 ata_lba2 ata_drive].
  rw !Z.shiftr_div_pow2 //. destruct (drive_bits (offset / 2 ^ 24)) as [-> ->]; [lia|].
  rw (_ : u8 offset + _ + _ + _ = offset); [rw /u8; lia|].
  case_decide; destruct (Z.leb_spec dst a), (Z.ltb_spec a (dst + SECTSIZE)); try lia; done.
Qed.

(** The memory after [k] sectors from sector [offset] on were read to [pa]. *)
Definition after (pa offset k : Z) (m : mem) : mem := λ a,
  if decide (pa ≤ a < pa + SECTSIZE * k) then disk false (offset + (a - pa) / SECTSIZE) ((a - pa) mod SECTSIZE) else m a.

Lemma after_step pa offset k m a :
  0 ≤ offset < 2 ^ 28 → 0 ≤ k →
  after (pa + SECTSIZE) (offset + 1) k (readsect pa offset m) a = after pa offset (k + 1) m a.
Proof.
  intros Ho Hk. rw /after readsect_run // /SECTSIZE. repeat case_decide; try lia; try done; f_equal; lia.
Qed.

(** The number of sectors that cover [n] bytes. *)
Definition sectors (n : Z) : Z := (n + SECTSIZE - 1) / SECTSIZE.

Lemma readseg_loop_run fuel pa epa offset m :
  0 ≤ pa < epa + SECTSIZE → epa ≤ 2 ^ 32 - SECTSIZE → 0 ≤ offset → offset + sectors (epa - pa) < 2 ^ 28 →
  sectors (epa - pa) < Z.of_nat fuel →
  ∃ m', readseg_loop fuel pa epa offset m = Ret tt m' ∧ ∀ a, m' a = after pa offset (sectors (epa - pa)) m a.
Proof.
  revert pa offset m. induction fuel as [|fuel IH]; intros pa offset m Hpa Hepa Ho Hs Hf; rw /sectors /SECTSIZE in Hpa Hepa Hs Hf.
  { lia. }
  cbn [readseg_loop]. destruct (Z.ltb_spec pa epa).
  - rw run_modify. rw (_ : u32 (pa + SECTSIZE) = pa + SECTSIZE); [rw /u32 /SECTSIZE; lia|].
    rw (_ : u32 (offset + 1) = offset + 1); [rw /u32; lia|].
    destruct (IH (pa + SECTSIZE) (offset + 1) (readsect pa offset m)) as (m' & -> & Hm); [rw /sectors /SECTSIZE; lia..|].
    exists m'. split; [done|]. intros a. rw Hm after_step; [lia|rw /sectors /SECTSIZE; lia|].
    by rw (_ : sectors (epa - (pa + SECTSIZE)) + 1 = sectors (epa - pa)); [rw /sectors /SECTSIZE; lia|].
  - exists m. split; [done|]. intros a. rw /after /sectors /SECTSIZE. rw decide_False //. lia.
Qed.

(** [readseg] puts the bytes of the image from [offset] on at [pa]; it may write
    up to a sector before [pa] and after the end, and nothing else. *)
Lemma readseg_run pa count offset m :
  0 ≤ count → offset mod SECTSIZE ≤ pa → pa + count ≤ 2 ^ 32 - SECTSIZE → 0 ≤ offset < 2 ^ 32 →
  ∃ m', readseg pa count offset m = Ret tt m' ∧
    (∀ i, 0 ≤ i < count → m' (pa + i) = img (offset + i)) ∧
    (∀ a, a < pa - offset mod SECTSIZE ∨ pa + count + SECTSIZE ≤ a → m' a = m a).
Proof.
  intros Hc Hpa Hend Ho. rw /SECTSIZE in Hpa Hend. rw /readseg.
  rw (_ : u32 (pa + count) = pa + count); [rw /u32; lia|].
  rw (_ : u32 (pa - offset mod SECTSIZE) = pa - offset mod SECTSIZE); [rw /u32 /SECTSIZE; lia|].
  rw (_ : u32 (offset / SECTSIZE + 1) = offset / SECTSIZE + 1); [rw /u32 /SECTSIZE; lia|].
  edestruct (readseg_loop_run (Z.to_nat ((pa + count - (pa - offset mod SECTSIZE)) / SECTSIZE + 2)) (pa - offset mod SECTSIZE)
    (pa + count) (offset / SECTSIZE + 1) m) as (m' & Hr & Hm); [rw /sectors /SECTSIZE; lia..|].
  exists m'. split; [exact Hr|]. split.
  - intros i Hi. rw Hm /after /img /sectors /SECTSIZE. rw decide_True; [lia|]. f_equal; lia.
  - intros a Ha. rw Hm /after /sectors /SECTSIZE. rw decide_False //. rw /SECTSIZE in Ha. lia.
Qed.

Lemma find_header_run fuel n0 n m :
  n0 ≤ n < n0 + Z.of_nat fuel → header_at m scratch n = true → (∀ k, n0 ≤ k < n → header_at m scratch k = false) →
  find_header fuel n0 m = Some n.
Proof.
  revert n0. induction fuel as [|fuel IH]; intros n0 Hn Ht Hf; [lia|]. cbn [find_header].
  destruct (decide (n0 = n)) as [->|]; [by rw Ht|]. rw Hf; [lia|]. apply IH; [lia|done|]. intros k Hk. apply Hf. lia.
Qed.

(** The scratch space holds the start of the image. *)
Definition scratched (m : mem) : Prop := ∀ i, 0 ≤ i < 8192 → m (scratch + i) = img i.

Lemma scratched_word m o a : scratched m → a = scratch + o → 0 ≤ o → o + 4 ≤ 8192 → word32 m a = word32 img o.
Proof. intros Hm -> Ho Hl. rw /word32 -!Z.add_assoc !Hm //; lia. Qed.

Lemma scratched_header_at m k : scratched m → 0 ≤ k < 2046 → header_at m scratch k = header_at img 0 k.
Proof.
  intros Hm Hk. rw /header_at.
  rw (scratched_word m (0 + 4 * k) (scratch + 4 * k)) //; [lia..|].
  rw (scratched_word m (0 + 4 * (k + 1)) (scratch + 4 * (k + 1))) //; [lia..|].
  by rw (scratched_word m (0 + 4 * (k + 2)) (scratch + 4 * (k + 2))) //; lia.
Qed.

Lemma scratched_mbheader m n : scratched m → 0 ≤ n ≤ 2040 → get_mbheader (scratch + 4 * n) m = get_mbheader (4 * n) img.
Proof. intros Hm Hn. rw /get_mbheader. f_equal; apply scratched_word; lia || done. Qed.

(** The image has a multiboot header at word [n] of its first 8192 bytes, the
    first one there, that describes a load address above the scratch space. *)
Record bootable (n : Z) : Prop := {
  bo_bytes i : byte (img i);
  bo_index : 0 ≤ n ≤ 2040;
  bo_header : header_at img 0 n = true;
  bo_first k : 0 ≤ k < n → header_at img 0 k = false;
  bo_flags : Z.land (mb_flags (get_mbheader (4 * n) img)) 0x10000 ≠ 0;
  bo_load : load_addr (get_mbheader (4 * n) img) ≤ header_addr (get_mbheader (4 * n) img) ≤ load_addr (get_mbheader (4 * n) img) + 4 * n;
  bo_above : scratch + 8192 + SECTSIZE ≤ load_addr (get_mbheader (4 * n) img);
  bo_end : load_addr (get_mbheader (4 * n) img) ≤ load_end_addr (get_mbheader (4 * n) img) ≤ 2 ^ 32 - SECTSIZE;
}.

Lemma word32_range m a : (∀ i, byte (m i)) → 0 ≤ word32 m a < 2 ^ 32.
Proof. intros Hb. pose proof (Hb a). pose proof (Hb (a + 1)). pose proof (Hb (a + 2)). pose proof (Hb (a + 3)). rw /word32 /byte /= in H H0 H1 H2 |- *. lia. Qed.

(** The first read, and the search. *)
Lemma boot_search n m :
  bootable n → ∃ m1, scratched m1 ∧ readseg scratch 8192 0 m = Ret tt m1 ∧ find_header (Z.to_nat (8192 / 4)) 0 m1 = Some n.
Proof.
  intros Hb. destruct (readseg_run scratch 8192 0 m) as (m1 & Hr & Hm & _); [done..|].
  assert (scratched m1) as Hs by exact Hm. exists m1. split; [done|]. split; [done|]. destruct (bo_index _ Hb).
  apply find_header_run; [lia| |].
  - rw (scratched_header_at m1 n Hs); [lia|]. apply Hb.
  - intros k Hk. rw (scratched_header_at m1 k Hs); [lia|]. by apply Hb.
Qed.

Lemma clear_bss h m :
  ∃ m', when (bss_end_addr h >? load_end_addr h)
      (modify (stosb (Z.to_nat (bss_end_addr h - load_end_addr h)) (load_end_addr h) 0)) m = Ret tt m' ∧
    (∀ a, load_end_addr h ≤ a < bss_end_addr h → m' a = 0) ∧ (∀ a, a < load_end_addr h → m' a = m a).
Proof.
  destruct (bss_end_addr h >? load_end_addr h) eqn:E; cbn [when]; eexists; (split; [done|]).
  - split; intros a Ha; rw stosb_spec; [rw decide_True; [lia|done]|rw decide_False; [lia|done]].
  - split; [lia|done].
Qed.

(** C29: the loader puts every byte of the segment the header describes at the
    address the header gives it, relative to the header's own, clears the bss and
    jumps to the entry point. *)
Theorem bootmain_loads n m :
  bootable n →
  let h := get_mbheader (4 * n) img in
  ∃ m', bootmain m = Ret (Some (entry_addr h)) m' ∧
    (∀ a, load_addr h ≤ a < load_end_addr h → m' a = img (4 * n + (a - header_addr h))) ∧
    (∀ a, load_end_addr h ≤ a < bss_end_addr h → m' a = 0).
Proof.
  intros Hb h. pose proof Hb as [Hby Hn _ _ Hf Hl Ha He]. fold h in Hf, Hl, Ha, He. rw /scratch /SECTSIZE in Ha He.
  destruct (boot_search n m Hb) as (m1 & Hs1 & Hr1 & Hh).
  rw /bootmain (run_bind _ _ _ _ _ Hr1) run_gets Hh run_gets (scratched_mbheader m1 n Hs1 Hn) -/h.
  rw (_ : Z.land (mb_flags h) 0x10000 =? 0 = false); [lia|]. rw (_ : load_addr h >? header_addr h = false); [lia|].
  rw (_ : load_end_addr h <? load_addr h = false); [lia|].
  rw (_ : u32 (load_end_addr h - load_addr h) = load_end_addr h - load_addr h); [rw /u32; lia|].
  rw (_ : u32 (n * 4 - (header_addr h - load_addr h)) = n * 4 - (header_addr h - load_addr h)); [rw /u32; lia|].
  destruct (readseg_run (load_addr h) (load_end_addr h - load_addr h) (n * 4 - (header_addr h - load_addr h)) m1)
    as (m2 & Hr2 & Hm2 & Ho2); [rw /SECTSIZE; lia..|].
  assert (scratched m2) as Hs2.
  { intros i Hi. rw Ho2; [rw /scratch /SECTSIZE; lia|]. by apply Hs1. }
  rw (run_bind _ _ _ _ _ Hr2) run_gets (scratched_mbheader m2 n Hs2 Hn) -/h.
  destruct (clear_bss h m2) as (m3 & Hr3 & Hz & Ho3). rw (run_bind _ _ _ _ _ Hr3) run_gets.
  assert (scratched m3) as Hs3 by (intros i Hi; rw Ho3; [rw /scratch; lia|]; by apply Hs2).
  rw (scratched_mbheader m3 n Hs3 Hn). exists m3. split; [done|]. split; [|done].
  intros a Hla. rw Ho3; [lia|]. rw (_ : a = load_addr h + (a - load_addr h)); [lia|]. rw Hm2; [lia|]. f_equal. lia.
Qed.

End boot.

(** ** An image of one sector: a header at word 3, 52 bytes of kernel, bss *)

Definition boot_header : list Z :=
  concat (le_encode 4 <$> [0x1BADB002; 0x10000; 2 ^ 32 - 0x1BADB002 - 0x10000; 0x10000C; 0x100000; 0x100040; 0x100050; 0x100030]).
Definition boot_disk (slave : bool) (sec i : Z) : Z :=
  if sec =? 1 then nthZ (replicate 12 0xEE ++ boot_header ++ replicate 20 0x90) i else 0.

Lemma boot_disk_byte i : byte (img boot_disk i).
Proof.
  rw /img /boot_disk. destruct (_ =? 1); [|done]. rw /nthZ. destruct (nth_in_or_default (Z.to_nat (i mod SECTSIZE)) (replicate 12 0xEE ++ boot_header ++ replicate 20 0x90) 0) as [Hin| ->]; [|done].
  apply list_elem_of_In in Hin. revert Hin. apply list.Forall_forall. by apply (bool_decide_eq_true _).
Qed.

Lemma boot_disk_bootable : bootable boot_disk 3.
Proof.
  split; [exact boot_disk_byte|done|by vm_compute| |by vm_compute..].
  intros k Hk. assert (k = 0 ∨ k = 1 ∨ k = 2) as [->|[->| ->]] by lia; by vm_compute.
Qed.

Lemma bootmain_loads_witness :
  ∃ m', bootmain boot_disk (λ _, 7) = Ret (Some 0x100030) m' ∧ m' 0x10000C = 0x02 ∧ m' 0x100030 = 0x90 ∧ m' 0x10004F = 0.
Proof.
  destruct (bootmain_loads boot_disk 3 (λ _, 7) boot_disk_bootable) as (m' & Hr & Hl & Hz). exists m'.
  split; [exact Hr|]. clear Hr. split; [etrans; [apply Hl|]; by vm_compute|]. split; [etrans; [apply Hl|]; by vm_compute|]. apply Hz. by vm_compute.
Defined.
