(* ===== verification/Mp.v ===== *)
(** * Finding the processors: mp.c, and [cpunum] of lapic.c

    The BIOS leaves a floating structure in low memory that points to a table of
    processors and interrupt controllers.  [mpinit] searches for the structure,
    checks its sums and goes through the table.

    Memory is a function from kernel addresses to bytes.  The state holds the
    variables of mp.c, the messages printed and the bytes sent to the ports.

    Theorems: the search finds the first valid structure; [mpinit] records the
    first [NCPU] processors of the table and the last I/O APIC; [cpunum] then
    tells the processors apart. *)

From S2P Require Import Prelude CString Kernel Kalloc.

Definition NCPU : Z := 8.
Definition MPPROC : Z := 0x00.
Definition MPBUS : Z := 0x01.
Definition MPIOAPIC : Z := 0x02.
Definition MPIOINTR : Z := 0x03.
Definition MPLINTR : Z := 0x04.

(** Sizes and fields of the structures of mp.h. *)
Definition sizeof_mp : Z := 16.
Definition mp_physaddr (m : mem) (p : Z) : Z := word32 m (p + 4).
Definition mp_imcrp (m : mem) (p : Z) : Z := m (p + 12).
Definition sizeof_mpconf : Z := 44.
Definition conf_length (m : mem) (p : Z) : Z := word16 m (p + 4).
Definition conf_version (m : mem) (p : Z) : Z := m (p + 6).
Definition conf_lapicaddr (m : mem) (p : Z) : Z := word32 m (p + 36).
Definition sizeof_mpproc : Z := 20.
Definition mpproc_apicid (m : mem) (p : Z) : Z := m (p + 1).
Definition sizeof_mpioapic : Z := 8.
Definition mpioapic_apicno (m : mem) (p : Z) : Z := m (p + 1).

Record mps := mkMps {
  ms_apicid : list Z;       (** [cpus[i].apicid] *)
  ms_ncpu : Z;
  ms_ioapicid : Z;
  ms_lapic : Z;
  ms_warned : Z;            (** the static [n] of [cpunum] *)
  ms_msgs : list (string * list Z);
  ms_out : list (Z * Z);
}.

Definition add_cpu (id : Z) (s : mps) : mps :=
  mkMps (setZ (ms_ncpu s) id (ms_apicid s)) (ms_ncpu s + 1) (ms_ioapicid s) (ms_lapic s) (ms_warned s) (ms_msgs s) (ms_out s).
Definition set_ioapicid (v : Z) (s : mps) : mps :=
  mkMps (ms_apicid s) (ms_ncpu s) v (ms_lapic s) (ms_warned s) (ms_msgs s) (ms_out s).
Definition set_lapic (v : Z) (s : mps) : mps :=
  mkMps (ms_apicid s) (ms_ncpu s) (ms_ioapicid s) v (ms_warned s) (ms_msgs s) (ms_out s).
Definition set_warned (v : Z) (s : mps) : mps :=
  mkMps (ms_apicid s) (ms_ncpu s) (ms_ioapicid s) (ms_lapic s) v (ms_msgs s) (ms_out s).
Definition say (fmt : string) (args : list Z) (s : mps) : mps :=
  mkMps (ms_apicid s) (ms_ncpu s) (ms_ioapicid s) (ms_lapic s) (ms_warned s) (ms_msgs s ++ [(fmt, args)]) (ms_out s).
Definition outb (port v : Z) (s : mps) : mps :=
  mkMps (ms_apicid s) (ms_ncpu s) (ms_ioapicid s) (ms_lapic s) (ms_warned s) (ms_msgs s) (ms_out s ++ [(port, u8 v)]).

Definition mps0 : mps := mkMps (replicate (Z.to_nat NCPU) 0) 0 0 0 0 [] [].

(** ** The search *)

Fixpoint sum_loop (n : nat) (m : mem) (addr acc : Z) : Z :=
  match n with
  | O => acc
  | S n => sum_loop n m (addr + 1) (i32 (acc + m addr))
  end.
Definition sum (m : mem) (addr len : Z) : Z := u8 (sum_loop (Z.to_nat len) m addr 0).

Definition sig (l : list Z) : Z → Z := nthZ l.
Definition MP_SIG : list Z := [95; 77; 80; 95].      (** "_MP_" *)
Definition PCMP_SIG : list Z := [80; 67; 77; 80].    (** "PCMP" *)

Definition mp_ok (m : mem) (p : Z) : bool :=
  (memcmp 4 (λ i, m (p + i)) (sig MP_SIG) 0 =? 0) && (sum m p sizeof_mp =? 0).

(** [None] if the loop has not ended. *)
Fixpoint mpsearch1_loop (fuel : nat) (m : mem) (p e : Z) : option Z :=
  match fuel with
  | O => None
  | S fuel =>
    if p <? e then
      if mp_ok m p then Some p else mpsearch1_loop fuel m (p + sizeof_mp) e
    else Some 0
  end.
Definition mpsearch1 (m : mem) (a len : Z) : option Z :=
  mpsearch1_loop (Z.to_nat (len / sizeof_mp + 2)) m (P2V a) (P2V a + len).

Definition mpsearch (m : mem) : option Z :=
  let bda := P2V 0x400 in
  let p := u32 (Z.shiftl (Z.lor (Z.shiftl (m (bda + 0x0F)) 8) (m (bda + 0x0E))) 4) in
  mp ← (if negb (p =? 0) then mpsearch1 m p 1024
        else
          let p := u32 (Z.lor (Z.shiftl (m (bda + 0x14)) 8) (m (bda + 0x13)) * 1024) in
          mpsearch1 m (u32 (p - 1024)) 1024);
  if negb (mp =? 0) then Some mp else mpsearch1 m 0xF0000 0x10000.

(** The addresses of the two structures. *)
Definition mpconfig (m : mem) : option (option (Z * Z)) :=
  mp ← mpsearch m;
  if (mp =? 0) || (mp_physaddr m mp =? 0) then Some None else
  let conf := P2V (mp_physaddr m mp) in
  if negb (memcmp 4 (λ i, m (conf + i)) (sig PCMP_SIG) 0 =? 0) then Some None else
  if negb (conf_version m conf =? 1) && negb (conf_version m conf =? 4) then Some None else
  if negb (sum m conf (conf_length m conf) =? 0) then Some None else
  Some (Some (mp, conf)).

(** ** The table *)

(** Every entry takes at least eight bytes. *)
Fixpoint mpinit_loop (fuel : nat) (m : mem) (p e : Z) : M mps unit :=
  match fuel with
  | O => diverge
  | S fuel =>
    if p <? e then
      if m p =? MPPROC then
        ncpu ← gets ms_ncpu;
        when (ncpu <? NCPU) (modify (add_cpu (mpproc_apicid m p)));;
        mpinit_loop fuel m (p + sizeof_mpproc) e
      else if m p =? MPIOAPIC then
        modify (set_ioapicid (mpioapic_apicno m p));;
        mpinit_loop fuel m (p + sizeof_mpioapic) e
      else if (m p =? MPBUS) || (m p =? MPIOINTR) || (m p =? MPLINTR) then
        mpinit_loop fuel m (p + 8) e
      else panic "Major problem parsing mp config."
    else mret tt
  end.

(** [imcr] is what port [0x23] gives. *)
Definition mpinit (m : mem) (imcr : Z) : M mps unit :=
  match mpconfig m with
  | None => diverge
  | Some None => modify (say "No other CPUs found." [])
  | Some (Some (mp, conf)) =>
    modify (set_lapic (P2V (conf_lapicaddr m conf)));;
    mpinit_loop (Z.to_nat (conf_length m conf / 8 + 2)) m (conf + sizeof_mpconf) (conf + conf_length m conf);;
    n ← gets ms_ncpu;
    modify (say "Seems we are SMP, ncpu = %d" [n]);;
    when (negb (mp_imcrp m mp =? 0))
      (modify (outb 0x22 0x70);;
       modify (outb 0x23 (Z.lor imcr 1)))
  end.

(** ** lapic.c: the number of this processor *)

Fixpoint cpunum_loop (n : nat) (i : Z) (cpus : list Z) (apicid : Z) : option Z :=
  match n with
  | O => None
  | S n => if nthZ cpus i =? apicid then Some i else cpunum_loop n (i + 1) cpus apicid
  end.

(** [fl_if]: interrupts are enabled; [ret] is the return address; [id] is the
    processor's [lapic[ID]]. *)
Definition cpunum (fl_if : bool) (ret id : Z) : M mps Z :=
  when fl_if
    (n ← gets ms_warned;
     modify (set_warned (i32 (n + 1)));;
     when (n =? 0) (modify (say "cpu called from %x with interrupts enabled" [ret])));;
  s ← gets (λ s, s);
  if ms_lapic s =? 0 then mret 0 else
  let apicid := Z.shiftr id 24 in
  match cpunum_loop (Z.to_nat (ms_ncpu s)) 0 (ms_apicid s) apicid with
  | Some i => mret i
  | None => panic "unknown apicid"
  end.

(** ** Correctness of the search *)

Section search.
Context (m : mem).
Implicit Types (p a len : Z).

(** The checksum of [len] bytes. *)
Definition checksum p len : Z := foldr Z.add 0 ((λ i, m (p + i)) <$> seqZ 0 len) mod 256.

Lemma sum_loop_spec n p acc : u8 (sum_loop n m p acc) = (acc + foldr Z.add 0 ((λ i, m (p + i)) <$> seqZ 0 (Z.of_nat n))) mod 256.
Proof.
  revert p acc. induction n as [|n IH]; intros p acc; [by rw /= Z.add_0_r|].
  cbn [sum_loop]. rw IH (seqZ_cons 0 (Z.of_nat (S n))); [lia|]. cbn [fmap list_fmap foldr]. rw Z.add_0_r Nat2Z.inj_succ Z.pred_succ.
  rw (fmap_seqZ_ext (λ i, m (p + i)) (λ i, m (p + 1 + i)) (Z.succ 0) 0); [intros i _; f_equal; lia|].
  rw /i32. lia.
Qed.

Lemma sum_spec p len : 0 ≤ len → sum m p len = checksum p len.
Proof. intros H. by rw /sum sum_loop_spec Z.add_0_l Z2Nat.id. Qed.

Lemma memcmp_zero n (s1 s2 : Z → Z) i : memcmp n s1 s2 i = 0 ↔ ∀ j, i ≤ j < i + Z.of_nat n → s1 j = s2 j.
Proof.
  revert i. induction n as [|n IH]; intros i; cbn [memcmp]; [split; [lia|done]|].
  destruct (Z.eqb_spec (s1 i) (s2 i)) as [E|E]; cbn [negb].
  - rw IH. split; intros H j Hj; [destruct (decide (j = i)) as [->|]; [done|]|]; apply H; lia.
  - split; [lia|]. intros H. by destruct E; apply H; lia.
Qed.

(** A floating structure, and a table, as the specification has them. *)
Record valid_mp p : Prop := {
  vm_sig i : 0 ≤ i < 4 → m (p + i) = nthZ MP_SIG i;
  vm_sum : checksum p sizeof_mp = 0;
}.
Record valid_conf p : Prop := {
  vc_sig i : 0 ≤ i < 4 → m (p + i) = nthZ PCMP_SIG i;
  vc_version : conf_version m p = 1 ∨ conf_version m p = 4;
  vc_sum : checksum p (conf_length m p) = 0;
}.

Lemma mp_ok_spec p : mp_ok m p = true ↔ valid_mp p.
Proof.
  rw /mp_ok andb_true_iff !Z.eqb_eq memcmp_zero sum_spec //. split; [intros [H1 H2]; by split|intros []; by split].
Qed.

(** The places the search looks at. *)
Definition places a len : list Z := (λ i, P2V a + sizeof_mp * i) <$> seqZ 0 (len / sizeof_mp).

Lemma mpsearch1_loop_run fuel p k :
  0 ≤ k < Z.of_nat fuel →
  mpsearch1_loop fuel m p (p + sizeof_mp * k) =
    Some (default 0 (List.find (mp_ok m) ((λ i, p + sizeof_mp * i) <$> seqZ 0 k))).
Proof.
  revert p k. induction fuel as [|fuel IH]; intros p k Hk; [lia|]. cbn [mpsearch1_loop].
  destruct (decide (k = 0)) as [->|]; [by rw Z.mul_0_r Z.add_0_r Z.ltb_irrefl|].
  rw (_ : p <? p + sizeof_mp * k = true); [rw /sizeof_mp; lia|]. rw seqZ_cons; [lia|].
  cbn [fmap list_fmap List.find]. rw Z.mul_0_r Z.add_0_r. destruct (mp_ok m p); [done|].
  rw (_ : p + sizeof_mp * k = p + sizeof_mp + sizeof_mp * Z.pred k); [lia|]. rw IH; [lia|]. do 3 f_equal.
  apply fmap_seqZ_ext. intros i _. rw /sizeof_mp. lia.
Qed.

(** [mpsearch1] gives the first of them that has a valid structure, or null. *)
Lemma mpsearch1_first a len :
  0 ≤ len → len mod sizeof_mp = 0 → mpsearch1 m a len = Some (default 0 (List.find (mp_ok m) (places a len))).
Proof.
  intros Hl Hm. rw /mpsearch1 {2}(_ : len = sizeof_mp * (len / sizeof_mp)); [rw /sizeof_mp in Hm |- *; lia|].
  apply mpsearch1_loop_run. rw /sizeof_mp. lia.
Qed.

Lemma mpsearch1_valid a len :
  0 ≤ len → len mod sizeof_mp = 0 → ∃ p, mpsearch1 m a len = Some p ∧ (p ≠ 0 → valid_mp p).
Proof.
  intros Hl Hm. rw mpsearch1_first //. eexists. split; [done|].
  destruct (List.find _ _) as [p|] eqn:E; [|done]. intros _. apply find_some in E as [_ E]. by apply mp_ok_spec.
Qed.

Lemma mpsearch_valid : ∃ p, mpsearch m = Some p ∧ (p ≠ 0 → valid_mp p).
Proof.
  rw /mpsearch. cbv zeta. match goal with |- context [mbind _ ?x] => set c := x end.
  assert (∃ p, c = Some p ∧ (p ≠ 0 → valid_mp p)) as (p & -> & Hv) by (rw /c; case_match; by apply mpsearch1_valid).
  cbn [mbind option_bind]. destruct (Z.eqb_spec p 0); cbn [negb]; [by apply mpsearch1_valid|by eauto].
Qed.

Lemma conf_length_range p : (∀ a, byte (m a)) → 0 ≤ conf_length m p.
Proof. intros Hb. rw /conf_length /word16 /=. pose proof (Hb (p + 4)) as H1. pose proof (Hb (p + 4 + 1)) as H2. rw /byte in H1 H2. lia. Qed.

(** The search ends, and what it accepts is valid. *)
Lemma mpconfig_valid :
  (∀ a, byte (m a)) →
  ∃ r, mpconfig m = Some r ∧ ∀ mp conf, r = Some (mp, conf) → valid_mp mp ∧ conf = P2V (mp_physaddr m mp) ∧ valid_conf conf.
Proof.
  intros Hb. rw /mpconfig. destruct mpsearch_valid as (p & -> & Hv). cbn [mbind option_bind].
  destruct (Z.eqb_spec p 0); [by eexists|]. destruct (_ =? 0); [by eexists|]. cbn [orb].
  set (conf := P2V (mp_physaddr m p)). destruct (Z.eqb_spec (memcmp 4 (λ i, m (conf + i)) (sig PCMP_SIG) 0) 0) as [Hs|]; [|by eexists].
  cbn [negb]. destruct (negb (_ =? 1) && _) eqn:Ev; [by eexists|].
  destruct (Z.eqb_spec (sum m conf (conf_length m conf)) 0) as [Hc|]; [|by eexists].
  eexists. split; [done|]. intros mp ? [= <- <-]. split; [by apply Hv|]. split; [done|]. split.
  - exact (proj1 (memcmp_zero 4 _ _ 0) Hs).
  - apply andb_false_iff in Ev as [E|E]; apply negb_false_iff, Z.eqb_eq in E; auto.
  - rw -sum_spec //. by apply conf_length_range.
Qed.

End search.

(** ** Correctness of the table *)

(** The entries of a table, with their sizes. *)
Inductive entry := Proc (apicid : Z) | Ioapic (id : Z) | Other (type : Z).

Definition esize (x : entry) : Z := match x with Proc _ => sizeof_mpproc | Ioapic _ => sizeof_mpioapic | Other _ => 8 end.
Definition entry_at (m : mem) (p : Z) (x : entry) : Prop :=
  match x with
  | Proc id => m p = MPPROC ∧ m (p + 1) = id
  | Ioapic id => m p = MPIOAPIC ∧ m (p + 1) = id
  | Other t => m p = t ∧ t ∈ [MPBUS; MPIOINTR; MPLINTR]
  end.

(** The entries from [p] up to [e], the last of which may reach beyond it. *)
Fixpoint table_at (m : mem) (p e : Z) (l : list entry) : Prop :=
  match l with
  | [] => e ≤ p
  | x :: l => p < e ∧ entry_at m p x ∧ table_at m (p + esize x) e l
  end.

Definition procs (l : list entry) : list Z := omap (λ x, match x with Proc id => Some id | _ => None end) l.
Definition ioapics (l : list entry) : list Z := omap (λ x, match x with Ioapic id => Some id | _ => None end) l.

Section table.
Context (m : mem).

Definition enter (s : mps) (x : entry) : mps :=
  match x with
  | Proc id => if ms_ncpu s <? NCPU then add_cpu id s else s
  | Ioapic id => set_ioapicid id s
  | Other _ => s
  end.

Lemma mpinit_loop_run fuel p e l s :
  table_at m p e l → (length l < fuel)%nat → mpinit_loop fuel m p e s = Ret tt (fold_left enter l s).
Proof.
  revert p l s. induction fuel as [|fuel IH]; intros p [|x l] s Ht Hf; simpl in Hf; try lia; cbn [mpinit_loop table_at] in *.
  { by rw (_ : p <? e = false); [lia|]. }
  destruct Ht as (Hp & Hx & Ht). rw (_ : p <? e = true); [lia|]. cbn [fold_left].
  destruct x as [id|id|t]; cbn [entry_at esize] in Hx, Ht.
  - destruct Hx as [-> Hid]. cbn. rw run_gets /mpproc_apicid Hid. destruct (ms_ncpu s <? NCPU); cbn [when].
    + rw run_modify. apply IH; [done|lia].
    + rw run_ret. apply IH; [done|lia].
  - destruct Hx as [-> Hid]. cbn. rw run_modify /mpioapic_apicno Hid. apply IH; [done|lia].
  - destruct Hx as [-> Hin].
    assert ((t =? MPPROC) = false ∧ (t =? MPIOAPIC) = false ∧ ((t =? MPBUS) || (t =? MPIOINTR) || (t =? MPLINTR)) = true) as (-> & -> & ->).
    { clear IH Ht. revert t Hin. apply list.Forall_forall. by repeat constructor. }
    apply IH; [done|lia].
Qed.

Lemma table_length p e l : table_at m p e l → lenZ l ≤ Z.max 0 ((e - p) / 8 + 1).
Proof.
  revert p. induction l as [|x l IH]; intros p; cbn [table_at length]; [lia|].
  intros (Hp & _ & Ht%IH). assert (8 ≤ esize x) by by destruct x. lia.
Qed.

Lemma take_take_app {A} n (l k : list A) : take n (take n l ++ k) = take n (l ++ k).
Proof. rw !take_app take_take Nat.min_id length_take. do 2 f_equal. lia. Qed.

(** The processors recorded so far. *)
Definition known (s : mps) (L : list Z) : Prop :=
  length (ms_apicid s) = Z.to_nat NCPU ∧ ms_ncpu s = lenZ L ∧ take (length L) (ms_apicid s) = L.

Lemma known_enter s L x :
  known s L → lenZ L ≤ NCPU → known (enter s x) (take (Z.to_nat NCPU) (L ++ procs [x])).
Proof.
  intros (Hl & Hn & Ht) Hle. rw /NCPU in Hl, Hle. destruct x as [id|id|t]; cbn [enter procs omap list_omap];
    rw ?app_nil_r; try (rw take_ge; [rw /NCPU; lia|]; by split_and!).
  rw Hn. destruct (Z.ltb_spec (lenZ L) NCPU) as [Hc|Hc]; rw /NCPU in Hc |- *.
  - rw take_ge; [rw length_app /=; lia|]. split_and!; cbn [add_cpu ms_apicid ms_ncpu].
    + rw length_setZ //.
    + rw Hn length_app /=. lia.
    + rw length_app /= Hn /setZ Nat2Z.id. rw Nat.add_1_r (take_S_r _ _ id).
      * apply list_lookup_insert_eq. lia.
      * rw take_insert_ge; [lia|]. by rw Ht.
  - rw take_app_le; [lia|]. rw take_ge; [lia|]. by split_and!.
Qed.

Lemma known_fold l s L :
  known s L → lenZ L ≤ NCPU → known (fold_left enter l s) (take (Z.to_nat NCPU) (L ++ procs l)).
Proof.
  revert s L. induction l as [|x l IH]; intros s L Hk Hl; cbn [fold_left].
  - rw app_nil_r take_ge //. rw /NCPU in Hl |- *. lia.
  - apply (known_enter _ _ x) in Hk; [|done]. specialize (IH _ _ Hk).
    rw take_take_app -app_assoc -omap_app in IH. apply IH. rw length_take /NCPU. lia.
Qed.

Lemma enter_rest l s :
  ms_ioapicid (fold_left enter l s) = default (ms_ioapicid s) (list.last (ioapics l)) ∧ ms_lapic (fold_left enter l s) = ms_lapic s.
Proof.
  revert s. induction l as [|x l IH]; intros s; [done|]. cbn [fold_left]. destruct (IH (enter s x)) as [-> ->].
  destruct x as [id|id|t]; cbn [enter ioapics omap list_omap]; [by destruct (_ <? _)| |done].
  split; [|done]. rw last_cons. by destruct (list.last _).
Qed.

(** *** Which processor is this? *)

Lemma cpunum_loop_run n j cpus (L : list Z) (i : nat) id :
  NoDup L → L !! i = Some id → (∀ k x, L !! k = Some x → nthZ cpus (Z.of_nat k) = x) → (j ≤ i < j + n)%nat →
  cpunum_loop n (Z.of_nat j) cpus id = Some (Z.of_nat i).
Proof.
  intros Hnd Hi Hc. revert j. induction n as [|n IH]; intros j Hj; [lia|]. cbn [cpunum_loop].
  destruct (decide (j = i)) as [->|Hne]; [by rw (Hc i id Hi) Z.eqb_refl|].
  assert (is_Some (L !! j)) as [x Hx] by (apply lookup_lt_is_Some; apply lookup_lt_Some in Hi; lia).
  rw (Hc j x Hx). destruct (Z.eqb_spec x id) as [->|].
  { destruct Hne. exact (NoDup_lookup L j i id Hnd Hx Hi). }
  rw (_ : Z.of_nat j + 1 = Z.of_nat (S j)); [lia|]. apply IH. lia.
Qed.

Lemma cpunum_run s L (i : nat) id low ret :
  known s L → NoDup L → L !! i = Some id → ms_lapic s ≠ 0 → 0 ≤ low < 2 ^ 24 →
  cpunum false ret (id * 2 ^ 24 + low) s = Ret (Z.of_nat i) s.
Proof.
  intros (Hl & Hn & Ht) Hnd Hi Hlp Hlow. rw /cpunum run_ret run_gets. destruct (Z.eqb_spec (ms_lapic s) 0); [done|].
  rw Z.shiftr_div_pow2 // (_ : (id * 2 ^ 24 + low) / 2 ^ 24 = id); [lia|]. rw Hn Nat2Z.id.
  pose proof (lookup_lt_Some _ _ _ Hi).
  rw (cpunum_loop_run (length L) 0 _ L i id) //; [|lia].
  intros k x Hk. rw /nthZ Nat2Z.id nth_lookup. rewrite -Ht in Hk. apply lookup_take_Some in Hk as [-> _]. done.
Qed.

Lemma lapic_nonnull conf : (∀ a, byte (m a)) → P2V (conf_lapicaddr m conf) ≠ 0.
Proof.
  intros Hb. rw /P2V /conf_lapicaddr /word32 /u64 /KERNBASE /=.
  pose proof (Hb (conf + 36)) as H0. pose proof (Hb (conf + 36 + 1)) as H1. pose proof (Hb (conf + 36 + 2)) as H2.
  pose proof (Hb (conf + 36 + 3)) as H3. rw /byte in H0 H1 H2 H3. lia.
Qed.

(** C30: [mpinit] trusts only a floating structure and a table whose signatures and
    checksums are right; it records the first [NCPU] processors of the table in
    order, the last I/O APIC and the address of the local APICs.  Then [cpunum]
    gives the processor with the [i]th APIC id, and no other, the number [i]. *)
Theorem mpinit_correct imcr mp conf l :
  (∀ a, byte (m a)) → mpconfig m = Some (Some (mp, conf)) →
  table_at m (conf + sizeof_mpconf) (conf + conf_length m conf) l →
  let cpus := take (Z.to_nat NCPU) (procs l) in
  valid_mp m mp ∧ valid_conf m conf ∧
  ∃ s', mpinit m imcr mps0 = Ret tt s' ∧
    ms_ncpu s' = lenZ cpus ∧ take (length cpus) (ms_apicid s') = cpus ∧
    ms_ioapicid s' = default 0 (list.last (ioapics l)) ∧ ms_lapic s' = P2V (conf_lapicaddr m conf) ∧
    (NoDup cpus → ∀ (i : nat) id low ret, cpus !! i = Some id → 0 ≤ low < 2 ^ 24 →
       cpunum false ret (id * 2 ^ 24 + low) s' = Ret (Z.of_nat i) s').
Proof.
  intros Hb Hc Ht cpus. destruct (mpconfig_valid m Hb) as (r & Hr & Hv). rw Hc in Hr. injection Hr as <-.
  destruct (Hv _ _ eq_refl) as (Hmp & _ & Hconf). split; [done|]. split; [done|]. rw /mpinit Hc run_modify.
  set s1 := set_lapic _ mps0. pose proof (table_length _ _ _ Ht) as Hlen.
  assert (mpinit_loop (Z.to_nat (conf_length m conf / 8 + 2)) m (conf + sizeof_mpconf) (conf + conf_length m conf) s1 =
    Ret tt (fold_left enter l s1)) as Hl.
  { apply mpinit_loop_run; [done|]. rw /sizeof_mpconf in Hlen. pose proof (conf_length_range m conf Hb). lia. }
  rw (run_bind _ _ _ _ _ Hl) run_gets run_modify. destruct (enter_rest l s1) as [Hio Hla].
  pose proof (known_fold l s1 [] (conj eq_refl (conj eq_refl eq_refl)) ltac:(done)) as Hk. set s2 := fold_left enter l s1 in Hio Hla Hk |- *.
  set s3 := say _ _ s2. assert (∃ out, when (negb (mp_imcrp m mp =? 0)) (modify (outb 0x22 0x70);; modify (outb 0x23 (Z.lor imcr 1))) s3 =
    Ret tt (mkMps (ms_apicid s2) (ms_ncpu s2) (ms_ioapicid s2) (ms_lapic s2) (ms_warned s2) (ms_msgs s3) out)) as (out & Ho).
  { destruct (negb _); cbn [when]; by eexists. }
  eexists. split; [exact Ho|]. destruct Hk as (Hk1 & Hk2 & Hk3). split_and!; [exact Hk2|exact Hk3|exact Hio|exact Hla|].
  intros Hnd i id low ret Hi Hlow. apply (cpunum_run _ cpus); [by split_and!|done|done| |done].
  cbn [ms_lapic]. rw Hla /s1 /=. apply lapic_nonnull. done.
Qed.

End table.

(** ** A machine with two processors *)

Definition fix_sum (k : Z) (l : list Z) : list Z := setZ k ((- foldr Z.add 0 l) mod 256) l.
Definition mp_bytes : list Z := fix_sum 10 (MP_SIG ++ le_encode 4 0x9FD00 ++ [1; 4; 0; 0; 0; 0; 0; 0]).
Definition conf_bytes : list Z :=
  fix_sum 7 (PCMP_SIG ++ le_encode 2 100 ++ [4; 0] ++ replicate 28 0 ++ le_encode 4 0xFEE00000 ++ replicate 4 0 ++
    [0; 4] ++ replicate 18 0 ++ [0; 9] ++ replicate 18 0 ++ [1; 0] ++ replicate 6 0 ++ [2; 3] ++ replicate 6 0).

Definition lay (a : Z) (l : list Z) (m : mem) : mem := λ x, if (P2V a <=? x) && (x <? P2V a + lenZ l) then nthZ l (x - P2V a) else m x.
Definition mem_smp : mem := lay 0x40E [0xC0; 0x9F] (lay 0x9FC00 mp_bytes (lay 0x9FD00 conf_bytes (λ _, 0))).

Lemma lay_byte a l m : bytes l → (∀ x, byte (m x)) → ∀ x, byte (lay a l m x).
Proof.
  intros Hl Hm x. rw /lay. destruct (_ && _); [|done]. rw /nthZ.
  destruct (nth_in_or_default (Z.to_nat (x - P2V a)) l 0) as [Hin| ->]; [|done].
  apply list_elem_of_In in Hin. revert Hin. by apply list.Forall_forall.
Qed.

Lemma mem_smp_byte a : byte (mem_smp a).
Proof. apply lay_byte; [by apply (bool_decide_eq_true _)|]. do 2 (apply lay_byte; [by apply (bool_decide_eq_true _)|]). done. Qed.

Lemma mpinit_correct_witness :
  ∃ s', mpinit mem_smp 0 mps0 = Ret tt s' ∧ ms_ncpu s' = 2 ∧ ms_ioapicid s' = 3 ∧ cpunum false 0 (9 * 2 ^ 24 + 5) s' = Ret 1 s'.
Proof.
  destruct (mpinit_correct mem_smp 0 (P2V 0x9FC00) (P2V 0x9FD00) [Proc 4; Proc 9; Other MPBUS; Ioapic 3] mem_smp_byte)
    as (_ & _ & s' & Hr & Hn & _ & Hio & _ & Hc).
  - vm_compute. reflexivity.
  - cbn [table_at entry_at]. split_and!; try (vm_compute; reflexivity); [by apply (bool_decide_eq_true _)|vm_compute; discriminate].
  - exists s'. split; [exact Hr|]. clear Hr. split; [exact Hn|]. split; [exact Hio|].
    apply (Hc (ltac:(by apply (bool_decide_eq_true _))) 1%nat 9 5 0); [reflexivity|lia].
Defined.
