(* ===== verification/Apic.v ===== *)
(** * Interrupt controllers, clock chip and serial port: ioapic.c, lapic.c, uart.c

    The I/O APIC is a bank of registers reached through an index register.  The
    local APIC and the clock chip are devices whose registers change by
    themselves: [rd k r] is what register [r] shows at the [k]th access, and the
    state counts the accesses and keeps what was written.

    Theorems: after any calls of [ioapicenable] each interrupt line is routed as
    the last call for it says, and the lines no driver enabled are masked;
    [cmostime] waits for an update of the clock to end and gives the date the
    chip shows, in binary or in BCD. *)

From S2P Require Import Prelude CString Kernel Kalloc Mp.

Definition T_IRQ0 : Z := 32.

(** ** ioapic.c *)

Definition REG_ID : Z := 0x00.
Definition REG_VER : Z := 0x01.
Definition REG_TABLE : Z := 0x10.
Definition INT_DISABLED : Z := 0x00010000.

(** [struct ioapic]: the index register and the registers it selects. *)
Record ioapic := mkIoapic { io_reg : Z; io_data : Z → Z; io_warned : bool }.

Definition ioapicread (reg : Z) : M ioapic Z := λ s,
  let s := mkIoapic reg (io_data s) (io_warned s) in Ret (io_data s (io_reg s)) s.

Definition ioapicwrite (reg data : Z) : M ioapic unit :=
  modify (λ s, let s := mkIoapic reg (io_data s) (io_warned s) in mkIoapic (io_reg s) (mset (io_reg s) (u32 data) (io_data s)) (io_warned s)).

Fixpoint ioapicinit_loop (fuel : nat) (i maxintr : Z) : M ioapic unit :=
  match fuel with
  | O => diverge
  | S fuel =>
    if i <=? maxintr then
      ioapicwrite (REG_TABLE + 2 * i) (Z.lor INT_DISABLED (T_IRQ0 + i));;
      ioapicwrite (REG_TABLE + 2 * i + 1) 0;;
      ioapicinit_loop fuel (i + 1) maxintr
    else mret tt
  end.

(** The message about the id is recorded by [io_warned]. *)
Definition ioapicinit (ioapicid : Z) : M ioapic unit :=
  v ← ioapicread REG_VER;
  let maxintr := Z.land (Z.shiftr v 16) 0xFF in
  v ← ioapicread REG_ID;
  let id := Z.shiftr v 24 in
  when (negb (id =? ioapicid)) (modify (λ s, mkIoapic (io_reg s) (io_data s) true));;
  ioapicinit_loop (Z.to_nat (maxintr + 2)) 0 maxintr.

Definition ioapicenable (irq cpunum : Z) : M ioapic unit :=
  ioapicwrite (REG_TABLE + 2 * irq) (T_IRQ0 + irq);;
  ioapicwrite (REG_TABLE + 2 * irq + 1) (Z.shiftl cpunum 24).

(** ** lapic.c: the local APIC *)

Definition ID : Z := 0x0020 / 4.
Definition VER : Z := 0x0030 / 4.
Definition TPR : Z := 0x0080 / 4.
Definition EOI : Z := 0x00B0 / 4.
Definition SVR : Z := 0x00F0 / 4.
Definition ENABLE : Z := 0x00000100.
Definition ESR : Z := 0x0280 / 4.
Definition ICRLO : Z := 0x0300 / 4.
Definition INIT : Z := 0x00000500.
Definition STARTUP : Z := 0x00000600.
Definition DELIVS : Z := 0x00001000.
Definition ASSERT : Z := 0x00004000.
Definition LEVEL : Z := 0x00008000.
Definition BCAST : Z := 0x00080000.
Definition ICRHI : Z := 0x0310 / 4.
Definition TIMER : Z := 0x0320 / 4.
Definition X1 : Z := 0x0000000B.
Definition PERIODIC : Z := 0x00020000.
Definition PCINT : Z := 0x0340 / 4.
Definition LINT0 : Z := 0x0350 / 4.
Definition LINT1 : Z := 0x0360 / 4.
Definition ERROR : Z := 0x0370 / 4.
Definition MASKED : Z := 0x00010000.
Definition TICR : Z := 0x0380 / 4.
Definition TDCR : Z := 0x03E0 / 4.
Definition IRQ_TIMER : Z := 0.
Definition IRQ_ERROR : Z := 19.
Definition IRQ_SPURIOUS : Z := 31.

Definition CMOS_PORT : Z := 0x70.
Definition CMOS_STATA : Z := 0x0a.
Definition CMOS_STATB : Z := 0x0b.
Definition CMOS_UIP : Z := Z.shiftl 1 7.
Definition SECS : Z := 0x00.
Definition MINS : Z := 0x02.
Definition HOURS : Z := 0x04.
Definition DAY : Z := 0x07.
Definition MONTH : Z := 0x08.
Definition YEAR : Z := 0x09.

Definition COM1 : Z := 0x3f8.
Definition IRQ_COM1 : Z := 4.
(** "xv6...\n" *)
Definition announce : list Z := [120; 118; 54; 46; 46; 46; 10].

(** What goes to a device. *)
Inductive access :=
| Lapic (index value : Z)
| Port (port value : Z)
| Mem16 (addr value : Z).

Record dev := mkDev { dv_time : nat; dv_sent : list access }.

Definition send (x : access) : M dev unit := modify (λ s, mkDev (S (dv_time s)) (dv_sent s ++ [x])).

Section devices.
Context (rd : nat → Z → Z).

Definition recv (r : Z) : M dev Z := λ s, Ret (rd (dv_time s) r) (mkDev (S (dv_time s)) (dv_sent s)).

Definition lapicw (index value : Z) : M dev unit := send (Lapic index (u32 value));; _ ← recv ID; mret tt.

Fixpoint wait_delivs (fuel : nat) : M dev unit :=
  match fuel with
  | O => diverge
  | S fuel => v ← recv ICRLO; if Z.land v DELIVS =? 0 then mret tt else wait_delivs fuel
  end.

(** [fuel] bounds the polls of the delivery status. *)
Definition lapicinit (fuel : nat) (lapic : Z) : M dev unit :=
  if lapic =? 0 then mret tt else
  lapicw SVR (Z.lor ENABLE (T_IRQ0 + IRQ_SPURIOUS));;
  lapicw TDCR X1;;
  lapicw TIMER (Z.lor PERIODIC (T_IRQ0 + IRQ_TIMER));;
  lapicw TICR 10000000;;
  lapicw LINT0 MASKED;;
  lapicw LINT1 MASKED;;
  v ← recv VER;
  when (Z.land (Z.shiftr v 16) 0xFF >=? 4) (lapicw PCINT MASKED);;
  lapicw ERROR (T_IRQ0 + IRQ_ERROR);;
  lapicw ESR 0;;
  lapicw ESR 0;;
  lapicw EOI 0;;
  lapicw ICRHI 0;;
  lapicw ICRLO (Z.lor (Z.lor BCAST INIT) LEVEL);;
  wait_delivs fuel;;
  lapicw TPR 0.

Definition microdelay (us : Z) : M dev unit := mret tt.

Definition outb (port v : Z) : M dev unit := send (Port port (u8 v)).

Definition startup_ipi (apicid addr : Z) : M dev unit :=
  lapicw ICRHI (Z.shiftl apicid 24);;
  lapicw ICRLO (Z.lor STARTUP (Z.shiftr addr 12));;
  microdelay 200.

Definition lapicstartap (apicid addr : Z) : M dev unit :=
  outb CMOS_PORT 0xF;;
  outb (CMOS_PORT + 1) 0x0A;;
  let wrv := P2V (Z.lor (Z.shiftl 0x40 4) 0x67) in
  send (Mem16 wrv 0);;
  send (Mem16 (wrv + 2) (u16 (Z.shiftr addr 4)));;
  lapicw ICRHI (Z.shiftl apicid 24);;
  lapicw ICRLO (Z.lor (Z.lor INIT LEVEL) ASSERT);;
  microdelay 200;;
  lapicw ICRLO (Z.lor INIT LEVEL);;
  microdelay 100;;
  for_up 2 0 (λ _, startup_ipi apicid addr).

(** ** lapic.c: the clock *)

Record rtcdate := mkDate { second : Z; minute : Z; hour : Z; day : Z; month : Z; year : Z }.
#[global] Instance rtcdate_eq : EqDecision rtcdate.
Proof. solve_decision. Defined.

Definition cmos_read (reg : Z) : M dev Z := outb CMOS_PORT reg;; microdelay 200;; recv reg.

Definition fill_rtcdate : M dev rtcdate :=
  s ← cmos_read SECS;
  m ← cmos_read MINS;
  h ← cmos_read HOURS;
  d ← cmos_read DAY;
  mo ← cmos_read MONTH;
  y ← cmos_read YEAR;
  mret (mkDate s m h d mo y).

(** Until two readings agree; comparing the structures is comparing their bytes. *)
Fixpoint cmos_loop (fuel : nat) : M dev rtcdate :=
  match fuel with
  | O => diverge
  | S fuel =>
    t1 ← fill_rtcdate;
    a ← cmos_read CMOS_STATA;
    if negb (Z.land a CMOS_UIP =? 0) then cmos_loop fuel else
    t2 ← fill_rtcdate;
    if decide (t1 = t2) then mret t1 else cmos_loop fuel
  end.

Definition CONV (x : Z) : Z := u32 (Z.shiftr x 4 * 10 + Z.land x 0xf).

Definition convert (t : rtcdate) : rtcdate :=
  mkDate (CONV (second t)) (CONV (minute t)) (CONV (hour t)) (CONV (day t)) (CONV (month t)) (CONV (year t)).

Definition cmostime (fuel : nat) : M dev rtcdate :=
  sb ← cmos_read CMOS_STATB;
  let bcd := Z.land sb (Z.shiftl 1 2) =? 0 in
  t1 ← cmos_loop fuel;
  let t1 := if bcd then convert t1 else t1 in
  mret (mkDate (second t1) (minute t1) (hour t1) (day t1) (month t1) (u32 (year t1 + 2000))).

(** ** uart.c: the serial port at start-up *)

Fixpoint uart_wait (n : nat) : M dev unit :=
  match n with
  | O => mret tt
  | S n => v ← recv (COM1 + 5); if Z.land v 0x20 =? 0 then microdelay 10;; uart_wait n else mret tt
  end.

Definition uartputc (uart c : Z) : M dev unit :=
  if uart =? 0 then mret tt else
  uart_wait 128;;
  outb (COM1 + 0) c.

Fixpoint uart_puts (uart : Z) (l : list Z) : M dev unit :=
  match l with [] => mret tt | c :: l => uartputc uart c;; uart_puts uart l end.

(** The new value of [uart], which was 0. *)
Definition uartearlyinit : M dev Z :=
  outb (COM1 + 2) 0;;
  outb (COM1 + 3) 0x80;;
  outb (COM1 + 0) (115200 / 9600);;
  outb (COM1 + 1) 0;;
  outb (COM1 + 3) 0x03;;
  outb (COM1 + 4) 0;;
  outb (COM1 + 1) 0x01;;
  v ← recv (COM1 + 5);
  if v =? 0xFF then mret 0 else
  uart_puts 1 announce;;
  mret 1.

End devices.

(** [uartinit] reads two registers to clear them, then enables its interrupt. *)
Definition uartinit (uart : Z) : M ioapic unit :=
  if uart =? 0 then mret tt else ioapicenable IRQ_COM1 0.

(** ** Routing *)

(** Line [i] is routed to a processor, or masked. *)
Record routed (i : Z) (o : option Z) (s : ioapic) : Prop := {
  rt_low : io_data s (REG_TABLE + 2 * i) = match o with Some _ => T_IRQ0 + i | None => INT_DISABLED + (T_IRQ0 + i) end;
  rt_high : io_data s (REG_TABLE + 2 * i + 1) = default 0 o * 2 ^ 24;
}.

Lemma ioapicinit_loop_run fuel i maxintr s :
  0 ≤ i ≤ maxintr + 1 → maxintr ≤ 255 → maxintr + 1 - i < Z.of_nat fuel →
  total (ioapicinit_loop fuel i maxintr) s (λ _ s', (∀ j, i ≤ j ≤ maxintr → routed j None s') ∧ (∀ r, r < REG_TABLE + 2 * i → io_data s' r = io_data s r)).
Proof.
  revert i s. induction fuel as [|fuel IH]; intros i s Hi Hm Hf; [lia|]. cbn [ioapicinit_loop].
  destruct (Z.leb_spec i maxintr) as [Hle|]; [|apply total_ret; split; [lia|done]].
  eapply total_run; [done|]. eapply total_run; [done|].
  eapply total_mono; [apply IH; [lia|lia|lia]|]. intros [] s' [Hr Ho]. split.
  - intros j Hj. destruct (decide (j = i)) as [->|]; [|apply Hr; lia]. split; (rw Ho; [lia|]); rw /= /mset /REG_TABLE.
    + rw (_ : 16 + 2 * i =? 16 + 2 * i + 1 = false); [lia|]. rw Z.eqb_refl.
      change INT_DISABLED with (1 * 2 ^ 16). rw lor_add; [lia|rw /T_IRQ0; lia|]. rw /u32 /T_IRQ0. lia.
    + by rw Z.eqb_refl.
  - intros r Hlt. rw Ho; [rw /REG_TABLE in Hlt |- *; lia|]. rw /= /mset.
    rw (_ : r =? REG_TABLE + 2 * i + 1 = false); [lia|]. by rw (_ : r =? REG_TABLE + 2 * i = false); [lia|].
Qed.

Lemma ioapicenable_run irq cpu s :
  0 ≤ irq ≤ 255 → 0 ≤ cpu < 256 →
  ∃ s', ioapicenable irq cpu s = Ret tt s' ∧ ∀ j o, routed j o s → routed j (if irq =? j then Some cpu else o) s'.
Proof.
  intros Hi Hc. eexists. split; [done|]. intros j o [Hl Hh]. rw Z.shiftl_mul_pow2 //.
  destruct (Z.eqb_spec irq j) as [->|Hne]; split; rw /= /mset.
  - rw (_ : REG_TABLE + 2 * j =? REG_TABLE + 2 * j + 1 = false); [lia|]. rw Z.eqb_refl /u32 /T_IRQ0. lia.
  - rw Z.eqb_refl /u32. lia.
  - rw (_ : REG_TABLE + 2 * j =? REG_TABLE + 2 * irq + 1 = false); [lia|].
    by rw (_ : REG_TABLE + 2 * j =? REG_TABLE + 2 * irq = false); [lia|].
  - rw (_ : REG_TABLE + 2 * j + 1 =? REG_TABLE + 2 * irq + 1 = false); [lia|].
    by rw (_ : REG_TABLE + 2 * j + 1 =? REG_TABLE + 2 * irq = false); [lia|].
Qed.

(** The calls of [ioapicenable] the drivers make, and what they say of line [i]. *)
Fixpoint enables (es : list (Z * Z)) : M ioapic unit :=
  match es with [] => mret tt | e :: es => ioapicenable e.1 e.2;; enables es end.
Definition route (es : list (Z * Z)) (i : Z) (o : option Z) : option Z :=
  fold_left (λ o e, if e.1 =? i then Some e.2 else o) es o.

Lemma enables_run es s :
  Forall (λ e, 0 ≤ e.1 ≤ 255 ∧ 0 ≤ e.2 < 256) es →
  total (enables es) s (λ _ s', ∀ j o, routed j o s → routed j (route es j o) s').
Proof.
  intros Hes. revert s. induction Hes as [|e es [Hi Hc] _ IH]; intros s; [by apply total_ret|].
  destruct (ioapicenable_run e.1 e.2 s Hi Hc) as (s1 & Hr & H1). eapply total_run; [exact Hr|].
  eapply total_mono; [apply IH|]. intros [] s' H2 j o Hj. exact (H2 j _ (H1 j o Hj)).
Qed.

(** C32: after the controller is initialised and the drivers have enabled their lines,
    a line is unmasked exactly if a driver enabled it: it then raises the vector
    [T_IRQ0 + i] on the processor of the last call, and a masked line none. *)
Theorem ioapic_routes ioapicid es s :
  let maxintr := Z.land (Z.shiftr (io_data s REG_VER) 16) 0xFF in
  Forall (λ e, 0 ≤ e.1 ≤ 255 ∧ 0 ≤ e.2 < 256) es →
  ∃ s', (ioapicinit ioapicid;; enables es) s = Ret tt s' ∧
    ∀ i, 0 ≤ i ≤ Z.min maxintr 223 →
      Z.testbit (io_data s' (REG_TABLE + 2 * i)) 16 = bool_decide (route es i None = None) ∧
      io_data s' (REG_TABLE + 2 * i) mod 2 ^ 8 = T_IRQ0 + i ∧
      io_data s' (REG_TABLE + 2 * i + 1) / 2 ^ 24 = default 0 (route es i None).
Proof.
  intros maxintr Hes. assert (0 ≤ maxintr ≤ 255) as Hm.
  { pose proof (Z.land_ones (Z.shiftr (io_data s REG_VER) 16) 8 ltac:(done)) as E. change (Z.ones 8) with 0xFF in E. lia. }
  assert (total (ioapicinit ioapicid) s (λ _ s', ∀ j, 0 ≤ j ≤ maxintr → routed j None s')) as Hi.
  { eapply total_run; [done|]. eapply total_run; [done|]. rw -/maxintr.
    eapply (total_bind _ _ _ (λ _ _, True)); [destruct (negb _); cbn [when]; [by apply total_modify|by apply total_ret]|].
    intros _ s1 _. eapply total_mono; [apply ioapicinit_loop_run; lia|]. naive_solver. }
  destruct (total_bind _ (λ _, enables es) s _ (λ _ s', ∀ i, 0 ≤ i ≤ maxintr → routed i (route es i None) s') Hi) as ([] & s' & Hr & H).
  { intros [] s1 H1. eapply total_mono; [by apply enables_run|]. intros [] s' H2 i Hi'. by apply H2, H1. }
  exists s'. split; [exact Hr|]. intros i Hi'. destruct (H i ltac:(lia)) as [-> ->]. rw /T_IRQ0 /INT_DISABLED.
  destruct (route es i None) as [cpu|].
  - rw bool_decide_eq_false_2 //. rw Z.testbit_odd Z.shiftr_div_pow2 // Z.div_small; [lia|]. cbn [default]. split; [done|lia].
  - rw bool_decide_eq_true_2 //. rw Z.testbit_odd Z.shiftr_div_pow2 // (_ : (0x10000 + (32 + i)) / 2 ^ 16 = 1); [lia|].
    cbn [default]. split; [done|lia].
Qed.

Lemma ioapic_routes_witness :
  ∃ s', (ioapicinit 0;; enables [(1, 0); (4, 0); (14, 1)]) (mkIoapic 0 (mset REG_VER 0x170011 (λ _, 0)) false) = Ret tt s' ∧
    Z.testbit (io_data s' (REG_TABLE + 2 * 14)) 16 = false ∧ io_data s' (REG_TABLE + 2 * 14 + 1) / 2 ^ 24 = 1 ∧
    Z.testbit (io_data s' (REG_TABLE + 2 * 3)) 16 = true.
Proof.
  destruct (ioapic_routes 0 [(1, 0); (4, 0); (14, 1)] (mkIoapic 0 (mset REG_VER 0x170011 (λ _, 0)) false)) as (s' & Hr & H).
  - repeat constructor; cbn; lia.
  - exists s'. split; [exact Hr|]. destruct (H 14) as (H1 & _ & H2); [by vm_compute|]. destruct (H 3) as (H3 & _); [by vm_compute|].
    split; [exact H1|]. split; [exact H2|exact H3].
Defined.

(** ** The clock *)

Definition to_bcd (x : Z) : Z := x / 10 * 16 + x mod 10.

Lemma conv_bcd x : 0 ≤ x < 100 → CONV (to_bcd x) = x.
Proof.
  intros Hx. rw /CONV /to_bcd Z.shiftr_div_pow2 // (_ : Z.land (x / 10 * 16 + x mod 10) 0xf = (x / 10 * 16 + x mod 10) mod 2 ^ 4).
  - exact (Z.land_ones _ 4 ltac:(done)).
  - rw /u32. lia.
Qed.

Section clock.
Context (rd : nat → Z → Z) (binary : bool) (d : rtcdate) (K : nat).

(** How the chip shows a number, and the registers of the date [d]. *)
Definition enc (x : Z) : Z := if binary then x else to_bcd x.
Definition shown : rtcdate :=
  mkDate (enc (second d)) (enc (minute d)) (enc (hour d)) (enc (day d)) (enc (month d)) (enc (year d)).

(** The chip updates the date until access [K], and then shows [d]. *)
Record chip : Prop := {
  ch_mode k : Z.land (rd k CMOS_STATB) (Z.shiftl 1 2) = if binary then 4 else 0;
  ch_busy k : (k < K)%nat → Z.land (rd k CMOS_STATA) CMOS_UIP ≠ 0;
  ch_idle k : (K ≤ k)%nat → Z.land (rd k CMOS_STATA) CMOS_UIP = 0;
  ch_date k : (K ≤ k)%nat →
    mkDate (rd k SECS) (rd k MINS) (rd k HOURS) (rd k DAY) (rd k MONTH) (rd k YEAR) = shown;
  ch_range : Forall (λ x, 0 ≤ x < 100) [second d; minute d; hour d; day d; month d; year d];
}.

Lemma cmos_read_run r s : ∃ l, cmos_read rd r s = Ret (rd (S (dv_time s)) r) (mkDev (2 + dv_time s) l).
Proof. by eexists. Qed.

Lemma fill_run s :
  ∃ t l, fill_rtcdate rd s = Ret t (mkDev (12 + dv_time s) l) ∧ (chip → (K ≤ dv_time s)%nat → t = shown).
Proof.
  eexists _, _. split; [reflexivity|]. intros Hc Hk.
  pose proof (λ i : nat, ch_date Hc (i + dv_time s) ltac:(lia)) as Hd. rw /shown in Hd |- *. cbn [dv_time].
  f_equal; [exact (f_equal second (Hd 1%nat))|exact (f_equal minute (Hd 3%nat))|exact (f_equal hour (Hd 5%nat))
    |exact (f_equal day (Hd 7%nat))|exact (f_equal month (Hd 9%nat))|exact (f_equal year (Hd 11%nat))].
Qed.

(** An attempt either gives the date or ends later than it began. *)
Lemma cmos_loop_run fuel s :
  chip → (K < fuel + dv_time s)%nat → fuel ≠ 0%nat → ∃ s', cmos_loop rd fuel s = Ret shown s'.
Proof.
  intros Hc. revert s. induction fuel as [|fuel IH]; intros s Hf Hn; [done|]. cbn [cmos_loop].
  destruct (fill_run s) as (t1 & l1 & Hr1 & Ht1). rw (run_bind _ _ _ _ _ Hr1).
  destruct (cmos_read_run CMOS_STATA (mkDev (12 + dv_time s) l1)) as (l2 & Hr2). rw (run_bind _ _ _ _ _ Hr2). cbn [dv_time].
  destruct (decide (S (12 + dv_time s) < K)%nat) as [Hlt|Hge].
  - pose proof (ch_busy Hc _ Hlt) as Hb. rw (_ : (Z.land _ CMOS_UIP =? 0) = false); [by apply Z.eqb_neq|]. cbn [negb].
    apply IH; cbn [dv_time]; lia.
  - rw (ch_idle Hc (S (12 + dv_time s))); [lia|]. cbn [Z.eqb negb].
    destruct (fill_run (mkDev (2 + (12 + dv_time s)) l2)) as (t2 & l3 & Hr3 & Ht2). rw (run_bind _ _ _ _ _ Hr3).
    rw Ht2 //; [cbn [dv_time]; lia|]. case_decide as E; [rw E; by eexists|].
    destruct (decide (K ≤ dv_time s)%nat) as [Hk|]; [by destruct E; apply Ht1|]. apply IH; cbn [dv_time]; lia.
Qed.

(** C38: [cmostime] waits until the chip has finished updating the date, however long
    that takes, and gives the date the chip then shows, decoded from BCD where
    the chip counts so, with the century added. *)
Theorem cmostime_correct s :
  chip → ∃ s', cmostime rd (K + 1) s = Ret (mkDate (second d) (minute d) (hour d) (day d) (month d) (year d + 2000)) s'.
Proof.
  intros Hc. rw /cmostime. destruct (cmos_read_run CMOS_STATB s) as (l & Hr). rw (run_bind _ _ _ _ _ Hr) (ch_mode Hc).
  destruct (cmos_loop_run (K + 1) (mkDev (2 + dv_time s) l) Hc) as (s' & Hl); [cbn; lia|lia|]. rw (run_bind _ _ _ _ _ Hl).
  exists s'. pose proof (ch_range Hc) as Hd. rewrite !list.Forall_cons in Hd. destruct Hd as (H1 & H2 & H3 & H4 & H5 & H6 & _).
  rw /shown /enc. destruct binary; cbn [Z.eqb]; rw /convert; cbn [second minute hour day month year];
    rw ?conv_bcd // (_ : u32 (year d + 2000) = year d + 2000) //; rw /u32; lia.
Qed.

End clock.

(** A chip that is busy for ten accesses and shows 2024-07-09 21:58:07 in BCD. *)
Definition rd0 (k : nat) (r : Z) : Z :=
  if r =? CMOS_STATA then (if (k <? 10)%nat then 0xA6 else 0x26) else if r =? CMOS_STATB then 0x02 else
  if r =? SECS then (if (k <? 10)%nat then 0x06 else 0x07) else if r =? MINS then 0x58 else if r =? HOURS then 0x21 else
  if r =? DAY then 0x09 else if r =? MONTH then 0x07 else 0x24.

Lemma rd0_chip : chip rd0 false (mkDate 7 58 21 9 7 24) 10.
Proof.
  split; [done| | | |].
  - intros k Hk. rw /rd0 /= (_ : (k <? 10)%nat = true) //. by apply Nat.ltb_lt.
  - intros k Hk. rw /rd0 /= (_ : (k <? 10)%nat = false) //. by apply Nat.ltb_ge.
  - intros k Hk. rw /rd0 /= (_ : (k <? 10)%nat = false) //. by apply Nat.ltb_ge.
  - repeat constructor; cbn; lia.
Qed.

Lemma cmostime_correct_witness : ∃ s', cmostime rd0 11 (mkDev 0 []) = Ret (mkDate 7 58 21 9 7 2024) s'.
Proof. apply (cmostime_correct rd0 false (mkDate 7 58 21 9 7 24) 10 (mkDev 0 [])). exact rd0_chip. Defined.

(** ** The local APIC after [lapicinit] *)

(** The last value written to a register. *)
Definition lapic_value (l : list access) (r : Z) : option Z :=
  fold_left (λ o x, match x with Lapic i v => if i =? r then Some v else o | _ => o end) l None.

Lemma lapic_value_app l k r : lapic_value (l ++ k) r = match lapic_value k r with Some v => Some v | None => lapic_value l r end.
Proof.
  rw {1}/lapic_value fold_left_app. change (fold_left _ l None) with (lapic_value l r). generalize (lapic_value l r) as o.
  rw /lapic_value. induction k as [|x k IH] using rev_ind; intros o; [done|]. rw !fold_left_app /= IH.
  destruct x as [i v| |]; [destruct (i =? r)|..]; done.
Qed.

Lemma wait_delivs_run rd K fuel s :
  (∀ k, (K ≤ k)%nat → Z.land (rd k ICRLO) DELIVS = 0) → (K < fuel + dv_time s)%nat → fuel ≠ 0%nat →
  ∃ t, wait_delivs rd fuel s = Ret tt (mkDev t (dv_sent s)).
Proof.
  intros Hk. revert s. induction fuel as [|fuel IH]; intros s Hf Hn; [done|]. cbn [wait_delivs].
  rw (run_bind _ _ _ _ _ (eq_refl : recv rd ICRLO s = Ret _ (mkDev (S (dv_time s)) (dv_sent s)))).
  destruct (Z.eqb_spec (Z.land (rd (dv_time s) ICRLO) DELIVS) 0) as [E|E]; [by eexists|].
  destruct (decide (K ≤ dv_time s)%nat) as [H|]; [by destruct E; apply Hk|].
  destruct (IH (mkDev (S (dv_time s)) (dv_sent s))) as (t & Ht); [cbn; lia|lia|]. by exists t.
Qed.

Lemma lapicw_seq {A} rd i v (k : M dev A) s : (lapicw rd i v;; k) s = k (mkDev (2 + dv_time s) (dv_sent s ++ [Lapic i (u32 v)])).
Proof. done. Qed.

(** The timer is set to raise [T_IRQ0 + IRQ_TIMER] again and again, errors and
    spurious interrupts have their vectors, the two local lines are masked, and
    nothing is left unacknowledged or held back. *)
Lemma lapicinit_run rd K lapic s :
  lapic ≠ 0 → (∀ k, (K ≤ k)%nat → Z.land (rd k ICRLO) DELIVS = 0) →
  ∃ s', lapicinit rd (K + 1) lapic s = Ret tt s' ∧
    lapic_value (dv_sent s') <$> [SVR; TDCR; TIMER; TICR; LINT0; LINT1; ERROR; ESR; EOI; TPR] =
      Some <$> [0x13F; X1; 0x20020; 10000000; MASKED; MASKED; 51; 0; 0; 0].
Proof.
  intros Hl Hk. rw /lapicinit. destruct (Z.eqb_spec lapic 0); [done|].
  rw !lapicw_seq. erewrite (run_bind (recv rd VER)); [|reflexivity].
  set b := _ >=? 4. set s1 := mkDev _ _.
  assert (∃ t l, when b (lapicw rd PCINT MASKED) s1 = Ret tt (mkDev t (dv_sent s1 ++ l)) ∧ (l = [] ∨ l = [Lapic PCINT MASKED])) as (t & l & Hp & Hn).
  { destruct b; cbn [when]; [eexists _, [_]|eexists _, []]; (split; [|by auto]); [done|]. by rw app_nil_r. }
  rw (run_bind _ _ _ _ _ Hp) !lapicw_seq. set s2 := mkDev _ _.
  destruct (wait_delivs_run rd K (K + 1) s2 Hk) as (t2 & Ht2); [lia|lia|]. rw (run_bind _ _ _ _ _ Ht2).
  eexists. split; [reflexivity|]. rw /s2 /s1. cbn [dv_sent]. rw -!app_assoc. cbn [fmap list_fmap]. rw !lapic_value_app.
  by destruct Hn as [->| ->].
Qed.

(** ** The serial port *)

(** The port is polled a bounded number of times, so nothing blocks: whatever it
    answers, the byte is sent. *)
Lemma uart_wait_run rd n s : ∃ t, uart_wait rd n s = Ret tt (mkDev t (dv_sent s)).
Proof.
  revert s. induction n as [|n IH]; intros s; cbn [uart_wait]; [exists (dv_time s); by destruct s|].
  erewrite run_bind; [|reflexivity]. destruct (_ =? 0); [|by eexists]. apply (IH (mkDev (S (dv_time s)) (dv_sent s))).
Qed.

Lemma uart_puts_run rd l s :
  bytes l → ∃ t, uart_puts rd 1 l s = Ret tt (mkDev t (dv_sent s ++ (Port COM1 <$> l))).
Proof.
  intros Hl. revert s. induction Hl as [|c l Hc _ IH]; intros s; cbn [uart_puts].
  { exists (dv_time s). rw app_nil_r. by destruct s. }
  destruct (uart_wait_run rd 128 s) as (t & Ht). rw /uartputc. cbn [Z.eqb]. rw run_assoc (run_bind _ _ _ _ _ Ht).
  erewrite run_bind; [|reflexivity]. lazymatch goal with |- context [uart_puts rd 1 l ?x] => destruct (IH x) as (t' & Ht') end. exists t'. rw Ht'. cbn [dv_sent fmap list_fmap].
  by rw -app_assoc /u8 Z.mod_small.
Qed.

(** The announcement is the last thing on the line; without a port nothing is. *)
Lemma uartearlyinit_run rd s :
  ∃ uart s' setup, uartearlyinit rd s = Ret uart s' ∧ length setup = 7%nat ∧ (uart = 0 ∨ uart = 1) ∧
    dv_sent s' = dv_sent s ++ setup ++ (if uart =? 0 then [] else Port COM1 <$> announce).
Proof.
  rw /uartearlyinit. do 8 (erewrite run_bind; [|reflexivity]). cbn [dv_sent dv_time]. destruct (_ =? 0xFF).
  - eexists 0, _, [_; _; _; _; _; _; _]. split; [reflexivity|]. split; [done|]. split; [by left|]. cbn [dv_sent Z.eqb]. by rw -!app_assoc.
  - lazymatch goal with |- context [(uart_puts rd 1 announce ≫= _) ?x] => destruct (uart_puts_run rd announce x) as (t & Ht) end;
      [by apply (bool_decide_eq_true _)|]. rw (run_bind _ _ _ _ _ Ht).
    eexists 1, _, [_; _; _; _; _; _; _]. split; [reflexivity|]. split; [done|]. split; [by right|]. cbn [dv_sent Z.eqb]. by rw -!app_assoc.
Qed.
