(* ===== verification/TextTools.v ===== *)
(** * grep.c and wc.c: two user programs

    [Grep] is the regular expression matcher and the line loop of grep.c, shown
    equal to a declarative semantics of patterns; [Wc] is the counting loop of
    wc.c.  What the successive [read] calls return is a list of chunks. *)

From S2P Require Import Prelude.

Module Grep.

(** ** The matcher

    Patterns and texts are the characters before the NUL. *)

Definition STAR : Z := 42.
Definition DOT : Z := 46.
Definition DOLLAR : Z := 36.
Definition CARET : Z := 94.
Definition NL : Z := 10.

(** [matchstar c re text]; [here] is [matchhere re]. *)
Definition matchstar (here : list Z → bool) (c : Z) : list Z → bool :=
  fix loop text :=
    here text ||
    match text with
    | [] => false
    | t :: text' => ((t =? c) || (c =? DOT)) && loop text'
    end.

Fixpoint matchhere (re text : list Z) {struct re} : bool :=
  match re with
  | [] => true
  | c :: re1 =>
    let plain :=
      if (c =? DOLLAR) && bool_decide (re1 = []) then bool_decide (text = [])
      else match text with
           | [] => false
           | t :: text' => if (c =? DOT) || (c =? t) then matchhere re1 text' else false
           end in
    match re1 with
    | s :: re2 => if s =? STAR then matchstar (matchhere re2) c text else plain
    | [] => plain
    end
  end.

(** The loop of [match] over the suffixes of the text. *)
Fixpoint match_from (re text : list Z) : bool :=
  matchhere re text || match text with [] => false | _ :: text' => match_from re text' end.

Definition match_ (re text : list Z) : bool :=
  match re with
  | c :: re' => if c =? CARET then matchhere re' text else match_from re text
  | [] => match_from re text
  end.

(** ** The line loop *)

(** [strchr(p, '\n')]: the characters before the first newline, and those after. *)
Fixpoint next_line (p : list Z) : option (list Z * list Z) :=
  match p with
  | [] => None
  | c :: p' =>
    if c =? 0 then None else
    if c =? NL then Some ([], p')
    else match next_line p' with
         | Some (l, r) => Some (c :: l, r)
         | None => None
         end
  end.

(** The inner loop: what is written, and where [p] ends. *)
Fixpoint grep_lines (fuel : nat) (pat p : list Z) : list Z * list Z :=
  match fuel with
  | O => ([], p)
  | S fuel =>
    match next_line p with
    | None => ([], p)
    | Some (l, q) =>
      let r := grep_lines fuel pat q in
      ((if match_ pat l then l ++ [NL] else []) ++ r.1, r.2)
    end
  end.

(** [buf] holds the [m] characters kept from the reads before. *)
Fixpoint grep_loop (pat buf : list Z) (chunks : list (list Z)) : list Z :=
  match chunks with
  | [] => []
  | [] :: _ => []
  | ch :: chunks =>
    let b := buf ++ ch in
    let r := grep_lines (S (length b)) pat b in
    let buf := if bool_decide (length r.2 = length b) then [] else r.2 in
    r.1 ++ grep_loop pat buf chunks
  end.

Definition grep (pat : list Z) (chunks : list (list Z)) : list Z := grep_loop pat [] chunks.

(** ** What patterns mean *)

Inductive atom := Lit (c : Z) | Any.
Inductive item := One (a : atom) | Many (a : atom) | End.

Definition atom_of (c : Z) : atom := if c =? DOT then Any else Lit c.
Definition accepts (a : atom) (t : Z) : Prop := match a with Lit c => t = c | Any => True end.

Fixpoint items (re : list Z) : list item :=
  match re with
  | [] => []
  | c :: re1 =>
    let plain := if (c =? DOLLAR) && bool_decide (re1 = []) then [End] else One (atom_of c) :: items re1 in
    match re1 with
    | s :: re2 => if s =? STAR then Many (atom_of c) :: items re2 else plain
    | [] => plain
    end
  end.

(** [matches is w rest]: the items match [w] when [rest] follows it. *)
Inductive matches : list item → list Z → list Z → Prop :=
  | m_nil rest : matches [] [] rest
  | m_one a is' t w rest : accepts a t → matches is' w rest → matches (One a :: is') (t :: w) rest
  | m_stop a is' w rest : matches is' w rest → matches (Many a :: is') w rest
  | m_more a is' t w rest : accepts a t → matches (Many a :: is') w rest → matches (Many a :: is') (t :: w) rest
  | m_end : matches [End] [] [].

(** The complete lines of a text, without their newlines. *)
Fixpoint lines (cur text : list Z) : list (list Z) :=
  match text with
  | [] => []
  | c :: text => if c =? NL then cur :: lines [] text else lines (cur ++ [c]) text
  end.
(** What follows the last newline. *)
Fixpoint partial (cur text : list Z) : list Z :=
  match text with
  | [] => cur
  | c :: text => if c =? NL then partial [] text else partial (cur ++ [c]) text
  end.

Definition report (pat l : list Z) : list Z := if match_ pat l then l ++ [NL] else [].

(** ** The matcher is correct *)

Lemma accepts_star c t : (t =? c) || (c =? DOT) = true ↔ accepts (atom_of c) t.
Proof. rw /accepts /atom_of. destruct (Z.eqb_spec c DOT), (Z.eqb_spec t c); simpl; naive_solver. Qed.

Lemma accepts_one c t : (c =? DOT) || (c =? t) = true ↔ accepts (atom_of c) t.
Proof. rw /accepts /atom_of. destruct (Z.eqb_spec c DOT), (Z.eqb_spec c t); simpl; naive_solver. Qed.

Lemma matchstar_spec here c is' text :
  (∀ text, here text = true ↔ ∃ w rest, text = w ++ rest ∧ matches is' w rest) →
  matchstar here c text = true ↔ ∃ w rest, text = w ++ rest ∧ matches (Many (atom_of c) :: is') w rest.
Proof.
  intros Hh. induction text as [|t text IH]; cbn [matchstar]; rw orb_true_iff Hh.
  - split; [|intros (w & rest & E & Hm); left].
    + intros [(w & rest & E & Hm)|?]; [|done]. exists w, rest. split; [done|by constructor].
    + exists w, rest. split; [done|]. inversion Hm; subst; done.
  - fold (matchstar here c text). rw andb_true_iff IH accepts_star. split.
    + intros [(w & rest & E & Hm)|(Ha & w & rest & -> & Hm)].
      * exists w, rest. split; [done|by constructor].
      * exists (t :: w), rest. split; [done|by constructor].
    + intros (w & rest & E & Hm). inversion Hm; simplify_eq/=; [left; by eauto|right; by eauto].
Qed.

Lemma matchhere_spec re text :
  matchhere re text = true ↔ ∃ w rest, text = w ++ rest ∧ matches (items re) w rest.
Proof.
  revert text. induction re as [re IH] using (induction_ltof1 _ (@length Z)); intros text.
  rw /ltof in IH. destruct re as [|c re1].
  { split; [|done]. intros _. exists [], text. split; [done|constructor]. }
  set (plain := if (c =? DOLLAR) && bool_decide (re1 = []) then bool_decide (text = [])
      else match text with [] => false
           | t :: text' => if (c =? DOT) || (c =? t) then matchhere re1 text' else false end).
  set (pitems := if (c =? DOLLAR) && bool_decide (re1 = []) then [End] else One (atom_of c) :: items re1).
  assert (plain = true ↔ ∃ w rest, text = w ++ rest ∧ matches pitems w rest) as Hp.
  { rw /plain /pitems. destruct ((c =? DOLLAR) && bool_decide (re1 = [])).
    - rw bool_decide_eq_true. split; [intros ->; exists [], []; split; [done|constructor]|].
      intros (w & rest & -> & Hm). by inversion Hm.
    - destruct text as [|t text].
      + split; [done|]. intros (w & rest & E & Hm). inversion Hm; by simplify_eq/=.
      + destruct ((c =? DOT) || (c =? t)) eqn:Ea.
        * apply accepts_one in Ea. rw IH; [simpl; lia|]. split.
          -- intros (w & rest & -> & Hm). exists (t :: w), rest. split; [done|by constructor].
          -- intros (w & rest & E & Hm). inversion Hm; simplify_eq/=. eauto.
        * split; [done|]. intros (w & rest & E & Hm). inversion Hm; simplify_eq/=.
          match goal with H : accepts _ _ |- _ => apply accepts_one in H end. congruence. }
  cbn [matchhere items]. fold plain pitems. destruct re1 as [|s re2]; [done|].
  destruct (s =? STAR); [|done]. apply matchstar_spec. intros text'. apply IH. simpl. lia.
Qed.

Lemma match_from_spec re text :
  match_from re text = true ↔ ∃ pre w rest, text = pre ++ w ++ rest ∧ matches (items re) w rest.
Proof.
  induction text as [|t text IH]; cbn [match_from]; rw orb_true_iff matchhere_spec.
  - split; [|intros (pre & w & rest & E & Hm)].
    + intros [(w & rest & E & Hm)|?]; [by exists [], w, rest|done].
    + destruct pre, w, rest; try done. left. by exists [], [].
  - rw IH. split.
    + intros [(w & rest & -> & Hm)|(pre & w & rest & -> & Hm)]; [by exists [], w, rest|by exists (t :: pre), w, rest].
    + intros ([|p pre] & w & rest & E & Hm); simplify_eq/=; [left; eauto|right; eauto].
Qed.

(** C36: the matcher of grep.c implements the semantics of its patterns:
    [match_] accepts a line exactly when some part of it (a prefix, if the
    pattern starts with a caret) is matched by the items of the pattern, a
    final dollar asking for the end of the line. *)
Theorem match_correct (re text : list Z) :
  match_ re text = true ↔
  ∃ pre w rest, text = pre ++ w ++ rest ∧
    match re with
    | c :: re' => if c =? CARET then pre = [] ∧ matches (items re') w rest else matches (items re) w rest
    | [] => matches (items re) w rest
    end.
Proof.
  destruct re as [|c re']; cbn [match_]; [apply match_from_spec|].
  destruct (c =? CARET); [|apply match_from_spec]. rw matchhere_spec. split.
  - intros (w & rest & -> & Hm). by exists [], w, rest.
  - intros (? & w & rest & -> & -> & Hm). by exists w, rest.
Qed.

(** ** The lines *)

Lemma lines_app cur a b : lines cur (a ++ b) = lines cur a ++ lines (partial cur a) b.
Proof. revert cur. induction a as [|c a IH]; intros cur; simpl; [done|]. destruct (c =? NL); simpl; by rw IH. Qed.

Lemma partial_app cur a b : partial cur (a ++ b) = partial (partial cur a) b.
Proof. revert cur. induction a as [|c a IH]; intros cur; simpl; [done|]. by destruct (c =? NL). Qed.

Lemma next_line_none p : 0 ∉ p → next_line p = None → NL ∉ p.
Proof.
  induction p as [|c p IH]; simpl; [set_solver|]. intros H0. destruct (Z.eqb_spec c 0); [set_solver|].
  destruct (Z.eqb_spec c NL); [done|]. destruct (next_line p) as [[? ?]|]; [done|]. set_solver.
Qed.

Lemma next_line_some p l q : next_line p = Some (l, q) → p = l ++ NL :: q ∧ NL ∉ l.
Proof.
  revert l. induction p as [|c p IH]; intros l; simpl; [done|]. destruct (Z.eqb_spec c 0); [done|].
  destruct (Z.eqb_spec c NL) as [->|]; [intros [= <- <-]; set_solver|].
  destruct (next_line p) as [[l' q']|]; [|done]. intros [= <- <-]. destruct (IH l') as [-> ?]; [done|]. set_solver.
Qed.

Lemma lines_no_nl cur a b : NL ∉ a → lines cur (a ++ b) = lines (cur ++ a) b.
Proof.
  revert cur. induction a as [|c a IH]; intros cur Hn; simpl; [by rw app_nil_r|].
  destruct (Z.eqb_spec c NL); [set_solver|]. rw IH; [set_solver|]. by rw -app_assoc.
Qed.

Lemma partial_no_nl cur a b : NL ∉ a → partial cur (a ++ b) = partial (cur ++ a) b.
Proof.
  revert cur. induction a as [|c a IH]; intros cur Hn; simpl; [by rw app_nil_r|].
  destruct (Z.eqb_spec c NL); [set_solver|]. rw IH; [set_solver|]. by rw -app_assoc.
Qed.

Lemma grep_lines_spec fuel pat p :
  (length p < fuel)%nat → 0 ∉ p →
  grep_lines fuel pat p = (mjoin (report pat <$> lines [] p), partial [] p).
Proof.
  revert p. induction fuel as [|fuel IH]; intros p Hf H0; [lia|]. cbn [grep_lines].
  destruct (next_line p) as [[l q]|] eqn:E.
  - apply next_line_some in E as [-> Hl]. rw length_app /= in Hf. rw IH; [lia|set_solver|].
    rw lines_no_nl // partial_no_nl //.
  - apply next_line_none in E; [|done]. rw -(app_nil_r p) lines_no_nl // partial_no_nl //= app_nil_r //.
Qed.

Lemma partial_short cur p : NL ∈ p → (length (partial cur p) < length (cur ++ p))%nat.
Proof.
  assert (∀ cur p, (length (partial cur p) ≤ length (cur ++ p))%nat) as Hle.
  { clear. intros cur p. revert cur. induction p as [|c p IH]; intros cur; simpl; [by rw app_nil_r|].
    rw length_app /=. destruct (c =? NL); [specialize (IH []); simpl in IH; lia|].
    specialize (IH (cur ++ [c])). rw !length_app /= in IH. lia. }
  revert cur. induction p as [|c p IH]; intros cur Hin; [set_solver|]. simpl. rw length_app /=.
  destruct (Z.eqb_spec c NL); [specialize (Hle [] p); simpl in Hle; lia|].
  specialize (IH (cur ++ [c])). rw !length_app /= in IH. set_solver by lia.
Qed.

Lemma partial_sub cur p x : x ∈ partial cur p → x ∈ cur ++ p.
Proof.
  revert cur. induction p as [|c p IH]; intros cur; simpl; [set_solver|].
  destruct (c =? NL); intros H%IH; set_solver.
Qed.

Lemma partial_nl cur p : NL ∉ cur → NL ∉ partial cur p.
Proof.
  revert cur. induction p as [|c p IH]; intros cur H; simpl; [done|]. destruct (Z.eqb_spec c NL); apply IH; set_solver.
Qed.

Lemma grep_loop_spec pat buf chunks :
  NL ∉ buf → 0 ∉ buf → Forall (λ ch, NL ∈ ch ∧ 0 ∉ ch) chunks →
  grep_loop pat buf chunks = mjoin (report pat <$> lines buf (mjoin chunks)).
Proof.
  revert buf. induction chunks as [|ch chunks IH]; intros buf Hn H0 Hc; [done|].
  apply list.Forall_cons in Hc as [[Hnl Hz] Hc]. cbn [grep_loop]. destruct ch as [|x ch]; [set_solver|].
  set (c := x :: ch) in *. rw grep_lines_spec; [lia|set_solver|]. cbn [fst snd].
  pose proof (partial_short [] (buf ++ c) ltac:(set_solver)) as Hs. simpl in Hs.
  rw bool_decide_false; [lia|]. rw IH; [by apply partial_nl; set_solver| |done|].
  { intros Hin%partial_sub. set_solver. }
  cbn [mjoin list_join]. rw (lines_app buf c) -(lines_no_nl [] buf c) // -(partial_no_nl [] buf c) //= fmap_app join_app //.
Qed.

(** When every [read] brings at least one newline (and no NUL), grep prints
    exactly the complete lines of its input that match, in order. *)
Theorem grep_correct pat chunks :
  Forall (λ ch, NL ∈ ch ∧ 0 ∉ ch) chunks →
  grep pat chunks = mjoin (report pat <$> lines [] (mjoin chunks)).
Proof. intros. apply grep_loop_spec; set_solver. Qed.

Lemma grep_correct_witness :
  grep [CARET; 98] [[97; NL; 98]; [99; NL]] = [98; 99; NL].
Proof. rw grep_correct; [repeat constructor; set_solver|]. done. Defined.

(** A chunk without a newline is dropped: grep then prints a line that its
    input does not have (here [bc] of [abc], read in two pieces). *)
Theorem grep_split_line :
  grep [CARET; 98] [[97]; [98; 99; NL]] = [98; 99; NL] ∧
  mjoin (report [CARET; 98] <$> lines [] (mjoin [[97]; [98; 99; NL]])) = [].
Proof. by vm_compute. Qed.

End Grep.

Module Wc.

Definition NL : Z := 10.

(** The characters of the string [wc] passes to [strchr]. *)
Definition blanks : list Z := [32; 13; 9; 10; 11].
Definition blank (c : Z) : bool := bool_decide (c ∈ blanks).

(** The counters [l], [w], [c] and [inword]. *)
Record counts := mkCounts { n_l : Z; n_w : Z; n_c : Z; inword : bool }.

(** The body of the inner loop. *)
Definition wc_char (k : counts) (x : Z) : counts :=
  let c := i32 (n_c k + 1) in
  let l := if x =? NL then i32 (n_l k + 1) else n_l k in
  if blank x then mkCounts l (n_w k) c false
  else if negb (inword k) then mkCounts l (i32 (n_w k + 1)) c true
  else mkCounts l (n_w k) c (inword k).

(** A chunk is what one [read] returned; an empty one ends the loop.  The last
    [read] fails when [err] holds. *)
Fixpoint wc_loop (k : counts) (chunks : list (list Z)) : counts :=
  match chunks with
  | [] => k
  | [] :: _ => k
  | ch :: chunks => wc_loop (foldl wc_char k ch) chunks
  end.

(** What is printed, or [None] for the error message. *)
Definition wc (chunks : list (list Z)) (err : bool) : option (Z * Z * Z) :=
  let k := wc_loop (mkCounts 0 0 0 false) chunks in
  if err then None else Some (n_l k, n_w k, n_c k).

(** A word starts at a character that is not blank, first or after a blank. *)
Definition starts_word (text : list Z) (i : nat) : bool :=
  match text !! i with
  | Some c => negb (blank c) && match i with O => true | S j => default false (blank <$> text !! j) end
  | None => false
  end.

Definition nwords (text : list Z) : nat := length (filter (starts_word text) (seq 0 (length text))).
Definition nlines (text : list Z) : nat := length (filter (λ c, c = NL) text).
Definition ends_in_word (text : list Z) : bool := match list.last text with Some c => negb (blank c) | None => false end.

(** ** The counts are right *)

Lemma starts_word_app text x i : (i < length text)%nat → starts_word (text ++ [x]) i = starts_word text i.
Proof.
  intros Hi. rw /starts_word lookup_app_l //. destruct i; [done|]. rw lookup_app_l //. lia.
Qed.

Lemma starts_word_last text x :
  starts_word (text ++ [x]) (length text) = negb (blank x) && negb (ends_in_word text).
Proof.
  rw /starts_word lookup_app_r // Nat.sub_diag /= /ends_in_word list.last_lookup. f_equal.
  destruct (length text) as [|j] eqn:E; [by apply nil_length_inv in E as ->|]. cbn [pred]. rw lookup_app_l; [lia|].
  destruct (lookup_lt_is_Some_2 text j) as [d ->]; [lia|]. simpl. by rw negb_involutive.
Qed.

Lemma filter_bool_ext {A} (f g : A → bool) (l : list A) : (∀ x, x ∈ l → f x = g x) → filter f l = filter g l.
Proof.
  induction l as [|x l IH]; intros Hfg; [done|]. rw !filter_cons (Hfg x); [by left|]. rw IH //. intros; apply Hfg; by right.
Qed.

Lemma nwords_snoc text x :
  nwords (text ++ [x]) = (nwords text + if blank x || ends_in_word text then 0 else 1)%nat.
Proof.
  rw /nwords length_app seq_app list.filter_app length_app /=. f_equal.
  - f_equal. apply filter_bool_ext. intros i Hi%elem_of_seq. rw starts_word_app //. lia.
  - rw filter_cons filter_nil starts_word_last. by destruct (blank x), (ends_in_word text).
Qed.

Lemma nlines_snoc text x : nlines (text ++ [x]) = (nlines text + if decide (x = NL) then 1 else 0)%nat.
Proof. rw /nlines list.filter_app length_app filter_cons filter_nil. by case_decide. Qed.

Lemma ends_snoc text x : ends_in_word (text ++ [x]) = negb (blank x).
Proof. by rw /ends_in_word list.last_snoc. Qed.

Lemma counts_le text : (nwords text ≤ length text)%nat ∧ (nlines text ≤ length text)%nat.
Proof.
  split; [rw /nwords; etrans; [apply length_filter|by rw length_seq]|apply length_filter].
Qed.

Definition counts_of (text : list Z) : counts :=
  mkCounts (Z.of_nat (nlines text)) (Z.of_nat (nwords text)) (lenZ text) (ends_in_word text).

Lemma wc_char_of text x : lenZ text + 1 < 2 ^ 31 → wc_char (counts_of text) x = counts_of (text ++ [x]).
Proof.
  intros Hl. destruct (counts_le text) as [Hw Hn].
  rw /wc_char /counts_of nwords_snoc nlines_snoc ends_snoc length_app /= !i32_small; [lia..|].
  destruct (Z.eqb_spec x NL); [rw decide_True //|rw decide_False //];
    destruct (blank x), (ends_in_word text); simpl; f_equal; lia.
Qed.

Lemma wc_chunk text ch : lenZ (text ++ ch) < 2 ^ 31 → foldl wc_char (counts_of text) ch = counts_of (text ++ ch).
Proof.
  revert text. induction ch as [|x ch IH]; intros text Hl; simpl; [by rw app_nil_r|]. rw length_app /= in Hl.
  rw wc_char_of; [lia|]. rw IH; [rw !length_app /=; lia|]. by rw -app_assoc.
Qed.

Lemma wc_loop_spec text chunks :
  Forall (λ ch, ch ≠ []) chunks → lenZ (text ++ mjoin chunks) < 2 ^ 31 →
  wc_loop (counts_of text) chunks = counts_of (text ++ mjoin chunks).
Proof.
  revert text. induction chunks as [|ch chunks IH]; intros text Hc Hl; cbn [wc_loop mjoin list_join] in *; [by rw app_nil_r|].
  apply list.Forall_cons in Hc as [Hne Hc]. destruct ch as [|x ch]; [done|].
  rw app_assoc in Hl |- *. rw wc_chunk; [rw length_app in Hl; lia|]. by apply IH.
Qed.

(** However the input is cut into reads, wc prints the number of newlines, of
    words and of characters of the whole input, as long as it has fewer than
    [2^31] of them. *)
Theorem wc_correct chunks :
  Forall (λ ch, ch ≠ []) chunks → lenZ (mjoin chunks) < 2 ^ 31 →
  wc chunks false = Some (Z.of_nat (nlines (mjoin chunks)), Z.of_nat (nwords (mjoin chunks)), lenZ (mjoin chunks)).
Proof. intros Hc Hl. by rw /wc (wc_loop_spec []). Qed.

Lemma wc_correct_witness : wc [[97; 98]; [99; 32; 10; 10]; [100]] false = Some (2, 2, 7).
Proof. rw wc_correct; [repeat constructor; done|done|]. by vm_compute. Defined.
End Wc.
