(* ===== verification/Printf.v ===== *)
(** * Formatted output: printf.c

    What [printf] writes, as the list of the bytes its one-byte [write] calls
    carry.  A format and a string argument are the characters before the NUL.
    [None] is undefined behaviour: an index outside [digits] or [buf], or a
    [va_arg] of a type that is not the argument's.

    Theorems: [print_d] never leaves its sixteen-byte buffer and prints the
    canonical decimal numeral, which [atoi] (ulib.c) reads back; the two
    hexadecimal printers are inverted by reading their digits; and [printf] is
    defined exactly on the argument lists its format calls for, where it writes
    what the relation [prints] says of the format.  The printers of console.c are the same code with [consputc] for [putc] (Console.v). *)

From S2P Require Import Prelude CString.
From stdpp Require Import pretty.
#[local] Open Scope Z_scope.

(** ** Characters *)

Definition CR : Z := 13.
Definition PERCENT : Z := 37.
Definition MINUS : Z := 45.
Definition ZERO : Z := 48.

(** The bytes of a literal. *)
Definition codes (s : string) : list Z := (λ c, Z.of_nat (Ascii.nat_of_ascii c)) <$> String.list_ascii_of_string s.

Definition digits : list Z := codes "0123456789abcdef" ++ [0].

Definition digit (i : Z) : option Z := if i <? 0 then None else digits !! Z.to_nat i.

(** ** Numbers *)

(** [for (i = 0; i < n; i++, x <<= 4) putc(digits[x >> (w - 4)])], on [w] bits. *)
Fixpoint hex_loop (n : nat) (w x : Z) : option (list Z) :=
  match n with
  | O => Some []
  | S n =>
    d ← digit (Z.shiftr x (w - 4));
    ds ← hex_loop n w (Z.shiftl x 4 mod 2 ^ w);
    Some (d :: ds)
  end.

Definition print_x64 (x : Z) : option (list Z) := hex_loop 16 64 x.
Definition print_x32 (x : Z) : option (list Z) := hex_loop 8 32 x.

Definition PRINT_BUF : Z := 16.

(** [buf[i++] = c], [buf] holding the [i] characters stored so far. *)
Definition put (c : Z) (buf : list Z) : option (list Z) :=
  if lenZ buf <? PRINT_BUF then Some (buf ++ [c]) else None.

(** [do { buf[i++] = digits[x % 10]; x /= 10; } while (x != 0)] *)
Fixpoint d_loop (fuel : nat) (x : Z) (buf : list Z) : option (list Z) :=
  match fuel with
  | O => None
  | S fuel =>
    d ← digit (Z.rem x 10);
    buf ← put d buf;
    let x := Z.quot x 10 in
    if x =? 0 then Some buf else d_loop fuel x buf
  end.

(** The last loop prints [buf] backwards. *)
Definition print_d (v : Z) : option (list Z) :=
  let x := if v <? 0 then - v else v in
  buf ← d_loop 16 x [];
  buf ← (if v <? 0 then put MINUS buf else Some buf);
  Some (rev buf).

(** ** The format *)

(** A variadic argument: an [int] or [unsigned int], an [addr_t], a [char*]. *)
Inductive varg :=
| VInt (z : Z)
| VAddr (z : Z)
| VStr (s : option (list Z)).

(** [va_arg] *)
Definition va_int (ap : list varg) : option (Z * list varg) :=
  match ap with VInt z :: ap => Some (i32 z, ap) | _ => None end.
Definition va_uint (ap : list varg) : option (Z * list varg) :=
  match ap with VInt z :: ap => Some (u32 z, ap) | _ => None end.
Definition va_addr (ap : list varg) : option (Z * list varg) :=
  match ap with VAddr z :: ap => Some (u64 z, ap) | _ => None end.
Definition va_str (ap : list varg) : option (option (list Z) * list varg) :=
  match ap with VStr s :: ap => Some (s, ap) | _ => None end.

Definition str_or_null (s : option (list Z)) : list Z := default (codes "(null)") s.

(** The letters of the conversions. *)
Definition ch_c : Z := 99.
Definition ch_d : Z := 100.
Definition ch_x : Z := 120.
Definition ch_p : Z := 112.
Definition ch_s : Z := 115.

(** One pass of the [switch]; [with_c] is [printf]'s [%c], which [cprintf] has not. *)
Definition convert (with_c : bool) (c : Z) (ap : list varg) : option (list Z * list varg) :=
  if with_c && (c =? ch_c) then '(z, ap) ← va_int ap; Some ([u8 z], ap)
  else if c =? ch_d then '(z, ap) ← va_int ap; o ← print_d z; Some (o, ap)
  else if c =? ch_x then '(z, ap) ← va_uint ap; o ← print_x32 z; Some (o, ap)
  else if c =? ch_p then '(z, ap) ← va_addr ap; o ← print_x64 z; Some (o, ap)
  else if c =? ch_s then '(s, ap) ← va_str ap; Some (str_or_null s, ap)
  else if c =? PERCENT then Some ([PERCENT], ap)
  else Some ([PERCENT; c], ap).

Fixpoint format (with_c : bool) (fmt : list Z) (ap : list varg) : option (list Z) :=
  match fmt with
  | [] => Some []
  | c :: fmt =>
    if negb (c =? PERCENT) then out ← format with_c fmt ap; Some (c :: out)
    else match fmt with
    | [] => Some []
    | c :: fmt =>
      '(o, ap) ← convert with_c c ap;
      out ← format with_c fmt ap;
      Some (o ++ out)
    end
  end.

Definition printf (fmt : list Z) (ap : list varg) : option (list Z) := format true fmt ap.

(** ** What a format calls for *)

Inductive vkind := KInt | KAddr | KStr.

Definition kind_of (a : varg) : vkind :=
  match a with VInt _ => KInt | VAddr _ => KAddr | VStr _ => KStr end.

Definition calls_for (with_c : bool) (c : Z) : list vkind :=
  if (with_c && (c =? ch_c)) || (c =? ch_d) || (c =? ch_x) then [KInt]
  else if c =? ch_p then [KAddr]
  else if c =? ch_s then [KStr]
  else [].

(** The conversions of a format, in order. *)
Fixpoint signature (with_c : bool) (fmt : list Z) : list vkind :=
  match fmt with
  | [] => []
  | c :: fmt =>
    if negb (c =? PERCENT) then signature with_c fmt
    else match fmt with [] => [] | c :: fmt => calls_for with_c c ++ signature with_c fmt end
  end.

(** ** Decimal numerals *)

Lemma digit_dec x : 0 ≤ x < 10 → digit x = Some (ZERO + x).
Proof.
  intros Hx.
  assert (x = 0 ∨ x = 1 ∨ x = 2 ∨ x = 3 ∨ x = 4 ∨ x = 5 ∨ x = 6 ∨ x = 7 ∨ x = 8 ∨ x = 9) as Hc by lia.
  by repeat destruct Hc as [->|Hc]; subst.
Qed.

(** The digits of [x], least significant first. *)
Fixpoint rdigits (fuel : nat) (x : Z) : list Z :=
  match fuel with
  | O => []
  | S fuel => (ZERO + x mod 10) :: (if x / 10 =? 0 then [] else rdigits fuel (x / 10))
  end.

Lemma length_rdigits n x : 0 ≤ x → lenZ (rdigits n x) ≤ Z.of_nat n.
Proof.
  revert x. induction n as [|n IH]; intros x Hx; cbn [rdigits length]; [lia|].
  destruct (_ =? 0); cbn [length]; [lia|]. specialize (IH (x / 10)). lia.
Qed.

Lemma d_loop_run n m x buf :
  0 ≤ x < 10 ^ Z.of_nat n → (0 < n ≤ m)%nat → lenZ buf + Z.of_nat n ≤ PRINT_BUF →
  d_loop m x buf = Some (buf ++ rdigits n x).
Proof.
  revert m x buf. induction n as [|n IH]; intros m x buf Hx Hm Hb; [lia|].
  destruct m as [|m]; [lia|]. cbn [d_loop rdigits].
  rw Z.rem_mod_nonneg; [lia..|]. rw Z.quot_div_nonneg; [lia..|].
  rw digit_dec; [lia|]. cbn [mbind option_bind]. rw /put (_ : lenZ buf <? PRINT_BUF = true); [lia|].
  cbn [mbind option_bind]. destruct (x / 10 =? 0) eqn:E; [done|].
  rw Nat2Z.inj_succ Z.pow_succ_r in Hx; [lia|].
  assert (n ≠ 0%nat) by (intros ->; lia).
  rw IH; [lia..| |].
  - rw length_app. cbn [length]. lia.
  - by rw -app_assoc.
Qed.

Lemma pretty_char x : 0 ≤ x < 10 → Z.of_nat (Ascii.nat_of_ascii (pretty_N_char (Z.to_N x))) = ZERO + x.
Proof.
  intros Hx.
  assert (x = 0 ∨ x = 1 ∨ x = 2 ∨ x = 3 ∨ x = 4 ∨ x = 5 ∨ x = 6 ∨ x = 7 ∨ x = 8 ∨ x = 9) as Hc by lia.
  by repeat destruct Hc as [->|Hc]; subst.
Qed.

Lemma codes_pretty_go n x s :
  0 < x < 10 ^ Z.of_nat n → codes (pretty_N_go (Z.to_N x) s) = rev (rdigits n x) ++ codes s.
Proof.
  revert x s. induction n as [|n IH]; intros x s Hx; [lia|].
  rw pretty_N_go_step; [lia|]. cbn [rdigits rev].
  rw Nat2Z.inj_succ Z.pow_succ_r in Hx; [lia|].
  rw (_ : (Z.to_N x `div` 10)%N = Z.to_N (x / 10)); [lia|].
  rw (_ : (Z.to_N x `mod` 10)%N = Z.to_N (x mod 10)); [lia|].
  assert (∀ t, codes (String (pretty_N_char (Z.to_N (x mod 10))) t) = (ZERO + x mod 10) :: codes t) as Hs.
  { intros t. rw /codes. cbn. rw pretty_char; [lia|done]. }
  destruct (x / 10 =? 0) eqn:E.
  - rw (_ : x / 10 = 0); [lia|]. by rw pretty_N_go_0 Hs.
  - rw IH; [lia|]. by rw Hs -app_assoc.
Qed.

Lemma codes_pretty n x : 0 ≤ x < 10 ^ Z.of_nat n → (0 < n)%nat → codes (pretty (Z.to_N x)) = rev (rdigits n x).
Proof.
  intros Hx Hn. rw /pretty /pretty_N. case_decide as Hd.
  - assert (x = 0) as -> by lia. destruct n; [lia|done].
  - rw (codes_pretty_go n); [lia|]. by rw app_nil_r.
Qed.

Lemma print_d_run v :
  - 2 ^ 31 ≤ v < 2 ^ 31 →
  print_d v = Some (if v <? 0 then MINUS :: rev (rdigits 10 (- v)) else rev (rdigits 10 v)).
Proof.
  intros Hv. rw /print_d.
  assert (0 ≤ (if v <? 0 then - v else v) < 10 ^ Z.of_nat 10) as Hx.
  { rw (_ : 10 ^ Z.of_nat 10 = 10000000000); [done|]. destruct (v <? 0) eqn:E; lia. }
  rw (d_loop_run 10); [lia..|cbn; rw /PRINT_BUF; lia|].
  have Hl := length_rdigits 10 _ (proj1 Hx).
  cbn [mbind option_bind]. destruct (v <? 0) eqn:E; [|done].
  rw /put (_ : lenZ _ <? PRINT_BUF = true); [cbn [app]; rw /PRINT_BUF; lia|].
  cbn [mbind option_bind]. by rw rev_app_distr.
Qed.

Lemma print_d_pretty v : print_d (i32 v) = Some (codes (pretty (i32 v))).
Proof.
  assert (- 2 ^ 31 ≤ i32 v < 2 ^ 31) as Hv by (rw /i32; lia).
  rw print_d_run; [done|]. f_equal. move: (i32 v) Hv => {}v Hv.
  assert (10 ^ Z.of_nat 10 = 10000000000) as H10 by done.
  rw /pretty /pretty_Z. destruct v as [|p|p]; cbn [Z.ltb Z.compare]; [done|..].
  - rw -(codes_pretty 10); [lia..|done].
  - rw -(codes_pretty 10); [lia..|done].
Qed.

(** [print_d] stays inside its buffer and prints the numeral of its argument. *)
Theorem print_d_correct v : print_d (i32 v) = Some (codes (pretty (i32 v))).
Proof. apply print_d_pretty. Qed.

(** ** Reading numerals back *)

Definition isdigit (c : Z) : Prop := ZERO ≤ c ≤ 57.

(** The number a list of decimal digits spells, after [n]. *)
Definition dval (n : Z) (l : list Z) : Z := fold_left (λ a c, a * 10 + c - ZERO) l n.

Lemma dval_mono l n : Forall isdigit l → 0 ≤ n → n ≤ dval n l.
Proof.
  rw /dval. revert n. induction l as [|c l IH]; intros n Hl Hn; [cbn; lia|].
  inversion_clear Hl as [|?? Hc Hl']. rw /isdigit /ZERO in Hc.
  cbn [fold_left]. etrans; [|apply IH; [done|rw /ZERO; lia]]. rw /ZERO; lia.
Qed.

Lemma rdigits_isdigit n x : Forall isdigit (rdigits n x).
Proof.
  revert x. induction n as [|n IH]; intros x; cbn [rdigits]; [done|].
  constructor; [rw /isdigit /ZERO; lia|]. destruct (_ =? 0); [done|apply IH].
Qed.

Lemma dval_rdigits n x : 0 ≤ x < 10 ^ Z.of_nat n → (0 < n)%nat → dval 0 (rev (rdigits n x)) = x.
Proof.
  rw /dval -(fold_left_rev_right (λ c a, a * 10 + c - ZERO)) rev_involutive. revert x. induction n as [|n IH]; intros x Hx Hn; [lia|].
  rw Nat2Z.inj_succ Z.pow_succ_r in Hx; [lia|]. cbn [rdigits fold_right].
  destruct (x / 10 =? 0) eqn:E; [cbn [fold_right]; rw /ZERO; lia|].
  assert (n ≠ 0%nat) by (intros ->; lia).
  rw IH; [lia..|]. rw /ZERO; lia.
Qed.

Lemma atoi_from_digits pre l m n :
  Forall isdigit l → 0 ≤ n → dval n l < 2 ^ 31 → (length l < m)%nat →
  atoi_from m (nthZ (pre ++ l)) (lenZ pre) n = Some (dval n l).
Proof.
  revert pre m n. induction l as [|c l IH]; intros pre m n Hl Hn Hb Hm; (destruct m as [|m]; [cbn in Hm; lia|]).
  - cbn [atoi_from dval]. rw app_nil_r /nthZ Nat2Z.id nth_overflow; done.
  - inversion_clear Hl as [|?? Hc Hl']. have Hlt := dval_mono l (n * 10 + c - ZERO) Hl'.
    rw /isdigit /ZERO in Hc Hlt. specialize (Hlt ltac:(lia)). cbn [atoi_from].
    rw (_ : nthZ (pre ++ c :: l) (lenZ pre) = c); [by rw /nthZ Nat2Z.id nth_middle|]. rw (_ : (48 <=? c) && (c <=? 57) = true); [lia|].
    change (dval n (c :: l)) with (dval (n * 10 + c - 48) l) in *.
    rw i32_small; [lia|].
    rw (_ : pre ++ c :: l = (pre ++ [c]) ++ l); [by rw -app_assoc|].
    rw (_ : lenZ pre + 1 = lenZ (pre ++ [c])); [rw length_app; cbn; lia|].
    apply IH; [done|lia|done|cbn in Hm; lia].
Qed.

(** [atoi] reads back what [print_d] prints. *)
Theorem print_d_atoi v :
  0 ≤ v < 2 ^ 31 → ∃ out, print_d v = Some out ∧ atoi 11 (nthZ out) = Some v.
Proof.
  intros Hv. exists (rev (rdigits 10 v)).
  assert (10 ^ Z.of_nat 10 = 10000000000) as H10 by done.
  have Hd : dval 0 (rev (rdigits 10 v)) = v by apply dval_rdigits; lia.
  split; [rw print_d_run; [lia|]; by rw (_ : v <? 0 = false); [lia|]|].
  rw /atoi (atoi_from_digits [] (rev (rdigits 10 v))).
  - apply List.Forall_rev, rdigits_isdigit.
  - lia.
  - lia.
  - rw length_rev. have := length_rdigits 10 v. lia.
  - by rw Hd.
Qed.

Lemma print_d_atoi_witness : ∃ out, print_d 2147483647 = Some out ∧ atoi 11 (nthZ out) = Some 2147483647.
Proof. apply (print_d_atoi 2147483647). lia. Defined.

(** ** Hexadecimal *)

(** The value of a digit, and of a string of them after [n]. *)
Definition xdigit (c : Z) : Z := if c <? 58 then c - ZERO else c - 87.
Definition xval (n : Z) (l : list Z) : Z := fold_left (λ a c, a * 16 + xdigit c) l n.

(** [n] hexadecimal digits, with small letters, that spell [z]. *)
Definition ishex (c : Z) : Prop := 48 ≤ c ≤ 57 ∨ 97 ≤ c ≤ 102.
Definition hexnum (n : nat) (z : Z) (o : list Z) : Prop := length o = n ∧ Forall ishex o ∧ xval 0 o = z.

Lemma digit_hex x : 0 ≤ x < 16 → ∃ d, digit x = Some d ∧ xdigit d = x ∧ ishex d.
Proof.
  intros Hx.
  assert (x = 0 ∨ x = 1 ∨ x = 2 ∨ x = 3 ∨ x = 4 ∨ x = 5 ∨ x = 6 ∨ x = 7 ∨ x = 8 ∨ x = 9 ∨
    x = 10 ∨ x = 11 ∨ x = 12 ∨ x = 13 ∨ x = 14 ∨ x = 15) as Hc by lia.
  repeat destruct Hc as [->|Hc]; subst; (eexists; split; [reflexivity|split; [reflexivity|first [left; by vm_compute | right; by vm_compute]]]).
Qed.

(** [n] steps print the [n] leading hexadecimal digits of [x]. *)
Lemma hex_loop_run n w x a :
  0 ≤ x < 2 ^ w → 4 * Z.of_nat n ≤ w → 4 ≤ w →
  ∃ out, hex_loop n w x = Some out ∧ length out = n ∧ Forall ishex out ∧
    xval a out = a * 16 ^ Z.of_nat n + x / 2 ^ (w - 4 * Z.of_nat n).
Proof.
  revert x a. induction n as [|n IH]; intros x a Hx Hn Hw.
  { exists []. split; [done|split; [done|split; [done|]]]. cbn [xval fold_left].
    rw (_ : w - 4 * Z.of_nat 0 = w); [lia|]. rw Z.div_small; [done|]. lia. }
  assert (2 ^ w = 16 * 2 ^ (w - 4)) as Hp.
  { rw -(Z.pow_add_r 2 4); [lia..|]. f_equal. lia. }
  cbn [hex_loop]. rw Z.shiftr_div_pow2; [lia|]. rw Z.shiftl_mul_pow2; [lia|].
  destruct (digit_hex (x / 2 ^ (w - 4))) as (d & Hd & Hv & Hh).
  { split; [apply Z.div_pos; lia|apply Z.div_lt_upper_bound; lia]. }
  rw Hd. cbn [mbind option_bind].
  destruct (IH (x * 2 ^ 4 mod 2 ^ w) (a * 16 + xdigit d)) as (out & Ho & Hl & Hf & Hx2); [apply Z.mod_pos_bound; lia|lia..|].
  rw Ho. cbn [mbind option_bind]. exists (d :: out). split; [done|]. split; [cbn; by rw Hl|].
  split; [by constructor|].
  change (xval a (d :: out)) with (xval (a * 16 + xdigit d) out). rw Hx2 Hv Nat2Z.inj_succ Z.pow_succ_r; [lia|].
  rw (_ : x * 2 ^ 4 mod 2 ^ w = 16 * (x mod 2 ^ (w - 4))).
  { rw Hp (Z.mul_comm x). apply Z.mul_mod_distr_l; lia. }
  rw (_ : w - 4 * Z.of_nat n = 4 + (w - 4 * Z.succ (Z.of_nat n))); [lia|].
  rw Z.pow_add_r; [lia..|]. rw Z.div_mul_cancel_l; [lia..|].
  set k := w - 4 * Z.succ (Z.of_nat n).
  rw (_ : w - 4 = 4 * Z.of_nat n + k); [lia|]. rw Z.pow_add_r; [lia..|].
  rw (_ : 16 ^ Z.of_nat n = 2 ^ (4 * Z.of_nat n)); [by rw Z.pow_mul_r; [lia..|]|].
  set p := 2 ^ (4 * Z.of_nat n). set q := 2 ^ k.
  assert (0 < p) by (apply Z.pow_pos_nonneg; lia). assert (0 < q) by (apply Z.pow_pos_nonneg; lia).
  rw (Z.mul_comm p q) Z.rem_mul_r; [lia..|]. rw -Z.div_div; [lia..|].
  rw (_ : x mod q + q * ((x / q) mod p) = (x / q) mod p * q + x mod q); [lia|].
  rw Z.div_add_l; [lia|]. rw (Z.div_small (x mod q)); [apply Z.mod_pos_bound; lia|].
  have Hdm : x / q = p * (x / q / p) + (x / q) mod p by apply Z.div_mod; lia.
  rw {3}Hdm. ring.
Qed.

Lemma print_x32_run x : ∃ out, print_x32 (u32 x) = Some out ∧ hexnum 8 (u32 x) out.
Proof.
  destruct (hex_loop_run 8 32 (u32 x) 0) as (out & Ho & Hl & Hf & Hv); [apply u32_range|lia..|].
  exists out. split; [done|split; [done|split; [done|]]]. by rw Hv Z.div_1_r.
Qed.

Lemma print_x64_run x : ∃ out, print_x64 (u64 x) = Some out ∧ hexnum 16 (u64 x) out.
Proof.
  destruct (hex_loop_run 16 64 (u64 x) 0) as (out & Ho & Hl & Hf & Hv); [apply u64_range|lia..|].
  exists out. split; [done|split; [done|split; [done|]]]. by rw Hv Z.div_1_r.
Qed.

(** The digits [%x] and [%p] print are defined and spell the argument. *)
Theorem print_x_correct x :
  (∃ out, print_x32 (u32 x) = Some out ∧ hexnum 8 (u32 x) out) ∧
  (∃ out, print_x64 (u64 x) = Some out ∧ hexnum 16 (u64 x) out).
Proof. split; [apply print_x32_run|apply print_x64_run]. Qed.

(** ** Formats and arguments *)

Lemma print_d_defined v : ∃ o, print_d (i32 v) = Some o.
Proof. rw print_d_run; [rw /i32; lia|eauto]. Qed.

Lemma not_prefix k ap : (∀ a l, ap = a :: l → kind_of a ≠ k) → ¬ [k] `prefix_of` (kind_of <$> ap).
Proof. intros H [l Hl]. destruct ap as [|a ap]; simplify_eq/=. by apply (H a ap). Qed.

Ltac no_arg := apply not_prefix; intros; simplify_eq; done.

(** A conversion takes the argument it calls for, and fails without it. *)
Lemma convert_typed b c ap :
  match convert b c ap with
  | Some (_, ap') => kind_of <$> ap = calls_for b c ++ (kind_of <$> ap')
  | None => ¬ calls_for b c `prefix_of` (kind_of <$> ap)
  end.
Proof.
  rw /convert /calls_for.
  destruct (b && (c =? ch_c)); cbn [orb].
  { destruct ap as [|[]]; cbn [va_int mbind option_bind]; [no_arg|done|no_arg..]. }
  destruct (c =? ch_d); cbn [orb].
  { destruct ap as [|[z| |]]; cbn [va_int mbind option_bind]; [no_arg| |no_arg..].
    by destruct (print_d_defined z) as [? ->]. }
  destruct (c =? ch_x).
  { destruct ap as [|[z| |]]; cbn [va_uint mbind option_bind]; [no_arg| |no_arg..].
    by destruct (print_x32_run z) as [? [-> _]]. }
  destruct (c =? ch_p).
  { destruct ap as [|[|z|]]; cbn [va_addr mbind option_bind]; [no_arg..| |no_arg].
    by destruct (print_x64_run z) as [? [-> _]]. }
  destruct (c =? ch_s).
  { destruct ap as [|[]]; cbn [va_str mbind option_bind]; [no_arg..|done]. }
  by destruct (c =? PERCENT).
Qed.

Lemma prefix_app_cancel {A} (k l1 l2 : list A) : k ++ l1 `prefix_of` k ++ l2 ↔ l1 `prefix_of` l2.
Proof. split; [apply prefix_app_inv|apply prefix_app]. Qed.

Lemma format_typed b fmt ap : is_Some (format b fmt ap) ↔ signature b fmt `prefix_of` (kind_of <$> ap).
Proof.
  remember (length fmt) as n eqn:Hn. revert fmt ap Hn.
  induction (lt_wf n) as [n _ IH]. intros [|c fmt] ap ->; cbn [format signature].
  { split; [intros _; apply prefix_nil|eauto]. }
  destruct (c =? PERCENT); cbn [negb].
  - destruct fmt as [|c' fmt]; [split; [intros _; apply prefix_nil|eauto]|].
    have := convert_typed b c' ap. destruct (convert b c' ap) as [[o ap']|]; cbn [mbind option_bind].
    + intros ->. rw prefix_app_cancel -(IH (length fmt)) //; [cbn; lia|].
      by destruct (format b fmt ap'); split => -[? ?].
    + intros Hc. split; [by intros []|]. intros Hp%prefix_app_l. done.
  - rw -(IH (length fmt)) //; [cbn; lia|]. by destruct (format b fmt ap); split => -[? ?].
Qed.

(** ** What a format prints *)

(** The conversions: [%d] an [int] in decimal, [%x] an [unsigned int] and [%p] an
    address in all their hexadecimal digits, [%s] a string, [%c] a character where
    there is one, [%%]; anything else is repeated, and a last lone [%] is dropped. *)
Inductive prints (with_c : bool) : list Z → list varg → list Z → Prop :=
| pr_end ap : prints with_c [] ap []
| pr_lone ap : prints with_c [37] ap []
| pr_text c fmt ap out : c ≠ 37 → prints with_c fmt ap out → prints with_c (c :: fmt) ap (c :: out)
| pr_c z fmt ap out :
    with_c = true → prints with_c fmt ap out → prints with_c (codes "%c" ++ fmt) (VInt z :: ap) (z mod 256 :: out)
| pr_d z fmt ap out :
    prints with_c fmt ap out → prints with_c (codes "%d" ++ fmt) (VInt z :: ap) (codes (pretty (i32 z)) ++ out)
| pr_x z o fmt ap out :
    hexnum 8 (u32 z) o → prints with_c fmt ap out → prints with_c (codes "%x" ++ fmt) (VInt z :: ap) (o ++ out)
| pr_p z o fmt ap out :
    hexnum 16 (u64 z) o → prints with_c fmt ap out → prints with_c (codes "%p" ++ fmt) (VAddr z :: ap) (o ++ out)
| pr_s l fmt ap out :
    prints with_c fmt ap out → prints with_c (codes "%s" ++ fmt) (VStr (Some l) :: ap) (l ++ out)
| pr_null fmt ap out :
    prints with_c fmt ap out → prints with_c (codes "%s" ++ fmt) (VStr None :: ap) (codes "(null)" ++ out)
| pr_percent fmt ap out :
    prints with_c fmt ap out → prints with_c (codes "%%" ++ fmt) ap (codes "%" ++ out)
| pr_unknown c fmt ap out :
    c ∉ codes "dxps%" ++ (if with_c then codes "c" else []) →
    prints with_c fmt ap out → prints with_c (37 :: c :: fmt) ap (37 :: c :: out).

Lemma xval_snoc a l c : xval a (l ++ [c]) = 16 * xval a l + xdigit c.
Proof. rw /xval fold_left_app /=. lia. Qed.

Lemma xdigit_hex c : ishex c → 0 ≤ xdigit c < 16.
Proof. rw /ishex /xdigit /ZERO. destruct (c <? 58) eqn:E; lia. Qed.

Lemma xdigit_inj c c' : ishex c → ishex c' → xdigit c = xdigit c' → c = c'.
Proof. rw /ishex /xdigit /ZERO. destruct (c <? 58) eqn:E, (c' <? 58) eqn:E'; lia. Qed.

(** A number has one numeral of each length. *)
Lemma hexnum_functional n z o o' : hexnum n z o → hexnum n z o' → o = o'.
Proof.
  revert z o o'. induction n as [|n IH]; intros z o o' (L1 & F1 & V1) (L2 & F2 & V2).
  { apply nil_length_inv in L1 as ->. by apply nil_length_inv in L2 as ->. }
  destruct o as [|c o _] using rev_ind; [done|]. destruct o' as [|c' o' _] using rev_ind; [done|].
  rw length_app /= in L1. rw length_app /= in L2. apply list.Forall_app in F1 as [F1 [Hc _]%list.Forall_cons].
  apply list.Forall_app in F2 as [F2 [Hc' _]%list.Forall_cons]. rw xval_snoc in V1. rw xval_snoc in V2.
  have Hd := xdigit_hex c Hc. have Hd' := xdigit_hex c' Hc'.
  f_equal; [apply (IH (z / 16)); (split; [lia|split; [done|lia]])|f_equal; apply xdigit_inj; [done..|lia]].
Qed.

(** One conversion. *)
Lemma convert_prints b c ap o ap' :
  convert b c ap = Some (o, ap') → ∀ fmt out, prints b fmt ap' out → prints b (37 :: c :: fmt) ap (o ++ out).
Proof.
  rw /convert. intros H fmt out Hp. destruct (b && (c =? ch_c)) eqn:Ec.
  { apply andb_prop in Ec as [Eb Ec]. assert (c = 99) as -> by (rw /ch_c in Ec; lia).
    destruct ap as [|[z| |] ap]; simplify_eq/=. rw (_ : u8 (i32 z) = z mod 256); [rw /u8 /i32; lia|]. by apply pr_c. }
  destruct (c =? ch_d) eqn:Ed.
  { assert (c = 100) as -> by (rw /ch_d in Ed; lia). destruct ap as [|[z| |] ap]; cbn [va_int mbind option_bind] in H; [done| |done..].
    rw print_d_pretty in H. injection H as <- <-. by apply (pr_d b). }
  destruct (c =? ch_x) eqn:Ex.
  { assert (c = 120) as -> by (rw /ch_x in Ex; lia). destruct ap as [|[z| |] ap]; cbn [va_uint mbind option_bind] in H; [done| |done..].
    destruct (print_x32_run z) as (o' & E & Hh). rw E in H. injection H as <- <-. by apply (pr_x b). }
  destruct (c =? ch_p) eqn:Ep.
  { assert (c = 112) as -> by (rw /ch_p in Ep; lia). destruct ap as [|[|z|] ap]; cbn [va_addr mbind option_bind] in H; [done..| |done].
    destruct (print_x64_run z) as (o' & E & Hh). rw E in H. injection H as <- <-. by apply (pr_p b). }
  destruct (c =? ch_s) eqn:Es.
  { assert (c = 115) as -> by (rw /ch_s in Es; lia). destruct ap as [|[| |[l|]] ap]; simplify_eq/=;
      [by apply (pr_s b)|by apply (pr_null b)]. }
  destruct (c =? PERCENT) eqn:Epc; simplify_eq/=.
  { assert (c = 37) as -> by (rw /PERCENT in Epc; lia). by apply (pr_percent b). }
  apply pr_unknown; [|done]. rw /ch_c /ch_d /ch_x /ch_p /ch_s /PERCENT in Ec Ed Ex Ep Es Epc.
  change (codes "dxps%") with [100; 120; 112; 115; 37]. change (codes "c") with [99].
  destruct b; cbn [andb app] in Ec |- *; rw !elem_of_cons elem_of_nil; lia.
Qed.

Lemma format_prints b fmt ap out : format b fmt ap = Some out → prints b fmt ap out.
Proof.
  remember (length fmt) as n eqn:Hn. revert fmt ap out Hn.
  induction (lt_wf n) as [n _ IH]. intros [|c fmt] ap out ->; cbn [format]; [intros [= <-]; constructor|].
  destruct (c =? PERCENT) eqn:E; cbn [negb].
  - assert (c = 37) as -> by (rw /PERCENT in E; lia). destruct fmt as [|c fmt]; [intros [= <-]; constructor|].
    destruct (convert b c ap) as [[o ap']|] eqn:Ec; [|done]. cbn [mbind option_bind].
    destruct (format b fmt ap') as [out'|] eqn:Ef; [|done]. intros [= <-].
    apply (convert_prints b c ap o ap' Ec). eapply IH; [|done|done]. cbn. lia.
  - destruct (format b fmt ap) as [out'|] eqn:Ef; [|done]. intros [= <-]. apply pr_text; [rw /PERCENT in E; lia|].
    eapply IH; [|done|done]. cbn. lia.
Qed.

Lemma format_percent b c fmt ap :
  format b (37 :: c :: fmt) ap = ('(o, ap) ← convert b c ap; out ← format b fmt ap; Some (o ++ out)).
Proof. done. Qed.

Lemma convert_c z ap : convert true 99 (VInt z :: ap) = Some ([z mod 256], ap).
Proof. rw /convert. change (true && (99 =? ch_c)) with true. cbn. by rw (_ : u8 (i32 z) = z mod 256); [rw /u8 /i32; lia|]. Qed.

Lemma convert_d b z ap : convert b 100 (VInt z :: ap) = Some (codes (pretty (i32 z)), ap).
Proof. rw /convert andb_false_r. cbn [va_int mbind option_bind]. change (100 =? ch_d) with true. by rw print_d_pretty. Qed.

Lemma convert_x b z o ap : hexnum 8 (u32 z) o → convert b 120 (VInt z :: ap) = Some (o, ap).
Proof.
  intros Hh. destruct (print_x32_run z) as (o' & E & Hh'). rw (hexnum_functional _ _ _ _ Hh Hh').
  rw /convert andb_false_r. cbn [va_uint mbind option_bind]. change (120 =? ch_d) with false. change (120 =? ch_x) with true. by rw E.
Qed.

Lemma convert_p b z o ap : hexnum 16 (u64 z) o → convert b 112 (VAddr z :: ap) = Some (o, ap).
Proof.
  intros Hh. destruct (print_x64_run z) as (o' & E & Hh'). rw (hexnum_functional _ _ _ _ Hh Hh').
  rw /convert andb_false_r. cbn [va_addr mbind option_bind]. change (112 =? ch_d) with false.
  change (112 =? ch_x) with false. change (112 =? ch_p) with true. by rw E.
Qed.

Lemma convert_s b l ap : convert b 115 (VStr l :: ap) = Some (str_or_null l, ap).
Proof. by rw /convert andb_false_r. Qed.

Lemma convert_percent b ap : convert b 37 ap = Some ([37], ap).
Proof. by rw /convert andb_false_r. Qed.

Lemma convert_unknown (b : bool) (c : Z) ap :
  c ∉ codes "dxps%" ++ (if b then codes "c" else []) → convert b c ap = Some ([37; c], ap).
Proof.
  intros Hc. change (codes "dxps%") with [100; 120; 112; 115; 37] in Hc. change (codes "c") with [99] in Hc.
  rw /convert /ch_c /ch_d /ch_x /ch_p /ch_s /PERCENT. destruct b; cbn [andb app] in Hc |- *; rw !elem_of_cons elem_of_nil in Hc;
    repeat (match goal with |- context [c =? ?k] => destruct (Z.eqb_spec c k); [tauto|] end); done.
Qed.

Lemma prints_format b fmt ap out : prints b fmt ap out → format b fmt ap = Some out.
Proof.
  induction 1 as [ap|ap|c fmt ap out Hc _ IH|z fmt ap out -> _ IH|z fmt ap out _ IH|z o fmt ap out Hh _ IH|
    z o fmt ap out Hh _ IH|l fmt ap out _ IH|fmt ap out _ IH|fmt ap out _ IH|c fmt ap out Hc _ IH].
  - done.
  - done.
  - cbn [format]. rw (_ : c =? PERCENT = false); [rw /PERCENT; lia|]. cbn [negb]. by rw IH.
  - change (codes "%c" ++ fmt) with (37 :: 99 :: fmt). rw format_percent convert_c. cbn [mbind option_bind]. by rw IH.
  - change (codes "%d" ++ fmt) with (37 :: 100 :: fmt). rw format_percent convert_d. cbn [mbind option_bind]. by rw IH.
  - change (codes "%x" ++ fmt) with (37 :: 120 :: fmt). rw format_percent (convert_x _ _ _ _ Hh). cbn [mbind option_bind]. by rw IH.
  - change (codes "%p" ++ fmt) with (37 :: 112 :: fmt). rw format_percent (convert_p _ _ _ _ Hh). cbn [mbind option_bind]. by rw IH.
  - change (codes "%s" ++ fmt) with (37 :: 115 :: fmt). rw format_percent convert_s. cbn [mbind option_bind]. by rw IH.
  - change (codes "%s" ++ fmt) with (37 :: 115 :: fmt). rw format_percent convert_s. cbn [mbind option_bind]. by rw IH.
  - change (codes "%%" ++ fmt) with (37 :: 37 :: fmt). rw format_percent convert_percent. cbn [mbind option_bind]. by rw IH.
  - rw format_percent (convert_unknown _ _ _ Hc). cbn [mbind option_bind]. by rw IH.
Qed.

(** C40: [printf] is defined exactly when the arguments start with those its format
    calls for, and then writes what the format says: the text of the format, an
    [int] in decimal, an [unsigned int] in eight and an address in sixteen
    hexadecimal digits, strings and characters as they are. *)
Theorem printf_correct fmt ap :
  (is_Some (printf fmt ap) ↔ signature true fmt `prefix_of` (kind_of <$> ap)) ∧
  (∀ out, printf fmt ap = Some out ↔ prints true fmt ap out).
Proof. split; [apply format_typed|]. intros out. split; [apply format_prints|apply prints_format]. Qed.
