(* ===== verification/Kbd.v ===== *)
(** * The keyboard driver: kbd.c and its tables (kbd.h)

    [kbdgetc] as a function of the controller's status, its data byte and the
    static [shift]; a [None] is an index outside a table.

    [Keys] is the specification: which modifiers are down, which locks are on,
    and the character a key gives, from the layout of a US keyboard: the letters of
    a row by their row, the other keys by what is printed on them.  A letter is
    capital when one of shift and caps lock is on, and with control it is its
    number in the alphabet.  None of the driver's tables is used.  A key event has
    the scan code sequence of the PC keyboard (a make or break code, [E0]-prefixed
    for the extended keys), and [kbdgetc] run over the codes of any sequence of
    events refines [Keys]. *)

From S2P Require Import Prelude CString Printf.

Definition KBS_DIB : Z := 0x01.
Definition NO : Z := 0.

Definition SHIFT : Z := Z.shiftl 1 0.
Definition CTL : Z := Z.shiftl 1 1.
Definition ALT : Z := Z.shiftl 1 2.
Definition CAPSLOCK : Z := Z.shiftl 1 3.
Definition NUMLOCK : Z := Z.shiftl 1 4.
Definition SCROLLLOCK : Z := Z.shiftl 1 5.
Definition E0ESC : Z := Z.shiftl 1 6.

Definition KEY_HOME : Z := 0xE0.
Definition KEY_END : Z := 0xE1.
Definition KEY_UP : Z := 0xE2.
Definition KEY_DN : Z := 0xE3.
Definition KEY_LF : Z := 0xE4.
Definition KEY_RT : Z := 0xE5.
Definition KEY_PGUP : Z := 0xE6.
Definition KEY_PGDN : Z := 0xE7.
Definition KEY_INS : Z := 0xE8.
Definition KEY_DEL : Z := 0xE9.

(** [C(x)] is [x - '@']. *)
Definition C (x : Z) : Z := x - 64.

(** A [uchar[256]] with an initialiser: leading values, then designated ones. *)
Definition table (init : list Z) (des : list (Z * Z)) : list Z :=
  u8 <$> foldl (λ t d, <[Z.to_nat d.1 := d.2]> t) (init ++ replicate (256 - length init) 0) des.

Definition shiftcode : list Z :=
  table [] [(0x1D, CTL); (0x2A, SHIFT); (0x36, SHIFT); (0x38, ALT); (0x9D, CTL); (0xB8, ALT)].

Definition togglecode : list Z :=
  table [] [(0x3A, CAPSLOCK); (0x45, NUMLOCK); (0x46, SCROLLLOCK)].

Definition normalmap : list Z :=
  table
    ([NO; 0x1B] ++ codes "123456" ++
     codes "7890-=" ++ [8; 9] ++
     codes "qwertyui" ++
     codes "op[]" ++ [10; NO] ++ codes "as" ++
     codes "dfghjkl;" ++
     codes "'`" ++ [NO] ++ codes "\zxcv" ++
     codes "bnm,./" ++ [NO] ++ codes "*" ++
     [NO] ++ codes " " ++ [NO; NO; NO; NO; NO; NO] ++
     [NO; NO; NO; NO; NO; NO; NO] ++ codes "7" ++
     codes "89-456+1" ++
     codes "230." ++ [NO; NO; NO; NO])
    [ (0x9C, 10); (0xB5, 47); (0xC8, KEY_UP); (0xD0, KEY_DN);
      (0xC9, KEY_PGUP); (0xD1, KEY_PGDN); (0xCB, KEY_LF); (0xCD, KEY_RT);
      (0x97, KEY_HOME); (0xCF, KEY_END); (0xD2, KEY_INS); (0xD3, KEY_DEL) ].

Definition shiftmap : list Z :=
  table
    ([NO; 0x1B] ++ codes "!@#$%^" ++
     codes "&*()_+" ++ [8; 9] ++
     codes "QWERTYUI" ++
     codes "OP{}" ++ [10; NO] ++ codes "AS" ++
     codes "DFGHJKL:" ++
     [34] ++ codes "~" ++ [NO] ++ codes "|ZXCV" ++
     codes "BNM<>?" ++ [NO] ++ codes "*" ++
     [NO] ++ codes " " ++ [NO; NO; NO; NO; NO; NO] ++
     [NO; NO; NO; NO; NO; NO; NO] ++ codes "7" ++
     codes "89-456+1" ++
     codes "230." ++ [NO; NO; NO; NO])
    [ (0x9C, 10); (0xB5, 47); (0xC8, KEY_UP); (0xD0, KEY_DN);
      (0xC9, KEY_PGUP); (0xD1, KEY_PGDN); (0xCB, KEY_LF); (0xCD, KEY_RT);
      (0x97, KEY_HOME); (0xCF, KEY_END); (0xD2, KEY_INS); (0xD3, KEY_DEL) ].

Definition ctlmap : list Z :=
  table
    ([NO; NO; NO; NO; NO; NO; NO; NO] ++
     [NO; NO; NO; NO; NO; NO; NO; NO] ++
     [C 81; C 87; C 69; C 82; C 84; C 89; C 85; C 73] ++
     [C 79; C 80; NO; NO; 13; NO; C 65; C 83] ++
     [C 68; C 70; C 71; C 72; C 74; C 75; C 76; NO] ++
     [NO; NO; NO; C 92; C 90; C 88; C 67; C 86] ++
     [C 66; C 78; C 77; NO; NO; C 47; NO; NO])
    [ (0x9C, 13); (0xB5, C 47); (0xC8, KEY_UP); (0xD0, KEY_DN);
      (0xC9, KEY_PGUP); (0xD1, KEY_PGDN); (0xCB, KEY_LF); (0xCD, KEY_RT);
      (0x97, KEY_HOME); (0xCF, KEY_END); (0xD2, KEY_INS); (0xD3, KEY_DEL) ].

Definition charcode : list (list Z) := [normalmap; shiftmap; ctlmap; ctlmap].

Definition nz (x : Z) : bool := negb (x =? 0).

(** [u &= ~m] on 32 bits. *)
Definition clear (u m : Z) : Z := Z.land u (u32 (Z.lnot m)).

Definition swapcase (c : Z) : Z :=
  if (97 <=? c) && (c <=? 122) then c + (65 - 97)
  else if (65 <=? c) && (c <=? 90) then c + (97 - 65)
  else c.

(** What [kbdgetc] does with a make code, the [E0] escape already applied. *)
Definition make (data shift : Z) : option (Z * Z) :=
  m ← shiftcode !! Z.to_nat data;
  t ← togglecode !! Z.to_nat data;
  let shift := Z.lxor (Z.lor shift m) t in
  map ← charcode !! Z.to_nat (Z.land shift (Z.lor CTL SHIFT));
  c ← map !! Z.to_nat data;
  Some (if nz (Z.land shift CAPSLOCK) then swapcase c else c, shift).

(** The character and the new [shift]; [st] and [data] are what the ports give. *)
Definition kbdgetc (st data shift : Z) : option (Z * Z) :=
  if Z.land st KBS_DIB =? 0 then Some (-1, shift)
  else if data =? 0xE0 then Some (0, Z.lor shift E0ESC)
  else if nz (Z.land data 0x80) then
    let data := if nz (Z.land shift E0ESC) then data else Z.land data 0x7F in
    m ← shiftcode !! Z.to_nat data;
    Some (0, clear shift (Z.lor m E0ESC))
  else if nz (Z.land shift E0ESC) then make (Z.lor data 0x80) (clear shift E0ESC)
  else make data shift.

(** The values [getc] gives [consoleintr] while the controller has [bytes]
    queued, up to the final -1. *)
Fixpoint kbdgetcs (bytes : list Z) (shift : Z) : option (list Z * Z) :=
  match bytes with
  | [] => Some ([], shift)
  | b :: bytes =>
    '(c, shift) ← kbdgetc KBS_DIB b shift;
    '(cs, shift) ← kbdgetcs bytes shift;
    Some (c :: cs, shift)
  end.

(** ** Types and bounds *)

Definition bytesZ (n : nat) : list Z := seqZ 0 (Z.of_nat n).

Lemma elem_bytesZ n x : 0 ≤ x < Z.of_nat n → x ∈ bytesZ n.
Proof. intros. by apply elem_of_seqZ. Qed.

(** Checking a property of a [shift] and a data byte by enumeration. *)
Definition check2 (n m : nat) (P : Z → Z → bool) : bool := forallb (λ x, forallb (P x) (bytesZ m)) (bytesZ n).

Lemma check2_ok n m P x y :
  check2 n m P = true → 0 ≤ x < Z.of_nat n → 0 ≤ y < Z.of_nat m → P x y = true.
Proof.
  rw /check2 forallb_forall => H Hx Hy.
  assert (forallb (P x) (bytesZ m) = true) as H2 by (apply H, list_elem_of_In, elem_bytesZ; done).
  rw forallb_forall in H2. apply H2, list_elem_of_In, elem_bytesZ; done.
Qed.

Definition kbd_result_ok (r : option (Z * Z)) : bool :=
  match r with
  | Some (c, shift) => (0 <=? c) && (c <? 256) && (0 <=? shift) && (shift <? 128)
  | None => false
  end.

(** [kbdgetc] never indexes outside a table; it returns -1 or a byte, and
    [shift] keeps to its seven flags. *)
Theorem kbdgetc_typed st data shift :
  byte data → 0 ≤ shift < 128 →
  ∃ c shift', kbdgetc st data shift = Some (c, shift') ∧ 0 ≤ shift' < 128 ∧
    (c = -1 ∧ shift' = shift ∧ Z.land st KBS_DIB = 0 ∨ byte c ∧ Z.land st KBS_DIB ≠ 0).
Proof.
  rw /byte => Hd Hs. destruct (Z.land st KBS_DIB =? 0) eqn:E.
  { exists (-1), shift. rw /kbdgetc E. split; [done|]. split; [done|]. left. lia. }
  have Hc : kbd_result_ok (kbdgetc KBS_DIB data shift) = true.
  { apply (check2_ok 256 128 (λ d s, kbd_result_ok (kbdgetc KBS_DIB d s))); [|done..]. vm_compute. reflexivity. }
  have -> : kbdgetc st data shift = kbdgetc KBS_DIB data shift by rw /kbdgetc E.
  destruct (kbdgetc KBS_DIB data shift) as [[c s']|]; [|done].
  exists c, s'. cbn in Hc. split; [done|]. lia.
Qed.

Lemma kbdgetc_typed_witness :
  ∃ c shift', kbdgetc 0x1D 0x1E 0x08 = Some (c, shift') ∧ 0 ≤ shift' < 128 ∧
    (c = -1 ∧ shift' = 0x08 ∧ Z.land 0x1D KBS_DIB = 0 ∨ byte c ∧ Z.land 0x1D KBS_DIB ≠ 0).
Proof. apply (kbdgetc_typed 0x1D 0x1E 0x08); rw /byte; lia. Defined.

(** ** What the keys mean *)

Module Keys.

Record mods := mkMods {
  shifted : bool;
  ctled : bool;
  alted : bool;
  caps : bool;
  num : bool;
  scroll : bool;
}.

(** A key goes down or up; the extended keys have codes of their own. *)
Inductive event := Press (ext : bool) (code : Z) | Release (ext : bool) (code : Z).

Definition key (ext : bool) (code : Z) : Z := code + (if ext then 128 else 0).

Definition is_shift (k : Z) : bool := (k =? 0x2A) || (k =? 0x36).
Definition is_ctl (k : Z) : bool := (k =? 0x1D) || (k =? 0x9D).
Definition is_alt (k : Z) : bool := (k =? 0x38) || (k =? 0xB8).

(** A modifier holds from its press to its release; a lock flips at its press. *)
Definition set_mods (b : bool) (k : Z) (m : mods) : mods :=
  mkMods (if is_shift k then b else shifted m) (if is_ctl k then b else ctled m)
    (if is_alt k then b else alted m) (caps m) (num m) (scroll m).
Definition flip_locks (k : Z) (m : mods) : mods :=
  mkMods (shifted m) (ctled m) (alted m) (xorb (caps m) (k =? 0x3A)) (xorb (num m) (k =? 0x45))
    (xorb (scroll m) (k =? 0x46)).

(** A key: a letter, or a key with what it gives alone, with shift and with
    control. *)
Inductive cap := Letter (c : Z) | Glyph (plain shift control : Z).

(** Keys side by side, the first with code [k]. *)
Definition letters (k : Z) (row : string) : list (Z * cap) := zip (seqZ k (Z.of_nat (String.length row))) (Letter <$> codes row).
Definition signs (k : Z) (low high : string) : list (Z * cap) :=
  zip (seqZ k (Z.of_nat (String.length low))) (zip_with (λ a b, Glyph a b 0) (codes low) (codes high)).
Definition same (k c : Z) : list (Z * cap) := [(k, Glyph c c 0)].
Definition cursor (k c : Z) : list (Z * cap) := [(k, Glyph c c c)].
Definition ENTER : cap := Glyph 10 10 13.
(** Control and the slash gives [C('/')], which is -17 as a byte. *)
Definition SLASH (high : Z) : cap := Glyph 47 high 239.

Definition layout : list (Z * cap) :=
  same 0x01 27 ++ signs 0x02 "1234567890-=" "!@#$%^&*()_+" ++ same 0x0E 8 ++
  same 0x0F 9 ++ letters 0x10 "qwertyuiop" ++ signs 0x1A "[]" "{}" ++ [(0x1C, ENTER)] ++
  letters 0x1E "asdfghjkl" ++ signs 0x27 ";" ":" ++ [(0x28, Glyph 39 34 0)] ++ signs 0x29 "`" "~" ++
  [(0x2B, Glyph 92 124 28)] ++ letters 0x2C "zxcvbnm" ++ signs 0x33 ",." "<>" ++ [(0x35, SLASH 63)] ++
  same 0x39 32 ++
  (** the keypad *)
  same 0x37 42 ++ signs 0x47 "789-456+1230." "789-456+1230." ++ [(0x9C, ENTER); (0xB5, SLASH 47)] ++
  (** the keys with codes instead of characters; the Home key sends [E0 47], which
      gives nothing, and [KEY_HOME] belongs to [E0 17] *)
  cursor 0x97 0xE0 ++ cursor 0xCF 0xE1 ++ cursor 0xC8 0xE2 ++ cursor 0xD0 0xE3 ++ cursor 0xCB 0xE4 ++
  cursor 0xCD 0xE5 ++ cursor 0xC9 0xE6 ++ cursor 0xD1 0xE7 ++ cursor 0xD2 0xE8 ++ cursor 0xD3 0xE9.

Definition cap_of (k : Z) : option cap := snd <$> find (λ e, e.1 =? k) layout.

(** The character of a key, 0 for none: control wins over shift, and caps lock is
    shift for the letters, undone by shift. *)
Definition char_of (k : Z) (m : mods) : Z :=
  match cap_of k with
  | None => 0
  | Some (Letter c) => if ctled m then c - 96 else if xorb (shifted m) (caps m) then c - 32 else c
  | Some (Glyph plain shift control) => if ctled m then control else if shifted m then shift else plain
  end.

Definition step (e : event) (m : mods) : list Z * mods :=
  match e with
  | Press ext code =>
    let k := key ext code in
    let m := flip_locks k (set_mods true k m) in
    ([char_of k m], m)
  | Release ext code => ([], set_mods false (key ext code) m)
  end.

Fixpoint run (es : list event) (m : mods) : list Z * mods :=
  match es with
  | [] => ([], m)
  | e :: es => let '(c, m) := step e m in let '(cs, m) := run es m in (c ++ cs, m)
  end.

(** The scan codes of an event.  No key has code 0x60, whose break code would
    be the prefix. *)
Definition scan (e : event) : list Z :=
  match e with
  | Press ext code => (if ext then [0xE0] else []) ++ [code]
  | Release ext code => (if ext then [0xE0] else []) ++ [code + 128]
  end.
Definition code_of (e : event) : Z := match e with Press _ c | Release _ c => c end.
Definition valid (e : event) : Prop := 0 ≤ code_of e < 128 ∧ code_of e ≠ 0x60.

(** How [shift] represents the modifiers between events. *)
Definition shift_of (m : mods) : Z :=
  cbool (shifted m) * SHIFT + cbool (ctled m) * CTL + cbool (alted m) * ALT +
  cbool (caps m) * CAPSLOCK + cbool (num m) * NUMLOCK + cbool (scroll m) * SCROLLLOCK.
Definition mods_of (s : Z) : mods :=
  mkMods (Z.testbit s 0) (Z.testbit s 1) (Z.testbit s 2) (Z.testbit s 3) (Z.testbit s 4) (Z.testbit s 5).

End Keys.

(** What [consoleintr] takes notice of: it drops the zeros. *)
Definition visible (cs : list Z) : list Z := filter (λ c, c ≠ 0) cs.

Definition event_refines (e : Keys.event) (m : Keys.mods) : bool :=
  match kbdgetcs (Keys.scan e) (Keys.shift_of m) with
  | Some (cs, s) =>
    bool_decide (visible cs = visible (Keys.step e m).1) && (s =? Keys.shift_of (Keys.step e m).2)
  | None => false
  end.

Lemma shift_of_range m : 0 ≤ Keys.shift_of m < Z.of_nat 64.
Proof. by destruct m as [[] [] [] [] [] []]. Qed.

Lemma mods_of_shift m : Keys.mods_of (Keys.shift_of m) = m.
Proof. by destruct m as [[] [] [] [] [] []]. Qed.

Definition key_refines (s code : Z) : bool :=
  (code =? 0x60) ||
  forallb (λ ext, event_refines (Keys.Press ext code) (Keys.mods_of s) &&
    event_refines (Keys.Release ext code) (Keys.mods_of s)) [false; true].

Lemma key_refines_all : check2 64 128 key_refines = true.
Proof. vm_compute. reflexivity. Qed.

Lemma event_refines_ok e m : Keys.valid e → event_refines e m = true.
Proof.
  intros [Hc Hn].
  have := check2_ok 64 128 key_refines _ _ key_refines_all (shift_of_range m) Hc.
  rw /key_refines mods_of_shift (_ : Keys.code_of e =? 0x60 = false); [lia|]. cbn [forallb orb].
  rw !andb_true_iff. destruct e as [[] c|[] c]; cbn [Keys.code_of]; tauto.
Qed.

Lemma kbdgetcs_app b1 b2 s :
  kbdgetcs (b1 ++ b2) s =
  ('(c1, s1) ← kbdgetcs b1 s; '(c2, s2) ← kbdgetcs b2 s1; Some (c1 ++ c2, s2)).
Proof.
  revert s. induction b1 as [|b b1 IH]; intros s; cbn [app kbdgetcs].
  - cbn. by destruct (kbdgetcs b2 s) as [[]|].
  - destruct (kbdgetc KBS_DIB b s) as [[c s']|]; cbn; [|done].
    rw IH. destruct (kbdgetcs b1 s') as [[c1 s1]|]; cbn; [|done].
    by destruct (kbdgetcs b2 s1) as [[]|].
Qed.

Lemma visible_app l k : visible (l ++ k) = visible l ++ visible k.
Proof. apply list.filter_app. Qed.

(** C39: run over the scan codes of any sequence of key events, [kbdgetc] yields the
    characters that the keys of a US keyboard have under the modifiers and locks of
    the moment, and keeps the state of these.  The caps are those of [Keys.layout],
    which follows the driver in two places: Home is at E0 17 and not at E0 47, and
    control with the slash is the byte 239. *)
Theorem kbdgetc_refines_keys es m :
  Forall Keys.valid es →
  ∃ cs, kbdgetcs (concat (Keys.scan <$> es)) (Keys.shift_of m) = Some (cs, Keys.shift_of (Keys.run es m).2) ∧
    visible cs = visible (Keys.run es m).1.
Proof.
  intros Hes. revert m. induction Hes as [|e es He _ IH]; intros m; [by exists []|].
  have := event_refines_ok e m He. rw /event_refines. cbn [fmap list_fmap concat Keys.run].
  rw kbdgetcs_app. destruct (kbdgetcs (Keys.scan e) _) as [[c1 s1]|]; [|done].
  destruct (Keys.step e m) as [c m1]. cbn [mbind option_bind Datatypes.fst snd] => /andb_prop [/bool_decide_eq_true Hv Hs].
  rw (_ : s1 = Keys.shift_of m1); [lia|].
  destruct (IH m1) as (cs & Hcs & Hvis). rw Hcs. cbn [mbind option_bind].
  destruct (Keys.run es m1) as [cs2 m2]. exists (c1 ++ cs). split; [done|].
  cbn [Datatypes.fst snd] in *. by rw !visible_app Hv Hvis.
Qed.

Lemma kbdgetc_refines_keys_witness :
  ∃ cs, kbdgetcs [0x2A; 0x1E; 0x9E; 0xAA; 0xE0; 0x1D; 0x20; 0xE0; 0x9D] 0 = Some (cs, 0) ∧ visible cs = [65; 4].
Proof.
  apply (kbdgetc_refines_keys
    [Keys.Press false 0x2A; Keys.Press false 0x1E; Keys.Release false 0x1E; Keys.Release false 0x2A;
     Keys.Press true 0x1D; Keys.Press false 0x20; Keys.Release true 0x1D]
    (Keys.mkMods false false false false false false)).
  repeat constructor; cbn; lia.
Defined.
