(* ===== verification/Sleepers.v ===== *)
(** * Who sleeps on what

    The processes asleep on a channel, and what scheduling, sleeping and waking
    up do to that set; shared by the models of console and disk requests. *)

From S2P Require Import Prelude Kernel.

Definition asleep_on (ch : chan) (c : core) : Prop :=
  ∃ i p, c_procs c !! i = Some p ∧ p_state p = SLEEPING ∧ p_chan p = Some ch.
Definition can_run (i : nat) (c : core) : Prop :=
  ∃ p, c_procs c !! i = Some p ∧ (p_state p = RUNNABLE ∨ p_state p = RUNNING).

(** The scheduler has put process [i] on a CPU that holds [ls]. *)
Definition dispatched (i : nat) (ls : list lockid) (c : core) : core :=
  mkCore ls (alter (set_state RUNNING) i (c_procs c)) (Some i) (c_nextpid c) (c_initproc c).

Lemma asleep_alter f i ch (c c' : core) :
  c_procs c' = alter f i (c_procs c) → (∀ p, c_procs c !! i = Some p → p_state (f p) ≠ SLEEPING) →
  asleep_on ch c' → asleep_on ch c.
Proof.
  intros Hc Hf (j & p & Hj & Hs & Hch). rw Hc list_lookup_alter in Hj. exists j, p.
  case_decide as Hij; [|done]. subst j. destruct (c_procs c !! i) as [q|] eqn:Hq; [|done].
  cbn in Hj. simplify_eq. by destruct (Hf q).
Qed.

Lemma asleep_dispatched i ls ch c : asleep_on ch (dispatched i ls c) → asleep_on ch c.
Proof. by apply (asleep_alter (set_state RUNNING) i). Qed.

(** Back from [sleep], a process has no channel. *)
Lemma asleep_resumed i ls ls' ch c :
  asleep_on ch (set_locks ls' (set_procs (alter (set_chan None) i (c_procs (dispatched i ls c))) (dispatched i ls c))) →
  asleep_on ch c.
Proof.
  intros Ha. apply (asleep_dispatched i ls). refine (asleep_alter (set_chan None) i _ _ _ _ _ Ha); [done|].
  intros p. cbn. rw list_lookup_alter decide_True //. destruct (c_procs c !! i) as [q|]; [|done]. by intros [= <-].
Qed.

Lemma dispatched_lt i ls c : can_run i c → (i < length (c_procs (dispatched i ls c)))%nat.
Proof. intros (p & Hp & _). cbn. rw length_alter. by eapply lookup_lt_Some. Qed.

Lemma asleep_wake_all ch c : ¬ asleep_on ch (wake_all ch c).
Proof.
  intros (i & p & Hi & Hs & Hc). cbn in Hi. rw list_lookup_fmap in Hi.
  destruct (c_procs c !! i) as [q|]; [|done]. cbn in Hi. simplify_eq. move: Hs Hc.
  rw /wake. case_bool_decide as Hb; [done|]. intros. by apply Hb.
Qed.

Lemma asleep_wake_le ch ch' c : asleep_on ch' (wake_all ch c) → asleep_on ch' c.
Proof.
  intros (i & p & Hi & Hs & Hc). cbn in Hi. rw list_lookup_fmap in Hi.
  destruct (c_procs c !! i) as [q|] eqn:Hq; [|done]. cbn in Hi. simplify_eq. exists i, q. split; [done|].
  move: Hs Hc. rw /wake. by case_bool_decide.
Qed.

Lemma asleep_asleep i ch ch' c : asleep_on ch' (asleep i ch c) → ch' = ch ∨ asleep_on ch' c.
Proof.
  intros (j & p & Hj & Hs & Hc). cbn in Hj. rw list_lookup_alter in Hj. case_decide as Hij.
  - subst j. left. destruct (c_procs c !! i) as [q|]; [|done]. cbn in Hj. simplify_eq. cbn in Hc. by simplify_eq.
  - right. by exists j, p.
Qed.

Lemma wake_all_twice ch c : wake_all ch (wake_all ch c) = wake_all ch c.
Proof.
  rw /wake_all /set_procs /=. f_equal. rw map_map. apply map_ext => p.
  destruct (decide (p_state p = SLEEPING ∧ p_chan p = Some ch)) as [H|H].
  - by rw {2 3}/wake bool_decide_eq_true_2.
  - assert (wake ch p = p) as E by (by rw /wake bool_decide_eq_false_2). by rw !E.
Qed.
