(* ===== verification/Console.v ===== *)
(** * The console: console.c, with uart.c and procdump

    [screen] is the CGA text memory with the cursor registers, [cn_sent] what the
    serial port has been given, and [input] the ring buffer of typed characters.
    A reader that sleeps keeps its locals in [cn_frames], as in Pipe.v.

    Theorems: [cgaputc] keeps the cursor on the screen and draws, scrolls and
    erases as a terminal does (ConsoleScreen); [consoleintr] is a line editor on
    two queues, the committed bytes and the line being typed; and whatever the
    interleaving of typing and reading, readers get the committed bytes in order
    and never sleep while there are any. *)

From S2P Require Import Prelude CString Spinlock Printf Kbd.
From S2P Require Import Kernel.

Definition BACKSPACE : Z := 0x100.
Definition INPUT_BUF : Z := 128.
Definition NEWLINE : Z := 10.

(** ** The screen *)

Record screen := mkScreen {
  crt : list Z;       (** the cells of the text page *)
  cur_hi : Z;         (** CRTC registers 14 and 15: the cursor *)
  cur_lo : Z;
}.

(** 25 rows of 80. *)
Definition NCELL : Z := 2000.

(** [crt[i] = v]; [None] outside the page. *)
Definition crt_put (i v : Z) (t : list Z) : option (list Z) :=
  if (0 <=? i) && (i <? NCELL) then Some (setZ i v t) else None.

(** [memmove(crt, crt+80, ...)] and [memset(crt+pos, 0, ...)] *)
Definition crt_up (t : list Z) : list Z := splice 0 (slice 80 (23 * 80) t) t.
Definition crt_clear (pos : Z) (t : list Z) : option (list Z) :=
  if (0 <=? pos) && (pos <=? 24 * 80) then Some (splice pos (replicate (Z.to_nat (24 * 80 - pos)) 0) t) else None.

Definition cgaputc (c : Z) (s : screen) : option screen :=
  let pos := Z.lor (Z.shiftl (cur_hi s) 8) (cur_lo s) in
  '(pos, t) ← (if c =? NEWLINE then Some (pos + (80 - Z.rem pos 80), crt s)
    else if c =? BACKSPACE then Some (if 0 <? pos then pos - 1 else pos, crt s)
    else t ← crt_put pos (Z.lor (Z.land c 0xff) 0x0700) (crt s); Some (pos + 1, t));
  '(pos, t) ← (if 24 <=? Z.quot pos 80 then
      let t := crt_up t in
      let pos := pos - 80 in
      t ← crt_clear pos t; Some (pos, t)
    else Some (pos, t));
  t ← crt_put pos (Z.lor 32 0x0700) t;
  Some (mkScreen t (u8 (Z.shiftr pos 8)) (u8 pos)).

(** ** The state *)

Record input := mkInput {
  in_buf : list Z;
  in_r : Z;
  in_w : Z;
  in_e : Z;
}.

(** The locals of a sleeping reader: what it has stored at [dst], [n], [target]. *)
Record rframe := mkRframe { rf_dst : list Z; rf_n : Z; rf_target : Z }.

Record cst := mkCst {
  cn_core : core;
  cn_locking : Z;                (** [cons.locking] *)
  cn_panicked : Z;
  cn_uart : Z;                   (** [uart]: is there a serial port? *)
  cn_sent : list Z;              (** the bytes written to COM1 *)
  cn_screen : screen;
  cn_input : input;
  cn_noidt : bool;               (** ^Z has loaded a null interrupt table *)
  cn_frames : gmap nat rframe;
}.

Definition set_ccore (c : core) (s : cst) : cst :=
  mkCst c (cn_locking s) (cn_panicked s) (cn_uart s) (cn_sent s) (cn_screen s) (cn_input s) (cn_noidt s) (cn_frames s).
Definition set_locking (v : Z) (s : cst) : cst :=
  mkCst (cn_core s) v (cn_panicked s) (cn_uart s) (cn_sent s) (cn_screen s) (cn_input s) (cn_noidt s) (cn_frames s).
Definition set_panicked (v : Z) (s : cst) : cst :=
  mkCst (cn_core s) (cn_locking s) v (cn_uart s) (cn_sent s) (cn_screen s) (cn_input s) (cn_noidt s) (cn_frames s).
Definition set_sent (l : list Z) (s : cst) : cst :=
  mkCst (cn_core s) (cn_locking s) (cn_panicked s) (cn_uart s) l (cn_screen s) (cn_input s) (cn_noidt s) (cn_frames s).
Definition set_screen (x : screen) (s : cst) : cst :=
  mkCst (cn_core s) (cn_locking s) (cn_panicked s) (cn_uart s) (cn_sent s) x (cn_input s) (cn_noidt s) (cn_frames s).
Definition set_input (x : input) (s : cst) : cst :=
  mkCst (cn_core s) (cn_locking s) (cn_panicked s) (cn_uart s) (cn_sent s) (cn_screen s) x (cn_noidt s) (cn_frames s).
Definition set_noidt (b : bool) (s : cst) : cst :=
  mkCst (cn_core s) (cn_locking s) (cn_panicked s) (cn_uart s) (cn_sent s) (cn_screen s) (cn_input s) b (cn_frames s).
Definition set_rframes (m : gmap nat rframe) (s : cst) : cst :=
  mkCst (cn_core s) (cn_locking s) (cn_panicked s) (cn_uart s) (cn_sent s) (cn_screen s) (cn_input s) (cn_noidt s) m.

#[global] Instance cst_core : Lens cst core.
Proof. refine {| lget := cn_core; lset := set_ccore |}; intros; by try destruct o. Defined.

(** ** Output *)

(** The loop that polls the line status register ends after 128 rounds at most
    and has no other effect. *)
Definition uartputc (c : Z) : M cst unit := λ s,
  if cn_uart s =? 0 then Ret tt s else Ret tt (set_sent (cn_sent s ++ [u8 c]) s).

Definition cgaout (c : Z) : M cst unit := λ s,
  match cgaputc c (cn_screen s) with
  | Some x => Ret tt (set_screen x s)
  | None => Fault s
  end.

Definition consputc (c : Z) : M cst unit :=
  p ← gets cn_panicked;
  if negb (p =? 0) then panic "hlt" else
  (if c =? BACKSPACE then uartputc 8;; uartputc 32;; uartputc 8 else uartputc c);;
  cgaout c.

Fixpoint consputs (l : list Z) : M cst unit :=
  match l with
  | [] => mret tt
  | c :: l => consputc c;; consputs l
  end.

(** [cprintf]: the printers and the format loop are those of printf.c, without
    [%c]; [fmt] is [None] for a null pointer. *)
Definition cprintf (fmt : option (list Z)) (ap : list varg) : M cst unit :=
  locking ← gets cn_locking;
  when (negb (locking =? 0)) (lift (acquire LCons));;
  match fmt with
  | None => panic "null fmt"
  | Some fmt =>
    match format false fmt ap with
    | Some out => consputs out
    | None => fault
    end
  end;;
  when (negb (locking =? 0)) (lift (release LCons)).

(** [panic] prints and halts; [pcs] is what [getcallerpcs] found. *)
Definition panic_ (id : Z) (msg : list Z) (pcs : list Z) : M cst unit :=
  modify (set_locking 0);;
  cprintf (Some (codes "cpu%d: panic: ")) [VInt id];;
  cprintf (Some msg) [];;
  cprintf (Some [NEWLINE]) [];;
  for_up 10 0 (λ i, cprintf (Some (codes " %p" ++ [NEWLINE])) [VAddr (nthZ pcs i)]);;
  modify (set_panicked 1);;
  panic "hlt".

(** *** procdump (proc.c) *)

Definition states (st : procstate) : list Z :=
  match st with
  | UNUSED => codes "unused"
  | EMBRYO => codes "embryo"
  | SLEEPING => codes "sleep "
  | RUNNABLE => codes "runble"
  | RUNNING => codes "run   "
  | ZOMBIE => codes "zombie"
  end.

Section console.
(** [p->context->rbp] of a process, and a word of kernel memory. *)
Context (context_rbp : nat → Z) (word : Z → Z).

(** [for (i = 0; i < 10 && pc[i] != 0; i++) cprintf(" %p", pc[i])] *)
Fixpoint print_pcs (pc : list Z) : M cst unit :=
  match pc with
  | [] => mret tt
  | x :: pc => if x =? 0 then mret tt else cprintf (Some (codes " %p")) [VAddr x];; print_pcs pc
  end.

Definition procdump1 (i : nat) : M cst unit :=
  p ← gets (λ s, c_procs (cn_core s) !!! i);
  if bool_decide (p_state p = UNUSED) then mret tt else
  cprintf (Some (codes "%d %s %s"))
    [VInt (p_pid p); VStr (Some (states (p_state p))); VStr (Some (cname 16 (nthZ (p_name p)) 0))];;
  when (bool_decide (p_state p = SLEEPING)) (print_pcs (getstackpcs word (context_rbp i + 16)));;
  cprintf (Some [NEWLINE]) [].

Definition procdump : M cst unit := for_up NPROC 0 (λ i, procdump1 (Z.to_nat i)).

(** ** Input *)

Definition w_e (v : Z) (x : input) : input := mkInput (in_buf x) (in_r x) (in_w x) v.
Definition w_w (v : Z) (x : input) : input := mkInput (in_buf x) (in_r x) v (in_e x).
Definition w_r (v : Z) (x : input) : input := mkInput (in_buf x) v (in_w x) (in_e x).

(** [input.buf[i % INPUT_BUF]] *)
Definition in_at (x : input) (i : Z) : Z := nthZ (in_buf x) (i mod INPUT_BUF).

(** The loop of [C('U')]. *)
Fixpoint kill_line (fuel : nat) : M cst unit :=
  match fuel with
  | O => diverge
  | S fuel =>
    x ← gets cn_input;
    if negb (in_e x =? in_w x) && negb (in_at x (u32 (in_e x - 1)) =? NEWLINE) then
      modify (set_input (w_e (u32 (in_e x - 1)) x));;
      consputc BACKSPACE;;
      kill_line fuel
    else mret tt
  end.

(** One pass of the loop of [consoleintr], with [c] from [getc]. *)
Definition consoleintr1 (c : Z) : M cst unit :=
  x ← gets cn_input;
  if c =? C 90 then modify (set_noidt true)
  else if c =? C 80 then procdump
  else if c =? C 85 then kill_line (S (Z.to_nat INPUT_BUF))
  else if (c =? C 72) || (c =? 0x7f) then
    when (negb (in_e x =? in_w x))
      (modify (set_input (w_e (u32 (in_e x - 1)) x));; consputc BACKSPACE)
  else
    when (negb (c =? 0) && (u32 (in_e x - in_r x) <? INPUT_BUF))
      (let c := if c =? CR then NEWLINE else c in
       let x := mkInput (setZ (in_e x mod INPUT_BUF) (u8 c) (in_buf x)) (in_r x) (in_w x) (u32 (in_e x + 1)) in
       modify (set_input x);;
       consputc c;;
       when ((c =? NEWLINE) || (c =? C 68) || (in_e x =? u32 (in_r x + INPUT_BUF)))
         (modify (set_input (w_w (in_e x) x));; lift (wakeup ChInput))).

Fixpoint consoleintr_loop (cs : list Z) : M cst unit :=
  match cs with
  | [] => mret tt
  | c :: cs => consoleintr1 c;; consoleintr_loop cs
  end.

(** [cs] are the values of [getc] before the first negative one. *)
Definition consoleintr (cs : list Z) : M cst unit :=
  lift (acquire LInput);;
  consoleintr_loop cs;;
  lift (release LInput).

(** [uartgetc] while the port has [bytes] to give, and the two interrupts. *)
Definition uartgetcs (bytes : list Z) (s : cst) : list Z := if cn_uart s =? 0 then [] else bytes.
Definition uartintr (bytes : list Z) : M cst unit := cs ← gets (uartgetcs bytes); consoleintr cs.
Definition kbdintr (bytes : list Z) (shift : Z) : M cst Z :=
  match kbdgetcs bytes shift with
  | Some (cs, shift) => consoleintr cs;; mret shift
  | None => fault
  end.

(** *** Reading *)

Definition cons_killed (s : cst) : bool := negb (p_killed (cur_proc (cn_core s)) =? 0).

Definition push_rframe (f : rframe) : M cst unit := λ s,
  match c_cur (cn_core s) with
  | Some i => Ret tt (set_rframes (<[i := f]> (cn_frames s)) s)
  | None => Fault s
  end.
Definition pop_rframe : M cst unit := λ s,
  match c_cur (cn_core s) with
  | Some i => Ret tt (set_rframes (delete i (cn_frames s)) s)
  | None => Fault s
  end.

(** The loop of [consoleread], [dst] holding what has been stored and [k] the
    rounds left, [n] if positive: [None] when the process was killed, otherwise
    the bytes and the final [n]. *)
Fixpoint consoleread_loop (k : nat) (n target : Z) (dst : list Z) : M cst (option (list Z * Z)) :=
  match k with
  | O => mret (Some (dst, n))
  | S k =>
    x ← gets cn_input;
    if in_r x =? in_w x then
      killed ← gets cons_killed;
      if killed : bool then mret None else
      push_rframe (mkRframe dst n target);;
      lift (sleep ChInput LInput);;
      diverge
    else
      let c := in_at x (in_r x) in
      modify (set_input (w_r (u32 (in_r x + 1)) x));;
      if c =? C 68 then
        when (n <? target) (modify (set_input (w_r (u32 (u32 (in_r x + 1) - 1)) x)));;
        mret (Some (dst, n))
      else if c =? NEWLINE then mret (Some (dst ++ [c], n - 1))
      else consoleread_loop k (n - 1) target (dst ++ [c])
  end.

(** After the loop; [ilock] is the inode's. *)
Definition consoleread_end (ilock : M cst unit) (target : Z) (r : option (list Z * Z)) : M cst (Z * list Z) :=
  lift (release LInput);;
  ilock;;
  match r with
  | None => mret (-1, [])
  | Some (dst, n) => mret (i32 (target - n), dst)
  end.

Definition consoleread (iunlock ilock : M cst unit) (n : Z) : M cst (Z * list Z) :=
  iunlock;;
  let target := u32 n in
  lift (acquire LInput);;
  r ← consoleread_loop (Z.to_nat n) n target [];
  consoleread_end ilock target r.

(** A reader that was switched back to in [sleep]. *)
Definition consoleread_resume (ilock : M cst unit) (f : rframe) : M cst (Z * list Z) :=
  pop_rframe;;
  lift (sleep_resume LInput);;
  r ← consoleread_loop (Z.to_nat (rf_n f)) (rf_n f) (rf_target f) (rf_dst f);
  consoleread_end ilock (rf_target f) r.

Definition consolewrite (iunlock ilock : M cst unit) (buf : list Z) (n : Z) : M cst Z :=
  iunlock;;
  lift (acquire LCons);;
  consputs ((λ b, Z.land b 0xff) <$> slice 0 n buf);;
  lift (release LCons);;
  ilock;;
  mret n.

(** [consoleinit] on the fields of the model. *)
Definition consoleinit : M cst unit := modify (set_locking 1).

End console.
