(* ===== verification/ConsoleScreen.v ===== *)
(** * What console output does: the terminal, and the serial port

    [Term] is the specification of [cgaputc]: a cursor on 24 rows of 80 cells
    that scroll.  The output routines of console.c never leave the screen and
    send the same characters to the serial port. *)

From S2P Require Import Prelude CString Spinlock Printf Kbd.
From S2P Require Import Kernel Console.
From stdpp Require Import pretty.
#[local] Open Scope Z_scope.

Module Term.

Definition ROWS : Z := 24.
Definition COLS : Z := 80.

(** Where a character leaves the cursor before any scrolling: the start of the
    next line, one back, one on. *)
Definition moved (c pos : Z) : Z :=
  if c =? NEWLINE then (pos / COLS + 1) * COLS
  else if c =? BACKSPACE then Z.max 0 (pos - 1)
  else pos + 1.

(** Below the last row the text moves up by one. *)
Definition scrolls (c pos : Z) : bool := ROWS * COLS <=? moved c pos.
Definition cursor (c pos : Z) : Z := if scrolls c pos then moved c pos - COLS else moved c pos.

Definition drawn (c pos : Z) (cell : Z → Z) (j : Z) : Z :=
  if negb (c =? NEWLINE) && negb (c =? BACKSPACE) && (j =? pos) then u8 c + 0x0700 else cell j.

(** The cell under the cursor is a space, rows that scroll in are empty, and the
    row below the text is never touched. *)
Definition cells (c pos : Z) (cell : Z → Z) (j : Z) : Z :=
  if j =? cursor c pos then 32 + 0x0700
  else if ROWS * COLS <=? j then cell j
  else if scrolls c pos then
    if j <? (ROWS - 1) * COLS then drawn c pos cell (j + COLS) else 0
  else drawn c pos cell j.

(** A string, from a cursor and a text. *)
Fixpoint write (l : list Z) (pos : Z) (cell : Z → Z) : Z * (Z → Z) :=
  match l with
  | [] => (pos, cell)
  | c :: l => write l (cursor c pos) (cells c pos cell)
  end.

End Term.

Definition pos (s : screen) : Z := cur_hi s * 256 + cur_lo s.
Definition cell (s : screen) (j : Z) : Z := nthZ (crt s) j.

Record screen_ok (s : screen) : Prop := {
  so_crt : lenZ (crt s) = NCELL;
  so_hi : byte (cur_hi s);
  so_lo : byte (cur_lo s);
  so_pos : pos s < Term.ROWS * Term.COLS;
}.

(** Or-ing in the low bits is adding them. *)
Lemma pos_lor s : screen_ok s → Z.lor (Z.shiftl (cur_hi s) 8) (cur_lo s) = pos s.
Proof. intros [_ H1 H2 _]. rw Z.shiftl_mul_pow2 // lor_add //. Qed.

Lemma attr_lor c : Z.lor (Z.land c 0xff) 0x0700 = u8 c + 0x0700.
Proof.
  rw Z.lor_comm. change 0x0700 with (7 * 2 ^ 8). change 0xff with (Z.ones 8).
  rw Z.land_ones // lor_add; [lia|lia|]. rw /u8. lia.
Qed.

(** The two registers hold a cursor below 2^16. *)
Lemma pos_split t p : 0 ≤ p < Term.ROWS * Term.COLS → lenZ t = NCELL →
  let s := mkScreen t (u8 (Z.shiftr p 8)) (u8 p) in screen_ok s ∧ pos s = p.
Proof.
  intros Hp Ht s. rw /Term.ROWS /Term.COLS in Hp.
  assert (pos s = p) as E by (rw /pos /s /= /u8 Z.shiftr_div_pow2; lia).
  split; [|done]. split; [done|rw /s /byte /= /u8; lia..|]. rw E /Term.ROWS /Term.COLS. lia.
Qed.

Lemma crt_put_ok i v t : 0 ≤ i < NCELL → crt_put i v t = Some (setZ i v t).
Proof. intros. rw /crt_put. by rw (_ : (0 <=? i) && (i <? NCELL) = true); [lia|]. Qed.

Lemma nthZ_setZ i j v (t : list Z) :
  0 ≤ i < lenZ t → 0 ≤ j → nthZ (setZ i v t) j = if j =? i then v else nthZ t j.
Proof.
  intros Hi Hj. destruct (Z.eqb_spec j i) as [->|]; [by apply nthZ_setZ_eq|]. apply nthZ_setZ_ne; lia.
Qed.

Lemma lenZ_setZ i v (t : list Z) : lenZ (setZ i v t) = lenZ t.
Proof. by rw length_setZ. Qed.

(** The text part of [cgaputc]: the character and the cursor it moves to. *)
Lemma draw_ok c s :
  screen_ok s →
  ∃ t, (if c =? NEWLINE then Some (pos s + (80 - Z.rem (pos s) 80), crt s)
    else if c =? BACKSPACE then Some (if 0 <? pos s then pos s - 1 else pos s, crt s)
    else t ← crt_put (pos s) (Z.lor (Z.land c 0xff) 0x0700) (crt s); Some (pos s + 1, t))
    = Some (Term.moved c (pos s), t) ∧
    lenZ t = NCELL ∧ ∀ j, 0 ≤ j → nthZ t j = Term.drawn c (pos s) (cell s) j.
Proof.
  intros [Hl Hh Hlo Hp]. rw /Term.ROWS /Term.COLS in Hp.
  assert (0 ≤ pos s) as H0 by (rw /pos /byte in Hh Hlo |- *; lia).
  rw /Term.moved /Term.drawn /Term.COLS. destruct (c =? NEWLINE).
  { exists (crt s). split; [|by split]. do 2 f_equal. lia. }
  destruct (c =? BACKSPACE).
  { exists (crt s). split; [|by split]. do 2 f_equal. destruct (0 <? pos s) eqn:E; lia. }
  rw crt_put_ok; [rw /NCELL; lia|]. exists (setZ (pos s) (u8 c + 0x0700) (crt s)).
  rw attr_lor. split; [done|]. rw lenZ_setZ. split; [done|].
  intros j Hj. rw nthZ_setZ; [rw Hl /NCELL; lia|lia|]. done.
Qed.

(** The scrolling part. *)
Lemma scroll_ok p t :
  0 ≤ p ≤ Term.ROWS * Term.COLS → lenZ t = NCELL →
  let up := Term.ROWS * Term.COLS <=? p in
  ∃ t', (if 24 <=? Z.quot p 80 then t ← crt_clear (p - 80) (crt_up t); Some (p - 80, t) else Some (p, t))
    = Some (if up then p - Term.COLS else p, t') ∧
    lenZ t' = NCELL ∧ ∀ j, 0 ≤ j < NCELL → nthZ t' j =
      if Term.ROWS * Term.COLS <=? j then nthZ t j
      else if up then if j <? (Term.ROWS - 1) * Term.COLS then nthZ t (j + Term.COLS) else 0
      else nthZ t j.
Proof.
  intros Hp Ht up. unfold Term.ROWS, Term.COLS in *.
  rw (_ : 24 <=? Z.quot p 80 = up); [rw /up; lia|]. destruct up eqn:E.
  2: { exists t. split; [done|]. split; [done|]. intros j _. by destruct (_ <=? j). }
  assert (p = 1920) as Hp2 by (unfold up in E; lia). clear E up Hp. subst p.
  eexists (splice 1840 (replicate 80 0) (crt_up t)). split; [done|].
  rw /NCELL in Ht |- *.
  have Hs : lenZ (slice 80 (23 * 80) t) = 1840 by rw length_slice; lia.
  have Hu : lenZ (crt_up t) = 2000 by rw /crt_up length_splice; lia.
  split; [rw length_splice; rw ?length_replicate; lia|]. intros j Hj.
  rw nthZ_splice; [done|rw length_replicate; lia|lia|]. rw length_replicate.
  rw /crt_up. rw nthZ_splice; [done|lia..|]. rw Hs.
  destruct (24 * 80 <=? j) eqn:E1; [rw decide_False; [lia|]; rw decide_False; [lia|done]|].
  destruct (j <? (24 - 1) * 80) eqn:E2.
  - rw decide_False; [lia|]. rw decide_True; [lia|]. rw nthZ_slice; [lia..|]. f_equal. lia.
  - rw decide_True; [lia|]. rw /nthZ nth_lookup lookup_replicate_2 //. lia.
Qed.

Lemma cgaputc_run c s :
  screen_ok s →
  ∃ s', cgaputc c s = Some s' ∧ screen_ok s' ∧ pos s' = Term.cursor c (pos s) ∧
    ∀ j, 0 ≤ j < NCELL → cell s' j = Term.cells c (pos s) (cell s) j.
Proof.
  intros Hs. rw /cgaputc (pos_lor _ Hs).
  destruct (draw_ok c s Hs) as (t & -> & Ht & Hd). cbn [mbind option_bind].
  destruct Hs as [Hl Hh Hlo Hp].
  assert (0 ≤ pos s) as H0 by (rw /pos /byte in Hh Hlo |- *; lia).
  assert (0 ≤ Term.moved c (pos s) ≤ Term.ROWS * Term.COLS) as Hm.
  { rw /Term.moved /Term.ROWS /Term.COLS in Hp |- *.
    destruct (c =? NEWLINE); [lia|]. destruct (c =? BACKSPACE); lia. }
  destruct (scroll_ok _ t Hm Ht) as (t' & -> & Ht' & Hc). cbn [mbind option_bind].
  change (if Term.ROWS * Term.COLS <=? Term.moved c (pos s) then _ else _) with (Term.cursor c (pos s)).
  have Hcur : 0 ≤ Term.cursor c (pos s) < Term.ROWS * Term.COLS.
  { rw /Term.cursor /Term.scrolls. rw /Term.ROWS /Term.COLS in Hm |- *.
    destruct (24 * 80 <=? _) eqn:E; lia. }
  have Hn : Term.ROWS * Term.COLS < NCELL by [].
  rw crt_put_ok; [lia|]. cbn [mbind option_bind].
  destruct (pos_split (setZ (Term.cursor c (pos s)) (Z.lor 32 1792) t') _ Hcur) as [Hok Hpos]; [by rw lenZ_setZ|].
  eexists. split; [done|]. split; [exact Hok|]. split; [exact Hpos|].
  intros j Hj. rw {1}/cell /= nthZ_setZ; [lia..|]. rw /Term.cells.
  destruct (j =? Term.cursor c (pos s)); [done|]. rw Hc // /Term.scrolls.
  destruct (Term.ROWS * Term.COLS <=? j) eqn:E.
  - rw Hd; [lia|]. rw /Term.drawn (_ : j =? pos s = false); [lia|]. by rw andb_false_r.
  - rw /Term.COLS in Hd |- *. rw !Hd; [lia..|]. done.
Qed.

(** [x'] shows what writing [l] on [x] leaves. *)
Definition draws (l : list Z) (x x' : screen) : Prop :=
  let r := Term.write l (pos x) (cell x) in
  pos x' = r.1 ∧ ∀ j, 0 ≤ j < NCELL → cell x' j = r.2 j.

Lemma pos_range x : screen_ok x → 0 ≤ pos x < Term.ROWS * Term.COLS.
Proof. intros [_ H1 H2 H3]. rw /byte in H1 H2. split; [rw /pos; lia|done]. Qed.

(** Writing looks at the cells of the page only. *)
Lemma cells_ext c p f g j :
  (∀ j, 0 ≤ j < NCELL → f j = g j) → 0 ≤ j < NCELL → Term.cells c p f j = Term.cells c p g j.
Proof.
  intros Hfg Hj. rw /Term.cells /Term.drawn !(Hfg j) //. rw /Term.ROWS /Term.COLS.
  destruct (j <? _) eqn:E; [|done]. rw Hfg //. rw /NCELL. lia.
Qed.

Lemma write_ext l p f g :
  (∀ j, 0 ≤ j < NCELL → f j = g j) →
  (Term.write l p f).1 = (Term.write l p g).1 ∧
  ∀ j, 0 ≤ j < NCELL → (Term.write l p f).2 j = (Term.write l p g).2 j.
Proof.
  revert p f g. induction l as [|c l IH]; intros p f g Hfg; [done|]. cbn [Term.write].
  apply IH. intros j Hj. by apply cells_ext.
Qed.

Lemma write_app l k p f :
  Term.write (l ++ k) p f = Term.write k (Term.write l p f).1 (Term.write l p f).2.
Proof. revert p f. induction l as [|c l IH]; intros p f; [done|]. cbn [app Term.write]. apply IH. Qed.

Lemma draws_nil x : draws [] x x.
Proof. done. Qed.

Lemma draws_app l k x y z : draws l x y → draws k y z → draws (l ++ k) x z.
Proof.
  rw /draws write_app. intros [Hp Hc] [Hp2 Hc2]. rw Hp in Hp2 Hc2.
  destruct (write_ext k (Term.write l (pos x) (cell x)).1 _ _ Hc) as [H1 H2].
  split; [by rw Hp2 H1|]. intros j Hj. by rw Hc2 // H2.
Qed.

(** ** Output *)

(** The bytes a character is on the serial line. *)
Definition uart_bytes (c : Z) : list Z := if c =? BACKSPACE then [8; 32; 8] else [u8 c].
Definition serial (u : Z) (l : list Z) : list Z := if u =? 0 then [] else concat (uart_bytes <$> l).

Lemma serial_app u l k : serial u (l ++ k) = serial u l ++ serial u k.
Proof. rw /serial. destruct (u =? 0); [done|]. by rw fmap_app concat_app. Qed.

(** The console works: no CPU has panicked and the cursor is on the screen. *)
Record cons_ok (s : cst) : Prop := {
  co_panicked : cn_panicked s = 0;
  co_screen : screen_ok (cn_screen s);
}.

(** [s'] is [s] after the characters [l] have been put out, and nothing else. *)
Definition emits (l : list Z) (s s' : cst) : Prop :=
  ∃ x, screen_ok x ∧ draws l (cn_screen s) x ∧
    s' = set_screen x (set_sent (cn_sent s ++ serial (cn_uart s) l) s).

Lemma emits_ok l s s' : cons_ok s → emits l s s' → cons_ok s'.
Proof. intros [Hp Hs] (x & Hx & _ & ->). by split. Qed.

Lemma emits_nil s : cons_ok s → emits [] s s.
Proof.
  intros [_ Hs]. exists (cn_screen s). split; [done|]. split; [apply draws_nil|].
  rw /serial /= (_ : (if cn_uart s =? 0 then [] else []) = ([] : list Z)); [by destruct (_ =? 0)|].
  rw app_nil_r. by destruct s.
Qed.

Lemma emits_app l k s s1 s2 : emits l s s1 → emits k s1 s2 → emits (l ++ k) s s2.
Proof.
  intros (x & Hx & Hd & ->) (y & Hy & Hd2 & ->). exists y. split; [done|].
  split; [by eapply draws_app|]. rw serial_app app_assoc. done.
Qed.

Lemma uartputc_run c s : uartputc c s = Ret tt (set_sent (cn_sent s ++ (if cn_uart s =? 0 then [] else [u8 c])) s).
Proof. rw /uartputc. destruct (cn_uart s =? 0); [|done]. rw app_nil_r. by destruct s. Qed.

Lemma consputc_run c s : cons_ok s → ∃ s', consputc c s = Ret tt s' ∧ emits [c] s s'.
Proof.
  intros [Hp Hs]. destruct (cgaputc_run c _ Hs) as (x & Hx & Hok & Hpos & Hc).
  exists (set_screen x (set_sent (cn_sent s ++ serial (cn_uart s) [c]) s)). split.
  - rw /consputc run_gets Hp. cbn [Z.eqb negb].
    assert ((if c =? BACKSPACE then uartputc 8;; uartputc 32;; uartputc 8 else uartputc c) s =
      Ret tt (set_sent (cn_sent s ++ serial (cn_uart s) [c]) s)) as Hu.
    { rw /serial /= /uart_bytes. destruct (c =? BACKSPACE).
      - rw 2!(run_bind _ _ _ _ _ (uartputc_run _ _)) uartputc_run. cbn [cn_uart set_sent cn_sent].
        by destruct (cn_uart s =? 0); rw /= -?app_assoc ?app_nil_r.
      - rw uartputc_run. by destruct (cn_uart s =? 0). }
    rw (run_bind _ _ _ _ _ Hu) /cgaout. cbn [cn_screen set_sent]. by rw Hx.
  - exists x. split; [done|]. split; [|done]. by split.
Qed.

Lemma consputs_run l s : cons_ok s → ∃ s', consputs l s = Ret tt s' ∧ emits l s s'.
Proof.
  revert s. induction l as [|c l IH]; intros s Hs.
  - exists s. split; [done|]. by apply emits_nil.
  - destruct (consputc_run c s Hs) as (s1 & Hr & He).
    destruct (IH s1) as (s2 & Hr2 & He2); [by eapply emits_ok|].
    exists s2. cbn [consputs]. rw (run_bind _ _ _ _ _ Hr) Hr2. split; [done|].
    change (c :: l) with ([c] ++ l). by eapply emits_app.
Qed.

Lemma emits_core l c s s1 :
  emits l (set_ccore c s) s1 → cn_core s1 = c ∧ emits l s (set_ccore (cn_core s) s1).
Proof.
  intros (x & Hx & Hd & ->). split; [done|]. exists x. split; [done|]. split; [done|]. by destruct s.
Qed.

Lemma cons_ok_core c s : cons_ok s → cons_ok (set_ccore c s).
Proof. by intros [? ?]. Qed.

Lemma set_ccore_id s : set_ccore (cn_core s) s = s.
Proof. by destruct s. Qed.

Lemma lift_core {A} (m : M core A) s a c : m (cn_core s) = Ret a c → lift m s = Ret a (set_ccore c s).
Proof. rw /lift /= => ->. done. Qed.

(** Output under [cons.lock]. *)
Lemma locked_consputs_run l s :
  cons_ok s → LCons ∉ c_locks (cn_core s) →
  ∃ s', emits l s s' ∧ ∀ A (k : M cst A),
    (lift (acquire LCons);; consputs l;; lift (release LCons);; k) s = k s'.
Proof.
  intros Hs Hl. set c := set_locks (LCons :: c_locks (cn_core s)) (cn_core s).
  destruct (consputs_run l _ (cons_ok_core c s Hs)) as (s1 & Hr & He).
  destruct (emits_core _ _ _ _ He) as [Hc He2].
  exists (set_ccore (cn_core s) s1). split; [done|]. intros A k.
  rw (run_bind _ _ _ tt (set_ccore c s)); [by apply lift_core, acquire_run|].
  rw (run_bind _ _ _ _ _ Hr). apply (run_bind _ (λ _, k) _ tt), lift_core.
  rw Hc (release_run _ (c_locks (cn_core s))) //. by rw /c set_locks_set_locks set_locks_id.
Qed.

Lemma cprintf_run fmt ap out s :
  format false fmt ap = Some out → cons_ok s → cn_locking s = 0 ∨ LCons ∉ c_locks (cn_core s) →
  ∃ s', cprintf (Some fmt) ap s = Ret tt s' ∧ emits out s s'.
Proof.
  intros Hf Hs Hl. rw /cprintf run_gets. destruct (cn_locking s =? 0) eqn:E; cbn [negb when].
  - rw run_ret. destruct (consputs_run out s Hs) as (s' & Hr & He). exists s'. split; [|done].
    by rw Hf (run_bind _ _ _ _ _ Hr).
  - assert (LCons ∉ c_locks (cn_core s)) as Hl2 by (destruct Hl; [lia|done]).
    destruct (locked_consputs_run out s Hs Hl2) as (s' & He & Hr). exists s'. split; [|done].
    rw Hf. etrans; [|exact (Hr unit (mret tt))].
    rw /mbind /M_bind. destruct (lift (acquire LCons) s) as [? t| | | |]; [|done..]. simpl.
    destruct (consputs out t) as [? t2| | | |]; [|done..]. simpl.
    by destruct (lift (release LCons) t2) as [[] ?| | | |].
Qed.

(** [ilock] and [iunlock] as the console sees them when nobody contends for the
    inode: they leave the console, the spinlocks and the running process alone
    and may make other processes runnable. *)
Record core_woken (c c' : core) : Prop := {
  cw_locks : c_locks c' = c_locks c;
  cw_cur : c_cur c' = c_cur c;
  cw_procs : Forall2 (λ p q, q = p ∨ q = set_state RUNNABLE p) (c_procs c) (c_procs c');
}.
Definition inode_lock_op (m : M cst unit) : Prop :=
  ∀ s, ∃ c, m s = Ret tt (set_ccore c s) ∧ core_woken (cn_core s) c.

(** Writing to the console puts out the bytes of the buffer, on the screen and
    on the serial line. *)
Theorem consolewrite_correct iunlock ilock buf n s :
  inode_lock_op iunlock → inode_lock_op ilock → cons_ok s → LCons ∉ c_locks (cn_core s) →
  bytes buf → 0 ≤ n ≤ lenZ buf →
  ∃ s1 c, emits (slice 0 n buf) s s1 ∧ consolewrite iunlock ilock buf n s = Ret n (set_ccore c s1).
Proof.
  intros Hu Hil Hs Hl Hb Hn. destruct (Hu s) as (c1 & Hr1 & [Hl1 _ _]).
  rw /consolewrite (run_bind _ _ _ _ _ Hr1).
  have -> : (λ b, Z.land b 255) <$> slice 0 n buf = slice 0 n buf.
  { apply (Forall_slice _ 0 n) in Hb. rw -{2}(list_fmap_id (slice 0 n buf)). apply list_fmap_ext => i b Hi.
    change 255 with (Z.ones 8). rw Z.land_ones //. apply Z.mod_small. by apply (list.Forall_lookup_1 _ _ _ _ Hb Hi). }
  destruct (locked_consputs_run (slice 0 n buf) _ (cons_ok_core c1 s Hs)) as (s2 & He & Hr2); [by rw /= Hl1|].
  destruct (emits_core _ _ _ _ He) as [Hc He2]. destruct (Hil s2) as (c2 & Hr3 & _).
  exists (set_ccore (cn_core s) s2), c2. split; [exact He2|].
  rw Hr2 (run_bind _ _ _ _ _ Hr3). rw run_mret. by destruct s2.
Qed.

(** A concrete console: an empty screen, one process running. *)
Definition blank : screen := mkScreen (replicate 2000 0) 0 0.
Definition cons0 : cst :=
  mkCst (mkCore [] [set_state RUNNING proc0] (Some 0%nat) 2 (Some 0%nat)) 1 0 1 [] blank
    (mkInput (replicate 128 0) 0 0 0) false ∅.

Lemma cons0_ok : cons_ok cons0.
Proof. split; [done|]. by split. Qed.

Lemma ret_lock_op : inode_lock_op (mret tt).
Proof.
  intros s. exists (cn_core s). split; [by rw set_ccore_id|]. split; [done..|].
  apply Forall_Forall2_diag, list.Forall_true. by left.
Qed.

Lemma consolewrite_correct_witness :
  ∃ s1 c, emits [104; 105; 10] cons0 s1 ∧ consolewrite (mret tt) (mret tt) [104; 105; 10; 7] 3 cons0 = Ret 3 (set_ccore c s1).
Proof.
  apply (consolewrite_correct (mret tt) (mret tt) [104; 105; 10; 7] 3 cons0);
    [apply ret_lock_op|apply ret_lock_op|apply cons0_ok|cbn; set_solver|repeat constructor; rw /byte; lia|cbn; lia].
Defined.

Lemma emits_locking l s s' : emits l s s' → cn_locking s' = cn_locking s.
Proof. by intros (x & _ & _ & ->). Qed.

(** A step of [panic]. *)
Lemma cprintf_unlocked fmt ap out s :
  format false fmt ap = Some out → cons_ok s → cn_locking s = 0 →
  ∃ s', emits out s s' ∧ cons_ok s' ∧ cn_locking s' = 0 ∧
    ∀ A (k : M cst A), (cprintf (Some fmt) ap;; k) s = k s'.
Proof.
  intros Hf Hs Hl. destruct (cprintf_run fmt ap out s Hf Hs) as (s' & Hr & He); [by left|].
  exists s'. split; [done|]. split; [by eapply emits_ok|]. split; [by rw (emits_locking _ _ _ He)|].
  intros A k. by rw (run_bind _ _ _ _ _ Hr).
Qed.

Definition trace_line (pc : Z) : list Z := codes " " ++ default [] (print_x64 (u64 pc)) ++ [NEWLINE].

#[local] Opaque print_x64 print_d.

Lemma format_trace pc : format false (codes " %p" ++ [NEWLINE]) [VAddr pc] = Some (trace_line pc).
Proof. rw /trace_line. destruct (print_x64_run pc) as (o & Ho & _). cbn. by rw !Ho. Qed.

Lemma print_trace_run trace n i s :
  cons_ok s → cn_locking s = 0 →
  ∃ s', emits (concat ((λ i, trace_line (nthZ trace i)) <$> seqZ i (Z.of_nat n))) s s' ∧
    cons_ok s' ∧ cn_locking s' = 0 ∧ ∀ A (k : M cst A),
    (for_up n i (λ i, cprintf (Some (codes " %p" ++ [NEWLINE])) [VAddr (nthZ trace i)]);; k) s = k s'.
Proof.
  revert i s. induction n as [|n IH]; intros i s Hs Hl.
  { exists s. split; [by apply emits_nil|done]. }
  destruct (cprintf_unlocked _ _ _ s (format_trace (nthZ trace i)) Hs Hl) as (s1 & He1 & Hs1 & Hl1 & Hr1).
  destruct (IH (i + 1) s1 Hs1 Hl1) as (s2 & He2 & Hs2 & Hl2 & Hr2).
  exists s2. split; [|split; [exact Hs2|split; [exact Hl2|]]].
  - rw seqZ_cons; [lia|]. rw (_ : Z.pred (Z.of_nat (S n)) = Z.of_nat n); [lia|].
    cbn [fmap list_fmap concat]. rw -Z.add_1_r. by eapply emits_app.
  - intros A k. cbn [for_up]. by rw run_assoc Hr1 Hr2.
Qed.

(** [panic] needs no lock: with [cons.locking] cleared it prints the message and
    the trace whatever this CPU holds, and from then on every CPU that prints
    halts. *)
Theorem panic_correct id msg trace s :
  cons_ok s → signature false msg = [] →
  ∃ out text s1, format false msg [] = Some text ∧
    out = codes "cpu" ++ codes (pretty (i32 id)) ++ codes ": panic: " ++ text ++ [NEWLINE] ++
      concat ((λ i, trace_line (nthZ trace i)) <$> seqZ 0 10) ∧
    emits out (set_locking 0 s) s1 ∧
    panic_ id msg trace s = Panic "hlt" (set_panicked 1 s1) ∧
    ∀ c, consputc c (set_panicked 1 s1) = Panic "hlt" (set_panicked 1 s1).
Proof.
  intros Hs Hm. destruct (proj2 (format_typed false msg [])) as [text Ht]; [by rw Hm|].
  have Hid : format false (codes "cpu%d: panic: ") [VInt id] =
    Some (codes "cpu" ++ codes (pretty (i32 id)) ++ codes ": panic: ").
  { cbn. rw print_d_pretty. done. }
  rw /panic_ run_modify. set s0 := set_locking 0 s.
  destruct (cprintf_unlocked _ _ _ s0 Hid) as (s1 & He1 & Hs1 & Hl1 & ->); [by destruct Hs|done|].
  destruct (cprintf_unlocked _ _ _ s1 Ht) as (s2 & He2 & Hs2 & Hl2 & ->); [done..|].
  destruct (cprintf_unlocked [NEWLINE] [] [NEWLINE] s2) as (s3 & He3 & Hs3 & Hl3 & ->); [done..|].
  destruct (print_trace_run trace 10 0 s3) as (s4 & He4 & Hs4 & Hl4 & ->); [done..|].
  eexists _, text, s4. split; [done|]. split; [done|]. split; [|done].
  have := emits_app _ _ _ _ _ He1 (emits_app _ _ _ _ _ He2 (emits_app _ _ _ _ _ He3 He4)).
  by rw -!app_assoc.
Qed.

Lemma panic_correct_witness :
  ∃ out text s1, format false (codes "sched locks") [] = Some text ∧
    out = codes "cpu" ++ codes (pretty (i32 1)) ++ codes ": panic: " ++ text ++ [NEWLINE] ++
      concat ((λ i, trace_line (nthZ [0xFFFF800000100000] i)) <$> seqZ 0 10) ∧
    emits out (set_locking 0 cons0) s1 ∧
    panic_ 1 (codes "sched locks") [0xFFFF800000100000] cons0 = Panic "hlt" (set_panicked 1 s1) ∧
    ∀ c, consputc c (set_panicked 1 s1) = Panic "hlt" (set_panicked 1 s1).
Proof. apply (panic_correct 1 (codes "sched locks") [0xFFFF800000100000] cons0 cons0_ok). reflexivity. Defined.
