(* ===== verification/ConsoleInput.v ===== *)
(** * Console input: the line editor and its readers

    [Tty] is what [consoleintr] and [consoleread] promise: a queue of committed
    bytes and the line being typed.  The ring buffer with its three wrapping
    indices refines it, character by character and under every interleaving of
    typing, reading and being killed. *)

From S2P Require Import Prelude CString Spinlock Printf Kbd.
From S2P Require Import Kernel Sleepers Console ConsoleScreen.

Module Tty.

Record tty := mkTty { pending : list Z; line : list Z }.

Definition CAP : Z := 128.
Definition EOT : Z := 4.
Definition ERASE : Z := 8.
Definition KILL : Z := 21.
Definition REBOOT : Z := 26.
Definition LIST : Z := 16.
Definition DEL : Z := 127.

Definition used (t : tty) : Z := lenZ (pending t) + lenZ (line t).

(** What a typed carriage return is taken for. *)
Definition norm (c : Z) : Z := if c =? CR then NEWLINE else c.

(** An ordinary character joins the line if there is room; a newline, a ^D or a
    full buffer commits the line. *)
Definition accepts (c : Z) (t : tty) : bool := negb (c =? 0) && (used t <? CAP).
Definition commits (c : Z) (t : tty) : bool := (c =? NEWLINE) || (c =? EOT) || (used t + 1 =? CAP).

Definition type (c : Z) (t : tty) : tty :=
  if (c =? REBOOT) || (c =? LIST) then t
  else if c =? KILL then mkTty (pending t) []
  else if (c =? ERASE) || (c =? DEL) then mkTty (pending t) (removelast (line t))
  else if accepts c t then
    let l := line t ++ [norm c] in
    if commits (norm c) t then mkTty (pending t ++ l) [] else mkTty (pending t) l
  else t.

(** What is echoed; [dump] is the process listing of ^P. *)
Definition echo (dump : list Z) (c : Z) (t : tty) : list Z :=
  if c =? REBOOT then []
  else if c =? LIST then dump
  else if c =? KILL then replicate (length (line t)) BACKSPACE
  else if (c =? ERASE) || (c =? DEL) then (if bool_decide (line t = []) then [] else [BACKSPACE])
  else if accepts c t then [norm c]
  else [].

Definition wakes (c : Z) (t : tty) : bool :=
  negb ((c =? REBOOT) || (c =? LIST) || (c =? KILL) || (c =? ERASE) || (c =? DEL)) &&
  accepts c t && commits (norm c) t.

(** A burst of characters. *)
Fixpoint types (cs : list Z) (t : tty) : tty :=
  match cs with [] => t | c :: cs => types cs (type c t) end.
Fixpoint echoes (cs : list Z) (t : tty) : list Z :=
  match cs with [] => [] | c :: cs => echo [] c t ++ echoes cs (type c t) end.
Fixpoint woken (cs : list Z) (t : tty) : bool :=
  match cs with [] => false | c :: cs => wakes c t || woken cs (type c t) end.

(** A reader takes bytes from the queue: up to a newline, up to a ^D that it
    leaves for the next read if it already has something, up to [n]. *)
Inductive read_result :=
| Done (dst : list Z) (n : Z) (rest : list Z)    (** the call is over *)
| Starved (dst : list Z) (n : Z).                (** the queue is empty *)

Fixpoint read (k : nat) (n target : Z) (dst q : list Z) : read_result :=
  match k with
  | O => Done dst n q
  | S k =>
    match q with
    | [] => Starved dst n
    | c :: q' =>
      if c =? EOT then Done dst n (if n <? target then q else q')
      else if c =? NEWLINE then Done (dst ++ [c]) (n - 1) q'
      else read k (n - 1) target (dst ++ [c]) q'
    end
  end.

End Tty.

(** ** The ring *)

(** [n] bytes from index [i] on. *)
Definition ring (x : input) (i n : Z) : list Z := (λ k, in_at x (i + k)) <$> seqZ 0 n.

Definition npend (x : input) : Z := u32 (in_w x - in_r x).
Definition nline (x : input) : Z := u32 (in_e x - in_w x).

Definition tty_of (x : input) : Tty.tty :=
  Tty.mkTty (ring x (in_r x) (npend x)) (ring x (in_w x) (nline x)).

Record input_ok (x : input) : Prop := {
  io_buf : lenZ (in_buf x) = INPUT_BUF;
  io_r : 0 ≤ in_r x < 2 ^ 32;
  io_w : 0 ≤ in_w x < 2 ^ 32;
  io_e : 0 ≤ in_e x < 2 ^ 32;
  io_cap : npend x + nline x ≤ INPUT_BUF;
  io_line : NEWLINE ∉ Tty.line (tty_of x);
}.

Lemma length_ring x i n : 0 ≤ n → lenZ (ring x i n) = n.
Proof. intros. rw /ring length_fmap length_seqZ. lia. Qed.

Lemma npend_nonneg x : 0 ≤ npend x.
Proof. rw /npend /u32. lia. Qed.
Lemma nline_nonneg x : 0 ≤ nline x.
Proof. rw /nline /u32. lia. Qed.
#[local] Hint Resolve npend_nonneg nline_nonneg : core.

(** Indices that agree modulo the size of the buffer. *)
Lemma ring_ext x y i j n :
  (∀ k, 0 ≤ k < n → in_at x (i + k) = in_at y (j + k)) → ring x i n = ring y j n.
Proof. intros H. rw /ring. apply fmap_seqZ_ext => k Hk. apply H. lia. Qed.

Lemma ring_snoc x i n : 0 ≤ n → ring x i (n + 1) = ring x i n ++ [in_at x (i + n)].
Proof.
  intros Hn. rw /ring (_ : n + 1 = Z.of_nat (S (Z.to_nat n))); [lia|].
  rw seqZ_S fmap_app /= Z2Nat.id //.
Qed.

Lemma ring_app x i n m : 0 ≤ n → 0 ≤ m → ring x i (n + m) = ring x i n ++ ring x (i + n) m.
Proof.
  intros Hn Hm. rw -{1}(Z2Nat.id m) // -{2}(Z2Nat.id m) //. generalize (Z.to_nat m) as k. clear m Hm.
  induction k as [|k IH]; [by rw Z.add_0_r app_nil_r|].
  rw Nat2Z.inj_succ -Z.add_1_r Z.add_assoc !ring_snoc; [lia..|]. rw IH app_assoc. do 3 f_equal. lia.
Qed.

Lemma ring_cons x i n : 0 < n → ring x i n = in_at x i :: ring x (i + 1) (n - 1).
Proof.
  intros Hn. rw {1}(_ : n = 0 + 1 + (n - 1)); [lia|]. rw ring_app; [lia..|].
  rw ring_snoc // Z.add_0_r //.
Qed.

Lemma in_at_mod x i j : i mod INPUT_BUF = j mod INPUT_BUF → in_at x i = in_at x j.
Proof. rw /in_at => ->. done. Qed.

Lemma ring_mod x i j n : i mod INPUT_BUF = j mod INPUT_BUF → ring x i n = ring x j n.
Proof. intros H. apply ring_ext => k Hk. apply in_at_mod. rw /INPUT_BUF in H |- *. lia. Qed.

Lemma u32_mod i : u32 i mod INPUT_BUF = i mod INPUT_BUF.
Proof. rw /u32 /INPUT_BUF. lia. Qed.

(** Storing outside a range leaves it. *)
Lemma ring_set x (i n j v r w e : Z) :
  lenZ (in_buf x) = INPUT_BUF → 0 ≤ n → n ≤ (j - i) mod INPUT_BUF →
  ring (mkInput (setZ (j mod INPUT_BUF) v (in_buf x)) r w e) i n = ring x i n.
Proof.
  intros Hb Hn Hj. apply ring_ext => k Hk. rw /in_at /=. apply nthZ_setZ_ne; rw /INPUT_BUF in Hj |- *; lia.
Qed.

(** ** Putting characters out leaves the input alone *)

Lemma emits_input l x s s1 :
  emits l (set_input x s) s1 → cn_input s1 = x ∧ emits l s (set_input (cn_input s) s1).
Proof.
  intros (y & Hy & Hd & ->). split; [done|]. exists y. split; [done|]. split; [done|]. by destruct s.
Qed.

Lemma emits_same l s s1 :
  emits l s s1 → cn_input s1 = cn_input s ∧ cn_core s1 = cn_core s ∧ cn_frames s1 = cn_frames s ∧ cn_noidt s1 = cn_noidt s.
Proof. by intros (y & Hy & Hd & ->). Qed.

Lemma cprintf_typed fmt ap s :
  signature false fmt `prefix_of` (kind_of <$> ap) → cons_ok s → LCons ∉ c_locks (cn_core s) →
  ∃ out s', cprintf (Some fmt) ap s = Ret tt s' ∧ emits out s s' ∧ cons_ok s' ∧ LCons ∉ c_locks (cn_core s').
Proof.
  intros Hf Hs Hl. destruct (proj2 (format_typed _ _ _) Hf) as [out Ho].
  destruct (cprintf_run _ _ _ s Ho Hs) as (s' & Hr & He); [by right|].
  exists out, s'. split; [done|]. split; [done|]. split; [by eapply emits_ok|].
  destruct (emits_same _ _ _ He) as (_ & -> & _). done.
Qed.

Section dump.
Context (context_rbp : nat → Z) (word : Z → Z).

Lemma print_pcs_run pc s :
  cons_ok s → LCons ∉ c_locks (cn_core s) →
  ∃ out s', print_pcs pc s = Ret tt s' ∧ emits out s s' ∧ cons_ok s' ∧ LCons ∉ c_locks (cn_core s').
Proof.
  revert s. induction pc as [|x pc IH]; intros s Hs Hl; cbn [print_pcs].
  { exists [], s. split; [done|]. split; [by apply emits_nil|done]. }
  destruct (x =? 0). { exists [], s. split; [done|]. split; [by apply emits_nil|done]. }
  destruct (cprintf_typed (codes " %p") [VAddr x] s) as (o1 & s1 & Hr1 & He1 & Hs1 & Hl1); [by vm_compute; exists []|done..|].
  destruct (IH s1 Hs1 Hl1) as (o2 & s2 & Hr2 & He2 & H2). exists (o1 ++ o2), s2.
  rw (run_bind _ _ _ _ _ Hr1). split; [done|]. split; [by eapply emits_app|done].
Qed.

Lemma procdump1_run i s :
  cons_ok s → LCons ∉ c_locks (cn_core s) →
  ∃ out s', procdump1 context_rbp word i s = Ret tt s' ∧ emits out s s' ∧ cons_ok s' ∧ LCons ∉ c_locks (cn_core s').
Proof.
  intros Hs Hl. rw /procdump1 run_gets. set p := (_ !!! i : proc).
  destruct (bool_decide (p_state p = UNUSED)). { exists [], s. split; [done|]. split; [by apply emits_nil|done]. }
  destruct (cprintf_typed (codes "%d %s %s")
    [VInt (p_pid p); VStr (Some (states (p_state p))); VStr (Some (cname 16 (nthZ (p_name p)) 0))] s)
    as (o1 & s1 & Hr1 & He1 & Hs1 & Hl1); [exists []; reflexivity|done..|].
  rw (run_bind _ _ _ _ _ Hr1).
  assert (∃ out s', when (bool_decide (p_state p = SLEEPING)) (print_pcs (getstackpcs word (context_rbp i + 16))) s1
    = Ret tt s' ∧ emits out s1 s' ∧ cons_ok s' ∧ LCons ∉ c_locks (cn_core s')) as (o2 & s2 & Hr2 & He2 & Hs2 & Hl2).
  { destruct (bool_decide _); [by apply print_pcs_run|]. exists [], s1. split; [done|]. split; [by apply emits_nil|done]. }
  rw (run_bind _ _ _ _ _ Hr2).
  destruct (cprintf_typed [NEWLINE] [] s2) as (o3 & s3 & Hr3 & He3 & Hs3 & Hl3); [by exists []|done..|].
  exists (o1 ++ o2 ++ o3), s3. split; [done|]. split; [|done]. eapply emits_app; [done|]. by eapply emits_app.
Qed.

Lemma procdump_run s :
  cons_ok s → LCons ∉ c_locks (cn_core s) →
  ∃ out s', procdump context_rbp word s = Ret tt s' ∧ emits out s s'.
Proof.
  intros Hs Hl. destruct (total_for_up NPROC 0 (λ i, procdump1 context_rbp word (Z.to_nat i))
    (λ _ s', ∃ out, emits out s s' ∧ cons_ok s' ∧ LCons ∉ c_locks (cn_core s')) s) as ([] & s' & Hr & out & He & _).
  - exists []. split; [by apply emits_nil|done].
  - intros i s1 _ (out & He & Hs1 & Hl1).
    destruct (procdump1_run (Z.to_nat i) s1 Hs1 Hl1) as (o & s2 & Hr & He2 & H2).
    exists tt, s2. split; [done|]. exists (out ++ o). split; [by eapply emits_app|done].
  - by exists out, s'.
Qed.

End dump.

(** ** Editing the ring *)

Lemma used_tty x : input_ok x → Tty.used (tty_of x) = u32 (in_e x - in_r x).
Proof.
  intros [_ Hr Hw He Hc _]. rw /Tty.used /= !length_ring //.
  rw /npend /nline /u32 /INPUT_BUF in Hc |- *. lia.
Qed.

Lemma line_empty x : input_ok x → (in_e x =? in_w x) = bool_decide (Tty.line (tty_of x) = []).
Proof.
  intros [_ Hr Hw He Hc _]. have Hl := length_ring x (in_w x) (nline x) (nline_nonneg x).
  cbn [tty_of Tty.line]. destruct (Z.eqb_spec (in_e x) (in_w x)) as [E|E]; symmetry.
  - apply bool_decide_eq_true_2. by rw /nline E Z.sub_diag.
  - apply bool_decide_eq_false_2 => E'. rw E' /nline /u32 /= in Hl. lia.
Qed.

(** [input.e--] drops the last character of the line. *)
Lemma erase_ok x :
  input_ok x → in_e x ≠ in_w x →
  let x' := w_e (u32 (in_e x - 1)) x in
  input_ok x' ∧ nline x' = nline x - 1 ∧
  tty_of x = Tty.mkTty (Tty.pending (tty_of x')) (Tty.line (tty_of x') ++ [in_at x (u32 (in_e x - 1))]).
Proof.
  intros [Hb Hr Hw He Hc Hl] Hne x'.
  assert (nline x' = nline x - 1) as Hn by (rw /nline /x' /= /u32; lia).
  assert (0 < nline x) as Hpos by (rw /nline /u32; lia).
  have Ht : ring x (in_w x) (nline x) = ring x' (in_w x') (nline x') ++ [in_at x (u32 (in_e x - 1))].
  { rw Hn {1}(_ : nline x = nline x - 1 + 1); [lia|]. rw ring_snoc; [lia|]. do 2 f_equal.
    apply in_at_mod. rw u32_mod /nline /u32 /INPUT_BUF. lia. }
  split; [|split; [done|by rw {1}/tty_of Ht]].
  split; [done..|rw /x' /= /u32; lia|rw Hn; change (npend x') with (npend x); lia|].
  cbn [tty_of Tty.line] in Hl |- *. rw Ht in Hl. set_solver.
Qed.

(** [input.buf[input.e++ % INPUT_BUF] = c] appends to the line. *)
Lemma store_ok x c :
  input_ok x → u32 (in_e x - in_r x) < INPUT_BUF →
  let x' := mkInput (setZ (in_e x mod INPUT_BUF) c (in_buf x)) (in_r x) (in_w x) (u32 (in_e x + 1)) in
  tty_of x' = Tty.mkTty (Tty.pending (tty_of x)) (Tty.line (tty_of x) ++ [c]) ∧
  npend x' = npend x ∧ nline x' = nline x + 1 ∧ npend x + nline x = u32 (in_e x - in_r x).
Proof.
  intros Hok Hlt x'. have Hu := used_tty x Hok. rw /Tty.used /= !length_ring // in Hu.
  destruct Hok as [Hb Hr Hw He Hc Hl].
  assert (nline x' = nline x + 1) as Hn.
  { rw /nline /x' /=. rw /nline /npend /u32 /INPUT_BUF in Hu Hlt |- *. lia. }
  split; [|by split]. rw /tty_of. f_equal.
  - change (npend x') with (npend x). apply ring_set; [done..|].
    rw /x' /=. rw /npend /nline /u32 /INPUT_BUF in Hu Hlt |- *. lia.
  - rw Hn ring_snoc //. f_equal.
    + apply ring_set; [done..|]. rw /x' /=. rw /npend /nline /u32 /INPUT_BUF in Hu Hlt |- *. lia.
    + f_equal. rw /in_at /x' /=. rw (_ : (in_w x + nline x) mod INPUT_BUF = in_e x mod INPUT_BUF).
      { rw /nline /u32 /INPUT_BUF. lia. }
      apply nthZ_setZ_eq. rw Hb /INPUT_BUF. lia.
Qed.

(** [input.w = input.e] commits the line. *)
Lemma commit_ok x :
  0 ≤ in_r x < 2 ^ 32 → 0 ≤ in_w x < 2 ^ 32 → 0 ≤ in_e x < 2 ^ 32 →
  lenZ (in_buf x) = INPUT_BUF → npend x + nline x ≤ INPUT_BUF →
  let x' := w_w (in_e x) x in
  input_ok x' ∧ tty_of x' = Tty.mkTty (Tty.pending (tty_of x) ++ Tty.line (tty_of x)) [].
Proof.
  intros Hr Hw He Hb Hc x'.
  assert (npend x' = npend x + nline x) as Hp.
  { rw /npend /nline /x' /=. rw /npend /nline /u32 /INPUT_BUF in Hc |- *. lia. }
  assert (nline x' = 0) as Hn by (by rw /nline /x' /= Z.sub_diag).
  assert (tty_of x' = Tty.mkTty (Tty.pending (tty_of x) ++ Tty.line (tty_of x)) []) as Ht.
  { rw /tty_of Hp Hn /=. f_equal. rw (ring_app x') //. f_equal. apply ring_ext => k Hk.
    apply (in_at_mod x). rw /x' /= /npend /u32 /INPUT_BUF. lia. }
  split; [|done]. split; [done..|lia|]. rw Ht /=. set_solver.
Qed.

(** ** One character *)

Section intr.
Context (context_rbp : nat → Z) (word : Z → Z).

(** [s'] is [s] after typing with output [out], new input [x'] and perhaps a wakeup. *)
Definition typed (out : list Z) (x' : input) (woke : bool) (s s' : cst) : Prop :=
  ∃ b s1, emits out s s1 ∧
    s' = set_ccore (if woke then wake_all ChInput (cn_core s) else cn_core s) (set_input x' (set_noidt b s1)).

Record can_type (s : cst) : Prop := {
  ct_cons : cons_ok s;
  ct_input : input_ok (cn_input s);
  ct_lcons : LCons ∉ c_locks (cn_core s);
  ct_ptable : LPtable ∉ c_locks (cn_core s);
}.

Lemma typed_plain out s s1 : emits out s s1 → typed out (cn_input s) false s s1.
Proof.
  intros He. exists (cn_noidt s1), s1. split; [done|].
  destruct (emits_same _ _ _ He) as (<- & <- & _). by destruct s1.
Qed.

Lemma typed_input out x s s1 : emits out (set_input x s) s1 → typed out x false s s1.
Proof.
  intros He. destruct (emits_input _ _ _ _ He) as [Hx He2].
  destruct (emits_same _ _ _ He) as (_ & Hc & _). cbn in Hc.
  exists (cn_noidt s1), (set_input (cn_input s) s1). split; [done|]. rw -Hc -Hx. by destruct s1.
Qed.

(** The loop of ^U empties the line. *)
Lemma kill_line_run fuel s :
  cons_ok s → input_ok (cn_input s) → nline (cn_input s) < Z.of_nat fuel →
  let x' := w_e (in_w (cn_input s)) (cn_input s) in
  ∃ s', kill_line fuel s = Ret tt s' ∧
    typed (replicate (length (Tty.line (tty_of (cn_input s)))) BACKSPACE) x' false s s'.
Proof.
  revert s. induction fuel as [|fuel IH]; intros s Hs Hx Hf.
  { have := nline_nonneg (cn_input s). lia. }
  set x := cn_input s in Hx Hf |- *. cbn zeta. cbn [kill_line]. rw run_gets -/x.
  destruct (decide (in_e x = in_w x)) as [E|E].
  - rw (proj2 (Z.eqb_eq _ _) E). exists s. split; [done|].
    have := line_empty x Hx. rw (proj2 (Z.eqb_eq _ _) E). intros Hl. symmetry in Hl. apply bool_decide_eq_true in Hl.
    rw Hl /=. rw (_ : w_e (in_w x) x = x); [rw -E; by destruct x|]. by apply typed_plain, emits_nil.
  - rw (proj2 (Z.eqb_neq _ _) E). destruct (erase_ok x Hx E) as (Hx' & Hn & Ht).
    set x' := w_e _ x in Hx' Hn Ht. have Hnl := io_line _ Hx. rw Ht /= in Hnl.
    rw (_ : in_at x (u32 (in_e x - 1)) =? NEWLINE = false); [apply Z.eqb_neq; set_solver|]. cbn [negb andb].
    rw run_modify. destruct (consputc_run BACKSPACE (set_input x' s)) as (s1 & Hr1 & He1); [by destruct Hs|].
    rw (run_bind _ _ _ _ _ Hr1). destruct (emits_same _ _ _ He1) as (Hi1 & Hc1 & _). cbn in Hi1, Hc1.
    destruct (IH s1) as (s2 & Hr2 & b & s3 & He3 & Hs2).
    { eapply emits_ok; [|done]. by destruct Hs. }
    { by rw Hi1. } { rw Hi1 Hn. lia. }
    exists s2. split; [done|]. rw Hi1 in He3 Hs2. rw Hc1 in Hs2.
    exists b, (set_input x s3). split.
    + rw -/x Ht /= length_app Nat.add_comm /=. change (BACKSPACE :: ?l) with ([BACKSPACE] ++ l).
      exact (proj2 (emits_input _ x' s _ (emits_app _ _ _ _ _ He1 He3))).
    + rw Hs2. by destruct s3.
Qed.

(** What one pass must do. *)
Definition types_char (c : Z) (s s' : cst) : Prop :=
  let t := tty_of (cn_input s) in
  ∃ out x', typed out x' (Tty.wakes c t) s s' ∧ input_ok x' ∧ tty_of x' = Tty.type c t ∧
    (c ≠ Tty.LIST → out = Tty.echo [] c t).

(** The [default] case. *)
Definition stored (c : Z) (x : input) : input :=
  mkInput (setZ (in_e x mod INPUT_BUF) (u8 c) (in_buf x)) (in_r x) (in_w x) (u32 (in_e x + 1)).

Definition enter (c : Z) : M cst unit :=
  x ← gets cn_input;
  when (negb (c =? 0) && (u32 (in_e x - in_r x) <? INPUT_BUF))
    (modify (set_input (stored (Tty.norm c) x));;
     consputc (Tty.norm c);;
     when ((Tty.norm c =? NEWLINE) || (Tty.norm c =? C 68) || (in_e (stored (Tty.norm c) x) =? u32 (in_r x + INPUT_BUF)))
       (modify (set_input (w_w (in_e (stored (Tty.norm c) x)) (stored (Tty.norm c) x)));; lift (wakeup ChInput))).

Lemma norm_byte c : byte c → byte (Tty.norm c).
Proof. rw /Tty.norm /byte /NEWLINE. destruct (c =? CR); lia. Qed.

(** The ring after a character that does not commit, and after one that does. *)
Lemma stored_ok c x :
  input_ok x → byte c → u32 (in_e x - in_r x) < INPUT_BUF →
  let t := tty_of x in
  (in_e (stored c x) =? u32 (in_r x + INPUT_BUF)) = (Tty.used t + 1 =? Tty.CAP) ∧
  (c ≠ NEWLINE → input_ok (stored c x) ∧ tty_of (stored c x) = Tty.mkTty (Tty.pending t) (Tty.line t ++ [c])) ∧
  input_ok (w_w (in_e (stored c x)) (stored c x)) ∧
  tty_of (w_w (in_e (stored c x)) (stored c x)) = Tty.mkTty (Tty.pending t ++ Tty.line t ++ [c]) [].
Proof.
  intros Hx Hc Hlt t. have Hu := used_tty x Hx. rw -/t in Hu.
  have Hst := store_ok x c Hx Hlt. cbv zeta in Hst.
  assert (stored c x = mkInput (setZ (in_e x mod INPUT_BUF) c (in_buf x)) (in_r x) (in_w x) (u32 (in_e x + 1))) as Es.
  { rw /stored u8_small //. }
  rw -Es in Hst. destruct Hst as (Ht & Hp & Hn & Hsum). destruct Hx as [Hb Hr Hw He Hcap Hl].
  assert (lenZ (in_buf (stored c x)) = INPUT_BUF) as Hb' by rw lenZ_setZ //.
  assert (0 ≤ in_e (stored c x) < 2 ^ 32) as He' by apply u32_range.
  assert (npend (stored c x) + nline (stored c x) ≤ INPUT_BUF) as Hcap' by lia.
  split; [|split].
  - rw Hu /stored /= /Tty.CAP. rw /u32 /INPUT_BUF in Hlt |- *. lia.
  - intros Hc'. split; [|done]. split; [done..|]. rw Ht /=. cbn in Hl. set_solver.
  - destruct (commit_ok (stored c x)) as [Hok Ht2]; [done..|]. split; [done|]. rw Ht2 Ht /= app_assoc. done.
Qed.

Lemma wake_run s :
  LPtable ∉ c_locks (cn_core s) → lift (wakeup ChInput) s = Ret tt (set_ccore (wake_all ChInput (cn_core s)) s).
Proof. intros H. by apply lift_core, wakeup_run. Qed.

Lemma enter_run c s :
  can_type s → byte c →
  let t := tty_of (cn_input s) in
  ∃ s' x', enter c s = Ret tt s' ∧ input_ok x' ∧
    typed (if Tty.accepts c t then [Tty.norm c] else []) x' (Tty.accepts c t && Tty.commits (Tty.norm c) t) s s' ∧
    tty_of x' = if Tty.accepts c t then
      let l := Tty.line t ++ [Tty.norm c] in
      if Tty.commits (Tty.norm c) t then Tty.mkTty (Tty.pending t ++ l) [] else Tty.mkTty (Tty.pending t) l
    else t.
Proof.
  intros [Hs Hx Hlc Hlp] Hc t. rw /enter run_gets. set x := cn_input s in Hx t |- *.
  have Hu := used_tty x Hx. rw -/t in Hu.
  assert (negb (c =? 0) && (u32 (in_e x - in_r x) <? INPUT_BUF) = Tty.accepts c t) as ->.
  { rw /Tty.accepts Hu. done. }
  destruct (Tty.accepts c t) eqn:Ha; cbn [when].
  2: { exists s, x. split; [done|]. split; [done|]. split; [|done]. by apply typed_plain, emits_nil. }
  assert (u32 (in_e x - in_r x) < INPUT_BUF) as Hlt by (rw /Tty.accepts Hu in Ha; rw /INPUT_BUF; rw /Tty.CAP in Ha; lia).
  destruct (stored_ok (Tty.norm c) x Hx (norm_byte c Hc) Hlt) as (Hfull & Hplain & Hcom).
  rw -/t in Hfull Hplain Hcom. set y := stored (Tty.norm c) x in Hfull Hplain Hcom |- *.
  rw run_modify. destruct (consputc_run (Tty.norm c) (set_input y s)) as (s1 & Hr1 & He1); [by destruct Hs|].
  rw (run_bind _ _ _ _ _ Hr1) Hfull.
  change ((Tty.norm c =? NEWLINE) || (Tty.norm c =? C 68) || (Tty.used t + 1 =? Tty.CAP)) with (Tty.commits (Tty.norm c) t).
  cbn [andb]. destruct (Tty.commits (Tty.norm c) t) eqn:Ek; cbn [when].
  - destruct (emits_input _ _ _ _ He1) as [Hi He2]. destruct (emits_same _ _ _ He1) as (_ & Hc1 & _). cbn in Hc1.
    set z := w_w (in_e y) y in Hcom |- *.
    exists (set_ccore (wake_all ChInput (cn_core s)) (set_input z s1)), z.
    rw run_modify wake_run; [by rw /= Hc1|]. split; [by rw /= Hc1|]. split; [apply Hcom|]. split; [|apply Hcom].
    exists (cn_noidt s1), (set_input x s1). split; [exact He2|]. by destruct s1.
  - exists s1, y. split; [done|]. destruct Hplain as [Hok Ht].
    { rw /Tty.commits in Ek. rw /NEWLINE in Ek |- *. lia. }
    split; [done|]. split; [|done]. by apply typed_input.
Qed.

Lemma consoleintr1_run c s :
  can_type s → byte c → ∃ s', consoleintr1 context_rbp word c s = Ret tt s' ∧ types_char c s s'.
Proof.
  intros Hct Hc. case: (Hct) => Hs Hx Hlc Hlp. rw /consoleintr1 run_gets /types_char.
  set x := cn_input s in Hx |- *. set t := tty_of x. cbn zeta. rw /Tty.wakes /Tty.type /Tty.echo.
  change (C 90) with Tty.REBOOT. change (C 80) with Tty.LIST. change (C 85) with Tty.KILL.
  change (C 72) with Tty.ERASE. change 127 with Tty.DEL.
  destruct (c =? Tty.REBOOT) eqn:E1; cbn [orb negb andb].
  { exists (set_noidt true s). split; [done|]. exists [], x. split; [|done].
    exists true, s. split; [by apply emits_nil|]. by destruct s. }
  destruct (c =? Tty.LIST) eqn:E2; cbn [orb negb andb].
  { destruct (procdump_run context_rbp word s Hs Hlc) as (out & s' & Hr & He). exists s'. split; [done|].
    exists out, x. split; [by apply typed_plain|]. split; [done|]. split; [done|]. lia. }
  destruct (c =? Tty.KILL) eqn:E3; cbn [orb negb andb].
  { destruct (kill_line_run (S (Z.to_nat INPUT_BUF)) s Hs Hx) as (s' & Hr & Hty).
    { have := io_cap _ Hx. have := npend_nonneg x. rw -/x. lia. }
    exists s'. split; [done|]. exists (replicate (length (Tty.line t)) BACKSPACE), (w_e (in_w x) x). split; [done|].
    assert (nline (w_e (in_w x) x) = 0) as Hn by (by rw /nline /= Z.sub_diag).
    split; [|split; [by rw {1}/tty_of Hn|done]]. destruct Hx as [Hb Hr' Hw He Hcap Hl].
    split; [done..| |]; [rw Hn; have := nline_nonneg x; change (npend (w_e _ x)) with (npend x); lia|].
    cbn [tty_of Tty.line]. rw Hn. apply not_elem_of_nil. }
  destruct ((c =? Tty.ERASE) || (c =? Tty.DEL)) eqn:E4.
  { rw (line_empty x Hx) -/t. cbn [negb andb]. case_bool_decide as Hl; cbn [negb when].
    - exists s. split; [done|]. exists [], x. split; [by apply typed_plain, emits_nil|]. split; [done|].
      split; [|done]. unfold t in Hl |- *. destruct (tty_of x) as [p l]. simpl in Hl |- *. by subst.
    - assert (in_e x ≠ in_w x) as Hne.
      { intros E. have := line_empty x Hx. rw (proj2 (Z.eqb_eq _ _) E) => H. symmetry in H.
        by apply bool_decide_eq_true in H. }
      destruct (erase_ok x Hx Hne) as (Hx' & _ & Ht). set x' := w_e _ x in Hx' Ht |- *.
      rw run_modify. destruct (consputc_run BACKSPACE (set_input x' s)) as (s1 & Hr1 & He1); [by destruct Hs|].
      exists s1. split; [done|]. exists [BACKSPACE], x'. split; [by apply typed_input|]. split; [done|].
      split; [|done]. rw /t Ht /= removelast_last. done. }
  destruct (enter_run c s Hct Hc) as (s' & x' & Hr & Hx' & Hty & Ht). exists s'. split; [exact Hr|].
  rw -/x -/t in Hty Ht. exists (if Tty.accepts c t then [Tty.norm c] else []), x'.
  done.
Qed.

Lemma typed_trans o1 x1 w1 o2 x2 w2 s s1 s2 :
  typed o1 x1 w1 s s1 → typed o2 x2 w2 s1 s2 → typed (o1 ++ o2) x2 (w1 || w2) s s2.
Proof.
  intros (b1 & u1 & (y1 & Hy1 & Hd1 & ->) & ->) (b2 & u2 & (y2 & Hy2 & Hd2 & ->) & ->).
  exists b2, (set_screen y2 (set_sent (cn_sent s ++ serial (cn_uart s) (o1 ++ o2)) s)). split.
  - exists y2. split; [done|]. split; [by eapply draws_app|done].
  - rw serial_app app_assoc. destruct w1, w2; cbn [orb]; [|reflexivity..].
    etrans; [|by rw -(wake_all_twice ChInput (cn_core s))]. reflexivity.
Qed.

Lemma typed_can_type out x' w s s' : can_type s → input_ok x' → typed out x' w s s' → can_type s' ∧ cn_input s' = x'.
Proof.
  intros [H1 H2 H3 H4] Hx (b & u & He & ->). have [Hp Hsc] := emits_ok _ _ _ H1 He.
  split; [|done]. split; [done|done|by destruct w..].
Qed.

Lemma consoleintr_loop_run cs s :
  can_type s → Forall byte cs →
  let t := tty_of (cn_input s) in
  ∃ out x' s', consoleintr_loop context_rbp word cs s = Ret tt s' ∧
    typed out x' (Tty.woken cs t) s s' ∧ input_ok x' ∧ tty_of x' = Tty.types cs t ∧
    (Tty.LIST ∉ cs → out = Tty.echoes cs t).
Proof.
  intros Hct Hcs. revert s Hct. induction Hcs as [|c cs Hc _ IH]; intros s Hct.
  { exists [], (cn_input s), s. split; [done|]. split; [by apply typed_plain, emits_nil, ct_cons|].
    split; [by apply ct_input|done]. }
  destruct (consoleintr1_run c s Hct Hc) as (s1 & Hr1 & o1 & x1 & Hty1 & Hx1 & Ht1 & Ho1).
  destruct (typed_can_type _ _ _ _ _ Hct Hx1 Hty1) as [Hct1 Hi].
  destruct (IH s1 Hct1) as (o2 & x2 & s2 & Hr2 & Hty2 & Hx2 & Ht2 & Ho2). rw Hi Ht1 in Hty2 Ht2 Ho2.
  exists (o1 ++ o2), x2, s2. cbn [consoleintr_loop]. rw (run_bind _ _ _ _ _ Hr1).
  split; [done|]. split; [by eapply typed_trans|]. split; [done|]. split; [done|].
  intros Hn. apply not_elem_of_cons in Hn as [Hn1 Hn2]. by rw Ho1 // Ho2.
Qed.

Lemma consoleintr_run cs s :
  can_type s → LInput ∉ c_locks (cn_core s) → Forall byte cs →
  let t := tty_of (cn_input s) in
  ∃ out x' s', consoleintr context_rbp word cs s = Ret tt s' ∧
    typed out x' (Tty.woken cs t) s s' ∧ input_ok x' ∧ tty_of x' = Tty.types cs t ∧
    (Tty.LIST ∉ cs → out = Tty.echoes cs t).
Proof.
  intros Hct Hl Hcs t. set c := set_locks (LInput :: c_locks (cn_core s)) (cn_core s).
  destruct (consoleintr_loop_run cs (set_ccore c s)) as (out & x' & s1 & Hr & Hty & Hx & Ht & Ho); [|done|].
  { destruct Hct as [H1 H2 H3 H4]. split; [by apply cons_ok_core|done|..]; by apply not_elem_of_cons. }
  cbn [cn_input set_ccore] in Hty, Ht, Ho. rw -/t in Hty Ht Ho.
  destruct Hty as (b & u & He & ->). destruct (emits_core _ _ _ _ He) as [Hcu He2].
  exists out, x', (set_ccore (if Tty.woken cs t then wake_all ChInput (cn_core s) else cn_core s) (set_input x' (set_noidt b u))).
  split; [|split; [|done]].
  - rw /consoleintr (run_bind _ _ _ tt (set_ccore c s)); [by apply lift_core, acquire_run|].
    rw (run_bind _ _ _ _ _ Hr). etrans; [apply lift_core, (release_run _ (c_locks (cn_core s))); [|done]|].
    { by destruct (Tty.woken cs t). }
    destruct (Tty.woken cs t); [done|]. cbn. by rw /c set_locks_set_locks set_locks_id.
  - exists b, (set_ccore (cn_core s) u). split; [done|]. by destruct u.
Qed.

(** C15: [consoleintr] is a line editor: a burst of characters changes the ring, the
    screen and the serial line as [Tty] says, and wakes the readers if it
    committed a line. *)
Theorem consoleintr_refines cs s :
  can_type s → LInput ∉ c_locks (cn_core s) → Forall byte cs →
  let t := tty_of (cn_input s) in
  ∃ out x' s', consoleintr context_rbp word cs s = Ret tt s' ∧
    typed out x' (Tty.woken cs t) s s' ∧ input_ok x' ∧ tty_of x' = Tty.types cs t ∧
    (Tty.LIST ∉ cs → out = Tty.echoes cs t).
Proof. apply consoleintr_run. Qed.

End intr.

(** ** Readers *)

(** Taking a byte out. *)
Lemma take_ok x :
  input_ok x → in_r x ≠ in_w x →
  let x' := w_r (u32 (in_r x + 1)) x in
  input_ok x' ∧ Tty.line (tty_of x') = Tty.line (tty_of x) ∧
  Tty.pending (tty_of x) = in_at x (in_r x) :: Tty.pending (tty_of x').
Proof.
  intros [Hb Hr Hw He Hc Hl] Hne x'.
  assert (0 < npend x) as Hpos by (rw /npend /u32; lia).
  assert (npend x' = npend x - 1) as Hn by (rw /npend /x' /= /u32; lia).
  split; [|split; [done|]].
  - split; [done|apply u32_range|done..|rw Hn; change (nline x') with (nline x); lia|done].
  - cbn [tty_of Tty.pending]. rw Hn ring_cons //. f_equal. apply ring_ext => k Hk.
    apply (in_at_mod x). rw /x' /= /u32 /INPUT_BUF. lia.
Qed.

Lemma pending_empty x : input_ok x → (in_r x =? in_w x) = bool_decide (Tty.pending (tty_of x) = []).
Proof.
  intros Hx. have Hl := length_ring x (in_r x) (npend x) (npend_nonneg x). destruct Hx as [_ Hr Hw He Hc _].
  cbn [tty_of Tty.pending]. destruct (Z.eqb_spec (in_r x) (in_w x)) as [E|E]; symmetry.
  - apply bool_decide_eq_true_2. by rw /npend E Z.sub_diag.
  - apply bool_decide_eq_false_2 => E'. rw E' /npend /u32 /= in Hl. lia.
Qed.

(** A process in its critical section on [input]. *)
Record reading (i : nat) (s : cst) : Prop := {
  rd_input : input_ok (cn_input s);
  rd_locks : c_locks (cn_core s) = [LInput];
  rd_cur : c_cur (cn_core s) = Some i;
  rd_proc : (i < length (c_procs (cn_core s)))%nat;
}.

(** A reader asleep with [f] in its locals. *)
Definition sleeps (i : nat) (f : rframe) (s : cst) : cst :=
  set_ccore (asleep i ChInput (cn_core s)) (set_rframes (<[i := f]> (cn_frames s)) s).

Lemma tty_eta t p l : Tty.pending t = p → Tty.line t = l → t = Tty.mkTty p l.
Proof. destruct t. by intros <- <-. Qed.

Lemma set_input_twice x y s : set_input x (set_input y s) = set_input x s.
Proof. done. Qed.
Lemma set_input_id s : set_input (cn_input s) s = s.
Proof. by destruct s. Qed.

Lemma consoleread_loop_run k n target dst i s :
  reading i s →
  let t := tty_of (cn_input s) in
  match Tty.read k n target dst (Tty.pending t) with
  | Tty.Done dst' n' rest =>
    ∃ x', input_ok x' ∧ tty_of x' = Tty.mkTty rest (Tty.line t) ∧
      consoleread_loop k n target dst s = Ret (Some (dst', n')) (set_input x' s)
  | Tty.Starved dst' n' =>
    ∃ x', input_ok x' ∧ tty_of x' = Tty.mkTty [] (Tty.line t) ∧
      consoleread_loop k n target dst s =
        if cons_killed s then Ret None (set_input x' s)
        else Sched (sleeps i (mkRframe dst' n' target) (set_input x' s))
  end.
Proof.
  revert n dst s. induction k as [|k IH]; intros n dst s Hrd.
  { exists (cn_input s). split; [apply Hrd|]. rw set_input_id. split; [by apply tty_eta|done]. }
  case: (Hrd) => Hx Hlk Hcur Hlt. cbn zeta. cbn [Tty.read consoleread_loop]. rw run_gets (pending_empty _ Hx).
  set x := cn_input s in Hx |- *. set t := tty_of x.
  destruct (decide (Tty.pending t = [])) as [Hp|Hp].
  - rw bool_decide_eq_true_2 // Hp run_gets. exists x. split; [done|].
    split; [by apply tty_eta|]. rw /x set_input_id. destruct (cons_killed s); [done|].
    erewrite run_bind; [|rw /push_rframe Hcur; done].
    apply run_bind_sched. rw /lift /= (sleep_run _ _ i) //.
  - rw bool_decide_eq_false_2 //. have Hne : in_r x ≠ in_w x.
    { intros E. apply Hp. have := pending_empty x Hx. rw (proj2 (Z.eqb_eq _ _) E) => H. symmetry in H.
      by apply bool_decide_eq_true in H. }
    destruct (take_ok x Hx Hne) as (Hx' & Hln & Hpd). set x' := w_r _ x in Hx' Hln Hpd |- *. rw -/t in Hpd Hln.
    rw Hpd run_modify. change (C 68) with Tty.EOT. destruct (_ =? Tty.EOT) eqn:Ed.
    { destruct (n <? target); cbn [when].
      - exists x. split; [done|]. split; [by apply tty_eta|].
        rw (_ : w_r (u32 (u32 (in_r x + 1) - 1)) x = x); [|done].
        have := io_r _ Hx. rw /w_r /u32. destruct x. cbn. intros. f_equal. lia.
      - exists x'. split; [done|]. split; [by apply tty_eta|done]. }
    destruct (_ =? NEWLINE) eqn:En.
    { exists x'. split; [done|]. split; [by apply tty_eta|done]. }
    have := IH (n - 1) (dst ++ [in_at x (in_r x)]) (set_input x' s). cbn [cn_input set_input]. rw Hln.
    intros IH'. exact (IH' ltac:(by split)).
Qed.

(** A read returns as many bytes as it has stored. *)
Lemma read_count k n target dst q :
  Z.of_nat k ≤ n →
  match Tty.read k n target dst q with
  | Tty.Done dst' n' _ | Tty.Starved dst' n' => lenZ dst' + n' = lenZ dst + n ∧ 0 ≤ n'
  end.
Proof.
  revert n dst q. induction k as [|k IH]; intros n dst q Hk; cbn [Tty.read]; [lia|].
  destruct q as [|c q]; [lia|]. destruct (c =? Tty.EOT); [lia|].
  destruct (c =? NEWLINE); [rw length_app /=; lia|].
  have := IH (n - 1) (dst ++ [c]) q ltac:(lia). rw length_app /=. destruct (Tty.read _ _ _ _ _); lia.
Qed.

Lemma woken_cur c c' i : core_woken c c' → c_cur c = Some i → (i < length (c_procs c))%nat →
  (i < length (c_procs c'))%nat ∧ p_killed (cur_proc c') = p_killed (cur_proc c).
Proof.
  intros [_ Hc Hp] Hi Hlt. rw /cur_proc Hc Hi. split; [by rw -(Forall2_length Hp)|].
  destruct (lookup_lt_is_Some_2 _ _ Hlt) as [p Hlp]. destruct (Forall2_lookup_l _ _ _ _ _ Hp Hlp) as (q & Hq & Hpq).
  rw !list_lookup_total_alt Hlp Hq /=. by destruct Hpq as [->| ->].
Qed.

Section read.
Context (iunlock ilock : M cst unit) (Hiunlock : inode_lock_op iunlock) (Hilock : inode_lock_op ilock).

(** The rest of a read, from the loop on. *)
Definition finish (n target : Z) (dst : list Z) : M cst (Z * list Z) :=
  r ← consoleread_loop (Z.to_nat n) n target dst; consoleread_end ilock target r.

(** What the call does once it holds the lock. *)
Definition read_outcome (n target : Z) (dst : list Z) (i : nat) (s : cst) (o : outcome cst (Z * list Z)) : Prop :=
  let t := tty_of (cn_input s) in
  match Tty.read (Z.to_nat n) n target dst (Tty.pending t) with
  | Tty.Done dst' n' rest =>
    ∃ x' c, input_ok x' ∧ tty_of x' = Tty.mkTty rest (Tty.line t) ∧ core_woken (set_locks [] (cn_core s)) c ∧
      o = Ret (lenZ dst', dst') (set_ccore c (set_input x' s))
  | Tty.Starved dst' n' =>
    ∃ x' c, input_ok x' ∧ tty_of x' = Tty.mkTty [] (Tty.line t) ∧ core_woken (set_locks [] (cn_core s)) c ∧
      o = if cons_killed s then Ret (-1, []) (set_ccore c (set_input x' s))
          else Sched (sleeps i (mkRframe dst' n' target) (set_input x' s))
  end.

Lemma end_run target r i s x' :
  reading i s →
  ∃ c, core_woken (set_locks [] (cn_core s)) c ∧
    consoleread_end ilock target r (set_input x' s) =
      Ret (match r with None => (-1, []) | Some (dst, n) => (i32 (target - n), dst) end)
        (set_ccore c (set_input x' s)).
Proof.
  intros [_ Hl _ _]. destruct (Hilock (set_ccore (set_locks [] (cn_core s)) (set_input x' s))) as (c & Hr & Hc).
  exists c. split; [done|]. rw /consoleread_end.
  erewrite run_bind; [|apply lift_core, (release_run _ []); [done|apply not_elem_of_nil]].
  rw (run_bind _ _ _ _ _ Hr). by destruct r as [[? ?]|].
Qed.

Lemma finish_run n target dst i s :
  reading i s → target = lenZ dst + n → 0 ≤ target < 2 ^ 31 → 0 ≤ n → read_outcome n target dst i s (finish n target dst s).
Proof.
  intros Hrd Ht Hb Hn. rw /finish /read_outcome. have := consoleread_loop_run (Z.to_nat n) n target dst i s Hrd.
  have := read_count (Z.to_nat n) n target dst (Tty.pending (tty_of (cn_input s))) ltac:(lia).
  cbn zeta. destruct (Tty.read _ _ _ _ _) as [dst' n' rest|dst' n'].
  - intros [Hcnt Hn'] (x' & Hx & Htt & Hr). destruct (end_run target (Some (dst', n')) i s x' Hrd) as (c & Hc & He).
    exists x', c. split; [done|]. split; [done|]. split; [done|]. rw (run_bind _ _ _ _ _ Hr) He.
    rw (_ : target - n' = lenZ dst'); [lia|]. rw i32_small //. lia.
  - intros _ (x' & Hx & Htt & Hr). destruct (end_run target None i s x' Hrd) as (c & Hc & He).
    exists x', c. split; [done|]. split; [done|]. split; [done|]. rw /mbind /M_bind Hr.
    destruct (cons_killed s); [exact He|done].
Qed.

Lemma consoleread_run n i s :
  input_ok (cn_input s) → c_locks (cn_core s) = [] → c_cur (cn_core s) = Some i →
  (i < length (c_procs (cn_core s)))%nat → 0 ≤ n < 2 ^ 31 →
  let t := tty_of (cn_input s) in
  match Tty.read (Z.to_nat n) n n [] (Tty.pending t) with
  | Tty.Done dst _ rest =>
    ∃ x' c, input_ok x' ∧ tty_of x' = Tty.mkTty rest (Tty.line t) ∧
      consoleread iunlock ilock n s = Ret (lenZ dst, dst) (set_ccore c (set_input x' s))
  | Tty.Starved dst n' =>
    ∃ x' c, input_ok x' ∧ tty_of x' = Tty.mkTty [] (Tty.line t) ∧
      consoleread iunlock ilock n s =
        if cons_killed s then Ret (-1, []) (set_ccore c (set_input x' s))
        else Sched (sleeps i (mkRframe dst n' n) (set_ccore c (set_input x' s)))
  end.
Proof.
  intros Hx Hl Hcur Hlt Hn t. destruct (Hiunlock s) as (c1 & Hr1 & Hw1).
  destruct (woken_cur _ _ _ Hw1 Hcur Hlt) as [Hlt1 Hk1]. case: (Hw1) => Hl1 Hc1 _.
  set c2 := set_locks [LInput] c1. set s2 := set_ccore c2 s.
  have Hrd : reading i s2 by split; [done|done|by rw /= Hc1|done].
  have := finish_run n n [] i s2 Hrd ltac:(done) ltac:(lia) ltac:(lia).
  assert (consoleread iunlock ilock n s = finish n n [] s2) as ->.
  { rw /consoleread (run_bind _ _ _ _ _ Hr1). cbn zeta.
    erewrite run_bind; [|apply lift_core, acquire_run; rw /= Hl1 Hl; apply not_elem_of_nil].
    rw u32_small; [lia|]. rw /= Hl1 Hl. done. }
  rw /read_outcome. cbn zeta. cbn [cn_input set_ccore s2]. rw -/t.
  assert (cons_killed s2 = cons_killed s) as -> by (rw /cons_killed /cur_proc /= -Hk1; done).
  destruct (Tty.read _ _ _ _ _) as [dst n' rest|dst n'].
  - intros (x' & c & H1 & H2 & _ & H3). exists x', c. by rw H3.
  - intros (x' & c & H1 & H2 & _ & H3). destruct (cons_killed s).
    + exists x', c. by rw H3.
    + exists x', c2. by rw H3.
Qed.

(** [consoleread] hands out the committed bytes as [Tty.read] says; with too few
    of them it fails if the process was killed and sleeps otherwise, keeping what
    it has read. *)
Theorem consoleread_correct n i s :
  input_ok (cn_input s) → c_locks (cn_core s) = [] → c_cur (cn_core s) = Some i →
  (i < length (c_procs (cn_core s)))%nat → 0 ≤ n < 2 ^ 31 →
  let t := tty_of (cn_input s) in
  match Tty.read (Z.to_nat n) n n [] (Tty.pending t) with
  | Tty.Done dst _ rest =>
    ∃ x' c, input_ok x' ∧ tty_of x' = Tty.mkTty rest (Tty.line t) ∧
      consoleread iunlock ilock n s = Ret (lenZ dst, dst) (set_ccore c (set_input x' s))
  | Tty.Starved dst n' =>
    ∃ x' c, input_ok x' ∧ tty_of x' = Tty.mkTty [] (Tty.line t) ∧
      consoleread iunlock ilock n s =
        if cons_killed s then Ret (-1, []) (set_ccore c (set_input x' s))
        else Sched (sleeps i (mkRframe dst n' n) (set_ccore c (set_input x' s)))
  end.
Proof. apply consoleread_run. Qed.

(** ** Every interleaving *)

(** The scheduler has put process [i] on a CPU that holds [ls]. *)
Definition dispatch (i : nat) (ls : list lockid) (s : cst) : cst := set_ccore (dispatched i ls (cn_core s)) s.

(** The call returned or went to sleep in [s']. *)
Definition leaves {A} (o : outcome cst A) (s' : cst) : Prop :=
  match o with Ret _ s => s' = s | Sched s => s' = s | _ => False end.

Context (context_rbp : nat → Z) (word : Z → Z).

Inductive cstep : cst → cst → Prop :=
| cs_intr cs s s' :
    (** an interrupt, on a CPU that holds no spinlock *)
    Forall byte cs →
    leaves (consoleintr context_rbp word cs (set_ccore (set_locks [] (cn_core s)) s)) s' → cstep s s'
| cs_read i n s s' :
    can_run i (cn_core s) → cn_frames s !! i = None → 0 ≤ n < 2 ^ 31 →
    leaves (consoleread iunlock ilock n (dispatch i [] s)) s' → cstep s s'
| cs_resume i f s s' :
    can_run i (cn_core s) → cn_frames s !! i = Some f →
    leaves (consoleread_resume ilock f (dispatch i [LPtable] s)) s' → cstep s s'
| cs_other s s' :
    (** anything else: output, kills, other calls *)
    cn_input s' = cn_input s → cn_frames s' = cn_frames s → (cons_ok s → cons_ok s') →
    (asleep_on ChInput (cn_core s') → asleep_on ChInput (cn_core s)) → cstep s s'.

(** Readers sleep on an empty queue only. *)
Record console_inv (s : cst) : Prop := {
  ci_cons : cons_ok s;
  ci_input : input_ok (cn_input s);
  ci_frames i f : cn_frames s !! i = Some f →
    rf_target f = lenZ (rf_dst f) + rf_n f ∧ 0 ≤ rf_n f ∧ 0 ≤ rf_target f < 2 ^ 31;
  ci_quiet : asleep_on ChInput (cn_core s) → Tty.pending (tty_of (cn_input s)) = [];
}.

Lemma asleep_woken ch c c' : core_woken c c' → asleep_on ch c' → asleep_on ch c.
Proof.
  intros [_ _ Hp] (i & q & Hi & Hs & Hc). destruct (Forall2_lookup_r _ _ _ _ _ Hp Hi) as (p & Hip & [->| ->]); [|done].
  by exists i, p.
Qed.

(** Typing that wakes nobody commits nothing. *)
Lemma type_pending c t : Tty.wakes c t = false → Tty.pending (Tty.type c t) = Tty.pending t.
Proof.
  rw /Tty.wakes /Tty.type. destruct (c =? Tty.REBOOT), (c =? Tty.LIST); try done. cbn [orb].
  destruct (c =? Tty.KILL); [done|]. destruct ((c =? Tty.ERASE) || (c =? Tty.DEL)) eqn:E; [done|].
  cbn [orb]. rw E /=. destruct (Tty.accepts c t); [|done]. by destruct (Tty.commits _ _).
Qed.

Lemma types_pending cs t : Tty.woken cs t = false → Tty.pending (Tty.types cs t) = Tty.pending t.
Proof.
  revert t. induction cs as [|c cs IH]; intros t; [done|]. cbn [Tty.woken Tty.types].
  intros [Hw1 Hw2]%orb_false_iff. by rw IH // type_pending.
Qed.

Lemma read_empty k n target dst dst' n' rest : Tty.read k n target dst [] = Tty.Done dst' n' rest → rest = [].
Proof. destruct k; cbn [Tty.read]; by intros [= _ _ <-]. Qed.

Lemma intr_inv cs s s' :
  console_inv s → Forall byte cs →
  leaves (consoleintr context_rbp word cs (set_ccore (set_locks [] (cn_core s)) s)) s' → console_inv s'.
Proof.
  intros [Hs Hx Hf Hq] Hcs. set s0 := set_ccore _ s.
  destruct (consoleintr_run context_rbp word cs s0) as (out & x' & s1 & -> & (b & u & He & ->) & Hx' & Ht & _).
  { split; [by apply cons_ok_core|done|apply not_elem_of_nil..]. }
  { apply not_elem_of_nil. } { done. }
  cbn [leaves]. intros ->. destruct (emits_same _ _ _ He) as (_ & _ & Hfr & _).
  split; [|done|by cbn; rw Hfr|].
  { have [H1 H2] := emits_ok _ _ _ (cons_ok_core _ s Hs) He. by split. }
  cbn [cn_core set_ccore cn_input set_input set_noidt]. rw Ht.
  change (cn_input s0) with (cn_input s). destruct (Tty.woken _ _) eqn:Hw.
  - intros Ha. by destruct (asleep_wake_all _ _ Ha).
  - intros Ha. rw types_pending //. apply Hq. exact Ha.
Qed.

(** The invariant after the part of a read that holds the lock. *)
Lemma finish_inv n target dst i s s' :
  reading i s → cons_ok s → target = lenZ dst + n → 0 ≤ target < 2 ^ 31 → 0 ≤ n →
  (∀ i f, cn_frames s !! i = Some f →
    rf_target f = lenZ (rf_dst f) + rf_n f ∧ 0 ≤ rf_n f ∧ 0 ≤ rf_target f < 2 ^ 31) →
  (asleep_on ChInput (cn_core s) → Tty.pending (tty_of (cn_input s)) = []) →
  leaves (finish n target dst s) s' → console_inv s'.
Proof.
  intros Hrd Hs Ht Hb Hn Hf Hq. have := finish_run n target dst i s Hrd Ht Hb Hn. rw /read_outcome. cbn zeta.
  have := read_count (Z.to_nat n) n target dst (Tty.pending (tty_of (cn_input s))) ltac:(lia).
  destruct (Tty.read _ _ _ _ _) as [dst' n' rest|dst' n'] eqn:Er.
  - intros _ (x' & c & Hx & Htt & Hw & ->). cbn [leaves]. intros ->. split; [by destruct Hs|done|done|].
    cbn [cn_core set_ccore cn_input set_input]. rw Htt /=. intros Ha.
    apply (asleep_woken _ _ _ Hw) in Ha. apply (read_empty _ _ _ _ _ _ _ (eq_trans (f_equal _ (eq_sym (Hq Ha))) Er)).
  - intros [Hc1 Hc2] (x' & c & Hx & Htt & Hw & ->). destruct (cons_killed s); cbn [leaves]; intros ->.
    + split; [by destruct Hs|done|done|]. cbn [cn_core set_ccore cn_input set_input]. by rw Htt.
    + split; [by destruct Hs|done| |intros _; exact (f_equal Tty.pending Htt)].
      intros j f. cbn [sleeps cn_frames set_ccore set_rframes set_input]. rw lookup_insert.
      case_decide; [|apply Hf]. intros [= <-]. cbn. lia.
Qed.

Lemma read_inv i n s s' :
  console_inv s → can_run i (cn_core s) → 0 ≤ n < 2 ^ 31 →
  leaves (consoleread iunlock ilock n (dispatch i [] s)) s' → console_inv s'.
Proof.
  intros [Hs Hx Hf Hq] Hr Hn. set s0 := dispatch i [] s.
  assert (i < length (c_procs (cn_core s0)))%nat as Hlt.
  { cbn. rw length_alter. destruct Hr as (p & Hp & _). by eapply lookup_lt_Some. }
  destruct (Hiunlock s0) as (c1 & Hr1 & Hw1). destruct (woken_cur _ _ i Hw1 ltac:(done) Hlt) as [Hlt1 _].
  case: (Hw1) => Hl1 Hc1 _. rw /consoleread (run_bind _ _ _ _ _ Hr1). cbn zeta.
  erewrite run_bind; [|apply lift_core, acquire_run; rw /= Hl1; apply not_elem_of_nil].
  rw u32_small; [lia|]. apply (finish_inv n n [] i).
  - split; [done|by rw /= Hl1|by rw /= Hc1|done].
  - by destruct Hs.
  - done.
  - lia.
  - lia.
  - done.
  - intros Ha. apply Hq. apply (asleep_dispatched i []). apply (asleep_woken _ _ _ Hw1). exact Ha.
Qed.

Lemma resume_inv i f s s' :
  console_inv s → can_run i (cn_core s) → cn_frames s !! i = Some f →
  leaves (consoleread_resume ilock f (dispatch i [LPtable] s)) s' → console_inv s'.
Proof.
  intros [Hs Hx Hf Hq] Hr Hfr. destruct (Hf i f Hfr) as (H1 & H2 & H3).
  rw /consoleread_resume. erewrite run_bind; [|done].
  erewrite run_bind; [|apply lift_core, (sleep_resume_run _ i); done].
  apply (finish_inv _ _ _ i).
  - split; [done..|]. cbn. rw !length_alter. destruct Hr as (p & Hp & _). by eapply lookup_lt_Some.
  - by destruct Hs.
  - done.
  - done.
  - done.
  - intros j g. cbn. rw lookup_delete. case_decide; [done|]. apply Hf.
  - intros Ha. apply Hq. exact (asleep_resumed i [LPtable] [LInput] _ _ Ha).
Qed.

(** C16: whatever the order of typing, reading, sleeping and being killed, the ring
    stays well formed and no reader sleeps while a committed byte waits. *)
Theorem console_no_lost_wakeup s s' : rtc cstep s s' → console_inv s → console_inv s'.
Proof.
  induction 1 as [|s s1 s' Hst _ IH]; [done|]. intros Hi. apply IH.
  destruct Hst as [cs s s1 Hb Hl|i n s s1 Hr Hn Hb Hl|i f s s1 Hr Hf Hl|s s1 Hin Hfr Hc Ha].
  - by eapply intr_inv.
  - by eapply read_inv.
  - by eapply resume_inv.
  - destruct Hi as [H1 H2 H3 H4]. split; [by apply Hc|by rw Hin|by rw Hfr|]. rw Hin. intros. by apply H4, Ha.
Qed.

End read.

(** ** A line from the keyboard to the reader *)

(** Characters the editor gives no meaning. *)
Definition special : list Z := [0; Tty.EOT; Tty.ERASE; NEWLINE; CR; Tty.LIST; Tty.KILL; Tty.REBOOT; Tty.DEL].
Definition plain (c : Z) : bool := (0 <=? c) && (c <? 256) && forallb (λ d, negb (c =? d)) special.

Lemma plain_byte c : plain c = true → byte c.
Proof. rw /plain /byte. lia. Qed.

Lemma plain_ne c :
  plain c = true →
  (c =? 0) = false ∧ (c =? Tty.EOT) = false ∧ (c =? Tty.ERASE) = false ∧ (c =? NEWLINE) = false ∧ (c =? CR) = false ∧
  (c =? Tty.LIST) = false ∧ (c =? Tty.KILL) = false ∧ (c =? Tty.REBOOT) = false ∧ (c =? Tty.DEL) = false.
Proof. rw /plain /special. cbn [forallb]. rw !andb_true_iff !negb_true_iff. tauto. Qed.

Lemma type_plain c t :
  plain c = true → Tty.used t + 1 < Tty.CAP →
  Tty.type c t = Tty.mkTty (Tty.pending t) (Tty.line t ++ [c]) ∧ Tty.echo [] c t = [c].
Proof.
  intros (H0 & H1 & H2 & H3 & H4 & H5 & H6 & H7 & H8)%plain_ne Hu.
  rw /Tty.type /Tty.echo /Tty.accepts /Tty.commits /Tty.norm H0 H2 H4 H5 H6 H7 H8 H3 H1. cbn [orb negb andb].
  rw (_ : Tty.used t <? Tty.CAP = true); [lia|]. by rw (_ : Tty.used t + 1 =? Tty.CAP = false); [lia|].
Qed.

Lemma types_app c1 c2 t : Tty.types (c1 ++ c2) t = Tty.types c2 (Tty.types c1 t).
Proof. revert t. induction c1 as [|c c1 IH]; intros t; [done|]. apply IH. Qed.
Lemma echoes_app c1 c2 t : Tty.echoes (c1 ++ c2) t = Tty.echoes c1 t ++ Tty.echoes c2 (Tty.types c1 t).
Proof. revert t. induction c1 as [|c c1 IH]; intros t; [done|]. cbn [app Tty.echoes Tty.types]. by rw IH app_assoc. Qed.

Lemma types_plain w t :
  forallb plain w = true → Tty.used t + lenZ w < Tty.CAP →
  Tty.types w t = Tty.mkTty (Tty.pending t) (Tty.line t ++ w) ∧ Tty.echoes w t = w.
Proof.
  revert t. induction w as [|c w IH]; intros t.
  { intros _ _. rw app_nil_r. by destruct t. }
  cbn [forallb length Tty.types Tty.echoes]. intros [Hc Hw]%andb_true_iff Hu.
  destruct (type_plain c t Hc) as [-> ->]; [lia|].
  destruct (IH (Tty.mkTty (Tty.pending t) (Tty.line t ++ [c])) Hw) as [-> ->].
  { rw /Tty.used /= length_app /=. rw /Tty.used in Hu. lia. }
  cbn. by rw -app_assoc.
Qed.

(** A carriage return commits. *)
Lemma type_cr t : Tty.used t < Tty.CAP →
  Tty.type CR t = Tty.mkTty (Tty.pending t ++ Tty.line t ++ [NEWLINE]) [] ∧ Tty.echo [] CR t = [NEWLINE].
Proof. intros Hu. rw /Tty.type /Tty.echo /Tty.accepts /=. by rw (_ : Tty.used t <? Tty.CAP = true); [lia|]. Qed.

Lemma read_line w k n target dst q :
  forallb plain w = true → (length w < k)%nat →
  Tty.read k n target dst (w ++ NEWLINE :: q) = Tty.Done (dst ++ w ++ [NEWLINE]) (n - lenZ w - 1) q.
Proof.
  revert k n dst. induction w as [|c w IH]; intros k n dst Hw Hk; (destruct k as [|k]; [cbn in Hk; lia|]).
  - cbn. f_equal. lia.
  - cbn [forallb] in Hw. apply andb_true_iff in Hw as [Hc Hw]. cbn [app Tty.read].
    destruct (plain_ne c Hc) as (_ & -> & _ & -> & _). rw IH //; [cbn in Hk; lia|].
    rw -app_assoc. f_equal. cbn [length]. lia.
Qed.

(** C20: a line of ordinary characters ended by return is echoed, and the next read
    that is large enough returns it. *)
Theorem typed_line_read context_rbp word iunlock ilock w n i s :
  inode_lock_op iunlock → inode_lock_op ilock → can_type s → c_locks (cn_core s) = [] →
  tty_of (cn_input s) = Tty.mkTty [] [] → forallb plain w = true → lenZ w < 128 →
  can_run i (cn_core s) → lenZ w < n < 2 ^ 31 →
  ∃ s1 s2 x1, consoleintr context_rbp word (w ++ [CR]) s = Ret tt s1 ∧
    typed (w ++ [NEWLINE]) x1 true s s1 ∧
    consoleread iunlock ilock n (dispatch i [] s1) = Ret (lenZ w + 1, w ++ [NEWLINE]) s2 ∧
    tty_of (cn_input s2) = Tty.mkTty [] [].
Proof.
  intros Hu Hil Hct Hlk Ht Hw Hlen Hrun Hn.
  destruct (types_plain w (tty_of (cn_input s)) Hw) as [Hty He]; [rw Ht; exact Hlen|].
  rw Ht /= in Hty He. set t1 := Tty.mkTty [] w in Hty.
  destruct (type_cr t1) as [Hcr Hecr]; [exact Hlen|]. cbn [t1 Tty.pending Tty.line app] in Hcr.
  destruct (consoleintr_run context_rbp word (w ++ [CR]) s Hct) as (out & x1 & s1 & Hr1 & Hty1 & Hx1 & Ht1 & Ho).
  { rw Hlk. apply not_elem_of_nil. }
  { apply list.Forall_app. split; [|repeat constructor; rw /CR; lia].
    apply list.Forall_forall => c Hc. apply plain_byte. rw forallb_forall in Hw. by apply Hw, list_elem_of_In. }
  cbv zeta in Hty1, Ht1, Ho. rw Ht types_app Hty in Ht1. cbn [Tty.types] in Ht1. rw Hcr in Ht1.
  rw Ht echoes_app Hty He in Ho. cbn [Tty.echoes] in Ho. rw Hecr app_nil_r in Ho.
  assert (Tty.woken (w ++ [CR]) (tty_of (cn_input s)) = true) as Hwk.
  { apply not_false_is_true => Hwk. have := types_pending _ _ Hwk. rw Ht types_app Hty /= Hcr /=. by destruct w. }
  assert (out = w ++ [NEWLINE]) as Hout.
  { apply Ho. rw not_elem_of_app not_elem_of_cons. split; [|split; [done|apply not_elem_of_nil]].
    intros Hin. rw forallb_forall in Hw. apply list_elem_of_In in Hin. by have := Hw _ Hin. }
  rw Hwk Hout in Hty1.
  destruct (typed_can_type _ _ _ _ _ Hct Hx1 Hty1) as [_ Hi1].
  assert (c_procs (cn_core s1) = map (wake ChInput) (c_procs (cn_core s))) as Hps by (by destruct Hty1 as (? & ? & _ & ->)).
  assert (i < length (c_procs (cn_core s1)))%nat as Hlt.
  { rw Hps length_map. destruct Hrun as (p & Hp & _). by eapply lookup_lt_Some. }
  have := consoleread_run iunlock ilock Hu Hil n i (dispatch i [] s1). cbn zeta.
  cbn [dispatch cn_input set_ccore]. rw Hi1 Ht1. cbn [Tty.pending Tty.line].
  rw (read_line w) //; [lia|]. intros Hread.
  destruct Hread as (x2 & c & Hx2 & Ht2 & Hr2); [done..|by rw /= length_alter|lia|].
  exists s1, (set_ccore c (set_input x2 (dispatch i [] s1))), x1.
  split; [done|]. split; [done|]. split; [|exact Ht2].
  rw Hr2 (_ : lenZ ([] ++ w ++ [NEWLINE]) = lenZ w + 1) //. cbn [app]. rw length_app. cbn. lia.
Qed.

(** ** Witnesses *)

Lemma cons0_input : input_ok (cn_input cons0).
Proof. split; [done|cbn; lia..|done|]. apply not_elem_of_nil. Qed.

Lemma cons0_can_type : can_type cons0.
Proof. split; [apply cons0_ok|apply cons0_input|apply not_elem_of_nil..]. Qed.

(** "hx", backspace, "i", return: the line "hi". *)
Lemma consoleintr_refines_witness :
  ∃ out x' s', consoleintr (λ _, 0) (λ _, 0) [104; 120; 8; 105; 13] cons0 = Ret tt s' ∧
    typed out x' true cons0 s' ∧ input_ok x' ∧ tty_of x' = Tty.mkTty [104; 105; 10] [] ∧
    (Tty.LIST ∉ [104; 120; 8; 105; 13] → out = [104; 120; BACKSPACE; 105; 10]).
Proof.
  apply (consoleintr_refines (λ _, 0) (λ _, 0) [104; 120; 8; 105; 13] cons0 cons0_can_type).
  - apply not_elem_of_nil.
  - repeat constructor; rw /byte; lia.
Defined.

(** An empty queue: the reader sleeps. *)
Lemma consoleread_correct_witness :
  ∃ x' c, input_ok x' ∧ tty_of x' = Tty.mkTty [] [] ∧
    consoleread (mret tt) (mret tt) 100 cons0 =
      Sched (sleeps 0 (mkRframe [] 100 100) (set_ccore c (set_input x' cons0))).
Proof.
  apply (consoleread_correct (mret tt) (mret tt) ret_lock_op ret_lock_op 100 0 cons0 cons0_input eq_refl eq_refl);
    [cbn; lia|lia].
Defined.

Lemma cons0_inv : console_inv cons0.
Proof. split; [apply cons0_ok|apply cons0_input|done|done]. Qed.

Lemma cons0_step : cstep (mret tt) (mret tt) (λ _, 0) (λ _, 0) cons0
  (match consoleread (mret tt) (mret tt) 100 (dispatch 0 [] cons0) with Sched s => s | _ => cons0 end).
Proof. apply (cs_read _ _ _ _ 0 100); [|done|lia|by vm_compute]. exists (set_state RUNNING proc0). split; [done|by right]. Qed.

Lemma console_no_lost_wakeup_witness :
  console_inv (match consoleread (mret tt) (mret tt) 100 (dispatch 0 [] cons0) with Sched s => s | _ => cons0 end).
Proof.
  apply (console_no_lost_wakeup (mret tt) (mret tt) ret_lock_op ret_lock_op (λ _, 0) (λ _, 0) cons0).
  - apply rtc_once, cons0_step.
  - apply cons0_inv.
Defined.

Lemma typed_line_read_witness :
  ∃ s1 s2 x1, consoleintr (λ _, 0) (λ _, 0) [108; 115; 13] cons0 = Ret tt s1 ∧
    typed [108; 115; 10] x1 true cons0 s1 ∧
    consoleread (mret tt) (mret tt) 100 (dispatch 0 [] s1) = Ret (3, [108; 115; 10]) s2 ∧
    tty_of (cn_input s2) = Tty.mkTty [] [].
Proof.
  apply (typed_line_read (λ _, 0) (λ _, 0) (mret tt) (mret tt) [108; 115] 100 0 cons0 ret_lock_op ret_lock_op cons0_can_type);
    [reflexivity|reflexivity|reflexivity|cbn; lia| |cbn; lia].
  exists (set_state RUNNING proc0). split; [done|by right].
Defined.
