(* ===== verification/Umalloc.v ===== *)
(** * The user memory allocator: umalloc.c

    The headers of the blocks, as two fields indexed by the header's address, the
    static [freep] and the process's break.  [base] is the address of the static
    header and [sbrk_fails brk n] tells whether the kernel refuses to grow the
    process by [n] bytes.

    The invariant [heap_ok h L A] says that the circular list through [base] has
    the free blocks [L] in the order of their addresses, no two of them adjacent,
    and that they and the allocated blocks [A] are disjoint.  Theorems: [malloc]
    and [free] terminate, keep the invariant, do to [A] exactly what they promise
    and lose no memory: [covers L] is the set of free addresses, and each of them
    accounts for every address of it. *)

From S2P Require Import Prelude CString.

(** [sizeof(Header)] *)
Definition HDR : Z := 16.

Record heap := mkHeap {
  h_ptr : Z → Z;        (** [p->s.ptr] *)
  h_size : Z → Z;       (** [p->s.size] *)
  h_freep : Z;
  h_brk : Z;            (** the end of the process *)
}.

Definition set_ptr (p v : Z) (h : heap) : heap := mkHeap (mset p v (h_ptr h)) (h_size h) (h_freep h) (h_brk h).
Definition set_size (p v : Z) (h : heap) : heap := mkHeap (h_ptr h) (mset p v (h_size h)) (h_freep h) (h_brk h).
Definition set_freep (v : Z) (h : heap) : heap := mkHeap (h_ptr h) (h_size h) v (h_brk h).
Definition set_brk (v : Z) (h : heap) : heap := mkHeap (h_ptr h) (h_size h) (h_freep h) v.

(** The loop of [free]: the free block after which [bp] belongs. *)
Fixpoint free_find (fuel : nat) (bp p : Z) (h : heap) : option Z :=
  match fuel with
  | O => None
  | S fuel =>
    let q := h_ptr h p in
    if (p <? bp) && (bp <? q) then Some p
    else if (q <=? p) && ((p <? bp) || (bp <? q)) then Some p
    else free_find fuel bp q h
  end.

(** The two [if]s of [free], joining [bp] to the block after it and to [p]. *)
Definition join_next (bp p : Z) (h : heap) : heap :=
  if bp + h_size h bp * HDR =? h_ptr h p then
    let h := set_size bp (u32 (h_size h bp + h_size h (h_ptr h p))) h in
    set_ptr bp (h_ptr h (h_ptr h p)) h
  else set_ptr bp (h_ptr h p) h.

Definition join_prev (bp p : Z) (h : heap) : heap :=
  if p + h_size h p * HDR =? bp then
    let h := set_size p (u32 (h_size h p + h_size h bp)) h in
    set_ptr p (h_ptr h bp) h
  else set_ptr p bp h.

Definition free (fuel : nat) (ap : Z) (h : heap) : option heap :=
  let bp := ap - HDR in
  p ← free_find fuel bp (h_freep h) h;
  Some (set_freep p (join_prev bp p (join_next bp p h))).

Section operations.
Context (base : Z) (sbrk_fails : Z → Z → bool).

(** [sbrk]: the old break, or -1. *)
Definition sbrk (n : Z) (h : heap) : Z * heap :=
  if sbrk_fails (h_brk h) n then (-1, h) else (h_brk h, set_brk (h_brk h + n) h).

Definition morecore (fuel : nat) (nu : Z) (h : heap) : option (Z * heap) :=
  let nu := if nu <? 4096 then 4096 else nu in
  let '(p, h) := sbrk (nu * HDR) h in
  if p =? -1 then Some (0, h) else
  let h := set_size p nu h in
  h ← free fuel (p + HDR) h;
  Some (h_freep h, h).

(** A block that is large enough: unlink it, or cut its tail off. *)
Definition take_block (nunits prevp p : Z) (h : heap) : Z * heap :=
  if h_size h p =? nunits then (p + HDR, set_freep prevp (set_ptr prevp (h_ptr h p) h))
  else
    let h := set_size p (u32 (h_size h p - nunits)) h in
    let p := p + h_size h p * HDR in
    let h := set_size p nunits h in
    (p + HDR, set_freep prevp h).

Fixpoint malloc_loop (fuel : nat) (nunits prevp p : Z) (h : heap) : option (Z * heap) :=
  match fuel with
  | O => None
  | S fuel =>
    if nunits <=? h_size h p then Some (take_block nunits prevp p h)
    else if p =? h_freep h then
      '(p, h) ← morecore fuel nunits h;
      if p =? 0 then Some (0, h) else malloc_loop fuel nunits p (h_ptr h p) h
    else malloc_loop fuel nunits p (h_ptr h p) h
  end.

Definition units (nbytes : Z) : Z := u32 ((nbytes + HDR - 1) / HDR + 1).

(** The first call makes the empty list. *)
Definition init_heap (h : heap) : heap :=
  if h_freep h =? 0 then set_size base 0 (set_freep base (set_ptr base base h)) else h.

Definition malloc (fuel : nat) (nbytes : Z) (h : heap) : option (Z * heap) :=
  let nunits := units nbytes in
  let h := init_heap h in
  malloc_loop fuel nunits (h_freep h) (h_ptr h (h_freep h)) h.

End operations.

Section umalloc.
Context (base : Z).

(** ** The invariant *)

(** A block: the address of its header and its size in units. *)
Abbreviation block := (Z * Z)%type.

Definition bend (x : block) : Z := x.1 + x.2 * HDR.
Definition apart (x y : block) : Prop := bend x ≤ y.1 ∨ bend y ≤ x.1.

(** From pointer [p] the nodes [l], then pointer [q]. *)
Fixpoint path (h : heap) (p : Z) (l : list block) (q : Z) : Prop :=
  match l with
  | [] => p = q
  | x :: l => p = x.1 ∧ h_size h p = x.2 ∧ path h (h_ptr h p) l q
  end.

(** Ascending, with a gap before each block. *)
Fixpoint gaps (lo : Z) (l : list block) : Prop :=
  match l with
  | [] => True
  | x :: l => lo < x.1 ∧ 0 ≤ x.2 ∧ gaps (bend x) l
  end.

Fixpoint pairwise (l : list block) : Prop :=
  match l with
  | [] => True
  | x :: l => Forall (apart x) l ∧ pairwise l
  end.

(** A block of the heap: not empty, above [base], below the break. *)
Definition block_ok (brk : Z) (x : block) : Prop := 1 ≤ x.2 ∧ base + HDR ≤ x.1 ∧ bend x ≤ brk.

Definition LIMIT : Z := 2 ^ 36.

(** The addresses in the blocks of a list. *)
Definition covers (l : list block) (z : Z) : Prop := Exists (λ x, x.1 ≤ z < bend x) l.

Definition nodes (L : list block) : list block := (base, 0) :: L.

Record heap_ok (h : heap) (L A : list block) : Prop := {
  ho_path : path h base (nodes L) base;
  ho_gaps : gaps base L;
  ho_freep : h_freep h ∈ (nodes L).*1;
  ho_blocks : Forall (block_ok (h_brk h)) (L ++ A);
  ho_sizes : Forall (λ x, h_size h x.1 = x.2) A;
  ho_apart : Forall (λ x, Forall (apart x) A) L;
  ho_alloc : pairwise A;
  ho_brk : base + HDR ≤ h_brk h ≤ LIMIT;
}.

Hypothesis base_pos : 0 < base.

(** *** Paths *)

Lemma block_path_app h p l1 l2 q : path h p (l1 ++ l2) q ↔ ∃ m, path h p l1 m ∧ path h m l2 q.
Proof.
  revert p. induction l1 as [|x l1 IH]; intros p; cbn [app path].
  - split; [intros H; by exists p|by intros (m & -> & H)].
  - rw IH. naive_solver.
Qed.

(** Fields outside a path do not matter. *)
Lemma path_frame h h' p l q :
  (∀ x, x ∈ l → h_ptr h' x.1 = h_ptr h x.1 ∧ h_size h' x.1 = h_size h x.1) → path h p l q → path h' p l q.
Proof.
  revert p. induction l as [|x l IH]; intros p Hf; cbn [path]; [done|]. intros (-> & Hs & Hp).
  destruct (Hf x) as [E1 E2]; [by left|]. split; [done|]. rw E1 E2. split; [done|].
  apply IH; [|done]. intros y Hy. apply Hf. by right.
Qed.

Lemma path_split h p l1 x l2 q :
  path h p (l1 ++ x :: l2) q → path h p l1 x.1 ∧ h_size h x.1 = x.2 ∧ path h (h_ptr h x.1) l2 q.
Proof. rw block_path_app. intros (m & H1 & -> & H2 & H3). done. Qed.

Lemma path_join h p l1 x l2 q :
  path h p l1 x.1 → h_size h x.1 = x.2 → path h (h_ptr h x.1) l2 q → path h p (l1 ++ x :: l2) q.
Proof. intros H1 H2 H3. apply block_path_app. by exists x.1. Qed.

(** *** Order *)

Lemma gaps_weaken lo lo' l : lo' ≤ lo → gaps lo l → gaps lo' l.
Proof. destruct l as [|x l]; [done|]. cbn. intros ? (? & ? & ?). split_and!; [lia|done..]. Qed.

Lemma gaps_above lo l x : gaps lo l → x ∈ l → lo < x.1.
Proof.
  revert lo. induction l as [|y l IH]; intros lo; cbn [gaps]; [by intros _ ?%elem_of_nil|].
  intros (H1 & H2 & H3) [->|Hx]%elem_of_cons; [done|]. have := IH _ H3 Hx. rw /bend /HDR. lia.
Qed.

Lemma gaps_nonneg lo l : gaps lo l → Forall (λ x, 0 ≤ x.2) l.
Proof.
  revert lo. induction l as [|y l IH]; intros lo; [done|]. intros (_ & H1 & H2). constructor; [done|by eapply IH].
Qed.

Lemma gaps_split lo l1 x l2 :
  gaps lo (l1 ++ x :: l2) ↔ gaps lo l1 ∧ Forall (λ y, bend y < x.1) l1 ∧ lo < x.1 ∧ 0 ≤ x.2 ∧ gaps (bend x) l2.
Proof.
  revert lo. induction l1 as [|y l1 IH]; intros lo; cbn [app gaps]; [split; [by intros (?&?&?)|tauto]|].
  rw IH list.Forall_cons. split.
  - intros (H1 & H2 & H3 & H4 & H5 & H6 & H7). rw /bend /HDR in H5 |- *. split_and!; try done; lia.
  - intros ((H1 & H2 & H3) & (H4 & H5) & H6). tauto.
Qed.

Lemma gaps_nodes L : gaps base L ↔ gaps (base - 1) (nodes L).
Proof.
  cbn. rw (_ : bend (base, 0) = base); [rw /bend /=; lia|]. split; [|tauto]. intros. split_and!; [lia..|done].
Qed.

(** *** The search of [free] *)

(** [bp] belongs after the node [x'], before those of [Y']. *)
Definition slot (bp : Z) (x' : block) (Y' : list block) : Prop :=
  x'.1 < bp ∧ match Y' with [] => True | y :: _ => bp < y.1 end.

Lemma find_up h X x Y fuel bp :
  path h base (X ++ x :: Y) base → gaps (base - 1) (X ++ x :: Y) → x.1 < bp → base < bp →
  (∀ y, y ∈ Y → y.1 ≠ bp) → (length Y < fuel)%nat →
  ∃ X' x' Y', X ++ x :: Y = X' ++ x' :: Y' ∧ free_find fuel bp x.1 h = Some x'.1 ∧ slot bp x' Y'.
Proof.
  revert X x fuel. induction Y as [|y Y IH]; intros X x fuel Hp Hg Hlt Hb Hne Hf; (destruct fuel as [|fuel]; [cbn in Hf; lia|]).
  - exists X, x, []. split; [done|]. split; [|done]. destruct (path_split _ _ _ _ _ _ Hp) as (_ & _ & Hq).
    cbn in Hq |- *. apply gaps_split in Hg as (_ & _ & Hg & _). rw Hq.
    rw (_ : (x.1 <? bp) && (bp <? base) = false); [lia|].
    by rw (_ : (base <=? x.1) && ((x.1 <? bp) || (bp <? base)) = true); [lia|].
  - destruct (path_split _ _ _ _ _ _ Hp) as (_ & _ & Hq & _). cbn [free_find]. rw Hq.
    assert (x.1 < y.1) as Hxy.
    { apply gaps_split in Hg as (_ & _ & _ & H2 & H3 & _). rw /bend /HDR in H3. lia. }
    destruct (Z.lt_ge_cases bp y.1) as [Hlt2|Hge].
    + exists X, x, (y :: Y). split; [done|]. split; [|done].
      by rw (_ : (x.1 <? bp) && (bp <? y.1) = true); [lia|].
    + assert (y.1 ≠ bp) by (apply Hne; by left).
      rw (_ : (x.1 <? bp) && (bp <? y.1) = false); [lia|].
      rw (_ : (y.1 <=? x.1) && _ = false); [lia|].
      rw (_ : X ++ x :: y :: Y = (X ++ [x]) ++ y :: Y) in Hp Hg |- *; [by rw -app_assoc|].
      apply IH; [done..|lia|done| |cbn in Hf; lia]. intros z Hz. apply Hne. by right.
Qed.

Lemma find_down h X x Y fuel bp :
  path h base (X ++ x :: Y) base → gaps (base - 1) (X ++ x :: Y) → bp < x.1 → base < bp →
  (length Y < fuel)%nat →
  ∃ fuel', free_find fuel bp x.1 h = free_find fuel' bp base h ∧ (fuel' + S (length Y) = fuel)%nat.
Proof.
  revert X x fuel. induction Y as [|y Y IH]; intros X x fuel Hp Hg Hlt Hb Hf; (destruct fuel as [|fuel]; [cbn in Hf; lia|]).
  - exists fuel. split; [|cbn; lia]. destruct (path_split _ _ _ _ _ _ Hp) as (_ & _ & Hq).
    cbn in Hq |- *. rw Hq. rw (_ : (x.1 <? bp) && (bp <? base) = false); [lia|].
    by rw (_ : (base <=? x.1) && ((x.1 <? bp) || (bp <? base)) = false); [lia|].
  - destruct (path_split _ _ _ _ _ _ Hp) as (_ & _ & Hq & _). cbn [free_find]. rw Hq.
    assert (x.1 < y.1) as Hxy.
    { apply gaps_split in Hg as (_ & _ & _ & H2 & H3 & _). rw /bend /HDR in H3. lia. }
    rw (_ : (x.1 <? bp) && (bp <? y.1) = false); [lia|].
    rw (_ : (y.1 <=? x.1) && _ = false); [lia|].
    rw (_ : X ++ x :: y :: Y = (X ++ [x]) ++ y :: Y) in Hp Hg; [by rw -app_assoc|].
    destruct (IH (X ++ [x]) y fuel Hp Hg) as (f' & -> & Hf'); [lia|done|cbn in Hf; lia|].
    exists f'. split; [done|cbn; lia].
Qed.

Lemma free_find_ok h L A fuel bp :
  heap_ok h L A → base < bp → (∀ y, y ∈ L → y.1 ≠ bp) → (2 * length L + 2 < fuel)%nat →
  ∃ X' x' Y', nodes L = X' ++ x' :: Y' ∧ free_find fuel bp (h_freep h) h = Some x'.1 ∧ slot bp x' Y'.
Proof.
  intros [Hp Hg Hfr _ _ _ _ _] Hb Hne Hf. apply gaps_nodes in Hg.
  assert (∀ y, y ∈ nodes L → y.1 ≠ bp) as Hne'.
  { intros y [->|Hy]%elem_of_cons; [cbn; lia|by apply Hne]. }
  apply list_elem_of_fmap in Hfr as (x & -> & Hx). apply list_elem_of_split in Hx as (X & Y & HN).
  assert (length (nodes L) = length X + S (length Y))%nat as Hlen by (by rw HN length_app).
  cbn in Hlen. rw HN in Hp Hg Hne'. rw HN. destruct (Z.lt_trichotomy x.1 bp) as [Hlt|[Heq|Hgt]].
  - apply find_up; [done..| |lia]. intros y Hy. apply Hne'. apply elem_of_app. right. by right.
  - exfalso. apply (Hne' x); [|done]. apply elem_of_app. right. by left.
  - destruct (find_down h X x Y fuel bp) as (f' & -> & Hf'); [done..|lia|].
    rw -HN in Hp Hg |- *. destruct (find_up h [] (base, 0) L f' bp) as (X' & x' & Y' & H1 & H2 & H3); [done..|lia|].
    by exists X', x', Y'.
Qed.

(** *** Joining blocks *)

(** Both [if]s of [free] join a block [b] to the list that follows at [q]. *)
Definition join (b q : Z) (h : heap) : heap :=
  if b + h_size h b * HDR =? q then set_ptr b (h_ptr h q) (set_size b (u32 (h_size h b + h_size h q)) h)
  else set_ptr b q h.

Lemma join_next_join bp p h : join_next bp p h = join bp (h_ptr h p) h.
Proof. done. Qed.
Lemma join_prev_join bp p h : join_prev bp p h = join p bp h.
Proof. done. Qed.

(** What it does to the list of blocks. *)
Definition attach (b : block) (Y : list block) : list block :=
  match Y with
  | [] => [b]
  | y :: Y' => if bend b =? y.1 then (b.1, b.2 + y.2) :: Y' else b :: Y
  end.

Lemma join_frame b q h p : p ≠ b → h_ptr (join b q h) p = h_ptr h p ∧ h_size (join b q h) p = h_size h p.
Proof. intros Hp. rw /join. destruct (_ =? q); cbn; rw /mset (_ : p =? b = false) //; lia. Qed.

Lemma join_path h b Y q :
  path h q Y base → h_size h b.1 = b.2 → (Y = [] → base < bend b) → 0 ≤ b.2 →
  Forall (λ y, b.1 < y.1 ∧ 0 ≤ y.2 ∧ bend y ≤ LIMIT) Y → 0 < b.1 →
  path (join b.1 q h) b.1 (attach b Y) base.
Proof.
  intros Hp Hs Hb Hn HY H0. rw /attach. destruct Y as [|y Y].
  - cbn in Hp. subst q. rw /join Hs. fold (bend b). rw (_ : bend b =? base = false); [specialize (Hb eq_refl); lia|].
    cbn. rw /mset Z.eqb_refl. done.
  - cbn in Hp. destruct Hp as (-> & Hys & Hyp). rw list.Forall_cons in HY. destruct HY as [(H1 & H2 & H3) HY].
    assert (∀ z, z ∈ Y → z.1 ≠ b.1) as Hne.
    { intros z Hz. rw list.Forall_forall in HY. destruct (HY z Hz). lia. }
    rw /join Hs. fold (bend b). destruct (bend b =? y.1) eqn:E.
    + cbn [path fst snd]. split; [done|]. cbn. rw /mset Z.eqb_refl Hys.
      rw u32_small; [rw /bend /HDR /LIMIT in E H3; lia|]. split; [done|].
      apply (path_frame h); [|done]. intros z Hz. have := Hne z Hz. cbn. rw /mset. intros.
      by rw (_ : z.1 =? b.1 = false); [lia|].
    + cbn [path fst snd]. split; [done|]. cbn. rw /mset Z.eqb_refl. split; [done|]. split; [done|].
      rw (_ : y.1 =? b.1 = false); [lia|]. split; [done|].
      apply (path_frame h); [|done]. intros z Hz. have := Hne z Hz. cbn. rw /mset. intros.
      by rw (_ : z.1 =? b.1 = false); [lia|].
Qed.

Lemma attach_gaps lo b Y :
  lo < b.1 → 0 ≤ b.2 → match Y with [] => True | y :: _ => bend b ≤ y.1 end → gaps b.1 Y → gaps lo (attach b Y).
Proof.
  intros H1 H2 H3 H4. destruct Y as [|y Y]; [done|]. cbn in H4 |- *. destruct H4 as (H4 & H5 & H6).
  destruct (bend b =? y.1) eqn:E; cbn.
  - split; [done|]. split; [lia|]. rw (_ : bend (b.1, b.2 + y.2) = bend y) //. rw /bend /HDR /= in E |- *. lia.
  - split; [done|]. split; [done|]. split; [lia|done].
Qed.

(** A property of blocks that adjacent ones share with their union. *)
Definition mergeable (P : block → Prop) : Prop :=
  ∀ x y, P x → P y → bend x = y.1 → P (x.1, x.2 + y.2).

Lemma attach_Forall P b Y : mergeable P → P b → Forall P Y → Forall P (attach b Y).
Proof.
  intros Hm Hb HY. destruct Y as [|y Y]; [by constructor|]. cbn.
  apply list.Forall_cons in HY as [Hy HY]. destruct (bend b =? y.1) eqn:E; [|by repeat constructor].
  constructor; [|done]. apply Hm; [done..|lia].
Qed.

Lemma block_ok_mergeable brk : mergeable (block_ok brk).
Proof. intros x y (H1 & H2 & H3) (H4 & H5 & H6) E. rw /block_ok /bend /HDR /= in E H2 H3 H5 H6 |- *. lia. Qed.

Lemma apart_mergeable A : Forall (λ a, 1 ≤ a.2) A → mergeable (λ x, Forall (apart x) A).
Proof.
  intros HA x y Hx Hy E. rw !list.Forall_forall in HA Hx Hy |- *. intros a Ha.
  have := HA a Ha. have := Hx a Ha. have := Hy a Ha. rw /apart /bend /HDR /= in E |- *. lia.
Qed.

Lemma attach_Exists n b Y :
  Forall (λ y, 0 ≤ y.2) (b :: Y) → Exists (λ y, n ≤ y.2) (b :: Y) → Exists (λ y, n ≤ y.2) (attach b Y).
Proof.
  intros [Hb HY]%list.Forall_cons. destruct Y as [|y Y]; [done|]. cbn. apply list.Forall_cons in HY as [Hy HY].
  destruct (bend b =? y.1); [|done]. rw !List.Exists_cons /=. intros [H|[H|H]]; [left; lia|left; lia|by right].
Qed.

Lemma covers_cons x l z : covers (x :: l) z ↔ x.1 ≤ z < bend x ∨ covers l z.
Proof. apply List.Exists_cons. Qed.

Lemma covers_app l1 l2 z : covers (l1 ++ l2) z ↔ covers l1 z ∨ covers l2 z.
Proof. apply List.Exists_app. Qed.

Lemma covers_nil z : covers [] z ↔ False.
Proof. apply List.Exists_nil. Qed.

Lemma covers_nodes L z : covers (nodes L) z ↔ covers L z.
Proof. rw /nodes covers_cons /bend /=. split; [intros [?|?]; [lia|done]|by right]. Qed.

(** Joining adjacent blocks loses no address and gains none. *)
Lemma attach_covers b Y z :
  Forall (λ y, 0 ≤ y.2) (b :: Y) → covers (attach b Y) z ↔ covers (b :: Y) z.
Proof.
  intros [Hb HY]%list.Forall_cons. destruct Y as [|y Y]; [done|]. cbn [attach]. apply list.Forall_cons in HY as [Hy HY].
  destruct (bend b =? y.1) eqn:E; [|done]. rw !covers_cons /bend /HDR /= in E |- *. split.
  - intros [H|H]; [|by right; right]. destruct (Z.lt_ge_cases z y.1); [left|right; left]; lia.
  - intros [H|[H|H]]; [left; lia|left; lia|by right].
Qed.

Lemma length_attach b Y : (length (attach b Y) ≤ S (length Y))%nat.
Proof. destruct Y as [|y Y]; [done|]. cbn. destruct (_ =? _); cbn; lia. Qed.

Lemma attach_head b Y : b.1 ∈ (attach b Y).*1.
Proof. destruct Y as [|y Y]; [by left|]. cbn. destruct (_ =? _); by left. Qed.

(** *** [free] *)

Definition allocated (A : list block) : Prop := Forall (λ a, 1 ≤ a.2) A.

Lemma slot_apart b x' X' Y' L :
  nodes L = X' ++ x' :: Y' → gaps base L → slot b.1 x' Y' → 1 ≤ b.2 → base + HDR ≤ b.1 →
  Forall (apart b) L →
  bend x' ≤ b.1 ∧ match Y' with [] => True | y :: _ => bend b ≤ y.1 end.
Proof.
  intros HN Hg [Hx Hy] Hn Hb Hap. rw list.Forall_forall in Hap.
  assert (∀ y, y ∈ nodes L → y = (base, 0) ∨ apart b y) as Hin.
  { intros y [->|Hy']%elem_of_cons; [by left|right; by apply Hap]. }
  rw HN in Hin. split.
  - destruct (Hin x') as [->|[H|H]]; [apply elem_of_app; right; by left|..]; rw /bend /HDR /= in Hx Hb |- *; [lia| |exact H].
    rw /bend /HDR in H. lia.
  - destruct Y' as [|y Y']; [done|].
    destruct (Hin y) as [->|[H|H]]; [apply elem_of_app; right; right; by left|cbn in Hy; rw /HDR in Hb; lia|done|].
    apply gaps_nodes in Hg. rw HN in Hg. apply gaps_split in Hg as (_ & _ & _ & _ & Hg). cbn in Hg.
    rw /bend /HDR in H. lia.
Qed.

Lemma path_after h X x Y bp :
  path h base (X ++ x :: Y) base → gaps (base - 1) (X ++ x :: Y) →
  (∀ y, y ∈ X ++ x :: Y → y.1 ≠ bp.1) → h_size h bp.1 = bp.2 → 1 ≤ bp.2 → bend x ≤ bp.1 →
  match Y with [] => True | y :: _ => bend bp ≤ y.1 end → bend bp ≤ LIMIT →
  Forall (λ y, bend y ≤ LIMIT) Y →
  path (join_prev bp.1 x.1 (join_next bp.1 x.1 h)) base (X ++ attach x (attach bp Y)) base.
Proof.
  intros Hp Hg Hne Hs Hn Hx Hy Hl HY. destruct (path_split _ _ _ _ _ _ Hp) as (HpX & Hsx & HpY).
  apply gaps_split in Hg as (HgX & HX & Hbx & Hx2 & HgY).
  have HY2 := gaps_nonneg _ _ HgY. have HX2 := gaps_nonneg _ _ HgX.
  assert (Forall (λ y, bp.1 < y.1) Y) as HY3.
  { destruct Y as [|y Y]; [done|]. cbn in HgY. destruct HgY as (_ & _ & HgY).
    assert (bp.1 < y.1) by (rw /bend /HDR in Hy; lia). constructor; [done|].
    apply list.Forall_forall => z Hz. have := gaps_above _ _ _ HgY Hz. apply list.Forall_cons in HY2 as [? _].
    rw /bend /HDR. lia. }
  rw join_next_join join_prev_join. set h1 := join bp.1 _ h.
  assert (x.1 < bp.1) as Hlt by (rw /bend /HDR in Hx; assert (x.1 ≠ bp.1) by (apply Hne, elem_of_app; right; by left); lia).
  assert (path h1 bp.1 (attach bp Y) base) as Hp1.
  { apply join_path; [done..|intros _; rw /bend /HDR in Hx |- *; lia|lia| |lia].
    rw !list.Forall_forall in HY HY2 HY3 |- *. intros z Hz. split_and!; auto. }
  assert (∀ y, y ∈ X ++ [x] → h_ptr h1 y.1 = h_ptr h y.1 ∧ h_size h1 y.1 = h_size h y.1) as Hf1.
  { intros y Hy'. apply join_frame, Hne. rw (_ : X ++ x :: Y = (X ++ [x]) ++ Y); [by rw -app_assoc|].
    apply elem_of_app. by left. }
  assert (Forall (λ y, x.1 < y.1 ∧ 0 ≤ y.2 ∧ bend y ≤ LIMIT) (attach bp Y)) as HYb.
  { apply attach_Forall.
    - intros u v (H1 & H2 & H3) (H4 & H5 & H6) E. rw /bend /HDR /= in E H3 H6 |- *. lia.
    - split_and!; [done|lia|done].
    - rw !list.Forall_forall in HY HY2 HY3 |- *. intros z Hz. have := HY3 z Hz. have := HY2 z Hz. have := HY z Hz. lia. }
  apply block_path_app. exists x.1. split.
  - apply (path_frame h); [|done]. intros y Hy'.
    destruct (Hf1 y) as [<- <-]; [apply elem_of_app; by left|]. apply join_frame.
    rw !list.Forall_forall in HX HX2. have := HX y Hy'. have := HX2 y Hy'. rw /bend /HDR. lia.
  - apply join_path; [done| | |done|done|lia].
    + destruct (Hf1 x) as [_ ->]; [apply elem_of_app; right; by left|done].
    + destruct Y as [|y Y]; [done|]. cbn. by destruct (_ =? _).
Qed.

Lemma attach_cons b Y : ∃ m l, attach b Y = (b.1, m) :: l.
Proof.
  destruct Y as [|y Y]; [exists b.2, []; by destruct b|]. cbn. destruct (_ =? _); [by eexists _, _|].
  exists b.2, (y :: Y). by destruct b.
Qed.

(** The list after the two joins is again [base] and a list of free blocks. *)
Lemma new_nodes L X x Y b :
  nodes L = X ++ x :: Y → base < b.1 → Forall (λ y, 0 ≤ y.2) (b :: L) →
  ∃ L', X ++ attach x (attach b Y) = nodes L' ∧
    (∀ P, mergeable P → Forall P (b :: L) → Forall P L') ∧
    Exists (λ y, b.2 ≤ y.2) L' ∧ (length L' ≤ S (length L))%nat.
Proof.
  intros HN Hb H0. assert (∀ Y, Exists (λ y, b.2 ≤ y.2) (b :: Y)) as He by (intros; by left).
  apply list.Forall_cons in H0 as [Hb0 H0]. have Hlen := length_attach b Y.
  unfold nodes in HN |- *. destruct X as [|z X]; cbn in HN; simplify_eq.
  - exists (attach b Y). destruct (attach_cons b Y) as (m & l & E). split; [|split; [|split]].
    + rw E /attach (_ : bend (base, 0) =? (b.1, m).1 = false) //. rw /bend /=. lia.
    + intros P Hm [H1 H2]%list.Forall_cons. by apply attach_Forall.
    + apply attach_Exists; [by constructor|done].
    + done.
  - exists (X ++ attach x (attach b Y)). apply list.Forall_app in H0 as [HX [Hx HY]%list.Forall_cons].
    split; [done|]. split; [|split].
    + intros P Hm [H1 [H2 [H3 H4]%list.Forall_cons]%list.Forall_app]%list.Forall_cons.
      apply list.Forall_app. split; [done|]. apply attach_Forall; [done..|]. by apply attach_Forall.
    + apply List.Exists_app. right. apply attach_Exists.
      * constructor; [done|]. apply attach_Forall; [|done..]. intros u v ?? _. cbn. lia.
      * right. apply attach_Exists; [by constructor|done].
    + rw !length_app /=. have := length_attach x (attach b Y). lia.
Qed.

Lemma covers_joined L L' X x Y b z :
  nodes L = X ++ x :: Y → X ++ attach x (attach b Y) = nodes L' → Forall (λ y, 0 ≤ y.2) (b :: nodes L) →
  covers L' z ↔ covers (b :: L) z.
Proof.
  intros HN HN' H0. rw -covers_nodes -HN' covers_cons -(covers_nodes L) HN !covers_app.
  rw HN in H0. apply list.Forall_cons in H0 as [Hb [_ [Hx HY]%list.Forall_cons]%list.Forall_app].
  rw attach_covers; [constructor; [done|]; apply attach_Forall; [intros u v ?? _; cbn; lia|done..]|].
  rw !covers_cons attach_covers; [by constructor|]. rw covers_cons. tauto.
Qed.

Lemma gaps_joined lo X x Y b :
  gaps lo (X ++ x :: Y) → bend x ≤ b.1 → 1 ≤ b.2 → x.1 < b.1 →
  match Y with [] => True | y :: _ => bend b ≤ y.1 end → gaps lo (X ++ attach x (attach b Y)).
Proof.
  intros (HX & HXx & Hlo & Hx0 & HY)%gaps_split Hxb Hb0 Hlt Hby.
  assert (gaps x.1 (attach b Y)) as H1.
  { apply attach_gaps; [done|lia|done|]. destruct Y as [|y Y]; [done|]. cbn in HY |- *. rw /bend /HDR in Hby.
    destruct HY as (? & ? & ?). split_and!; [lia|done..]. }
  assert (gaps lo (attach x (attach b Y))) as H2.
  { apply attach_gaps; [done..| |done]. destruct (attach_cons b Y) as (m & l & ->). done. }
  destruct (attach_cons x (attach b Y)) as (m & l & E). rw E in H2 |- *. cbn in H2. apply gaps_split. cbn. tauto.
Qed.

Lemma apart_ne x y : apart x y → 1 ≤ x.2 → 1 ≤ y.2 → x.1 ≠ y.1.
Proof. rw /apart /bend /HDR. lia. Qed.

(** An allocated block is no node of the list. *)
Lemma alloc_node h L A a x : heap_ok h L A → a ∈ A → x ∈ nodes L → a.1 ≠ x.1.
Proof.
  intros [_ _ _ Hbl _ Hap _ _] Ha. rw !list.Forall_forall in Hbl Hap.
  destruct (Hbl a) as (H1 & H2 & _); [apply elem_of_app; by right|].
  intros [->|Hx]%elem_of_cons; [rw /HDR in H2; cbn; lia|].
  destruct (Hbl x) as (H3 & _); [apply elem_of_app; by left|].
  have := Hap x Hx. rw list.Forall_forall => H. symmetry. apply apart_ne; auto.
Qed.

Lemma free_run h L b A fuel :
  heap_ok h L (b :: A) → (2 * length L + 2 < fuel)%nat →
  ∃ h' L', free fuel (b.1 + HDR) h = Some h' ∧ heap_ok h' L' A ∧
    Exists (λ y, b.2 ≤ y.2) L' ∧ (length L' ≤ S (length L))%nat ∧ h_brk h' = h_brk h ∧
    (∀ z, covers L' z ↔ covers (b :: L) z).
Proof.
  intros Hok Hf. case: (Hok) => Hp Hg Hfr Hbl Hsz Hap Hal Hbrk.
  apply list.Forall_app in Hbl as [HbL [Hbb HbA]%list.Forall_cons]. apply list.Forall_cons in Hsz as [Hsb HsA].
  destruct Hal as [HbA2 HalA]. move: (Hbb) => [Hn [Hbase Hend]].
  assert (Forall (apart b) L) as Hap2.
  { rw !list.Forall_forall in Hap |- *. intros y Hy. have := Hap y Hy. intros [H _]%list.Forall_cons.
    rw /apart in H |- *. tauto. }
  assert (∀ y, y ∈ nodes L → y.1 ≠ b.1) as Hne.
  { intros y Hy. symmetry. apply (alloc_node h L (b :: A)); [done|by left|done]. }
  assert (base < b.1) as Hlt by (rw /HDR in Hbase; lia).
  destruct (free_find_ok h L (b :: A) fuel b.1 Hok Hlt (λ y Hy, Hne y (list_elem_of_further _ _ _ Hy)) Hf) as (X & x & Y & HN & Hfind & Hslot).
  destruct (slot_apart b x X Y L HN Hg Hslot Hn Hbase Hap2) as [Hxb Hby].
  rw /free (_ : b.1 + HDR - HDR = b.1); [lia|]. rw Hfind. cbn [mbind option_bind].
  destruct (new_nodes L X x Y b HN Hlt) as (L' & HN' & HF & He & Hlen).
  { constructor; [lia|]. by eapply gaps_nonneg. }
  set h' := join_prev _ _ _. exists (set_freep x.1 h'), L'. split; [done|].
  assert (h_brk h' = h_brk h) as Hb'.
  { rw /h' join_next_join join_prev_join /join. by repeat destruct (_ =? _). }
  assert (∀ z, covers L' z ↔ covers (b :: L) z) as Hcov.
  { intros z. apply (covers_joined L L' X x Y b z HN HN'). do 2 (constructor; [cbn; lia|]). by eapply gaps_nonneg. }
  split; [|done]. apply gaps_nodes in Hg. rw HN in Hp Hg Hne.
  split.
  - rw -HN'. apply (path_frame h'); [done|]. apply path_after; [done..|lia|].
    assert (Forall (λ y, bend y ≤ LIMIT) (nodes L)) as Hlim.
    { constructor; [rw /bend /HDR /= in Hbrk |- *; lia|]. apply: (list.Forall_impl _ _ _ HbL) => y [_ [_ H]]. lia. }
    rw HN in Hlim. by apply list.Forall_app in Hlim as [_ [_ ?]%list.Forall_cons].
  - apply gaps_nodes. rw -HN'. apply gaps_joined; [done..| |done]. apply Hslot.
  - rw -HN' fmap_app. apply elem_of_app. right. apply attach_head.
  - cbn. rw Hb'. apply list.Forall_app. split; [|done]. apply HF; [apply block_ok_mergeable|by constructor].
  - rw !list.Forall_forall in HsA |- *. intros a Ha. rw -(HsA a Ha) /= /h' join_next_join join_prev_join.
    assert (a.1 ≠ x.1) as Hax.
    { apply (alloc_node h L (b :: A)); [done|by right|]. rw HN. apply elem_of_app. right. by left. }
    assert (a.1 ≠ b.1) as Hab.
    { rw !list.Forall_forall in HbA2 HbA. symmetry. apply apart_ne; [by apply HbA2|done|]. by apply (HbA a). }
    destruct (join_frame x.1 b.1 (join b.1 (h_ptr h x.1) h) a.1 Hax) as [_ ->].
    by destruct (join_frame b.1 (h_ptr h x.1) h a.1 Hab) as [_ ->].
  - apply HF; [apply apart_mergeable; apply: (list.Forall_impl _ _ _ HbA) => a [H _]; done|].
    constructor; [done|]. apply: (list.Forall_impl _ _ _ Hap) => y. by intros [_ H]%list.Forall_cons.
  - done.
  - cbn. by rw Hb'.
Qed.

(** *** [malloc] *)

(** The blocks around a node. *)
Lemma around lo l1 x l2 :
  gaps lo (l1 ++ x :: l2) → Forall (λ y, bend y < x.1) l1 ∧ Forall (λ y, bend x < y.1) l2.
Proof.
  intros (_ & H1 & _ & _ & H2)%gaps_split. split; [done|]. apply list.Forall_forall => y Hy. by eapply gaps_above.
Qed.

(** The new list and the new allocated block are disjoint from everything, if the
    block is cut from the free block [x]. *)
Lemma cut_apart L1 x L2 A a :
  gaps base (L1 ++ x :: L2) → Forall (apart x) A → x.1 ≤ a.1 → bend a ≤ bend x →
  Forall (λ y, apart y a) (L1 ++ L2) ∧ Forall (apart a) A.
Proof.
  intros Hg HA H1 H2. destruct (around _ _ _ _ Hg) as [Ha1 Ha2]. rw !list.Forall_forall in Ha1 Ha2 HA. split.
  - apply list.Forall_forall. intros y [Hy|Hy]%elem_of_app; rw /apart; [have := Ha1 y Hy|have := Ha2 y Hy]; lia.
  - apply list.Forall_forall => y Hy. have := HA y Hy. rw /apart. lia.
Qed.

(** What remains to be shown when a block [a] has been cut from [x]: the list. *)
Lemma alloc_ok h h' L1 x L2 L' A a :
  heap_ok h (L1 ++ x :: L2) A → x.1 ≤ a.1 → bend a ≤ bend x → 1 ≤ a.2 →
  path h' base (nodes L') base → gaps base L' → h_freep h' ∈ (nodes L').*1 → h_brk h' = h_brk h →
  h_size h' a.1 = a.2 → (∀ y, y ∈ A → h_size h' y.1 = h_size h y.1) →
  (∀ y, y ∈ L' → y ∈ L1 ++ L2 ∨ y.1 = x.1 ∧ bend y ≤ a.1 ∧ 1 ≤ y.2) →
  heap_ok h' L' (a :: A).
Proof.
  intros [Hp Hg Hfr Hbl Hsz Hap Hal Hbrk] H1 H2 H3 Hp' Hg' Hfr' Hb' Hsa HsA Hin.
  rw list.Forall_app list.Forall_app list.Forall_cons in Hbl. destruct Hbl as [[Hbl1 [Hblx Hbl2]] HblA].
  rw list.Forall_app list.Forall_cons in Hap. destruct Hap as [Hap1 [Hapx Hap2]].
  destruct (cut_apart L1 x L2 A a Hg Hapx H1 H2) as [Hc1 Hc2].
  assert (∀ y, y ∈ L1 ++ L2 → block_ok (h_brk h) y ∧ Forall (apart y) A) as HL.
  { rw !list.Forall_forall in Hbl1 Hbl2 Hap1 Hap2. intros y [Hy|Hy]%elem_of_app; auto. }
  move: (Hblx) => [X1 [X2 X3]].
  split; [done..| | | |done|by rw Hb'].
  - rw Hb'. apply list.Forall_app. split; [apply list.Forall_forall|constructor; [|done]].
    + intros y Hy. destruct (Hin y Hy) as [Hy2|(Y1 & Y2 & Y3)]; [by apply HL|].
      rw /block_ok /bend /HDR in X1 X2 X3 H2 Y2 |- *. lia.
    + rw /block_ok /HDR in X2 |- *. lia.
  - constructor; [done|]. rw !list.Forall_forall in Hsz |- *. intros y Hy. by rw HsA // Hsz.
  - apply list.Forall_forall. intros y Hy. destruct (Hin y Hy) as [Hy2|(Y1 & Y2 & Y3)].
    + rw list.Forall_forall in Hc1. constructor; [by apply Hc1|by apply HL].
    + constructor; [by left|]. rw !list.Forall_forall in Hapx |- *. intros z Hz. have := Hapx z Hz.
      rw /apart /bend /HDR in Y2 H2 |- *. lia.
Qed.

Lemma nodes_app L1 L2 : nodes (L1 ++ L2) = nodes L1 ++ L2.
Proof. done. Qed.

(** Unlinking a block of exactly the right size. *)
Lemma take_exact h A X pr L1 x L2 :
  heap_ok h (L1 ++ x :: L2) A → nodes L1 = X ++ [pr] →
  heap_ok (set_freep pr.1 (set_ptr pr.1 (h_ptr h x.1) h)) (L1 ++ L2) (x :: A).
Proof.
  intros Hok HN. case: (Hok) => Hp Hg _ Hbl _ _ _ _.
  have Hg2 := Hg. apply gaps_nodes in Hg2. rw nodes_app HN -app_assoc /= in Hg2 Hp.
  destruct (around _ _ _ _ Hg2) as [Hb1 Hb2]. have Hnn := gaps_nonneg _ _ Hg2.
  apply path_split in Hp as (Hp1 & Hs & Hpx & Hsx & Hp2). rw Hpx in Hsx Hp2.
  rw !list.Forall_forall in Hb1 Hb2 Hnn Hbl.
  assert (∀ y, y ∈ X ++ L2 → y.1 ≠ pr.1) as Hne.
  { have Hpr := Hnn pr ltac:(apply elem_of_app; right; by left). intros y [Hy|Hy]%elem_of_app.
    - have := Hb1 y Hy. have := Hnn y ltac:(apply elem_of_app; by left). rw /bend /HDR. lia.
    - have := Hb2 y ltac:(by right). rw /bend /HDR. lia. }
  apply (alloc_ok h _ L1 x L2); [done|lia|lia|by apply (Hbl x), elem_of_app; left; apply elem_of_app; right; left|..].
  - rw nodes_app HN -app_assoc. apply path_join.
    + apply (path_frame h); [|done]. intros y Hy. cbn. rw /mset (_ : y.1 =? pr.1 = false) //.
      apply Z.eqb_neq, Hne, elem_of_app. by left.
    + done.
    + cbn. rw /mset Z.eqb_refl. apply (path_frame h); [|done]. intros y Hy. cbn. rw /mset (_ : y.1 =? pr.1 = false) //.
      apply Z.eqb_neq, Hne, elem_of_app. by right.
  - apply gaps_split in Hg as (Hg1 & Hg3 & Hg4 & Hg5 & Hg6). destruct L2 as [|z L2]; [by rw app_nil_r|].
    cbn in Hg6. apply gaps_split. split; [done|]. destruct Hg6 as (G1 & G2 & G3).
    split; [apply: (list.Forall_impl _ _ _ Hg3) => y Hy; rw /bend /HDR in Hy G1 |- *; lia|].
    split_and!; [rw /bend /HDR in G1; lia|done..].
  - rw nodes_app HN -app_assoc fmap_app. apply elem_of_app. right. by left.
  - done.
  - done.
  - done.
  - intros y Hy. by left.
Qed.

(** Cutting the tail off a larger block. *)
Lemma take_tail h A L1 x L2 n pr :
  heap_ok h (L1 ++ x :: L2) A → 1 ≤ n < x.2 → pr ∈ (nodes (L1 ++ x :: L2)).*1 →
  let m := x.2 - n in let a := x.1 + m * HDR in
  heap_ok (set_freep pr (set_size a n (set_size x.1 m h))) (L1 ++ (x.1, m) :: L2) ((a, n) :: A).
Proof.
  intros Hok Hn Hpr m a. case: (Hok) => Hp Hg _ Hbl _ Hap _ _.
  have Hg2 := Hg. apply gaps_nodes in Hg2. rw nodes_app in Hg2 Hp. destruct (around _ _ _ _ Hg2) as [Hb1 Hb2].
  have Hnn := gaps_nonneg _ _ Hg2. rw !list.Forall_forall in Hb1 Hb2 Hnn Hbl Hap.
  assert (x.1 < a ∧ a + n * HDR = bend x) as [Ha1 Ha2] by (rw /a /m /bend /HDR; lia).
  assert (∀ y, y ∈ nodes L1 ++ L2 → y.1 ≠ x.1 ∧ y.1 ≠ a) as Hne.
  { intros y [Hy|Hy]%elem_of_app.
    - have := Hb1 y Hy. have := Hnn y ltac:(apply elem_of_app; by left). rw /bend /HDR. lia.
    - have := Hb2 y Hy. rw /HDR in Ha2. rw -Ha2. lia. }
  assert (∀ y, y ∈ A → y.1 ≠ x.1 ∧ y.1 ≠ a) as HneA.
  { intros y Hy. have := Hap x ltac:(apply elem_of_app; right; by left). rw list.Forall_forall => /(_ y Hy).
    have [? _] := Hbl y ltac:(apply elem_of_app; by right). rw /apart /bend /HDR in Ha2 |- *. lia. }
  assert (∀ p v w, p ≠ x.1 → p ≠ a → mset a v (mset x.1 w (h_size h)) p = h_size h p) as Hms.
  { intros p v w H1 H2. rw /mset (_ : p =? a = false); [lia|]. by rw (_ : p =? x.1 = false); [lia|]. }
  apply (alloc_ok h _ L1 x L2); [done|cbn; lia|rw /bend /= Ha2; done|cbn; lia|..].
  - rw nodes_app. apply path_split in Hp as (Hp1 & Hs & Hp2). apply path_join.
    + apply (path_frame h); [|done]. intros y Hy. cbn. split; [done|].
      apply Hms; apply Hne, elem_of_app; by left.
    + cbn. rw /mset (_ : x.1 =? a = false); [lia|]. by rw Z.eqb_refl.
    + apply (path_frame h); [|done]. intros y Hy. cbn. split; [done|]. apply Hms; apply Hne, elem_of_app; by right.
  - apply gaps_split in Hg as (G1 & G2 & G3 & G4 & G5). apply gaps_split. split_and!; [done..|cbn; lia|].
    apply (gaps_weaken (bend x)); [|done]. rw /bend /= /m /HDR. lia.
  - rw nodes_app fmap_app in Hpr. rw nodes_app fmap_app. done.
  - done.
  - cbn. by rw /mset Z.eqb_refl.
  - intros y Hy. cbn. apply Hms; by apply HneA.
  - intros y [Hy|[->|Hy]%elem_of_cons]%elem_of_app; [left; apply elem_of_app; by left| |left; apply elem_of_app; by right].
    right. cbn. split; [done|]. rw /bend /= /a. lia.
Qed.

(** Taking a block that is large enough. *)
Lemma take_run h L A X pr x Y n :
  heap_ok h L A → nodes L = X ++ pr :: x :: Y → 1 ≤ n ≤ x.2 →
  ∃ r h' L', take_block n pr.1 x.1 h = (r, h') ∧ heap_ok h' L' ((r - HDR, n) :: A) ∧
    h_brk h' = h_brk h ∧ (∀ z, covers ((r - HDR, n) :: L') z ↔ covers L z).
Proof.
  intros Hok HN Hn.
  assert (∃ L1, nodes L1 = X ++ [pr] ∧ L = L1 ++ x :: Y) as (L1 & HN1 & ->).
  { destruct X as [|z X]; cbn in HN; unfold nodes in HN; simplify_eq; [by exists []|].
    exists (X ++ [pr]). split; [done|]. by rw -app_assoc. }
  have Hs : h_size h x.1 = x.2.
  { have := ho_path _ _ _ Hok. rw nodes_app. by intros (_ & ? & _)%path_split. }
  have Hlim : bend x ≤ LIMIT.
  { have [_ ?] := ho_brk _ _ _ Hok. have := ho_blocks _ _ _ Hok. rw list.Forall_forall => H.
    have [_ [_ ?]] := H x ltac:(apply elem_of_app; left; apply elem_of_app; right; by left). lia. }
  have Hx : 0 < x.1.
  { have := ho_gaps _ _ _ Hok. by intros (_ & _ & ? & _)%gaps_split; lia. }
  rw /take_block Hs. destruct (x.2 =? n) eqn:E.
  - assert (x.2 = n) as <- by lia. eexists _, _, (L1 ++ Y). split; [done|].
    rw (_ : x.1 + HDR - HDR = x.1); [lia|]. rw (_ : (x.1, x.2) = x); [by destruct x|].
    split; [by eapply take_exact|]. split; [done|]. intros z. rw covers_cons !covers_app covers_cons. tauto.
  - rw u32_small; [rw /bend /HDR /LIMIT in Hlim; lia|]. cbn [h_size set_size].
    rw (_ : mset x.1 (x.2 - n) (h_size h) x.1 = x.2 - n); [by rw /mset Z.eqb_refl|].
    eexists _, _, (L1 ++ (x.1, x.2 - n) :: Y). split; [done|].
    rw (_ : x.1 + (x.2 - n) * HDR + HDR - HDR = x.1 + (x.2 - n) * HDR); [lia|].
    split; [apply take_tail; [done|lia|]|split; [done|]].
    { rw nodes_app HN1 !fmap_app. apply elem_of_app. left. apply elem_of_app. right. by left. }
    intros z. rw covers_cons !covers_app !covers_cons /bend /HDR /=. split.
    + intros [H|[H|[H|H]]]; [right; left; lia|by left|right; left; lia|by right; right].
    + intros [H|[H|H]]; [by right; left| |by right; right; right].
      destruct (Z.lt_ge_cases z (x.1 + (x.2 - n) * 16)); [right; right; left|left]; lia.
Qed.

Context (sbrk_fails : Z → Z → bool).

#[local] Abbreviation malloc_loop := (malloc_loop sbrk_fails).
#[local] Abbreviation morecore := (morecore sbrk_fails).

(** *** The search of [malloc] *)

Lemma gaps_NoDup lo l : gaps lo l → Forall (λ x, 0 ≤ x.2) l → NoDup l.*1.
Proof.
  revert lo. induction l as [|x l IH]; intros lo; cbn [gaps fmap list_fmap]; [constructor|].
  intros (_ & _ & Hg) [H0 Hl]%list.Forall_cons. constructor; [|by eapply IH].
  intros (y & E & Hy)%list_elem_of_fmap. have := gaps_above _ _ _ Hg Hy. rw /bend /HDR. lia.
Qed.

(** The node after [pr], and the order in which the loop meets the others. *)
Lemma next_node h L A X pr Y :
  heap_ok h L A → nodes L = X ++ pr :: Y →
  ∃ p rest X' Y', Y ++ X ++ [pr] = p :: rest ∧ nodes L = X' ++ p :: Y' ∧ rest ++ [p] = Y' ++ X' ++ [p] ∧
    h_ptr h pr.1 = p.1 ∧ h_size h p.1 = p.2 ∧ (p.2 = 0 ∨ nodes L = X ++ pr :: p :: Y').
Proof.
  intros [Hp _ _ _ _ _ _ _] HN. rw HN in Hp. destruct Y as [|y Y].
  - exists (base, 0), L, [], L. assert (X ++ [pr] = (base, 0) :: L) as HX by (by rw -HN).
    split; [done|]. split; [done|]. split; [done|]. have Hp2 := Hp. rw HX in Hp2.
    destruct Hp2 as (_ & Hs & _). apply path_split in Hp as (_ & _ & Hq). split; [done|]. split; [done|]. by left.
  - exists y, (Y ++ X ++ [pr]), (X ++ [pr]), Y. apply path_split in Hp as (_ & _ & Hq & Hs & _).
    rw Hq in Hs. split; [done|]. split; [by rw HN -app_assoc|]. split; [by rw -!app_assoc|].
    split; [done|]. split; [done|by right].
Qed.

Lemma malloc_loop_S fuel n prevp p h :
  malloc_loop (S fuel) n prevp p h =
    if n <=? h_size h p then Some (take_block n prevp p h)
    else if p =? h_freep h then
      '(p, h) ← morecore fuel n h; if p =? 0 then Some (0, h) else malloc_loop fuel n p (h_ptr h p) h
    else malloc_loop fuel n p (h_ptr h p) h.
Proof. done. Qed.

(** From [prevp] on the loop examines the nodes in the order of the list, up to
    [freep], and takes the first that is large enough. *)
Lemma scan T h L A X pr Y fr T' n fuel :
  heap_ok h L A → nodes L = X ++ pr :: Y → 1 ≤ n →
  Y ++ X ++ [pr] = T ++ fr :: T' → h_freep h = fr.1 →
  (∃ X1 pr1 x1 Y1, nodes L = X1 ++ pr1 :: x1 :: Y1 ∧ n ≤ x1.2 ∧
    malloc_loop (S (length T) + fuel) n pr.1 (h_ptr h pr.1) h = Some (take_block n pr1.1 x1.1 h)) ∨
  Forall (λ x, x.2 < n) (T ++ [fr]) ∧
  malloc_loop (S (length T) + fuel) n pr.1 (h_ptr h pr.1) h =
    ('(p, h) ← morecore fuel n h; if p =? 0 then Some (0, h) else malloc_loop fuel n p (h_ptr h p) h).
Proof.
  intros Hok HN Hn HT Hfr. revert X pr Y T' HN HT. induction T as [|t T IH]; intros X pr Y T' HN HT;
    destruct (next_node h L A X pr Y Hok HN) as (p & rest & X' & Y' & Hrot & HN' & Hrest & Hpt & Hs & Hz);
    cbn [length Nat.add]; rw malloc_loop_S Hpt Hs; (destruct (n <=? p.2) eqn:E;
      [left; exists X, pr, p, Y'; destruct Hz as [Hz|Hz]; [lia|]; split; [done|]; split; [lia|done]|]).
  - right. rw Hrot in HT. cbn [app] in HT. injection HT as -> ->. split; [repeat constructor; lia|]. by rw Hfr Z.eqb_refl.
  - rw Hrot in HT. cbn [app] in HT. injection HT as -> ->.
    assert (t.1 ≠ fr.1) as Hne.
    { assert (NoDup (Y ++ X ++ [pr]).*1) as Hnd.
      { have Hg := proj1 (gaps_nodes _) (ho_gaps _ _ _ Hok). have := gaps_NoDup _ _ Hg (gaps_nonneg _ _ Hg).
        rw HN (_ : X ++ pr :: Y = (X ++ [pr]) ++ Y); [by rw -app_assoc|]. by rewrite Permutation_app_comm. }
      rw Hrot fmap_cons in Hnd. apply list.NoDup_cons in Hnd as [Hnin _]. intros E2. apply Hnin. rw E2 fmap_app.
      apply elem_of_app. right. by left. }
    rw (_ : t.1 =? h_freep h = false); [lia|].
    destruct (IH X' t Y' (T' ++ [t]) HN') as [H|[H1 H2]]; [by rw -Hrest -app_assoc|by left|].
    right. split; [|done]. constructor; [lia|done].
Qed.

(** *** More memory *)

(** The kernel gives no process as much as 64 GB. *)
Hypothesis sbrk_limit : ∀ brk n, sbrk_fails brk n = false → brk + n ≤ LIMIT.

Definition chunk (n : Z) : Z := if n <? 4096 then 4096 else n.

(** The new memory is a block that nobody has freed yet. *)
Lemma grow_ok h L A nu :
  heap_ok h L A → 1 ≤ nu → h_brk h + nu * HDR ≤ LIMIT →
  heap_ok (set_size (h_brk h) nu (set_brk (h_brk h + nu * HDR) h)) L ((h_brk h, nu) :: A).
Proof.
  intros [Hp Hg Hfr Hbl Hsz Hap Hal Hbrk] Hnu Hlim. set h' := set_size _ _ _.
  apply list.Forall_app in Hbl as [HbL HbA]. have HbL2 := HbL. have HbA2 := HbA. rw !list.Forall_forall in HbL2 HbA2.
  assert (∀ x, x ∈ nodes L ∨ x ∈ A → h_size h' x.1 = h_size h x.1) as Hs.
  { intros x Hx. cbn. rw /mset (_ : x.1 =? h_brk h = false) //. apply Z.eqb_neq.
    assert (x = (base, 0) ∨ block_ok (h_brk h) x) as [->|[H1 [_ H2]]].
    { destruct Hx as [[->|Hx]%elem_of_cons|Hx]; auto. }
    - rw /HDR in Hbrk. cbn. lia.
    - rw /bend /HDR in H2. lia. }
  assert (∀ x, block_ok (h_brk h) x → block_ok (h_brk h') x) as Hmono.
  { intros x (H1 & H2 & H3). rw /block_ok /h' /= /HDR in H2 |- *. lia. }
  split; [|done..| | | | |rw /h' /= /HDR in Hbrk |- *; rw /HDR in Hlim; lia].
  - apply (path_frame h); [|done]. intros x Hx. split; [done|]. apply Hs. by left.
  - apply list.Forall_app. split; [by apply: (list.Forall_impl _ _ _ HbL)|]. constructor.
    + rw /block_ok /bend /h' /=. lia.
    + by apply: (list.Forall_impl _ _ _ HbA).
  - constructor; [cbn; by rw /mset Z.eqb_refl|]. rw !list.Forall_forall in Hsz |- *.
    intros x Hx. rw Hs; [by right|by apply Hsz].
  - rw !list.Forall_forall in Hap |- *. intros x Hx. constructor; [|by apply Hap]. left. by apply HbL2.
  - split; [|done]. apply list.Forall_forall. intros x Hx. right. by apply HbA2.
Qed.

Lemma morecore_run h L A n fuel :
  heap_ok h L A → 1 ≤ n → (2 * length L + 2 < fuel)%nat →
  sbrk_fails (h_brk h) (chunk n * HDR) = true ∧ morecore fuel n h = Some (0, h) ∨
  ∃ h' L', morecore fuel n h = Some (h_freep h', h') ∧ heap_ok h' L' A ∧
    Exists (λ y, n ≤ y.2) L' ∧ (length L' ≤ S (length L))%nat ∧ h_brk h' = h_brk h + chunk n * HDR ∧
    (∀ z, covers L' z ↔ covers L z ∨ h_brk h ≤ z < h_brk h').
Proof.
  intros Hok Hn Hf. rw /morecore /sbrk. fold (chunk n). destruct (sbrk_fails _ _) eqn:E; [by left|]. right.
  assert (n ≤ chunk n) as Hc by (rw /chunk; destruct (n <? 4096) eqn:?; lia).
  rw (_ : h_brk h =? -1 = false). { have := ho_brk _ _ _ Hok. rw /HDR. lia. }
  destruct (free_run _ L (h_brk h, chunk n) A fuel (grow_ok h L A (chunk n) Hok ltac:(lia) (sbrk_limit _ _ E)) Hf)
    as (h' & L' & Hr & Hok' & He & Hlen & Hb & Hcov).
  exists h', L'. cbn [fst] in Hr. rw Hr. split; [done|]. split; [done|]. split; [|split; [done|split; [done|]]].
  - eapply List.Exists_impl; [|exact He]. intros y Hy. cbn in Hy. lia.
  - intros z. rw Hcov covers_cons Hb /bend /=. tauto.
Qed.

(** ** The two operations *)

Lemma freep_node h L A : heap_ok h L A → ∃ X fr Y, nodes L = X ++ fr :: Y ∧ h_freep h = fr.1.
Proof.
  intros [_ _ Hfr _ _ _ _ _]. apply list_elem_of_fmap in Hfr as (fr & E & H).
  apply list_elem_of_split in H as (X & Y & HN). by exists X, fr, Y.
Qed.

(** Once around the circle: a block is taken, or none is large enough. *)
Lemma scan_circle h L A n f :
  heap_ok h L A → 1 ≤ n →
  (∃ r h' L', malloc_loop (S (length L) + f) n (h_freep h) (h_ptr h (h_freep h)) h = Some (r, h') ∧
    heap_ok h' L' ((r - HDR, n) :: A) ∧ h_brk h' = h_brk h ∧ (∀ z, covers ((r - HDR, n) :: L') z ↔ covers L z)) ∨
  Forall (λ x, x.2 < n) L ∧
  malloc_loop (S (length L) + f) n (h_freep h) (h_ptr h (h_freep h)) h =
    ('(p, h) ← morecore f n h; if p =? 0 then Some (0, h) else malloc_loop f n p (h_ptr h p) h).
Proof.
  intros Hok Hn. destruct (freep_node _ _ _ Hok) as (X & fr & Y & HN & Hfr).
  have Hlen := f_equal length HN. rw length_app /= in Hlen.
  rw (_ : length L = length (Y ++ X)); [rw length_app; lia|]. rw Hfr.
  destruct (scan (Y ++ X) h L A X fr Y fr [] n f Hok HN Hn ltac:(by rw -app_assoc) Hfr)
    as [(X1 & pr & x & Y1 & HN1 & Hnx & ->)|[Hsmall ->]].
  - left. destruct (take_run h L A X1 pr x Y1 n Hok HN1) as (r & h' & L' & Hr & Hok'); [lia|].
    exists r, h', L'. by rw Hr.
  - right. split; [|done]. assert (nodes L ≡ₚ (Y ++ X) ++ [fr]) as HP.
    { rewrite HN -Permutation_middle (Permutation_app_comm Y X) (Permutation_app_comm _ [fr]). done. }
    rewrite -HP in Hsmall. by apply list.Forall_cons in Hsmall as [_ H].
Qed.

(** Where [n] units at [r - HDR] come from: every free address, and every one the
    kernel adds, is now in that block or free; the kernel is asked only when no
    free block is large enough. *)
Record served (h : heap) (L : list block) (n r : Z) (h' : heap) (L' : list block) : Prop := {
  sv_covers z : covers ((r - HDR, n) :: L') z ↔ covers L z ∨ h_brk h ≤ z < h_brk h';
  sv_brk : h_brk h' = h_brk h ∨ h_brk h' = h_brk h + chunk n * HDR ∧ Forall (λ x, x.2 < n) L;
}.

Lemma malloc_loop_run h L A n fuel :
  heap_ok h L A → 1 ≤ n → (3 * length L + 6 ≤ fuel)%nat →
  ∃ r h' L', malloc_loop fuel n (h_freep h) (h_ptr h (h_freep h)) h = Some (r, h') ∧
    (r = 0 ∧ h' = h ∧ Forall (λ x, x.2 < n) L ∧ sbrk_fails (h_brk h) (chunk n * HDR) = true ∨
     heap_ok h' L' ((r - HDR, n) :: A) ∧ served h L n r h' L').
Proof.
  intros Hok Hn Hf.
  assert (∃ f1, fuel = (S (length L) + f1)%nat ∧ (2 * length L + 3 < f1)%nat) as (f1 & -> & Hf1).
  { exists (fuel - S (length L))%nat. lia. }
  destruct (scan_circle h L A n f1 Hok Hn) as [(r & h' & L' & Hr & Hok' & Hb & Hc)|[Hsmall ->]].
  { exists r, h', L'. split; [done|right]. split; [done|]. split; [|by left].
    intros z. rw Hc Hb. split; [by left|intros [?|?]; [done|lia]]. }
  destruct (morecore_run h L A n f1 Hok Hn) as [[Hfail ->]|(h1 & L1 & -> & Hok1 & He1 & Hlen1 & Hb1 & Hc1)]; [lia|..].
  { exists 0, h, L. split; [done|]. by left. }
  cbn [mbind option_bind]. rw (_ : h_freep h1 =? 0 = false).
  { destruct (freep_node _ _ _ Hok1) as (X2 & fr2 & Y2 & HN2 & ->).
    have := proj1 (gaps_nodes _) (ho_gaps _ _ _ Hok1). rw HN2. intros (_ & _ & ? & _)%gaps_split. lia. }
  assert (∃ f2, f1 = (S (length L1) + f2)%nat) as (f2 & ->) by (exists (f1 - S (length L1))%nat; lia).
  destruct (scan_circle h1 L1 A n f2 Hok1 Hn) as [(r & h' & L' & Hr & Hok' & Hb & Hc)|[Hsmall1 _]].
  { exists r, h', L'. split; [done|right]. split; [done|]. split; [intros z; by rw Hc Hc1 Hb|right; by rw Hb]. }
  exfalso. apply list.Exists_exists in He1 as (y & Hy & Hny). rw list.Forall_forall in Hsmall1.
  have := Hsmall1 y Hy. lia.
Qed.

(** A heap in use, or one that no call has touched. *)
Definition heap_inv (h : heap) (L A : list block) : Prop :=
  heap_ok h L A ∨ h_freep h = 0 ∧ L = [] ∧ A = [] ∧ base + HDR ≤ h_brk h ≤ LIMIT.

Lemma init_ok h L A : heap_inv h L A → heap_ok (init_heap base h) L A ∧ h_brk (init_heap base h) = h_brk h.
Proof.
  rw /init_heap. intros [Hok|(-> & -> & -> & Hb)].
  - rw (_ : h_freep h =? 0 = false); [|done]. destruct (freep_node _ _ _ Hok) as (X & fr & Y & HN & ->).
    have := proj1 (gaps_nodes _) (ho_gaps _ _ _ Hok). rw HN. intros (_ & _ & ? & _)%gaps_split. lia.
  - cbn. split; [|done]. split; [|done|by left|done..].
    cbn. rw /mset Z.eqb_refl. done.
Qed.

Lemma units_range nbytes : 0 ≤ nbytes < 2 ^ 32 → 1 ≤ units nbytes ∧ nbytes ≤ (units nbytes - 1) * HDR < nbytes + HDR.
Proof. intros H. rw /units /HDR u32_small; lia. Qed.

(** C12: [malloc] ends.  It returns a block of the header and the size asked for,
    rounded up to whole units and no more, disjoint from every block in use and
    from every free one; what it does not return of the block it cuts stays free,
    and the kernel is asked for memory only when no free block is large enough.
    Or it returns 0 with the blocks as they were, when none is large enough and the
    kernel refuses, as it does at the latest when the break would pass 64 GB. *)
Theorem malloc_correct h L A nbytes fuel :
  heap_inv h L A → 0 ≤ nbytes < 2 ^ 32 → (3 * length L + 6 ≤ fuel)%nat →
  ∃ r h' n, malloc base sbrk_fails fuel nbytes h = Some (r, h') ∧ nbytes ≤ (n - 1) * HDR < nbytes + HDR ∧
    (r = 0 ∧ heap_ok h' L A ∧ h_brk h' = h_brk h ∧ Forall (λ x, x.2 < n) L ∧ sbrk_fails (h_brk h) (chunk n * HDR) = true ∨
     ∃ L', heap_ok h' L' ((r - HDR, n) :: A) ∧ served h L n r h' L').
Proof.
  intros Hinv Hn Hf. destruct (init_ok h L A Hinv) as [Hok Hb]. destruct (units_range nbytes Hn) as [H1 H2].
  destruct (malloc_loop_run _ _ _ (units nbytes) fuel Hok H1 Hf) as (r & h' & L' & Hr & Hcase).
  exists r, h', (units nbytes). split; [exact Hr|]. split; [done|].
  destruct Hcase as [(-> & -> & Hs & Hfail)|[Hok' [Hc Hb']]].
  - left. rw Hb in Hfail. by split_and!.
  - right. exists L'. rw Hb in Hc, Hb'. split; [done|by split].
Qed.

(** *** [free] *)

Lemma pairwise_perm A A' : A ≡ₚ A' → pairwise A → pairwise A'.
Proof.
  induction 1 as [|x A A' HP IH|x y A|A A1 A2 _ IH1 _ IH2]; cbn; [done|..].
  - intros [H1 H2]. split; [by rewrite -HP|auto].
  - rw !list.Forall_cons. intros [[H1 H2] [H3 H4]]. split_and!; [|done..]. by destruct H1; [right|left].
  - auto.
Qed.

Lemma heap_ok_perm h L A A' : A ≡ₚ A' → heap_ok h L A → heap_ok h L A'.
Proof.
  intros HP [H1 H2 H3 H4 H5 H6 H7 H8]. split; [done..| | | | |done].
  - by rewrite -HP.
  - by rewrite -HP.
  - apply: (list.Forall_impl _ _ _ H6) => x. by rewrite HP.
  - by eapply pairwise_perm.
Qed.

(** C13: [free] ends.  It takes the block out of those in use; the free addresses
    are then exactly those that were free and those of the block, in a list that
    is again in order with no two adjacent blocks, and the break stays. *)
Theorem free_correct h L A A' b fuel :
  heap_ok h L A → A ≡ₚ b :: A' → (2 * length L + 2 < fuel)%nat →
  ∃ h' L', free fuel (b.1 + HDR) h = Some h' ∧ heap_ok h' L' A' ∧ h_brk h' = h_brk h ∧
    (∀ z, covers L' z ↔ covers L z ∨ b.1 ≤ z < bend b) ∧ (length L' ≤ S (length L))%nat.
Proof.
  intros Hok HP Hf. destruct (free_run h L b A' fuel) as (h' & L' & H1 & H2 & _ & H4 & H5 & H6);
    [by eapply heap_ok_perm|done|]. exists h', L'. split_and!; [done..| |done]. intros z. rw H6 covers_cons. tauto.
Qed.

End umalloc.

(** ** Witnesses *)

Definition sbrk_64g (brk n : Z) : bool := LIMIT <? brk + n.

Lemma sbrk_64g_limit brk n : sbrk_64g brk n = false → brk + n ≤ LIMIT.
Proof. rw /sbrk_64g. lia. Qed.

(** A process of two pages, its [base] in the first. *)
Definition heap0 : heap := mkHeap (λ _, 0) (λ _, 0) 0 8192.

Lemma heap0_inv : heap_inv 4000 heap0 [] [].
Proof. right. split; [done|]. split; [done|]. split; [done|]. rw /HDR /LIMIT. cbn. lia. Qed.

Lemma malloc_correct_witness :
  ∃ r h' n, malloc 4000 sbrk_64g 6 100 heap0 = Some (r, h') ∧ 100 ≤ (n - 1) * HDR < 100 + HDR ∧
    (r = 0 ∧ heap_ok 4000 h' [] [] ∧ h_brk h' = h_brk heap0 ∧ Forall (λ x : Z * Z, x.2 < n) [] ∧
       sbrk_64g (h_brk heap0) (chunk n * HDR) = true ∨
     ∃ L', heap_ok 4000 h' L' [(r - HDR, n)] ∧ served heap0 [] n r h' L').
Proof. apply (malloc_correct 4000 ltac:(lia) sbrk_64g sbrk_64g_limit heap0 [] [] 100 6 heap0_inv); [lia|cbn; lia]. Defined.

(** One free block, below one in use. *)
Definition heap1 : heap :=
  mkHeap (mset 4000 8192 (mset 8192 4000 (λ _, 0))) (mset 8192 10 (mset 8352 20 (λ _, 0))) 8192 8672.

Lemma heap1_ok : heap_ok 4000 heap1 [(8192, 10)] [(8352, 20)].
Proof.
  split.
  - vm_compute. done.
  - vm_compute. done.
  - right. left.
  - repeat constructor; vm_compute; done.
  - by repeat constructor.
  - constructor; [|done]. constructor; [|done]. left. vm_compute. done.
  - done.
  - vm_compute. done.
Qed.

Lemma free_correct_witness :
  ∃ h' L', free 6 (8352 + HDR) heap1 = Some h' ∧ heap_ok 4000 h' L' [] ∧ h_brk h' = 8672 ∧
    (∀ z, covers L' z ↔ covers [(8192, 10)] z ∨ 8352 ≤ z < bend (8352, 20)) ∧ (length L' ≤ 2)%nat.
Proof. apply (free_correct 4000 ltac:(lia) heap1 [(8192, 10)] [(8352, 20)] [] (8352, 20) 6 heap1_ok); [reflexivity|cbn; lia]. Defined.
