(* ===== verification/Programs.v ===== *)
(** * User programs: cat, echo, kill, ln, mkdir, rm, ls, wc, init, zombie

    The programs call the kernel through the class [Syscalls], one method for
    each call they make; [exit] ends a program and is the outcome
    [Panic "exit"].  [printf] writes what Printf.v's [printf] gives, a byte a
    call, and a program's [argv] is the list of its arguments.

    The theorems are about any system with the laws of [FileLaws], which say what
    the calls do to the files, to the descriptors and to the standard output:
    cat writes the contents of the files it is given, one after the other, and
    stops at the first it cannot open; echo writes its arguments; rm removes its
    arguments up to the first that is not there.  [world] is such a system. *)

From S2P Require Import Prelude CString Kernel Fs Printf TextTools.

Definition T_DIR : Z := 1.
Definition T_FILE : Z := 2.
Definition O_RDONLY : Z := 0.
Definition O_RDWR : Z := 2.
Definition DIRSIZ : Z := 14.
Definition SLASH : Z := 47.
Definition BLANK : Z := 32.

(** user.h *)
Class Syscalls (W : Type) := {
  sys_read : Z → Z → M W (Z * list Z);
  sys_write : Z → list Z → M W Z;
  sys_open : list Z → Z → M W Z;
  sys_close : Z → M W Z;
  sys_fstat : Z → M W (Z * stat);
  sys_unlink : list Z → M W Z;
  sys_mkdir : list Z → M W Z;
  sys_link : list Z → list Z → M W Z;
  sys_mknod : list Z → Z → Z → M W Z;
  sys_dup : Z → M W Z;
  sys_kill : Z → M W Z;
  sys_fork : M W Z;
  sys_wait : M W Z;
  sys_exec : list Z → list (list Z) → M W Z;
  sys_sleep : Z → M W Z;
}.

Section programs.
Context {W : Type} `{!Syscalls W}.

Definition exit {A} : M W A := panic "exit".

Fixpoint putcs (fd : Z) (l : list Z) : M W unit :=
  match l with [] => mret tt | c :: l => sys_write fd [c];; putcs fd l end.

(** A format, ended by a newline. *)
Definition line (fmt : string) (nl : bool) : list Z := codes fmt ++ if nl then [10] else [].

Definition printf (fd : Z) (fmt : string) (nl : bool) (ap : list varg) : M W unit :=
  match Printf.printf (line fmt nl) ap with
  | Some out => putcs fd out
  | None => fault
  end.

(** ** cat.c *)

Fixpoint cat (fuel : nat) (fd : Z) : M W unit :=
  match fuel with
  | O => diverge
  | S fuel =>
    r ← sys_read fd 512;
    if r.1 >? 0 then
      k ← sys_write 1 (take (Z.to_nat r.1) r.2);
      if negb (k =? r.1) then printf 1 "cat: write error" true [];; exit
      else cat fuel fd
    else if r.1 <? 0 then printf 1 "cat: read error" true [];; exit
    else mret tt
  end.

Fixpoint cat_files (fuel : nat) (argv : list (list Z)) : M W unit :=
  match argv with
  | [] => exit
  | a :: argv =>
    fd ← sys_open a 0;
    if fd <? 0 then printf 1 "cat: cannot open %s" true [VStr (Some a)];; exit
    else cat fuel fd;; sys_close fd;; cat_files fuel argv
  end.

Definition cat_main (fuel : nat) (argv : list (list Z)) : M W unit :=
  match argv with [] => cat fuel 0;; exit | _ => cat_files fuel argv end.

(** ** echo.c *)

Fixpoint echo_args (argv : list (list Z)) : M W unit :=
  match argv with
  | [] => exit
  | a :: argv =>
    printf 1 "%s%s" false [VStr (Some a); VStr (Some (if bool_decide (argv = []) then [10] else [BLANK]))];;
    echo_args argv
  end.
Definition echo_main (argv : list (list Z)) : M W unit := echo_args argv.

(** ** kill.c, ln.c, mkdir.c, rm.c *)

Fixpoint kill_args (argv : list (list Z)) : M W unit :=
  match argv with
  | [] => exit
  | a :: argv =>
    match atoi (S (length a)) (nthZ a) with
    | Some pid => sys_kill pid;; kill_args argv
    | None => diverge
    end
  end.
Definition kill_main (argv : list (list Z)) : M W unit :=
  match argv with [] => printf 2 "usage: kill pid..." true [];; exit | _ => kill_args argv end.

Definition ln_main (argv : list (list Z)) : M W unit :=
  match argv with
  | [old; new] =>
    r ← sys_link old new;
    when (r <? 0) (printf 2 "link %s %s: failed" true [VStr (Some old); VStr (Some new)]);;
    exit
  | _ => printf 2 "Usage: ln old new" true [];; exit
  end.

Fixpoint mkdir_args (argv : list (list Z)) : M W unit :=
  match argv with
  | [] => exit
  | a :: argv =>
    r ← sys_mkdir a;
    if r <? 0 then printf 2 "mkdir: %s failed to create" true [VStr (Some a)];; exit else mkdir_args argv
  end.
Definition mkdir_main (argv : list (list Z)) : M W unit :=
  match argv with [] => printf 2 "Usage: mkdir files..." true [];; exit | _ => mkdir_args argv end.

Fixpoint rm_args (argv : list (list Z)) : M W unit :=
  match argv with
  | [] => exit
  | a :: argv =>
    r ← sys_unlink a;
    if r <? 0 then printf 2 "rm: %s failed to delete" true [VStr (Some a)];; exit else rm_args argv
  end.
Definition rm_main (argv : list (list Z)) : M W unit :=
  match argv with [] => printf 2 "Usage: rm files..." true [];; exit | _ => rm_args argv end.

(** ** ulib.c *)

Definition stat_ (n : list Z) : M W (Z * option stat) :=
  fd ← sys_open n O_RDONLY;
  if fd <? 0 then mret (-1, None) else
  r ← sys_fstat fd;
  sys_close fd;;
  mret (r.1, Some r.2).

(** [gets] into a buffer of [max] bytes, of which [i] are filled: the string. *)
Fixpoint gets_loop (fuel : nat) (max i : Z) : M W (list Z) :=
  match fuel with
  | O => diverge
  | S fuel =>
    if i + 1 <? max then
      r ← sys_read 0 1;
      if r.1 <? 1 then mret [] else
      let c := nthZ r.2 0 in
      if (c =? 10) || (c =? 13) then mret [c] else
      l ← gets_loop fuel max (i + 1);
      mret (c :: l)
    else mret []
  end.
Definition gets_ (max : Z) : M W (list Z) := gets_loop (Z.to_nat max + 1) max 0.

(** ** ls.c *)

(** The first position after the last slash; [k] is [p + 1]. *)
Fixpoint after_slash (k : nat) (path : list Z) : nat :=
  match k with
  | O => O
  | S k' => if nthZ path (Z.of_nat k') =? SLASH then k else after_slash k' path
  end.

Definition fmtname (path : list Z) : list Z :=
  let p := drop (after_slash (S (length path)) path) path in
  if lenZ p >=? DIRSIZ then p else p ++ replicate (Z.to_nat (DIRSIZ - lenZ p)) BLANK.

Definition ls_line (path : list Z) (st : stat) : M W unit :=
  printf 1 "%s %d %d %d" true [VStr (Some (fmtname path)); VInt (st_type st); VInt (st_ino st); VInt (st_fsize st)].

(** The entries of the directory open as [fd]. *)
Fixpoint ls_entries (fuel : nat) (path : list Z) (fd : Z) : M W unit :=
  match fuel with
  | O => diverge
  | S fuel =>
    r ← sys_read fd sizeof_dirent;
    if negb (r.1 =? sizeof_dirent) then mret tt else
    if de_inum r.2 =? 0 then ls_entries fuel path fd else
    let buf := path ++ [SLASH] ++ cname (Z.to_nat DIRSIZ) (nthZ (de_name r.2)) 0 in
    s ← stat_ buf;
    match s with
    | (k, Some st) =>
      (if k <? 0 then printf 1 "ls: cannot stat %s" true [VStr (Some buf)] else ls_line buf st);;
      ls_entries fuel path fd
    | (_, None) => printf 1 "ls: cannot stat %s" true [VStr (Some buf)];; ls_entries fuel path fd
    end
  end.

Definition ls (fuel : nat) (path : list Z) : M W unit :=
  fd ← sys_open path 0;
  if fd <? 0 then printf 2 "ls: cannot open %s" true [VStr (Some path)] else
  r ← sys_fstat fd;
  if r.1 <? 0 then printf 2 "ls: cannot stat %s" true [VStr (Some path)];; sys_close fd;; mret tt else
  (if st_type r.2 =? T_FILE then ls_line path r.2
   else if st_type r.2 =? T_DIR then
     if lenZ path + 1 + DIRSIZ + 1 >? 512 then printf 1 "ls: path too long" true []
     else ls_entries fuel path fd
   else mret tt);;
  sys_close fd;; mret tt.

Fixpoint ls_args (fuel : nat) (argv : list (list Z)) : M W unit :=
  match argv with [] => exit | a :: argv => ls fuel a;; ls_args fuel argv end.
Definition ls_main (fuel : nat) (argv : list (list Z)) : M W unit :=
  match argv with [] => ls fuel [46];; exit | _ => ls_args fuel argv end.

(** ** wc.c *)

Fixpoint wc_reads (fuel : nat) (fd : Z) (k : Wc.counts) : M W (Z * Wc.counts) :=
  match fuel with
  | O => diverge
  | S fuel =>
    r ← sys_read fd 512;
    if r.1 >? 0 then wc_reads fuel fd (foldl Wc.wc_char k (take (Z.to_nat r.1) r.2)) else mret (r.1, k)
  end.

Definition wc (fuel : nat) (fd : Z) (name : list Z) : M W unit :=
  r ← wc_reads fuel fd (Wc.mkCounts 0 0 0 false);
  if r.1 <? 0 then printf 1 "wc: read error" true [];; exit else
  printf 1 "%d %d %d %s" true [VInt (Wc.n_l r.2); VInt (Wc.n_w r.2); VInt (Wc.n_c r.2); VStr (Some name)].

Fixpoint wc_files (fuel : nat) (argv : list (list Z)) : M W unit :=
  match argv with
  | [] => exit
  | a :: argv =>
    fd ← sys_open a 0;
    if fd <? 0 then printf 1 "wc: cannot open %s" true [VStr (Some a)];; exit
    else wc fuel fd a;; sys_close fd;; wc_files fuel argv
  end.
Definition wc_main (fuel : nat) (argv : list (list Z)) : M W unit :=
  match argv with [] => wc fuel 0 [];; exit | _ => wc_files fuel argv end.

(** ** init.c, zombie.c *)

Definition console : list Z := codes "console".
Definition sh : list Z := codes "sh".

Fixpoint init_wait (fuel : nat) (pid : Z) : M W unit :=
  match fuel with
  | O => diverge
  | S fuel =>
    wpid ← sys_wait;
    if (wpid >=? 0) && negb (wpid =? pid) then printf 1 "zombie!" true [];; init_wait fuel pid else mret tt
  end.

(** A shell for each unit of [fuel], and as many waits for each. *)
Fixpoint init_loop (fuel : nat) : M W unit :=
  match fuel with
  | O => diverge
  | S fuel' =>
    printf 1 "init: starting sh" true [];;
    pid ← sys_fork;
    if pid <? 0 then printf 1 "init: fork failed" true [];; exit else
    if pid =? 0 then sys_exec sh [sh];; printf 1 "init: exec sh failed" true [];; exit else
    init_wait fuel pid;;
    init_loop fuel'
  end.

Definition init_main (fuel : nat) : M W unit :=
  fd ← sys_open console O_RDWR;
  when (fd <? 0) (sys_mknod console 1 1;; sys_open console O_RDWR;; mret tt);;
  sys_dup 0;;
  sys_dup 0;;
  init_loop fuel.

Definition zombie_main : M W unit :=
  pid ← sys_fork;
  when (pid >? 0) (sys_sleep 5;; mret tt);;
  exit.

End programs.

(** ** What the calls promise *)

(** [files] are the files there are, [remaining fd] is what is left to read from
    an open descriptor, and [written] what went to the standard output. *)
Class FileLaws (W : Type) `{!Syscalls W} := {
  files : W → gmap (list Z) (list Z);
  remaining : W → Z → option (list Z);
  written : W → list Z;
  law_read w fd n l : remaining w fd = Some l → 0 < n →
    ∃ k w', sys_read fd n w = Ret (lenZ (take k l), take k l) w' ∧ lenZ (take k l) ≤ n ∧ (l ≠ [] → k ≠ O) ∧
      remaining w' fd = Some (drop k l) ∧ files w' = files w ∧ written w' = written w;
  law_write w fd bs : fd = 1 ∨ fd = 2 →
    ∃ w', sys_write fd bs w = Ret (lenZ bs) w' ∧ written w' = (if fd =? 1 then written w ++ bs else written w) ∧
      files w' = files w ∧ remaining w' = remaining w;
  law_open w p l : files w !! p = Some l →
    ∃ fd w', sys_open p 0 w = Ret fd w' ∧ 0 ≤ fd ∧ remaining w' fd = Some l ∧ files w' = files w ∧ written w' = written w;
  law_open_missing w p : files w !! p = None →
    ∃ w', sys_open p 0 w = Ret (-1) w' ∧ files w' = files w ∧ written w' = written w;
  law_close w fd l : remaining w fd = Some l → ∃ w', sys_close fd w = Ret 0 w' ∧ files w' = files w ∧ written w' = written w;
  law_unlink w p l : files w !! p = Some l → ∃ w', sys_unlink p w = Ret 0 w' ∧ files w' = delete p (files w) ∧ written w' = written w;
  law_unlink_missing w p : files w !! p = None → ∃ w', sys_unlink p w = Ret (-1) w' ∧ files w' = files w ∧ written w' = written w;
}.

Section laws.
Context {W : Type} `{!Syscalls W, !FileLaws W}.
Implicit Types (w : W) (fd : Z) (l : list Z).

Lemma putcs_run fd l w :
  fd = 1 ∨ fd = 2 →
  ∃ w', putcs fd l w = Ret tt w' ∧ written w' = (if fd =? 1 then written w ++ l else written w) ∧ files w' = files w ∧
    remaining w' = remaining w.
Proof.
  intros Hfd. revert w. induction l as [|c l IH]; intros w; cbn [putcs].
  - exists w. split; [done|]. rw app_nil_r. by destruct (fd =? 1).
  - destruct (law_write w fd [c] Hfd) as (w1 & Hr & Hw & Hf & Hm). destruct (IH w1) as (w' & Hr' & Hw' & Hf' & Hm').
    exists w'. rw (run_bind _ _ _ _ _ Hr) Hr' Hw' Hw Hf' Hf Hm' Hm. split; [done|]. split; [|done].
    destruct (fd =? 1); [|done]. by rw -app_assoc.
Qed.

Lemma printf_run fd fmt nl ap out w :
  fd = 1 ∨ fd = 2 → Printf.printf (line fmt nl) ap = Some out →
  ∃ w' : W, printf fd fmt nl ap w = Ret tt w' ∧ written w' = (if fd =? 1 then written w ++ out else written w) ∧ files w' = files w.
Proof.
  intros Hfd Hp. destruct (putcs_run fd out w Hfd) as (w' & Hr & Hw & Hf & _). exists w'. by rw /printf Hp.
Qed.

(** *** cat *)

Lemma cat_run fuel fd l w :
  remaining w fd = Some l → (length l < fuel)%nat →
  ∃ w', cat fuel fd w = Ret tt w' ∧ written w' = written w ++ l ∧ files w' = files w ∧ remaining w' fd = Some [].
Proof.
  revert l w. induction fuel as [|fuel IH]; intros l w Hl Hf; [lia|]. cbn [cat].
  destruct (law_read w fd 512 l Hl ltac:(done)) as (k & w1 & Hr & Hk & Hne & Hm & Hfs & Hw). rw (run_bind _ _ _ _ _ Hr).
  cbn [fst snd]. destruct l as [|c l].
  - rw take_nil. exists w1. split; [done|]. rw app_nil_r Hm drop_nil. done.
  - destruct k as [|k]; [by destruct Hne|]. assert (0 < lenZ (take (S k) (c :: l))) as Hp by (cbn [take length]; lia).
    rw (_ : lenZ (take (S k) (c :: l)) >? 0 = true); [lia|].
    rw Nat2Z.id firstn_all. destruct (law_write w1 1 (take (S k) (c :: l)) (or_introl eq_refl)) as (w2 & Hr2 & Hw2 & Hf2 & Hm2).
    rw (run_bind _ _ _ _ _ Hr2) Z.eqb_refl. cbn [negb]. rewrite -Hm2 in Hm.
    destruct (IH _ _ Hm) as (w' & Hr' & Hw' & Hf' & Hm'); [cbn in *; rw length_drop; lia|].
    exists w'. split; [done|]. rw Hw' Hw2 Hw Hf' Hf2 Hfs -app_assoc take_drop. done.
Qed.

Lemma cat_files_run fuel pre ls rest w :
  Forall2 (λ a l, files w !! a = Some l) pre ls → Forall (λ l, (length l < fuel)%nat) ls →
  ∃ w', cat_files fuel (pre ++ rest) w = cat_files fuel rest w' ∧ written w' = written w ++ concat ls ∧ files w' = files w.
Proof.
  revert ls w. induction pre as [|a pre IH]; intros ls w Hf Hl.
  { apply Forall2_nil_inv_l in Hf as ->. exists w. by rw app_nil_r. }
  apply Forall2_cons_inv_l in Hf as (l & ls' & Ha & Hf & ->). apply list.Forall_cons in Hl as [Hl Hls]. cbn [app cat_files].
  destruct (law_open w a l Ha) as (fd & w1 & Hr1 & Hfd & Hm1 & Hf1 & Hw1). rw (run_bind _ _ _ _ _ Hr1).
  rw (_ : fd <? 0 = false); [lia|]. destruct (cat_run fuel fd l w1 Hm1 Hl) as (w2 & Hr2 & Hw2 & Hf2 & Hm2).
  rw (run_bind _ _ _ _ _ Hr2). destruct (law_close w2 fd [] Hm2) as (w3 & Hr3 & Hf3 & Hw3). rw (run_bind _ _ _ _ _ Hr3).
  assert (files w3 = files w) as E by congruence. rewrite -E in Hf. destruct (IH ls' w3 Hf Hls) as (w' & -> & Hw' & Hf').
  exists w'. split; [done|]. split; [|congruence]. cbn [concat]. by rw Hw' Hw3 Hw2 Hw1 -app_assoc.
Qed.

(** C37: cat writes the contents of the files it is given, one after the other, in
    however small pieces the reads return them; the first file that cannot be
    opened ends it with a message. *)
Theorem cat_correct fuel argv ls w :
  argv ≠ [] → Forall2 (λ a l, files w !! a = Some l) argv ls → Forall (λ l, (length l < fuel)%nat) ls →
  (∃ w', cat_main fuel argv w = Panic "exit" w' ∧ written w' = written w ++ concat ls ∧ files w' = files w) ∧
  (∀ bad rest, files w !! bad = None → ∃ w', cat_main fuel (argv ++ bad :: rest) w = Panic "exit" w' ∧
     written w' = written w ++ concat ls ++ codes "cat: cannot open " ++ bad ++ [10] ∧ files w' = files w).
Proof.
  intros Hne Hf Hl. split.
  - destruct (cat_files_run fuel argv ls [] w Hf Hl) as (w' & Hr & Hw & Hfs). exists w'. split; [|done].
    rw app_nil_r in Hr. destruct argv; [done|exact Hr].
  - intros bad rest Hb. destruct (cat_files_run fuel argv ls (bad :: rest) w Hf Hl) as (w1 & Hr & Hw & Hfs).
    destruct (law_open_missing w1 bad) as (w2 & Hr2 & Hf2 & Hw2); [by rw Hfs|].
    destruct (printf_run 1 "cat: cannot open %s" true [VStr (Some bad)] (codes "cat: cannot open " ++ bad ++ [10]) w2) as (w3 & Hr3 & Hw3 & Hf3);
      [by left|reflexivity|].
    exists w3. split; [|split; [|congruence]].
    + assert (cat_main fuel (argv ++ bad :: rest) w = cat_files fuel (bad :: rest) w1) as -> by by destruct argv.
      cbn [cat_files]. rw (run_bind _ _ _ _ _ Hr2). cbn [Z.ltb Z.compare]. by rw (run_bind _ _ _ _ _ Hr3).
    + cbn [Z.eqb Pos.eqb] in Hw3. by rw Hw3 Hw2 Hw -app_assoc.
Qed.

(** *** echo *)

Fixpoint join (args : list (list Z)) : list Z :=
  match args with [] => [] | [a] => a ++ [10] | a :: args => a ++ BLANK :: join args end.

Lemma echo_run argv w :
  ∃ w', echo_main argv w = Panic "exit" w' ∧ written w' = written w ++ join argv ∧ files w' = files w.
Proof.
  revert w. induction argv as [|a argv IH]; intros w; [exists w; by rw app_nil_r|]. cbn [echo_main echo_args].
  set c := if bool_decide _ then _ else _.
  destruct (printf_run 1 "%s%s" false [VStr (Some a); VStr (Some c)] (a ++ c ++ []) w) as (w1 & Hr & Hw & Hf); [by left|reflexivity|].
  rw (run_bind _ _ _ _ _ Hr). destruct (IH w1) as (w' & Hr' & Hw' & Hf'). exists w'. split; [done|]. split; [|congruence].
  cbn [Z.eqb Pos.eqb] in Hw. rw Hw' Hw -app_assoc app_nil_r. f_equal. rw -app_assoc. destruct argv; [|done]. cbn [join]. by rw app_nil_r.
Qed.

(** *** rm *)

Lemma rm_args_run pre rest w :
  NoDup pre → (∀ a, a ∈ pre → is_Some (files w !! a)) →
  ∃ w', rm_args (pre ++ rest) w = rm_args rest w' ∧ (∀ q, files w' !! q = if decide (q ∈ pre) then None else files w !! q).
Proof.
  revert w. induction pre as [|a pre IH]; intros w Hnd Hin.
  { exists w. split; [done|]. intros q. case_decide as Hq; [|done]. by apply not_elem_of_nil in Hq. }
  apply list.NoDup_cons in Hnd as [Ha Hnd]. destruct (Hin a) as [l Hl]; [left|]. cbn [app rm_args].
  destruct (law_unlink w a l Hl) as (w1 & Hr & Hf & _). rw (run_bind _ _ _ _ _ Hr). cbn [Z.ltb Z.compare].
  destruct (IH w1 Hnd) as (w' & Hr' & Hq).
  { intros b Hb. rw Hf lookup_delete_ne; [by intros ->|]. apply Hin. by right. }
  exists w'. split; [done|]. intros q. rw Hq Hf. destruct (decide (q = a)) as [->|Hne].
  - rw lookup_delete_eq. repeat case_decide; try done. by destruct H0; left.
  - rw lookup_delete_ne //. do 2 case_decide; try done; set_solver.
Qed.

(** rm removes its arguments; the first that is not there stops it, and what
    comes after it is kept. *)
Theorem rm_correct argv w :
  argv ≠ [] → NoDup argv → (∀ a, a ∈ argv → is_Some (files w !! a)) →
  (∃ w', rm_main argv w = Panic "exit" w' ∧ ∀ q, files w' !! q = if decide (q ∈ argv) then None else files w !! q) ∧
  (∀ bad rest, files w !! bad = None → ∃ w', rm_main (argv ++ bad :: rest) w = Panic "exit" w' ∧
     ∀ q, files w' !! q = if decide (q ∈ argv) then None else files w !! q).
Proof.
  intros Hne Hnd Hin. split.
  - destruct (rm_args_run argv [] w Hnd Hin) as (w' & Hr & Hq). exists w'. split; [|done].
    rw app_nil_r in Hr. destruct argv; [done|exact Hr].
  - intros bad rest Hb. destruct (rm_args_run argv (bad :: rest) w Hnd Hin) as (w1 & Hr & Hq).
    destruct (law_unlink_missing w1 bad) as (w2 & Hr2 & Hf2 & _); [rw Hq Hb; by case_decide|].
    destruct (printf_run 2 "rm: %s failed to delete" true [VStr (Some bad)] (codes "rm: " ++ bad ++ codes " failed to delete" ++ [10]) w2)
      as (w3 & Hr3 & _ & Hf3); [by right|reflexivity|].
    exists w3. split; [|by rw Hf3 Hf2].
    assert (rm_main (argv ++ bad :: rest) w = rm_args (bad :: rest) w1) as -> by by destruct argv.
    cbn [rm_args]. rw (run_bind _ _ _ _ _ Hr2). cbn [Z.ltb Z.compare]. by rw (run_bind _ _ _ _ _ Hr3).
Qed.

End laws.

(** *** ls *)

Lemma after_slash_spec k path :
  (after_slash k path ≤ k)%nat ∧ (after_slash k path = O ∨ nthZ path (Z.of_nat (after_slash k path) - 1) = SLASH) ∧
  ∀ j : nat, (after_slash k path ≤ j < k)%nat → nthZ path (Z.of_nat j) ≠ SLASH.
Proof.
  induction k as [|k (IH1 & IH2 & IH3)]; cbn [after_slash]; [split; [lia|]; split; [by left|lia]|].
  destruct (Z.eqb_spec (nthZ path (Z.of_nat k)) SLASH) as [E|E].
  - split; [lia|]. split; [right; by rw (_ : Z.of_nat (S k) - 1 = Z.of_nat k); [lia|]|lia].
  - split; [lia|]. split; [done|]. intros j Hj. destruct (decide (j = k)) as [->|]; [done|]. apply IH3. lia.
Qed.

(** [fmtname] gives what follows the last slash of the path, padded with blanks
    to the width of a name. *)
Theorem fmtname_correct path :
  ∃ dir name, path = dir ++ name ∧ (dir = [] ∨ list.last dir = Some SLASH) ∧ SLASH ∉ name ∧
    fmtname path = name ++ replicate (Z.to_nat DIRSIZ - length name) BLANK.
Proof.
  rw /fmtname. destruct (after_slash_spec (S (length path)) path) as (H1 & H2 & H3). set r := after_slash _ path in H1 H2 H3 |- *.
  exists (take r path), (drop r path). split; [by rw take_drop|].
  assert (r ≤ length path)%nat as Hr.
  { destruct (decide (r = S (length path))) as [E|]; [|lia]. destruct H2 as [|H2]; [lia|].
    rw /nthZ nth_overflow in H2; [lia|done]. }
  split; [|split].
  - destruct H2 as [->|H2]; [by left|]. destruct (decide (r = O)) as [->|]; [by left|]. right. rw last_lookup length_take.
    rw lookup_take decide_True; [lia|]. rw (_ : Nat.pred (r `min` length path) = Z.to_nat (Z.of_nat r - 1)); [lia|].
    rw /nthZ in H2. rewrite nth_lookup in H2. by destruct (path !! Z.to_nat (Z.of_nat r - 1)) as [x|]; simpl in H2; subst.
  - intros (j & Hj)%list_elem_of_lookup. rw lookup_drop in Hj. apply (H3 (r + j)%nat).
    + apply lookup_lt_Some in Hj. lia.
    + by rw /nthZ nth_lookup Nat2Z.id Hj.
  - case_match eqn:E.
    + rw (_ : (Z.to_nat DIRSIZ - length (drop r path))%nat = O); [rw /DIRSIZ in E |- *; lia|]. by rw app_nil_r.
    + do 2 f_equal. rw /DIRSIZ. lia.
Qed.

(** ** A system with these laws *)

(** A read gives at most [wd_piece] bytes, and at least one. *)
Record world := mkWorld {
  wd_files : gmap (list Z) (list Z);
  wd_open : gmap Z (list Z);
  wd_out : list Z;
  wd_piece : nat;
}.

Definition fresh_fd (w : world) : Z := 1 + foldr Z.max 2 (elements (dom (wd_open w))).

#[global] Instance world_calls : Syscalls world := {|
  sys_read fd n w :=
    match wd_open w !! fd with
    | Some l => let k := Nat.min (Z.to_nat n) (S (wd_piece w)) in
                Ret (lenZ (take k l), take k l) (mkWorld (wd_files w) (<[fd := drop k l]> (wd_open w)) (wd_out w) (wd_piece w))
    | None => Ret (-1, []) w
    end;
  sys_write fd bs w := Ret (lenZ bs) (if fd =? 1 then mkWorld (wd_files w) (wd_open w) (wd_out w ++ bs) (wd_piece w) else w);
  sys_open p mode w :=
    match wd_files w !! p with
    | Some l => Ret (fresh_fd w) (mkWorld (wd_files w) (<[fresh_fd w := l]> (wd_open w)) (wd_out w) (wd_piece w))
    | None => Ret (-1) w
    end;
  sys_close fd w := Ret 0 (mkWorld (wd_files w) (delete fd (wd_open w)) (wd_out w) (wd_piece w));
  sys_fstat fd w := Ret (-1, mkStat 0 0 0 0 0) w;
  sys_unlink p w :=
    match wd_files w !! p with
    | Some _ => Ret 0 (mkWorld (delete p (wd_files w)) (wd_open w) (wd_out w) (wd_piece w))
    | None => Ret (-1) w
    end;
  sys_mkdir p w := Ret (-1) w;
  sys_link p q w := Ret (-1) w;
  sys_mknod p a b w := Ret (-1) w;
  sys_dup fd w := Ret (-1) w;
  sys_kill pid w := Ret (-1) w;
  sys_fork w := Ret (-1) w;
  sys_wait w := Ret (-1) w;
  sys_exec p argv w := Ret (-1) w;
  sys_sleep n w := Ret 0 w;
|}.

Lemma fresh_fd_pos w : 0 ≤ fresh_fd w.
Proof. rw /fresh_fd. assert (∀ l, 2 ≤ foldr Z.max 2 l) as H; [|specialize (H (elements (dom (wd_open w)))); lia]. induction l; cbn; lia. Qed.

#[global] Instance world_laws : FileLaws world.
Proof.
  refine {| files := wd_files; remaining := λ w fd, wd_open w !! fd; written := wd_out |}.
  - intros w fd n l Hl Hn. exists (Nat.min (Z.to_nat n) (S (wd_piece w))). eexists. cbn. rw Hl. split; [done|]. split_and!.
    + rw length_take. lia.
    + lia.
    + apply lookup_insert_eq.
    + done.
    + done.
  - intros w fd bs [->| ->]; eexists; done.
  - intros w p l Hp. exists (fresh_fd w). eexists. cbn. rw Hp. split; [done|]. split; [apply fresh_fd_pos|]. split; [apply lookup_insert_eq|done].
  - intros w p Hp. exists w. cbn. by rw Hp.
  - intros w fd l Hl. by eexists.
  - intros w p l Hp. eexists. cbn. by rw Hp.
  - intros w p Hp. exists w. cbn. by rw Hp.
Defined.

Definition world0 : world := mkWorld {[ [97] := codes "hello "; [98] := codes "world" ]} ∅ [] 1.

Lemma cat_correct_witness :
  ∃ w', cat_main 10 [[97]; [98]; [99]; [97]] world0 = Panic "exit" w' ∧ wd_out w' = codes "hello worldcat: cannot open c" ++ [10].
Proof.
  destruct (cat_correct 10 [[97]; [98]] [codes "hello "; codes "world"] world0) as [_ H]; [done|by repeat constructor|repeat constructor; cbn; lia|].
  destruct (H [99] [[97]]) as (w' & Hr & Hw & _); [done|]. exists w'. split; [exact Hr|exact Hw].
Defined.

Lemma rm_correct_witness : ∃ w', rm_main [[98]; [99]; [97]] world0 = Panic "exit" w' ∧ wd_files w' !! [97] = Some (codes "hello ").
Proof.
  destruct (rm_correct [[98]] world0) as [_ H]; [done|by apply (bool_decide_eq_true _)|by intros a ->%list_elem_of_singleton; eexists|].
  destruct (H [99] [[97]]) as (w' & Hr & Hq); [done|]. exists w'. split; [exact Hr|]. exact (Hq [97]).
Defined.
