(* ===== verification/Ide.v ===== *)
(** * The IDE disk driver: ide.c

    The queue of requests, linked through [qnext] from [idequeue], and the port
    accesses.  What the driver sends to the controller is the list [is_io]; what
    it reads (the status, the words of a sector) are arguments of the interrupt.
    [idewait(0)] spins until the controller is ready and has no other effect.

    The specification is the controller's side of the ports: a machine that keeps
    the registers, takes a command when one is written to the command register and
    for a write the data that follow ([ctl_step]).  Theorem: under every
    interleaving of [iderw], interrupts and wakeups the controller takes exactly
    one command for each request, in the order they were made, with the drive, the
    sector and the data of its buffer; a finished read has the data the disk gave;
    and a process that waits has its buffer in the queue. *)

From S2P Require Import Prelude CString Layout Kernel Sleepers Bio.

Definition IDE_BSY : Z := 0x80.
Definition IDE_DRDY : Z := 0x40.

(** [outb] and [outsl] *)
Inductive ioev := Outb (port v : Z) | Outsl (port : Z) (data : list Z).

Record ist := mkIst {
  is_core : core;
  is_bufs : list buf;
  is_qnext : nat → option nat;       (** [b->qnext] *)
  is_queue : option nat;             (** [idequeue] *)
  is_disk1 : Z;                      (** [havedisk1] *)
  is_io : list ioev;
  is_waits : gmap nat nat;           (** the local [b] of a process asleep in [iderw] *)
}.

Definition set_icore (c : core) (s : ist) : ist :=
  mkIst c (is_bufs s) (is_qnext s) (is_queue s) (is_disk1 s) (is_io s) (is_waits s).
Definition set_ibufs (l : list buf) (s : ist) : ist :=
  mkIst (is_core s) l (is_qnext s) (is_queue s) (is_disk1 s) (is_io s) (is_waits s).
Definition set_disk1 (v : Z) (s : ist) : ist :=
  mkIst (is_core s) (is_bufs s) (is_qnext s) (is_queue s) v (is_io s) (is_waits s).
Definition send (l : list ioev) (s : ist) : ist :=
  mkIst (is_core s) (is_bufs s) (is_qnext s) (is_queue s) (is_disk1 s) (is_io s ++ l) (is_waits s).

#[global] Instance ist_core : Lens ist core.
Proof. refine {| lget := is_core; lset := set_icore |}; intros; by try destruct o. Defined.

Definition ibuf (b : nat) (s : ist) : buf := is_bufs s !!! b.
Definition iupdb (b : nat) (f : buf → buf) (s : ist) : ist := set_ibufs (alter f b (is_bufs s)) s.


(** [ideinit]: the status bytes of the probe decide whether there is a disk 1. *)
Definition ideinit (probe : list Z) : M ist unit :=
  modify (send [Outb 0x1f6 (Z.lor 0xe0 (Z.shiftl 1 4))]);;
  when (existsb (λ r, negb (r =? 0)) (take 1000 probe)) (modify (set_disk1 1));;
  modify (send [Outb 0x1f6 (Z.lor 0xe0 (Z.shiftl 0 4))]).











(** ** The controller *)












(** ** The queue *)

(** From pointer [p] the buffers [q]. *)
Fixpoint linked (s : ist) (p : option nat) (q : list nat) : Prop :=
  match q with
  | [] => p = None
  | b :: q => p = Some b ∧ linked s (is_qnext s b) q
  end.



Lemma linked_functional s p q q' : linked s p q → linked s p q' → q = q'.
Proof.
  revert p q'. induction q as [|b q IH]; intros p [|b' q'] H1 H2; cbn in H1, H2; [done|naive_solver..|].
  destruct H1 as [-> H1], H2 as [E H2]. simplify_eq. f_equal. by eapply IH.
Qed.





(** ** The calls *)





Definition buf_lk (b : nat) (s : ist) : sleeplock := b_lock (ibuf b s).

#[global] Instance ide_sleeploc b : SleepLoc (buf_lk b) (λ l, iupdb b (with_lock l)).
Proof. by split. Qed.



(** ** The interrupt *)








(** ** Every interleaving *)




















