(* ===== verification/Mkfs.v ===== *)
(** * Building a file system image: mkfs.c

    The host program that lays out the initial file system.  The image is a file
    of sectors, [m_img], of which the first [m_len] exist; a sector inside the
    file that was never written reads as zeroes.  The host writes the sectors it
    is asked to, is little-endian as the machines xv6 runs on are, and gives the
    contents of each input file in pieces, as [read] returns them, or no file.
    [Panic] is [exit(1)] or a failed assertion. *)

From S2P Require Import Prelude CString Layout Kernel Store Fs FsAlloc FsInode FsMap FsFile FsRw FsDir Bio Log LogStore.

Definition NINODES : Z := 200.
Definition nbitmap : Z := FSSIZE / (BSIZE * 8) + 1.
Definition ninodeblocks : Z := NINODES / IPB + 1.
Definition nlog : Z := LOGSIZE.
Definition nmeta : Z := 2 + nlog + ninodeblocks + nbitmap.
Definition nblocks : Z := FSSIZE - nmeta.
Definition zeroes : list Z := replicate (Z.to_nat BSIZE) 0.

Record mst := mkMst {
  m_img : gmap Z (list Z);
  m_len : Z;
  m_freeinode : Z;
  m_freeblock : Z;
}.

Definition mst0 : mst := mkMst ∅ 0 1 0.

(** The bytes of the result, in order. *)
Definition xshort (x : Z) : Z := le_decode [u8 x; u8 (Z.shiftr x 8)].
Definition xint (x : Z) : Z := le_decode [u8 x; u8 (Z.shiftr x 8); u8 (Z.shiftr x 16); u8 (Z.shiftr x 24)].

Definition sb : superblock :=
  mkSb (xint FSSIZE) (xint nblocks) (xint NINODES) (xint nlog) (xint 2) (xint (2 + nlog)) (xint (2 + nlog + ninodeblocks)).

Definition sb_encode (b : superblock) : list Z :=
  concat (le_encode 4 <$> [sb_size b; sb_nblocks b; sb_ninodes b; sb_nlog b; sb_logstart b; sb_inodestart b; sb_bmapstart b]).

(** The sector [lseek] finds: the offset is computed as an unsigned int. *)
Definition sector (sec : Z) : Z := u32 (sec * BSIZE) / BSIZE.

Definition wsect (sec : Z) (buf : list Z) : M mst unit :=
  modify (λ s, mkMst (<[sector sec := buf]> (m_img s)) (Z.max (m_len s) (sector sec + 1)) (m_freeinode s) (m_freeblock s)).

Definition rsect (sec : Z) : M mst (list Z) := λ s,
  if sector sec <? m_len s then Ret (default zeroes (m_img s !! sector sec)) s else Panic "read" s.

Definition winode (inum : Z) (ip : dinode) : M mst unit :=
  buf ← rsect (IBLOCK inum sb);
  wsect (IBLOCK inum sb) (put_dinode (inum mod IPB) ip buf).

Definition rinode (inum : Z) : M mst dinode :=
  buf ← rsect (IBLOCK inum sb);
  mret (get_dinode (inum mod IPB) buf).

Definition ialloc (type : Z) : M mst Z :=
  inum ← gets m_freeinode;
  modify (λ s, mkMst (m_img s) (m_len s) (u32 (m_freeinode s + 1)) (m_freeblock s));;
  winode inum (mkDinode (i16 (xshort type)) 0 0 (i16 (xshort 1)) (xint 0) (replicate 13 0));;
  mret inum.

(** The free map with the first [used] blocks taken. *)
Fixpoint bitmap (used : nat) : list Z :=
  match used with O => zeroes | Datatypes.S n => bit_set (bitmap n) (Z.of_nat n) end.

Definition balloc (used : Z) : M mst unit :=
  if used <? BSIZE * 8 then wsect (sb_bmapstart sb) (bitmap (Z.to_nat used)) else panic "assert".

(** [freeblock++] *)
Definition take_block : M mst Z :=
  b ← gets m_freeblock;
  modify (λ s, mkMst (m_img s) (m_len s) (m_freeinode s) (u32 (m_freeblock s + 1)));;
  mret b.

Definition addr (din : dinode) (k : Z) : Z := nthZ (di_addrs din) k.
Definition d_set_addr (k v : Z) (x : dinode) : dinode :=
  mkDinode (di_type x) (di_major x) (di_minor x) (di_nlink x) (di_size x) (setZ k v (di_addrs x)).
Definition d_set_size (v : Z) (x : dinode) : dinode :=
  mkDinode (di_type x) (di_major x) (di_minor x) (di_nlink x) v (di_addrs x).

(** Entry [k] of the inode, filled when it is empty. *)
Definition iappend_addr (k : Z) (din : dinode) : M mst dinode :=
  if xint (addr din k) =? 0 then b ← take_block; mret (d_set_addr k (xint b) din) else mret din.

(** The block that holds block [fbn] of the file. *)
Definition iappend_block (fbn : Z) (din : dinode) : M mst (dinode * Z) :=
  if fbn <? NDIRECT then
    din ← iappend_addr fbn din;
    mret (din, xint (addr din fbn))
  else
    din ← iappend_addr NDIRECT din;
    indirect ← rsect (xint (addr din NDIRECT));
    indirect ← (if word (fbn - NDIRECT) indirect =? 0 then
      b ← take_block;
      wsect (xint (addr din NDIRECT)) (set_word (fbn - NDIRECT) (xint b) indirect);;
      mret (set_word (fbn - NDIRECT) (xint b) indirect)
    else mret indirect);
    mret (din, xint (word (fbn - NDIRECT) indirect)).

Fixpoint iappend_loop (fuel : nat) (din : dinode) (off : Z) (p : list Z) (n : Z) : M mst (dinode * Z) :=
  match fuel with
  | O => diverge
  | Datatypes.S fuel =>
    if n <=? 0 then mret (din, off) else
    let fbn := off / BSIZE in
    if negb (fbn <? MAXFILE) then panic "assert" else
    r ← iappend_block fbn din;
    let n1 := Z.min n (u32 ((fbn + 1) * BSIZE - off)) in
    buf ← rsect r.2;
    wsect r.2 (splice (off - fbn * BSIZE) (take (Z.to_nat n1) p) buf);;
    iappend_loop fuel r.1 (u32 (off + n1)) (drop (Z.to_nat n1) p) (n - n1)
  end.

(** [n] bytes of [p] at the end of file [inum]; each iteration takes at least one. *)
Definition iappend (inum : Z) (p : list Z) (n : Z) : M mst unit :=
  din ← rinode inum;
  r ← iappend_loop (Z.to_nat n + 1) din (xint (di_size din)) p n;
  winode inum (d_set_size (xint r.2) r.1).

Fixpoint appends (inum : Z) (pieces : list (list Z)) : M mst unit :=
  match pieces with [] => mret tt | buf :: l => iappend inum buf (lenZ buf);; appends inum l end.

(** A name as the host has it, and what the reads of the file return. *)
Definition hostfile : Type := list Z * option (list (list Z)).

Definition dot_de (inum : Z) (name : list Z) : list Z :=
  mk_dirent (xshort inum) (name ++ replicate (14 - length name) 0).

Definition SLASH : Z := 47.
Definition UNDERSCORE : Z := 95.
Definition skip_underscore (name : list Z) : list Z :=
  match name with c :: l => if c =? UNDERSCORE then l else name | [] => name end.

Definition add_file (rootino : Z) (f : hostfile) : M mst unit :=
  if bool_decide (SLASH ∈ f.1) then panic "assert" else
  match f.2 with
  | None => panic "open"
  | Some pieces =>
    let name := skip_underscore f.1 in
    inum ← ialloc T_FILE;
    iappend rootino (mk_dirent (xshort inum) (strncpy (nthZ name) DIRSIZ)) sizeof_dirent;;
    appends inum pieces
  end.

Fixpoint add_files (rootino : Z) (l : list hostfile) : M mst unit :=
  match l with [] => mret tt | f :: l => add_file rootino f;; add_files rootino l end.

(** The body of [main] after the image was created, for the files of [argv]. *)
Definition main (files : list hostfile) : M mst unit :=
  modify (λ s, mkMst (m_img s) (m_len s) (m_freeinode s) nmeta);;
  for_up (Z.to_nat FSSIZE) 0 (λ i, wsect i zeroes);;
  wsect 1 (splice 0 (sb_encode sb) zeroes);;
  rootino ← ialloc T_DIR;
  if negb (rootino =? ROOTINO) then panic "assert" else
  iappend rootino (dot_de rootino [46]) sizeof_dirent;;
  iappend rootino (dot_de rootino [46; 46]) sizeof_dirent;;
  add_files rootino files;;
  din ← rinode rootino;
  let off := xint (di_size din) in
  winode rootino (d_set_size (xint (u32 ((off / BSIZE + 1) * BSIZE))) din);;
  used ← gets m_freeblock;
  balloc used.
