(* ===== verification/MkfsImage.v ===== *)
(** * The image mkfs builds

    The image under construction is a file system: apart from the free map,
    which is written last, its sectors are those of a [store] that satisfies the
    invariant of fs.c, and appending to a file is a write in the sense of
    [FsFile.wrote].  The theorem: the finished image boots, and shows a root
    directory with an entry for every file given, and every file with its
    contents. *)

From S2P Require Import Prelude CString Layout Kernel Store Fs FsAlloc FsInode FsMap FsFile FsRw FsDir Bio Log LogStore Mkfs.

Lemma sb_val : sb = mkSb 1000 941 200 30 2 32 58.
Proof. by vm_compute. Qed.

Lemma le_decode_byte x l : le_decode (u8 x :: l) = x mod 256 + 256 * le_decode l.
Proof. done. Qed.

Lemma xint_small x : 0 ≤ x < 2 ^ 32 → xint x = x.
Proof.
  intros Hx. rw /xint !le_decode_byte !Z.shiftr_div_pow2 //. cbn [le_decode].
  change (2 ^ 8) with 256. change (2 ^ 16) with 65536. change (2 ^ 24) with 16777216. lia.
Qed.

Lemma xshort_u16 x : xshort x = u16 x.
Proof. rw /xshort /u16 !le_decode_byte !Z.shiftr_div_pow2 //. cbn [le_decode]. change (2 ^ 8) with 256. lia. Qed.

Lemma sector_small b : 0 ≤ b < 1000 → sector b = b.
Proof. intros Hb. rw /sector /BSIZE u32_small; lia. Qed.

(** ** The free map *)

Lemma blk_bitmap n : blk (bitmap n).
Proof. induction n as [|n IH]; [apply blk_zeros|]. by apply blk_bit_set. Qed.

Lemma used_bitmap n b : Z.of_nat n ≤ BPB → 0 ≤ b < BPB → used (bitmap n) b = bool_decide (b < Z.of_nat n).
Proof.
  intros Hn Hb. induction n as [|n IH].
  - rw bool_decide_eq_false_2; [lia|]. rw /used /= /nthZ /zeroes nth_replicate0. apply Z.bits_0.
  - cbn [bitmap]. rw used_bit_set; [apply blk_bitmap|lia|done|]. rw IH; [lia|].
    rw -bool_decide_or. apply bool_decide_ext. lia.
Qed.

(** ** Sectors *)

(** The image without its free map is the store [st]. *)
Record rep (s : mst) (st : store) : Prop := {
  rp_view : st_view st = <[58 := bitmap (Z.to_nat (m_freeblock s))]> (m_img s);
  rp_len : m_len s = 1000;
  rp_img b : 0 ≤ b < 1000 → ∃ d, m_img s !! b = Some d ∧ blk d;
  rp_fb : 59 ≤ m_freeblock s ≤ 1000;
  rp_fresh b : m_freeblock s ≤ b < 1000 → m_img s !! b = Some zeroes;
  rp_log b : 2 ≤ b < 32 → m_img s !! b = Some zeroes;
  rp_size : st_size st = 1000;
  rp_base : st_base st = 32;
  rp_inv : fsinv sb st;
}.

Section rep.
Implicit Types (s : mst) (st : store).

Lemma rep_lookup s st b : rep s st → 0 ≤ b < 1000 → b ≠ 58 → m_img s !! b = Some (st_view st !!! b).
Proof.
  intros Hr Hb Hne. destruct (rp_img _ _ Hr b Hb) as (d & Hd & _). rw (rp_view _ _ Hr) Hd.
  rw lookup_total_insert_ne; [lia|]. by rw (lookup_total_correct _ _ _ Hd).
Qed.

Lemma rep_blk s st b : rep s st → 0 ≤ b < 1000 → blk (st_view st !!! b).
Proof.
  intros Hr Hb. destruct (decide (b = 58)) as [->|Hne].
  - rw (rp_view _ _ Hr) lookup_total_insert_eq. apply blk_bitmap.
  - destruct (rp_img _ _ Hr b Hb) as (d & Hd & Hk). rw (rep_lookup s st) // in Hd. by simplify_eq.
Qed.

Lemma rep_bmp s st : rep s st → bmp sb st = bitmap (Z.to_nat (m_freeblock s)).
Proof. intros Hr. by rw /bmp (rp_view _ _ Hr) sb_val lookup_total_insert_eq. Qed.

Lemma rep_inuse s st b : rep s st → 0 ≤ b < 1000 → inuse sb st b ↔ b < m_freeblock s.
Proof.
  intros Hr Hb. pose proof (rp_fb _ _ Hr). rw /inuse (rep_bmp _ _ Hr) used_bitmap.
  - rw /BPB /BSIZE. lia.
  - rw /BPB /BSIZE. lia.
  - rw bool_decide_eq_true. lia.
Qed.

Lemma rep_data b : data_block sb b ↔ 59 ≤ b < 1000.
Proof. rw /data_block sb_val /=. lia. Qed.

Lemma rsect_run s st b :
  rep s st → 0 ≤ b < 1000 → b ≠ 58 → rsect b s = Ret (st_view st !!! b) s.
Proof.
  intros Hr Hb Hne. rw /rsect sector_small // (rp_len _ _ Hr) (rep_lookup s st) //. destruct (Z.ltb_spec b 1000); [done|lia].
Qed.

Lemma wsect_run s st b d :
  rep s st → 32 ≤ b < m_freeblock s → b ≠ 58 → blk d →
  ∃ s', wsect b d s = Ret tt s' ∧ rep s' (st_wr b d st) ∧ m_freeblock s' = m_freeblock s ∧
    m_freeinode s' = m_freeinode s.
Proof.
  intros Hr Hb Hne Hd. pose proof (rp_fb _ _ Hr) as Hfb. eexists. split; [done|]. rw sector_small; [lia|].
  split; [|done]. case: (Hr) => Hv Hl Hi _ Hf Hlog Hs Hba Hin. split; cbn [m_img m_len m_freeblock]; try done.
  - rw /st_wr /= Hv. by apply insert_insert_ne.
  - lia.
  - intros c Hc. destruct (decide (b = c)) as [->|Hbc]; [exists d; by rw lookup_insert_eq|]. rw lookup_insert_ne //. by apply Hi.
  - intros c Hc. rw lookup_insert_ne; [lia|]. by apply Hf.
  - intros c Hc. rw lookup_insert_ne; [lia|]. by apply Hlog.
  - apply fsinv_wr; [done|by rw sb_val|lia].
Qed.

Lemma take_block_run s st :
  rep s st → m_freeblock s < 1000 →
  let b := m_freeblock s in
  data_block sb b ∧ ¬ inuse sb st b ∧
  ∃ s', take_block s = Ret b s' ∧ rep s' (st_alloc sb b st) ∧ m_freeblock s' = b + 1 ∧ m_freeinode s' = m_freeinode s.
Proof.
  intros Hr Hlt b. pose proof (rp_fb _ _ Hr) as Hfb. assert (data_block sb b) as Hdb by (apply rep_data; lia).
  split; [done|]. split; [rw (rep_inuse s st) //; lia|]. eexists. split; [done|].
  rw u32_small; [lia|]. split; [|done]. case: (Hr) => Hv Hl Hi _ Hf Hlog Hs Hba Hin.
  split; cbn [m_img m_len m_freeblock]; try done; [|lia| |].
  - rw /st_alloc sb_val. cbn [st_wr st_view sb_bmapstart]. rw -sb_val (rep_bmp s st) // Hv.
    rw insert_insert_eq insert_insert_ne; [lia|]. rw (insert_id (m_img s) b); [apply Hf; lia|].
    f_equal. rw (_ : Z.to_nat (m_freeblock s + 1) = Datatypes.S (Z.to_nat b)); [lia|]. cbn [bitmap]. f_equal. lia.
  - intros c Hc. apply Hf. lia.
  - apply fsinv_alloc; [done| |done]. rw (rep_bmp s st) //. apply blk_bitmap.
Qed.
End rep.

(** ** The block of a file *)

(** An inode as mkfs handles it, in the shape of the kernel's. *)
Definition inod (inum : Z) (d : dinode) : inode := from_dinode d (mkInode 1 inum 1 sleeplock0 2 0 0 0 0 0 []).

(** Blocks taken to have block [k] of a file. *)
Definition need (st : store) (x : inode) (k : Z) : Z :=
  (if iaddr st x k =? 0 then 1 else 0) + (if (NDIRECT <=? k) && (ind x =? 0) then 1 else 0).

Section append.
Context (inum : Z).
Implicit Types (s : mst) (st : store) (din : dinode).

Lemma iwf_u32 st x k : iwf sb st x → 0 ≤ k < MAXFILE → 0 ≤ iaddr st x k < 1000.
Proof. intros Hw Hk. destruct (iw_data _ _ _ Hw k Hk) as [->|[?%rep_data _]]; lia. Qed.

Lemma ind_u32 st x : iwf sb st x → 0 ≤ ind x < 1000.
Proof. intros Hw. destruct (iw_ind _ _ _ Hw) as [->|[?%rep_data _]]; lia. Qed.

Lemma rep_blk_bmp s st : rep s st → blk (bmp sb st).
Proof. intros Hr. rw (rep_bmp s st) //. apply blk_bitmap. Qed.

Lemma addr_set k v din : length (di_addrs din) = 13%nat → 0 ≤ k ≤ NDIRECT → addr (d_set_addr k v din) k = v.
Proof. rw /NDIRECT. intros Hl Hk. rw /addr /=. apply nthZ_setZ_eq. rw Hl. lia. Qed.

Lemma iappend_direct_run s st din k :
  rep s st → iwf sb st (inod inum din) → 0 ≤ k < NDIRECT →
  m_freeblock s + need st (inod inum din) k ≤ 1000 →
  ∃ s' st' din' b, iappend_block k din s = Ret (din', b) s' ∧ rep s' st' ∧
    mapped sb k st (inod inum din) b st' (inod inum din') ∧
    m_freeblock s' = m_freeblock s + need st (inod inum din) k ∧ m_freeinode s' = m_freeinode s ∧
    (ind (inod inum din') = 0 ↔ ind (inod inum din) = 0).
Proof.
  intros Hr Hw Hk. set x := inod inum din. assert (0 ≤ k < MAXFILE) as Hkm by (rw MAXFILE_val; rw /NDIRECT in Hk; lia).
  pose proof (iwf_u32 st x k Hw Hkm) as Hu. pose proof (iw_len _ _ _ Hw) as Hlen.
  assert (addr din k = iaddr st x k) as Ea by (rw /iaddr; destruct (Z.ltb_spec k NDIRECT); [done|lia]).
  rw /need (_ : NDIRECT <=? k = false); [lia|]. cbn [andb]. rw Z.add_0_r.
  rw /iappend_block (_ : k <? NDIRECT = true); [lia|]. rw /iappend_addr Ea xint_small; [lia|].
  destruct (Z.eqb_spec (iaddr st x k) 0) as [Hz|Hz]; intros Hroom.
  - destruct (take_block_run s st) as (Hdb & Hn & s1 & Hrun & Hr1 & Hfb & Hfi); [done|lia|].
    set (b := m_freeblock s) in *. pose proof (proj1 (rep_data b) Hdb) as Hb.
    rw run_assoc (run_bind _ _ _ _ _ Hrun) run_ret. eexists s1, _, _, _. rw xint_small; [lia|].
    split; [done|]. rw addr_set //; [rw /NDIRECT in Hk |- *; lia|]. rw xint_small; [lia|].
    split; [exact Hr1|]. split_and!; [|done|done|].
    + apply mapped_direct; [apply Hr|done|by eapply rep_blk_bmp|done|done|done|done].
    + rw /ind /= nthZ_setZ_ne //; rw /NDIRECT in Hk |- *; lia.
  - rw run_ret. exists s, st, din, (iaddr st x k). rw Ea xint_small; [lia|]. split; [done|]. split; [done|].
    split; [by apply mapped_old; [apply Hr|..]|]. split; [lia|done].
Qed.

(** The entry of the indirect block, once there is one. *)
Lemma iappend_indirect_run s st din k :
  rep s st → iwf sb st (inod inum din) → NDIRECT ≤ k < MAXFILE →
  m_freeblock s + (if ind (inod inum din) =? 0 then 1 else 0) ≤ 1000 →
  ∃ s' st' din', iappend_addr NDIRECT din s = Ret din' s' ∧ rep s' st' ∧
    indirected sb k st (inod inum din) (addr din' NDIRECT) st' (inod inum din') ∧
    m_freeblock s' = m_freeblock s + (if ind (inod inum din) =? 0 then 1 else 0) ∧ m_freeinode s' = m_freeinode s.
Proof.
  intros Hr Hw Hk. set x := inod inum din. pose proof (ind_u32 st x Hw) as Hu. pose proof (iw_len _ _ _ Hw) as Hlen.
  rw /iappend_addr. change (addr din NDIRECT) with (ind x). rw xint_small; [lia|].
  destruct (Z.eqb_spec (ind x) 0) as [Hz|Hz]; intros Hroom.
  - destruct (take_block_run s st) as (Hdb & Hn & s1 & Hrun & Hr1 & Hfb & Hfi); [done|lia|].
    set (b := m_freeblock s) in *. pose proof (proj1 (rep_data b) Hdb) as Hb.
    rw (run_bind _ _ _ _ _ Hrun). eexists s1, _, _. rw xint_small; [lia|]. split; [done|]. split; [exact Hr1|].
    rw addr_set //. split; [|done]. apply indirected_new; [apply Hr|done|by eapply rep_blk_bmp|done..].
  - exists s, st, din. split; [done|]. split; [done|]. split; [by apply indirected_old; [apply Hr|..]|]. split; [lia|done].
Qed.

Lemma iappend_entry_run s st din k :
  rep s st → iwf sb st (inod inum din) → NDIRECT ≤ k < MAXFILE →
  m_freeblock s + need st (inod inum din) k ≤ 1000 →
  ∃ s' st' din' b, iappend_block k din s = Ret (din', b) s' ∧ rep s' st' ∧
    mapped sb k st (inod inum din) b st' (inod inum din') ∧
    m_freeblock s' = m_freeblock s + need st (inod inum din) k ∧ m_freeinode s' = m_freeinode s ∧
    ind (inod inum din') ≠ 0.
Proof.
  intros Hr Hw Hk. set x := inod inum din. rw /need (_ : NDIRECT <=? k = true); [lia|]. cbn [andb]. intros Hroom.
  destruct (iappend_indirect_run s st din k) as (s1 & st1 & din1 & Hrun & Hr1 & Hid & Hfb & Hfi); [done..| |].
  { rw -/x. destruct (iaddr st x k =? 0); lia. } rw -/x in Hid Hfb.
  rw /iappend_block (_ : k <? NDIRECT = false); [lia|]. rw (run_bind _ _ _ _ _ Hrun).
  pose proof Hid as [He Ha Haz Hsame _ _ Hold]. set (a := addr din1 NDIRECT) in *.
  pose proof (ex_wf _ _ _ _ _ _ He) as Hw1. pose proof (ind_u32 st1 _ Hw1) as Hu1. rw Ha in Hu1.
  destruct (iw_ind _ _ _ Hw1) as [?|[Hda Hua]]; [congruence|]. rw Ha in Hda, Hua. apply rep_data in Hda as Hda'.
  rw xint_small; [lia|]. erewrite run_bind; [|apply (rsect_run s1 st1); [done|lia|lia]].
  assert (iaddr st1 (inod inum din1) k = word (k - NDIRECT) (st_view st1 !!! a)) as Ew.
  { rw iaddr_entry ?Ha //; lia. }
  rw -Ew Hsame. assert (iaddr st1 (inod inum din1) k = iaddr st x k) as Hs2 by done.
  destruct (Z.eqb_spec (iaddr st x k) 0) as [Hz|Hz].
  - destruct (take_block_run s1 st1) as (Hdb & Hn & s2 & Hrun2 & Hr2 & Hfb2 & Hfi2); [done|rw Hfb; lia|].
    set (b := m_freeblock s1) in *. pose proof (proj1 (rep_data b) Hdb) as Hb.
    pose proof (rep_blk s1 st1 a Hr1 ltac:(lia)) as Hba.
    assert (blk (set_word (k - NDIRECT) b (st_view st1 !!! a))) as Hsw.
    { rw MAXFILE_val /NDIRECT in Hk. apply blk_store; [done|rw /NDIRECT; lia|rw /NDIRECT; lia]. }
    rw run_assoc (run_bind _ _ _ _ _ Hrun2) run_assoc (xint_small b); [lia|].
    apply (rep_inuse s1 st1) in Hua; [|done|lia].
    destruct (wsect_run s2 _ a (set_word (k - NDIRECT) b (st_view st1 !!! a)) Hr2) as (s3 & Hrun3 & Hr3 & Hfb3 & Hfi3); [rw Hfb2; lia|lia|exact Hsw|].
    rw (run_bind _ _ _ _ _ Hrun3) run_ret. eexists s3, _, din1, b.
    assert (word (k - NDIRECT) (set_word (k - NDIRECT) b (st_view st1 !!! a)) = b) as ->.
    { rw MAXFILE_val in Hk. apply load_store_small; [lia|rw (blk_len _ Hba); rw /NDIRECT; lia|lia]. }
    rw xint_small; [lia|]. split; [done|]. split; [exact Hr3|].
    split; [by apply mapped_entry; [..|done|done|congruence]; [|by eapply rep_blk_bmp|..]|].
    split; [lia|]. split; [congruence|congruence].
  - rw run_ret -Ew. destruct Hold as [-> Hx].
    { intros Ei. apply Hz. rw /iaddr Ei. destruct (Z.ltb_spec k NDIRECT); [lia|done]. }
    pose proof (iwf_u32 st x k Hw ltac:(rw /NDIRECT in Hk; lia)). exists s1, st, din1, (iaddr st x k).
    rw Hs2 xint_small; [lia|]. split; [done|]. split; [done|]. rw Hx. split; [by apply mapped_old; [apply Hr|..]|].
    split; [lia|]. split; [done|]. congruence.
Qed.
Lemma iappend_block_run s st din k :
  rep s st → iwf sb st (inod inum din) → 0 ≤ k < MAXFILE →
  m_freeblock s + need st (inod inum din) k ≤ 1000 →
  ∃ s' st' din' b, iappend_block k din s = Ret (din', b) s' ∧ rep s' st' ∧
    mapped sb k st (inod inum din) b st' (inod inum din') ∧
    m_freeblock s' = m_freeblock s + need st (inod inum din) k ∧ m_freeinode s' = m_freeinode s ∧
    (ind (inod inum din') ≠ 0 ↔ ind (inod inum din) ≠ 0 ∨ NDIRECT ≤ k).
Proof.
  intros Hr Hw Hk Hroom. destruct (decide (k < NDIRECT)) as [Hd|Hd].
  - destruct (iappend_direct_run s st din k) as (s' & st' & din' & b & H1 & H2 & H3 & H4 & H5 & H6); [done|done|lia|done|].
    exists s', st', din', b. split_and!; [done..|]. rw H6. lia.
  - destruct (iappend_entry_run s st din k) as (s' & st' & din' & b & H1 & H2 & H3 & H4 & H5 & H6); [done|done|lia|done|].
    exists s', st', din', b. split_and!; [done..|]. split; [lia|done].
Qed.

(** ** Appending *)

(** Exactly the blocks below [off] are there, and the rest of the last is zero. *)
Record tight (st : store) (x : inode) (off : Z) : Prop := {
  tg_addr k : 0 ≤ k < MAXFILE → iaddr st x k ≠ 0 ↔ k * BSIZE < off;
  tg_ind : ind x ≠ 0 ↔ NDIRECT * BSIZE < off;
  tg_zero j : off ≤ j < MAXFILE * BSIZE → iaddr st x (j / BSIZE) ≠ 0 → fbyte st x j = 0;
}.

(** The blocks of a file of this size. *)
Definition nblk (sz : Z) : Z := (sz + 511) / 512 + (if 6144 <? sz then 1 else 0).

Lemma need_tight st x off m :
  tight st x off → 0 ≤ off < MAXFILE * BSIZE → 0 < m → off mod BSIZE + m ≤ BSIZE →
  need st x (off / BSIZE) = nblk (off + m) - nblk off.
Proof.
  rw MAXFILE_val /BSIZE. intros [Ha Hi _] Ho Hm Hf. pose proof (Ha (off / 512) ltac:(rw MAXFILE_val; lia)) as Hk.
  rw /BSIZE in Hk. rw /BSIZE /NDIRECT in Hi. rw /need /nblk /NDIRECT.
  assert ((off + m + 511) / 512 - (off + 511) / 512 = if iaddr st x (off / 512) =? 0 then 1 else 0) as E1.
  { destruct (Z.eqb_spec (iaddr st x (off / 512)) 0); lia. }
  destruct (Z.eqb_spec (ind x) 0); destruct (Z.leb_spec 12 (off / 512)), (Z.ltb_spec 6144 (off + m)),
    (Z.ltb_spec 6144 off); cbn [andb]; lia.
Qed.

(** A piece that stays within one block. *)
Lemma same_block off m j :
  0 < m → off mod BSIZE + m ≤ BSIZE → off + m ≤ j → j / BSIZE * BSIZE < off + m →
  j / BSIZE = off / BSIZE ∧ off mod BSIZE + m ≤ j mod BSIZE.
Proof. rw /BSIZE. lia. Qed.
Lemma block_below off m j :
  0 < m → off mod BSIZE + m ≤ BSIZE → j ≠ off / BSIZE → j * BSIZE < off ↔ j * BSIZE < off + m.
Proof. rw /BSIZE. lia. Qed.
Lemma block_own off m : 0 < m → off / BSIZE * BSIZE < off + m.
Proof. rw /BSIZE. lia. Qed.
Lemma block_ind off m :
  0 < m → off mod BSIZE + m ≤ BSIZE →
  NDIRECT * BSIZE < off ∨ NDIRECT ≤ off / BSIZE ↔ NDIRECT * BSIZE < off + m.
Proof. rw /BSIZE /NDIRECT. lia. Qed.
Lemma mod_block j : 0 ≤ j mod BSIZE.
Proof. rw /BSIZE. lia. Qed.

Lemma tight_step st x b st1 x1 off src :
  tight st x off → mapped sb (off / BSIZE) st x b st1 x1 → blk (st_view st1 !!! b) →
  (ind x1 ≠ 0 ↔ ind x ≠ 0 ∨ NDIRECT ≤ off / BSIZE) →
  0 ≤ off < MAXFILE * BSIZE → 0 < lenZ src → off mod BSIZE + lenZ src ≤ BSIZE →
  tight (st_wr b (splice (off mod BSIZE) src (st_view st1 !!! b)) st1) x1 (off + lenZ src).
Proof.
  intros [Ha Hi Hz] Hmp Hblk Hin1 Ho Hm Hf. pose proof (mp_ext _ _ _ _ _ _ _ Hmp) as He.
  pose proof (byte_block off Ho) as Hk. pose proof (mp_addr _ _ _ _ _ _ _ Hmp) as Eb.
  set (st2 := st_wr b _ st1). pose proof (mp_nz _ _ _ _ _ _ _ Hmp) as Hbz.
  assert (b ≠ ind x1) as Hne.
  { rw -Eb. apply (iw_indne _ _ _ (ex_wf _ _ _ _ _ _ He)); [done|]. by rw Eb. }
  assert (∀ j, iaddr st2 x1 j = iaddr st1 x1 j) as Ea.
  { intros j. apply iaddr_ext. intros _. rw view_st_wr decide_False; [congruence|done]. }
  assert (∀ j, 0 ≤ j < MAXFILE → iaddr st2 x1 j ≠ 0 ↔ j * BSIZE < off + lenZ src) as Hadr.
  { intros j Hj. rw Ea. destruct (decide (j = off / BSIZE)) as [->|Hjk].
    - rw Eb. split; [intros _; by apply block_own|done].
    - rw (ex_other _ _ _ _ _ _ He) // Ha //. by apply block_below. }
  split; [done|rw Hin1 Hi; by apply block_ind|].
  - intros j [Hj Hjm] Hjz. assert (0 ≤ j < MAXFILE * BSIZE) as Hj' by (clear -Ho Hj Hjm Hm; lia).
    apply Hadr in Hjz; [|by apply byte_block]. destruct (same_block off (lenZ src) j) as [Ek Em]; [done..|].
    rw /fbyte Ea Ek Eb view_st_wr decide_True // nthZ_splice.
    + apply mod_block.
    + rw (blk_len _ Hblk). exact Hf.
    + apply mod_block.
    + rw decide_False; [clear -Em; lia|].
      destruct (decide (iaddr st x (off / BSIZE) = 0)) as [Hnew|Hold].
      * destruct (mp_new _ _ _ _ _ _ _ Hmp Hnew) as [_ ->]. rw /nthZ. apply nth_replicate0.
      * destruct (mp_old _ _ _ _ _ _ _ Hmp Hold) as [-> ->]. rw -Eb -Ek. apply Hz; [clear -Hj Hjm Hm; lia|]. by rw Ek.
Qed.

Lemma nblk_mono a b : a ≤ b → nblk a ≤ nblk b.
Proof. rw /nblk. intros. destruct (Z.ltb_spec 6144 a), (Z.ltb_spec 6144 b); lia. Qed.

(** One piece of a block. *)
Lemma iappend_piece_run s st din off src :
  rep s st → iwf sb st (inod inum din) → tight st (inod inum din) off →
  0 ≤ off < MAXFILE * BSIZE → bytes src → 0 < lenZ src → off mod BSIZE + lenZ src ≤ BSIZE →
  m_freeblock s + (nblk (off + lenZ src) - nblk off) ≤ 1000 →
  ∃ s1 s' st' din' b buf, iappend_block (off / BSIZE) din s = Ret (din', b) s1 ∧ rsect b s1 = Ret buf s1 ∧
    wsect b (splice (off mod BSIZE) src buf) s1 = Ret tt s' ∧ rep s' st' ∧
    wrote sb off (lenZ src) (nthZ src) st (inod inum din) st' (inod inum din') ∧
    tight st' (inod inum din') (off + lenZ src) ∧
    m_freeblock s' = m_freeblock s + (nblk (off + lenZ src) - nblk off) ∧ m_freeinode s' = m_freeinode s.
Proof.
  intros Hr Hw Ht Ho Hby Hm Hf Hroom. pose proof (byte_block off Ho) as Hk.
  rw -(need_tight st (inod inum din)) // in Hroom.
  destruct (iappend_block_run s st din (off / BSIZE)) as (s1 & st1 & din' & b & H1 & Hr1 & Hmp & Hfb & Hfi & Hin); [done..|].
  pose proof (mp_ext _ _ _ _ _ _ _ Hmp) as He. pose proof (ex_wf _ _ _ _ _ _ He) as Hw1.
  pose proof (mp_addr _ _ _ _ _ _ _ Hmp) as Eb. pose proof (mp_nz _ _ _ _ _ _ _ Hmp) as Hbz.
  destruct (iw_data _ _ _ Hw1 _ Hk) as [?|[Hdb Hub]]; [congruence|]. rw Eb in Hdb, Hub. apply rep_data in Hdb.
  apply (rep_inuse s1 st1) in Hub; [|done|lia]. assert (blk (st_view st1 !!! b)) as Hblk by (apply (rep_blk s1); [done|lia]).
  destruct (wsect_run s1 st1 b (splice (off mod BSIZE) src (st_view st1 !!! b))) as (s2 & H2 & Hr2 & Hfb2 & Hfi2);
    [done|lia|lia|by apply blk_splice; [..|apply mod_block|exact Hf]|].
  exists s1, s2. eexists _, din', b, _. split; [done|]. split; [by apply rsect_run; [|lia|lia]|]. split; [done|].
  split; [done|]. split; [by apply wrote_step; [apply Hr|..]|]. split; [by apply (tight_step st (inod inum din))|].
  rw -(need_tight st (inod inum din)) //. lia.
Qed.

Lemma loop_index off n :
  0 ≤ off < MAXFILE * BSIZE → 0 < n →
  u32 ((off / BSIZE + 1) * BSIZE - off) = BSIZE - off mod BSIZE ∧ off - off / BSIZE * BSIZE = off mod BSIZE.
Proof. rw MAXFILE_val /BSIZE. intros Ho Hn. rw u32_small; lia. Qed.

Lemma nthZ_drop (p : list Z) n j : 0 ≤ n → 0 ≤ j → nthZ (drop (Z.to_nat n) p) j = nthZ p (n + j).
Proof. intros Hn Hj. rw /nthZ !nth_lookup lookup_drop. do 2 f_equal. lia. Qed.

Lemma iappend_loop_S fuel din off p n s :
  iappend_loop (Datatypes.S fuel) din off p n s =
  (if n <=? 0 then mret (din, off) else
   let fbn := off / BSIZE in
   if negb (fbn <? MAXFILE) then panic "assert" else
   r ← iappend_block fbn din;
   let n1 := Z.min n (u32 ((fbn + 1) * BSIZE - off)) in
   buf ← rsect r.2;
   wsect r.2 (splice (off - fbn * BSIZE) (take (Z.to_nat n1) p) buf);;
   iappend_loop fuel r.1 (u32 (off + n1)) (drop (Z.to_nat n1) p) (n - n1)) s.
Proof. done. Qed.

Lemma iappend_loop_run fuel s st din off p :
  rep s st → iwf sb st (inod inum din) → tight st (inod inum din) off →
  0 ≤ off → off + lenZ p ≤ MAXFILE * BSIZE → bytes p → (length p < fuel)%nat →
  m_freeblock s + (nblk (off + lenZ p) - nblk off) ≤ 1000 →
  ∃ s' st' din', iappend_loop fuel din off p (lenZ p) s = Ret (din', off + lenZ p) s' ∧ rep s' st' ∧
    wrote sb off (lenZ p) (nthZ p) st (inod inum din) st' (inod inum din') ∧
    tight st' (inod inum din') (off + lenZ p) ∧
    m_freeblock s' = m_freeblock s + (nblk (off + lenZ p) - nblk off) ∧ m_freeinode s' = m_freeinode s.
Proof.
  revert s st din off p. induction fuel as [|fuel IH]; intros s st din off p Hr Hw Ht Ho Hmax Hby Hfu Hroom; [lia|].
  rw iappend_loop_S. destruct (Z.leb_spec (lenZ p) 0) as [Hn|Hn].
  { assert (lenZ p = 0) as E by lia. rw E Z.add_0_r in Hroom |- *. exists s, st, din. split; [done|]. split; [done|].
    split; [by apply wrote_nil; [apply Hr|]|]. split; [done|]. split; [lia|done]. }
  assert (0 ≤ off < MAXFILE * BSIZE) as Ho' by (clear -Ho Hmax Hn; lia). cbv zeta.
  pose proof (byte_block off Ho') as Hk. rw (_ : off / BSIZE <? MAXFILE = true); [apply Z.ltb_lt, Hk|]. cbn [negb].
  destruct (loop_index off (lenZ p) Ho' Hn) as [-> ->].
  destruct (chunk_facts off (lenZ p) Ho Hn) as (Hm1 & Hm2 & _). set (m := Z.min (lenZ p) (BSIZE - off mod BSIZE)) in *.
  assert (lenZ (take (Z.to_nat m) p) = m) as Elen by (rw length_take; clear -Hm1; lia).
  assert (lenZ (drop (Z.to_nat m) p) = lenZ p - m) as Elen2 by (rw length_drop; clear -Hm1; lia).
  destruct (iappend_piece_run s st din off (take (Z.to_nat m) p)) as (s1 & s2 & st2 & din2 & b & buf & H1 & H2 & H3 & Hr2 & Hwr & Ht2 & Hfb & Hfi);
    [done..|by apply Forall_take|by rw Elen; lia|by rw Elen|
     rw Elen; have := nblk_mono (off + m) (off + lenZ p) ltac:(clear -Hm1; lia); lia|].
  rw Elen in Hwr, Ht2, Hfb. rw (run_bind _ _ _ _ _ H1) (run_bind _ _ _ _ _ H2) (run_bind _ _ _ _ _ H3).
  rw u32_small; [rw MAXFILE_val /BSIZE in Hmax; clear -Hmax Ho Hm1; lia|]. rw -Elen2.
  destruct (IH s2 st2 din2 (off + m) (drop (Z.to_nat m) p)) as (s3 & st3 & din3 & H4 & Hr3 & Hwr3 & Ht3 & Hfb3 & Hfi3);
    [done|apply Hwr|done|clear -Ho Hm1; lia|rw Elen2; clear -Hmax; lia|by apply Forall_drop|rw length_drop; clear -Hfu Hm1; lia|
     rw Elen2 Hfb; rw (_ : off + m + (lenZ p - m) = off + lenZ p); [lia|]; clear -Hroom; lia|].
  rw Elen2 (_ : off + m + (lenZ p - m) = off + lenZ p) in H4, Hwr3, Ht3, Hfb3; [clear; lia|].
  exists s3, st3, din3. rw Elen2. split; [done|]. split; [done|]. split; [|split; [done|split; [lia|congruence]]].
  rw (_ : lenZ p = m + (lenZ p - m)); [clear; lia|].
  eapply wrote_trans; [done|clear -Hm1; lia|clear -Hm1; lia|clear -Hmax; lia| |].
  - refine (wrote_data_ext _ _ _ _ _ _ _ _ _ _ Hwr). intros j Hj. rw /nthZ !nth_lookup lookup_take decide_True //. clear -Hj; lia.
  - refine (wrote_data_ext _ _ _ _ _ _ _ _ _ _ Hwr3). intros j Hj. apply nthZ_drop; clear -Hj Hm1; lia.
Qed.
End append.

(** ** Files *)

(** Inode [inum] of the image. *)
Definition ino (st : store) (inum : Z) : inode := inod inum (disk_inode sb st inum).

Record file_ok (st : store) (inum ty : Z) (data : list Z) : Prop := {
  fo_wf : iwf sb st (ino st inum);
  fo_full : full st (ino st inum);
  fo_fits : inode_fits (ino st inum);
  fo_type : i_type (ino st inum) = ty;
  fo_nlink : i_nlink (ino st inum) = 1;
  fo_size : i_size (ino st inum) = lenZ data;
  fo_data : contents st (ino st inum) = data;
  fo_tight : tight st (ino st inum) (lenZ data);
}.

(** Blocks that stay leave the file. *)
Lemma owns_kept st st' y b :
  (ind y ≠ 0 → st_view st' !!! ind y = st_view st !!! ind y) → owns st' y b ↔ owns st y b.
Proof. intros Hv. rw /owns. by setoid_rewrite (iaddr_ext st st' y _ Hv). Qed.

Lemma tight_kept st st' y off :
  0 ≤ off → (∀ b, owns st y b → st_view st' !!! b = st_view st !!! b) → tight st y off → tight st' y off.
Proof.
  intros Ho Hv [Ha Hi Hz]. assert (ind y ≠ 0 → st_view st' !!! ind y = st_view st !!! ind y) as Hind.
  { intros Hn. apply Hv. split; [done|by left]. }
  split; [intros k Hk; rw (iaddr_ext st) //; by apply Ha|done|].
  intros j Hj. rw (iaddr_ext st st') //. intros Hn. rw -(Hz j) //. apply fbyte_ext; [done|]. apply Hv.
  split; [done|right]. exists (j / BSIZE). split; [|done]. apply byte_block. lia.
Qed.

Lemma file_ok_kept st st' inum ty data :
  fsinv sb st → file_ok st inum ty data → disk_inode sb st' inum = disk_inode sb st inum →
  (∀ b, owns st (ino st inum) b → st_view st' !!! b = st_view st !!! b) →
  (∀ b, data_block sb b → inuse sb st b → inuse sb st' b) → file_ok st' inum ty data.
Proof.
  intros Hi [H1 H2 H3 H4 H5 H6 H7 H8] Hd Hv Hu. assert (ino st' inum = ino st inum) as E by (by rw /ino Hd).
  destruct (file_kept sb st st' (ino st inum)) as (Hc & Hw & Hf); [done..|].
  split; rw E //; [congruence|]. by apply (tight_kept st); [lia|..].
Qed.

(** ** The image under construction *)

(** The files by inode number, from 1: their types and contents. *)
Abbreviation files := (list (Z * list Z)).
Definition inum (i : nat) : Z := Z.of_nat i + 1.
Definition blocks (fs : files) : Z := foldr (λ f n, nblk (lenZ f.2) + n) 0 fs.

Record image (s : mst) (st : store) (fs : files) : Prop := {
  im_rep : rep s st;
  im_next : m_freeinode s = inum (length fs);
  im_max : (length fs < 200)%nat;
  im_file i f : fs !! i = Some f → file_ok st (inum i) f.1 f.2;
  im_disj i j b : (i < length fs)%nat → (j < length fs)%nat → i ≠ j →
    owns st (ino st (inum i)) b → ¬ owns st (ino st (inum j)) b;
  im_owned b : data_block sb b → inuse sb st b → ∃ i, (i < length fs)%nat ∧ owns st (ino st (inum i)) b;
  im_blocks : m_freeblock s = 59 + blocks fs;
  im_free n : inum (length fs) ≤ n < 200 → di_type (disk_inode sb st n) = 0;
}.

Lemma inum_ok_lt n : inum_ok sb n ↔ 0 ≤ n < 200.
Proof. rw /inum_ok sb_val. done. Qed.

Lemma iblock_lt s st n : rep s st → 0 ≤ n < 200 → 32 ≤ IBLOCK n sb < 58.
Proof.
  intros Hr Hn. destruct (IBLOCK_range sb st n) as (_ & H & _); [apply Hr|by apply inum_ok_lt|].
  rw (rp_base _ _ Hr) sb_val in H. rw sb_val. exact H.
Qed.

Lemma rinode_run s st n : rep s st → 0 ≤ n < 200 → rinode n s = Ret (disk_inode sb st n) s.
Proof.
  intros Hr Hn. pose proof (iblock_lt s st n Hr Hn). rw /rinode. by erewrite run_bind; [|apply (rsect_run s st); [done|lia|lia]].
Qed.

Lemma winode_run s st n d :
  rep s st → 0 ≤ n < 200 → dinode_ok d →
  ∃ s', winode n d s = Ret tt s' ∧ rep s' (st_iupdate sb (inod n d) st) ∧ m_freeblock s' = m_freeblock s ∧
    m_freeinode s' = m_freeinode s.
Proof.
  intros Hr Hn Hd. pose proof (iblock_lt s st n Hr Hn) as Hib. pose proof (rp_fb _ _ Hr).
  pose proof (rep_blk s st (IBLOCK n sb) Hr ltac:(lia)) as Hblk.
  rw /winode. erewrite run_bind; [|apply (rsect_run s st); [done|lia|lia]].
  destruct (IBLOCK_range sb st n) as (_ & _ & Hs); [apply Hr|by apply inum_ok_lt|].
  rw (_ : st_iupdate sb (inod n d) st = st_wr (IBLOCK n sb) (put_dinode (n mod IPB) d (st_view st !!! IBLOCK n sb)) st).
  { rw /st_iupdate /=. by destruct d. }
  apply wsect_run; [done|lia|lia|]. by apply put_dinode_frame; [..|apply Hd|apply Hd].
Qed.

(** What the update of an inode leaves. *)
Lemma iupdate_kept s st n d b :
  rep s st → 0 ≤ n < 200 → ¬ 32 ≤ b < 58 → st_view (st_iupdate sb (inod n d) st) !!! b = st_view st !!! b.
Proof.
  intros Hr Hn Hb. pose proof (iblock_lt s st n Hr Hn). rw /st_iupdate view_st_wr decide_False //. cbn. lia.
Qed.

Lemma iupdate_inuse s st n d b :
  rep s st → 0 ≤ n < 200 → inuse sb (st_iupdate sb (inod n d) st) b ↔ inuse sb st b.
Proof. intros Hr Hn. rw /inuse /bmp (iupdate_kept s) //. rw sb_val /=. lia. Qed.

Lemma iupdate_disk s st n d j :
  rep s st → 0 ≤ n < 200 → 0 ≤ j < 200 → dinode_ok d →
  disk_inode sb (st_iupdate sb (inod n d) st) j = if decide (j = n) then d else disk_inode sb st j.
Proof.
  intros Hr Hn Hj Hd. pose proof (iblock_lt s st n Hr Hn).
  assert (to_dinode (inod n d) = d) as E by (by destruct d).
  rw st_iupdate_disk; [apply Hr|by apply inum_ok_lt|by apply inum_ok_lt|by rw /inode_fits E| |by rw E].
  apply (rep_blk s); [done|]. cbn. lia.
Qed.

Lemma owned_data st inum ty data b :
  file_ok st inum ty data → owns st (ino st inum) b → 59 ≤ b < 1000 ∧ inuse sb st b.
Proof. intros Hf Ho. destruct (owns_data sb st _ b (fo_wf _ _ _ _ Hf) Ho) as [?%rep_data ?]. done. Qed.

Lemma blocks_insert fs i f f' :
  fs !! i = Some f → blocks (<[i := f']> fs) = blocks fs + (nblk (lenZ f'.2) - nblk (lenZ f.2)).
Proof.
  revert i. induction fs as [|g fs IH]; intros [|i] Hi; cbn in Hi |- *; [done|done|simplify_eq; lia|].
  rw /blocks /= in IH |- *. rw (IH i) //. lia.
Qed.
Lemma blocks_app fs f : blocks (fs ++ [f]) = blocks fs + nblk (lenZ f.2).
Proof. rw /blocks. induction fs as [|g fs IH]; [cbn; lia|]. cbn in IH |- *. rw IH. lia. Qed.

(** File [n] changed and grew by blocks that were free; nothing else changed. *)
Record changed (n : Z) (st st' : store) : Prop := {
  cg_inode j : 0 ≤ j < 200 → j ≠ n → disk_inode sb st' j = disk_inode sb st j;
  cg_view b : 59 ≤ b < 1000 → inuse sb st b → ¬ owns st (ino st n) b → st_view st' !!! b = st_view st !!! b;
  cg_used b : 59 ≤ b < 1000 → inuse sb st b → inuse sb st' b;
  cg_own b : owns st' (ino st' n) b → owns st (ino st n) b ∨ ¬ inuse sb st b;
  cg_new b : 59 ≤ b < 1000 → inuse sb st' b → inuse sb st b ∨ owns st' (ino st' n) b;
  cg_keep b : owns st (ino st n) b → owns st' (ino st' n) b;
}.

Lemma inum_range (fs : files) i : (length fs < 200)%nat → (i < length fs)%nat → 0 ≤ inum i < 200.
Proof. rw /inum. lia. Qed.
Lemma inum_inj i j : i ≠ j → inum i ≠ inum j.
Proof. rw /inum. lia. Qed.

Section update.
Context (s s' : mst) (st st' : store) (fs : files) (i : nat).
Context (Him : image s st fs) (Hi : (i < length fs)%nat) (Hc : changed (inum i) st st').

Lemma others_ino j : (j < length fs)%nat → j ≠ i → ino st' (inum j) = ino st (inum j).
Proof using Him Hc.
  intros Hj Hne. rw /ino (cg_inode _ _ _ Hc) //; [|by apply inum_inj]. eapply inum_range; [apply Him|done].
Qed.

Lemma others_view j b :
  (j < length fs)%nat → j ≠ i → owns st (ino st (inum j)) b → st_view st' !!! b = st_view st !!! b.
Proof using Him Hi Hc.
  intros Hj Hne Ho. destruct (lookup_lt_is_Some_2 fs j Hj) as [f Hf].
  destruct (owned_data _ _ _ _ b (im_file _ _ _ Him j f Hf) Ho) as [Hb Hu].
  apply (cg_view _ _ _ Hc); [done|done|]. by apply (im_disj _ _ _ Him j i b).
Qed.

Lemma others_owns j b :
  (j < length fs)%nat → j ≠ i → owns st' (ino st' (inum j)) b ↔ owns st (ino st (inum j)) b.
Proof using Him Hi Hc.
  intros Hj Hne. rw others_ino //. apply owns_kept. intros Hz. apply (others_view j); [done|done|]. split; [done|by left].
Qed.

Lemma image_update f f' :
  fs !! i = Some f → rep s' st' → file_ok st' (inum i) f'.1 f'.2 → m_freeinode s' = m_freeinode s →
  m_freeblock s' = m_freeblock s + (nblk (lenZ f'.2) - nblk (lenZ f.2)) →
  image s' st' (<[i := f']> fs).
Proof using Him Hi Hc.
  intros Hf Hr Hfo Hfi Hfb. pose proof Him as [Hrep Hnext Hmax Hfile Hdisj Howned Hblocks Hfree].
  assert (∀ j b, (j < length fs)%nat → owns st (ino st (inum j)) b → inuse sb st b) as Hou.
  { intros j b Hj Ho. destruct (lookup_lt_is_Some_2 fs j Hj) as [g Hg]. by eapply owned_data; [apply (Hfile j g)|]. }
  split; rw ?length_insert //; [congruence| | | | |].
  - intros j g Hg. destruct (decide (i = j)) as [->|Hne]; [rw list_lookup_insert_eq // in Hg; by simplify_eq|].
    rw list_lookup_insert_ne // in Hg. pose proof (lookup_lt_Some _ _ _ Hg) as Hj.
    apply (file_ok_kept st); [apply Hrep|by apply Hfile| | |].
    + apply (cg_inode _ _ _ Hc); [by eapply inum_range|by apply inum_inj].
    + intros b Ho. by apply (others_view j).
    + intros b Hb%rep_data Hu. by apply (cg_used _ _ _ Hc).
  - intros j k b Hj Hk Hne Hoj Hok. destruct (decide (j = i)) as [->|Hji], (decide (k = i)) as [->|Hki]; [done|..].
    + rw others_owns // in Hok. destruct (cg_own _ _ _ Hc b Hoj) as [Ho|Hn]; [by apply (Hdisj i k b)|]. apply Hn. by apply (Hou k).
    + rw others_owns // in Hoj. destruct (cg_own _ _ _ Hc b Hok) as [Ho|Hn]; [by apply (Hdisj j i b)|]. apply Hn. by apply (Hou j).
    + rw others_owns // in Hoj. rw others_owns // in Hok. by apply (Hdisj j k b).
  - intros b Hb Hu. apply rep_data in Hb as Hb'. destruct (cg_new _ _ _ Hc b Hb' Hu) as [Hu0|Ho]; [|by exists i].
    destruct (Howned b Hb Hu0) as (j & Hj & Ho). exists j. split; [done|]. destruct (decide (j = i)) as [->|Hne].
    + by apply (cg_keep _ _ _ Hc).
    + by apply others_owns.
  - rw Hfb Hblocks (blocks_insert fs i f f') //. lia.
  - intros n Hn. rw (cg_inode _ _ _ Hc); [rw /inum in Hn; lia|rw /inum in Hn |- *; lia|by apply Hfree].
Qed.
End update.

Lemma overwrite_end (src old : list Z) off : off = lenZ old → overwrite off src old = old ++ src.
Proof. intros ->. rw /overwrite Nat2Z.id take_ge // drop_ge; [lia|]. by rw app_nil_r. Qed.

Lemma tight_size st n v d off : tight st (inod n d) off → tight st (inod n (d_set_size v d)) off.
Proof. intros []. by split. Qed.

(** Writing the inode back after an append. *)
Section appended.
Context (s1 : mst) (st st1 : store) (n : Z) (din1 : dinode) (ty : Z) (data p : list Z).
Let d2 := d_set_size (lenZ data + lenZ p) din1.
Let st2 := st_iupdate sb (inod n d2) st1.
Context (Hn : 0 ≤ n < 200) (Hi : fsinv sb st) (Hf : file_ok st n ty data) (Hr1 : rep s1 st1).
Context (Hp : 0 < lenZ p) (Hmax : lenZ data + lenZ p ≤ MAXFILE * BSIZE).
Context (Hwr : wrote sb (lenZ data) (lenZ p) (nthZ p) st (ino st n) st1 (inod n din1)).
Context (Ht : tight st1 (inod n din1) (lenZ data + lenZ p)).

Lemma appended_written : inode_fits (inod n d2) ∧ written sb (lenZ data) p st (ino st n) st2 (inod n d2).
Proof using Hn Hi Hf Hr1 Hp Hmax Hwr.
  pose proof (iblock_lt s1 st1 n Hr1 Hn).
  apply (written_grow sb st (ino st n) st1 (inod n din1)); [done|apply Hf..|by apply inum_ok_lt|done| |done| |].
  - rw (fo_size _ _ _ _ Hf). lia.
  - rw (fo_size _ _ _ _ Hf). lia.
  - apply (rep_blk s1); [done|]. cbn. lia.
Qed.

Lemma appended_ino : ino st2 n = inod n d2.
Proof using Hn Hi Hf Hr1 Hp Hmax Hwr.
  destruct appended_written as [_ Hwn]. rw {1}/ino. change n with (i_inum (ino st n)) at 2.
  by rw (wn_sync _ _ _ _ _ _ _ Hwn); [rw /ino /=; by destruct (disk_inode sb st n)|].
Qed.

Lemma appended_view b : 59 ≤ b < 1000 → st_view st2 !!! b = st_view st1 !!! b.
Proof using Hn Hr1. intros Hb. apply (iupdate_kept s1); [done|done|lia]. Qed.

Lemma appended_owns b : owns st2 (ino st2 n) b ↔ owns st1 (inod n din1) b.
Proof using Hn Hi Hf Hr1 Hp Hmax Hwr.
  rw appended_ino. apply (owns_kept st1 st2 (inod n din1)). intros Hz. apply appended_view.
  destruct (iw_ind _ _ _ (wt_wf _ _ _ _ _ _ _ _ Hwr)) as [?|[?%rep_data _]]; done.
Qed.

Lemma appended_changed : changed n st st2.
Proof using Hn Hi Hf Hr1 Hp Hmax Hwr.
  destruct appended_written as [_ Hwn]. split.
  - intros j Hj Hne. apply (ok_inode _ _ _ _ (wn_others _ _ _ _ _ _ _ Hwn)); [by apply inum_ok_lt|done].
  - intros b Hb Hu Ho. rw appended_view //. apply (wt_view _ _ _ _ _ _ _ _ Hwr); [rw sb_val /=; lia|done|rw sb_val /=; lia|done].
  - intros b Hb Hu. apply (wn_used _ _ _ _ _ _ _ Hwn); [rw sb_val /=; lia|done].
  - intros b Ho. apply appended_owns in Ho. by apply (wt_own _ _ _ _ _ _ _ _ Hwr).
  - intros b Hb Hu. apply (iupdate_inuse s1) in Hu; [|done..]. rw appended_owns.
    apply (wt_new _ _ _ _ _ _ _ _ Hwr); [rw sb_val /=; lia|done].
  - intros b Ho. apply appended_owns. destruct Ho as [Hz [->|(k & Hk & ->)]]; (split; [done|]).
    + left. by rw (wt_ind _ _ _ _ _ _ _ _ Hwr).
    + right. exists k. split; [done|]. by rw (wt_addr _ _ _ _ _ _ _ _ Hwr).
Qed.

Lemma appended_file : file_ok st2 n ty (data ++ p).
Proof using Hn Hi Hf Hr1 Hp Hmax Hwr Ht.
  destruct appended_written as [Hfit Hwn]. pose proof (wn_x _ _ _ _ _ _ _ Hwn) as Ex.
  split; rw ?appended_ino ?length_app.
  - apply Hwn.
  - apply Hwn.
  - done.
  - rw Ex /=. exact (fo_type _ _ _ _ Hf).
  - rw Ex /=. exact (fo_nlink _ _ _ _ Hf).
  - cbn. lia.
  - rw (wn_contents _ _ _ _ _ _ _ Hwn) (fo_data _ _ _ _ Hf). by apply overwrite_end.
  - rw Nat2Z.inj_add. apply tight_size, (tight_kept st1 st2 (inod n din1)); [lia| |exact Ht]. intros b Ho. apply appended_view.
    by destruct (owns_data sb st1 _ b (wt_wf _ _ _ _ _ _ _ _ Hwr) Ho) as [?%rep_data _].
Qed.
End appended.

Lemma iappend_run s st fs i f p :
  image s st fs → fs !! i = Some f → bytes p → 0 < lenZ p → lenZ f.2 + lenZ p ≤ MAXFILE * BSIZE →
  m_freeblock s + (nblk (lenZ f.2 + lenZ p) - nblk (lenZ f.2)) ≤ 1000 →
  ∃ s' st', iappend (inum i) p (lenZ p) s = Ret tt s' ∧ image s' st' (<[i := (f.1, f.2 ++ p)]> fs).
Proof.
  intros Him Hf Hby Hp Hmax Hroom. pose proof (im_rep _ _ _ Him) as Hr. pose proof (lookup_lt_Some _ _ _ Hf) as Hi.
  pose proof (inum_range fs i (im_max _ _ _ Him) Hi) as Hn. pose proof (im_file _ _ _ Him i f Hf) as Hfo.
  rw /iappend (run_bind _ _ _ _ _ (rinode_run s st (inum i) Hr Hn)).
  pose proof (fo_size _ _ _ _ Hfo) as Esz. change (di_size (disk_inode sb st (inum i)) = lenZ f.2) in Esz. rw Esz. rw MAXFILE_val /BSIZE in Hmax. rw xint_small; [lia|].
  destruct (iappend_loop_run (inum i) (Z.to_nat (lenZ p) + 1) s st (disk_inode sb st (inum i)) (lenZ f.2) p)
    as (s1 & st1 & din1 & H1 & Hr1 & Hwr & Ht & Hfb & Hfi);
    [done|apply Hfo|apply Hfo|lia|rw MAXFILE_val /BSIZE; lia|done|lia|done|].
  rw (run_bind _ _ _ _ _ H1). cbn [fst snd]. rw xint_small; [lia|].
  assert (lenZ f.2 + lenZ p ≤ MAXFILE * BSIZE) as Hmax' by (rw MAXFILE_val /BSIZE; lia).
  destruct (appended_written s1 st st1 (inum i) din1 f.1 f.2 p) as [Hfit _]; [done|apply Hr|done..|].
  destruct (winode_run s1 st1 (inum i) (d_set_size (lenZ f.2 + lenZ p) din1) Hr1 Hn) as (s2 & H2 & Hr2 & Hfb2 & Hfi2); [exact Hfit|].
  exists s2. eexists. split; [exact H2|].
  apply (image_update s s2 st _ fs i Him Hi) with (f := f); [|done|done| |congruence|].
  - apply (appended_changed s1 st st1 (inum i) din1 f.1 f.2 p); [done|apply Hr|done..].
  - apply (appended_file s1 st st1 (inum i) din1 f.1 f.2 p); [done|apply Hr|done..].
  - cbn. rw length_app Nat2Z.inj_add. lia.
Qed.

(** ** New inodes *)

Definition new_dinode (ty : Z) : dinode := mkDinode ty 0 0 1 0 (replicate 13 0).

Lemma new_addr n ty k : nthZ (i_addrs (inod n (new_dinode ty))) k = 0.
Proof. rw /nthZ. apply nth_replicate0. Qed.

Lemma new_iaddr st n ty k : iaddr st (inod n (new_dinode ty)) k = 0.
Proof. rw /iaddr /ind !new_addr. by destruct (k <? NDIRECT). Qed.

Lemma new_owns st n ty b : ¬ owns st (inod n (new_dinode ty)) b.
Proof. intros [Hz [E|(k & _ & E)]]; [rw /ind new_addr in E|rw new_iaddr in E]; done. Qed.

Lemma new_dinode_ok ty : 0 ≤ ty < 2 ^ 15 → dinode_ok (new_dinode ty).
Proof. intros Ht. split; cbn; [lia..|done|]. by apply (Forall_replicate (λ w, 0 ≤ w < 2 ^ 32) 13). Qed.

Lemma new_file st n ty :
  0 ≤ ty < 2 ^ 15 → ty ≠ T_DEV → disk_inode sb st n = new_dinode ty → file_ok st n ty [].
Proof.
  intros Ht Hd E. assert (ino st n = inod n (new_dinode ty)) as Ei by (by rw /ino E).
  split; rw Ei //.
  - split; [done|done|by left; rw /ind new_addr|by intros k _; left; rw new_iaddr| |].
    + intros k j _ _ Hz. by rw new_iaddr in Hz.
    + intros k _ Hz. by rw new_iaddr in Hz.
  - split; [done|cbn; rw MAXFILE_val /BSIZE; lia|cbn; lia].
  - by apply new_dinode_ok.
  - split.
    + intros k Hk. rw new_iaddr. cbn. rw /BSIZE. split; [done|lia].
    + rw /ind new_addr. cbn. done.
    + intros j _. by rw new_iaddr.
Qed.

Lemma i16_xshort x : 0 ≤ x < 2 ^ 15 → i16 (xshort x) = x.
Proof. intros. rw xshort_u16 u16_small; [lia|]. rw i16_small; lia. Qed.

Lemma ialloc_run s st fs ty :
  image s st fs → (Datatypes.S (length fs) < 200)%nat → 0 ≤ ty < 2 ^ 15 → ty ≠ T_DEV →
  ∃ s' st', ialloc ty s = Ret (inum (length fs)) s' ∧ image s' st' (fs ++ [(ty, [])]).
Proof.
  intros Him Hmax Ht Hd. pose proof Him as [Hr Hnext _ Hfile Hdisj Howned Hblocks Hfree].
  set (n := inum (length fs)) in *. assert (0 ≤ n < 200) as Hn by (rw /n /inum; lia).
  rw /ialloc run_gets run_modify Hnext i16_xshort // (i16_xshort 1) //. change (xint 0) with 0.
  rw (u32_small (n + 1)); [lia|]. set (s1 := mkMst _ _ _ _).
  assert (rep s1 st) as Hr1 by (destruct Hr; by split). pose proof (new_dinode_ok ty Ht) as Hok.
  destruct (winode_run s1 st n (new_dinode ty) Hr1) as (s2 & H2 & Hr2 & Hfb2 & Hfi2); [lia|done|].
  rw (run_bind _ _ _ _ _ H2). exists s2. eexists. split; [done|]. set (st' := st_iupdate sb _ st) in *.
  assert (∀ j, 0 ≤ j < 200 → disk_inode sb st' j = if decide (j = n) then new_dinode ty else disk_inode sb st j) as Hdi.
  { intros j Hj. apply (iupdate_disk s1); [done|lia|done|done]. }
  assert (∀ b, 59 ≤ b < 1000 → st_view st' !!! b = st_view st !!! b) as Hv.
  { intros b Hb. apply (iupdate_kept s1); [done|lia|lia]. }
  assert (∀ b, inuse sb st' b ↔ inuse sb st b) as Hu by (intros; apply (iupdate_inuse s1); [done|lia]).
  assert (ino st' n = inod n (new_dinode ty)) as En by (rw /ino Hdi; [lia|by rw decide_True]).
  assert (∀ i, (i < length fs)%nat → ino st' (inum i) = ino st (inum i)) as Eo.
  { intros i Hi. rw /ino Hdi; [rw /inum; lia|]. rw decide_False //. by apply inum_inj; lia. }
  assert (∀ i b, (i < length fs)%nat → owns st' (ino st' (inum i)) b ↔ owns st (ino st (inum i)) b) as Hown.
  { intros i b Hi. rw Eo //. apply owns_kept. intros Hz. destruct (lookup_lt_is_Some_2 fs i Hi) as [f Hf].
    apply Hv. by eapply owned_data; [apply (Hfile i f Hf)|split; [done|by left]]. }
  split; [done| |rw length_app /=; lia| | | | |].
  - rw Hfi2 length_app /= /n /inum. lia.
  - intros i f [Hf|[Hi Hf]]%lookup_app_Some.
    + pose proof (lookup_lt_Some _ _ _ Hf) as Hi. apply (file_ok_kept st); [apply Hr|by apply Hfile| | |by intros; apply Hu].
      * rw Hdi; [rw /inum; lia|]. rw decide_False //. by apply inum_inj; lia.
      * intros b Ho. apply Hv. by eapply owned_data; [apply (Hfile i f Hf)|].
    + destruct (i - length fs)%nat eqn:E; [|done]. cbn in Hf. simplify_eq/=.
      rw (_ : i = length fs); [lia|]. apply new_file; [done|done|]. rw Hdi; [rw /inum; lia|]. by rw decide_True.
  - rw length_app /=. intros i j b Hi Hj Hne Ho. destruct (decide (i = length fs)) as [->|Hin].
    { rw -/n En in Ho. by apply new_owns in Ho. }
    destruct (decide (j = length fs)) as [->|Hjn]; [rw -/n En; apply new_owns|].
    rw Hown; [lia|]. rw Hown in Ho; [lia|]. apply (Hdisj i j); [lia|lia|done|done].
  - intros b Hb Hub%Hu. destruct (Howned b Hb Hub) as (i & Hi & Ho). exists i. rw length_app /= Hown //. split; [lia|done].
  - rw Hfb2 blocks_app (_ : m_freeblock s1 = m_freeblock s) // Hblocks. change (nblk (lenZ (ty, []).2)) with 0. lia.
  - rw length_app. cbn [length]. intros m Hm. rw Hdi; [rw /inum in Hm; lia|]. rw decide_False; [rw /inum in Hm; rw /n /inum; lia|].
    apply Hfree. rw /n. rw /inum in Hm |- *. lia.
Qed.

(** ** The empty image *)

Definition sb_sector : list Z := splice 0 (sb_encode sb) zeroes.

Definition fresh_img (img : gmap Z (list Z)) : Prop :=
  ∀ b, 0 ≤ b < 1000 → img !! b = Some (if b =? 1 then sb_sector else zeroes).

Definition start_store (img : gmap Z (list Z)) : store :=
  mkStore (<[58 := bitmap 59]> img) ∅ ∅ ∅ 1000 32 29.

Lemma blk_sb_sector : blk sb_sector.
Proof. split; [by vm_compute|]. apply (bool_decide_unpack (Forall byte sb_sector)). by vm_compute. Qed.

Lemma start_inv img : fresh_img img → fsinv sb (start_store img).
Proof.
  intros Hf. split; [|intros b Hb|done].
  - rw sb_val. split; cbn; [done..|]. rw lookup_total_insert_ne //.
    rw (lookup_total_correct _ _ _ (Hf 1 ltac:(lia))). by vm_compute.
  - rw sb_val in Hb. cbn in Hb. rw /inuse /bmp sb_val. cbn [start_store st_view sb_bmapstart]. rw lookup_total_insert_eq used_bitmap;
      [rw /BPB /BSIZE; lia|rw /BPB /BSIZE; lia|]. apply bool_decide_eq_true. lia.
Qed.

Lemma start_image img : fresh_img img → image (mkMst img 1000 1 59) (start_store img) [].
Proof.
  intros Hf. assert (rep (mkMst img 1000 1 59) (start_store img)) as Hr.
  { split; cbn [m_img m_len m_freeblock]; [done|done| |lia| | |done|done|by apply start_inv].
    - intros b Hb. eexists. split; [by apply Hf|]. destruct (b =? 1); [apply blk_sb_sector|apply blk_zeros].
    - intros b Hb. rw Hf; [lia|]. by rw (_ : b =? 1 = false); [lia|].
    - intros b Hb. rw Hf; [lia|]. by rw (_ : b =? 1 = false); [lia|]. }
  split; cbn [length]; [done|done|lia|done|lia| |done|].
  - intros b Hb%rep_data Hu. apply (rep_inuse _ _ _ Hr) in Hu; [cbn in Hu; lia|lia].
  - intros n Hn. rw /inum in Hn. pose proof (iblock_lt _ _ n Hr ltac:(lia)) as Hib.
    rw /disk_inode. rw (_ : st_view (start_store img) !!! IBLOCK n sb = zeroes).
    { cbn [start_store st_view]. rw lookup_total_insert_ne; [lia|].
      rw (lookup_total_correct _ _ _ (Hf (IBLOCK n sb) ltac:(lia))). by rw (_ : IBLOCK n sb =? 1 = false); [lia|]. }
    assert (0 ≤ n mod IPB < 8) as Hk by (rw /IPB; change (BSIZE / sizeof_dinode) with 8; lia).
    revert Hk. generalize (n mod IPB). intros k Hk. assert (k ∈ seqZ 0 8) as Hin by (apply elem_of_seqZ; lia).
    assert (Forall (λ k, di_type (get_dinode k zeroes) = 0) (seqZ 0 8)) as Hall by (repeat constructor).
    rw list.Forall_forall in Hall. by apply Hall.
Qed.

Lemma init_run :
  ∃ img, fresh_img img ∧ ∀ (k : M mst unit),
    (modify (λ s, mkMst (m_img s) (m_len s) (m_freeinode s) nmeta);;
     for_up (Z.to_nat FSSIZE) 0 (λ i, wsect i zeroes);; wsect 1 sb_sector;; k) mst0 = k (mkMst img 1000 1 59).
Proof.
  set (s1 := mkMst ∅ 0 1 59).
  destruct (total_for_up (Z.to_nat FSSIZE) 0 (λ i, wsect i zeroes) (λ i s,
    (∀ b, 0 ≤ b < i → m_img s !! b = Some zeroes) ∧ m_len s = i ∧ m_freeinode s = 1 ∧ m_freeblock s = 59) s1) as ([] & s2 & Hr & H1 & H2 & H3 & H4).
  - split; [lia|done].
  - intros i s Hi (H1 & H2 & H3 & H4). change (0 + Z.of_nat (Z.to_nat FSSIZE)) with 1000 in Hi.
    exists tt. eexists. split; [done|]. rw sector_small //. cbn. split; [|split; [lia|done]].
    intros b Hb. destruct (decide (b = i)) as [->|]; [by rw lookup_insert_eq|]. rw lookup_insert_ne //. apply H1. lia.
  - change (0 + Z.of_nat (Z.to_nat FSSIZE)) with 1000 in H1, H2. exists (<[1 := sb_sector]> (m_img s2)). split.
    + intros b Hb. destruct (Z.eqb_spec b 1) as [->|]; [by rw lookup_insert_eq|]. rw lookup_insert_ne //. by apply H1.
    + intros k. rw run_modify. change (mkMst (m_img mst0) (m_len mst0) (m_freeinode mst0) nmeta) with s1.
      rw (run_bind _ _ _ _ _ Hr) /wsect run_modify sector_small // H2 H3 H4. done.
Qed.

(** ** Adding files *)

Definition data_of (f : hostfile) : list Z := concat (default [] f.2).
Definition entry (n : Z) (f : hostfile) : list Z := new_entry n (skip_underscore f.1).
Fixpoint entries (n : Z) (l : list hostfile) : list Z :=
  match l with [] => [] | f :: l => entry n f ++ entries (n + 1) l end.

(** A readable file that fits, under a name without a slash; [read] returns at
    least one byte until the end, and at most the size of the buffer. *)
Record hostfile_ok (f : hostfile) : Prop := {
  hf_name : bytes f.1;
  hf_slash : SLASH ∉ f.1;
  hf_open : ∃ pieces, f.2 = Some pieces ∧ Forall (λ p, bytes p ∧ 0 < lenZ p ≤ BSIZE) pieces;
  hf_size : lenZ (data_of f) ≤ MAXFILE * BSIZE;
}.

Lemma bytes_skip name : bytes name → bytes (skip_underscore name).
Proof. destruct name as [|c l]; [done|]. intros [? ?]%list.Forall_cons. cbn. by destruct (c =? _); [|constructor]. Qed.

Lemma entry_ok n f : hostfile_ok f → bytes (entry n f) ∧ lenZ (entry n f) = 16.
Proof. intros Hf. split; [apply bytes_entry, bytes_skip, Hf|apply length_entry]. Qed.

Lemma blocks_cons f fs : blocks (f :: fs) = nblk (lenZ f.2) + blocks fs.
Proof. done. Qed.
Lemma blocks_one ty data : blocks [(ty, data)] = nblk (lenZ data).
Proof. rw blocks_cons. cbn [snd blocks foldr]. lia. Qed.
Lemma blocks_app2 fs gs : blocks (fs ++ gs) = blocks fs + blocks gs.
Proof. rw /blocks. induction fs as [|f fs IH]; [done|]. cbn in IH |- *. rw IH. lia. Qed.
Lemma nblk_nonneg n : 0 ≤ n → 0 ≤ nblk n.
Proof. rw /nblk. destruct (6144 <? n); lia. Qed.
Lemma blocks_nonneg fs : 0 ≤ blocks fs.
Proof. induction fs as [|f fs IH]; [done|]. cbn. have := nblk_nonneg (lenZ f.2). rw /blocks in IH. lia. Qed.

Lemma appends_run s st fs i ty data pieces :
  image s st fs → fs !! i = Some (ty, data) → Forall (λ p, bytes p ∧ 0 < lenZ p ≤ BSIZE) pieces →
  lenZ (data ++ concat pieces) ≤ MAXFILE * BSIZE → 59 + blocks (<[i := (ty, data ++ concat pieces)]> fs) ≤ 1000 →
  ∃ s' st', appends (inum i) pieces s = Ret tt s' ∧ image s' st' (<[i := (ty, data ++ concat pieces)]> fs).
Proof.
  revert s st fs data. induction pieces as [|p pieces IH]; intros s st fs data Him Hf Hp Hmax Hroom.
  { cbn. rw app_nil_r list_insert_id //. by exists s, st. }
  apply list.Forall_cons in Hp as [[Hby Hp] Hps]. cbn [appends concat] in *.
  pose proof (lookup_lt_Some _ _ _ Hf) as Hi. rw (app_assoc data p) in Hmax, Hroom |- *.
  rw !length_app in Hmax. rw (blocks_insert fs i _ _ Hf) in Hroom. cbn [snd] in Hroom.
  destruct (iappend_run s st fs i (ty, data) p) as (s1 & st1 & H1 & Him1); [done|done|done|lia|cbn [snd]; lia| |].
  { rw (im_blocks _ _ _ Him). cbn [snd]. rw !length_app in Hroom.
    have := nblk_mono (lenZ data + lenZ p) (Z.of_nat (length data + length p + length (concat pieces))). lia. }
  rw (run_bind _ _ _ _ _ H1). cbn [fst snd] in Him1.
  destruct (IH s1 st1 (<[i := (ty, data ++ p)]> fs) (data ++ p)) as (s2 & st2 & H2 & Him2); [done| |done| | |].
  - by rw list_lookup_insert_eq.
  - rw !length_app. lia.
  - rw list_insert_insert_eq (blocks_insert fs i _ _ Hf). exact Hroom.
  - rw list_insert_insert_eq in Him2. by exists s2, st2.
Qed.

Lemma add_file_run s st rd fl f :
  let n := inum (Datatypes.S (length fl)) in
  image s st ((T_DIR, rd) :: fl) → hostfile_ok f → (Datatypes.S (Datatypes.S (length fl)) < 200)%nat →
  lenZ rd + 16 ≤ MAXFILE * BSIZE →
  59 + blocks ((T_DIR, rd ++ entry n f) :: fl ++ [(T_FILE, data_of f)]) ≤ 1000 →
  ∃ s' st', add_file 1 f s = Ret tt s' ∧ image s' st' ((T_DIR, rd ++ entry n f) :: fl ++ [(T_FILE, data_of f)]).
Proof.
  intros n Him Hf Hmax Hrd Hroom. destruct (entry_ok n f Hf) as [Heb Hel].
  rw /add_file bool_decide_eq_false_2; [apply Hf|]. destruct (hf_open _ Hf) as (pieces & Ep & Hps). rw Ep. cbv zeta.
  assert (data_of f = concat pieces) as Ed by (by rw /data_of Ep).
  destruct (ialloc_run s st _ T_FILE Him) as (s1 & st1 & H1 & Him1); [cbn; lia|done|done|].
  rw (run_bind _ _ _ _ _ H1). cbn [length] in H1 |- *. rw -/n xshort_u16.
  rw -/(new_entry n (skip_underscore f.1)) -/(entry n f) (_ : sizeof_dirent = lenZ (entry n f)) //. change 1 with (inum 0) at 1.
  assert (blocks ((T_DIR, rd ++ entry n f) :: fl ++ [(T_FILE, [])]) = nblk (lenZ rd + lenZ (entry n f)) + blocks fl) as E1.
  { rw blocks_cons blocks_app2 blocks_one. cbn [snd]. rw length_app Nat2Z.inj_add. change (nblk (lenZ [])) with 0. lia. }
  assert (blocks ((T_DIR, rd ++ entry n f) :: fl ++ [(T_FILE, data_of f)]) =
    nblk (lenZ rd + lenZ (entry n f)) + blocks fl + nblk (lenZ (data_of f))) as E2.
  { rw blocks_cons blocks_app2 blocks_one. cbn [snd]. rw length_app Nat2Z.inj_add. lia. }
  have Hnn := nblk_nonneg (lenZ (data_of f)).
  destruct (iappend_run s1 st1 _ 0 (T_DIR, rd) (entry n f) Him1) as (s2 & st2 & H2 & Him2); [done|done|lia|cbn [snd]; lia| |].
  { rw (im_blocks _ _ _ Him1). cbn [snd app]. rw blocks_cons blocks_app2 blocks_one. cbn [snd]. change (nblk (lenZ [])) with 0. lia. }
  rw (run_bind _ _ _ _ _ H2). cbn [fst snd] in Him2. cbn in Him2.
  destruct (appends_run s2 st2 _ (Datatypes.S (length fl)) T_FILE [] pieces Him2) as (s3 & st3 & H3 & Him3).
  - cbn. rw lookup_app_r; [lia|]. by rw Nat.sub_diag.
  - done.
  - rw -Ed. apply Hf.
  - cbn. rw insert_app_r_alt; [lia|]. rw Nat.sub_diag. cbn. rw -Ed. exact Hroom.
  - exists s3, st3. split; [done|]. cbn in Him3. rw insert_app_r_alt in Him3; [lia|]. rw Nat.sub_diag -Ed in Him3. done.
Qed.

Definition file_of (f : hostfile) : Z * list Z := (T_FILE, data_of f).

Lemma length_entries n l : Forall hostfile_ok l → lenZ (entries n l) = 16 * lenZ l.
Proof.
  revert n. induction l as [|f l IH]; intros n Hl; [done|]. apply list.Forall_cons in Hl as [Hf Hl].
  cbn [entries length]. rw length_app Nat2Z.inj_add IH //. destruct (entry_ok n f Hf) as [_ ->]. lia.
Qed.

Lemma add_files_run l s st rd fl :
  let n := inum (Datatypes.S (length fl)) in
  let fs := (T_DIR, rd ++ entries n l) :: fl ++ (file_of <$> l) in
  image s st ((T_DIR, rd) :: fl) → Forall hostfile_ok l → (length fs < 200)%nat →
  lenZ rd + 16 * lenZ l ≤ MAXFILE * BSIZE → 59 + blocks fs ≤ 1000 →
  ∃ s' st', add_files 1 l s = Ret tt s' ∧ image s' st' fs.
Proof.
  revert s st rd fl. induction l as [|f l IH]; intros s st rd fl n fs Him Hl Hlen Hrd Hroom.
  { exists s, st. split; [done|]. by rw /fs /= !app_nil_r. }
  apply list.Forall_cons in Hl as [Hf Hl]. destruct (entry_ok n f Hf) as [_ Hel].
  assert (length fs = Datatypes.S (length fl + Datatypes.S (length l)))%nat as El.
  { by rw /fs /= length_app /= length_fmap. }
  assert (blocks fs = nblk (lenZ rd + 16 + 16 * lenZ l) + (blocks fl + (nblk (lenZ (data_of f)) + blocks (file_of <$> l)))) as Eb.
  { rw /fs fmap_cons blocks_cons blocks_app2 blocks_cons. cbn [snd file_of entries].
    rw app_assoc (length_app (rd ++ entry n f)) (length_app rd) !Nat2Z.inj_add Hel length_entries //. }
  assert (59 + blocks fs ≤ 1000) as Hroom' by done. rw Eb in Hroom'. assert (length fs < 200)%nat as Hlen' by done.
  rw El in Hlen'. cbn [length] in Hrd. pose proof (blocks_nonneg (file_of <$> l)) as Hnn.
  have Hmono := nblk_mono (lenZ rd + 16) (lenZ rd + 16 + 16 * lenZ l) ltac:(lia).
  destruct (add_file_run s st rd fl f Him Hf) as (s1 & st1 & H1 & Him1); [lia|lia| |].
  { rw -/n blocks_cons blocks_app2 blocks_one. cbn [snd]. rw length_app Nat2Z.inj_add Hel. lia. }
  cbn [add_files]. rw (run_bind _ _ _ _ _ H1). rw -/n in Him1.
  assert (fs = (T_DIR, (rd ++ entry n f) ++ entries (inum (Datatypes.S (length (fl ++ [file_of f])))) l) ::
    (fl ++ [file_of f]) ++ (file_of <$> l)) as Efs.
  { rw (_ : inum (Datatypes.S (length (fl ++ [file_of f]))) = n + 1); [rw length_app /n /inum /=; lia|].
    rw /fs fmap_cons. cbn [entries]. by rw -!app_assoc. }
  rw Efs in Hroom, Hlen |- *. apply (IH s1 st1); [done|done|done| |done]. rw length_app Nat2Z.inj_add Hel. lia.
Qed.

(** ** Rounding the size of a file up to its blocks *)

Section resize.
Context (s : mst) (st : store) (n ty : Z) (data : list Z) (pad : nat).
Let d2 := d_set_size (lenZ data + Z.of_nat pad) (disk_inode sb st n).
Let st2 := st_iupdate sb (inod n d2) st.
Context (Hn : 0 ≤ n < 200) (Hr : rep s st) (Hf : file_ok st n ty data).
Context (Hpad : (lenZ data + 511) / 512 * 512 = lenZ data + Z.of_nat pad).
Context (Hmax : lenZ data ≤ MAXFILE * BSIZE).

Lemma resize_max : 0 ≤ lenZ data + Z.of_nat pad ≤ MAXFILE * BSIZE.
Proof using Hn Hr Hf Hpad Hmax. pose proof Hmax as H. rw MAXFILE_val /BSIZE in H |- *. lia. Qed.

Lemma resize_ok : dinode_ok d2.
Proof using Hn Hr Hf Hpad Hmax.
  pose proof resize_max as Hm. rw MAXFILE_val /BSIZE in Hm. pose proof (fo_fits _ _ _ _ Hf) as [H1 H2 H3 H4 H5 H6 H7]. split; try done.
  cbn. lia.
Qed.

Lemma resize_ino : ino st2 n = inod n d2.
Proof using Hn Hr Hf Hpad Hmax. rw /ino (iupdate_disk s) //; [apply resize_ok|]. by rw decide_True. Qed.

Lemma resize_view b : 59 ≤ b < 1000 → st_view st2 !!! b = st_view st !!! b.
Proof using Hn Hr Hf Hpad Hmax. intros Hb. apply (iupdate_kept s); [done|done|lia]. Qed.

Lemma resize_owned_view b : owns st (ino st n) b → st_view st2 !!! b = st_view st !!! b.
Proof using Hn Hr Hf Hpad Hmax. intros Ho. apply resize_view. by eapply owned_data. Qed.

Lemma resize_owns b : owns st2 (ino st2 n) b ↔ owns st (ino st n) b.
Proof using Hn Hr Hf Hpad Hmax.
  rw resize_ino. apply (owns_kept st st2 (ino st n)). intros Hz. apply resize_owned_view. split; [done|by left].
Qed.

Lemma resize_changed : changed n st st2.
Proof using Hn Hr Hf Hpad Hmax.
  split.
  - intros j Hj Hne. rw (iupdate_disk s) //; [apply resize_ok|]. by rw decide_False.
  - intros b Hb _ _. by apply resize_view.
  - intros b Hb Hu. by apply (iupdate_inuse s).
  - intros b Ho. left. by apply resize_owns.
  - intros b Hb Hu. left. by apply (iupdate_inuse s) in Hu.
  - intros b Ho. by apply resize_owns.
Qed.

Lemma resize_iaddr k : iaddr st2 (inod n d2) k = iaddr st (ino st n) k.
Proof using Hn Hr Hf Hpad Hmax. apply (iaddr_ext st st2 (ino st n)). intros Hz. apply resize_owned_view. split; [done|by left]. Qed.

(** The blocks of the file go up to the rounded size. *)
Lemma resize_block k : k * BSIZE < lenZ data ↔ k * BSIZE < lenZ data + Z.of_nat pad.
Proof using Hn Hr Hf Hpad Hmax. rw /BSIZE. lia. Qed.

Lemma resize_fbyte j :
  0 ≤ j < lenZ data + Z.of_nat pad → iaddr st (ino st n) (j / BSIZE) ≠ 0 ∧ fbyte st2 (inod n d2) j = fbyte st (ino st n) j.
Proof using Hn Hr Hf Hpad Hmax.
  intros Hj. pose proof resize_max as Hm. pose proof (byte_block j ltac:(lia)) as Hk.
  assert (iaddr st (ino st n) (j / BSIZE) ≠ 0) as Hz.
  { apply (tg_addr _ _ _ (fo_tight _ _ _ _ Hf)); [done|]. apply resize_block. rw /BSIZE. lia. }
  split; [done|]. rw /fbyte resize_iaddr. f_equal. apply resize_owned_view. split; [done|right]. by exists (j / BSIZE).
Qed.

Lemma resize_file : file_ok st2 n ty (data ++ replicate pad 0).
Proof using Hn Hr Hf Hpad Hmax.
  pose proof resize_max as Hm. pose proof Hf as [F1 F2 F3 F4 F5 F6 F7 F8].
  destruct (file_kept sb st st2 (ino st n)) as (_ & Hw & _);
    [apply Hr|done|done|apply resize_owned_view|by intros b _ Hu; apply (iupdate_inuse s)|].
  split; rw ?resize_ino ?length_app ?length_replicate ?Nat2Z.inj_add.
  - exact (iwf_size sb st2 _ _ Hw).
  - split; [apply F2|exact Hm|]. intros j Hj. rw resize_iaddr. by apply resize_fbyte.
  - exact resize_ok.
  - exact F4.
  - exact F5.
  - done.
  - rw /contents. cbn [inod from_dinode i_size]. change (di_size d2) with (lenZ data + Z.of_nat pad). rw seqZ_app; [lia|lia|].
    rw fmap_app. f_equal.
    + etrans; [|exact F7]. rw /contents F6. apply fmap_seqZ_ext. intros j Hj. apply resize_fbyte. lia.
    + apply (list_eq_same_length _ _ pad); [by rw length_replicate|by rw length_fmap length_seqZ; lia|].
      intros i x y _ Hx Hy. apply lookup_replicate in Hy as [-> Hi]. rw list_lookup_fmap lookup_seqZ_lt in Hx; [lia|].
      cbn in Hx. injection Hx as <-. destruct (resize_fbyte (lenZ data + Z.of_nat i)) as [Hz E]; [lia|].
      rw Z.add_0_l E. by apply (tg_zero _ _ _ F8); [lia|].
  - split.
    + intros k Hk. rw resize_iaddr -resize_block. by apply (tg_addr _ _ _ F8).
    + rw -resize_block. exact (tg_ind _ _ _ F8).
    + intros j Hj. rw resize_iaddr. intros Hz. exfalso. pose proof (byte_block j ltac:(lia)) as Hk.
      apply (tg_addr _ _ _ F8) in Hz; [|done]. apply resize_block in Hz. rw /BSIZE in Hz. lia.
Qed.
End resize.
