(* ===== verification/MkfsCorrect.v ===== *)
(** * mkfs builds a bootable file system

    [main] as a whole: what the kernel finds on the finished image. *)

From S2P Require Import Prelude CString Layout Kernel Store Fs FsAlloc FsInode FsMap FsFile FsRw FsDir Bio Log LogStore Mkfs MkfsImage.

(** ** The run of [main] *)

(** The entries of the root directory, and the zeroes up to the end of its last block. *)
Definition root_dir (l : list hostfile) : list Z := dot_de 1 [46] ++ dot_de 1 [46; 46] ++ entries 2 l.
Definition root_pad (l : list hostfile) : nat := Z.to_nat (512 - 16 * (lenZ l + 2) mod 512).
Definition root_data (l : list hostfile) : list Z := root_dir l ++ replicate (root_pad l) 0.

(** Files that fit: their inodes and blocks, and a root directory that does not
    end with a block. *)
Record mkfs_ok (l : list hostfile) : Prop := {
  mo_files : Forall hostfile_ok l;
  mo_inodes : lenZ l ≤ 198;
  mo_root : (lenZ l + 2) mod 32 ≠ 0;
  mo_blocks : nmeta + nblk (16 * (lenZ l + 2)) + blocks (file_of <$> l) ≤ FSSIZE;
}.

Lemma dot_entry : dot_de 1 [46] = new_entry 1 [46].
Proof. done. Qed.
Lemma dotdot_entry : dot_de 1 [46; 46] = new_entry 1 [46; 46].
Proof. done. Qed.
Lemma dot_bytes : bytes (dot_de 1 [46]) ∧ bytes (dot_de 1 [46; 46]).
Proof. rw dot_entry dotdot_entry. split; apply bytes_entry; repeat (apply list.Forall_cons; split; [done|]); done. Qed.

Section main.
Context (l : list hostfile) (Hok : mkfs_ok l).
Let nroot : Z := 16 * (lenZ l + 2).

Lemma length_root_dir : lenZ (root_dir l) = nroot.
Proof using Hok.
  rw /root_dir (length_app (dot_de 1 [46])) (length_app (dot_de 1 [46; 46])) !Nat2Z.inj_add length_entries; [apply Hok|].
  change (lenZ (dot_de 1 [46])) with 16. change (lenZ (dot_de 1 [46; 46])) with 16. rw /nroot. lia.
Qed.

Lemma root_room : 32 ≤ nroot ≤ 3200.
Proof using Hok. destruct Hok. rw /nroot. lia. Qed.

Lemma nblk_root a : 0 ≤ a ≤ nroot → nblk a ≤ nblk nroot.
Proof using Hok. intros. apply nblk_mono. lia. Qed.

(** The image before its size is rounded. *)
Lemma main_files :
  ∃ s st, image s st ((T_DIR, root_dir l) :: (file_of <$> l)) ∧ ∀ (k : Z → M mst unit),
    (modify (λ s, mkMst (m_img s) (m_len s) (m_freeinode s) nmeta);;
     for_up (Z.to_nat FSSIZE) 0 (λ i, wsect i zeroes);;
     wsect 1 (splice 0 (sb_encode sb) zeroes);;
     rootino ← ialloc T_DIR;
     if negb (rootino =? ROOTINO) then panic "assert" else
     iappend rootino (dot_de rootino [46]) sizeof_dirent;;
     iappend rootino (dot_de rootino [46; 46]) sizeof_dirent;;
     add_files rootino l;; k rootino) mst0 = k 1 s.
Proof using Hok.
  destruct init_run as (img & Hf & Hinit). pose proof (start_image img Hf) as Him0.
  pose proof Hok as [Hfs Hin _ Hbl]. change nmeta with 59 in Hbl. change FSSIZE with 1000 in Hbl.
  pose proof (blocks_nonneg (file_of <$> l)) as Hnn. pose proof root_room as Hrr. fold nroot in Hbl.
  destruct (ialloc_run _ _ [] T_DIR Him0) as (s1 & st1 & H1 & Him1); [cbn; lia|done|done|]. cbn [app] in Him1.
  pose proof (nblk_root 16 ltac:(lia)). pose proof (nblk_root 32 ltac:(lia)).
  destruct (iappend_run s1 st1 _ 0 (T_DIR, []) (dot_de 1 [46]) Him1) as (s2 & st2 & H2 & Him2);
    [done|apply dot_bytes|done|done| |].
  { rw (im_blocks _ _ _ Him1) blocks_one. change (59 + 0 + (nblk 16 - 0) ≤ 1000). lia. }
  change (image s2 st2 [(T_DIR, dot_de 1 [46])]) in Him2.
  destruct (iappend_run s2 st2 _ 0 _ (dot_de 1 [46; 46]) Him2 eq_refl) as (s3 & st3 & H3 & Him3);
    [apply dot_bytes|done|done| |].
  { rw (im_blocks _ _ _ Him2) blocks_one. change (59 + nblk 16 + (nblk 32 - nblk 16) ≤ 1000). lia. }
  destruct (add_files_run l s3 st3 (dot_de 1 [46] ++ dot_de 1 [46; 46]) []) as (s4 & st4 & H4 & Him4).
  - exact Him3.
  - done.
  - cbn. rw length_fmap. lia.
  - change (32 + 16 * lenZ l ≤ MAXFILE * BSIZE). rw MAXFILE_val /BSIZE. lia.
  - rw blocks_cons. cbn [snd app length]. rw -app_assoc -/(root_dir l) length_root_dir. change (inum 1) with 2. lia.
  - cbn [app length] in Him4. change (inum 1) with 2 in Him4. rw -app_assoc in Him4. exists s4, st4. split; [exact Him4|].
    intros k. rw -/sb_sector Hinit (run_bind _ _ _ _ _ H1). change (inum (length [])) with 1. cbn [Z.eqb ROOTINO Pos.eqb negb].
    change (inum 0) with 1 in H2, H3. rw (run_bind _ _ _ _ _ H2) (run_bind _ _ _ _ _ H3) (run_bind _ _ _ _ _ H4). done.
Qed.
Lemma root_round :
  (lenZ (root_dir l) + 511) / 512 * 512 = lenZ (root_dir l) + Z.of_nat (root_pad l) ∧
  (nroot / BSIZE + 1) * BSIZE = lenZ (root_dir l) + Z.of_nat (root_pad l) ∧
  lenZ (root_dir l) + Z.of_nat (root_pad l) < 2 ^ 32 ∧ lenZ (root_dir l) ≤ MAXFILE * BSIZE ∧
  nblk (lenZ (root_dir l) + Z.of_nat (root_pad l)) = nblk (lenZ (root_dir l)).
Proof using Hok.
  destruct Hok as [_ Hin Hm _]. rw length_root_dir /root_pad MAXFILE_val /BSIZE /nblk /nroot.
  destruct (Z.ltb_spec 6144 (16 * (lenZ l + 2))), (Z.ltb_spec 6144 (16 * (lenZ l + 2) + Z.of_nat (Z.to_nat (512 - (16 * (lenZ l + 2)) mod 512))));
    lia.
Qed.

Lemma main_run :
  ∃ s st, main l mst0 = Ret tt s ∧ image s st ((T_DIR, root_data l) :: (file_of <$> l)) ∧ st_view st = m_img s.
Proof using Hok.
  destruct main_files as (s1 & st1 & Him & Hrun). pose proof (im_rep _ _ _ Him) as Hr.
  destruct root_round as (R1 & R2 & R3 & R4 & R5). pose proof (im_file _ _ _ Him 0 _ eq_refl) as Hf. change (inum 0) with 1 in Hf.
  rw /main (Hrun (λ rootino, _)) (run_bind _ _ _ _ _ (rinode_run s1 st1 1 Hr ltac:(lia))).
  pose proof (fo_size _ _ _ _ Hf) as Esz. change (di_size (disk_inode sb st1 1) = lenZ (root_dir l)) in Esz.
  cbv zeta. rw Esz. rw (xint_small (lenZ (root_dir l))); [lia|]. rw length_root_dir R2 u32_small; [lia|]. rw xint_small; [lia|].
  destruct (winode_run s1 st1 1 (d_set_size (lenZ (root_dir l) + Z.of_nat (root_pad l)) (disk_inode sb st1 1)) Hr) as (s2 & H2 & Hr2 & Hfb2 & Hfi2);
    [lia|by apply (resize_ok s1 st1 1 T_DIR)|].
  rw (run_bind _ _ _ _ _ H2) run_gets.
  assert (image s2 (st_iupdate sb (inod 1 (d_set_size (lenZ (root_dir l) + Z.of_nat (root_pad l)) (disk_inode sb st1 1))) st1)
    ((T_DIR, root_data l) :: (file_of <$> l))) as Him2.
  { apply (image_update s1 s2 st1 _ _ 0 Him ltac:(cbn; lia)) with (f := (T_DIR, root_dir l)) (f' := (T_DIR, root_data l)); [|done|done| |done|].
    - by apply (resize_changed s1 st1 1 T_DIR).
    - by apply (resize_file s1 st1 1 T_DIR).
    - cbn [snd]. rw /root_data length_app length_replicate Nat2Z.inj_add R5. lia. }
  pose proof (rp_fb _ _ Hr2) as Hfb. rw /balloc (_ : m_freeblock s2 <? BSIZE * 8 = true); [apply Z.ltb_lt; rw /BSIZE; lia|].
  eexists _, _. split; [done|]. rw (_ : sector (sb_bmapstart sb) = 58); [by rw sb_val|]. split; [|exact (rp_view _ _ Hr2)].
  destruct Him2 as [[V1 V2 V3 V4 V5 V6 V7 V8 V9] I2 I3 I4 I5 I6 I7 I8]. split; [|done..].
  split; cbn [m_img m_len m_freeblock]; [by rw insert_insert_eq|lia| |done| | |done|done|done].
  - intros b Hb. destruct (decide (b = 58)) as [->|]; [|by rw lookup_insert_ne //; apply V3].
    rw lookup_insert_eq. eexists. split; [done|apply blk_bitmap].
  - intros b Hb. rw lookup_insert_ne; [lia|]. by apply V5.
  - intros b Hb. rw lookup_insert_ne; [lia|]. by apply V6.
Qed.
End main.

(** ** Looking the files up *)

Definition fname (f : hostfile) : list Z := skip_underscore f.1.

Lemma dscan_entries n l rest off i f name :
  Forall hostfile_ok l → bytes name → 0 < n → n + lenZ l < 2 ^ 16 → l !! i = Some f → same_name name (fname f) →
  (∀ j g, (j < i)%nat → l !! j = Some g → ¬ same_name name (fname g)) →
  dscan (ents (entries n l ++ rest)) off name = Some (n + Z.of_nat i, off + 16 * Z.of_nat i).
Proof.
  intros Hl Hb. revert n off i. induction l as [|g l IH]; intros n off i Hn Hmax Hi Hs Hfirst; [done|].
  apply list.Forall_cons in Hl as [Hg Hl]. cbn [entries length] in *. rw -app_assoc ents_cons; [by apply entry_ok|].
  cbn [dscan]. rw /entry entry_match //; [lia|apply bytes_skip, Hg|]. destruct i as [|i]; cbn in Hi.
  - simplify_eq. rw bool_decide_eq_true_2 // entry_inum; [lia|]. do 2 f_equal; lia.
  - rw bool_decide_eq_false_2; [by apply (Hfirst 0%nat); [lia|]|]. rw (IH Hl (n + 1) _ i) //; [lia|lia| |].
    + intros j g' Hj Hg'. apply (Hfirst (Datatypes.S j)); [lia|done].
    + do 2 f_equal; lia.
Qed.

(** A name that is not [.] or [..] and is stored by no earlier file leads to the file. *)
Lemma root_lookup l i f :
  mkfs_ok l → l !! i = Some f → ¬ same_name (fname f) [46] → ¬ same_name (fname f) [46; 46] →
  (∀ j g, (j < i)%nat → l !! j = Some g → ¬ same_name (fname f) (fname g)) →
  dscan (ents (root_data l)) 0 (fname f) = Some (Z.of_nat i + 2, 16 * (Z.of_nat i + 2)).
Proof.
  intros Hok Hi H1 H2 Hf. pose proof (lookup_lt_Some _ _ _ Hi) as Hlt. destruct Hok as [Hfs Hin _ _].
  assert (bytes (fname f)) as Hb by (rw list.Forall_lookup in Hfs; apply bytes_skip, (Hfs i f Hi)).
  assert (bytes [46] ∧ bytes [46; 46]) as [B1 B2].
  { split; repeat (apply list.Forall_cons; split; [done|]); done. }
  rw /root_data /root_dir -(app_assoc (dot_de 1 [46])) -(app_assoc (dot_de 1 [46; 46])).
  rw (ents_cons (dot_de 1 [46])) // (ents_cons (dot_de 1 [46; 46])) //. cbn [dscan].
  rw dot_entry dotdot_entry !entry_match // !bool_decide_eq_false_2 //. rw (dscan_entries _ _ _ _ i f) //; [lia|].
  do 2 f_equal; lia.
Qed.

(** ** What the kernel finds *)

Record built (l : list hostfile) (st : store) : Prop := {
  bt_inv : fsinv sb st;
  bt_root : file_ok st ROOTINO T_DIR (root_data l);
  bt_file i f : l !! i = Some f → file_ok st (Z.of_nat i + 2) T_FILE (data_of f);
  bt_apart i j b : 1 ≤ i ≤ lenZ l + 1 → 1 ≤ j ≤ lenZ l + 1 → i ≠ j → owns st (ino st i) b → ¬ owns st (ino st j) b;
  bt_owned b : data_block sb b → inuse sb st b → ∃ i, 1 ≤ i ≤ lenZ l + 1 ∧ owns st (ino st i) b;
  bt_free n : lenZ l + 2 ≤ n < sb_ninodes sb → di_type (disk_inode sb st n) = 0;
}.

(** The properties depend on the blocks alone. *)
Section view.
Context (st st' : store) (E : st_view st' = st_view st).

Lemma view_ino n : ino st' n = ino st n.
Proof using E. by rw /ino /disk_inode E. Qed.
Lemma view_owns x b : owns st' x b ↔ owns st x b.
Proof using E. apply owns_kept. by rw E. Qed.
Lemma view_inuse b : inuse sb st' b ↔ inuse sb st b.
Proof using E. by rw /inuse /bmp E. Qed.
Lemma view_file n ty data : fsinv sb st → file_ok st n ty data → file_ok st' n ty data.
Proof using E.
  intros Hi Hf. apply (file_ok_kept st); [done|done|by rw /disk_inode E|by rw E|]. intros b _ Hu. by apply view_inuse.
Qed.
Lemma view_inv :
  fsinv sb st → st_size st' = st_size st → st_base st' = st_base st → st_held st' = ∅ → fsinv sb st'.
Proof using E.
  intros [[H1 H2 H3 H4 H5 H6 H7 H8 H9] Hm Hh] E1 E2 E3. split; [|by intros b Hb; apply view_inuse, Hm|done].
  by split; rw ?E ?E1 ?E2.
Qed.
End view.

Lemma image_built l s st st' :
  image s st ((T_DIR, root_data l) :: (file_of <$> l)) → st_view st' = st_view st → st_size st' = 1000 →
  st_base st' = 32 → st_held st' = ∅ → built l st'.
Proof.
  intros [Hr Hn Hm Hf Hd Ho Hb Hfr] E E1 E2 E3. pose proof (rp_inv _ _ Hr) as Hi.
  assert (length ((T_DIR, root_data l) :: (file_of <$> l)) = Datatypes.S (length l)) as El by (by rw /= length_fmap).
  rw El in Hn, Hm, Hd, Ho, Hfr. rw /inum in Hfr.
  assert (∀ i, 1 ≤ i ≤ lenZ l + 1 → ∃ k, (k < Datatypes.S (length l))%nat ∧ i = inum k) as Hidx.
  { intros i Hr'. exists (Z.to_nat (i - 1)). rw /inum. lia. }
  split.
  - apply (view_inv st); [done|done| | |done]; [by rw (rp_size _ _ Hr)|by rw (rp_base _ _ Hr)].
  - apply (view_file st); [done|done|]. exact (Hf 0%nat _ eq_refl).
  - intros i f Hif. apply (view_file st); [done|done|]. rw (_ : Z.of_nat i + 2 = inum (Datatypes.S i)); [rw /inum; lia|].
    apply (Hf (Datatypes.S i) (file_of f)). cbn. by rw list_lookup_fmap Hif.
  - intros i j b (i' & Hi' & ->)%Hidx (j' & Hj' & ->)%Hidx Hne. rw !(view_ino st st' E) !(view_owns st st' E). apply Hd; [done|done|congruence].
  - intros b Hdb Hu. apply (view_inuse st) in Hu; [|done]. destruct (Ho b Hdb Hu) as (i & Hlt & Hown). exists (inum i).
    split; [rw /inum; lia|]. by rw (view_ino st st' E) (view_owns st st' E).
  - intros n Hrn. rw sb_val in Hrn. cbn in Hrn. rw /disk_inode E. apply Hfr. lia.
Qed.

Lemma image_boots c s st fs :
  image s st fs → st_view st = m_img s → c_locks c = [] →
  let d := mkDisk 1000 (m_img s) [] in
  recovered 2 (memdisk d) = m_img s ∧
  total boot (cold c d) (λ _ s', log_idle s' (boot_store 2 30 d) ∧ core_le c (bs_core (ls_bst s'))).
Proof.
  intros Him Ev Hc d. pose proof (im_rep _ _ _ Him) as Hr. pose proof (rp_log _ _ Hr 2 ltac:(lia)) as H2.
  assert (m_img s !!! 2 = zeroes) as E2 by by apply lookup_total_correct.
  assert (head_n zeroes = 0) as Eh by done.
  split.
  - rw /recovered /rec_writes. cbn [d memdisk]. rw E2 Eh. change (store32 0 0 zeroes) with zeroes. cbn. by apply insert_id.
  - apply (boot_idle 2 30); [done| | |done|].
    + intros b Hb. by apply (rp_img _ _ Hr).
    + pose proof (fg_sb _ _ (fi_geo _ _ (rp_inv _ _ Hr))) as Hsb. rw Ev in Hsb. split; [| |done..].
      * change (sb_logstart (sb_decode (m_img s !!! 1)) = 2). by rw Hsb sb_val.
      * change (sb_nlog (sb_decode (m_img s !!! 1)) = 30). by rw Hsb sb_val.
    + change (memdisk d !!! 2) with (m_img s !!! 2). rw E2. split; rw Eh; [done|done|lia].
Qed.

(** C11: given files that fit, [mkfs] succeeds, and the kernel that boots from the
    image finds a well-formed file system: a root directory with the entries of
    [.], [..] and every file, every file with the contents the host had, no
    block in two files, none in use that belongs to no file, the other inodes
    free; a file is looked up by its name, without its leading underscore. *)
Theorem mkfs_correct c l :
  mkfs_ok l → c_locks c = [] →
  ∃ s, main l mst0 = Ret tt s ∧
    let d := mkDisk FSSIZE (m_img s) [] in
    let st := boot_store 2 nlog d in
    total boot (cold c d) (λ _ s', log_idle s' st ∧ core_le c (bs_core (ls_bst s'))) ∧ built l st ∧
    ∀ i f, l !! i = Some f → ¬ same_name (fname f) [46] → ¬ same_name (fname f) [46; 46] →
      (∀ j g, (j < i)%nat → l !! j = Some g → ¬ same_name (fname f) (fname g)) →
      dscan (ents (contents st (ino st ROOTINO))) 0 (fname f) = Some (Z.of_nat i + 2, 16 * (Z.of_nat i + 2)).
Proof.
  intros Hok Hc. destruct (main_run l Hok) as (s & st & Hrun & Him & Ev). exists s. split; [done|].
  destruct (image_boots c s st _ Him Ev Hc) as [Er Hb]. change FSSIZE with 1000. change nlog with 30. intros d st'.
  assert (built l st') as Hbt.
  { apply (image_built l s st); [done| |done|done|done]. rw /st' /boot_store Er. by rw Ev. }
  split; [done|]. split; [done|]. intros i f. rw (fo_data _ _ _ _ (bt_root _ _ Hbt)). by apply root_lookup.
Qed.

(** Two files, one of them longer than its direct blocks. *)
Definition files2 : list hostfile :=
  [([95; 97], Some [[104; 105]; [10]]); ([98], Some (replicate 13 (replicate 512 7)))].

Lemma files2_ok : mkfs_ok files2.
Proof.
  split; [|by vm_compute|by vm_compute|by vm_compute]. repeat (apply list.Forall_cons; split); [..|done].
  - split; [by repeat (apply list.Forall_cons; split; [done|])| |eexists; split; [done|]|by vm_compute].
    + intros H. by repeat (apply elem_of_cons in H as [?|H]; [done|]); apply elem_of_nil in H.
    + repeat (apply list.Forall_cons; split; [split; [by repeat (apply list.Forall_cons; split; [done|])|done]|]). done.
  - split; [by repeat (apply list.Forall_cons; split; [done|])| |eexists; split; [done|]|by vm_compute].
    + intros H. by repeat (apply elem_of_cons in H as [?|H]; [done|]); apply elem_of_nil in H.
    + apply Forall_replicate. split; [by apply Forall_replicate|done].
Qed.

Lemma mkfs_correct_witness :
  ∃ s, main files2 mst0 = Ret tt s ∧
    dscan (ents (contents (boot_store 2 nlog (mkDisk FSSIZE (m_img s) [])) (ino (boot_store 2 nlog (mkDisk FSSIZE (m_img s) [])) ROOTINO)))
      0 [98] = Some (3, 48).
Proof.
  destruct (mkfs_correct (mkCore [] [] None 1 None) files2 files2_ok eq_refl) as (s & Hs & _ & _ & Hl).
  exists s. split; [exact Hs|]. apply (Hl 1%nat ([98], Some (replicate 13 (replicate 512 7))) eq_refl).
  - by vm_compute.
  - by vm_compute.
  - intros [|j] g Hj Hg; [|lia]. injection Hg as <-. by vm_compute.
Defined.

(** A root directory that ends with a block is rounded up to a block it does
    not have: here 32 entries of 16 bytes fill one block, the size becomes two,
    and the second has no address. *)
Lemma mkfs_root_hole :
  match main (replicate 30 ([97], Some [])) mst0 with
  | Ret _ s =>
    let root := get_dinode 1 (m_img s !!! 32) in di_size root = 2 * BSIZE ∧ addr root 0 = 59 ∧ addr root 1 = 0
  | _ => False
  end.
Proof. by vm_compute. Qed.
