(* ===== verification/Pipe.v ===== *)
(** * Pipes: pipe.c

    [pipewrite], [piperead] and [pipeclose] on the fields of [struct pipe], with
    the points where they sleep.  A process that sleeps keeps its local
    variables on its kernel stack: [pp_frames] has them, and the [_resume]
    functions are the code that runs when the scheduler switches back.

    A pipe lives in a page of its own; [pp_pipes] is the typed view of those
    pages.  [pipealloc], which needs the file table, is in File.v.

    Theorems: the ring buffer with its wrapping counters is a queue; under every
    interleaving of readers, writers, kills and closes the bytes come out in the
    order they went in, none lost or invented; and nobody sleeps on a condition
    that has become true, unless a killed writer gave up. *)

From S2P Require Import Prelude Kernel Kalloc.

Definition PIPESIZE : Z := 512.

Record pipe := mkPipe {
  pi_data : list Z;
  pi_nread : Z;
  pi_nwrite : Z;
  pi_readopen : Z;
  pi_writeopen : Z;
}.

Definition set_nread (v : Z) (p : pipe) : pipe := mkPipe (pi_data p) v (pi_nwrite p) (pi_readopen p) (pi_writeopen p).
Definition set_readopen (v : Z) (p : pipe) : pipe := mkPipe (pi_data p) (pi_nread p) (pi_nwrite p) v (pi_writeopen p).
Definition set_writeopen (v : Z) (p : pipe) : pipe := mkPipe (pi_data p) (pi_nread p) (pi_nwrite p) (pi_readopen p) v.

(** The local variables of a process that sleeps in a pipe: the bytes a writer
    has not stored yet and the count it will return, the count of a reader. *)
Inductive frame :=
| InWrite (p : Z) (src : list Z) (n : Z)
| InRead (p : Z) (n : Z).

Record pst := mkPst {
  pp_k : kst;
  pp_pipes : gmap Z pipe;
  pp_frames : gmap nat frame;
}.

#[global] Instance pst_kst : Lens pst kst.
Proof.
  refine {| lget := pp_k; lset := λ k s, mkPst k (pp_pipes s) (pp_frames s) |}; intros; by try destruct o.
Defined.

Definition pcore (s : pst) : core := k_core (pp_k s).
Definition set_pcore (c : core) (s : pst) : pst := mkPst (lset c (pp_k s)) (pp_pipes s) (pp_frames s).

#[global] Instance pst_core : Lens pst core.
Proof.
  refine {| lget := pcore; lset := set_pcore |}; intros; try done. by destruct o as [[]].
Defined.

Definition put_pipe (p : Z) (pi : pipe) (s : pst) : pst := mkPst (pp_k s) (<[p := pi]> (pp_pipes s)) (pp_frames s).
Definition del_pipe (p : Z) (s : pst) : pst := mkPst (pp_k s) (delete p (pp_pipes s)) (pp_frames s).
Definition put_frames (m : gmap nat frame) (s : pst) : pst := mkPst (pp_k s) (pp_pipes s) m.

Definition getpipe (p : Z) : M pst pipe := λ s,
  match pp_pipes s !! p with Some pi => Ret pi s | None => Fault s end.
Definition updpipe (p : Z) (f : pipe → pipe) : M pst unit :=
  pi ← getpipe p; modify (put_pipe p (f pi)).

(** Save the locals of the current process, and find them again. *)
Definition push_frame (f : frame) : M pst unit := λ s,
  match c_cur (pcore s) with
  | Some i => Ret tt (put_frames (<[i := f]> (pp_frames s)) s)
  | None => Fault s
  end.
Definition pop_frame : M pst unit := λ s,
  match c_cur (pcore s) with
  | Some i => Ret tt (put_frames (delete i (pp_frames s)) s)
  | None => Fault s
  end.

Definition killed (s : pst) : bool := negb (p_killed (cur_proc (pcore s)) =? 0).

Section pipe.
Context (kend : Z).

Definition pipeclose (p writable : Z) : M pst unit :=
  lift (acquire (LPipe p));;
  (if negb (writable =? 0)
   then updpipe p (set_writeopen 0);; lift (wakeup (ChPipeR p))
   else updpipe p (set_readopen 0);; lift (wakeup (ChPipeW p)));;
  pi ← getpipe p;
  if (pi_readopen pi =? 0) && (pi_writeopen pi =? 0) then
    lift (release (LPipe p));;
    modify (del_pipe p);;
    lift (kfree kend p)
  else lift (release (LPipe p)).

(** [p->data[p->nwrite++ % PIPESIZE] = b] *)
Definition store_byte (b : Z) (pi : pipe) : pipe :=
  mkPipe (setZ (pi_nwrite pi mod PIPESIZE) b (pi_data pi)) (pi_nread pi) (u32 (pi_nwrite pi + 1))
    (pi_readopen pi) (pi_writeopen pi).

Definition full (pi : pipe) : bool := pi_nwrite pi =? u32 (pi_nread pi + PIPESIZE).

(** The loop of [pipewrite] with the bytes of [addr] from [i] on. *)
Fixpoint pipewrite_loop (p : Z) (src : list Z) (n : Z) : M pst Z :=
  match src with
  | [] =>
    lift (wakeup (ChPipeR p));;
    lift (release (LPipe p));;
    mret n
  | b :: rest =>
    pi ← getpipe p;
    if full pi then
      k ← gets killed;
      if (pi_readopen pi =? 0) || k then
        lift (release (LPipe p));;
        mret (-1)
      else
        lift (wakeup (ChPipeR p));;
        push_frame (InWrite p src n);;
        lift (sleep (ChPipeW p) (LPipe p));;
        diverge
    else
      modify (put_pipe p (store_byte b pi));;
      pipewrite_loop p rest n
  end.

Definition pipewrite (p : Z) (addr : list Z) (n : Z) : M pst Z :=
  lift (acquire (LPipe p));;
  pipewrite_loop p (slice 0 n addr) n.

Definition pipewrite_resume (p : Z) (src : list Z) (n : Z) : M pst Z :=
  pop_frame;;
  lift (sleep_resume (LPipe p));;
  pipewrite_loop p src n.

(** The copying loop of [piperead]: the bytes it stores at [addr]. *)
Fixpoint piperead_copy (fuel : nat) (p : Z) : M pst (list Z) :=
  match fuel with
  | O => mret []
  | S fuel =>
    pi ← getpipe p;
    if pi_nread pi =? pi_nwrite pi then mret [] else
    modify (put_pipe p (set_nread (u32 (pi_nread pi + 1)) pi));;
    rest ← piperead_copy fuel p;
    mret (nthZ (pi_data pi) (pi_nread pi mod PIPESIZE) :: rest)
  end.

Definition piperead_loop (p n : Z) : M pst (Z * list Z) :=
  pi ← getpipe p;
  if (pi_nread pi =? pi_nwrite pi) && negb (pi_writeopen pi =? 0) then
    k ← gets killed;
    if k : bool then
      lift (release (LPipe p));;
      mret (-1, [])
    else
      push_frame (InRead p n);;
      lift (sleep (ChPipeR p) (LPipe p));;
      diverge
  else
    d ← piperead_copy (Z.to_nat n) p;
    lift (wakeup (ChPipeW p));;
    lift (release (LPipe p));;
    mret (lenZ d, d).

Definition piperead (p n : Z) : M pst (Z * list Z) :=
  lift (acquire (LPipe p));;
  piperead_loop p n.

Definition piperead_resume (p n : Z) : M pst (Z * list Z) :=
  pop_frame;;
  lift (sleep_resume (LPipe p));;
  piperead_loop p n.

End pipe.

(** ** The buffer is a queue *)

(** Number of bytes in the buffer, and the bytes. *)
Definition plen (pi : pipe) : Z := u32 (pi_nwrite pi - pi_nread pi).
Definition queue (pi : pipe) : list Z :=
  (λ k, nthZ (pi_data pi) ((pi_nread pi + k) mod PIPESIZE)) <$> seqZ 0 (plen pi).

Record pipe_ok (pi : pipe) : Prop := {
  po_data : length (pi_data pi) = Z.to_nat PIPESIZE;
  po_nread : 0 ≤ pi_nread pi < 2 ^ 32;
  po_nwrite : 0 ≤ pi_nwrite pi < 2 ^ 32;
  po_len : plen pi ≤ PIPESIZE;
}.

Lemma queue_length (pi : pipe) : lenZ (queue pi) = plen pi.
Proof. rw /queue length_fmap length_seqZ. have := u32_range (pi_nwrite pi - pi_nread pi). rw /plen. lia. Qed.

Lemma full_queue (pi : pipe) : pipe_ok pi → full pi = bool_decide (lenZ (queue pi) = PIPESIZE).
Proof.
  move=> [Hd Hr Hw Hl]. rw /full queue_length. apply Bool.eq_true_iff_eq.
  rw Z.eqb_eq bool_decide_eq_true. rw /plen /PIPESIZE /u32 in Hl |- *. lia.
Qed.

Lemma empty_queue (pi : pipe) : pipe_ok pi → (pi_nread pi =? pi_nwrite pi) = bool_decide (queue pi = []).
Proof.
  move=> [Hd Hr Hw Hl]. have := queue_length pi. case: (Z.eqb_spec _ _) => E HL; symmetry.
  - apply bool_decide_eq_true_2, length_zero_iff_nil. rw /plen E Z.sub_diag /u32 in HL. simpl in HL. lia.
  - apply bool_decide_eq_false_2 => E'. rw E' /plen /u32 /= in HL. lia.
Qed.

Lemma store_byte_ok (pi : pipe) (b : Z) :
  pipe_ok pi → lenZ (queue pi) < PIPESIZE →
  pipe_ok (store_byte b pi) ∧ queue (store_byte b pi) = queue pi ++ [b].
Proof.
  move=> [Hd Hr Hw Hl]. rw queue_length => Hlt. have Hp := u32_range (pi_nwrite pi - pi_nread pi).
  have Hn : plen (store_byte b pi) = plen pi + 1 by rw /plen /= /u32 /PIPESIZE in Hp Hlt |- *; lia.
  split; first split => /=; [by rw length_setZ|done|apply u32_range|lia|].
  rw /queue Hn. rw -/(plen pi) in Hp.
  have -> : plen pi + 1 = Z.of_nat (S (Z.to_nat (plen pi))) by lia.
  rw seqZ_S fmap_app /= Z2Nat.id; first lia. f_equal.
  - apply fmap_seqZ_ext => i Hi. rw nthZ_setZ_ne //; try (rw /PIPESIZE; lia).
    rw /plen /u32 /PIPESIZE in Hp Hlt Hi |- *. lia.
  - f_equal. rw (_ : (pi_nread pi + (0 + plen pi)) mod PIPESIZE = pi_nwrite pi mod PIPESIZE).
    { rw /plen /u32 /PIPESIZE. lia. }
    rw nthZ_setZ_eq // Hd /PIPESIZE. lia.
Qed.

Lemma load_byte_ok (pi : pipe) :
  pipe_ok pi → queue pi ≠ [] →
  let pi' := set_nread (u32 (pi_nread pi + 1)) pi in
  pipe_ok pi' ∧ queue pi = nthZ (pi_data pi) (pi_nread pi mod PIPESIZE) :: queue pi'.
Proof.
  move=> Hok Hne pi'. case: (Hok) => Hd Hr Hw Hl.
  have Hp : 0 < plen pi by rw -queue_length; move: Hne; case: (queue pi) => //= *; lia.
  have Hn : plen pi' = plen pi - 1 by rw /plen /= /u32 in Hp |- *; lia.
  split; first split => //; [apply u32_range|lia|].
  rw /queue Hn (seqZ_cons 0 (plen pi)) // fmap_cons Z.add_0_r. f_equal.
  rw -Z.sub_1_r. apply fmap_seqZ_ext => i Hi /=. f_equal. rw /u32 /PIPESIZE. lia.
Qed.

(** ** What a call does *)

(** The stores of [pipewrite] up to a full buffer, and the bytes left. *)
Fixpoint fill (src : list Z) (pi : pipe) : pipe * list Z :=
  match src with
  | [] => (pi, [])
  | b :: rest => if full pi then (pi, src) else fill rest (store_byte b pi)
  end.

Definition room (pi : pipe) : nat := Z.to_nat (PIPESIZE - lenZ (queue pi)).

Lemma fill_ok (src : list Z) (pi : pipe) :
  pipe_ok pi →
  let (pi', rest) := fill src pi in
  pipe_ok pi' ∧ queue pi' = queue pi ++ take (room pi) src ∧ rest = drop (room pi) src ∧
  (rest ≠ [] → full pi' = true) ∧ pi_readopen pi' = pi_readopen pi ∧ pi_writeopen pi' = pi_writeopen pi.
Proof.
  elim: src pi => [|b src IH] pi Hok /=; first by rw take_nil drop_nil app_nil_r.
  have Hl : lenZ (queue pi) ≤ PIPESIZE by rw queue_length; apply po_len.
  rw (full_queue _ Hok). case_bool_decide as Hf.
  - have -> : room pi = 0%nat by rw /room Hf Z.sub_diag.
    rw /= app_nil_r. split_and! => // _. rw full_queue // bool_decide_eq_true_2 //.
  - have [Hok' Hq] := store_byte_ok pi b Hok ltac:(lia).
    have Hr : room pi = S (room (store_byte b pi)) by rw /room Hq length_app /=; lia.
    have := IH _ Hok'. case: (fill _ _) => [pi' rest] [? [-> [-> [? [-> ->]]]]].
    rw Hr Hq -assoc /=. by split_and!.
Qed.

(** The bytes [piperead] takes out. *)
Fixpoint drain (n : nat) (pi : pipe) : pipe * list Z :=
  match n with
  | O => (pi, [])
  | S n =>
    if pi_nread pi =? pi_nwrite pi then (pi, []) else
    let (pi', rest) := drain n (set_nread (u32 (pi_nread pi + 1)) pi) in
    (pi', nthZ (pi_data pi) (pi_nread pi mod PIPESIZE) :: rest)
  end.

Lemma drain_ok (n : nat) (pi : pipe) :
  pipe_ok pi →
  let (pi', d) := drain n pi in
  pipe_ok pi' ∧ d = take n (queue pi) ∧ queue pi' = drop n (queue pi) ∧
  pi_readopen pi' = pi_readopen pi ∧ pi_writeopen pi' = pi_writeopen pi.
Proof.
  elim: n pi => [|n IH] pi Hok /=; first done.
  rw (empty_queue _ Hok). case_bool_decide as He; first by rw He.
  have [Hok' ->] := load_byte_ok pi Hok He.
  have := IH _ Hok'. case: (drain _ _) => [pi' d] /= [? [-> [-> [-> ->]]]]. done.
Qed.

Lemma put_pipe_put (p : Z) (a b : pipe) (s : pst) : put_pipe p a (put_pipe p b s) = put_pipe p a s.
Proof. rw /put_pipe /= insert_insert decide_True //. Qed.

Lemma put_pipe_id (p : Z) (pi : pipe) (s : pst) : pp_pipes s !! p = Some pi → put_pipe p pi s = s.
Proof. move=> H. rw /put_pipe insert_id //. by destruct s. Qed.

Lemma getpipe_run (p : Z) (pi : pipe) (s : pst) : pp_pipes s !! p = Some pi → getpipe p s = Ret pi s.
Proof. by rw /getpipe => ->. Qed.

Lemma pipewrite_loop_fill (p : Z) (src : list Z) (n : Z) (s : pst) (pi : pipe) :
  pp_pipes s !! p = Some pi →
  let (pi', rest) := fill src pi in
  pipewrite_loop p src n s = pipewrite_loop p rest n (put_pipe p pi' s).
Proof.
  elim: src pi s => [|b src IH] pi s Hp; cbn [fill]; first by rw put_pipe_id.
  case Hf: (full pi); first by rw put_pipe_id.
  have := IH (store_byte b pi) (put_pipe p (store_byte b pi) s) ltac:(by rw lookup_insert_eq).
  case: (fill _ _) => [pi' rest]. rw put_pipe_put => <-.
  cbn [pipewrite_loop]. by rw (run_bind _ _ _ _ _ (getpipe_run _ _ _ Hp)) Hf.
Qed.

Lemma piperead_copy_drain (n : nat) (p : Z) (s : pst) (pi : pipe) :
  pp_pipes s !! p = Some pi →
  piperead_copy n p s = Ret (drain n pi).2 (put_pipe p (drain n pi).1 s).
Proof.
  elim: n pi s => [|n IH] pi s Hp; cbn [piperead_copy drain]; first by rw put_pipe_id.
  rw (run_bind _ _ _ _ _ (getpipe_run _ _ _ Hp)). case: (_ =? _); first by rw put_pipe_id.
  set pi1 := set_nread _ pi. rw run_modify.
  rw (run_bind _ _ _ _ _ (IH pi1 _ _)); first by rw lookup_insert_eq.
  case: (drain n pi1) => [pi' d] /=. by rw put_pipe_put.
Qed.

(** A process holding the lock of pipe [p] and nothing else. *)
Record inside (p : Z) (i : nat) (pi : pipe) (s : pst) : Prop := {
  in_pipe : pp_pipes s !! p = Some pi;
  in_ok : pipe_ok pi;
  in_locks : c_locks (pcore s) = [LPipe p];
  in_cur : c_cur (pcore s) = Some i;
  in_proc : (i < length (c_procs (pcore s)))%nat;
}.

Definition unlocked (c : core) : core := set_locks [] c.

Lemma run_wake (p : Z) (ch : chan) (i : nat) (pi : pipe) (s : pst) :
  inside p i pi s → lift (wakeup ch) s = Ret tt (set_pcore (wake_all ch (pcore s)) s).
Proof. move=> H. rw /lift /= wakeup_run //. rw (in_locks _ _ _ _ H). set_solver. Qed.

Lemma run_unlock (p : Z) (s : pst) :
  c_locks (pcore s) = [LPipe p] → lift (release (LPipe p)) s = Ret tt (set_pcore (unlocked (pcore s)) s).
Proof. move=> H. rw /lift /= (release_run _ []) //. set_solver. Qed.

(** Writing: everything fits; or the buffer fills up and the call gives up, or
    sleeps with the rest. *)
Lemma pipewrite_cases (p : Z) (i : nat) (pi : pipe) (src : list Z) (n : Z) (s : pst) :
  inside p i pi s →
  ∃ pi', pipe_ok pi' ∧ queue pi' = queue pi ++ take (room pi) src ∧
    pi_readopen pi' = pi_readopen pi ∧ pi_writeopen pi' = pi_writeopen pi ∧
    let s1 := put_pipe p pi' s in let c := pcore s in let rest := drop (room pi) src in
    (rest = [] ∧
     pipewrite_loop p src n s = Ret n (set_pcore (unlocked (wake_all (ChPipeR p) c)) s1) ∨
     rest ≠ [] ∧ full pi' = true ∧ (pi_readopen pi = 0 ∨ killed s = true) ∧
     pipewrite_loop p src n s = Ret (-1) (set_pcore (unlocked c) s1) ∨
     rest ≠ [] ∧ full pi' = true ∧ pi_readopen pi ≠ 0 ∧ killed s = false ∧
     pipewrite_loop p src n s =
       Sched (set_pcore (asleep i (ChPipeW p) (wake_all (ChPipeR p) c))
         (put_frames (<[i := InWrite p rest n]> (pp_frames s)) s1))).
Proof.
  move=> H. case: (H) => Hp Hok Hl Hc Hi. have := fill_ok src pi Hok.
  have := pipewrite_loop_fill p src n s pi Hp. case: (fill src pi) => [pi' rest] ->.
  move=> [Hok' [Hq [-> [Hf [Hr Hw]]]]]. exists pi'. split_and! => //. cbv zeta.
  set s1 := put_pipe p pi' s. have Hin : inside p i pi' s1 by split => //; rw lookup_insert_eq.
  case Er: (drop (room pi) src) Hf => [|b r] Hf; cbn [pipewrite_loop].
  - left. split => //. rw (run_bind _ _ _ _ _ (run_wake _ _ _ _ _ Hin)).
    by rw (run_bind _ _ _ _ _ (run_unlock _ _ _)).
  - have {}Hf := Hf ltac:(done). rw (run_bind _ _ _ _ _ (getpipe_run _ _ _ (in_pipe _ _ _ _ Hin))) Hf run_gets Hr.
    have -> : killed s1 = killed s by []. right. case: (Z.eqb_spec (pi_readopen pi) 0) => Ho /=.
    { left. split_and! => //; first by left. by rw (run_bind _ _ _ _ _ (run_unlock _ _ _)). }
    case Hk: (killed s).
    { left. split_and! => //; first by right. by rw (run_bind _ _ _ _ _ (run_unlock _ _ _)). }
    right. split_and! => //. rw (run_bind _ _ _ _ _ (run_wake _ _ _ _ _ Hin)).
    erewrite run_bind; [|rw /push_frame /= Hc; done].
    apply run_bind_sched. rw /lift. rw (sleep_run _ _ i) //=. by rw length_map.
Qed.

Lemma piperead_cases (p : Z) (i : nat) (pi : pipe) (n : Z) (s : pst) :
  inside p i pi s →
  queue pi = [] ∧ pi_writeopen pi ≠ 0 ∧ killed s = true ∧
    piperead_loop p n s = Ret (-1, []) (set_pcore (unlocked (pcore s)) s) ∨
  queue pi = [] ∧ pi_writeopen pi ≠ 0 ∧ killed s = false ∧
    piperead_loop p n s = Sched (set_pcore (asleep i (ChPipeR p) (pcore s))
      (put_frames (<[i := InRead p n]> (pp_frames s)) s)) ∨
  (queue pi ≠ [] ∨ pi_writeopen pi = 0) ∧
  ∃ pi', pipe_ok pi' ∧ queue pi' = drop (Z.to_nat n) (queue pi) ∧
    pi_readopen pi' = pi_readopen pi ∧ pi_writeopen pi' = pi_writeopen pi ∧
    let d := take (Z.to_nat n) (queue pi) in
    piperead_loop p n s = Ret (lenZ d, d)
      (set_pcore (unlocked (wake_all (ChPipeW p) (pcore s))) (put_pipe p pi' s)).
Proof.
  move=> H. case: (H) => Hp Hok Hl Hc Hi. rw /piperead_loop.
  rw (run_bind _ _ _ _ _ (getpipe_run _ _ _ Hp)) (empty_queue _ Hok).
  case: (decide (queue pi = [] ∧ pi_writeopen pi ≠ 0)) => [[Hq Hw]|Hn].
  - rw bool_decide_eq_true_2 // (proj2 (Z.eqb_neq _ _) Hw) /= run_gets.
    case Hk: (killed s); [left|right; left]; split_and! => //.
    + by rw (run_bind _ _ _ _ _ (run_unlock _ _ _)).
    + erewrite run_bind; [|rw /push_frame /= Hc; done].
      apply run_bind_sched. rw /lift. rw (sleep_run _ _ i) //=.
  - right; right.
    have Hor : queue pi ≠ [] ∨ pi_writeopen pi = 0.
    { case: (decide (queue pi = [])) => ?; [right|by left].
      case: (decide (pi_writeopen pi = 0)) => // ?. by exfalso; apply Hn. }
    have -> : bool_decide (queue pi = []) && negb (pi_writeopen pi =? 0) = false.
    { case: Hor => [?|->]; [by rw bool_decide_eq_false_2|by rw andb_false_r]. }
    split => //. have := drain_ok (Z.to_nat n) pi Hok.
    rw (run_bind _ _ _ _ _ (piperead_copy_drain _ _ _ _ Hp)).
    case: (drain _ _) => [pi' d] [Hok' [-> [Hq [Hr Hw]]]]. exists pi'. split_and! => //. cbv zeta.
    have Hin : inside p i pi' (put_pipe p pi' s) by split => //; rw lookup_insert_eq.
    rw (run_bind _ _ _ _ _ (run_wake _ _ _ _ _ Hin)).
    by rw (run_bind _ _ _ _ _ (run_unlock _ _ _)).
Qed.

(** ** Runs of processes on one pipe *)

(** The scheduler has put process [i] on the CPU. *)
Definition on_cpu (i : nat) (ls : list lockid) (s : pst) : pst :=
  let c := pcore s in
  set_pcore (mkCore ls (alter (set_state RUNNING) i (c_procs c)) (Some i) (c_nextpid c) (c_initproc c)) s.

Definition runnable (i : nat) (s : pst) : Prop :=
  ∃ q, c_procs (pcore s) !! i = Some q ∧ (p_state q = RUNNABLE ∨ p_state q = RUNNING).

Definition sleeping_on (ch : chan) (s : pst) : Prop :=
  ∃ i q, c_procs (pcore s) !! i = Some q ∧ p_state q = SLEEPING ∧ p_chan q = Some ch.

(** A step on the pipe: bytes stored by a write that goes on, sleeps or is done,
    bytes stored by a write that returns -1, bytes returned by a read. *)
Inductive label := Sent (w : list Z) | Abandoned (w : list Z) | Got (d : list Z) | Tau.

(** The call returned or went to sleep, in this state. *)
Definition stops {A} (o : outcome pst A) (s' : pst) : Prop :=
  match o with Ret _ s => s' = s | Sched s => s' = s | _ => False end.

Definition wlabel (o : outcome pst Z) (w : list Z) : label :=
  match o with Ret r _ => if r =? -1 then Abandoned w else Sent w | _ => Sent w end.
Definition rlabel (o : outcome pst (Z * list Z)) : label :=
  match o with Ret r _ => Got r.2 | _ => Got [] end.

(** The bytes of [src] there is room for. *)
Definition fits (p : Z) (s : pst) (src : list Z) : list Z :=
  match pp_pipes s !! p with Some pi => take (room pi) src | None => [] end.

Section runs.
Context (kend p : Z).

Inductive pstep : pst → label → pst → Prop :=
| step_write i addr n s s' o :
    runnable i s → pp_frames s !! i = None →
    o = pipewrite p addr n (on_cpu i [] s) →
    stops o s' → pstep s (wlabel o (fits p s (slice 0 n addr))) s'
| step_write_resume i src n s s' o :
    runnable i s → pp_frames s !! i = Some (InWrite p src n) →
    o = pipewrite_resume p src n (on_cpu i [LPtable] s) →
    stops o s' → pstep s (wlabel o (fits p s src)) s'
| step_read i n s s' o :
    runnable i s → pp_frames s !! i = None →
    o = piperead p n (on_cpu i [] s) →
    stops o s' → pstep s (rlabel o) s'
| step_read_resume i n s s' o :
    runnable i s → pp_frames s !! i = Some (InRead p n) →
    o = piperead_resume p n (on_cpu i [LPtable] s) →
    stops o s' → pstep s (rlabel o) s'
| step_close i writable s s' :
    runnable i s → pp_frames s !! i = None →
    stops (pipeclose kend p writable (on_cpu i [] s)) s' → pstep s Tau s'
| step_other s s' :
    (** anything that does not touch this pipe: other calls, kills, exits *)
    pp_pipes s' !! p = pp_pipes s !! p →
    (∀ ch, ch = ChPipeR p ∨ ch = ChPipeW p → sleeping_on ch s' → sleeping_on ch s) →
    pstep s Tau s'.

Inductive psteps : pst → list label → pst → Prop :=
| psteps_nil s : psteps s [] s
| psteps_cons s l s1 ls s2 : pstep s l s1 → psteps s1 ls s2 → psteps s (l :: ls) s2.

(** The bytes that went in, and those that came out. *)
Definition sent (ls : list label) : list Z :=
  concat ((λ l, match l with Sent w | Abandoned w => w | _ => [] end) <$> ls).
Definition got (ls : list label) : list Z :=
  concat ((λ l, match l with Got d => d | _ => [] end) <$> ls).

(** A call that has taken the lock, from a state [s]. *)
Record entered (i : nat) (pi : pipe) (s t : pst) : Prop := {
  en_inside : inside p i pi t;
  en_pipes : pp_pipes t = pp_pipes s;
  en_sleep ch : sleeping_on ch t → sleeping_on ch s;
  en_killed : killed t = negb (p_killed (c_procs (pcore s) !!! i) =? 0);
}.

Lemma alter_sleeping (f : proc → proc) (i : nat) (ps : list proc) (ch : chan) (j : nat) (q : proc) :
  (∀ q, ps !! i = Some q → p_state (f q) ≠ SLEEPING) →
  alter f i ps !! j = Some q → p_state q = SLEEPING → ps !! j = Some q.
Proof.
  move=> Hf. case: (decide (i = j)) => [<-|Hne].
  - rw list_lookup_alter decide_True //. case E: (ps !! i) => [x|//] [<-] /=. by move=> /(Hf _ E).
  - by rw list_lookup_alter decide_False.
Qed.

Lemma enter_call (i : nat) (pi : pipe) (s : pst) :
  pp_pipes s !! p = Some pi → pipe_ok pi → runnable i s →
  ∃ t, lift (acquire (LPipe p)) (on_cpu i [] s) = Ret tt t ∧ entered i pi s t.
Proof.
  move=> Hp Hok [q [Hq Hst]]. eexists. split.
  { apply run_lift, acquire_run. simpl. set_solver. }
  split; [split|..] => //=.
  - rw length_alter. by eapply lookup_lt_Some.
  - move=> ch [j [r [Hj [Hr Hc]]]]. exists j, r. split_and! => //.
    by apply (alter_sleeping (set_state RUNNING) i _ ch).
  - rw /killed /cur_proc /= !list_lookup_total_alt list_lookup_alter decide_True // Hq //.
Qed.

Lemma enter_resume (i : nat) (pi : pipe) (s : pst) :
  pp_pipes s !! p = Some pi → pipe_ok pi → runnable i s →
  ∃ t, (pop_frame;; lift (sleep_resume (LPipe p))) (on_cpu i [LPtable] s) = Ret tt t ∧ entered i pi s t.
Proof.
  move=> Hp Hok [q [Hq Hst]]. eexists. split.
  { erewrite run_bind; [|by rw /pop_frame]. by apply run_lift, (sleep_resume_run _ i). }
  split; [split|..] => //=.
  - rw !length_alter. by eapply lookup_lt_Some.
  - move=> ch [j [r [Hj [Hr Hc]]]]. exists j, r. split_and! => //. simpl in Hj.
    apply (alter_sleeping (set_state RUNNING) i _ ch) => //.
    apply (alter_sleeping (set_chan None) i _ ch) => //.
    move=> x. rw list_lookup_alter decide_True // Hq. by move=> [<-].
  - rw /killed /cur_proc /= !list_lookup_total_alt list_lookup_alter decide_True // list_lookup_alter decide_True // Hq //.
Qed.

(** The pipe and the sleepers after a call. *)
Definition asleep_le (s s' : pst) (ch : chan) : Prop := sleeping_on ch s' → sleeping_on ch s.

Lemma wake_all_none (ch : chan) (s : pst) (c : core) :
  pcore s = unlocked (wake_all ch c) ∨ pcore s = wake_all ch c → ~ sleeping_on ch s.
Proof.
  move=> Hs [i [q [Hi [Hq Hc]]]].
  have {Hs}Hi : map (wake ch) (c_procs c) !! i = Some q by case: Hs Hi => ->.
  move: Hi. rw list_lookup_fmap. case: (c_procs c !! i) => [x|//] [E]. subst q. move: Hq Hc.
  rw /wake. case_bool_decide as Hb => //= H1 H2. by apply Hb.
Qed.

Lemma wake_all_le (ch ch' : chan) (s : pst) (c : core) :
  c_procs (pcore s) = c_procs (wake_all ch c) → ∀ t, pcore t = c → sleeping_on ch' s → sleeping_on ch' t.
Proof.
  move=> Hs t Ht [i [q [Hi [Hq Hc]]]]. rw Hs list_lookup_fmap in Hi. subst c.
  case E: (c_procs (pcore t) !! i) Hi => [x|//] [Ex]. subst q. exists i, x.
  move: Hq Hc. rw /wake. by case_bool_decide.
Qed.

Lemma asleep_sleeping (i : nat) (ch ch' : chan) (s : pst) (c : core) :
  c_procs (pcore s) = c_procs (asleep i ch c) → ch' ≠ ch → sleeping_on ch' s →
  ∃ j q, c_procs c !! j = Some q ∧ p_state q = SLEEPING ∧ p_chan q = Some ch'.
Proof.
  move=> Hs Hne [j [q [Hj [Hq Hc]]]]. rw Hs /= in Hj.
  case: (decide (i = j)) => [E|Hij].
  - subst j. rw list_lookup_alter decide_True // in Hj. move: Hj.
    case: (c_procs c !! i) => [x|//] [E]. subst q. simpl in Hc. congruence.
  - rw list_lookup_alter decide_False // in Hj. by exists j, q.
Qed.

(** Nobody sleeps on a condition that holds: readers only on an empty pipe with
    a writer, writers only on a full one with a reader. *)
Definition quiet (s : pst) : Prop :=
  ∀ pi, pp_pipes s !! p = Some pi →
    (pi_readopen pi ≠ 0 → sleeping_on (ChPipeR p) s → queue pi = [] ∧ pi_writeopen pi ≠ 0) ∧
    (pi_writeopen pi ≠ 0 → sleeping_on (ChPipeW p) s → full pi = true ∧ pi_readopen pi ≠ 0).

Definition valid (s : pst) : Prop := ∀ pi, pp_pipes s !! p = Some pi → pipe_ok pi.

(** What one step does to the queue. *)
Definition effect (l : label) (s s' : pst) : Prop :=
  match pp_pipes s' !! p with
  | None => l = Tau ∨ pp_pipes s !! p = None ∧ got [l] = []
  | Some pi' => ∃ pi, pp_pipes s !! p = Some pi ∧
    match l with
    | Sent w | Abandoned w => queue pi' = queue pi ++ w
    | Got d => queue pi = d ++ queue pi'
    | Tau => queue pi' = queue pi
    end
  end.

(** Steps that keep everybody who can go on awake: all but a write that gives
    up after storing something. *)
Definition benign (l : label) (s : pst) : Prop :=
  match l with
  | Abandoned w => w = [] ∨ ∀ pi, pp_pipes s !! p = Some pi → pi_readopen pi = 0
  | _ => True
  end.

Definition good_step (l : label) (s s' : pst) : Prop :=
  valid s' ∧ effect l s s' ∧ (quiet s → benign l s → quiet s').

Lemma sleeping_same (ch : chan) (s t : pst) :
  c_procs (pcore s) = c_procs (pcore t) → sleeping_on ch s → sleeping_on ch t.
Proof. by rw /sleeping_on => ->. Qed.

Lemma write_step (i : nat) (pi : pipe) (s t s' : pst) (src : list Z) (n : Z) :
  entered i pi s t → stops (pipewrite_loop p src n t) s' →
  good_step (wlabel (pipewrite_loop p src n t) (take (room pi) src)) s s'.
Proof.
  move=> [Hin Hps Hsl _]. have Hp := in_pipe _ _ _ _ Hin. rw Hps in Hp.
  have [pi' [Hok' [Hq [Hr [Hw H]]]]] := pipewrite_cases p i pi src n t Hin.
  have Hv : ∀ c m, valid (set_pcore c (put_frames m (put_pipe p pi' t))).
  { move=> c m x. rw /= lookup_insert_eq. by move=> [<-]. }
  have He : ∀ c m l, l = Sent (take (room pi) src) ∨ l = Abandoned (take (room pi) src) →
    effect l s (set_pcore c (put_frames m (put_pipe p pi' t))).
  { move=> c m l Hl. rw /effect /= lookup_insert_eq. exists pi. split => //. by case: Hl => ->. }
  case: H => [[Hd ->]|[[Hd [Hf [Hk ->]]]|[Hd [Hf [Ho [Hk ->]]]]]] /= ->.
  - (* done *)
    split_and!; [exact: (Hv _ (pp_frames t))|apply (He _ (pp_frames t)); case: (_ =? _); auto|].
    move=> Hqu _ x. rw /= lookup_insert_eq => [[<-]]. split.
    + move=> _ Hs. exfalso. move: Hs. apply (wake_all_none _ _ (pcore t)). by left.
    + rw Hw Hr => Hwo Hs. have [_ /(_ Hwo) Hx] := Hqu _ Hp.
      have [] := Hx ltac:(apply Hsl; by refine (wake_all_le (ChPipeR p) (ChPipeW p) _ (pcore t) _ t eq_refl Hs)).
      rw (full_queue _ (in_ok _ _ _ _ Hin)) (full_queue _ Hok').
      move=> /bool_decide_eq_true Hfull ?. split => //. apply bool_decide_eq_true_2.
      have Hr0 : room pi = 0%nat by rw /room Hfull Z.sub_diag.
      rw Hq Hr0 /= app_nil_r //.
  - (* gives up *)
    split_and!; [exact: (Hv _ (pp_frames t))|apply (He _ (pp_frames t)); auto|].
    move=> Hqu Hb x. rw /= lookup_insert_eq => [[<-]]. rw Hr Hw. have [H1 H2] := Hqu _ Hp. split.
    + move=> Hro Hs. case: Hb => [Hb|/(_ _ Hp)] //. rw Hq Hb app_nil_r. apply H1 => //. by apply Hsl.
    + move=> Hwo Hs. split => //. by have [] := H2 Hwo (Hsl _ Hs).
  - (* sleeps *)
    split_and!; [exact: Hv|by apply He; left|].
    move=> Hqu _ x. rw /= lookup_insert_eq => [[<-]]. split.
    + move=> _ Hs. exfalso. apply (asleep_sleeping i (ChPipeW p) _ _ (wake_all (ChPipeR p) (pcore t))) in Hs => //.
      apply (wake_all_none (ChPipeR p) (set_pcore (wake_all (ChPipeR p) (pcore t)) t) (pcore t)); first by right.
      done.
    + rw Hr. done.
Qed.

Lemma read_step (i : nat) (pi : pipe) (s t s' : pst) (n : Z) :
  entered i pi s t → stops (piperead_loop p n t) s' →
  good_step (rlabel (piperead_loop p n t)) s s'.
Proof.
  move=> [Hin Hps Hsl _]. have Hp := in_pipe _ _ _ _ Hin. have Hok := in_ok _ _ _ _ Hin.
  have Hpt := Hp. rw Hps in Hp.
  have Hv : ∀ c m, valid (set_pcore c (put_frames m t)) by move=> c m x; rw /= Hpt => [[<-]].
  have He : ∀ c m, effect (Got []) s (set_pcore c (put_frames m t)).
  { move=> c m. rw /effect /= Hpt. by exists pi. }
  case: (piperead_cases p i pi n t Hin) => [[Hq [Hw [Hk ->]]]|[[Hq [Hw [Hk ->]]]|[Hor [pi' [Hok' [Hq [Hr [Hw ->]]]]]]]] /= ->.
  - split_and!; [exact: (Hv _ (pp_frames t))|exact: (He _ (pp_frames t))|].
    move=> Hqu _ x. rw /= Hps => Hx. have [H1 H2] := Hqu _ Hx.
    split => Ho Hs; [apply H1|apply H2] => //; by apply Hsl.
  - split_and!; [exact: Hv|exact: He|].
    move=> Hqu _ x. rw /= Hpt => [[<-]]. have [_ H2] := Hqu _ Hp. split; first done.
    move=> Ho Hs. apply H2 => //. apply Hsl.
    by apply (asleep_sleeping i (ChPipeR p) _ _ (pcore t)) in Hs.
  - split_and!.
    + move=> x. rw /= lookup_insert_eq. by move=> [<-].
    + rw /effect /= lookup_insert_eq. exists pi. split => //. by rw Hq take_drop.
    + move=> Hqu _ x. rw /= lookup_insert_eq => [[<-]]. rw Hr Hw. have [H1 _] := Hqu _ Hp. split.
      * move=> Ho Hs. have [] := H1 Ho ltac:(apply Hsl; by refine (wake_all_le (ChPipeW p) (ChPipeR p) _ (pcore t) _ t eq_refl Hs)).
        by case: Hor.
      * move=> _ Hs. exfalso. move: Hs. apply (wake_all_none _ _ (pcore t)). by left.
Qed.

Lemma close_step (i : nat) (pi : pipe) (s t s' : pst) (writable : Z) :
  entered i pi s t → lift (acquire (LPipe p)) (on_cpu i [] s) = Ret tt t →
  stops (pipeclose kend p writable (on_cpu i [] s)) s' → good_step Tau s s'.
Proof.
  move=> [Hin Hps Hsl _] Ha. have Hp := in_pipe _ _ _ _ Hin. have Hok := in_ok _ _ _ _ Hin.
  have Hpt := Hp. rw Hps in Hp. rw /pipeclose (run_bind _ _ _ _ _ Ha).
  set ch := if negb (writable =? 0) then ChPipeR p else ChPipeW p.
  set pi' := if negb (writable =? 0) then set_writeopen 0 pi else set_readopen 0 pi.
  have Hok' : pipe_ok pi' by rw /pi'; case: (_ =? _); case: Hok.
  have Hq' : queue pi' = queue pi by rw /pi'; case: (_ =? _).
  have Hin' : inside p i pi' (put_pipe p pi' t).
  { case: Hin => *. split => //. by rw lookup_insert_eq. }
  have -> : (if negb (writable =? 0)
      then updpipe p (set_writeopen 0);; lift (wakeup (ChPipeR p))
      else updpipe p (set_readopen 0);; lift (wakeup (ChPipeW p)))
    = (updpipe p (if negb (writable =? 0) then set_writeopen 0 else set_readopen 0);; lift (wakeup ch) : M pst unit).
  { rw /ch. by case: (_ =? _). }
  rw run_assoc /updpipe run_assoc (run_bind _ _ _ _ _ (getpipe_run _ _ _ Hpt)) run_modify.
  have -> : (if negb (writable =? 0) then set_writeopen 0 else set_readopen 0) pi = pi' by rw /pi'; case: (_ =? _).
  rw (run_bind _ _ _ _ _ (run_wake _ ch _ _ _ Hin')).
  rw (run_bind _ _ _ _ _ (getpipe_run _ pi' _ _)); first by rw /= lookup_insert_eq.
  case: (_ && _).
  - (* the page is freed *)
    rw (run_bind _ _ _ _ _ (run_unlock _ _ _)); first by apply (in_locks _ _ _ _ Hin').
    rw run_modify => Hst. have Hn : pp_pipes s' !! p = None.
    { move: Hst. rw /lift. case: (kfree kend p _) => [[] k|m k|k|k|] //= ->; by rw lookup_delete_eq. }
    split_and!; [by move=> x; rw Hn|by rw /effect Hn; left|by move=> _ _ x; rw Hn].
  - rw run_unlock; first by apply (in_locks _ _ _ _ Hin'). move=> /= ->.
    split_and!.
    + move=> x. rw /= lookup_insert_eq. by move=> [<-].
    + rw /effect /= lookup_insert_eq. by exists pi.
    + move=> Hqu _ x. rw /= lookup_insert_eq => [[<-]]. have [H1 H2] := Hqu _ Hp.
      set u := set_pcore _ _.
      have Hn : ~ sleeping_on ch u by apply (wake_all_none _ _ (pcore t)); left.
      move: Hn. rw /ch /pi'. by case: (negb _); split.
Qed.

Lemma missing_step (s s' : pst) (l : label) :
  got [l] = [] → pp_pipes s !! p = None → pp_pipes s' !! p = None → good_step l s s'.
Proof. move=> Hl Hs Hs'. split_and!; [by move=> x; rw Hs'|by rw /effect Hs'; right|by move=> _ _ x; rw Hs']. Qed.

Lemma missing_write (src : list Z) (n : Z) (t s' : pst) :
  pp_pipes t !! p = None → stops (pipewrite_loop p src n t) s' → pp_pipes s' !! p = None.
Proof.
  move=> Hp. case: src => [|b src]; cbn [pipewrite_loop]; last by rw /mbind /M_bind /getpipe Hp.
  rw /mbind /M_bind /lift. case: (wakeup _ _) => [a c|m c|c|c|] //=; last by move=> ->.
  case: (release _ _) => [a' c'|m c'|c'|c'|] //=; by move=> ->.
Qed.

Lemma missing_read (n : Z) (t s' : pst) :
  pp_pipes t !! p = None → ~ stops (piperead_loop p n t) s'.
Proof. move=> Hp. rw /piperead_loop /mbind /M_bind /getpipe Hp /=. by case. Qed.

Lemma enter_missing (i : nat) (s : pst) :
  pp_pipes s !! p = None →
  (∃ t, lift (acquire (LPipe p)) (on_cpu i [] s) = Ret tt t ∧ pp_pipes t !! p = None) ∧
  (∃ t, (pop_frame;; lift (sleep_resume (LPipe p))) (on_cpu i [LPtable] s) = Ret tt t ∧ pp_pipes t !! p = None).
Proof.
  move=> Hp. split; eexists; (split; [|]).
  - apply run_lift, acquire_run. simpl. set_solver.
  - done.
  - erewrite run_bind; [|by rw /pop_frame]. by apply run_lift, (sleep_resume_run _ i).
  - done.
Qed.

Lemma pstep_good (s s' : pst) (l : label) : valid s → pstep s l s' → good_step l s s'.
Proof.
  move=> Hv Hst. destruct (pp_pipes s !! p) as [pi|] eqn:Hp.
  - have Hok := Hv _ Hp. clear Hv. destruct Hst as [i addr n s s' o Hr Hf Ho Hs|i src n s s' o Hr Hf Ho Hs|
      i n s s' o Hr Hf Ho Hs|i n s s' o Hr Hf Ho Hs|i w s s' Hr Hf Hs|s s' Hsame Hsl].
    + have [t [E He]] := enter_call i pi s Hp Hok Hr.
      move: Hs. rw Ho /pipewrite (run_bind _ _ _ _ _ E) /fits Hp. by apply write_step with (i := i).
    + have [t [E He]] := enter_resume i pi s Hp Hok Hr.
      move: Hs. rw Ho /pipewrite_resume -run_assoc (run_bind _ _ _ _ _ E) /fits Hp. by apply write_step with (i := i).
    + have [t [E He]] := enter_call i pi s Hp Hok Hr.
      move: Hs. rw Ho /piperead (run_bind _ _ _ _ _ E). by apply read_step with (i := i) (pi := pi).
    + have [t [E He]] := enter_resume i pi s Hp Hok Hr.
      move: Hs. rw Ho /piperead_resume -run_assoc (run_bind _ _ _ _ _ E). by apply read_step with (i := i) (pi := pi).
    + have [t [E He]] := enter_call i pi s Hp Hok Hr.
      exact: (close_step i pi s t s' w He E Hs).
    + split_and!.
      * move=> x. rw Hsame Hp. by move=> [<-].
      * rw /effect Hsame Hp. by exists pi.
      * move=> Hqu _ x. rw Hsame => /Hqu [H1 H2].
        split => Ho Hs; [apply H1|apply H2] => //; apply Hsl => //; by [left|right].
  - clear Hv. destruct Hst as [i addr n s s' o Hr Hf Ho Hs|i src n s s' o Hr Hf Ho Hs|
      i n s s' o Hr Hf Ho Hs|i n s s' o Hr Hf Ho Hs|i w s s' Hr Hf Hs|s s' Hsame _].
    + apply missing_step => //; first by rw /wlabel; repeat case_match. have [[t [E He]] _] := enter_missing i s Hp.
      move: Hs. rw Ho /pipewrite (run_bind _ _ _ _ _ E). by apply missing_write.
    + apply missing_step => //; first by rw /wlabel; repeat case_match. have [_ [t [E He]]] := enter_missing i s Hp.
      move: Hs. rw Ho /pipewrite_resume -run_assoc (run_bind _ _ _ _ _ E). by apply missing_write.
    + exfalso. have [[t [E He]] _] := enter_missing i s Hp.
      move: Hs. rw Ho /piperead (run_bind _ _ _ _ _ E). by apply missing_read.
    + exfalso. have [_ [t [E He]]] := enter_missing i s Hp.
      move: Hs. rw Ho /piperead_resume -run_assoc (run_bind _ _ _ _ _ E). by apply missing_read.
    + exfalso. have [[t [E He]] _] := enter_missing i s Hp.
      move: Hs. rw /pipeclose (run_bind _ _ _ _ _ E).
      by case: (_ =? _); rw /= /updpipe /mbind /M_bind /getpipe He.
    + apply missing_step => //. by rw Hsame.
Qed.

Lemma psteps_missing (s s' : pst) (ls : list label) :
  psteps s ls s' → valid s → pp_pipes s !! p = None → pp_pipes s' !! p = None ∧ got ls = [].
Proof.
  move=> H. elim: H => {s ls s'} [s|s l s1 ls s2 Hst _ IH] Hv Hp; first done.
  have [Hv1 [He _]] := pstep_good _ _ _ Hv Hst. rw /effect in He.
  destruct (pp_pipes s1 !! p) eqn:E; first by case: He => ? [E' _]; congruence.
  have [-> Hg] := IH Hv1 eq_refl. split => //.
  have Hl : got [l] = [] by case: He => [->|[_ ->]].
  rw /got /= app_nil_r in Hl. by rw /got /= Hl -/(got ls) Hg.
Qed.

Lemma psteps_fifo (s s' : pst) (ls : list label) (pi : pipe) :
  psteps s ls s' → valid s → pp_pipes s !! p = Some pi →
  match pp_pipes s' !! p with
  | Some pi' => pipe_ok pi' ∧ queue pi ++ sent ls = got ls ++ queue pi'
  | None => got ls `prefix_of` queue pi ++ sent ls
  end.
Proof.
  move=> H. elim: H pi => {s ls s'} [s|s l s1 ls s2 Hst Hss IH] pi Hv Hp.
  - rw Hp /sent /got /= app_nil_r. split => //. by apply Hv.
  - have [Hv1 [He _]] := pstep_good _ _ _ Hv Hst. rw /effect in He.
    destruct (pp_pipes s1 !! p) as [pi1|] eqn:E1.
    + have {}IH := IH pi1 Hv1 eq_refl. move: He => [pi0 [E0 He]]. have ? : pi0 = pi by congruence. subst pi0.
      destruct (pp_pipes s2 !! p) as [pi2|].
      * split; first by apply IH. destruct l; rw /sent /got /= -/(sent ls) -/(got ls) ?He.
        -- rw -(proj2 IH) He. by rw -assoc.
        -- rw -(proj2 IH) He. by rw -assoc.
        -- rw -!assoc. f_equal. apply IH.
        -- rw -He. apply IH.
      * destruct l; rw /sent /got /= -/(sent ls) -/(got ls).
        -- by rw assoc -He.
        -- by rw assoc -He.
        -- rw He -assoc. by apply prefix_app.
        -- by rw -He.
    + have [-> Hg] := psteps_missing _ _ _ Hss Hv1 E1.
      have Hl : got [l] = [] by case: He => [->|[_ ->]].
      rw /got /= app_nil_r in Hl. rw /got /= Hl -/(got ls) Hg. apply prefix_nil.
Qed.

Lemma psteps_quiet (s s' : pst) (ls : list label) :
  psteps s ls s' → valid s → quiet s → Forall (λ l, match l with Abandoned w => w = [] | _ => True end) ls →
  quiet s'.
Proof.
  move=> H. elim: H => {s ls s'} [s|s l s1 ls s2 Hst _ IH] Hv Hq //.
  move=> /list.Forall_cons [Hl Hls]. have [Hv1 [_ Hq1]] := pstep_good _ _ _ Hv Hst.
  apply IH => //. apply Hq1 => //. case: l Hl {Hst Hq1} => //= w ->. by left.
Qed.

(** C7: under every interleaving of reads, writes, sleeps, wakeups, kills and
    closes, the bytes that come out of a pipe are those that went in, in their
    order: what was sent is what was received followed by what the buffer
    holds, never more than [PIPESIZE] bytes, while the counters wrap around. *)
Theorem pipe_fifo (s s' : pst) (ls : list label) (pi : pipe) :
  pp_pipes s !! p = Some pi → pipe_ok pi → queue pi = [] → psteps s ls s' →
  match pp_pipes s' !! p with
  | Some pi' => sent ls = got ls ++ queue pi' ∧ lenZ (queue pi') ≤ PIPESIZE
  | None => got ls `prefix_of` sent ls
  end.
Proof.
  move=> Hp Hok Hq Hs. have Hv : valid s by move=> x; rw Hp => [[<-]].
  have := psteps_fifo _ _ _ _ Hs Hv Hp. rw Hq.
  destruct (pp_pipes s' !! p) as [pi'|] => //. move=> [Hok' E]. split; first done.
  rw queue_length. by apply po_len.
Qed.

(** C18: no wakeup is lost: as long as no write gives up after storing bytes, a
    reader sleeps only while the pipe is empty and has a writer, and a writer
    only while it is full and has a reader. *)
Theorem pipe_no_lost_wakeup (s s' : pst) (ls : list label) :
  valid s → quiet s → psteps s ls s' →
  Forall (λ l, match l with Abandoned w => w = [] | _ => True end) ls →
  quiet s'.
Proof. move=> Hv Hq Hs. exact: psteps_quiet Hs Hv Hq. Qed.

(** A writer on the CPU, at its call or after a sleep, with the bytes to go. *)
Definition writing (first : bool) (i : nat) (addr src : list Z) (n : Z) (s : pst) : Prop :=
  if first then src = slice 0 n addr else pp_frames s !! i = Some (InWrite p src n).

Definition run_write (first : bool) (i : nat) (addr src : list Z) (n : Z) (s : pst) : outcome pst Z :=
  if first then pipewrite p addr n (on_cpu i [] s) else pipewrite_resume p src n (on_cpu i [LPtable] s).

Lemma run_write_enter (first : bool) (i : nat) (pi : pipe) (addr src : list Z) (n : Z) (s : pst) :
  pp_pipes s !! p = Some pi → pipe_ok pi → runnable i s → writing first i addr src n s →
  ∃ t, run_write first i addr src n s = pipewrite_loop p src n t ∧ entered i pi s t.
Proof.
  move=> Hp Hok Hr. case: first => /=.
  - move=> ->. have [t [E He]] := enter_call i pi s Hp Hok Hr. exists t.
    by rw /run_write /pipewrite (run_bind _ _ _ _ _ E).
  - move=> _. have [t [E He]] := enter_resume i pi s Hp Hok Hr. exists t.
    by rw /run_write /pipewrite_resume -run_assoc (run_bind _ _ _ _ _ E).
Qed.

(** What a write does each time it gets the CPU: it stores the bytes there
    is room for; if that was all of them it returns the count; otherwise it
    gives up when the reader is gone or it was killed, or goes to sleep with
    exactly the rest of its bytes to go. *)
Theorem pipewrite_correct (first : bool) (i : nat) (pi : pipe) (addr src : list Z) (n : Z) (s : pst) :
  pp_pipes s !! p = Some pi → pipe_ok pi → runnable i s → writing first i addr src n s →
  ∃ s' pi', pp_pipes s' !! p = Some pi' ∧ queue pi' = queue pi ++ take (room pi) src ∧
    run_write first i addr src n s =
      (if decide (drop (room pi) src = []) then Ret n s'
       else if decide (pi_readopen pi = 0 ∨ p_killed (c_procs (pcore s) !!! i) ≠ 0) then Ret (-1) s'
       else Sched s') ∧
    (drop (room pi) src ≠ [] → pi_readopen pi ≠ 0 → p_killed (c_procs (pcore s) !!! i) = 0 →
     pp_frames s' !! i = Some (InWrite p (drop (room pi) src) n) ∧ sleeping_on (ChPipeW p) s').
Proof.
  move=> Hp Hok Hr Hwr. have [t [-> [Hin _ _ Hkt]]] := run_write_enter first i pi addr src n s Hp Hok Hr Hwr.
  have [pi' [Hok' [Hq [_ [_ H]]]]] := pipewrite_cases p i pi src n t Hin.
  case: H => [[Hd ->]|[[Hd [_ [Hk ->]]]|[Hd [_ [Ho [Hk ->]]]]]].
  - eexists _, pi'. rw decide_True //. split_and! => //. by rw /= lookup_insert_eq.
  - eexists _, pi'. rw decide_False // decide_True.
    { case: Hk => [?|]; [by left|]. rw Hkt => /negb_true_iff /Z.eqb_neq. by right. }
    split_and! => //; first by rw /= lookup_insert_eq.
    move=> _ Ho Hz. case: Hk => [?|]; first done. by rw Hkt Hz.
  - rw Hkt in Hk. move: Hk => /negb_false_iff /Z.eqb_eq Hk.
    eexists _, pi'. rw decide_False // decide_False; first by (move=> [?|?]).
    split_and! => //; first by rw /= lookup_insert_eq.
    move=> _ _ _. rw /= lookup_insert_eq. split => //.
    have [q Hqi] := lookup_lt_is_Some_2 _ _ (in_proc _ _ _ _ Hin).
    eexists i, _. rw /= list_lookup_alter decide_True // list_lookup_fmap Hqi //=.
Qed.

(** The exception: a killed writer that fills the pipe returns without
    waking a reader that went to sleep when the pipe was empty. *)
Theorem pipewrite_killed_sleeper (i j : nat) (pi : pipe) (q : proc) (addr : list Z) (n : Z) (s : pst) :
  pp_pipes s !! p = Some pi → pipe_ok pi → queue pi = [] → runnable i s →
  p_killed (c_procs (pcore s) !!! i) ≠ 0 → PIPESIZE < lenZ (slice 0 n addr) →
  c_procs (pcore s) !! j = Some q → p_state q = SLEEPING → p_chan q = Some (ChPipeR p) →
  ∃ s' pi', pipewrite p addr n (on_cpu i [] s) = Ret (-1) s' ∧
    pp_pipes s' !! p = Some pi' ∧ lenZ (queue pi') = PIPESIZE ∧
    c_procs (pcore s') !! j = Some q.
Proof.
  move=> Hp Hok Hq Hr Hk Hn Hj Hqs Hqc. move: (Hr) => [qi [Hqi Hst]].
  have Hij : i ≠ j by move=> E; subst j; rw Hqi in Hj; case: Hj => ?; subst; case: Hst; rw Hqs.
  rw /pipewrite. erewrite run_bind; [|apply run_lift, acquire_run; simpl; set_solver].
  set t := lset _ _.
  have Hin : inside p i pi t.
  { split => //=. rw length_alter. by eapply lookup_lt_Some. }
  have Hkt : killed t = true.
  { rw /killed /cur_proc /= list_lookup_total_alt list_lookup_alter decide_True //.
    rw list_lookup_total_alt in Hk. rw Hqi /= in Hk |- *. by apply negb_true_iff, Z.eqb_neq. }
  have Hroom : room pi = Z.to_nat PIPESIZE by rw /room Hq.
  have [pi' [Hok' [Hq' [_ [_ H]]]]] := pipewrite_cases p i pi (slice 0 n addr) n t Hin.
  have Hd : drop (room pi) (slice 0 n addr) ≠ [].
  { rw Hroom => /(f_equal length). rw length_drop /=. rw /PIPESIZE in Hn |- *. lia. }
  case: H => [[/Hd //]|[[_ [_ [_ ->]]]|[_ [_ [_ [Hk' _]]]]]]; last by rw Hkt in Hk'.
  eexists _, pi'. split_and! => //.
  - by rw /= lookup_insert_eq.
  - rw Hq' Hq app_nil_l length_take Hroom. rw /PIPESIZE in Hn |- *. lia.
  - by rw /= list_lookup_alter decide_False.
Qed.

End runs.

(** ** A run *)

Module PipeExamples.

Definition pipe_page : Z := KERNBASE + 0x200000.
Definition newpipe : pipe := mkPipe (replicate 512 0) (2 ^ 32 - 2) (2 ^ 32 - 2) 1 1.

Definition worker (pid : Z) (k : Z) (st : procstate) (ch : option chan) : proc :=
  mkProc 0 0 0 st pid None tf0 ch k (replicate NOFILE None) None [].

(** A writer that may have been killed, and a reader that may sleep. *)
Definition pipe_state (k : Z) (st : procstate) (ch : option chan) : pst :=
  mkPst (mkKst (mkCore [] [worker 1 k RUNNABLE None; worker 2 0 st ch] None 3 None) ∅ 0 1 (mkVmg 0 0 0 0))
    {[ pipe_page := newpipe ]} ∅.

Definition start : pst := pipe_state 0 RUNNABLE None.

Lemma newpipe_ok : pipe_ok newpipe.
Proof. split; [done|by cbn; lia..|by vm_compute]. Qed.

Lemma runnable_dec (i : nat) (s : pst) :
  match c_procs (pcore s) !! i with
  | Some q => bool_decide (p_state q = RUNNABLE) || bool_decide (p_state q = RUNNING)
  | None => false
  end = true → runnable i s.
Proof.
  rw /runnable. case: (_ !! i) => [q|//] /orb_true_iff [/bool_decide_eq_true ?|/bool_decide_eq_true ?];
    exists q; split => //; by [left|right].
Qed.

Definition st_of {A} (s : pst) (o : outcome pst A) : pst :=
  match o with Ret _ s' => s' | Sched s' => s' | _ => s end.

(** The writer sends three bytes across the wrap-around, the reader takes two. *)
Definition after_write : pst := st_of start (pipewrite pipe_page [7; 8; 9] 3 (on_cpu 0 [] start)).
Definition after_read : pst := st_of start (piperead pipe_page 2 (on_cpu 1 [] after_write)).

Lemma run_two (kend : Z) : psteps kend pipe_page start [Sent [7; 8; 9]; Got [7; 8]] after_read.
Proof.
  have H1 : pstep kend pipe_page start (Sent [7; 8; 9]) after_write.
  { have -> : Sent [7; 8; 9] = wlabel (pipewrite pipe_page [7; 8; 9] 3 (on_cpu 0 [] start))
      (fits pipe_page start (slice 0 3 [7; 8; 9])) by vm_compute.
    eapply (step_write kend pipe_page 0 [7; 8; 9] 3); [by apply runnable_dec; vm_compute|done|done|by vm_compute]. }
  have H2 : pstep kend pipe_page after_write (Got [7; 8]) after_read.
  { have -> : Got [7; 8] = rlabel (piperead pipe_page 2 (on_cpu 1 [] after_write)) by vm_compute.
    eapply (step_read kend pipe_page 1 2); [by apply runnable_dec; vm_compute|done|done|by vm_compute]. }
  eapply psteps_cons; [exact H1|]. eapply psteps_cons; [exact H2|]. constructor.
Qed.

Lemma pipe_fifo_witness :
  ∃ pi', pp_pipes after_read !! pipe_page = Some pi' ∧ queue pi' = [9] ∧
  match pp_pipes after_read !! pipe_page with
  | Some pi' => sent [Sent [7; 8; 9]; Got [7; 8]] = got [Sent [7; 8; 9]; Got [7; 8]] ++ queue pi' ∧
      lenZ (queue pi') ≤ PIPESIZE
  | None => got [Sent [7; 8; 9]; Got [7; 8]] `prefix_of` sent [Sent [7; 8; 9]; Got [7; 8]]
  end.
Proof.
  eexists. split; [|split].
  3: exact (pipe_fifo 0 pipe_page start after_read _ newpipe eq_refl newpipe_ok eq_refl (run_two 0)).
  - by vm_compute.
  - by vm_compute.
Defined.

Lemma start_valid : valid pipe_page start.
Proof. move=> pi [<-]. apply newpipe_ok. Qed.

Lemma start_quiet : quiet pipe_page start.
Proof.
  move=> pi _. split => _ [i [q [Hi [Hq _]]]]; exfalso; move: Hi Hq;
    by case: i => [|[|i]] //= [<-].
Qed.

Lemma pipe_no_lost_wakeup_witness : valid pipe_page start ∧ quiet pipe_page after_read.
Proof.
  split; [exact start_valid|].
  apply (pipe_no_lost_wakeup 0 pipe_page start after_read [Sent [7; 8; 9]; Got [7; 8]]);
    [exact start_valid|exact start_quiet|exact (run_two 0)|by repeat constructor].
Defined.

Lemma pipewrite_correct_witness :
  ∃ s' pi', pp_pipes s' !! pipe_page = Some pi' ∧ lenZ (queue pi') = 512 ∧
    pp_frames s' !! 0%nat = Some (InWrite pipe_page (replicate 88 5) 600).
Proof.
  destruct (pipewrite_correct pipe_page true 0 newpipe (replicate 600 5) (replicate 600 5) 600 start)
    as (s' & pi' & Hp & Hq & _ & Hf);
    [done|exact newpipe_ok|by apply runnable_dec; vm_compute|by vm_compute|].
  exists s', pi'. split; [exact Hp|]. split.
  - rewrite Hq. by vm_compute.
  - apply Hf; by vm_compute.
Defined.

Lemma pipewrite_killed_sleeper_witness :
  ∃ s' pi', pipewrite pipe_page (replicate 600 5) 600
      (on_cpu 0 [] (pipe_state 1 SLEEPING (Some (ChPipeR pipe_page)))) = Ret (-1) s' ∧
    pp_pipes s' !! pipe_page = Some pi' ∧ lenZ (queue pi') = PIPESIZE ∧
    c_procs (pcore s') !! 1%nat = Some (worker 2 0 SLEEPING (Some (ChPipeR pipe_page))).
Proof.
  apply (pipewrite_killed_sleeper pipe_page 0 1 newpipe _ (replicate 600 5) 600
    (pipe_state 1 SLEEPING (Some (ChPipeR pipe_page)))); try done.
  by apply runnable_dec; vm_compute.
Defined.

End PipeExamples.
