(* ===== verification/Sys.v ===== *)
(** * The state of the whole kernel

    The components of the earlier files side by side: the file system over its
    block store, physical memory and page tables, pipes, the table of open files
    and the clock.  The process table and the locks ([core]) are shared by all
    of them; each component is run on its view of the state. *)

From S2P Require Import Prelude Layout Kernel Kalloc Store Fs Pipe.

(** file.h *)
Inductive ftype := FD_NONE | FD_PIPE | FD_INODE.

#[global] Instance ftype_eq_dec : EqDecision ftype.
Proof. solve_decision. Defined.

Record file := mkFile {
  f_type : ftype;
  f_ref : Z;
  f_readable : Z;
  f_writable : Z;
  f_pipe : Z;
  f_ip : option nat;
  f_off : Z;
}.

Definition file0 : file := mkFile FD_NONE 0 0 0 0 None 0.
#[global] Instance file_inhabited : Inhabited file := populate file0.

Definition NFILE : nat := 100.

Definition w_fref (v : Z) (f : file) : file :=
  mkFile (f_type f) v (f_readable f) (f_writable f) (f_pipe f) (f_ip f) (f_off f).
Definition w_ftype (t : ftype) (f : file) : file :=
  mkFile t (f_ref f) (f_readable f) (f_writable f) (f_pipe f) (f_ip f) (f_off f).
Definition w_foff (v : Z) (f : file) : file :=
  mkFile (f_type f) (f_ref f) (f_readable f) (f_writable f) (f_pipe f) (f_ip f) v.

Record sys (S : Type) := mkSys {
  y_fs : fst_state S;
  y_mem : gmap Z (list Z);
  y_freelist : Z;
  y_uselock : Z;
  y_vm : vmglobals;
  y_pipes : gmap Z pipe;
  y_frames : gmap nat frame;
  y_files : list file;          (** [ftable.file] *)
  y_ticks : Z;
}.
Arguments mkSys {S} _ _ _ _ _ _ _ _ _.
Arguments y_fs {S} _.
Arguments y_mem {S} _.
Arguments y_freelist {S} _.
Arguments y_uselock {S} _.
Arguments y_vm {S} _.
Arguments y_pipes {S} _.
Arguments y_frames {S} _.
Arguments y_files {S} _.
Arguments y_ticks {S} _.

Section sys.
Context {S : Type} `{!Lens S core, !BlockStore S}.

Abbreviation sys := (sys S).
Abbreviation fst := (fst_state S).

Definition set_fs (x : fst) (s : sys) : sys :=
  mkSys x (y_mem s) (y_freelist s) (y_uselock s) (y_vm s) (y_pipes s) (y_frames s) (y_files s) (y_ticks s).
Definition set_files (l : list file) (s : sys) : sys :=
  mkSys (y_fs s) (y_mem s) (y_freelist s) (y_uselock s) (y_vm s) (y_pipes s) (y_frames s) l (y_ticks s).
Definition set_ticks (v : Z) (s : sys) : sys :=
  mkSys (y_fs s) (y_mem s) (y_freelist s) (y_uselock s) (y_vm s) (y_pipes s) (y_frames s) (y_files s) v.

#[global] Instance sys_fst : Lens sys fst.
Proof. refine {| lget := y_fs; lset := set_fs |}; intros; by try destruct o. Defined.

Definition ycore (s : sys) : core := lget (y_fs s).
Definition set_ycore (c : core) (s : sys) : sys := set_fs (lset c (y_fs s)) s.

#[global] Instance sys_core : Lens sys core.
Proof.
  refine {| lget := ycore; lset := set_ycore |}; intros.
  - exact (lget_lset (I:=core) _ _).
  - rw /set_ycore. by rw (lset_lset (I:=core)).
  - destruct o. rw /set_ycore /set_fs /ycore. cbn [y_fs y_mem k_core k_mem k_freelist k_uselock k_vm pp_k pp_pipes pp_frames]. by rw (lset_lget (I:=core)).
Defined.

Definition yk (s : sys) : kst := mkKst (ycore s) (y_mem s) (y_freelist s) (y_uselock s) (y_vm s).
Definition set_yk (k : kst) (s : sys) : sys :=
  mkSys (lset (k_core k) (y_fs s)) (k_mem k) (k_freelist k) (k_uselock k) (k_vm k)
    (y_pipes s) (y_frames s) (y_files s) (y_ticks s).

#[global] Instance sys_kst : Lens sys kst.
Proof.
  refine {| lget := yk; lset := set_yk |}; intros.
  - destruct i. rw /yk /set_yk /ycore. by rw (lget_lset (I:=core)).
  - rw /set_yk. by rw (lset_lset (I:=core)).
  - destruct o. rw /set_yk /yk /ycore. cbn [y_fs y_mem k_core k_mem k_freelist k_uselock k_vm pp_k pp_pipes pp_frames]. by rw (lset_lget (I:=core)).
Defined.

Definition yp (s : sys) : pst := mkPst (yk s) (y_pipes s) (y_frames s).
Definition set_yp (p : pst) (s : sys) : sys :=
  mkSys (lset (k_core (pp_k p)) (y_fs s)) (k_mem (pp_k p)) (k_freelist (pp_k p)) (k_uselock (pp_k p))
    (k_vm (pp_k p)) (pp_pipes p) (pp_frames p) (y_files s) (y_ticks s).

#[global] Instance sys_pst : Lens sys pst.
Proof.
  refine {| lget := yp; lset := set_yp |}; intros.
  - destruct i as [[] ? ?]. rw /yp /set_yp /yk /ycore. by rw (lget_lset (I:=core)).
  - rw /set_yp. by rw (lset_lset (I:=core)).
  - destruct o. rw /set_yp /yp /yk /ycore. cbn [y_fs y_mem k_core k_mem k_freelist k_uselock k_vm pp_k pp_pipes pp_frames]. by rw (lset_lget (I:=core)).
Defined.

(** [proc], and updates of it. *)
Definition myproc (s : sys) : proc := cur_proc (ycore s).
Definition upd_proc (f : proc → proc) : M sys unit := lift (with_cur f).

(** A file of the table. *)
Definition nfile (k : nat) (s : sys) : file := y_files s !!! k.
Definition fupd (k : nat) (f : file → file) (s : sys) : sys := set_files (alter f k (y_files s)) s.

End sys.
