(* ===== verification/File.v ===== *)
(** * Open files: file.c, and [pipealloc] of pipe.c *)

From S2P Require Import Prelude Layout Kernel Kalloc Store Fs Pipe Sys.

Definition LOGSIZE : Z := 30.

Section file.
Context {S : Type} `{!Lens S core, !BlockStore S} (kend : Z).
Context (dev_read : Z → option (nat → Z → Z → M (fst_state S) (Z * list Z))).
Context (dev_write : Z → option (nat → Z → list Z → M (fst_state S) Z)).

Abbreviation sys := (sys S).

(** [begin_op] and [end_op] of the log below the file system. *)
Definition ybegin_op : M sys unit := lift (lift begin_op : M (fst_state S) unit).
Definition yend_op : M sys unit := lift (lift end_op : M (fst_state S) unit).

(** The scan of [filealloc]. *)
Fixpoint filealloc_find (n k : nat) (l : list file) : option nat :=
  match n with
  | O => None
  | Datatypes.S n => if f_ref (l !!! k) =? 0 then Some k else filealloc_find n (Datatypes.S k) l
  end.

Definition filealloc : M sys (option nat) :=
  lift (acquire LFtable);;
  r ← gets (λ s : sys, filealloc_find NFILE 0 (y_files s));
  match r with
  | Some k =>
    modify (fupd k (w_fref 1));;
    lift (release LFtable);;
    mret (Some k)
  | None =>
    lift (release LFtable);;
    mret None
  end.

Definition filedup (k : nat) : M sys nat :=
  lift (acquire LFtable);;
  f ← gets (nfile k);
  if f_ref f <? 1 then panic "filedup" else
  modify (fupd k (w_fref (i32 (f_ref f + 1))));;
  lift (release LFtable);;
  mret k.

Definition fileclose (k : nat) : M sys unit :=
  lift (acquire LFtable);;
  f ← gets (nfile k);
  if f_ref f <? 1 then panic "fileclose" else
  if f_ref f - 1 >? 0 then
    modify (fupd k (w_fref (f_ref f - 1)));;
    lift (release LFtable)
  else
    modify (fupd k (λ f, w_ftype FD_NONE (w_fref 0 f)));;
    lift (release LFtable);;
    match f_type f with
    | FD_PIPE => lift (pipeclose kend (f_pipe f) (f_writable f))
    | FD_INODE =>
      match f_ip f with
      | Some ip =>
        ybegin_op;;
        lift (iput ip : M (fst_state S) unit);;
        yend_op
      | None => fault
      end
    | FD_NONE => mret tt
    end.

(** The result and the metadata stored at [st]. *)
Definition filestat (k : nat) : M sys (Z * option stat) :=
  f ← gets (nfile k);
  match f_type f, f_ip f with
  | FD_INODE, Some ip =>
    lift (ilock (Some ip) : M (fst_state S) unit);;
    st ← lift (stati ip : M (fst_state S) stat);
    lift (iunlock (Some ip) : M (fst_state S) unit);;
    mret (0, Some st)
  | FD_INODE, None => fault
  | _, _ => mret (-1, None)
  end.

(** The result and the bytes stored at [addr]. *)
Definition fileread (k : nat) (n : Z) : M sys (Z * list Z) :=
  f ← gets (nfile k);
  if f_readable f =? 0 then mret (-1, []) else
  match f_type f with
  | FD_PIPE => lift (piperead (f_pipe f) n)
  | FD_INODE =>
    match f_ip f with
    | Some ip =>
      lift (ilock (Some ip) : M (fst_state S) unit);;
      r ← lift (readi dev_read ip (f_off f) n);
      when (0 <? r.1) (modify (fupd k (λ f, w_foff (u32 (f_off f + r.1)) f)));;
      lift (iunlock (Some ip) : M (fst_state S) unit);;
      mret r
    | None => fault
    end
  | FD_NONE => panic "fileread"
  end.

(** Bytes written in one transaction. *)
Definition wchunk : Z := (LOGSIZE - 1 - 1 - 2) / 2 * 512.

(** The loop of [filewrite] on an inode, at [addr + i]. *)
Fixpoint filewrite_loop (fuel : nat) (k ip : nat) (addr : list Z) (n i : Z) : M sys Z :=
  match fuel with
  | O => diverge
  | Datatypes.S fuel =>
    if i <? n then
      let n1 := if n - i >? wchunk then wchunk else n - i in
      ybegin_op;;
      lift (ilock (Some ip) : M (fst_state S) unit);;
      f ← gets (nfile k);
      r ← lift (writei dev_write ip (drop (Z.to_nat i) addr) (f_off f) n1);
      when (0 <? r) (modify (fupd k (λ f, w_foff (u32 (f_off f + r)) f)));;
      lift (iunlock (Some ip) : M (fst_state S) unit);;
      yend_op;;
      if r <? 0 then mret i else
      if negb (r =? n1) then panic "short filewrite" else
      filewrite_loop fuel k ip addr n (i + r)
    else mret i
  end.

(** One iteration per [wchunk] bytes, and one to leave. *)
Definition filewrite (k : nat) (addr : list Z) (n : Z) : M sys Z :=
  f ← gets (nfile k);
  if f_writable f =? 0 then mret (-1) else
  match f_type f with
  | FD_PIPE => lift (pipewrite (f_pipe f) addr n)
  | FD_INODE =>
    match f_ip f with
    | Some ip =>
      i ← filewrite_loop (Z.to_nat (n / wchunk) + 2) k ip addr n 0;
      mret (if i =? n then n else -1)
    | None => fault
    end
  | FD_NONE => panic "filewrite"
  end.

(** [pipealloc], with the order of its failures. *)
Definition set_pipe_file (k : nat) (r w p : Z) : M sys unit :=
  modify (fupd k (λ f, mkFile FD_PIPE (f_ref f) r w p (f_ip f) (f_off f))).

(** The page as [kalloc] returns it: the data, after the lock, is what was there. *)
Definition new_pipe (d : list Z) : pipe := mkPipe d 0 0 1 1.

Definition pipealloc : M sys (option (nat * nat)) :=
  f0 ← filealloc;
  match f0 with
  | None => mret None
  | Some f0 =>
    f1 ← filealloc;
    match f1 with
    | None => fileclose f0;; mret None
    | Some f1 =>
      p ← lift kalloc;
      if p =? 0 then fileclose f0;; fileclose f1;; mret None else
      d ← lift (getpage p);
      modify (λ s : sys, lset (put_pipe p (new_pipe (slice 104 PIPESIZE d)) (lget s)) s);;
      set_pipe_file f0 1 0 p;;
      set_pipe_file f1 0 1 p;;
      mret (Some (f0, f1))
    end
  end.

End file.
