(* ===== verification/Proc.v ===== *)
(** * Processes: proc.c

    [sleep], [wakeup] and [sched] are in Kernel.v.  The functions are cut where
    the source holds [ptable.lock]: every critical section is an operation on
    [core] of its own ([alloc_slot], [exit_handoff], [wait_scan], ...), which the
    functions compose with the memory and file operations around them.  ProcInv.v
    has the invariants of the critical sections under any interleaving.

    The saved register context of a process is not represented: a process that
    is switched to continues after [sched], or, when it is new, in [forkret]. *)

From S2P Require Import Prelude CString Layout Kernel Kalloc Vm Store Fs Pipe Sys File.

Definition w_sz (v : Z) (p : proc) : proc :=
  mkProc v (p_pgdir p) (p_kstack p) (p_state p) (p_pid p) (p_parent p) (p_tf p) (p_chan p) (p_killed p) (p_ofile p) (p_cwd p) (p_name p).
Definition w_pgdir (v : Z) (p : proc) : proc :=
  mkProc (p_sz p) v (p_kstack p) (p_state p) (p_pid p) (p_parent p) (p_tf p) (p_chan p) (p_killed p) (p_ofile p) (p_cwd p) (p_name p).
Definition w_kstack (v : Z) (p : proc) : proc :=
  mkProc (p_sz p) (p_pgdir p) v (p_state p) (p_pid p) (p_parent p) (p_tf p) (p_chan p) (p_killed p) (p_ofile p) (p_cwd p) (p_name p).
Definition w_pid (v : Z) (p : proc) : proc :=
  mkProc (p_sz p) (p_pgdir p) (p_kstack p) (p_state p) v (p_parent p) (p_tf p) (p_chan p) (p_killed p) (p_ofile p) (p_cwd p) (p_name p).
Definition w_parent (v : option nat) (p : proc) : proc :=
  mkProc (p_sz p) (p_pgdir p) (p_kstack p) (p_state p) (p_pid p) v (p_tf p) (p_chan p) (p_killed p) (p_ofile p) (p_cwd p) (p_name p).
Definition w_tf (v : trapframe) (p : proc) : proc :=
  mkProc (p_sz p) (p_pgdir p) (p_kstack p) (p_state p) (p_pid p) (p_parent p) v (p_chan p) (p_killed p) (p_ofile p) (p_cwd p) (p_name p).
Definition w_killed (v : Z) (p : proc) : proc :=
  mkProc (p_sz p) (p_pgdir p) (p_kstack p) (p_state p) (p_pid p) (p_parent p) (p_tf p) (p_chan p) v (p_ofile p) (p_cwd p) (p_name p).
Definition w_ofile (v : list (option nat)) (p : proc) : proc :=
  mkProc (p_sz p) (p_pgdir p) (p_kstack p) (p_state p) (p_pid p) (p_parent p) (p_tf p) (p_chan p) (p_killed p) v (p_cwd p) (p_name p).
Definition w_cwd (v : option nat) (p : proc) : proc :=
  mkProc (p_sz p) (p_pgdir p) (p_kstack p) (p_state p) (p_pid p) (p_parent p) (p_tf p) (p_chan p) (p_killed p) (p_ofile p) v (p_name p).
Definition w_name (v : list Z) (p : proc) : proc :=
  mkProc (p_sz p) (p_pgdir p) (p_kstack p) (p_state p) (p_pid p) (p_parent p) (p_tf p) (p_chan p) (p_killed p) (p_ofile p) (p_cwd p) v.

Definition w_rax (v : Z) (t : trapframe) : trapframe :=
  mkTf v (rbx t) (rcx t) (rdx t) (rbp t) (rsi t) (rdi t) (r8 t) (r9 t) (r10 t) (r11 t) (r12 t) (r13 t) (r14 t) (r15 t)
    (trapno t) (err t) (rip t) (cs t) (rflags t) (rsp t) (ss t).

(** ** Critical sections on the process table *)

Definition pupd (i : nat) (f : proc → proc) (c : core) : core := set_procs (alter f i (c_procs c)) c.
Definition set_nextpid (v : Z) (c : core) : core :=
  mkCore (c_locks c) (c_procs c) (c_cur c) v (c_initproc c).
Definition set_initproc (v : option nat) (c : core) : core :=
  mkCore (c_locks c) (c_procs c) (c_cur c) (c_nextpid c) v.
Definition set_cur (v : option nat) (c : core) : core :=
  mkCore (c_locks c) (c_procs c) v (c_nextpid c) (c_initproc c).

(** The first process from [i] on in state [st]. *)
Fixpoint find_state (st : procstate) (n i : nat) (ps : list proc) : option nat :=
  match n with
  | O => None
  | S n => if bool_decide (p_state (ps !!! i) = st) then Some i else find_state st n (S i) ps
  end.

(** [allocproc] under the lock: claim a slot. *)
Definition alloc_slot : M core (option nat) :=
  acquire LPtable;;
  r ← gets (λ c, find_state UNUSED NPROC 0 (c_procs c));
  match r with
  | None => release LPtable;; mret None
  | Some i =>
    modify (λ c, pupd i (λ p, w_pid (c_nextpid c) (set_state EMBRYO p)) c);;
    modify (λ c, set_nextpid (i32 (c_nextpid c + 1)) c);;
    release LPtable;;
    mret (Some i)
  end.

(** [p->state = UNUSED] after a failed allocation, [np->state = RUNNABLE]. *)
Definition put_state (i : nat) (st : procstate) : M core unit := modify (pupd i (set_state st)).

(** [fork] makes the new process a child of this one; it is not runnable yet. *)
Definition fork_link (np : nat) (sz : Z) : M core unit :=
  me ← gets c_cur;
  modify (pupd np (λ q, w_parent me (w_sz sz q))).

(** The loop of [exit] that passes the children to init. *)
Definition reparent1 (me : nat) (init : option nat) (i : nat) : M core unit :=
  p ← gets (λ c, c_procs c !!! i);
  if bool_decide (p_parent p = Some me) then
    modify (pupd i (w_parent init));;
    when (bool_decide (p_state p = ZOMBIE))
      (match init with Some j => wakeup1 (ChProc j) | None => mret tt end)
  else mret tt.

(** [exit] from [acquire(&ptable.lock)] on. *)
Definition exit_handoff : M core unit :=
  acquire LPtable;;
  me ← gets c_cur;
  init ← gets c_initproc;
  match me with
  | None => fault
  | Some me =>
    parent ← gets (λ c, p_parent (c_procs c !!! me));
    (match parent with Some j => wakeup1 (ChProc j) | None => mret tt end);;
    for_up NPROC 0 (λ i, reparent1 me init (Z.to_nat i));;
    modify (pupd me (set_state ZOMBIE));;
    sched;;
    panic "zombie exit"
  end.

(** The scan of [wait]: a zombie child, or whether there are children. *)
Fixpoint wait_scan (n i : nat) (me : nat) (havekids : bool) (ps : list proc) : option nat * bool :=
  match n with
  | O => (None, havekids)
  | S n =>
    let p := ps !!! i in
    if negb (bool_decide (p_parent p = Some me)) then wait_scan n (S i) me havekids ps
    else if bool_decide (p_state p = ZOMBIE) then (Some i, true)
    else wait_scan n (S i) me true ps
  end.

(** The slot of a reaped child; [p->name[0] = 0]. *)
Definition reaped (p : proc) : proc :=
  set_state UNUSED (w_killed 0 (w_name (setZ 0 0 (p_name p)) (w_parent None (w_pid 0 p)))).

(** [kill] *)
Fixpoint find_pid (n i : nat) (pid : Z) (ps : list proc) : option nat :=
  match n with
  | O => None
  | S n => if p_pid (ps !!! i) =? pid then Some i else find_pid n (S i) pid ps
  end.

Definition killproc (p : proc) : proc :=
  let p := w_killed 1 p in
  if bool_decide (p_state p = SLEEPING) then set_state RUNNABLE p else p.

Definition kill (pid : Z) : M core Z :=
  acquire LPtable;;
  r ← gets (λ c, find_pid NPROC 0 pid (c_procs c));
  match r with
  | Some i => modify (pupd i killproc);; release LPtable;; mret 0
  | None => release LPtable;; mret (-1)
  end.

Definition yield : M core unit :=
  acquire LPtable;;
  with_cur (set_state RUNNABLE);;
  sched.

Definition yield_resume : M core unit := release LPtable.

(** ** The functions *)

Section proc.
Context {S : Type} `{!Lens S core, !BlockStore S} (kend : Z).
Context (dev_read : Z → option (nat → Z → Z → M (fst_state S) (Z * list Z))).

Abbreviation sys := (sys S).
Abbreviation fst := (fst_state S).
Abbreviation K := (lift (O:=sys) (I:=kst)).
Abbreviation F := (lift (O:=sys) (I:=fst)).

Definition pget (i : nat) : M sys proc := gets (λ s, c_procs (ycore s) !!! i).
Definition pset (i : nat) (f : proc → proc) : M sys unit := lift (modify (pupd i f)).

(** The trap frame is at the top of the new stack; the callers fill it in. *)
Definition allocproc : M sys (option nat) :=
  r ← lift alloc_slot;
  match r with
  | None => mret None
  | Some i =>
    k ← K kalloc;
    pset i (w_kstack k);;
    if k =? 0 then lift (put_state i UNUSED);; mret None else
    mret (Some i)
  end.

Definition FL_IF : Z := 0x200.

(** [initcode] is the program linked into the kernel. *)
Definition userinit (initcode : list Z) : M sys unit :=
  r ← allocproc;
  match r with
  | None => fault
  | Some p =>
    lift (modify (set_initproc (Some p)));;
    pg ← K setupkvm;
    pset p (w_pgdir pg);;
    if pg =? 0 then panic "userinit: out of memory?" else
    K (inituvm pg initcode);;
    pset p (w_sz (PGSIZE * 2));;
    pset p (w_tf (mkTf 0 0 PGSIZE 0 0 0 0 0 0 0 FL_IF 0 0 0 0 0 0 0 0 0 (PGSIZE * 2) 0));;
    pset p (λ q, w_name (splice 0 (safestrcpy (nthZ [105; 110; 105; 116; 99; 111; 100; 101; 0]) 16) (p_name q)) q);;
    cwd ← F (namei dev_read [47]);
    pset p (w_cwd cwd);;
    lift (put_state p RUNNABLE)
  end.

(** [n] is an [int64]. *)
Definition growproc (n : Z) : M sys Z :=
  p ← gets myproc;
  let sz := p_sz p in
  sz ← (if 0 <? n then K (allocuvm kend (p_pgdir p) sz (u64 (sz + n)))
        else if n <? 0 then K (deallocuvm kend (p_pgdir p) sz (u64 (sz + n)))
        else mret sz);
  if negb (n =? 0) && (sz =? 0) then mret (-1) else
  upd_proc (w_sz sz);;
  p ← gets myproc;
  K (switchuvm p);;
  mret 0.

(** [fork]: the copies of the open files and of the directory. *)
Definition fork_file (np : nat) (fd : Z) : M sys unit :=
  p ← gets myproc;
  match p_ofile p !!! Z.to_nat fd with
  | Some k =>
    k ← filedup k;
    pset np (λ q, w_ofile (<[Z.to_nat fd := Some k]> (p_ofile q)) q)
  | None => mret tt
  end.

Definition fork : M sys Z :=
  r ← allocproc;
  match r with
  | None => mret (-1)
  | Some np =>
    p ← gets myproc;
    pg ← K (copyuvm kend (p_pgdir p) (p_sz p));
    pset np (w_pgdir pg);;
    if pg =? 0 then
      q ← pget np;
      K (kfree kend (p_kstack q));;
      pset np (w_kstack 0);;
      lift (put_state np UNUSED);;
      mret (-1)
    else
    lift (fork_link np (p_sz p));;
    pset np (w_tf (w_rax 0 (p_tf p)));;
    for_up NOFILE 0 (fork_file np);;
    match p_cwd p with
    | None => fault
    | Some d =>
      cwd ← F (idup d);
      pset np (w_cwd (Some cwd));;
      pset np (λ q, w_name (splice 0 (safestrcpy (nthZ (p_name p)) 16) (p_name q)) q);;
      q ← pget np;
      lift (put_state np RUNNABLE);;
      mret (p_pid q)
    end
  end.

(** [exit]: the loop over the open files. *)
Definition exit_file (fd : Z) : M sys unit :=
  p ← gets myproc;
  match p_ofile p !!! Z.to_nat fd with
  | Some k =>
    fileclose kend k;;
    upd_proc (λ q, w_ofile (<[Z.to_nat fd := None]> (p_ofile q)) q)
  | None => mret tt
  end.

Definition exit : M sys unit :=
  c ← gets ycore;
  if bool_decide (c_cur c = c_initproc c) then panic "init exiting" else
  for_up NOFILE 0 exit_file;;
  p ← gets myproc;
  match p_cwd p with
  | None => fault
  | Some d =>
    ybegin_op;;
    F (iput d);;
    yend_op;;
    upd_proc (w_cwd None);;
    lift exit_handoff
  end.

(** [wait] up to the point where it sleeps or returns; the lock is held. *)
Definition wait_loop : M sys Z :=
  c ← gets ycore;
  match c_cur c with
  | None => fault
  | Some me =>
    match wait_scan NPROC 0 me false (c_procs c) with
    | (Some i, _) =>
      p ← pget i;
      K (kfree kend (p_kstack p));;
      pset i (w_kstack 0);;
      K (freevm kend (p_pgdir p));;
      pset i reaped;;
      lift (release LPtable);;
      mret (p_pid p)
    | (None, havekids) =>
      q ← gets myproc;
      if negb havekids || negb (p_killed q =? 0) then
        lift (release LPtable);;
        mret (-1)
      else
        lift (sleep (ChProc me) LPtable);;
        diverge
    end
  end.

Definition wait : M sys Z := lift (acquire LPtable);; wait_loop.

Definition wait_resume : M sys Z := lift (sleep_resume LPtable);; wait_loop.

(** ** The scheduler

    [p] of the loop is a position in the table.  A pass starts at position 0; one
    step from a position switches to the next runnable process, or ends the pass.
    The counter [skipped] only decides when an idle CPU halts until the next
    interrupt. *)
Definition scheduler_start : M sys nat := lift (acquire LPtable);; mret 0%nat.

Definition scheduler_step (k : nat) : M sys (option nat) :=
  r ← gets (λ s : sys, find_state RUNNABLE (NPROC - k) k (c_procs (ycore s)));
  match r with
  | Some i =>
    lift (modify (set_cur (Some i)));;
    p ← pget i;
    K (switchuvm p);;
    lift (put_state i RUNNING);;
    mret (Some i)
  | None =>
    lift (release LPtable);;
    mret None
  end.

(** Back from process [i]: the loop goes on with the next one. *)
Definition scheduler_resume (i : nat) : M sys nat :=
  K switchkvm;;
  lift (modify (set_cur None));;
  mret (Datatypes.S i).

(** The first process to run initialises the file system; [first] is the static
    variable of [forkret], [initlog] is log.c's. *)
Definition forkret (initlog : Z → M sys unit) (first : bool) : M sys bool :=
  lift (release LPtable);;
  when first
    (F (iinit ROOTDEV);;
     initlog ROOTDEV);;
  mret false.

End proc.

(** ** Giving up the CPU *)

Lemma sched_run (c : core) :
  c_locks c = [LPtable] → p_state (cur_proc c) ≠ RUNNING → sched c = Sched c.
Proof.
  move=> Hl Hs. rw /sched. erewrite run_bind; [|done]. rw Hl bool_decide_eq_true_2; first by set_solver.
  simpl. rw run_gets Hl /= run_gets bool_decide_eq_false_2 //.
Qed.

Lemma yield_run (i : nat) (q : proc) (c : core) :
  c_locks c = [] → c_cur c = Some i → c_procs c !! i = Some q →
  yield c = Sched (set_locks [LPtable] (pupd i (set_state RUNNABLE) c)).
Proof.
  move=> Hl Hi Hq. rw /yield. erewrite run_bind; [|apply acquire_run; rw Hl; set_solver].
  rw Hl. erewrite run_bind; [|rw /with_cur /= Hi; done]. rw sched_run //.
  by rw /cur_proc /= Hi list_lookup_total_alt list_lookup_alter decide_True // Hq.
Qed.

(** [alloc_slot] claims the first free slot. *)
Definition claimed (i : nat) (c : core) : core :=
  set_nextpid (i32 (c_nextpid c + 1)) (pupd i (λ p, w_pid (c_nextpid c) (set_state EMBRYO p)) c).

Lemma alloc_slot_run (c : core) :
  c_locks c = [] →
  alloc_slot c = match find_state UNUSED NPROC 0 (c_procs c) with Some i => Ret (Some i) (claimed i c) | None => Ret None c end.
Proof.
  destruct c as [ls ps cur n ini]. cbn [c_locks c_procs] => ->. rw /alloc_slot.
  erewrite run_bind; [|apply acquire_run; apply not_elem_of_nil]. rw run_gets. cbn [c_procs set_locks].
  destruct (find_state UNUSED NPROC 0 ps) as [i|].
  - rw !run_modify. by erewrite run_bind; [|apply (release_run _ []); [done|apply not_elem_of_nil]].
  - by erewrite run_bind; [|apply (release_run _ []); [done|apply not_elem_of_nil]].
Qed.
