(* ===== verification/Seg.v ===== *)
(** * Segments and the system call registers: [seginit] and [syscallinit] of vm.c

    The page of a processor's local storage, in the memory of Kalloc.v: its
    descriptor table, its task state segment and the two variables [cpu] and
    [proc] below the middle of the page.  The state adds the registers of the
    processor and [cpus[n].local].

    Theorem: the selectors that the processor loads on [syscall], on [sysret] and
    for the task register name descriptors of the table that have the right
    kind, privilege and base. *)

From S2P Require Import Prelude Kernel Kalloc VmTree.

Definition SEG_KCODE : Z := 1.
Definition SEG_KDATA : Z := 2.
Definition SEG_UCODE32 : Z := 3.
Definition SEG_UDATA : Z := 4.
Definition SEG_UCODE : Z := 5.
Definition SEG_KCPU : Z := 6.
Definition SEG_TSS : Z := 7.
Definition NSEGS : Z := 8.
Definition DPL_USER : Z := 0x3.
Definition APP_SEG : Z := 0x1.
Definition USER32_CS : Z := Z.lor (Z.shiftl SEG_UCODE32 3) DPL_USER.
Definition KERNEL_CS : Z := Z.shiftl SEG_KCODE 3.
Definition STA_X : Z := 0x8.
Definition STA_W : Z := 0x2.
Definition STA_R : Z := 0x2.
Definition STS_T64A : Z := 0x9.

Definition FL_TF : Z := 0x00000100.
Definition FL_IF : Z := 0x00000200.
Definition FL_DF : Z := 0x00000400.
Definition FL_IOPL_3 : Z := 0x00003000.
Definition FL_NT : Z := 0x00004000.
Definition FL_AC : Z := 0x00040000.
Definition MSR_STAR : Z := 0xC0000081.
Definition MSR_LSTAR : Z := 0xC0000082.
Definition MSR_CSTAR : Z := 0xC0000083.
Definition MSR_SFMASK : Z := 0xC0000084.

Record segdesc := mkSegdesc {
  lim_15_0 : Z; base_15_0 : Z; base_23_16 : Z; type : Z; s_ : Z; dpl : Z; p_ : Z;
  lim_19_16 : Z; avl : Z; rsv1 : Z; db : Z; g_ : Z; base_31_24 : Z;
}.

Definition segdesc0 : segdesc := mkSegdesc 0 0 0 0 0 0 0 0 0 0 0 0 0.

(** Each initialiser is cut to the width of its bit field. *)
Definition SEG (ty lim base sys pl rsv : Z) : segdesc :=
  mkSegdesc (Z.land lim 0xffff) (Z.land (u32 base) 0xffff) (Z.land (Z.shiftr base 16) 0xff) (ty mod 2 ^ 4) (sys mod 2) (pl mod 4) 1
    (Z.shiftr lim 60 mod 2 ^ 4) 0 (rsv mod 2) 0 1 (Z.shiftr base 24 mod 2 ^ 8).

(** The eight bytes of a descriptor: the fields from the lowest bit on. *)
Definition pack (d : segdesc) : Z :=
  lim_15_0 d + base_15_0 d * 2 ^ 16 + base_23_16 d * 2 ^ 32 + type d * 2 ^ 40 + s_ d * 2 ^ 44 + dpl d * 2 ^ 45 + p_ d * 2 ^ 47 +
  lim_19_16 d * 2 ^ 48 + avl d * 2 ^ 52 + rsv1 d * 2 ^ 53 + db d * 2 ^ 54 + g_ d * 2 ^ 55 + base_31_24 d * 2 ^ 56.

Record seg := mkSeg {
  sg_k : kst;
  sg_msr : Z → Z;
  sg_gdtr : Z * Z;          (** base and size *)
  sg_tr : Z;
  sg_local : Z → Z;         (** [cpus[n].local] *)
}.

#[global] Instance seg_kst : Lens seg kst.
Proof.
  refine {| lget := sg_k; lset := λ k s, mkSeg k (sg_msr s) (sg_gdtr s) (sg_tr s) (sg_local s) |}; intros; by try destruct o.
Defined.

Definition wrmsr (msr v : Z) : M seg unit :=
  modify (λ s, mkSeg (sg_k s) (λ r, if r =? msr then u64 v else sg_msr s r) (sg_gdtr s) (sg_tr s) (sg_local s)).
Definition lgdt (p size : Z) : M seg unit := modify (λ s, mkSeg (sg_k s) (sg_msr s) (p, size) (sg_tr s) (sg_local s)).
Definition ltr (sel : Z) : M seg unit := modify (λ s, mkSeg (sg_k s) (sg_msr s) (sg_gdtr s) sel (sg_local s)).
Definition set_local (n v : Z) : M seg unit :=
  modify (λ s, mkSeg (sg_k s) (sg_msr s) (sg_gdtr s) (sg_tr s) (λ i, if i =? n then v else sg_local s i)).

Section seg.
(** The addresses of the two entry points and of the array [cpus], and the
    number of this processor. *)
Context (syscall_entry ignore_sysret cpus cpunum : Z).

Definition syscallinit : M seg unit :=
  wrmsr MSR_STAR (Z.lor (Z.shiftl USER32_CS 48) (Z.shiftl KERNEL_CS 32));;
  wrmsr MSR_LSTAR syscall_entry;;
  wrmsr MSR_CSTAR ignore_sysret;;
  wrmsr MSR_SFMASK (Z.lor (Z.lor (Z.lor (Z.lor (Z.lor FL_TF FL_DF) FL_IF) FL_IOPL_3) FL_AC) FL_NT).

Definition sizeof_cpu : Z := 40.

Definition set_gdt (gdt i : Z) (d : segdesc) : M kst unit := wr64 (gdt + 8 * i) (pack d).

(** The table; [tss] is the address of the task state segment. *)
Definition fill_gdt (gdt tss : Z) : M kst unit :=
  set_gdt gdt 0 segdesc0;;
  set_gdt gdt SEG_KCODE (SEG (Z.lor STA_X STA_R) 0 0 APP_SEG 0 1);;
  set_gdt gdt SEG_KDATA (SEG STA_W 0 0 APP_SEG 0 0);;
  set_gdt gdt SEG_UCODE32 segdesc0;;
  set_gdt gdt SEG_UDATA (SEG STA_W 0 0 APP_SEG DPL_USER 0);;
  set_gdt gdt SEG_UCODE (SEG (Z.lor STA_X STA_R) 0 0 APP_SEG DPL_USER 1);;
  set_gdt gdt SEG_KCPU segdesc0;;
  set_gdt gdt SEG_TSS (SEG STS_T64A 0xb tss 0 DPL_USER 0);;
  set_gdt gdt (SEG_TSS + 1) (SEG 0 (Z.shiftr tss 32) (Z.shiftr tss 48) 0 0 0).

Definition no_proc (c : core) : core := mkCore (c_locks c) (c_procs c) None (c_nextpid c) (c_initproc c).

(** [cpu] and [proc] are at [%fs:(-16)] and [%fs:(-8)]; the process of this
    processor is also the field [c_cur] of the model. *)
Definition seginit : M seg unit :=
  local ← lift kalloc;
  lift (memset_page local 0);;
  let tss := local + 1024 in
  lift (wr32 (tss + 4 * 16) 0x00680000);;
  wrmsr 0xC0000100 (local + 2048);;
  let c := cpus + sizeof_cpu * cpunum in
  set_local cpunum local;;
  lift (wr64 (local + 2048 - 16) c);;
  lift (wr64 (local + 2048 - 8) 0);;
  lift (lift (modify no_proc) : M kst unit);;
  lift (fill_gdt local tss);;
  lgdt local ((NSEGS + 1) * 8);;
  ltr (Z.shiftl SEG_TSS 3).

End seg.

(** ** Reading a descriptor back *)

Definition unpack (w : Z) : segdesc :=
  mkSegdesc (w mod 2 ^ 16) (w / 2 ^ 16 mod 2 ^ 16) (w / 2 ^ 32 mod 2 ^ 8) (w / 2 ^ 40 mod 2 ^ 4) (w / 2 ^ 44 mod 2) (w / 2 ^ 45 mod 4)
    (w / 2 ^ 47 mod 2) (w / 2 ^ 48 mod 2 ^ 4) (w / 2 ^ 52 mod 2) (w / 2 ^ 53 mod 2) (w / 2 ^ 54 mod 2) (w / 2 ^ 55 mod 2) (w / 2 ^ 56 mod 2 ^ 8).

Record seg_ok (d : segdesc) : Prop := {
  so_lim : 0 ≤ lim_15_0 d < 2 ^ 16; so_base : 0 ≤ base_15_0 d < 2 ^ 16; so_base23 : 0 ≤ base_23_16 d < 2 ^ 8;
  so_type : 0 ≤ type d < 2 ^ 4; so_s : 0 ≤ s_ d < 2; so_dpl : 0 ≤ dpl d < 4; so_p : 0 ≤ p_ d < 2;
  so_lim19 : 0 ≤ lim_19_16 d < 2 ^ 4; so_avl : 0 ≤ avl d < 2; so_rsv1 : 0 ≤ rsv1 d < 2; so_db : 0 ≤ db d < 2; so_g : 0 ≤ g_ d < 2;
  so_base31 : 0 ≤ base_31_24 d < 2 ^ 8;
}.

Lemma unpack_pack d : seg_ok d → unpack (pack d) = d ∧ 0 ≤ pack d < 2 ^ 64.
Proof.
  intros []. split; [|rw /pack; lia]. destruct d as [a b c e f g h i j k l m n]. cbn in *. rw /unpack /pack. cbn.
  f_equal; lia.
Qed.

Lemma wr32_word p k v s d :
  p mod PGSIZE = 0 → 0 ≤ k < 1024 → k_mem s !! p = Some d →
  wr32 (p + 4 * k) v s = Ret tt (set_mem (<[p := store32 (4 * k) v d]> (k_mem s)) s).
Proof.
  intros Hp Hk Hd.
  assert (pagebase (p + 4 * k) = p ∧ (p + 4 * k) mod PGSIZE = 4 * k) as [E1 E2] by (rw /pagebase; plia).
  by rw (wr32_run _ _ _ d) ?E1 // E2.
Qed.

Lemma page_store32 k v d : 0 ≤ k < 1024 → page d → page (store32 (4 * k) v d).
Proof.
  intros Hk [Hl Hb]. split; [|by apply bytes_store]. rw length_store //; rw ?Hl; unfold PGSIZE; lia.
Qed.

Lemma land_mask a k : 0 ≤ k → Z.land a (Z.ones k) = a mod 2 ^ k.
Proof. apply Z.land_ones. Qed.

Lemma SEG_ok ty lim base sys pl rsv : seg_ok (SEG ty lim base sys pl rsv).
Proof.
  rw /SEG. change 0xffff with (Z.ones 16). change 0xff with (Z.ones 8). rw !land_mask //. split; cbn [lim_15_0 base_15_0 base_23_16 type s_ dpl p_
    lim_19_16 avl rsv1 db g_ base_31_24]; clear; lia.
Qed.

Lemma segdesc0_ok : seg_ok segdesc0.
Proof. by split. Qed.

(** *** The words of a page *)

Definition put8 (d : list Z) (e : Z * Z) : list Z := store64 (8 * e.1) e.2 d.
(** The last value a list of stores gives word [j]. *)
Definition word_of (l : list (Z * Z)) (j : Z) (o : Z) : Z := fold_left (λ o e, if e.1 =? j then u64 e.2 else o) l o.

Lemma word_of_cons e l j o : word_of (e :: l) j o = word_of l j (if e.1 =? j then u64 e.2 else o).
Proof. done. Qed.

Lemma page_puts l d : page d → Forall (λ e, 0 ≤ e.1 < 512) l → page (fold_left put8 l d).
Proof. intros Hd Hl. revert d Hd. induction Hl as [|e l He _ IH]; intros d Hd; [done|]. by apply IH, page_store. Qed.

Lemma load_puts l d j :
  page d → Forall (λ e, 0 ≤ e.1 < 512) l → 0 ≤ j < 512 → load64 (8 * j) (fold_left put8 l d) = word_of l j (load64 (8 * j) d).
Proof.
  intros Hd Hl Hj. revert d Hd. induction Hl as [|e l He _ IH]; intros d Hd; [done|]. cbn [fold_left word_of].
  rw IH; [by apply page_store|]. rw /word_of. cbn [fold_left]. f_equal. destruct Hd as [Hlen _]. rw /PGSIZE in Hlen. rw /put8.
  destruct (Z.eqb_spec e.1 j) as [<-|]; [rw load_store_eq //; lia|]. apply load_store_ne; lia.
Qed.

Section seginit.
Context (kend : Z).

Lemma wr64_put p k v m s d :
  kpage kend p → 0 ≤ k < 512 →
  wr64 (p + 8 * k) v (set_mem (<[p := d]> m) s) = Ret tt (set_mem (<[p := put8 d (k, v)]> m) s).
Proof.
  intros Hp Hk. destruct (entry_addr kend p k Hp Hk) as [E1 E2].
  rw (wr64_run _ _ _ d) ?E1; [apply lookup_insert_eq|]. by rw E2 /put8 /set_mem /= insert_insert_eq.
Qed.

Definition gdt_words (tss : Z) : list (Z * Z) :=
  [(0, pack segdesc0); (SEG_KCODE, pack (SEG (Z.lor STA_X STA_R) 0 0 APP_SEG 0 1)); (SEG_KDATA, pack (SEG STA_W 0 0 APP_SEG 0 0));
   (SEG_UCODE32, pack segdesc0); (SEG_UDATA, pack (SEG STA_W 0 0 APP_SEG DPL_USER 0));
   (SEG_UCODE, pack (SEG (Z.lor STA_X STA_R) 0 0 APP_SEG DPL_USER 1)); (SEG_KCPU, pack segdesc0);
   (SEG_TSS, pack (SEG STS_T64A 0xb tss 0 DPL_USER 0)); (SEG_TSS + 1, pack (SEG 0 (Z.shiftr tss 32) (Z.shiftr tss 48) 0 0 0))].

Lemma fill_gdt_run p tss m s d :
  kpage kend p →
  fill_gdt p tss (set_mem (<[p := d]> m) s) = Ret tt (set_mem (<[p := fold_left put8 (gdt_words tss) d]> m) s).
Proof.
  intros Hp. rw /fill_gdt /set_gdt. do 8 (erewrite run_bind; [|by apply wr64_put]). by apply wr64_put.
Qed.

(** The page [seginit] builds at [p]. *)
Definition local_page (c p : Z) : list Z :=
  fold_left put8 ((254, c) :: (255, 0) :: gdt_words (p + 1024)) (store32 (4 * 272) 0x00680000 zpage).

Definition kst_no_proc (k : kst) : kst := lset (no_proc (k_core k)) k.

Definition with_k (k : kst) (s : seg) : seg := mkSeg k (sg_msr s) (sg_gdtr s) (sg_tr s) (sg_local s).

Lemma lift_seq {A B} (m : M kst A) (f : A → M seg B) s a k : m (sg_k s) = Ret a k → (lift m ≫= f) s = f a (with_k k s).
Proof. intros H. apply run_bind. rw /lift /= H //. Qed.

Lemma wr32_put p k v m s d :
  kpage kend p → 0 ≤ k < 1024 →
  wr32 (p + 4 * k) v (set_mem (<[p := d]> m) s) = Ret tt (set_mem (<[p := store32 (4 * k) v d]> m) s).
Proof.
  intros [Hp _ _] Hk. rw (wr32_word p k v _ d) //; [apply lookup_insert_eq|]. by rw /set_mem /= insert_insert_eq.
Qed.

Lemma seginit_run cpus cpunum p F s :
  krepr kend (p :: F) (sg_k s) →
  ∃ k1, krepr kend F k1 ∧ k_mem k1 = k_mem (sg_k s) ∧ k_core k1 = k_core (sg_k s) ∧
    seginit cpus cpunum s = Ret tt (mkSeg (set_mem (<[p := local_page (cpus + sizeof_cpu * cpunum) p]> (k_mem k1)) (kst_no_proc k1))
      (λ r, if r =? 0xC0000100 then u64 (p + 2048) else sg_msr s r) (p, 72) (Z.shiftl SEG_TSS 3)
      (λ i, if i =? cpunum then p else sg_local s i)).
Proof.
  intros Hk. destruct (kalloc_ok kend _ _ Hk) as (k1 & Hr & Hk1 & Hm & Hc & _). simpl in Hr, Hk1. exists k1.
  pose proof (kr_pages _ _ _ Hk) as Hp. apply list.Forall_cons in Hp as [Hp _]. split_and!; [done..|].
  rw /seginit (lift_seq _ _ _ _ _ Hr). erewrite lift_seq; [|exact (memset_zero kend F k1 p Hk1 Hp)].
  rw (_ : p + 1024 + 4 * 16 = p + 4 * 272); [lia|]. erewrite lift_seq; [|by apply wr32_put].
  rw {1}/wrmsr run_modify {1}/set_local run_modify.
  rw (_ : p + 2048 - 16 = p + 8 * 254); [lia|]. erewrite lift_seq; [|by apply wr64_put].
  rw (_ : p + 2048 - 8 = p + 8 * 255); [lia|]. erewrite lift_seq; [|by apply wr64_put].
  erewrite lift_seq; [|reflexivity]. erewrite lift_seq; [|exact (fill_gdt_run p (p + 1024) (k_mem k1) (kst_no_proc k1) _ Hp)].
  reflexivity.
Qed.

(** The descriptor a selector names. *)
Definition desc_of (d : list Z) (sel : Z) : segdesc := unpack (load64 (8 * (sel / 8)) d).

Record code64 (pl : Z) (x : segdesc) : Prop := { cd_type : type x = 0xA; cd_s : s_ x = 1; cd_p : p_ x = 1; cd_long : rsv1 x = 1; cd_dpl : dpl x = pl }.
Record data_seg (pl : Z) (x : segdesc) : Prop := { dt_type : type x = 2; dt_s : s_ x = 1; dt_p : p_ x = 1; dt_dpl : dpl x = pl }.

(** The base of a 64-bit system descriptor, which takes two entries. *)
Definition tss_base (lo hi : segdesc) : Z :=
  base_15_0 lo + base_23_16 lo * 2 ^ 16 + base_31_24 lo * 2 ^ 24 + (lim_15_0 hi + base_15_0 hi * 2 ^ 16) * 2 ^ 32.

(** A present 64-bit task state segment of privilege [pl] at [base], not busy, that
    holds the 104 bytes of one; the second entry has the zero type that keeps it
    from being used alone. *)
Record tss64 (pl base : Z) (lo hi : segdesc) : Prop := {
  ts_type : type lo = 0x9;
  ts_s : s_ lo = 0;
  ts_p : p_ lo = 1;
  ts_dpl : dpl lo = pl;
  ts_limit : 104 ≤ (lim_15_0 lo + lim_19_16 lo * 2 ^ 16 + 1) * (if g_ lo =? 1 then 4096 else 1);
  ts_hi : type hi = 0 ∧ s_ hi = 0;
  ts_base : tss_base lo hi = base;
}.

Lemma local_page_word c p j :
  0 ≤ j < 9 → load64 (8 * j) (local_page c p) = word_of (gdt_words (p + 1024)) j (load64 (8 * j) (store32 (4 * 272) 0x00680000 zpage)).
Proof.
  intros Hj. rw /local_page load_puts; [apply page_store32; [done|apply page_zpage]|by repeat constructor|lia|].
  rw (word_of_cons (254, c)) (word_of_cons (255, 0)). cbn [fst snd]. assert ((254 =? j) = false) as -> by lia. assert ((255 =? j) = false) as -> by lia. reflexivity.
Qed.

Lemma desc_of_local c p sel x :
  0 ≤ sel < 72 → seg_ok x → (∀ o, word_of (gdt_words (p + 1024)) (sel / 8) o = u64 (pack x)) → desc_of (local_page c p) sel = x.
Proof.
  intros Hs Hx Hw. rw /desc_of local_page_word; [lia|]. rw Hw. destruct (unpack_pack x Hx) as [E Hr]. by rw /u64 Z.mod_small.
Qed.

Lemma tss_base_SEG tss :
  0 ≤ tss < 2 ^ 64 → tss_base (SEG STS_T64A 0xb tss 0 DPL_USER 0) (SEG 0 (Z.shiftr tss 32) (Z.shiftr tss 48) 0 0 0) = tss.
Proof.
  intros Ht. rw /tss_base /SEG. cbn [base_15_0 base_23_16 base_31_24 lim_15_0].
  change 0xffff with (Z.ones 16). change 0xff with (Z.ones 8). rw !land_mask // !Z.shiftr_div_pow2 // /u32. clear -Ht. lia.
Qed.

(** C31: with the table that [seginit] loads, a system call runs in the kernel's
    64-bit code and data segments with interrupts, tracing, the direction flag and
    the other masked flags off, [sysret] goes to the user's, with the privilege bits
    of the user, and the task register names a present 64-bit task state segment of
    the user's privilege, at its place in the page. *)
Theorem seginit_segments syscall_entry ignore_sysret cpus cpunum p F s :
  krepr kend (p :: F) (sg_k s) →
  ∃ s' d, (seginit cpus cpunum;; syscallinit syscall_entry ignore_sysret) s = Ret tt s' ∧ krepr kend F (sg_k s') ∧
    k_mem (sg_k s') !! p = Some d ∧ sg_gdtr s' = (p, 72) ∧ sg_local s' cpunum = p ∧
    let kcs := sg_msr s' MSR_STAR / 2 ^ 32 mod 2 ^ 16 in
    let ucs := sg_msr s' MSR_STAR / 2 ^ 48 in
    kcs mod 4 = 0 ∧ code64 0 (desc_of d kcs) ∧ data_seg 0 (desc_of d (kcs + 8)) ∧
    ucs mod 4 = 3 ∧ code64 3 (desc_of d (ucs + 16)) ∧ data_seg 3 (desc_of d (ucs + 8)) ∧
    tss64 3 (p + 1024) (desc_of d (sg_tr s')) (desc_of d (sg_tr s' + 8)) ∧
    Forall (λ n, Z.testbit (sg_msr s' MSR_SFMASK) n = true) [8; 9; 10; 12; 13; 14; 18] ∧ sg_msr s' MSR_LSTAR = u64 syscall_entry.
Proof.
  intros Hk. destruct (seginit_run cpus cpunum p F s Hk) as (k1 & Hk1 & Hm & Hc & Hr).
  pose proof (kr_pages _ _ _ Hk) as Hp. apply list.Forall_cons in Hp as [Hp _].
  pose proof (kr_nodup _ _ _ Hk) as Hnd. apply list.NoDup_cons in Hnd as [Hnin _].
  set (d := local_page (cpus + sizeof_cpu * cpunum) p) in *.
  assert (page d) as Hd by (apply page_puts; [apply page_store32; [done|apply page_zpage]|by repeat constructor]).
  eexists _, d. rw (run_bind _ _ _ _ _ Hr). split; [reflexivity|]. cbn [sg_k sg_gdtr sg_local sg_tr sg_msr].
  split; [|split; [apply lookup_insert_eq|split; [done|split; [by rw Z.eqb_refl|]]]].
  { change (krepr kend F (kst_no_proc (set_mem (<[p := d]> (k_mem k1)) k1))). by destruct (krepr_put kend F k1 p d Hk1 Hnin Hd). }
  cbv zeta. change (_ / 2 ^ 32 mod 2 ^ 16) with 8. change (_ / 2 ^ 48) with 27. change (Z.shiftl SEG_TSS 3) with 56.
  rw (desc_of_local _ p 8 (SEG (Z.lor STA_X STA_R) 0 0 APP_SEG 0 1)); [lia|apply SEG_ok|reflexivity|].
  rw (desc_of_local _ p (8 + 8) (SEG STA_W 0 0 APP_SEG 0 0)); [lia|apply SEG_ok|reflexivity|].
  rw (desc_of_local _ p (27 + 16) (SEG (Z.lor STA_X STA_R) 0 0 APP_SEG DPL_USER 1)); [lia|apply SEG_ok|reflexivity|].
  rw (desc_of_local _ p (27 + 8) (SEG STA_W 0 0 APP_SEG DPL_USER 0)); [lia|apply SEG_ok|reflexivity|].
  rw (desc_of_local _ p 56 (SEG STS_T64A 0xb (p + 1024) 0 DPL_USER 0)); [lia|apply SEG_ok|reflexivity|].
  rw (desc_of_local _ p (56 + 8) (SEG 0 (Z.shiftr (p + 1024) 32) (Z.shiftr (p + 1024) 48) 0 0 0)); [lia|apply SEG_ok|reflexivity|].
  split_and!; try done; [|by repeat constructor]. split; [done..|].
  apply tss_base_SEG. destruct Hp as [_ _ Hp]. rw /KERNBASE /PHYSTOP in Hp. lia.
Qed.

End seginit.
