(* ===== verification/Trap.v ===== *)
(** * Traps and interrupts: trap.c

    The interrupt descriptor table, in a page of the memory of Kalloc.v, and the
    handler of all traps, over the state of the whole kernel with its console.
    The handler is that of the kernel with the memory disk, as Bio.v's.  What the
    hardware supplies during the call (the number of the CPU, the faulting
    address, the bytes waiting in the devices) is the record [hw].

    Theorems: every gate of the table decodes to the handler it was built for; a
    killed process does not get back to user mode; a timer interrupt counts a
    tick, wakes the sleepers and gives up the CPU; a fault in user mode kills the
    process, one in the kernel panics. *)

From S2P Require Import Prelude CString Layout Kernel Kalloc VmTree Seg Store Fs Pipe Sys File Proc Printf Kbd Console Sleepers ConsoleScreen.

Definition T_IRQ0 : Z := 32.
Definition IRQ_TIMER : Z := 0.
Definition IRQ_KBD : Z := 1.
Definition IRQ_COM1 : Z := 4.
Definition IRQ_IDE : Z := 14.
Definition IRQ_SPURIOUS : Z := 31.

(** ** The descriptor table *)

Definition mkgate (idt n kva pl : Z) : M kst unit :=
  let n := u32 (n * 4) in
  wr32 (idt + 4 * (n + 0)) (u32 (Z.lor (Z.land kva 0xFFFF) (Z.shiftl KERNEL_CS 16)));;
  wr32 (idt + 4 * (n + 1)) (u32 (Z.lor (Z.lor (Z.land kva 0xFFFF0000) 0x8E00) (Z.shiftl (Z.land pl 3) 13)));;
  wr32 (idt + 4 * (n + 2)) (u32 (Z.shiftr kva 32));;
  wr32 (idt + 4 * (n + 3)) 0.

(** [vectors] is the table the build generates. *)
Definition tvinit (vectors : Z → Z) : M kst Z :=
  idt ← kalloc;
  memset_page idt 0;;
  for_up 256 0 (λ n, mkgate idt n (vectors n) 0);;
  mret idt.

(** ** The handler *)

Record hw := mkHw {
  hw_cpu : Z;             (** [cpunum()] *)
  hw_cr2 : Z;
  hw_kbd : list Z;        (** the bytes of the keyboard controller *)
  hw_com : list Z;        (** the bytes of the serial port *)
}.

Section state.
Context (S : Type).

(** The kernel of Sys.v, the console's part of the state, the modifier keys, and
    the interrupts acknowledged to the local APIC. *)
Record tst := mkTst {
  t_sys : sys S;
  t_locking : Z;
  t_panicked : Z;
  t_uart : Z;
  t_sent : list Z;
  t_screen : screen;
  t_input : input;
  t_noidt : bool;
  t_rframes : gmap nat rframe;
  t_shift : Z;
  t_lapic : Z;            (** [lapic], null when there is no local APIC *)
  t_eoi : Z;
}.
End state.
Arguments mkTst {S}.
Arguments t_sys {S}.
Arguments t_locking {S}.
Arguments t_panicked {S}.
Arguments t_uart {S}.
Arguments t_sent {S}.
Arguments t_screen {S}.
Arguments t_input {S}.
Arguments t_noidt {S}.
Arguments t_rframes {S}.
Arguments t_shift {S}.
Arguments t_lapic {S}.
Arguments t_eoi {S}.

Section trap.
Context {S : Type} `{!Lens S core, !BlockStore S} (kend : Z).
Context (context_rbp : nat → Z) (word : Z → Z).

Abbreviation sys := (sys S).
Abbreviation tst := (tst S).

Definition set_tsys (y : sys) (t : tst) : tst :=
  mkTst y (t_locking t) (t_panicked t) (t_uart t) (t_sent t) (t_screen t) (t_input t) (t_noidt t) (t_rframes t) (t_shift t) (t_lapic t) (t_eoi t).
Definition set_shift (v : Z) (t : tst) : tst :=
  mkTst (t_sys t) (t_locking t) (t_panicked t) (t_uart t) (t_sent t) (t_screen t) (t_input t) (t_noidt t) (t_rframes t) v (t_lapic t) (t_eoi t).
Definition set_eoi (v : Z) (t : tst) : tst :=
  mkTst (t_sys t) (t_locking t) (t_panicked t) (t_uart t) (t_sent t) (t_screen t) (t_input t) (t_noidt t) (t_rframes t) (t_shift t) (t_lapic t) v.

#[global] Instance tst_sys : Lens tst sys.
Proof. refine {| lget := t_sys; lset := set_tsys |}; intros; by try destruct o. Defined.

Definition tcore (t : tst) : core := ycore (t_sys t).
Definition set_tcore (c : core) (t : tst) : tst := set_tsys (set_ycore c (t_sys t)) t.

#[global] Instance tst_core : Lens tst core.
Proof.
  refine {| lget := tcore; lset := set_tcore |}; intros.
  - exact (lget_lset (I:=core) (O:=sys) _ _).
  - exact (f_equal (λ y, set_tsys y o) (lset_lset (I:=core) (O:=sys) _ _ _)).
  - etrans; [exact (f_equal (λ y, set_tsys y o) (lset_lget (I:=core) (O:=sys) _))|]. by destruct o.
Defined.

Definition tcons (t : tst) : cst :=
  mkCst (tcore t) (t_locking t) (t_panicked t) (t_uart t) (t_sent t) (t_screen t) (t_input t) (t_noidt t) (t_rframes t).
Definition set_tcons (c : cst) (t : tst) : tst :=
  mkTst (set_ycore (cn_core c) (t_sys t)) (cn_locking c) (cn_panicked c) (cn_uart c) (cn_sent c) (cn_screen c) (cn_input c)
    (cn_noidt c) (cn_frames c) (t_shift t) (t_lapic t) (t_eoi t).

#[global] Instance tst_cons : Lens tst cst.
Proof.
  refine {| lget := tcons; lset := set_tcons |}; intros.
  - etrans; [exact (f_equal (λ c, set_ccore c i) (lget_lset (I:=core) (O:=sys) _ _))|]. by destruct i.
  - exact (f_equal (λ y, mkTst y (cn_locking i) (cn_panicked i) (cn_uart i) (cn_sent i) (cn_screen i) (cn_input i)
      (cn_noidt i) (cn_frames i) (t_shift o) (t_lapic o) (t_eoi o)) (lset_lset (I:=core) (O:=sys) _ _ _)).
  - etrans; [exact (f_equal (λ y, set_tsys y o) (lset_lget (I:=core) (O:=sys) _))|]. by destruct o.
Defined.

Definition tproc (t : tst) : option proc := option_map (λ i, c_procs (tcore t) !!! i) (c_cur (tcore t)).

Definition lapiceoi : M tst unit := modify (λ t, if t_lapic t =? 0 then t else set_eoi (t_eoi t + 1) t).
(** [ideintr] of memide.c *)
Definition ideintr : M tst unit := mret tt.

Definition tick : M tst unit :=
  lift (acquire LTicks);;
  modify (λ t, set_tsys (set_ticks (u32 (y_ticks (t_sys t) + 1)) (t_sys t)) t);;
  lift (wakeup ChTicks);;
  lift (release LTicks).

Definition kbd_trap (h : hw) : M tst unit :=
  k ← gets t_shift;
  k ← lift (kbdintr context_rbp word (hw_kbd h) k);
  modify (set_shift k).

Definition kprint (fmt : string) (nl : bool) (ap : list varg) : M tst unit :=
  lift (cprintf (Some (codes fmt ++ if nl then [NEWLINE] else [])) ap).

(** The default case: [None] is a trap in the kernel. *)
Definition unexpected (tf : trapframe) (h : hw) : M tst unit :=
  p ← gets tproc;
  if bool_decide (p = None) || (Z.land (cs tf) 3 =? 0) then
    kprint "unexpected trap %d from cpu %d rip %p (cr2=0x%p)" true
      [VInt (i32 (trapno tf)); VInt (hw_cpu h); VAddr (rip tf); VAddr (hw_cr2 h)];;
    match p with Some p => kprint "proc id: %d" true [VInt (p_pid p)] | None => mret tt end;;
    panic "trap"
  else
    match p with
    | None => fault
    | Some p =>
      kprint "pid %d %s: trap %d err %d on cpu %d rip 0x%p addr 0x%p--kill proc" true
        [VInt (p_pid p); VStr (Some (cname 16 (nthZ (p_name p)) 0)); VInt (i32 (trapno tf)); VInt (i32 (err tf)); VInt (hw_cpu h);
         VAddr (rip tf); VAddr (hw_cr2 h)];;
      lift (with_cur (w_killed 1))
    end.

Definition dispatch_trap (tf : trapframe) (h : hw) : M tst unit :=
  let n := trapno tf in
  if n =? T_IRQ0 + IRQ_TIMER then when (hw_cpu h =? 0) tick;; lapiceoi else
  if n =? T_IRQ0 + IRQ_IDE then ideintr;; lapiceoi else
  if n =? T_IRQ0 + IRQ_IDE + 1 then mret tt else
  if n =? T_IRQ0 + IRQ_KBD then kbd_trap h;; lapiceoi else
  if n =? T_IRQ0 + IRQ_COM1 then lift (uartintr context_rbp word (hw_com h));; lapiceoi else
  if (n =? T_IRQ0 + 7) || (n =? T_IRQ0 + IRQ_SPURIOUS) then
    kprint "cpu%d: spurious interrupt at %p:%p" true [VInt (hw_cpu h); VAddr (cs tf); VAddr (rip tf)];; lapiceoi
  else unexpected tf h.

Definition user_mode (tf : trapframe) : bool := Z.land (cs tf) 3 =? DPL_USER.
Definition killed (t : tst) : bool := match tproc t with Some p => negb (p_killed p =? 0) | None => false end.
Definition running (t : tst) : bool := match tproc t with Some p => bool_decide (p_state p = RUNNING) | None => false end.

Definition exit_killed (tf : trapframe) : M tst unit :=
  k ← gets killed;
  when (k && user_mode tf) (lift (exit kend)).

Definition trap (tf : trapframe) (h : hw) : M tst unit :=
  dispatch_trap tf h;;
  exit_killed tf;;
  r ← gets running;
  when (r && (trapno tf =? T_IRQ0 + IRQ_TIMER)) (lift yield);;
  exit_killed tf.

(** The process is switched back to in [yield]. *)
Definition trap_resume (tf : trapframe) : M tst unit :=
  lift yield_resume;;
  exit_killed tf.

End trap.

(** ** The gates of the table *)

(** A descriptor as the processor reads it. *)
Record gate := mkGate {
  gt_offset : Z;
  gt_selector : Z;
  gt_ist : Z;
  gt_type : Z;
  gt_dpl : Z;
  gt_present : Z;
  gt_reserved : Z;
}.

Definition decode_gate (w0 w1 w2 w3 : Z) : gate :=
  mkGate (w0 mod 2 ^ 16 + w1 / 2 ^ 16 * 2 ^ 16 + w2 * 2 ^ 32) (w0 / 2 ^ 16) (w1 mod 8) (w1 / 2 ^ 8 mod 2 ^ 5)
    (w1 / 2 ^ 13 mod 4) (w1 / 2 ^ 15 mod 2) w3.

Definition gate_at (d : list Z) (n : Z) : gate :=
  decode_gate (load32 (16 * n) d) (load32 (16 * n + 4) d) (load32 (16 * n + 8) d) (load32 (16 * n + 12) d).

(** An interrupt gate for the handler at [kva]. *)
Definition interrupt_gate (kva pl : Z) : gate := mkGate kva KERNEL_CS 0 0xE pl 1 0.

Section gates.

Lemma gate_word0 kva : u32 (Z.lor (Z.land kva 0xFFFF) (Z.shiftl KERNEL_CS 16)) = 8 * 2 ^ 16 + kva mod 2 ^ 16.
Proof.
  change (Z.shiftl KERNEL_CS 16) with (8 * 2 ^ 16). change 0xFFFF with (Z.ones 16).
  rw Z.land_ones // Z.lor_comm lor_add; [lia|lia|]. rw /u32. lia.
Qed.

Lemma land_high kva : Z.land kva 0xFFFF0000 = (kva / 2 ^ 16 mod 2 ^ 16) * 2 ^ 16.
Proof.
  rw -(Z.shiftr_div_pow2 kva 16) // -Z.land_ones // -Z.shiftl_mul_pow2 //. apply Z.bits_inj'. intros k Hk.
  change 0xFFFF0000 with (Z.shiftl (Z.ones 16) 16).
  rw Z.land_spec !Z.shiftl_spec //. destruct (decide (k < 16)) as [|Hge].
  - rw !(Z.testbit_neg_r _ (k - 16)); [lia..|]. by rw andb_false_r.
  - rw Z.land_spec Z.shiftr_spec; [lia|]. by rw Z.sub_add.
Qed.

Lemma gate_word1 kva pl :
  0 ≤ pl < 4 →
  u32 (Z.lor (Z.lor (Z.land kva 0xFFFF0000) 0x8E00) (Z.shiftl (Z.land pl 3) 13)) =
  (kva / 2 ^ 16 mod 2 ^ 16) * 2 ^ 16 + (0x8E00 + pl * 2 ^ 13).
Proof.
  intros Hp. rw land_high -Z.lor_assoc.
  rw (_ : Z.lor 0x8E00 (Z.shiftl (Z.land pl 3) 13) = 0x8E00 + pl * 2 ^ 13).
  { assert (pl = 0 ∨ pl = 1 ∨ pl = 2 ∨ pl = 3) as [->|[->|[->| ->]]] by lia; done. }
  rw lor_add; [lia|lia|]. rw /u32. lia.
Qed.

Lemma decode_words kva pl :
  0 ≤ kva < 2 ^ 64 → 0 ≤ pl < 4 →
  decode_gate (8 * 2 ^ 16 + kva mod 2 ^ 16) ((kva / 2 ^ 16 mod 2 ^ 16) * 2 ^ 16 + (0x8E00 + pl * 2 ^ 13)) (kva / 2 ^ 32) 0 =
  interrupt_gate kva pl.
Proof.
  intros Hk Hp. rw /decode_gate /interrupt_gate. change KERNEL_CS with 8.
  f_equal; [|lia..]. lia.
Qed.

Lemma load_word32 k j v d :
  page d → 0 ≤ k < 1024 → 0 ≤ j < 1024 →
  load32 (4 * j) (store32 (4 * k) v d) = if decide (j = k) then u32 v else load32 (4 * j) d.
Proof.
  intros [Hl _] Hk Hj. rw /PGSIZE in Hl. case_decide as E.
  - subst. rw load_store_eq //; lia.
  - apply load_store_ne; lia.
Qed.

(** Gate [n] in the words of the table. *)
Lemma gate_at_words d n :
  gate_at d n =
  decode_gate (load32 (4 * (n * 4 + 0)) d) (load32 (4 * (n * 4 + 1)) d) (load32 (4 * (n * 4 + 2)) d) (load32 (4 * (n * 4 + 3)) d).
Proof. rw /gate_at. do 2 f_equal; lia. Qed.

Definition put4 (k w0 w1 w2 w3 : Z) (d : list Z) : list Z :=
  store32 (4 * (k + 3)) w3 (store32 (4 * (k + 2)) w2 (store32 (4 * (k + 1)) w1 (store32 (4 * (k + 0)) w0 d))).

Lemma page_put4 k w0 w1 w2 w3 d : 0 ≤ k < 1021 → page d → page (put4 k w0 w1 w2 w3 d).
Proof. intros Hk Hd. repeat (apply page_store32; [lia|]). done. Qed.

Lemma load_put4 k w0 w1 w2 w3 d j :
  page d → 0 ≤ k < 1021 → 0 ≤ j < 1024 →
  load32 (4 * j) (put4 k w0 w1 w2 w3 d) =
    if decide (j = k) then u32 w0 else if decide (j = k + 1) then u32 w1 else
    if decide (j = k + 2) then u32 w2 else if decide (j = k + 3) then u32 w3 else load32 (4 * j) d.
Proof.
  intros Hd Hk Hj. rw /put4.
  repeat (rw load_word32; [repeat (apply page_store32; [lia|]); done|lia|lia|]).
  repeat case_decide; try lia; done.
Qed.

Lemma mkgate_put4 p n kva pl s d :
  p mod PGSIZE = 0 → 0 ≤ n < 256 → k_mem s !! p = Some d →
  mkgate p n kva pl s =
    Ret tt (set_mem (<[p := put4 (n * 4) (u32 (Z.lor (Z.land kva 0xFFFF) (Z.shiftl KERNEL_CS 16)))
      (u32 (Z.lor (Z.lor (Z.land kva 0xFFFF0000) 0x8E00) (Z.shiftl (Z.land pl 3) 13))) (u32 (Z.shiftr kva 32)) 0 d]> (k_mem s)) s).
Proof.
  intros Hp Hn Hd. rw /mkgate (_ : u32 (n * 4) = n * 4); [rw /u32; lia|].
  rw (run_bind _ _ _ _ _ (wr32_word p (n * 4 + 0) _ s d Hp ltac:(lia) Hd)).
  do 2 (erewrite run_bind; [|eapply wr32_word; [done|lia|apply lookup_insert_eq]]).
  erewrite wr32_word; [|done|lia|apply lookup_insert_eq]. by rw /set_mem /= !insert_insert_eq.
Qed.

Lemma mkgate_run p n kva pl s d :
  p mod PGSIZE = 0 → k_mem s !! p = Some d → page d → 0 ≤ n < 256 → 0 ≤ kva < 2 ^ 64 → 0 ≤ pl < 4 →
  ∃ d', mkgate p n kva pl s = Ret tt (set_mem (<[p := d']> (k_mem s)) s) ∧ page d' ∧
    gate_at d' n = interrupt_gate kva pl ∧ ∀ m, 0 ≤ m < 256 → m ≠ n → gate_at d' m = gate_at d m.
Proof.
  intros Hp Hd Hpg Hn Hk Hpl. eexists. split; [by apply mkgate_put4|]. split_and!.
  - apply page_put4; [lia|done].
  - rw gate_at_words !load_put4 //; try lia. repeat (case_decide; try lia).
    rw gate_word0 gate_word1 // -(decode_words kva pl) // Z.shiftr_div_pow2 //. rw /u32. f_equal; lia.
  - intros m Hm Hne. rw !gate_at_words !load_put4 //; try lia. by repeat (case_decide; try lia).
Qed.

(** The table in page [p] after its first [n] gates are made, the rest of the
    state being that of [s]. *)
Definition table_upto (vectors : Z → Z) (p : Z) (s : kst) (n : Z) (s' : kst) : Prop :=
  ∃ d, s' = set_mem (<[p := d]> (k_mem s)) s ∧ page d ∧ ∀ m, 0 ≤ m < n → gate_at d m = interrupt_gate (vectors m) 0.

Lemma mkgate_step vectors p s n s' :
  p mod PGSIZE = 0 → (∀ m, 0 ≤ m < 256 → 0 ≤ vectors m < 2 ^ 64) → 0 ≤ n < 256 → table_upto vectors p s n s' →
  total (mkgate p n (vectors n) 0) s' (λ _ s'', table_upto vectors p s (n + 1) s'').
Proof.
  intros Hp Hv Hn (d & -> & Hpg & Hg).
  destruct (mkgate_run p n (vectors n) 0 (set_mem (<[p := d]> (k_mem s)) s) d) as (d' & Hr & Hpg' & Hn' & Ho);
    [done|apply lookup_insert_eq|done|done|by apply Hv|done|].
  eexists _, _. split; [exact Hr|]. exists d'. split; [by rw /set_mem /= insert_insert_eq|]. split; [done|].
  intros m Hm. destruct (decide (m = n)) as [->|]; [done|]. rw Ho; [lia|done|]. apply Hg. lia.
Qed.

Context (kend : Z).

(** [tvinit] takes a page from the allocator and makes it a descriptor table in
    which entry [n] is an interrupt gate to [vectors[n]] in the kernel's code
    segment that user code cannot raise. *)
Theorem tvinit_gates vectors p F s :
  krepr kend (p :: F) s → (∀ n, 0 ≤ n < 256 → 0 ≤ vectors n < 2 ^ 64) →
  ∃ s' d, tvinit vectors s = Ret p s' ∧ krepr kend F s' ∧ k_mem s' = <[p := d]> (k_mem s) ∧
    ∀ n, 0 ≤ n < 256 → gate_at d n = interrupt_gate (vectors n) 0.
Proof.
  intros Hk Hv. destruct (kalloc_ok kend _ _ Hk) as (s1 & Hr & Hk1 & Hm & _). simpl in Hr, Hk1.
  pose proof (kr_pages _ _ _ Hk) as Hkp. pose proof (kr_nodup _ _ _ Hk) as Hnd.
  apply list.Forall_cons in Hkp as [Hp _]. apply list.NoDup_cons in Hnd as [Hnin _].
  rw /tvinit (run_bind _ _ _ _ _ Hr). rw (run_bind _ _ _ _ _ (memset_zero kend F s1 p Hk1 Hp)).
  destruct (total_for_up 256 0 (λ n, mkgate p n (vectors n) 0) (table_upto vectors p s1) (set_mem (<[p := zpage]> (k_mem s1)) s1))
    as ([] & s' & Hl & d & -> & Hpg & Hg).
  - exists zpage. split; [done|]. split; [apply page_zpage|lia].
  - intros n s2 Hn. apply mkgate_step; [apply Hp|done|done].
  - eexists _, d. rw (run_bind _ _ _ _ _ Hl). split_and!; [done|by apply krepr_put|by rw /= Hm|exact Hg].
Qed.

End gates.

(** ** The handler *)

(** A computation that does not return to its caller. *)
Definition noreturn {S A} (m : M S A) : Prop := ∀ s a s', m s ≠ Ret a s'.

Lemma noreturn_after {S A B} (m : M S A) (f : A → M S B) : (∀ a, noreturn (f a)) → noreturn (m ≫= f).
Proof. intros Hf s b s' (a & s1 & _ & H)%run_bind_inv. by apply Hf in H. Qed.

Lemma noreturn_lift {O I A} `{!Lens O I} (m : M I A) : noreturn m → noreturn (lift (O:=O) m).
Proof. intros Hm o a o'. rw /lift. destruct (m (lget o)) eqn:E; try done. by apply Hm in E. Qed.

(** What follows such a computation is dead code. *)
Lemma noreturn_then {S A} (m : M S A) (k : M S A) s : noreturn m → (m;; k) s = m s.
Proof. intros Hm. rw /mbind /M_bind. destruct (m s) eqn:E; try done. by apply Hm in E. Qed.

Lemma exit_handoff_noreturn : noreturn exit_handoff.
Proof. do 3 (apply noreturn_after; intros ?). case_match; [|done]. by repeat (apply noreturn_after; intros ?). Qed.

Section handler.
Context {S : Type} `{!Lens S core, !BlockStore S} (kend : Z).
Context (context_rbp : nat → Z) (word : Z → Z).
Implicit Types (t : tst S) (tf : trapframe) (h : hw).

Abbreviation trap := (trap kend context_rbp word).

Lemma exit_noreturn : noreturn (exit (S:=S) kend).
Proof.
  apply noreturn_after. intros c. case_bool_decide; [done|]. do 2 (apply noreturn_after; intros ?).
  case_match; [|done]. do 4 (apply noreturn_after; intros ?). apply noreturn_lift, exit_handoff_noreturn.
Qed.

Lemma exit_killed_ret tf t u t' : user_mode tf = true → exit_killed kend tf t = Ret u t' → t' = t ∧ killed t = false.
Proof.
  rw /exit_killed run_gets => ->. destruct (killed t); cbn [andb when].
  - intros []%(noreturn_lift (O:=tst S) _ exit_noreturn).
  - intros [= _ ->]. done.
Qed.

Lemma exit_killed_skip tf t : killed t && user_mode tf = false → exit_killed kend tf t = Ret tt t.
Proof. rw /exit_killed run_gets => ->. done. Qed.

Lemma lift_tcore {A} (m : M core A) t a c : m (tcore t) = Ret a c → lift m t = Ret a (set_tcore c t).
Proof. exact (run_lift m t a c). Qed.

(** C23: a process that has been killed does not get back to user mode: the handler
    returns to user code only where the flag is clear, also when the process had
    given up the CPU in it. *)
Theorem trap_user_return tf h t t' :
  user_mode tf = true →
  (trap tf h t = Ret tt t' → killed t' = false) ∧ (trap_resume kend tf t = Ret tt t' → killed t' = false).
Proof.
  intros Hu. split.
  - intros (_ & t1 & _ & H)%run_bind_inv. apply run_bind_inv in H as (_ & t2 & _ & H). rw run_gets in H.
    apply run_bind_inv in H as (_ & t3 & _ & H). by apply exit_killed_ret in H as [-> ?].
  - intros (_ & t1 & _ & H)%run_bind_inv. by apply exit_killed_ret in H as [-> ?].
Qed.

(** The clock and the acknowledgements are apart from the process table. *)
Definition with_ticks (n : Z) (t : tst S) : tst S := set_tsys (set_ticks n (t_sys t)) t.

Lemma tcore_set c t : tcore (set_tcore c t) = c.
Proof. exact (lget_lset (O:=tst S) c t). Qed.
Lemma set_tcore_twice c c' t : set_tcore c (set_tcore c' t) = set_tcore c t.
Proof. exact (lset_lset (O:=tst S) c c' t). Qed.
Lemma set_tcore_id t : set_tcore (tcore t) t = t.
Proof. exact (lset_lget (I:=core) (O:=tst S) t). Qed.
Lemma with_ticks_core n c t : with_ticks n (set_tcore c t) = set_tcore c (with_ticks n t).
Proof. done. Qed.

Lemma tick_run t :
  c_locks (tcore t) = [] →
  tick t = Ret tt (set_tcore (wake_all ChTicks (tcore t)) (with_ticks (u32 (y_ticks (t_sys t) + 1)) t)).
Proof.
  intros Hl. rw /tick. erewrite run_bind; [|apply lift_tcore, acquire_run; rw Hl; set_solver].
  rw run_modify Hl. change (set_tsys _ _) with (with_ticks (u32 (y_ticks (t_sys t) + 1)) (set_tcore (set_locks [LTicks] (tcore t)) t)).
  rw with_ticks_core. erewrite run_bind; [|apply lift_tcore, wakeup_run; rw tcore_set; set_solver].
  erewrite lift_tcore; [|apply (release_run _ []); [by rw !tcore_set|set_solver]].
  rw !tcore_set set_tcore_twice set_tcore_twice /wake_all. by destruct (tcore t); simpl in *; subst.
Qed.

(** The acknowledgement of an interrupt. *)
Definition acked t : tst S := set_eoi (if t_lapic t =? 0 then t_eoi t else t_eoi t + 1) t.

Lemma lapiceoi_run t : lapiceoi t = Ret tt (acked t).
Proof. rw /lapiceoi /acked /modify. destruct t as [????????? ? l ?]; cbn. by destruct (l =? 0). Qed.

(** The process table after a clock interrupt on CPU [cpu]. *)
Definition ticked (cpu : Z) (c : core) : core := if cpu =? 0 then wake_all ChTicks c else c.
Definition clock (cpu n : Z) : Z := if cpu =? 0 then u32 (n + 1) else n.

Lemma ticked_cur cpu c i p :
  c_cur c = Some i → c_procs c !! i = Some p → p_state p = RUNNING →
  c_cur (ticked cpu c) = Some i ∧ c_procs (ticked cpu c) !! i = Some p ∧ c_locks (ticked cpu c) = c_locks c.
Proof.
  intros Hi Hp Hs. rw /ticked. destruct (cpu =? 0); [|done]. split_and!; try done.
  rw /= list_lookup_fmap Hp /= /wake Hs. by rw bool_decide_eq_false_2; [naive_solver|].
Qed.

Lemma timer_run tf h t :
  trapno tf = T_IRQ0 + IRQ_TIMER → c_locks (tcore t) = [] →
  dispatch_trap context_rbp word tf h t =
    Ret tt (acked (set_tcore (ticked (hw_cpu h) (tcore t)) (with_ticks (clock (hw_cpu h) (y_ticks (t_sys t))) t))).
Proof.
  intros Hn Hl. rw /dispatch_trap Hn Z.eqb_refl /ticked /clock. destruct (hw_cpu h =? 0); cbn [when].
  - by rw (run_bind _ _ _ _ _ (tick_run t Hl)) lapiceoi_run.
  - rw run_ret lapiceoi_run. change (tcore t) with (tcore (with_ticks (y_ticks (t_sys t)) t)). rw set_tcore_id. by destruct t as [[]].
Qed.

(** C21: a clock interrupt makes the running process give up the CPU, on whichever
    CPU it comes; on CPU 0 it also counts a tick, modulo [2^32], and makes every
    process that sleeps in [sys_sleep] runnable.  Nothing else changes. *)
Theorem trap_timer tf h t i p :
  trapno tf = T_IRQ0 + IRQ_TIMER → c_locks (tcore t) = [] → c_cur (tcore t) = Some i → c_procs (tcore t) !! i = Some p →
  p_state p = RUNNING → p_killed p = 0 ∨ user_mode tf = false →
  trap tf h t =
    Sched (acked
      (set_tcore (set_locks [LPtable] (pupd i (set_state RUNNABLE) (ticked (hw_cpu h) (tcore t))))
        (with_ticks (clock (hw_cpu h) (y_ticks (t_sys t))) t))).
Proof.
  intros Hn Hl Hi Hp Hs Hk. destruct (ticked_cur (hw_cpu h) (tcore t) i p Hi Hp Hs) as (Hi' & Hp' & Hl').
  rw /Trap.trap (run_bind _ _ _ _ _ (timer_run tf h t Hn Hl)). set t1 := acked _.
  assert (tcore t1 = ticked (hw_cpu h) (tcore t)) as E by exact (tcore_set _ (with_ticks _ t)).
  assert (tproc t1 = Some p) as Ep by by rw /tproc E Hi' /= (list_lookup_total_correct _ _ _ Hp').
  assert (killed t1 && user_mode tf = false) as Hk1.
  { rw /killed Ep. destruct Hk as [->| ->]; [done|]. by rw andb_false_r. }
  rw (run_bind _ _ _ _ _ (exit_killed_skip tf t1 Hk1)).
  rw run_gets /running Ep Hs bool_decide_eq_true_2 // Hn Z.eqb_refl. cbn [andb when].
  apply run_bind_sched. rw /lift. change (lget t1) with (tcore t1). rw (yield_run i p (tcore t1)) ?E //; [congruence|].
  f_equal. exact (f_equal acked (set_tcore_twice _ _ _)).
Qed.

(** *** Faults *)

(** The numbers the switch has a case for. *)
Definition known (n : Z) : bool :=
  existsb (Z.eqb n) [T_IRQ0 + IRQ_TIMER; T_IRQ0 + IRQ_IDE; T_IRQ0 + IRQ_IDE + 1; T_IRQ0 + IRQ_KBD; T_IRQ0 + IRQ_COM1; T_IRQ0 + 7;
    T_IRQ0 + IRQ_SPURIOUS].

Lemma dispatch_unexpected tf h t : known (trapno tf) = false → dispatch_trap context_rbp word tf h t = unexpected tf h t.
Proof. rw /known /dispatch_trap /=. intros. repeat (destruct (trapno tf =? _); [done|]). done. Qed.

(** The console can print. *)
Definition can_print t : Prop := cons_ok (tcons t) ∧ (t_locking t = 0 ∨ LCons ∉ c_locks (tcore t)).

Lemma tcons_set c t : tcons (set_tcons c t) = c.
Proof. exact (lget_lset (I:=cst) (O:=tst S) c t). Qed.

Lemma kprint_run fmt ap t :
  can_print t → signature false (codes fmt ++ [NEWLINE]) `prefix_of` (kind_of <$> ap) →
  ∃ out c, format false (codes fmt ++ [NEWLINE]) ap = Some out ∧ emits out (tcons t) c ∧
    kprint fmt true ap t = Ret tt (set_tcons c t) ∧ can_print (set_tcons c t) ∧ tcore (set_tcons c t) = tcore t.
Proof.
  intros [Hok Hl] [out Hf]%format_typed. destruct (cprintf_run _ _ _ _ Hf Hok Hl) as (c & Hr & He).
  exists out, c. split; [done|]. split; [done|]. split; [exact (run_lift _ t tt c Hr)|].
  assert (cn_core c = tcore t ∧ cn_locking c = t_locking t) as [Hc Hk] by by destruct He as (x & _ & _ & ->).
  assert (tcore (set_tcons c t) = tcore t) as E by (etrans; [exact (f_equal cn_core (tcons_set c t))|exact Hc]).
  split; [|exact E]. split; [rw tcons_set; exact (emits_ok _ _ _ Hok He)|]. rw E.
  change (t_locking (set_tcons c t)) with (cn_locking c). by rw Hk.
Qed.

Lemma tproc_cur t i p : c_cur (tcore t) = Some i → c_procs (tcore t) !! i = Some p → tproc t = Some p.
Proof. intros Hi Hp. by rw /tproc Hi /= (list_lookup_total_correct _ _ _ Hp). Qed.

(** A trap the switch has no case for: in the kernel it ends in a panic. *)
Lemma trap_fault_kernel tf h t :
  known (trapno tf) = false → can_print t → tproc t = None ∨ Z.land (cs tf) 3 = 0 → ∃ t', trap tf h t = Panic "trap" t'.
Proof.
  intros Hn Hok Hm. rw /Trap.trap.
  assert (∃ t', unexpected tf h t = Panic "trap" t') as (t' & Hr).
  { rw /unexpected run_gets. rw (_ : bool_decide (tproc t = None) || (Z.land (cs tf) 3 =? 0) = true).
    { destruct Hm as [->| ->]; [done|apply orb_true_r]. }
    destruct (kprint_run "unexpected trap %d from cpu %d rip %p (cr2=0x%p)"
      [VInt (i32 (trapno tf)); VInt (hw_cpu h); VAddr (rip tf); VAddr (hw_cr2 h)] t Hok) as (out & c & _ & _ & Hr & Hok' & _);
      [by vm_compute; exists []|].
    rw (run_bind _ _ _ _ _ Hr). destruct (tproc t) as [p|]; [|by eexists].
    destruct (kprint_run "proc id: %d" [VInt (p_pid p)] _ Hok') as (out2 & c2 & _ & _ & Hr2 & _); [by vm_compute; exists []|].
    rw (run_bind _ _ _ _ _ Hr2). by eexists. }
  exists t'. apply run_bind_panic. by rw dispatch_unexpected.
Qed.

(** What the handler prints about a fault in user mode. *)
Definition kill_args (tf : trapframe) (h : hw) (p : proc) : list varg :=
  [VInt (p_pid p); VStr (Some (cname 16 (nthZ (p_name p)) 0)); VInt (i32 (trapno tf)); VInt (i32 (err tf)); VInt (hw_cpu h);
   VAddr (rip tf); VAddr (hw_cr2 h)].
Definition kill_message : list Z :=
  codes "pid %d %s: trap %d err %d on cpu %d rip 0x%p addr 0x%p--kill proc" ++ [NEWLINE].

Lemma unexpected_user tf h t i p :
  user_mode tf = true → c_cur (tcore t) = Some i → c_procs (tcore t) !! i = Some p → can_print t →
  ∃ out c, format false kill_message (kill_args tf h p) = Some out ∧ emits out (tcons t) c ∧
    unexpected tf h t = Ret tt (set_tcore (pupd i (w_killed 1) (tcore t)) (set_tcons c t)).
Proof.
  intros Hu Hi Hp Hok. destruct (kprint_run "pid %d %s: trap %d err %d on cpu %d rip 0x%p addr 0x%p--kill proc" (kill_args tf h p) t Hok)
    as (out & c & Hf & He & Hr & _ & Ec); [by vm_compute; exists []|].
  exists out, c. split; [exact Hf|]. split; [exact He|]. rw /unexpected run_gets (tproc_cur _ _ _ Hi Hp).
  rw bool_decide_eq_false_2 // (_ : Z.land (cs tf) 3 =? 0 = false); [rw /user_mode /DPL_USER in Hu; lia|]. cbn [orb].
  rw (run_bind _ _ _ _ _ Hr). apply lift_tcore. by rw Ec /with_cur Hi.
Qed.

(** C22: a fault is charged to the one who caused it: in user mode the handler prints
    a message that names the process, marks the process killed and makes it exit,
    so the faulting instruction is not run again; in the kernel it panics. *)
Theorem trap_fault tf h t i p :
  known (trapno tf) = false → c_cur (tcore t) = Some i → c_procs (tcore t) !! i = Some p → can_print t →
  (user_mode tf = true → ∃ out c,
     format false kill_message (kill_args tf h p) = Some out ∧ emits out (tcons t) c ∧
     trap tf h t = lift (exit kend) (set_tcore (pupd i (w_killed 1) (tcore t)) (set_tcons c t)) ∧
     ∀ t', trap tf h t ≠ Ret tt t') ∧
  (Z.land (cs tf) 3 = 0 → ∃ t', trap tf h t = Panic "trap" t').
Proof.
  intros Hn Hi Hp Hok. split; [|by intros H0; apply trap_fault_kernel; auto].
  intros Hu. destruct (unexpected_user tf h t i p Hu Hi Hp Hok) as (out & c & Hf & He & Hr). exists out, c.
  split; [done|]. split; [done|]. set t1 := set_tcore _ _ in Hr |- *.
  assert (killed t1 = true) as Hk.
  { rw /killed /t1 (tproc_cur _ i (w_killed 1 p)) // tcore_set //= list_lookup_alter decide_True // Hp //. }
  assert (trap tf h t = lift (exit kend) t1) as Ht.
  { rw /Trap.trap (run_bind _ _ _ tt t1); [by rw dispatch_unexpected|].
    rw /exit_killed run_assoc run_gets Hk Hu. cbn [andb when]. apply noreturn_then, noreturn_lift, exit_noreturn. }
  split; [exact Ht|]. intros t' E. rewrite Ht in E. by apply (noreturn_lift (O:=tst S) _ exit_noreturn) in E.
Qed.

End handler.
