(* ===== verification/ProcInv.v ===== *)
(** * The process table under any interleaving

    The critical sections of proc.c as steps on the process table and on the local
    variables [np] of the processes inside [fork], and what every reachable table
    satisfies: process ids are distinct, every process but init has a living
    parent, a process that is being made is known to its maker alone, sleepers have
    a channel, and no parent sleeps in [wait] while it has a zombie child.  The
    scheduler gets to every runnable process. *)

From S2P Require Import Prelude Kernel Kalloc Vm Store Fs Sys Proc.

(** ** Processes that sleep in [wait] *)

Definition waiting (q : proc) (ch : chan) : Prop := p_state q = SLEEPING ∧ p_chan q = Some ch.

(** Nobody sleeps on [ch]. *)
Definition awake (ch : chan) (ps : list proc) : Prop := ∀ k q, ps !! k = Some q → ~ waiting q ch.

(** Woken up or not. *)
Definition maybe_woken (st st' : procstate) : Prop := st' = st ∨ st = SLEEPING ∧ st' = RUNNABLE.

(** What other processes may do to a process: wake it up, and, when its parent
    [me] exits, give it another parent. *)
Record touched (par : option nat) (q q' : proc) : Prop := {
  to_pid : p_pid q' = p_pid q;
  to_chan : p_chan q' = p_chan q;
  to_state : maybe_woken (p_state q) (p_state q');
  to_parent : p_parent q' = par;
}.

Lemma wake_touched (ch : chan) (q : proc) : touched (p_parent q) q (wake ch q).
Proof. rw /wake. case_bool_decide as H; split => //=; [right|left]; naive_solver. Qed.

Lemma wake_awake (ch : chan) (ps : list proc) : awake ch (map (wake ch) ps).
Proof.
  move=> k q. rw list_lookup_fmap. case: (ps !! k) => [x|//] [<-] [H1 H2]. move: H1 H2.
  rw /wake. case_bool_decide as H => //= *. by apply H.
Qed.

Lemma maybe_woken_trans (a b c : procstate) : maybe_woken a b → maybe_woken b c → maybe_woken a c.
Proof. rw /maybe_woken. naive_solver. Qed.

(** [if(p) wakeup1(p)]: nobody sleeps on a null pointer. *)
Definition wake_opt (j : option nat) (ps : list proc) : list proc :=
  match j with Some j => map (wake (ChProc j)) ps | None => ps end.

Lemma wake_opt_run (j : option nat) (c : core) :
  (match j with Some j => wakeup1 (ChProc j) | None => mret tt end) c = Ret tt (set_procs (wake_opt j (c_procs c)) c).
Proof. case: j => [j|] //=. by rw set_procs_id. Qed.

(** ** [exit] *)

Section exit.
Context (me : nat) (init par : option nat) (ps0 : list proc).

(** The table during the loop of [exit], before index [i]. *)
Record handing (i : Z) (ps : list proc) : Prop := {
  ha_len : length ps = length ps0;
  ha_all k q : ps0 !! k = Some q → ∃ q', ps !! k = Some q' ∧
    touched (if decide (p_parent q = Some me ∧ Z.of_nat k < i) then init else p_parent q) q q';
  ha_parent j : par = Some j → awake (ChProc j) ps;
  ha_init k q r : ps0 !! k = Some q → Z.of_nat k < i → p_parent q = Some me → p_state q = ZOMBIE →
    init = Some r → awake (ChProc r) ps;
}.

Lemma awake_alter (ch : chan) (ps : list proc) (f : proc → proc) (k : nat) :
  (∀ q, ps !! k = Some q → waiting (f q) ch → waiting q ch) → awake ch ps → awake ch (alter f k ps).
Proof.
  move=> Hf Ha j q. rw list_lookup_alter. case_decide as E; last by apply Ha.
  subst k. destruct (ps !! j) as [x|] eqn:E' => // [[<-]] /(Hf _ eq_refl). by eapply Ha.
Qed.

Lemma awake_wake (ch ch' : chan) (ps : list proc) : awake ch ps → awake ch (map (wake ch') ps).
Proof.
  move=> Ha j q. rw list_lookup_fmap. destruct (ps !! j) as [x|] eqn:E => // [[<-]] [H1 H2].
  apply (Ha _ _ E). move: H1 H2. rw /wake. by case_bool_decide.
Qed.

Lemma touched_wake (par' : option nat) (ch : chan) (q q' : proc) :
  touched par' q q' → touched par' q (wake ch q').
Proof.
  move=> [Hp Hc Hs Hr]. have [Hp' Hc' Hs' Hr'] := wake_touched ch q'.
  split; [congruence..| |congruence]. by eapply maybe_woken_trans.
Qed.

Lemma handing_wake (i : Z) (r : nat) (ps : list proc) :
  handing i ps → handing i (map (wake (ChProc r)) ps).
Proof.
  move=> H. split.
  - rw length_map. apply (ha_len _ _ H).
  - move=> k q Hk. have [q' [Hq' Ht]] := ha_all _ _ H _ _ Hk. exists (wake (ChProc r) q').
    rw list_lookup_fmap Hq'. split => //. by apply touched_wake.
  - move=> j Hj. by apply awake_wake, (ha_parent _ _ H).
  - move=> k q j Hk Hi Hp Hz Hr. apply awake_wake. by eapply (ha_init _ _ H).
Qed.

(** Index [i] is not a child of [me]. *)
Lemma handing_skip (i : Z) (ps : list proc) (q0 : proc) :
  0 ≤ i → handing i ps → ps0 !! Z.to_nat i = Some q0 → p_parent q0 ≠ Some me → handing (i + 1) ps.
Proof.
  move=> Hi H Hq0 Hme.
  have Hk : ∀ k x, ps0 !! k = Some x → p_parent x = Some me → Z.of_nat k < i + 1 → Z.of_nat k < i.
  { move=> k x Hx Hp Hlt. case: (decide (k = Z.to_nat i)) => [E|]; last lia. subst k. congruence. }
  split.
  - apply (ha_len _ _ H).
  - move=> k x Hx. have [x' [Hx' Htx]] := ha_all _ _ H _ _ Hx. exists x'. split => //.
    case: (decide (p_parent x = Some me ∧ Z.of_nat k < i + 1)) => [[H1 H2]|Hn].
    + by rw decide_True in Htx; first (split => //; by apply (Hk _ _ Hx)).
    + rw decide_False in Htx => //. move=> [H1 H2]. apply Hn. split => //. lia.
  - apply (ha_parent _ _ H).
  - move=> k x r Hx Hlt Hp. apply (ha_init _ _ H k x) => //. by apply (Hk _ _ Hx).
Qed.

(** Index [i] is a child of [me] and gets its new parent. *)
Lemma handing_child (i : Z) (ps : list proc) (q0 : proc) :
  0 ≤ i → handing i ps → ps0 !! Z.to_nat i = Some q0 → p_parent q0 = Some me →
  (p_state q0 = ZOMBIE → ∀ r, init = Some r → awake (ChProc r) ps) →
  handing (i + 1) (alter (w_parent init) (Z.to_nat i) ps).
Proof.
  move=> Hi H Hq0 Hme Hz.
  have Haw : ∀ ch, awake ch ps → awake ch (alter (w_parent init) (Z.to_nat i) ps).
  { move=> ch. apply awake_alter. by move=> q _ [? ?]. }
  split.
  - rw length_alter. apply (ha_len _ _ H).
  - move=> k x Hx. have [x' [Hx' Htx]] := ha_all _ _ H _ _ Hx. rw list_lookup_alter.
    case: (decide (Z.to_nat i = k)) => [E|Hne].
    + subst k. have ? : x = q0 by congruence. subst x.
      exists (w_parent init x'). rw Hx'. split => //. rw decide_True; first (split => //; lia).
      by case: Htx => *; split.
    + exists x'. split => //.
      rw (decide_ext (p_parent x = Some me ∧ Z.of_nat k < i + 1) (p_parent x = Some me ∧ Z.of_nat k < i)) //.
      split => -[? ?]; split => //; lia.
  - move=> j Hj. by apply Haw, (ha_parent _ _ H).
  - move=> k x r Hx Hlt Hp Hzx Hr. apply Haw. case: (decide (k = Z.to_nat i)) => [E|Hne].
    + subst k. have ? : x = q0 by congruence. subst x. by apply Hz.
    + apply (ha_init _ _ H k x) => //. lia.
Qed.

(** The parts of [core] the loop leaves alone. *)
Definition same_cpu (c c' : core) : Prop :=
  c_locks c' = c_locks c ∧ c_cur c' = c_cur c ∧ c_nextpid c' = c_nextpid c ∧ c_initproc c' = c_initproc c.

Lemma reparent1_ok (i : Z) (c c0 : core) :
  0 ≤ i → i < Z.of_nat (length ps0) → handing i (c_procs c) → same_cpu c0 c →
  total (reparent1 me init (Z.to_nat i)) c (λ _ c', handing (i + 1) (c_procs c') ∧ same_cpu c0 c').
Proof.
  move=> Hi Hlt H Hs. have [q0 Hq0] := lookup_lt_is_Some_2 ps0 (Z.to_nat i) ltac:(lia).
  have [q [Hq Ht]] := ha_all _ _ H _ _ Hq0. rw decide_False in Ht; first lia.
  rw /reparent1. apply total_gets_bind. rw (list_lookup_total_correct _ _ _ Hq) (to_parent _ _ _ Ht).
  case_bool_decide as Hme; last first.
  { apply total_ret. split => //. by apply (handing_skip _ _ q0). }
  apply total_modify_bind. rw /when. case_bool_decide as Hz; last first.
  { apply total_ret. split => //. apply (handing_child _ _ q0) => // E.
    exfalso. apply Hz. case: (to_state _ _ _ Ht); rw E; [done|by case]. }
  eexists _, _. split; [apply wake_opt_run|]. split => //=.
  have -> : wake_opt init (alter (w_parent init) (Z.to_nat i) (c_procs c))
    = alter (w_parent init) (Z.to_nat i) (wake_opt init (c_procs c)).
  { have Hf : ∀ ch x, wake ch (w_parent init x) = w_parent init (wake ch x).
    { move=> ch x. rw /wake /=. by case_bool_decide. }
    move: (w_parent init) Hf => f Hf. rw /wake_opt. case: init => // r. apply list_eq => k.
    rw list_lookup_fmap !list_lookup_alter list_lookup_fmap.
    case_decide as E; last by rw list_lookup_fmap. subst k.
    destruct (c_procs c !! Z.to_nat i) as [x|] => //=. by rw Hf. }
  apply (handing_child _ _ q0) => //.
  - rw /wake_opt. move: (handing_wake i) => Hw. destruct init as [r|] eqn:Ei in |- *; [by apply Hw|done].
  - move=> _ r ->. apply wake_awake.
Qed.

End exit.

(** What [exit] hands over: every other process keeps its id and channel, is at
    most woken up, and children of [me] become children of init; the parent of
    [me] is not left asleep in [wait], nor is init if it inherits a zombie. *)
Record exited (me : nat) (ps ps' : list proc) (init : option nat) : Prop := {
  ex_len : length ps' = length ps;
  ex_me q : ps !! me = Some q → ∃ q', ps' !! me = Some q' ∧ p_state q' = ZOMBIE ∧
    p_pid q' = p_pid q ∧ p_chan q' = p_chan q ∧ p_parent q' = (if decide (p_parent q = Some me) then init else p_parent q);
  ex_other k q : k ≠ me → ps !! k = Some q → ∃ q', ps' !! k = Some q' ∧
    touched (if decide (p_parent q = Some me) then init else p_parent q) q q';
  ex_parent q j : ps !! me = Some q → p_parent q = Some j → awake (ChProc j) ps';
  ex_init k q r : ps !! k = Some q → p_parent q = Some me → p_state q = ZOMBIE → init = Some r → awake (ChProc r) ps';
}.

Lemma exit_handoff_run (me : nat) (c : core) :
  c_locks c = [] → c_cur c = Some me → length (c_procs c) = NPROC → (me < NPROC)%nat →
  ∃ c', exit_handoff c = Sched c' ∧ exited me (c_procs c) (c_procs c') (c_initproc c) ∧
    c_locks c' = [LPtable] ∧ c_cur c' = c_cur c ∧ c_nextpid c' = c_nextpid c ∧ c_initproc c' = c_initproc c.
Proof.
  move=> Hl Hc Hn Hme. have [q Hq] := lookup_lt_is_Some_2 (c_procs c) me ltac:(lia).
  rw /exit_handoff. erewrite run_bind; [|apply acquire_run; rw Hl; set_solver].
  rw !run_gets /= Hc run_gets /= (list_lookup_total_correct _ _ _ Hq) Hl.
  set c1 := set_locks [LPtable] c. set par := p_parent q.
  have [c2 [E2 [H2 S2]]] : ∃ c2, (match par with Some j => wakeup1 (ChProc j) | None => mret tt end) c1 = Ret tt c2 ∧
    handing me (c_initproc c) par (c_procs c) 0 (c_procs c2) ∧ same_cpu c1 c2.
  { case Ep: par => [j|]; eexists; (split; [done|]); (split; [|done]); split => //=.
    - by rw length_map.
    - move=> k x Hx. rw list_lookup_fmap Hx decide_False; first lia. eexists. split => //. apply wake_touched.
    - move=> j' [<-]. apply wake_awake.
    - lia.
    - move=> k x Hx. rw Hx decide_False; first lia. eexists. split => //. split => //. by left.
    - lia. }
  rw (run_bind _ _ _ _ _ E2).
  have [[] [c3 [E3 [H3 S3]]]] := total_for_up NPROC 0 (λ i, reparent1 me (c_initproc c) (Z.to_nat i))
    (λ i c, handing me (c_initproc c1) par (c_procs c1) i (c_procs c) ∧ same_cpu c1 c) c2
    ltac:(by split) ltac:(move=> i s Hi [Hh Hs]; apply reparent1_ok => //; simpl; lia).
  rw (run_bind _ _ _ _ _ E3) run_modify. simpl in H3. move: S3 => [L3 [C3 [N3 I3]]].
  have Hall : ∀ k x, c_procs c !! k = Some x → Z.of_nat k < 0 + Z.of_nat NPROC.
  { move=> k x Hx. apply lookup_lt_Some in Hx. lia. }
  have [q3 [Hq3 T3]] := ha_all _ _ _ _ _ _ H3 _ _ Hq.
  eexists. split; [apply run_bind_sched, sched_run|split_and! => //=].
  - rw L3. done.
  - rw /cur_proc /= C3 /= Hc list_lookup_total_alt list_lookup_alter decide_True // Hq3 //.
  - split.
    + rw length_alter. apply (ha_len _ _ _ _ _ _ H3).
    + move=> x Hx. have ? : x = q by congruence. subst x. exists (set_state ZOMBIE q3).
      rw list_lookup_alter decide_True // Hq3. split => //. case: T3 => *. split_and! => //.
      rw (decide_ext (p_parent q = Some me) (p_parent q = Some me ∧ Z.of_nat me < 0 + Z.of_nat NPROC)) //.
      have := Hall _ _ Hq. tauto.
    + move=> k x Hk Hx. have [x' [Hx' Tx]] := ha_all _ _ _ _ _ _ H3 _ _ Hx. exists x'.
      rw list_lookup_alter decide_False //. split => //.
      rw (decide_ext (p_parent x = Some me) (p_parent x = Some me ∧ Z.of_nat k < 0 + Z.of_nat NPROC)) //.
      have := Hall _ _ Hx. tauto.
    + move=> x j Hx Hj. have ? : x = q by congruence. subst x. apply awake_alter; first by move=> y _ [].
      by apply (ha_parent _ _ _ _ _ _ H3).
    + move=> k x r Hx Hp Hz Hr. apply awake_alter; first by move=> y _ [].
      apply (ha_init _ _ _ _ _ _ H3 k x) => //. by eapply Hall.
  - by rw C3 /= Hc.
Qed.

(** ** The invariant *)

Definition live (q : proc) : Prop := p_state q = SLEEPING ∨ p_state q = RUNNABLE ∨ p_state q = RUNNING.
Definition fresh (q : proc) : Prop := p_state q = UNUSED ∨ p_state q = EMBRYO.

Record pt_ok (c : core) : Prop := {
  pt_len : length (c_procs c) = NPROC;
  (** init lives for ever and has no parent *)
  pt_init : ∃ r q, c_initproc c = Some r ∧ c_procs c !! r = Some q ∧ live q ∧ p_parent q = None;
  (** process ids are positive and distinct *)
  pt_pid i q : c_procs c !! i = Some q → p_state q ≠ UNUSED → 0 < p_pid q < c_nextpid c;
  pt_inj i j q r : c_procs c !! i = Some q → c_procs c !! j = Some r →
    p_state q ≠ UNUSED → p_state r ≠ UNUSED → p_pid q = p_pid r → i = j;
  (** everybody else has a living parent, also the zombies *)
  pt_parent i q : c_procs c !! i = Some q → ~ fresh q → c_initproc c ≠ Some i →
    ∃ j r, p_parent q = Some j ∧ j ≠ i ∧ c_procs c !! j = Some r ∧ live r;
  pt_free i q : c_procs c !! i = Some q → p_state q = UNUSED → p_parent q = None;
  (** a sleeper has something to be woken up on *)
  pt_chan i q : c_procs c !! i = Some q → p_state q = SLEEPING → p_chan q ≠ None;
  (** a process sleeps in [wait] only for itself, and without a zombie child *)
  pt_self i j q : c_procs c !! i = Some q → waiting q (ChProc j) → i = j;
  pt_wait i q k r : c_procs c !! i = Some q → waiting q (ChProc i) →
    c_procs c !! k = Some r → p_parent r = Some i → p_state r ≠ ZOMBIE;
}.

(** The processes that are inside [fork], each with its local variable [np] and
    whether [np->parent] is set already. *)
Abbreviation forking := (gmap nat (nat * bool)).

Record forks (fk : forking) (ps : list proc) : Prop := {
  (** [np] is the slot of a new process, of which nobody else knows *)
  fo_new me i (linked : bool) : fk !! me = Some (i, linked) → ∃ q m, ps !! i = Some q ∧ ps !! me = Some m ∧
    p_state q = EMBRYO ∧ p_parent q = (if linked then Some me else None) ∧ live m;
  fo_inj me me' i l l' : fk !! me = Some (i, l) → fk !! me' = Some (i, l') → me = me';
  (** a new process with a parent is being made by it *)
  fo_parent i q j : ps !! i = Some q → p_state q = EMBRYO → p_parent q = Some j → fk !! j = Some (i, true);
}.

(** The view of a CPU that holds the locks [ls] and runs process [me], or
    [cur] for a CPU that may be in the scheduler. *)
Definition on_cpu (cur : option nat) (ls : list lockid) (c : core) : core := set_cur cur (set_locks ls c).
Definition at_cpu (me : nat) (ls : list lockid) (c : core) : core := on_cpu (Some me) ls c.
Definition running (me : nat) (c : core) : Prop := ∃ q, c_procs c !! me = Some q ∧ p_state q = RUNNING.
Definition not_wait (ch : chan) : Prop := ∀ j, ch ≠ ChProc j.

(** What the code outside of proc.c does to processes: everything but their state,
    id, parent and channel. *)
Definition same_role (q q' : proc) : Prop :=
  p_state q' = p_state q ∧ p_pid q' = p_pid q ∧ p_parent q' = p_parent q ∧ p_chan q' = p_chan q.

Section steps.
Context {S : Type} `{!Lens S core, !BlockStore S} (kend : Z).

(** The steps of proc.c on the table.  [wait_loop] and [scheduler_step] run in the
    whole kernel, in any state [s] with this table. *)
Inductive pt_step : core * forking → core * forking → Prop :=
| pt_alloc me r c c' fk :              (** [fork]: [allocproc] *)
    running me c → fk !! me = None → c_nextpid c < 2 ^ 31 - 1 → alloc_slot (at_cpu me [] c) = Ret r c' →
    pt_step (c, fk) (c', match r with Some i => <[me := (i, false)]> fk | None => fk end)
| pt_undo me i c c' fk :               (** no memory for the stack or the page table *)
    running me c → fk !! me = Some (i, false) → put_state i UNUSED (at_cpu me [] c) = Ret tt c' →
    pt_step (c, fk) (c', delete me fk)
| pt_link me i sz c c' fk :            (** [np->sz = ...; np->parent = proc] *)
    running me c → fk !! me = Some (i, false) → fork_link i sz (at_cpu me [] c) = Ret tt c' →
    pt_step (c, fk) (c', <[me := (i, true)]> fk)
| pt_ready me i c c' fk :              (** the end of [fork] *)
    running me c → fk !! me = Some (i, true) → put_state i RUNNABLE (at_cpu me [] c) = Ret tt c' →
    pt_step (c, fk) (c', delete me fk)
| pt_other ps c fk :                   (** other fields of processes *)
    Forall2 same_role (c_procs c) ps → pt_step (c, fk) (set_procs ps c, fk)
| pt_exit me c c' fk :                 (** [exit], which [fork] does not call *)
    running me c → fk !! me = None → c_initproc c ≠ Some me → exit_handoff (at_cpu me [] c) = Sched c' →
    pt_step (c, fk) (c', fk)
| pt_reap me r s s' c fk :             (** [wait] returns *)
    running me c → ycore (S:=S) s = at_cpu me [LPtable] c → wait_loop kend s = Ret r s' →
    pt_step (c, fk) (ycore s', fk)
| pt_wait_sleep me s s' c fk :         (** [wait] sleeps *)
    running me c → ycore (S:=S) s = at_cpu me [LPtable] c → wait_loop kend s = Sched s' →
    pt_step (c, fk) (ycore s', fk)
| pt_kill me pid r c c' fk :
    running me c → kill pid (at_cpu me [] c) = Ret r c' → pt_step (c, fk) (c', fk)
| pt_sleep me ch lk c c' fk :
    running me c → not_wait ch → sleep ch lk (at_cpu me [lk] c) = Sched c' → pt_step (c, fk) (c', fk)
| pt_wakeup cur ls ch c c' fk :        (** by a process or in an interrupt *)
    wakeup ch (on_cpu cur ls c) = Ret tt c' → pt_step (c, fk) (c', fk)
| pt_yield me c c' fk :
    running me c → yield (at_cpu me [] c) = Sched c' → pt_step (c, fk) (c', fk)
| pt_run k r s s' c fk :               (** the scheduler *)
    ycore (S:=S) s = on_cpu None [LPtable] c → scheduler_step k s = Ret r s' → (k ≤ NPROC)%nat →
    pt_step (c, fk) (ycore s', fk)
| pt_resume me lk c c' fk :            (** the end of [sleep] *)
    running me c → sleep_resume lk (at_cpu me [LPtable] c) = Ret tt c' → pt_step (c, fk) (c', fk).

End steps.

(** *** Changes that keep it *)

(** Every process touched, but with its own parent. *)
Lemma pt_ok_touched (c c' : core) :
  pt_ok c → c_nextpid c' = c_nextpid c → c_initproc c' = c_initproc c →
  length (c_procs c') = length (c_procs c) →
  (∀ i q', c_procs c' !! i = Some q' → ∃ q, c_procs c !! i = Some q ∧ touched (p_parent q) q q') →
  pt_ok c'.
Proof.
  move=> H Hn Hi Hl Ht.
  have Hf : ∀ i q, c_procs c !! i = Some q → ∃ q', c_procs c' !! i = Some q' ∧ touched (p_parent q) q q'.
  { move=> i q Hq. have [q' Hq'] : is_Some (c_procs c' !! i).
    { apply lookup_lt_is_Some. rw Hl. by eapply lookup_lt_Some. }
    have [q0 [Hq0 T]] := Ht _ _ Hq'. have ? : q0 = q by congruence. subst q0. eauto. }
  have Hlive : ∀ p q q', touched p q q' → live q → live q'.
  { move=> p q q' T. case: (to_state _ _ _ T) => [E|[_ E]]; rw /live E; auto. }
  have Hst : ∀ p q q' st, touched p q q' → st ≠ RUNNABLE → p_state q' = st → p_state q = st.
  { move=> p q q' st T Hne. case: (to_state _ _ _ T) => [->|[_ ->]] //. }
  split.
  - by rw Hl (pt_len _ H).
  - have [r [q [Hr [Hq [Hlv Hp]]]]] := pt_init _ H. have [q' [Hq' T]] := Hf _ _ Hq.
    exists r, q'. rw Hi Hr. split_and! => //; [by eapply Hlive|by rw (to_parent _ _ _ T)].
  - move=> i q' Hq' Hu. have [q [Hq T]] := Ht _ _ Hq'. rw Hn (to_pid _ _ _ T). apply (pt_pid _ H i) => // E.
    apply Hu. case: (to_state _ _ _ T) => [->|[E' _]] //. congruence.
  - move=> i j q' r' Hq' Hr' Hu Hv. have [q [Hq T]] := Ht _ _ Hq'. have [r [Hr U]] := Ht _ _ Hr'.
    rw (to_pid _ _ _ T) (to_pid _ _ _ U). apply (pt_inj _ H) => // E.
    + apply Hu. case: (to_state _ _ _ T) => [->|[E' _]] //. congruence.
    + apply Hv. case: (to_state _ _ _ U) => [->|[E' _]] //. congruence.
  - move=> i q' Hq' Hfr Hni. have [q [Hq T]] := Ht _ _ Hq'.
    have [j [r [Hp [Hj [Hr Hlv]]]]] := pt_parent _ H i q Hq
      ltac:(move=> Hq0; apply Hfr; case: (to_state _ _ _ T) => [E|[E _]]; [by rw /fresh E|case: Hq0; congruence])
      ltac:(congruence).
    have [r' [Hr' U]] := Hf _ _ Hr. exists j, r'. rw (to_parent _ _ _ T). split_and! => //. by eapply Hlive.
  - move=> i q' Hq' E. have [q [Hq T]] := Ht _ _ Hq'. rw (to_parent _ _ _ T). apply (pt_free _ H i) => //.
    by apply (Hst _ _ _ _ T).
  - move=> i q' Hq' E. have [q [Hq T]] := Ht _ _ Hq'. rw (to_chan _ _ _ T). apply (pt_chan _ H i) => //.
    by apply (Hst _ _ _ _ T).
  - move=> i j q' Hq' [Hs Hc]. have [q [Hq T]] := Ht _ _ Hq'. apply (pt_self _ H i j q) => //.
    split; [by apply (Hst _ _ _ _ T)|by rw -(to_chan _ _ _ T)].
  - move=> i q' k r' Hq' [Hs Hc] Hr' Hp Hz. have [q [Hq T]] := Ht _ _ Hq'. have [r [Hr U]] := Ht _ _ Hr'.
    apply (pt_wait _ H i q k r) => //.
    + split; [by apply (Hst _ _ _ _ T)|by rw -(to_chan _ _ _ T)].
    + by rw -(to_parent _ _ _ U).
    + by apply (Hst _ _ _ _ U).
Qed.

(** One process changed, which does not become a zombie. *)
Record change_ok (i : nat) (q q' : proc) (np : Z) (c : core) : Prop := {
  ch_np : c_nextpid c ≤ np;
  ch_pid : p_state q' ≠ UNUSED → 0 < p_pid q' < np;
  ch_inj j r : j ≠ i → c_procs c !! j = Some r → p_state r ≠ UNUSED → p_state q' ≠ UNUSED → p_pid q' ≠ p_pid r;
  ch_init : c_initproc c = Some i → live q' ∧ p_parent q' = None;
  ch_parent : ~ fresh q' → c_initproc c ≠ Some i → ∃ j r, p_parent q' = Some j ∧ j ≠ i ∧ c_procs c !! j = Some r ∧ live r;
  ch_free : p_state q' = UNUSED → p_parent q' = None;
  ch_chan : p_state q' = SLEEPING → p_chan q' ≠ None;
  ch_live : live q → live q';
  ch_zombie : p_state q' ≠ ZOMBIE;
  ch_wait j : waiting q' (ChProc j) → j = i ∧ ∀ k r, c_procs c !! k = Some r → p_parent r = Some i → p_state r ≠ ZOMBIE;
}.

Lemma pt_ok_change (i : nat) (q q' : proc) (c c' : core) :
  pt_ok c → c_procs c !! i = Some q → change_ok i q q' (c_nextpid c') c →
  c_initproc c' = c_initproc c → c_procs c' = <[i := q']> (c_procs c) →
  pt_ok c'.
Proof.
  move=> H Hq X Hi Hps. have Hlt := lookup_lt_Some _ _ _ Hq.
  have Hl : ∀ j r, <[i := q']> (c_procs c) !! j = Some r → j = i ∧ r = q' ∨ j ≠ i ∧ c_procs c !! j = Some r.
  { move=> j r. case: (decide (i = j)) => [<-|Hne]; first by rw list_lookup_insert_eq // => [[<-]]; left.
    rw list_lookup_insert_ne // => ?. by right. }
  have Hi' : <[i := q']> (c_procs c) !! i = Some q' by rw list_lookup_insert_eq.
  have Hne' : ∀ j, j ≠ i → <[i := q']> (c_procs c) !! j = c_procs c !! j by move=> j ?; rw list_lookup_insert_ne.
  have Hlive : ∀ j r, c_procs c !! j = Some r → live r → ∃ r', <[i := q']> (c_procs c) !! j = Some r' ∧ live r'.
  { move=> j r Hr Hlv. case: (decide (j = i)) => [E|Hne]; last by exists r; rw Hne'.
    subst j. exists q'. split => //. apply (ch_live _ _ _ _ _ X). congruence. }
  split; rw ?Hps ?Hi.
  - by rw length_insert (pt_len _ H).
  - have [r [x [Hr [Hx [Hlv Hp]]]]] := pt_init _ H. case: (decide (r = i)) => [E|Hne].
    + subst r. exists i, q'. have [? ?] := ch_init _ _ _ _ _ X Hr. by split_and!.
    + exists r, x. by rw Hne'.
  - move=> j r /Hl [[? ?]|[Hne Hr]] Hu; subst; first by apply (ch_pid _ _ _ _ _ X).
    have := pt_pid _ H j r Hr Hu. have := ch_np _ _ _ _ _ X. lia.
  - move=> j k x y /Hl [[? ?]|[Hne Hx]] /Hl [[? ?]|[Hnk Hy]] Hu Hv E; subst => //.
    + by destruct (ch_inj _ _ _ _ _ X k y Hnk Hy Hv Hu E).
    + by destruct (ch_inj _ _ _ _ _ X j x Hne Hx Hu Hv (eq_sym E)).
    + by apply (pt_inj _ H j k x y).
  - move=> j r /Hl [[? ?]|[Hne Hr]] Hf Hni; subst.
    + have [k [y [Hp [Hk [Hy Hlv]]]]] := ch_parent _ _ _ _ _ X Hf Hni. exists k, y. by rw Hne'.
    + have [k [y [Hp [Hk [Hy Hlv]]]]] := pt_parent _ H j r Hr Hf Hni.
      have [y' [? ?]] := Hlive _ _ Hy Hlv. by exists k, y'.
  - move=> j r /Hl [[? ?]|[Hne Hr]]; subst; [by apply (ch_free _ _ _ _ _ X)|by apply (pt_free _ H j)].
  - move=> j r /Hl [[? ?]|[Hne Hr]]; subst; [by apply (ch_chan _ _ _ _ _ X)|by apply (pt_chan _ H j)].
  - move=> j k r /Hl [[? ?]|[Hne Hr]] Hw; subst; [by have [] := ch_wait _ _ _ _ _ X _ Hw|by apply (pt_self _ H j k r)].
  - move=> j x k y /Hl [[? ?]|[Hne Hx]] Hw /Hl [[? ?]|[Hnk Hy]] Hp; subst; try by apply (ch_zombie _ _ _ _ _ X).
    + have [_ Hz] := ch_wait _ _ _ _ _ X _ Hw. by apply (Hz k).
    + by apply (pt_wait _ H j x k y).
Qed.

(** A live process that changes its state and channel. *)
Lemma change_live (i : nat) (q q' : proc) (c : core) :
  pt_ok c → c_procs c !! i = Some q → live q → live q' →
  p_pid q' = p_pid q → p_parent q' = p_parent q → (p_state q' = SLEEPING → p_chan q' ≠ None) →
  (∀ j, waiting q' (ChProc j) → j = i ∧ ∀ k r, c_procs c !! k = Some r → p_parent r = Some i → p_state r ≠ ZOMBIE) →
  change_ok i q q' (c_nextpid c) c.
Proof.
  move=> H Hq Hl Hl' Hp Hpar Hch Hw.
  have Hu : ∀ x, live x → p_state x ≠ UNUSED by move=> x [->|[->|->]].
  have Hf : ∀ x, live x → ~ fresh x by move=> x [E|[E|E]] [F|F]; rw E in F.
  split => //.
  - move=> _. rw Hp. by apply (pt_pid _ H i); [|apply Hu].
  - move=> j r Hj Hr Hru _ E. apply Hj. apply (pt_inj _ H j i r q) => //; [by apply Hu|congruence].
  - move=> Hi. split => //. rw Hpar. have [r [x [Hr [Hx [_ Hpx]]]]] := pt_init _ H. congruence.
  - move=> _ Hi. rw Hpar. apply (pt_parent _ H) => //. by apply Hf.
  - move=> E. by destruct (Hu _ Hl').
  - by case: Hl' => [->|[->|->]].
Qed.

Lemma alter_insert (f : proc → proc) (i : nat) (ps : list proc) (q : proc) :
  ps !! i = Some q → alter f i ps = <[i := f q]> ps.
Proof.
  move=> Hq. apply list_eq => j. have Hlt := lookup_lt_Some _ _ _ Hq.
  case: (decide (i = j)) => [<-|Hne].
  - by rw list_lookup_alter decide_True // list_lookup_insert_eq // Hq.
  - by rw list_lookup_alter decide_False // list_lookup_insert_ne.
Qed.

Lemma alter_alter (f g : proc → proc) (i : nat) (ps : list proc) :
  alter f i (alter g i ps) = alter (λ q, f (g q)) i ps.
Proof. apply list_eq => j. rw !list_lookup_alter (decide_True _ _ (eq_refl i)). case: (decide (i = j)) => _ //. by destruct (ps !! i). Qed.

(** *** The scans *)

Lemma find_state_spec (st : procstate) (n i : nat) (ps : list proc) :
  match find_state st n i ps with
  | Some k => (i ≤ k < i + n)%nat ∧ p_state (ps !!! k) = st ∧
      ∀ j, (i ≤ j < k)%nat → p_state (ps !!! j) ≠ st
  | None => ∀ k, (i ≤ k < i + n)%nat → p_state (ps !!! k) ≠ st
  end.
Proof.
  elim: n i => [|n IH] i /=; first by move=> k; lia.
  case_bool_decide as E.
  - split_and!; [lia|lia|done|]. move=> j; lia.
  - have := IH (S i). destruct (find_state st n (S i) ps) as [k|].
    + move=> [H1 [H2 H3]]. split_and!; [lia|lia|done|].
      move=> j Hj. case: (decide (j = i)) => [->|?] //. apply H3. lia.
    + move=> H k Hk. case: (decide (k = i)) => [->|?] //. apply H. lia.
Qed.

Lemma wait_scan_spec (n i me : nat) (b : bool) (ps : list proc) :
  match wait_scan n i me b ps with
  | (Some k, _) => (i ≤ k < i + n)%nat ∧ p_parent (ps !!! k) = Some me ∧ p_state (ps !!! k) = ZOMBIE
  | (None, b') => (∀ k, (i ≤ k < i + n)%nat → p_parent (ps !!! k) = Some me → p_state (ps !!! k) ≠ ZOMBIE) ∧
      (b' = true ↔ b = true ∨ ∃ k, (i ≤ k < i + n)%nat ∧ p_parent (ps !!! k) = Some me)
  end.
Proof.
  elim: n i b => [|n IH] i b /=.
  { split; first by move=> k; lia. split; [by left|]. case => // [[k [? _]]]. lia. }
  case_bool_decide as Hp; simpl; last first.
  { have := IH (S i) b. destruct (wait_scan n (S i) me b ps) as [[k|] b'].
    - move=> [? [? ?]]. split_and! => //; lia.
    - move=> [H1 H2]. split.
      + move=> k Hk Hpk. apply H1 => //. case: (decide (k = i)) => [E|]; [by subst|lia].
      + rw H2. split; (case; [by left|]) => -[k [Hk Hpk]]; right; exists k; split => //; try lia.
        case: (decide (k = i)) => [E|]; [by subst|lia]. }
  case_bool_decide as Hz; first by split_and!; try lia.
  have := IH (S i) true. destruct (wait_scan n (S i) me true ps) as [[k|] b'].
  - move=> [? [? ?]]. split_and! => //; lia.
  - move=> [H1 H2]. split.
    + move=> k Hk Hpk. case: (decide (k = i)) => [->|?] //. apply H1 => //. lia.
    + rw H2. split => _; [right; exists i; split => //; lia|by left].
Qed.

Lemma sleep_ptable_run (ch : chan) (i : nat) (c : core) :
  c_cur c = Some i → (i < length (c_procs c))%nat → c_locks c = [LPtable] →
  sleep ch LPtable c = Sched (asleep i ch c).
Proof.
  move=> Hi Hlt Hl. rw /sleep run_gets Hi bool_decide_eq_false_2 // bool_decide_eq_false_2; first by auto.
  rw run_ret. erewrite run_bind; [|rw /with_cur Hi; done].
  have [q Hq] := lookup_lt_is_Some_2 _ _ Hlt. rw sched_run //.
  - by rw /cur_proc /= Hi list_lookup_total_alt list_lookup_alter decide_True // Hq.
  - rw /asleep -Hl. by destruct c.
Qed.

Lemma sleep_any_run (ch : chan) (lk : lockid) (i : nat) (c : core) :
  c_cur c = Some i → (i < length (c_procs c))%nat → c_locks c = [lk] →
  sleep ch lk c = Sched (asleep i ch c).
Proof.
  move=> Hi Hlt Hl. case: (decide (lk = LPtable)) => [E|Hne]; [subst; by apply sleep_ptable_run|by apply sleep_run].
Qed.

Lemma alloc_slot_inv (me i : nat) (c c' : core) :
  length (c_procs c) = NPROC → alloc_slot (at_cpu me [] c) = Ret (Some i) c' →
  ∃ q, c_procs c !! i = Some q ∧ p_state q = UNUSED ∧
    c_procs c' = <[i := w_pid (c_nextpid c) (set_state EMBRYO q)]> (c_procs c) ∧
    c_nextpid c' = i32 (c_nextpid c + 1) ∧ c_initproc c' = c_initproc c.
Proof.
  move=> Hl. rw alloc_slot_run //. cbn [c_procs at_cpu on_cpu set_cur set_locks].
  have := find_state_spec UNUSED NPROC 0 (c_procs c). destruct (find_state UNUSED NPROC 0 (c_procs c)) as [k|] => //.
  move=> [Hk [Hst _]] [<- <-]. have [q Hq] := lookup_lt_is_Some_2 (c_procs c) k ltac:(rw Hl; lia).
  rw (list_lookup_total_correct _ _ _ Hq) in Hst. exists q. split_and! => //=.
  by apply (alter_insert (λ p, w_pid (c_nextpid c) (set_state EMBRYO p))).
Qed.

Lemma alloc_slot_none (me : nat) (c c' : core) :
  alloc_slot (at_cpu me [] c) = Ret None c' →
  c_procs c' = c_procs c ∧ c_nextpid c' = c_nextpid c ∧ c_initproc c' = c_initproc c.
Proof.
  rw alloc_slot_run //. destruct (find_state _ _ _ _) => //. by case=> <-.
Qed.

Lemma pt_ok_alloc (me i : nat) (c c' : core) :
  pt_ok c → c_nextpid c < 2 ^ 31 - 1 → alloc_slot (at_cpu me [] c) = Ret (Some i) c' → pt_ok c'.
Proof.
  move=> H Hnp /(alloc_slot_inv _ _ _ _ (pt_len _ H)) [q [Hq [Hst [Hps [Hn Hi]]]]].
  have Hpos : 0 < c_nextpid c.
  { have [r [x [_ [Hx [Hlv _]]]]] := pt_init _ H. have := pt_pid _ H r x Hx. case: Hlv => [->|[->|->]] /(_ ltac:(done)); lia. }
  have Hi32 : i32 (c_nextpid c + 1) = c_nextpid c + 1 by apply i32_small; lia.
  apply (pt_ok_change i q (w_pid (c_nextpid c) (set_state EMBRYO q)) c) => //. rw Hn Hi32. split => //=.
  - lia.
  - lia.
  - move=> j r _ Hr Hu _. have := pt_pid _ H j r Hr Hu. lia.
  - move=> Hini. exfalso. have [r [x [Hr [Hx [Hlv _]]]]] := pt_init _ H. have ? : r = i by congruence. subst r.
    have ? : x = q by congruence. subst x. by case: Hlv => [E'|[E'|E']]; rw Hst in E'.
  - by move=> []; right.
  - by case => [E'|[E'|E']]; rw Hst in E'.
  - by move=> j [].
Qed.

Lemma live_running (me : nat) (c : core) : running me c → ∃ q, c_procs c !! me = Some q ∧ p_state q = RUNNING ∧ live q.
Proof. move=> [q [Hq Hs]]. exists q. rw /live Hs. auto. Qed.

(** The table [ps'] that [exit] leaves: each process against its old self. *)
Section exited.
Context (me r : nat) (ps ps' : list proc) (qm : proc).
Context (X : exited me ps ps' (Some r)) (Hqm : ps !! me = Some qm) (Hrm : p_state qm = RUNNING).

Lemma exited_all k q' :
  ps' !! k = Some q' → ∃ q, ps !! k = Some q ∧
    p_pid q' = p_pid q ∧ p_chan q' = p_chan q ∧ p_parent q' = (if decide (p_parent q = Some me) then Some r else p_parent q) ∧
    (if decide (k = me) then p_state q' = ZOMBIE else maybe_woken (p_state q) (p_state q')).
Proof using X.
  move=> Hq'. have [q Hq] : is_Some (ps !! k).
  { apply lookup_lt_is_Some. rw -(ex_len _ _ _ _ X). by eapply lookup_lt_Some. }
  exists q. split => //. case: (decide (k = me)) => [?|Hk].
  - subst k. have [q0 [Hq0 [Hz [? [? ?]]]]] := ex_me _ _ _ _ X q Hq. have ? : q0 = q' by congruence. subst q0. by split_and!.
  - have [q0 [Hq0 [? ? ? ?]]] := ex_other _ _ _ _ X k q Hk Hq. have ? : q0 = q' by congruence. subst q0. by split_and!.
Qed.

Lemma exited_state k q q' :
  ps !! k = Some q → ps' !! k = Some q' → if decide (k = me) then p_state q' = ZOMBIE else maybe_woken (p_state q) (p_state q').
Proof using X.
  move=> Hq Hq'. have [q0 [Hq0 [_ [_ [_ Hst]]]]] := exited_all _ _ Hq'. by have -> : q = q0 by congruence.
Qed.

Lemma exited_fwd k q : ps !! k = Some q → ∃ q', ps' !! k = Some q'.
Proof using X. move=> Hq. apply lookup_lt_is_Some. rw (ex_len _ _ _ _ X). by eapply lookup_lt_Some. Qed.

Lemma exited_live k q q' : k ≠ me → ps !! k = Some q → ps' !! k = Some q' → live q → live q'.
Proof using X.
  move=> Hk Hq Hq'. have := exited_state _ _ _ Hq Hq'. rw decide_False //. rw /live. move=> [->|[_ ->]]; auto.
Qed.

Lemma exited_back k q q' st :
  st ≠ RUNNABLE → st ≠ ZOMBIE → ps !! k = Some q → ps' !! k = Some q' → p_state q' = st → p_state q = st.
Proof using X.
  move=> H1 H2 Hq Hq' Es. have := exited_state _ _ _ Hq Hq'. case: (decide (k = me)) => [_|_] Hst; first congruence.
  case: Hst => [E'|[_ E']]; congruence.
Qed.

Lemma exited_unused k q q' : ps !! k = Some q → ps' !! k = Some q' → p_state q' ≠ UNUSED → p_state q ≠ UNUSED.
Proof using X Hqm Hrm.
  move=> Hq Hq' Hu Eu. have := exited_state _ _ _ Hq Hq'. case: (decide (k = me)) => [?|_] Hst; first (subst k; congruence).
  case: Hst => [E'|[E' _]]; congruence.
Qed.

Lemma exited_fresh k q q' : ps !! k = Some q → ps' !! k = Some q' → ~ fresh q' → ~ fresh q.
Proof using X Hqm Hrm.
  move=> Hq Hq' Hf. have := exited_state _ _ _ Hq Hq'.
  case: (decide (k = me)) => [?|_] Hst; first by (subst k; move=> [E'|E']; congruence).
  move=> Hfq. apply Hf. case: Hst => [E'|[E' _]]; [by rw /fresh E'|case: Hfq; congruence].
Qed.

Lemma exited_waiting k x x' ch : ps !! k = Some x → ps' !! k = Some x' → waiting x' ch → waiting x ch.
Proof using X.
  move=> Hx Hx' [Hs Hc]. have [x0 [Hx0 [_ [Hcx _]]]] := exited_all _ _ Hx'. have ? : x0 = x by congruence. subst x0.
  split; [by apply (exited_back k x x')|congruence].
Qed.
End exited.

(** No parent is left waiting for a zombie. *)
Lemma exited_wait (me r jm : nat) (qm : proc) (c : core) ps' i x k y :
  pt_ok c → exited me (c_procs c) ps' (Some r) → c_procs c !! me = Some qm → p_parent qm = Some jm → jm ≠ me →
  ps' !! i = Some x → waiting x (ChProc i) → ps' !! k = Some y → p_parent y = Some i → p_state y ≠ ZOMBIE.
Proof.
  move=> H X Hqm Hpm Hjm Hx' Hw Hy' Hp Hz.
  have [x0 [Hx [_ [Hcx _]]]] := exited_all _ _ _ _ X _ _ Hx'. have Hwx := exited_waiting _ _ _ _ X _ _ _ _ Hx Hx' Hw.
  have [y0 [Hy [_ [_ [Hpy Hsty]]]]] := exited_all _ _ _ _ X _ _ Hy'. rw Hpy in Hp.
  case: (decide (k = me)) Hsty => [?|Hj] Hsty.
  - subst k. have ? : y0 = qm by congruence. subst y0. rw decide_False // Hpm in Hp; first congruence.
    have Hk : i = jm by congruence. subst i. exact: (ex_parent _ _ _ _ X qm jm Hqm Hpm jm x Hx' Hw).
  - have Hzy : p_state y0 = ZOMBIE by case: Hsty => [E'|[E' E'']]; congruence.
    case: (decide (p_parent y0 = Some me)) Hp => [Hpm'|Hpm'] Hp.
    + have Hk : i = r by congruence. subst i. exact: (ex_init _ _ _ _ X k y0 r Hy Hpm' Hzy eq_refl r x Hx' Hw).
    + by apply (pt_wait _ H i x0 k y0).
Qed.

Lemma pt_ok_exit (me : nat) (c c' : core) :
  pt_ok c → running me c → c_initproc c ≠ Some me → exit_handoff (at_cpu me [] c) = Sched c' → pt_ok c'.
Proof.
  move=> H /live_running [qm [Hqm [Hrm Hlm]]] Hni E0.
  have Hme : (me < NPROC)%nat by rw -(pt_len _ H); apply lookup_lt_Some in Hqm.
  have [c1 [E1 [X [_ [_ [Hn Hi]]]]]] := exit_handoff_run me (at_cpu me [] c) eq_refl eq_refl (pt_len _ H) Hme.
  rw E1 in E0. case: E0 => ?. subst c1. simpl in *.
  have [r [qr [Hr [Hqr [Hlr Hpr]]]]] := pt_init _ H. rw Hr in X Hi Hni. have Hrm' : r ≠ me by congruence.
  have [jm [pm [Hpm [Hjm [Hjm' Hlpm]]]]] := pt_parent _ H me qm Hqm ltac:(by move=> [E|E]; rw Hrm in E) ltac:(congruence).
  have Hall := exited_all _ _ _ _ X. have Hun := exited_unused _ _ _ _ _ X Hqm Hrm.
  have [qr' Hqr'] := exited_fwd _ _ _ _ X _ _ Hqr. have Hlr' := exited_live _ _ _ _ X _ _ _ Hrm' Hqr Hqr' Hlr.
  split.
  - by rw (ex_len _ _ _ _ X) (pt_len _ H).
  - exists r, qr'. split_and! => //. have [q0 [Hq0 [_ [_ [-> _]]]]] := Hall _ _ Hqr'. have -> : q0 = qr by congruence.
    rw Hpr. by case_decide.
  - move=> k q' Hq' Hu. have [q [Hq [-> _]]] := Hall _ _ Hq'. rw Hn. apply (pt_pid _ H k) => //. by eapply Hun.
  - move=> k j x' y' Hx' Hy' Hu Hv. have [x [Hx [-> _]]] := Hall _ _ Hx'. have [y [Hy [-> _]]] := Hall _ _ Hy'.
    apply (pt_inj _ H) => //; by eapply Hun.
  - move=> k q' Hq' Hf Hki. have [q [Hq [_ [_ [Hpq _]]]]] := Hall _ _ Hq'. rw Hi in Hki.
    have Hfq := exited_fresh _ _ _ _ _ X Hqm Hrm _ _ _ Hq Hq' Hf.
    have [j [y [Hp [Hj [Hy Hly]]]]] := pt_parent _ H k q Hq Hfq ltac:(congruence).
    rw Hp in Hpq. case: (decide (Some j = Some me)) Hpq => [Ej|Ej] Hpq.
    + exists r, qr'. split_and! => //. congruence.
    + have [y' Hy'] := exited_fwd _ _ _ _ X _ _ Hy. exists j, y'. split_and! => //.
      apply (exited_live _ _ _ _ X j y) => //. congruence.
  - move=> k q' Hq' E'. have [q [Hq [_ [_ [Hpq _]]]]] := Hall _ _ Hq'.
    rw Hpq (pt_free _ H k q Hq); [by apply (exited_back _ _ _ _ X k q q')|]. by case_decide.
  - move=> k q' Hq' E'. have [q [Hq [_ [Hcq _]]]] := Hall _ _ Hq'.
    rw Hcq. apply (pt_chan _ H k) => //. by apply (exited_back _ _ _ _ X k q q').
  - move=> k j q' Hq' Hw. have [q [Hq _]] := Hall _ _ Hq'. apply (pt_self _ H k j q) => //.
    exact: (exited_waiting _ _ _ _ X _ _ _ _ Hq Hq' Hw).
  - move=> k x' j y' Hx' Hw Hy' Hp. exact: (exited_wait _ _ _ _ _ _ _ _ _ _ H X Hqm Hpm Hjm Hx' Hw Hy' Hp).
Qed.

Lemma init_live (i : nat) (q : proc) (c : core) :
  pt_ok c → c_procs c !! i = Some q → ~ live q → c_initproc c ≠ Some i.
Proof. move=> H Hq Hl Hi. have [r [x [Hr [Hx [Hlv _]]]]] := pt_init _ H. congruence. Qed.

(** [fork] gives a new process its parent. *)
Lemma pt_ok_link (i : nat) (par : option nat) (sz : Z) (q : proc) (c c' : core) :
  pt_ok c → c_procs c !! i = Some q → p_state q = EMBRYO → c_nextpid c' = c_nextpid c → c_initproc c' = c_initproc c →
  c_procs c' = alter (λ q, w_parent par (w_sz sz q)) i (c_procs c) → pt_ok c'.
Proof.
  move=> H Hq Hs Hn Hi Hps. have Hl : ~ live q by move=> [E|[E|E]]; rw Hs in E.
  apply (pt_ok_change i q (w_parent par (w_sz sz q)) c) => //;
    last by rw Hps (alter_insert (λ q, w_parent par (w_sz sz q)) i _ q Hq).
  rw Hn. split => //=.
  - apply (pt_pid _ H i) => //.
  - move=> j r Hj Hr Hu Hv E. apply Hj. by apply (pt_inj _ H j i r q).
  - by move=> /(init_live _ _ _ H Hq Hl).
  - rw /fresh /= Hs. tauto.
  - by rw Hs.
  - by rw Hs.
  - by rw Hs.
  - by move=> j []; rw /= Hs.
Qed.

(** The end of [fork]. *)
Lemma pt_ok_ready (i me : nat) (q m : proc) (c c' : core) :
  pt_ok c → c_procs c !! i = Some q → p_state q = EMBRYO → p_parent q = Some me →
  c_procs c !! me = Some m → live m → c_nextpid c' = c_nextpid c → c_initproc c' = c_initproc c →
  c_procs c' = alter (set_state RUNNABLE) i (c_procs c) → pt_ok c'.
Proof.
  move=> H Hq Hs Hp Hm Hlm Hn Hi Hps. have Hl : ~ live q by move=> [E|[E|E]]; rw Hs in E.
  apply (pt_ok_change i q (set_state RUNNABLE q) c) => //; last by rw Hps (alter_insert (set_state RUNNABLE) i _ q Hq).
  rw Hn. split => //=.
  - move=> _. apply (pt_pid _ H i) => //. by rw Hs.
  - move=> j r Hj Hr Hu _ E. apply Hj. apply (pt_inj _ H j i r q) => //; by rw Hs.
  - by move=> /(init_live _ _ _ H Hq Hl).
  - move=> _ _. exists me, m. split_and! => //. congruence.
  - by move=> j [].
Qed.

(** A slot becomes free: a zombie is reaped, or an allocation is undone. *)
Lemma pt_ok_free (i : nat) (q q' : proc) (c c' : core) :
  pt_ok c → c_procs c !! i = Some q → ~ live q → p_state q' = UNUSED → p_parent q' = None →
  c_nextpid c' = c_nextpid c → c_initproc c' = c_initproc c → c_procs c' = <[i := q']> (c_procs c) → pt_ok c'.
Proof.
  move=> H Hq Hl Hs Hp Hn Hi Hps. apply (pt_ok_change i q q' c) => //. rw Hn. split => //; rw ?Hs => //.
  - by move=> /(init_live _ _ _ H Hq Hl).
  - rw /fresh Hs. tauto.
  - by move=> j []; rw Hs.
Qed.

(** *** The processes in [fork] *)

(** A change of process [i] that [fork] does not notice. *)
Definition unforked (fk : forking) (i : nat) (q q' : proc) : Prop :=
  (p_state q' = EMBRYO ↔ p_state q = EMBRYO) ∧ (p_state q = EMBRYO → p_parent q' = p_parent q) ∧
  (fk !! i ≠ None → live q → live q').

Lemma forks_keep (fk : forking) (ps ps' : list proc) :
  forks fk ps → length ps' = length ps →
  (∀ i q q', ps !! i = Some q → ps' !! i = Some q' → unforked fk i q q') → forks fk ps'.
Proof.
  move=> F Hl Hu.
  have Hf : ∀ i q, ps !! i = Some q → ∃ q', ps' !! i = Some q'.
  { move=> i q Hq. apply lookup_lt_is_Some. rw Hl. by eapply lookup_lt_Some. }
  split; [|apply (fo_inj _ _ F)|].
  - move=> me i l E. have [q [m [Hq [Hm [Hs [Hp Hlv]]]]]] := fo_new _ _ F _ _ _ E.
    have [q' Hq'] := Hf _ _ Hq. have [m' Hm'] := Hf _ _ Hm. exists q', m'.
    have [Hs' [Hp' _]] := Hu _ _ _ Hq Hq'. have [_ [_ Hl']] := Hu _ _ _ Hm Hm'.
    split_and! => //; [by apply Hs'|by rw Hp'|]. apply Hl' => //. congruence.
  - move=> i q' j Hq' Hs Hp. have [q Hq] : is_Some (ps !! i).
    { apply lookup_lt_is_Some. rw -Hl. by eapply lookup_lt_Some. }
    have [Hs' [Hp' _]] := Hu _ _ _ Hq Hq'. have Hsq := proj1 Hs' Hs. apply (fo_parent _ _ F i q) => //. by rw -(Hp' Hsq).
Qed.

(** One process changed, before and after out of the hands of [fork]. *)
Lemma forks_change (fk : forking) (i : nat) (q q' : proc) (ps : list proc) :
  forks fk ps → ps !! i = Some q → p_state q ≠ EMBRYO → p_state q' ≠ EMBRYO → (fk !! i ≠ None → live q') →
  forks fk (<[i := q']> ps).
Proof.
  move=> F Hq Hs Hs' Hl. apply (forks_keep fk ps) => //; first by rw length_insert.
  move=> j x x' Hx. case: (decide (i = j)) => [E|Hne].
  - subst j. rw list_lookup_insert_eq; [by eapply lookup_lt_Some|]. move=> [<-]. have -> : x = q by congruence.
    split_and! => //. by move=> ? _; apply Hl.
  - rw list_lookup_insert_ne // Hx => -[<-]. by split_and!.
Qed.

(** Processes woken up. *)
Lemma forks_touched (fk : forking) (ps ps' : list proc) :
  forks fk ps → length ps' = length ps →
  (∀ i q', ps' !! i = Some q' → ∃ q, ps !! i = Some q ∧ touched (p_parent q) q q') → forks fk ps'.
Proof.
  move=> F Hl Ht. apply (forks_keep fk ps) => // i q q' Hq Hq'. have [q0 [Hq0 [_ _ Hs Hp]]] := Ht _ _ Hq'.
  have ? : q0 = q by congruence. subst q0. split_and!.
  - case: Hs => [->|[-> ->]] //.
  - by rw Hp.
  - move=> _. rw /live. case: Hs => [->|[-> ->]] //. auto.
Qed.

Lemma live_ne (ps : list proc) (i : nat) (q : proc) (j : nat) (y : proc) :
  ps !! i = Some q → ~ live q → ps !! j = Some y → live y → j ≠ i.
Proof. move=> Hq Hl Hy Hly ?. subst j. congruence. Qed.

(** Only the process that makes [i] has it as its [np]. *)
Lemma forks_delete (fk : forking) (me i : nat) (l : bool) (q q' : proc) (ps : list proc) :
  forks fk ps → fk !! me = Some (i, l) → ps !! i = Some q → p_state q' ≠ EMBRYO →
  forks (delete me fk) (<[i := q']> ps).
Proof.
  move=> F E Hq Hs. have [q0 [m [Hq0 [Hm [Hsq [Hp Hl]]]]]] := fo_new _ _ F _ _ _ E.
  have ? : q0 = q by congruence. subst q0. have Hlt := lookup_lt_Some _ _ _ Hq.
  have Hnl : ~ live q by rw /live Hsq; naive_solver. split.
  - move=> me' j l' /lookup_delete_Some [Hne E']. have [x [y [Hx [Hy [Hsx [Hpx Hly]]]]]] := fo_new _ _ F _ _ _ E'.
    have Hj : j ≠ i by move=> ?; subst j; apply Hne; exact: (fo_inj _ _ F _ _ _ _ _ E E').
    have Hi := live_ne _ _ _ _ _ Hq Hnl Hy Hly.
    exists x, y. rw !list_lookup_insert_ne //; auto.
  - move=> a b j l1 l2 /lookup_delete_Some [_ E1] /lookup_delete_Some [_ E2]. exact: (fo_inj _ _ F _ _ _ _ _ E1 E2).
  - move=> j x k. case: (decide (i = j)) => [E'|Hne].
    + subst j. by rw list_lookup_insert_eq // => -[<-].
    + rw list_lookup_insert_ne // => Hx Hsx Hpx. have Ek := fo_parent _ _ F j x k Hx Hsx Hpx.
      rw lookup_delete_ne //. move=> ?. subst k. congruence.
Qed.

Lemma forks_link (fk : forking) (me i : nat) (q q' : proc) (ps : list proc) :
  forks fk ps → fk !! me = Some (i, false) → ps !! i = Some q → p_state q' = EMBRYO → p_parent q' = Some me →
  forks (<[me := (i, true)]> fk) (<[i := q']> ps).
Proof.
  move=> F E Hq Hs Hp. have [q0 [m [Hq0 [Hm [Hsq [_ Hl]]]]]] := fo_new _ _ F _ _ _ E.
  have ? : q0 = q by congruence. subst q0. have Hlt := lookup_lt_Some _ _ _ Hq.
  have Hlive : ∀ j y, ps !! j = Some y → live y → j ≠ i.
  { move=> j y. apply (live_ne ps i q j y) => //. rw /live Hsq. naive_solver. }
  split.
  - move=> me' j l' /lookup_insert_Some [[? [? ?]]|[Hne E']].
    + subst me' j l'. exists q', m. have Hi := not_eq_sym (Hlive _ _ Hm Hl). by rw list_lookup_insert_eq // list_lookup_insert_ne.
    + have [x [y [Hx [Hy [Hsx [Hpx Hly]]]]]] := fo_new _ _ F _ _ _ E'.
      have Hj : j ≠ i by move=> ?; subst j; apply Hne; exact: (fo_inj _ _ F _ _ _ _ _ E E').
      exists x, y. have := Hlive _ _ Hy Hly. move=> Hi. rw !list_lookup_insert_ne //; auto.
  - have Hother : ∀ a j l, <[me := (i, true)]> fk !! a = Some (j, l) → ∃ l', fk !! a = Some (j, l').
    { move=> a j l /lookup_insert_Some [[? [? ?]]|[_ ?]]; [subst|]; eauto. }
    move=> a b j l1 l2 /Hother [k1 E1] /Hother [k2 E2]. exact: (fo_inj _ _ F _ _ _ _ _ E1 E2).
  - move=> j x k. case: (decide (i = j)) => [E'|Hne].
    + subst j. rw list_lookup_insert_eq // => -[<-] _. rw Hp => -[<-]. by rw lookup_insert_eq.
    + rw list_lookup_insert_ne // => Hx Hsx Hpx. have Ek := fo_parent _ _ F j x k Hx Hsx Hpx.
      rw lookup_insert_ne //. move=> ?. subst k. congruence.
Qed.

Lemma forks_alloc (fk : forking) (me i : nat) (q q' m : proc) (ps : list proc) :
  forks fk ps → fk !! me = None → ps !! i = Some q → p_state q = UNUSED → p_state q' = EMBRYO → p_parent q' = None →
  ps !! me = Some m → live m → forks (<[me := (i, false)]> fk) (<[i := q']> ps).
Proof.
  move=> F E Hq Hsq Hs Hp Hm Hl. have Hlt := lookup_lt_Some _ _ _ Hq.
  have Hlive : ∀ j y, ps !! j = Some y → live y → j ≠ i.
  { move=> j y. apply (live_ne ps i q j y) => //. rw /live Hsq. naive_solver. }
  have Hnew : ∀ a l, fk !! a ≠ Some (i, l).
  { move=> a l Ea. have [x [y [Hx [_ [Hsx _]]]]] := fo_new _ _ F _ _ _ Ea. congruence. }
  split.
  - move=> me' j l' /lookup_insert_Some [[? [? ?]]|[Hne E']].
    + subst me' j l'. exists q', m. have Hi := not_eq_sym (Hlive _ _ Hm Hl). by rw list_lookup_insert_eq // list_lookup_insert_ne.
    + have [x [y [Hx [Hy [Hsx [Hpx Hly]]]]]] := fo_new _ _ F _ _ _ E'.
      have Hj : j ≠ i by move=> ?; subst j; by apply (Hnew me' l').
      exists x, y. have := Hlive _ _ Hy Hly. move=> Hi. rw !list_lookup_insert_ne //; auto.
  - move=> a b j l1 l2 /lookup_insert_Some [[? [? ?]]|[Ha E1]] /lookup_insert_Some [[? [? ?]]|[Hb E2]]; subst => //.
    + by destruct (Hnew b l2).
    + by destruct (Hnew a l1).
    + exact: (fo_inj _ _ F _ _ _ _ _ E1 E2).
  - move=> j x k. case: (decide (i = j)) => [E'|Hne].
    + subst j. rw list_lookup_insert_eq // => -[<-] _. by rw Hp.
    + rw list_lookup_insert_ne // => Hx Hsx Hpx. have Ek := fo_parent _ _ F j x k Hx Hsx Hpx.
      rw lookup_insert_ne //. move=> ?. subst k. congruence.
Qed.

(** A process that exits is not in [fork], so none of its children is new. *)
Lemma forks_exit (fk : forking) (me r : nat) (qm : proc) (ps ps' : list proc) :
  forks fk ps → fk !! me = None → exited me ps ps' (Some r) → ps !! me = Some qm → p_state qm = RUNNING → forks fk ps'.
Proof.
  move=> F E X Hqm Hrm. apply (forks_keep fk ps) => //; first exact: (ex_len _ _ _ _ X).
  move=> i q q' Hq Hq'. have [q0 [Hq0 [_ [_ [Hp Hst]]]]] := exited_all _ _ _ _ X _ _ Hq'.
  have ? : q0 = q by congruence. subst q0. split_and!.
  - case: (decide (i = me)) Hst => [?|_] Hst; first (subst i; have -> : q = qm by congruence); first by rw Hst Hrm.
    case: Hst => [->|[-> ->]] //.
  - move=> Hs. rw Hp. case_decide as Hpm => //. have := fo_parent _ _ F i q me Hq Hs Hpm. congruence.
  - move=> Hi. apply (exited_live _ _ _ _ X i q q') => //. by move=> ?; subst i.
Qed.

(** *** Operations on memory leave the table alone *)

Definition tabs (c : core) := (c_procs c, c_cur c, c_nextpid c, c_initproc c).

Definition still {A} (m : M kst A) : Prop :=
  ∀ s, match m s with Ret _ s' => tabs (k_core s') = tabs (k_core s) | Sched _ => False | _ => True end.

Lemma still_ret {A} (a : A) : still (mret a).
Proof. done. Qed.

Lemma still_bind {A B} (m : M kst A) (f : A → M kst B) : still m → (∀ a, still (f a)) → still (m ≫= f).
Proof.
  move=> Hm Hf s. have := Hm s. rw /mbind /M_bind. destruct (m s) as [a s'| | | |] => //= E.
  have := Hf a s'. by destruct (f a s') => //= ->.
Qed.

Lemma still_for_up (n : nat) (lo : Z) (f : Z → M kst unit) : (∀ i, still (f i)) → still (for_up n lo f).
Proof. move=> Hf. elim: n lo => [|n IH] lo //=. by apply still_bind. Qed.

Lemma still_when (b : bool) (m : M kst unit) : still m → still (when b m).
Proof. by case: b. Qed.

Lemma still_rd64 (a : Z) : still (rd64 a).
Proof. move=> s. rw /rd64 /mbind /M_bind /getpage. by destruct (k_mem s !! _). Qed.

Lemma still_wr64 (a v : Z) : still (wr64 a v).
Proof. move=> s. rw /wr64 /mbind /M_bind /getpage /putpage. destruct (k_mem s !! _) eqn:E => //=. by rw E. Qed.

Lemma still_kfree (kend v : Z) : still (kfree kend v).
Proof.
  rw /kfree. case: (_ || _) => //. apply still_bind; [|move=> _; apply still_bind; [|move=> _; apply still_bind; [done|]]].
  - move=> s. rw /memset_page /putpage. by destruct (k_mem s !! _).
  - apply still_bind; [done|]. move=> u. apply still_when => s. rw /lift /acquire. by case_decide.
  - move=> l. apply still_bind; [apply still_wr64|]. move=> _. apply still_bind; [done|]. move=> _.
    apply still_bind; [done|]. move=> u. apply still_when => s. rw /lift /release. by case_decide.
Qed.

Lemma still_free_table (kend n t : Z) (f : Z → M kst unit) : (∀ v, still (f v)) → still (free_table kend n t f).
Proof.
  move=> Hf. apply still_bind; [apply still_for_up => i|move=> _; apply still_kfree].
  apply still_bind; [apply still_rd64|]. move=> v. by apply still_when.
Qed.

Lemma still_freevm (kend pml4 : Z) : still (freevm kend pml4).
Proof.
  rw /freevm. case: (_ =? _) => //. apply still_free_table => v. apply still_free_table => w.
  apply still_free_table => x. apply still_free_table => y. apply still_kfree.
Qed.

Lemma still_switchuvm (p : proc) : still (switchuvm p).
Proof. rw /switchuvm. by case: (_ =? _). Qed.

(** ** Each step keeps the invariant *)

(** What holds of the table and the processes in [fork]. *)
Definition table_ok (x : core * forking) : Prop := pt_ok x.1 ∧ forks x.2 (c_procs x.1).

(** Every process updated by a wakeup, a kill or outside of proc.c. *)
Lemma table_map (c c' : core) (fk : forking) (f : nat → proc → proc) :
  table_ok (c, fk) → c_nextpid c' = c_nextpid c → c_initproc c' = c_initproc c →
  c_procs c' = imap f (c_procs c) → (∀ i q, touched (p_parent q) q (f i q)) → table_ok (c', fk).
Proof.
  move=> [/= H F] Hn Hi Hps Hf. have Hl : length (c_procs c') = length (c_procs c) by rw Hps length_imap.
  have Ht : ∀ i q', c_procs c' !! i = Some q' → ∃ q, c_procs c !! i = Some q ∧ touched (p_parent q) q q'.
  { move=> i q'. rw Hps list_lookup_imap. destruct (c_procs c !! i) as [q|] => //= -[<-]. by exists q. }
  split; [exact: (pt_ok_touched c)|exact: (forks_touched fk (c_procs c))].
Qed.

Lemma table_same (c c' : core) (fk : forking) :
  table_ok (c, fk) → c_procs c' = c_procs c → c_nextpid c' = c_nextpid c → c_initproc c' = c_initproc c → table_ok (c', fk).
Proof.
  move=> H Hp Hn Hi. apply (table_map c _ _ (λ _ q, q)) => //; first by rw Hp imap_const list_fmap_id.
  move=> _ q. split => //. by left.
Qed.

Lemma table_other (ps : list proc) (c : core) (fk : forking) :
  Forall2 same_role (c_procs c) ps → table_ok (c, fk) → table_ok (set_procs ps c, fk).
Proof.
  move=> Hf [/= H F]. have Hl : length ps = length (c_procs c) by rw (Forall2_length Hf).
  have Ht : ∀ i q', ps !! i = Some q' → ∃ q, c_procs c !! i = Some q ∧ touched (p_parent q) q q'.
  { move=> i q' Hq'. have [q [Hq [Hs [Hp [Hr Hc]]]]] := Forall2_lookup_r _ _ _ _ _ Hf Hq'. exists q. split => //. split => //. by left. }
  split; [exact: (pt_ok_touched c)|exact: (forks_touched fk (c_procs c))].
Qed.

Lemma killproc_touched (q : proc) : touched (p_parent q) q (killproc q).
Proof. rw /killproc /=. case_bool_decide as E; split => //=; [by right|by left]. Qed.

Lemma table_kill (me : nat) (pid r : Z) (c c' : core) (fk : forking) :
  table_ok (c, fk) → kill pid (at_cpu me [] c) = Ret r c' → table_ok (c', fk).
Proof.
  move=> H. rw /kill. erewrite run_bind; [|apply acquire_run; simpl; set_solver].
  set c1 := set_locks _ _. rw run_gets. destruct (find_pid NPROC 0 pid (c_procs c1)) as [i|].
  - rw run_modify. erewrite run_bind; [|apply (release_run _ []); [done|set_solver]]. move=> [_ <-].
    apply (table_map c _ _ (λ k q, if decide (k = i) then killproc q else q)) => //=.
    + apply list_eq => k. rw list_lookup_alter list_lookup_imap.
      case: (decide (i = k)) => [E|Hne]; first by subst k; destruct (c_procs c !! i) => //=; rw decide_True.
      destruct (c_procs c !! k) => //=. by rw decide_False.
    + move=> k q. case_decide; [apply killproc_touched|]. split => //. by left.
  - erewrite run_bind; [|apply (release_run _ []); [done|set_solver]]. move=> [_ <-]. by apply (table_same c).
Qed.

Lemma table_wakeup (cur : option nat) (ls : list lockid) (ch : chan) (c c' : core) (fk : forking) :
  table_ok (c, fk) → wakeup ch (on_cpu cur ls c) = Ret tt c' → table_ok (c', fk).
Proof.
  move=> H E. have Hl : LPtable ∉ ls.
  { move=> Hin. move: E. rw /wakeup. erewrite run_bind_panic; [done|]. by rw /acquire decide_True. }
  rw wakeup_run // in E. case: E => <-. apply (table_map c _ _ (λ _, wake ch)) => //=; first by rw imap_const.
  move=> _ q. apply wake_touched.
Qed.

(** A running process changes itself and stays alive. *)
Lemma table_self (me : nat) (q q' : proc) (c c' : core) (fk : forking) :
  table_ok (c, fk) → c_procs c !! me = Some q → live q → live q' → p_pid q' = p_pid q → p_parent q' = p_parent q →
  (p_state q' = SLEEPING → p_chan q' ≠ None) →
  (∀ j, waiting q' (ChProc j) → j = me ∧ ∀ k r, c_procs c !! k = Some r → p_parent r = Some me → p_state r ≠ ZOMBIE) →
  c_nextpid c' = c_nextpid c → c_initproc c' = c_initproc c → c_procs c' = <[me := q']> (c_procs c) → table_ok (c', fk).
Proof.
  move=> [/= H F] Hq Hl Hl' Hp Hr Hch Hw Hn Hi Hps.
  have He : ∀ x, live x → p_state x ≠ EMBRYO by move=> x [->|[->|->]].
  split; cbn [fst snd].
  - apply (pt_ok_change me q q' c) => //. rw Hn. by apply change_live.
  - rw Hps. apply (forks_change fk me q) => //; by apply He.
Qed.

Lemma table_sleep (me : nat) (ch : chan) (lk : lockid) (c c' : core) (fk : forking) :
  table_ok (c, fk) → running me c → sleep ch lk (at_cpu me [lk] c) = Sched c' →
  (∀ j, ch = ChProc j → j = me ∧ ∀ k r, c_procs c !! k = Some r → p_parent r = Some me → p_state r ≠ ZOMBIE) →
  table_ok (c', fk).
Proof.
  move=> H /live_running [q [Hq [_ Hl]]] E Hch.
  rw (sleep_any_run _ _ me) // in E; first by (simpl; eapply lookup_lt_Some). case: E => <-.
  apply (table_self me q (set_state SLEEPING (set_chan (Some ch) q)) c) => //=; first by left.
  - by move=> j [_ [/Hch]].
  - by apply (alter_insert (λ p, set_state SLEEPING (set_chan (Some ch) p))).
Qed.

Lemma table_resume (me : nat) (lk : lockid) (c c' : core) (fk : forking) :
  table_ok (c, fk) → running me c → sleep_resume lk (at_cpu me [LPtable] c) = Ret tt c' → table_ok (c', fk).
Proof.
  move=> H /live_running [q [Hq [Hs Hl]]] E.
  have [Hp [Hn Hi]] : c_procs c' = alter (set_chan None) me (c_procs c) ∧ c_nextpid c' = c_nextpid c ∧ c_initproc c' = c_initproc c.
  { case: (decide (lk = LPtable)) => [?|Hne]; last by rw (sleep_resume_run _ me) // in E; case: E => <-.
    subst lk. move: E. rw /sleep_resume. erewrite run_bind; [|rw /with_cur; done].
    rw bool_decide_eq_false_2; [by auto|]. by move=> [<-]. }
  apply (table_self me q (set_chan None q) c) => //; [by rw /= Hs|by move=> j []|]. by rw Hp (alter_insert (set_chan None) me _ q).
Qed.

Lemma table_yield (me : nat) (c c' : core) (fk : forking) :
  table_ok (c, fk) → running me c → yield (at_cpu me [] c) = Sched c' → table_ok (c', fk).
Proof.
  move=> H /live_running [q [Hq [Hs Hl]]] E. rw (yield_run me q) // in E. case: E => <-.
  apply (table_self me q (set_state RUNNABLE q) c) => //=; [by right; left|by move=> j []|]. by apply alter_insert.
Qed.

(** *** The steps of [fork] *)

Lemma table_alloc (me : nat) (r : option nat) (c c' : core) (fk : forking) :
  table_ok (c, fk) → running me c → fk !! me = None → c_nextpid c < 2 ^ 31 - 1 → alloc_slot (at_cpu me [] c) = Ret r c' →
  table_ok (c', match r with Some i => <[me := (i, false)]> fk | None => fk end).
Proof.
  move=> [/= H F] Hr Hme Hn E. have [m [Hm [_ Hlm]]] := live_running _ _ Hr. case: r E => [i|] E.
  - split; [exact: (pt_ok_alloc me i c)|]. have [q [Hq [Hs [Hps _]]]] := alloc_slot_inv me i c c' (pt_len _ H) E.
    cbn [fst snd]. rw Hps. apply (forks_alloc fk me i q _ m) => //. exact: (pt_free _ H i q Hq Hs).
  - have [Hp [Hnp Hi]] := alloc_slot_none me c c' E. by apply (table_same c).
Qed.

Lemma table_undo (me i : nat) (c c' : core) (fk : forking) :
  table_ok (c, fk) → fk !! me = Some (i, false) → put_state i UNUSED (at_cpu me [] c) = Ret tt c' → table_ok (c', delete me fk).
Proof.
  move=> [/= H F] Hme [<-]. have [q [m [Hq [_ [Hs [Hp _]]]]]] := fo_new _ _ F _ _ _ Hme. split; cbn [fst snd].
  - apply (pt_ok_free i q (set_state UNUSED q) c) => //; [by move=> [E|[E|E]]; rw Hs in E|]. by apply alter_insert.
  - rw /= (alter_insert (set_state UNUSED) i _ q Hq). by apply (forks_delete fk me i false q).
Qed.

Lemma table_link (me i : nat) (sz : Z) (c c' : core) (fk : forking) :
  table_ok (c, fk) → fk !! me = Some (i, false) → fork_link i sz (at_cpu me [] c) = Ret tt c' →
  table_ok (c', <[me := (i, true)]> fk).
Proof.
  move=> [/= H F] Hme [<-]. have [q [m [Hq [_ [Hs [Hp _]]]]]] := fo_new _ _ F _ _ _ Hme. split; cbn [fst snd].
  - by apply (pt_ok_link i (Some me) sz q c).
  - rw /= (alter_insert (λ q, w_parent (Some me) (w_sz sz q)) i _ q Hq). by apply (forks_link fk me i q).
Qed.

Lemma table_ready (me i : nat) (c c' : core) (fk : forking) :
  table_ok (c, fk) → fk !! me = Some (i, true) → put_state i RUNNABLE (at_cpu me [] c) = Ret tt c' → table_ok (c', delete me fk).
Proof.
  move=> [/= H F] Hme [<-]. have [q [m [Hq [Hm [Hs [Hp Hlm]]]]]] := fo_new _ _ F _ _ _ Hme. split; cbn [fst snd].
  - by apply (pt_ok_ready i me q m c).
  - rw /= (alter_insert (set_state RUNNABLE) i _ q Hq). by apply (forks_delete fk me i true q).
Qed.

(** *** [wait] and the scheduler, in the whole kernel *)

#[local] Opaque NPROC.

Lemma bind_sched_inv {T A B} (m : M T A) (f : A → M T B) (s s' : T) :
  (m ≫= f) s = Sched s' → m s = Sched s' ∨ ∃ a s1, m s = Ret a s1 ∧ f a s1 = Sched s'.
Proof. rw /mbind /M_bind. destruct (m s); simpl; naive_solver. Qed.

Section whole.
Context {S : Type} `{!Lens S core, !BlockStore S} (kend : Z).
Implicit Types s : sys S.

Lemma lift_core_inv {A} (m : M core A) s a s' : lift m s = Ret a s' → m (ycore s) = Ret a (ycore s').
Proof.
  rw /lift. change (lget s) with (ycore s). destruct (m (ycore s)) as [b c| | | |] => // -[<- <-]. f_equal.
  exact: (eq_sym (lget_lset (Lens:=sys_core) c s)).
Qed.

Lemma lift_still {A} (m : M kst A) s a s' : still m → lift m s = Ret a s' → tabs (ycore s') = tabs (ycore s).
Proof.
  move=> Hm. pose proof (Hm (yk s)) as E; move: E. rw /lift. change (lget s) with (yk s). destruct (m (yk s)) as [b k| | | |] => // E [_ <-].
  rw -[tabs (ycore s)]E. f_equal. exact: (lget_lset (I:=core)).
Qed.

Lemma lift_no_sched {A} (m : M kst A) s s' : still m → lift m s ≠ Sched s'.
Proof. move=> Hm. pose proof (Hm (yk s)) as E; move: E. rw /lift. change (lget s) with (yk s). by destruct (m (yk s)). Qed.

(** [wait] returns with a child reaped or with the table unchanged. *)
Lemma wait_loop_ret me s (r : Z) s' :
  c_cur (ycore s) = Some me → wait_loop kend s = Ret r s' →
  let c := ycore s in let c' := ycore s' in
  c_nextpid c' = c_nextpid c ∧ c_initproc c' = c_initproc c ∧
  (c_procs c' = c_procs c ∨ ∃ i b, wait_scan NPROC 0 me false (c_procs c) = (Some i, b) ∧
    c_procs c' = alter (λ q, reaped (w_kstack 0 q)) i (c_procs c)).
Proof.
  move=> Hcur. rw /wait_loop run_gets Hcur. destruct (wait_scan NPROC 0 me false (c_procs (ycore s))) as [[i|] b] eqn:Hsc.
  - rw /pget run_gets. intros ([] & s1 & E1%(lift_still _ _ _ _ (still_kfree _ _)) & ([] & s2 & E2%lift_core_inv & H)%run_bind_inv)%run_bind_inv.
    move: H. intros ([] & s3 & E3%(lift_still _ _ _ _ (still_freevm _ _)) & ([] & s4 & E4%lift_core_inv & H)%run_bind_inv)%run_bind_inv.
    move: H. intros ([] & s5 & E5%lift_core_inv & [= _ <-])%run_bind_inv.
    case: E2 => E2. case: E4 => E4. move: E5. rw /release. case_decide => // -[E5]. rw /= -E5 /= -E4 /=.
    move: E1 E3. rw /tabs -E2 /= => -[P1 C1 N1 I1] [P3 C3 N3 I3].
    split_and!; [congruence|congruence|]. right. exists i, b. split => //. rw P3 P1.
    apply alter_alter.
  - rw run_gets. case: (_ || _).
    + intros ([] & s5 & E5%lift_core_inv & [= _ <-])%run_bind_inv. move: E5. rw /release. case_decide => // -[<-]. by split_and!; [..|left].
    + intros (? & ? & _ & H)%run_bind_inv. done.
Qed.

Lemma wait_loop_sched me s s' :
  c_cur (ycore s) = Some me → wait_loop kend s = Sched s' →
  wait_scan NPROC 0 me false (c_procs (ycore s)) = (None, true) ∧ sleep (ChProc me) LPtable (ycore s) = Sched (ycore s').
Proof.
  move=> Hcur. rw /wait_loop run_gets Hcur. destruct (wait_scan NPROC 0 me false (c_procs (ycore s))) as [[i|] b] eqn:Hsc.
  - rw /pget run_gets. intros [H|(? & s1 & _ & H)]%bind_sched_inv; first by destruct (lift_no_sched _ _ _ (still_kfree _ _) H).
    move: H. intros [H|(? & s2 & _ & H)]%bind_sched_inv; first done.
    move: H. intros [H|(? & s3 & _ & H)]%bind_sched_inv; first by destruct (lift_no_sched _ _ _ (still_freevm _ _) H).
    move: H. intros [H|(? & s4 & _ & H)]%bind_sched_inv; first done.
    move: H. intros [H|(? & s5 & _ & H)]%bind_sched_inv; last done. move: H. rw /lift /release. by case_decide.
  - rw run_gets. destruct b; simpl.
    + case: (_ =? 0) => /=.
      * intros [H|(? & ? & _ & H)]%bind_sched_inv; last done. split => //. move: H. rw /lift. change (lget s) with (ycore s).
        destruct (sleep _ _ _) as [| | |c1|] => // -[<-]. f_equal. exact: (eq_sym (lget_lset (Lens:=sys_core) c1 s)).
      * intros [H|(? & ? & _ & H)]%bind_sched_inv; last done. move: H. rw /lift /release. by case_decide.
    + intros [H|(? & ? & _ & H)]%bind_sched_inv; last done. move: H. rw /lift /release. by case_decide.
Qed.

Lemma scheduler_step_ret (k : nat) s (r : option nat) s' :
  scheduler_step k s = Ret r s' →
  let c := ycore s in let c' := ycore s' in
  c_nextpid c' = c_nextpid c ∧ c_initproc c' = c_initproc c ∧ find_state RUNNABLE (NPROC - k) k (c_procs c) = r ∧
  c_procs c' = match r with Some i => alter (set_state RUNNING) i (c_procs c) | None => c_procs c end.
Proof.
  rw /scheduler_step run_gets. destruct (find_state _ _ _ _) as [i|] eqn:Hf.
  - intros ([] & s1 & [= E1]%lift_core_inv & H)%run_bind_inv. rw /pget run_gets in H. move: H.
    intros ([] & s2 & E2%(lift_still _ _ _ _ (still_switchuvm _)) & ([] & s3 & [= E3]%lift_core_inv & [= <- <-])%run_bind_inv)%run_bind_inv.
    rw /= -E3. move: E2. rw /tabs -E1 /= => -[P C N I]. by rw P N I.
  - intros ([] & s1 & E1%lift_core_inv & [= <- <-])%run_bind_inv. move: E1. rw /release. by case_decide => // -[<-].
Qed.

Lemma table_reap (me : nat) (r : Z) s s' (c : core) (fk : forking) :
  table_ok (c, fk) → ycore s = at_cpu me [LPtable] c → wait_loop kend s = Ret r s' → table_ok (ycore s', fk).
Proof.
  move=> HF Hs E. have := wait_loop_ret me s r s'. rw Hs /= => /(_ eq_refl E) [Hn [Hi [Hp|[i [b [Hsc Hp]]]]]].
  { by apply (table_same c). }
  move: HF => [/= H F]. have := wait_scan_spec NPROC 0 me false (c_procs c). rw Hsc => -[Hk [Hpar Hz]].
  have [q Hq] := lookup_lt_is_Some_2 (c_procs c) i ltac:(rw (pt_len _ H); lia).
  rw (list_lookup_total_correct _ _ _ Hq) in Hz Hpar. rw (alter_insert (λ q, reaped (w_kstack 0 q)) i _ q Hq) in Hp.
  have Hl : ~ live q by move=> [E'|[E'|E']]; rw Hz in E'. split; cbn [fst snd].
  - by apply (pt_ok_free i q (reaped (w_kstack 0 q)) c).
  - rw Hp. apply (forks_change fk i q) => //; first by rw Hz.
    destruct (fk !! i) as [[np l]|] eqn:Ef => // _.
    have [x [m [_ [Hm [_ [_ Hlm]]]]]] := fo_new _ _ F _ _ _ Ef. have ? : m = q by congruence. by subst m.
Qed.

Lemma table_wait_sleep (me : nat) s s' (c : core) (fk : forking) :
  table_ok (c, fk) → running me c → ycore s = at_cpu me [LPtable] c → wait_loop kend s = Sched s' → table_ok (ycore s', fk).
Proof.
  move=> HF Hr Hs E. have := wait_loop_sched me s s'. rw Hs /= => /(_ eq_refl E) [Hsc Hsl].
  apply (table_sleep me (ChProc me) LPtable c) => // j [<-]. split => // k x Hx Hp.
  have := wait_scan_spec NPROC 0 me false (c_procs c). rw Hsc => -[Hz _]. have := Hz k.
  rw (list_lookup_total_correct _ _ _ Hx). apply => //. have := lookup_lt_Some _ _ _ Hx. rw (pt_len _ (proj1 HF)). simpl. lia.
Qed.

Lemma table_run (k : nat) (r : option nat) s s' (c : core) (fk : forking) :
  table_ok (c, fk) → ycore s = on_cpu None [LPtable] c → scheduler_step k s = Ret r s' → (k ≤ NPROC)%nat → table_ok (ycore s', fk).
Proof.
  move=> HF Hs E Hk. have := scheduler_step_ret _ _ _ _ E. rw Hs /= => -[Hn [Hi [Hf Hp]]].
  case: r Hf Hp {E} => [i|] Hf Hp; last by apply (table_same c).
  have := find_state_spec RUNNABLE (NPROC - k) k (c_procs c). rw Hf => -[Hr [Hst _]].
  have [q Hq] := lookup_lt_is_Some_2 (c_procs c) i ltac:(rw (pt_len _ (proj1 HF)); lia).
  rw (list_lookup_total_correct _ _ _ Hq) in Hst. rw (alter_insert (set_state RUNNING) i _ q Hq) in Hp.
  apply (table_self i q (set_state RUNNING q) c) => //; [by rw /live Hst; auto|by rw /live /=; auto|by move=> j []].
Qed.

Lemma table_exit (me : nat) (c c' : core) (fk : forking) :
  table_ok (c, fk) → running me c → fk !! me = None → c_initproc c ≠ Some me → exit_handoff (at_cpu me [] c) = Sched c' →
  table_ok (c', fk).
Proof.
  move=> [/= H F] Hr Hme Hni E. split; [exact: (pt_ok_exit me c)|]. have [qm [Hqm [Hrm _]]] := live_running _ _ Hr.
  have Hlt : (me < NPROC)%nat by rw -(pt_len _ H); apply lookup_lt_Some in Hqm.
  have [c1 [E1 [X _]]] := exit_handoff_run me (at_cpu me [] c) eq_refl eq_refl (pt_len _ H) Hlt.
  rw E1 in E. case: E => ?. subst c1. have [r [_ [Hi _]]] := pt_init _ H. simpl in X. rw Hi in X.
  exact: (forks_exit fk me r qm (c_procs c)).
Qed.

Lemma pt_step_ok x y : table_ok x → pt_step (S:=S) kend x y → table_ok y.
Proof.
  move=> H Hst. destruct Hst as [me r c c' fk Hr Hme Hn E|me i c c' fk Hr Hme E|me i sz c c' fk Hr Hme E|me i c c' fk Hr Hme E|
    ps c fk Hf|me c c' fk Hr Hme Hni E|me r s s' c fk Hr Hs E|me s s' c fk Hr Hs E|me pid r c c' fk Hr E|me ch lk c c' fk Hr Hch E|
    cur ls ch c c' fk E|me c c' fk Hr E|k r s s' c fk Hs E Hk|me lk c c' fk Hr E].
  - exact: (table_alloc me r c).
  - exact: (table_undo me i c).
  - exact: (table_link me i sz c).
  - exact: (table_ready me i c).
  - exact: table_other.
  - exact: (table_exit me c).
  - exact: (table_reap me r s s' c).
  - exact: (table_wait_sleep me s s' c).
  - exact: (table_kill me pid r c).
  - apply (table_sleep me ch lk c) => // j Hj. by destruct (Hch j).
  - exact: (table_wakeup cur ls ch c).
  - exact: (table_yield me c).
  - exact: (table_run k r s s' c).
  - exact: (table_resume me lk c).
Qed.

(** C4: the process table is consistent under any interleaving of fork, exit,
    wait, kill, sleep, wakeup, yield and the scheduler on any number of CPUs, as
    long as fewer than 2^31 - 1 process ids have been given out: the ids of
    processes are distinct, every process but init has a living parent that can
    reap it, a process that [fork] is still making is known to its maker alone,
    every sleeper sleeps on a channel, and nobody sleeps in [wait] while a child
    of its is a zombie. *)
Theorem ptable_invariant (c c' : core) (fk fk' : forking) :
  pt_ok c → forks fk (c_procs c) → rtc (pt_step (S:=S) kend) (c, fk) (c', fk') →
  pt_ok c' ∧ forks fk' (c_procs c').
Proof.
  move=> H F Hs. change (table_ok (c', fk')). have Ht : table_ok (c, fk) by [].
  elim: Hs Ht => {c c' fk fk' H F} [x|x y z Hst _ IH] H //. by apply IH, (pt_step_ok x).
Qed.

End whole.

(** ** [kill] *)

Lemma find_pid_spec (n i : nat) (pid : Z) (ps : list proc) (k : nat) :
  (i ≤ k < i + n)%nat → p_pid (ps !!! k) = pid → (∀ j, (i ≤ j < k)%nat → p_pid (ps !!! j) ≠ pid) →
  find_pid n i pid ps = Some k.
Proof.
  elim: n i => [|n IH] i Hk Hp Hj /=; first lia.
  case: (Z.eqb_spec (p_pid (ps !!! i)) pid) => E.
  - f_equal. case: (decide (i = k)) => // Hne. exfalso. apply (Hj i) => //. lia.
  - apply IH => //; first by (case: (decide (k = i)) => [?|]; [subst; congruence|lia]). move=> j ?. apply Hj. lia.
Qed.

(** [kill(0)] marks the free slot of the table with id 0 as killed and
    reports success; the next process created in the slot is born killed. *)
Theorem kill_zero (c : core) (i me : nat) (q : proc) :
  pt_ok c → find_state UNUSED NPROC 0 (c_procs c) = Some i → c_procs c !! i = Some q → p_pid q = 0 →
  total (r ← kill 0; i' ← alloc_slot; mret (r, i')) (at_cpu me [] c) (λ x c',
    x = (0, Some i) ∧ ∃ q', c_procs c' !! i = Some q' ∧ p_killed q' = 1 ∧ p_state q' = EMBRYO ∧ p_pid q' = c_nextpid c).
Proof.
  move=> H Hf Hq Hp. have := find_state_spec UNUSED NPROC 0 (c_procs c). rw Hf => -[Hi [Hst Hj]].
  have Hfp : find_pid NPROC 0 0 (c_procs c) = Some i.
  { apply find_pid_spec; [lia|by rw (list_lookup_total_correct _ _ _ Hq)|].
    move=> j Hlt. have [r Hr] := lookup_lt_is_Some_2 (c_procs c) j ltac:(rw (pt_len _ H); lia).
    have Hu := Hj j ltac:(lia). rw (list_lookup_total_correct _ _ _ Hr) in Hu |- *.
    have := pt_pid _ H j r Hr Hu. lia. }
  rw (list_lookup_total_correct _ _ _ Hq) in Hst.
  set c1 := set_procs (alter killproc i (c_procs c)) (at_cpu me [] c).
  have E1 : kill 0 (at_cpu me [] c) = Ret 0 c1.
  { rw /kill. erewrite run_bind; [|apply acquire_run; simpl; set_solver]. rw run_gets.
    set t := set_locks _ _. have -> : find_pid NPROC 0 0 (c_procs t) = Some i by exact: Hfp. rw run_modify.
    erewrite run_bind; [|apply (release_run _ []); [done|set_solver]]. done. }
  have Hq1 : c_procs c1 !! i = Some (killproc q) by rw /= list_lookup_alter decide_True // Hq.
  have Hk : killproc q = w_killed 1 q by rw /killproc /= bool_decide_eq_false_2 // Hst.
  have Hf1 : find_state UNUSED NPROC 0 (c_procs c1) = Some i.
  { have := find_state_spec UNUSED NPROC 0 (c_procs c1).
    have Hother : ∀ j, j ≠ i → c_procs c1 !!! j = c_procs c !!! j.
    { move=> j Hne. rw !list_lookup_total_alt /= list_lookup_alter decide_False //. }
    have Hself : p_state (c_procs c1 !!! i) = UNUSED.
    { by rw (list_lookup_total_correct _ _ _ Hq1) Hk. }
    destruct (find_state UNUSED NPROC 0 (c_procs c1)) as [k|] eqn:E; last by move=> /(_ i ltac:(lia)).
    move=> [Hk1 [Hk2 Hk3]]. f_equal. case: (decide (k = i)) => // Hne. exfalso.
    case: (decide (k < i)%nat) => Hlt.
    - apply (Hj k); first lia. by rw -(Hother k).
    - apply (Hk3 i); [lia|done]. }
  apply (total_bind _ _ _ (λ r s, r = 0 ∧ s = c1)); [by exists 0, c1|]. move=> _ _ [-> ->].
  set c2 := claimed i c1.
  have E2 : alloc_slot c1 = Ret (Some i) c2 by rw alloc_slot_run // Hf1.
  apply (total_bind _ _ _ (λ r s, r = Some i ∧ s = c2)); [by exists (Some i), c2|]. move=> _ _ [-> ->]. apply total_ret. split => //.
  eexists. rw /= list_lookup_alter decide_True //. simpl in Hq1. rw Hq1 Hk. by split_and!.
Qed.

(** ** The scheduler *)

Section scheduler.
Context {S : Type} `{!Lens S core, !BlockStore S}.

Definition is_runnable (j : nat) (s : sys S) : Prop := p_state (c_procs (ycore s) !!! j) = RUNNABLE.

(** The choices of a CPU's scheduler, from position [k] of its loop: a process, or
    [None] at the end of a pass.  Between two steps of the scheduler, when the
    chosen process runs or no lock is held, anything may happen, except that [j]
    stays runnable until it is chosen. *)
Inductive rounds (j : nat) : nat → sys S → list (option nat) → Prop :=
| rounds_nil k s : rounds j k s []
| rounds_pick k k' s i s1 s2 s3 l :
    is_runnable j s → scheduler_step k s = Ret (Some i) s1 →
    scheduler_resume i s2 = Ret k' s3 → rounds j k' s3 l → rounds j k s (Some i :: l)
| rounds_end k k' s s1 s2 s3 l :
    is_runnable j s → scheduler_step k s = Ret None s1 →
    scheduler_start s2 = Ret k' s3 → rounds j k' s3 l → rounds j k s (None :: l).

(** Where the loop goes on. *)
Lemma scheduler_resume_next (i k : nat) (s s' : sys S) : scheduler_resume i s = Ret k s' → k = Datatypes.S i.
Proof. by rw /scheduler_resume; intros (? & ? & _ & (? & ? & _ & [= <- _])%run_bind_inv)%run_bind_inv. Qed.

Lemma scheduler_start_next (k : nat) (s s' : sys S) : scheduler_start s = Ret k s' → k = 0%nat.
Proof. by rw /scheduler_start; intros (? & ? & _ & [= <- _])%run_bind_inv. Qed.

(** How long [j] can be passed over. *)
Lemma rounds_bound (j k : nat) (s : sys S) (l : list (option nat)) :
  (j < NPROC)%nat → (k ≤ NPROC)%nat → rounds j k s l → Some j ∉ l →
  (length l ≤ if decide (k ≤ j)%nat then j - k else (NPROC - k) + 1 + j)%nat.
Proof.
  move=> Hj + H. elim: H => {k s l} [k s|k k' s i s1 s2 s3 l Hr Hst Hnext _ IH|k k' s s1 s2 s3 l Hr Hst Hnext _ IH] Hk Hn.
  - simpl. lia.
  - have [_ [_ [Hf _]]] := scheduler_step_ret _ _ _ _ Hst. have ? := scheduler_resume_next _ _ _ _ Hnext. subst k'.
    pose proof (find_state_spec RUNNABLE (NPROC - k) k (c_procs (ycore s))) as Hx.
    rw Hf in Hx. move: Hx => [Hi [_ Hlt]].
    have Hij : i ≠ j by move=> E; apply Hn; subst; left.
    have {}IH := IH ltac:(lia) ltac:(by move=> Hin; apply Hn; right).
    have Hle : (k ≤ j)%nat → (i < j)%nat.
    { move=> Hkj. case: (decide (i < j)%nat) => // Hge. by destruct (Hlt j ltac:(lia)). }
    case: (decide (k ≤ j)%nat) => Hkj.
    + have := Hle Hkj. rw decide_True in IH; first lia. simpl. lia.
    + rw decide_False in IH; first lia. simpl. lia.
  - have [_ [_ [Hf _]]] := scheduler_step_ret _ _ _ _ Hst. have ? := scheduler_start_next _ _ _ Hnext. subst k'.
    pose proof (find_state_spec RUNNABLE (NPROC - k) k (c_procs (ycore s))) as Hno. rw Hf in Hno.
    have {}IH := IH ltac:(lia) ltac:(by move=> Hin; apply Hn; right).
    rw Nat.sub_0_r in IH. move: IH => /= IH. case: (decide (k ≤ j)%nat) => Hkj.
    + by destruct (Hno j ltac:(lia)).
    + simpl. lia.
Qed.

(** C28: the scheduler is fair: whatever the processes and the other CPUs do while
    a chosen process runs and between two passes, a process that stays runnable
    is chosen among the next [NPROC + 1] choices. *)
Theorem scheduler_fair (j k : nat) (s : sys S) (l : list (option nat)) :
  (j < NPROC)%nat → (k ≤ NPROC)%nat → rounds j k s l → (NPROC < length l)%nat → Some j ∈ l.
Proof.
  move=> Hj Hk H Hl. case: (decide (Some j ∈ l)) => // Hn.
  have := rounds_bound j k s l Hj Hk H Hn. case_decide; lia.
Qed.

End scheduler.
