(* ===== verification/Syscall.v ===== *)
(** * System call arguments and the system calls on processes: syscall.c (up to
    the table), sysproc.c

    The kernel reads and writes user memory through the page table of the
    current process: [va2ka] is the translation the hardware does, in kernel
    mode, so that an address of the direct map is accepted as well. *)

From S2P Require Import Prelude CString Layout Kernel Kalloc Vm Store Fs Pipe Sys File Proc.

(** ** User memory *)

(** The kernel address of the byte at [va]; an unmapped address faults. *)
Definition va2ka (pgdir va : Z) : M kst Z :=
  if va >=? KERNBASE then mret va else
  e ← walkpgdir pgdir va false;
  if e =? 0 then fault else
  v ← rd64 e;
  if has PTE_P v then mret (P2V (PTE_ADDR v) + va mod PGSIZE) else fault.

Definition ubyte (pgdir va : Z) : M kst Z :=
  a ← va2ka pgdir va;
  d ← getpage (pagebase a);
  mret (nthZ d (a mod PGSIZE)).

Definition set_ubyte (pgdir va b : Z) : M kst unit :=
  a ← va2ka pgdir va;
  d ← getpage (pagebase a);
  putpage (pagebase a) (setZ (a mod PGSIZE) b d).

(** [n] bytes from [va] on, and a store of bytes. *)
Fixpoint uread (n : nat) (pgdir va : Z) : M kst (list Z) :=
  match n with
  | O => mret []
  | S n => b ← ubyte pgdir va; rest ← uread n pgdir (u64 (va + 1)); mret (b :: rest)
  end.

Fixpoint uwrite (pgdir va : Z) (d : list Z) : M kst unit :=
  match d with
  | [] => mret tt
  | b :: d => set_ubyte pgdir va b;; uwrite pgdir (u64 (va + 1)) d
  end.

(** The characters of a string, up to its NUL, if there is one before [ep];
    [n] bounds the characters left. *)
Fixpoint ustring (n : nat) (pgdir s ep : Z) : M kst (option (list Z)) :=
  match n with
  | O => diverge
  | S n =>
    if s <? ep then
      b ← ubyte pgdir s;
      if b =? 0 then mret (Some []) else
      r ← ustring n pgdir (s + 1) ep;
      mret (match r with Some l => Some (b :: l) | None => None end)
    else mret None
  end.

Section syscall.
Context {S : Type} `{!Lens S core, !BlockStore S} (kend : Z).

Abbreviation sys := (sys S).
Abbreviation K := (lift (O:=sys) (I:=kst)).

(** ** Arguments *)

(** -1 is [None]. *)
Definition fetchint (addr : Z) : M sys (option Z) :=
  p ← gets myproc;
  if (addr >=? p_sz p) || (u64 (addr + 4) >? p_sz p) then mret None else
  d ← K (uread 4 (p_pgdir p) addr);
  mret (Some (i32 (le_decode d))).

Definition fetchaddr (addr : Z) : M sys (option Z) :=
  p ← gets myproc;
  if (addr >=? p_sz p) || (u64 (addr + 8) >? p_sz p) then mret None else
  d ← K (uread 8 (p_pgdir p) addr);
  mret (Some (le_decode d)).

(** The string, whose length is the result of the source. *)
Definition fetchstr (addr : Z) : M sys (option (list Z)) :=
  p ← gets myproc;
  if addr >=? p_sz p then mret None else
  K (ustring (Z.to_nat (p_sz p - addr) + 1) (p_pgdir p) addr (p_sz p)).

Definition fetcharg (n : Z) (s : sys) : option Z :=
  let tf := p_tf (myproc s) in
  if n =? 0 then Some (rdi tf) else
  if n =? 1 then Some (rsi tf) else
  if n =? 2 then Some (rdx tf) else
  if n =? 3 then Some (r10 tf) else
  if n =? 4 then Some (r8 tf) else
  if n =? 5 then Some (r9 tf) else None.

Definition argaddr (n : Z) : M sys Z :=
  r ← gets (fetcharg n);
  match r with Some v => mret v | None => panic "failed fetch" end.

Definition argint (n : Z) : M sys Z := v ← argaddr n; mret (i32 v).

(** The check of [argptr], on the lower half of the pointer. *)
Definition argptr_ok (i size sz : Z) : bool :=
  negb ((size <? 0) || (u32 i >=? sz) || (u32 (u32 i + size) >? sz)).

Definition argptr (n size : Z) : M sys (option Z) :=
  i ← argaddr n;
  p ← gets myproc;
  mret (if argptr_ok i size (p_sz p) then Some i else None).

(** The pointer is fetched as an [int]. *)
Definition argstr (n : Z) : M sys (option (list Z)) :=
  addr ← argint n;
  fetchstr (u64 addr).

(** ** sysproc.c *)

Definition sys_fork : M sys Z := fork kend.

Definition sys_exit : M sys Z := exit kend;; mret 0.

Definition sys_wait : M sys Z := wait kend.

Definition sys_kill : M sys Z := pid ← argint 0; lift (kill pid).

Definition sys_getpid : M sys Z := p ← gets myproc; mret (p_pid p).

(** The argument is taken as an [int64] by [growproc]. *)
Definition sys_sbrk : M sys Z :=
  n ← argaddr 0;
  p ← gets myproc;
  r ← growproc kend (i64 n);
  if r <? 0 then mret (u64 (-1)) else mret (p_sz p).

(** The loop of [sys_sleep], with its locals. *)
Definition sleep_loop (ticks0 n : Z) : M sys Z :=
  t ← gets (y_ticks (S:=S));
  if u32 (t - ticks0) <? u32 n then
    p ← gets myproc;
    if negb (p_killed p =? 0) then lift (release LTicks);; mret (-1) else
    lift (Kernel.sleep ChTicks LTicks);;
    diverge
  else
    lift (release LTicks);;
    mret 0.

Definition sys_sleep : M sys Z :=
  n ← argint 0;
  lift (acquire LTicks);;
  t ← gets (y_ticks (S:=S));
  sleep_loop t n.

Definition sys_sleep_resume (ticks0 n : Z) : M sys Z :=
  lift (sleep_resume LTicks);;
  sleep_loop ticks0 n.

Definition sys_uptime : M sys Z :=
  lift (acquire LTicks);;
  t ← gets (y_ticks (S:=S));
  lift (release LTicks);;
  mret (i32 t).

End syscall.
