(* ===== verification/SysMem.v ===== *)
(** * The memory of a process: growproc, and the system calls that use pointers

    The address space of the current process has a page at every address from
    the second page up to its size and nowhere else; [growproc] keeps it so. *)

From S2P Require Import Prelude Kernel Kalloc Vm VmTree VmSpace VmOps VmSize Layout Store Fs Pipe Sys File Proc Syscall.

#[local] Opaque foot leaves walk pte junk zpage.

Section mem.
Context {S : Type} `{!Lens S core, !BlockStore S} (kend : Z) (Hend : KERNBASE < kend).
Abbreviation sys := (sys S).
Implicit Types (F X : list Z) (s : sys) (k : kst).

Record uspace F X (sz : Z) s : Prop := {
  us_cur : ∃ i, c_cur (ycore s) = Some i ∧ (i < length (c_procs (ycore s)))%nat;
  us_sz : p_sz (myproc s) = sz;
  us_space : vspace kend F (p_pgdir (myproc s)) X (yk s);
  us_size : PGSIZE ≤ sz ≤ 2 ^ 47;
  us_pages va : uaddr va → has PTE_P (pt (yk s) (p_pgdir (myproc s)) va) = bool_decide (pages PGSIZE sz (va / PGSIZE));
}.

Lemma vspace_eq F a X k k' :
  k_mem k' = k_mem k → k_freelist k' = k_freelist k → c_locks (k_core k') = c_locks (k_core k) →
  vspace kend F a X k → vspace kend F a X k'.
Proof. intros E1 E2 E3 [[H1 H2 H3 H4 H5] Ht]. split; [split|]; by rw ?E1 ?E2 ?E3. Qed.

(** The end of [growproc]: the size is stored and the page table reloaded. *)
Record resized (v : Z) (k : kst) s s' : Prop := {
  rs_mem : y_mem s' = k_mem k;
  rs_free : y_freelist s' = k_freelist k;
  rs_core i : c_cur (ycore s) = Some i → ycore s' = set_procs (alter (w_sz v) i (c_procs (ycore s))) (ycore s);
  rs_cr3 : g_cr3 (y_vm s') = V2P (p_pgdir (myproc s));
}.

Lemma grow_finish v k s i :
  c_cur (ycore s) = Some i → (i < length (c_procs (ycore s)))%nat → k_core k = ycore s → p_pgdir (myproc s) ≠ 0 →
  ∃ s', (upd_proc (w_sz v);; p ← gets myproc; lift (switchuvm p);; mret 0) (set_yk k s) = Ret 0 s' ∧ resized v k s s'.
Proof.
  intros Hc Hi Ek Hp. destruct (lookup_lt_is_Some_2 _ _ Hi) as [q Hq].
  set (c' := set_procs (alter (w_sz v) i (c_procs (ycore s))) (ycore s)).
  assert (ycore (set_yk k s) = ycore s) as E1 by (rw /ycore /set_yk /= lget_lset; exact Ek).
  assert (∀ s, ycore (set_ycore c' s) = c') as E2 by (intros; exact (lget_lset (I:=core) _ _)).
  assert (p_pgdir (myproc (set_ycore c' (set_yk k s))) = p_pgdir (myproc s)) as E3.
  { rw /myproc E2 /cur_proc /c' /= Hc. by rw !list_lookup_total_alt list_lookup_alter Hq /= decide_True. }
  erewrite run_bind; [|rw /upd_proc; apply run_lift; rw /= E1 /with_cur Hc; reflexivity]. fold c'. cbn [lset sys_core].
  rw run_gets. set (s1 := set_ycore c' (set_yk k s)) in *.
  erewrite run_bind; [|apply run_lift; rw /switchuvm E3; destruct (Z.eqb_spec (p_pgdir (myproc s)) 0); [done|]; reflexivity].
  eexists. split; [reflexivity|]. split; [done|done| |done].
  intros j Hj. rw Hc in Hj. injection Hj as <-. etrans; [exact (lget_lset (I:=core) _ _)|exact (E2 (set_yk k s))].
Qed.

(** [growproc] once [allocuvm] or [deallocuvm] has left [k] and the new size is known. *)
Lemma grow_uspace F X F' sz sz' k s :
  uspace F X sz s → same (yk s) k → PGSIZE ≤ sz' ≤ 2 ^ 47 → vspace kend F' (p_pgdir (myproc s)) X k →
  (∀ va, uaddr va → has PTE_P (pt k (p_pgdir (myproc s)) va) = bool_decide (pages PGSIZE sz' (va / PGSIZE))) →
  ∃ s', (upd_proc (w_sz sz');; p ← gets myproc; lift (switchuvm p);; mret 0) (set_yk k s) = Ret 0 s' ∧
    uspace F' X sz' s' ∧ resized sz' k s s'.
Proof.
  intros [(i & Hc & Hi) Hsz Hv Hr Hpg] [Ek Eu Eg] Hr' Hv' Hpg'.
  pose proof (kpage_pos _ _ (tree_self _ _ _ _ _ (vs_tree _ _ _ _ _ Hv))) as Hpos.
  destruct (grow_finish sz' k s i Hc Hi Ek) as (s' & Hrun & Hrs); [lia|]. exists s'. split_and!; [done| |done].
  destruct Hrs as [R1 R2 R3 R4]. specialize (R3 i Hc). destruct (lookup_lt_is_Some_2 _ _ Hi) as [q Hq].
  assert (p_pgdir (myproc s') = p_pgdir (myproc s) ∧ p_sz (myproc s') = sz') as [E1 E2].
  { rw /myproc /cur_proc R3 /= Hc. by rw !list_lookup_total_alt list_lookup_alter Hq /= decide_True. }
  split; [|exact E2| |done|].
  - exists i. rw R3 /= length_alter. done.
  - rw E1. eapply vspace_eq; [| | |exact Hv']; [exact R1|exact R2|]. rw Ek /= R3. done.
  - intros va Hu. rw E1 -(Hpg' va Hu) /pt /yk /= R1 //.
Qed.

Lemma yk_core k s : same (yk s) k → ycore (set_yk k s) = ycore s.
Proof. intros [Ek _ _]. etrans; [exact (lget_lset (I:=core) _ _)|exact Ek]. Qed.

Lemma uspace_mem F X F' sz k s :
  uspace F X sz s → same (yk s) k → vspace kend F' (p_pgdir (myproc s)) X k →
  (∀ va, uaddr va → has PTE_P (pt k (p_pgdir (myproc s)) va) = bool_decide (pages PGSIZE sz (va / PGSIZE))) →
  uspace F' X sz (set_yk k s).
Proof.
  intros [Hc Hsz Hv Hr Hpg] Hk Hv' Hpg'. assert (lget (set_yk k s) = k) as E by exact (lget_lset (I:=kst) _ _).
  assert (myproc (set_yk k s) = myproc s) as Ep by by rw /myproc yk_core.
  split; [by rw yk_core|by rw Ep| |done|].
  - rw Ep. by rw /= in E; rw E.
  - intros va Hu. rw Ep. rw /= in E. rw E. by apply Hpg'.
Qed.

(** What is left of [growproc] after [allocuvm] or [deallocuvm]. *)
Definition grow_rest (n sz : Z) : M sys Z :=
  if negb (n =? 0) && (sz =? 0) then mret (-1) else
  upd_proc (w_sz sz);; p ← gets myproc; lift (switchuvm p);; mret 0.

Lemma grow_up F X s sz n :
  uspace F X sz s → 0 < n → sz + n ≤ 2 ^ 47 →
  ∃ r k F', allocuvm kend (p_pgdir (myproc s)) sz (sz + n) (yk s) = Ret r k ∧ same (yk s) k ∧
    vspace kend F' (p_pgdir (myproc s)) X k ∧ (r = sz + n ∨ r = 0) ∧
    ∀ va, uaddr va → has PTE_P (pt k (p_pgdir (myproc s)) va) =
      bool_decide (pages PGSIZE (if r =? 0 then sz else sz + n) (va / PGSIZE)).
Proof.
  intros [_ Hsz Hv Hr Hpg] Hn Hmax.
  destruct (alloc_run kend Hend F (p_pgdir (myproc s)) X (yk s) sz (sz + n) Hv) as (r & k & F' & Hrun & Hv' & Hor); [plia|lia| |].
  { intros va Hu HP. rw Hpg //. apply bool_decide_eq_false. rw /pages in HP |- *. lia. }
  exists r, k, F'. split; [done|]. destruct Hor as [[-> [G1 G2 G3 _ _ _ _]]|(-> & _ & [R1 R2 R3 _ _])].
  - split_and!; [done|done|by left|]. intros va Hu. destruct (Z.eqb_spec (sz + n) 0); [plia|].
    destruct (decide (pages sz (sz + n) (va / PGSIZE))) as [HP|HP].
    + destruct (G2 va Hu HP) as (q & _ & Hq & -> & _). destruct (page_pte_ok kend q (uw (va / PGSIZE)) Hq (uw_range _)) as [-> _].
      symmetry. apply bool_decide_eq_true. rw /pages in HP |- *. plia.
    + rw G3 // Hpg //. apply bool_decide_ext. rw /pages in HP |- *. lia.
  - split_and!; [done|done|by right|]. intros va Hu. destruct (decide (pages sz (sz + n) (va / PGSIZE))) as [HP|HP].
    + rw R2 //. symmetry. apply bool_decide_eq_false. rw /pages in HP |- *. simpl. lia.
    + rw R3 // Hpg //.
Qed.

Lemma grow_down F X s sz n :
  uspace F X sz s → n < 0 → 0 ≤ sz + n →
  ∃ k F', deallocuvm kend (p_pgdir (myproc s)) sz (sz + n) (yk s) = Ret (sz + n) k ∧ same (yk s) k ∧
    vspace kend F' (p_pgdir (myproc s)) X k ∧
    ∀ va, uaddr va → has PTE_P (pt k (p_pgdir (myproc s)) va) = bool_decide (pages PGSIZE (sz + n) (va / PGSIZE)).
Proof.
  intros [_ Hsz Hv Hr Hpg] Hn Hmin.
  destruct (dealloc_ok kend Hend F (p_pgdir (myproc s)) X (yk s) sz (sz + n) Hv) as (k & F' & Hrun & Hv' & [U1 U2 U3 _ _ _ _ _]); [lia|lia|].
  exists k, F'. split_and!; [done|done|done|]. intros va Hu. destruct (decide (pages (sz + n) sz (va / PGSIZE))) as [HP|HP].
  - rw U2 // /clear. destruct (has PTE_P (pt (yk s) _ va)) eqn:E; [|rw E]; symmetry; apply bool_decide_eq_false; rw /pages in HP |- *; lia.
  - rw U3 // Hpg //. apply bool_decide_ext. rw /pages in HP |- *. lia.
Qed.

(** No page of the user is left. *)
Definition bare s s' : Prop := ∀ va, uaddr va → has PTE_P (pt (yk s') (p_pgdir (myproc s)) va) = false.

Lemma bare_pages k s s' n :
  y_mem s' = k_mem k → n < PGSIZE →
  (∀ va, uaddr va → has PTE_P (pt k (p_pgdir (myproc s)) va) = bool_decide (pages PGSIZE n (va / PGSIZE))) → bare s s'.
Proof.
  intros E Hn Hpg va Hva. rw /pt. change (k_mem (yk s')) with (y_mem s'). rw E. fold (pt k (p_pgdir (myproc s)) va).
  rw Hpg //. apply bool_decide_eq_false. rw /pages. plia.
Qed.

(** The new size keeps the first page. *)
Lemma grow_run F X s sz n :
  uspace F X sz s → PGSIZE ≤ sz + n ≤ 2 ^ 47 →
  total (growproc kend n) s (λ r s', ∃ F',
    (r = 0 ∧ uspace F' X (sz + n) s' ∧ g_cr3 (y_vm s') = V2P (p_pgdir (myproc s))) ∨
    (r = -1 ∧ 0 < n ∧ uspace F' X sz s' ∧ ycore s' = ycore s)).
Proof.
  intros Hu Hn. pose proof Hu as [Hc Hsz Hv Hr Hpg].
  assert (∀ k F', same (yk s) k → vspace kend F' (p_pgdir (myproc s)) X k →
    (∀ va, uaddr va → has PTE_P (pt k (p_pgdir (myproc s)) va) = bool_decide (pages PGSIZE (sz + n) (va / PGSIZE))) →
    total (grow_rest n (sz + n)) (set_yk k s) (λ r s', ∃ F',
      (r = 0 ∧ uspace F' X (sz + n) s' ∧ g_cr3 (y_vm s') = V2P (p_pgdir (myproc s))) ∨
      (r = -1 ∧ 0 < n ∧ uspace F' X sz s' ∧ ycore s' = ycore s))) as Hok.
  { intros k F' Hk Hv' Hpg'. destruct (grow_uspace F X F' sz (sz + n) k s Hu Hk Hn Hv' Hpg') as (s' & Hrun & Hu' & Hrs).
    exists 0, s'. split; [|exists F'; left; split_and!; [done|done|apply Hrs]].
    rw /grow_rest. destruct (Z.eqb_spec (sz + n) 0); [plia|]. rw andb_false_r. exact Hrun. }
  rw /growproc. apply total_gets_bind. cbv zeta. rw Hsz u64_small; [plia|].
  destruct (Z.ltb_spec 0 n); [|destruct (Z.ltb_spec n 0)].
  - destruct (grow_up F X s sz n Hu) as (r & k & F' & Hrun & Hk & Hv' & Hor & Hpg'); [done|lia|].
    eapply total_run; [by apply run_lift|]. destruct Hor as [Hr1|Hr1]; subst r.
    + apply (Hok k F'); [done|done|]. intros va Hva. rw Hpg' //. by destruct (Z.eqb_spec (sz + n) 0); [plia|].
    + exists (-1), (set_yk k s). split; [destruct (Z.eqb_spec n 0); [lia|reflexivity]|]. exists F'. right.
      split_and!; [done|done|by eapply uspace_mem|by apply yk_core].
  - destruct (grow_down F X s sz n Hu) as (k & F' & Hrun & Hk & Hv' & Hpg'); [done|plia|].
    eapply total_run; [by apply run_lift|]. by apply (Hok k F').
  - assert (n = 0) as -> by lia. apply total_ret_bind. rw -{1}(lset_lget (I:=kst) s). rw Z.add_0_r in Hok |- *.
    by apply (Hok (yk s) F).
Qed.

(** It does not: everything is freed, and a size of 0 is taken for a failure. *)
Lemma shrink_run F X s sz n :
  uspace F X sz s → 0 ≤ sz + n < PGSIZE →
  total (growproc kend n) s (λ r s', bare s s' ∧
    (r = 0 ∧ 0 < sz + n ∧ p_sz (myproc s') = sz + n ∧ g_cr3 (y_vm s') = V2P (p_pgdir (myproc s)) ∨
     r = -1 ∧ sz + n = 0 ∧ ycore s' = ycore s ∧ y_vm s' = y_vm s)).
Proof.
  intros Hu Hn. pose proof Hu as [(i & Hc & Hi) Hsz Hv Hr Hpg]. rw /growproc. apply total_gets_bind. cbv zeta. rw Hsz u64_small; [plia|].
  destruct (Z.ltb_spec 0 n); [plia|]. destruct (Z.ltb_spec n 0); [|plia].
  destruct (grow_down F X s sz n Hu) as (k & F' & Hrun & Hk & Hv' & Hpg'); [done|lia|].
  eapply total_run; [by apply run_lift|]. destruct (Z.eqb_spec n 0); [lia|]. cbn [negb andb].
  destruct (Z.eqb_spec (sz + n) 0) as [E|E].
  - exists (-1), (set_yk k s). split; [reflexivity|]. split; [by apply (bare_pages k s _ (sz + n)); [|lia|]|]. right.
    split_and!; [done|done|by apply yk_core|by destruct Hk].
  - pose proof (kpage_pos _ _ (tree_self _ _ _ _ _ (vs_tree _ _ _ _ _ Hv))) as Hpos.
    destruct (grow_finish (sz + n) k s i Hc Hi) as (s' & Hr' & Hrs); [by destruct Hk|lia|].
    exists 0, s'. split; [exact Hr'|]. destruct Hrs as [R1 R2 R3 R4]. split; [by apply (bare_pages k s _ (sz + n)); [|lia|]|].
    left. split_and!; [done|lia| |done]. destruct (lookup_lt_is_Some_2 _ _ Hi) as [q Hq].
    rw /myproc /cur_proc (R3 i Hc) /= Hc. by rw !list_lookup_total_alt list_lookup_alter Hq /= decide_True.
Qed.

(** A size below 0 wraps around: nothing is freed. *)
Lemma shrink_wraps F X s sz n :
  uspace F X sz s → - 2 ^ 63 ≤ n → sz + n < 0 → total (growproc kend n) s (λ r s', r = 0 ∧ uspace F X sz s').
Proof.
  intros Hu Hn Hneg. pose proof Hu as [(i & Hc & Hi) Hsz Hv Hr Hpg]. rw /growproc. apply total_gets_bind. cbv zeta. rw Hsz.
  destruct (Z.ltb_spec 0 n); [plia|]. destruct (Z.ltb_spec n 0); [|plia].
  assert (u64 (sz + n) = sz + n + 2 ^ 64) as -> by (rw /u64; plia).
  assert (deallocuvm kend (p_pgdir (myproc s)) sz (sz + n + 2 ^ 64) (yk s) = Ret sz (yk s)) as Hd.
  { rw /deallocuvm Z.geb_leb. by destruct (Z.leb_spec sz (sz + n + 2 ^ 64)); [|plia]. }
  eapply total_run; [by apply run_lift|]. destruct (Z.eqb_spec sz 0); [plia|]. rw andb_false_r.
  destruct (grow_uspace F X F sz sz (yk s) s Hu) as (s' & Hr' & Hu' & _); [done|done|done|done|]. by exists 0, s'.
Qed.

(** C9: [growproc] for every change of the size up to 2^47 bytes.  If at least the
    first page remains, the process has exactly the pages of its new size and the
    page table is reloaded; when the memory runs out it keeps the pages it had, and
    -1 is returned.  Shrinking into the first page frees every page; to 0, it does
    so as well, but reports a failure and leaves the size.  Below 0 it reports
    success and changes nothing. *)
Theorem growproc_correct F X s sz n :
  uspace F X sz s → - 2 ^ 63 ≤ n → sz + n ≤ 2 ^ 47 →
  total (growproc kend n) s (λ r s',
    (PGSIZE ≤ sz + n ∧ ∃ F',
      (r = 0 ∧ uspace F' X (sz + n) s' ∧ g_cr3 (y_vm s') = V2P (p_pgdir (myproc s)) ∨
       r = -1 ∧ 0 < n ∧ uspace F' X sz s' ∧ ycore s' = ycore s)) ∨
    (0 ≤ sz + n < PGSIZE ∧ bare s s' ∧
      (r = 0 ∧ 0 < sz + n ∧ p_sz (myproc s') = sz + n ∧ g_cr3 (y_vm s') = V2P (p_pgdir (myproc s)) ∨
       r = -1 ∧ sz + n = 0 ∧ ycore s' = ycore s ∧ y_vm s' = y_vm s)) ∨
    (sz + n < 0 ∧ r = 0 ∧ uspace F X sz s')).
Proof.
  intros Hu Hn Hmax. destruct (Z.lt_ge_cases (sz + n) 0); [|destruct (Z.lt_ge_cases (sz + n) PGSIZE)].
  - eapply total_mono; [by apply (shrink_wraps F X s sz n)|]. cbv beta. tauto.
  - eapply total_mono; [by apply (shrink_run F X s sz n)|]. cbv beta. tauto.
  - eapply total_mono; [by apply (grow_run F X s sz n)|]. cbv beta. intros r s' H'. left. split; [done|]. exact H'.
Qed.

(** ** Reading user memory *)

Definition user_byte s (va : Z) : Z := nthZ (y_mem s !!! child (pt (yk s) (p_pgdir (myproc s)) va)) (va mod PGSIZE).

Lemma ubyte_ok F X sz s va :
  uspace F X sz s → PGSIZE ≤ va < sz → ubyte (p_pgdir (myproc s)) va (yk s) = Ret (user_byte s va) (yk s).
Proof.
  intros [_ _ Hv Hr Hpg] Hva. assert (uaddr va) as Hu by (rw /uaddr; plia). set (a := p_pgdir (myproc s)) in *.
  assert (has PTE_P (pt (yk s) a va) = true) as Hp by (rw Hpg //; apply bool_decide_eq_true; rw /pages; plia).
  destruct (present_leaf kend F a X (yk s) va Hv Hu Hp) as (Hkq & _). set (q := child (pt (yk s) a va)) in *.
  assert (va2ka a va (yk s) = Ret (q + va mod PGSIZE) (yk s)) as Hka.
  { rw /va2ka Z.geb_leb. destruct (Z.leb_spec KERNBASE va); [plia|]. erewrite run_bind; [|by eapply walk_get].
    destruct (walk 4 (k_mem (yk s)) a va) as [e|] eqn:Hw; [|by rw (pt_none _ _ _ Hw) in Hp].
    destruct (pte_access kend F a X (yk s) va e Hv Hu Hw) as (He & Hrd & _). cbn [from_option id default].
    destruct (Z.eqb_spec e 0); [done|]. erewrite run_bind; [|exact Hrd]. rw Hp. reflexivity. }
  assert (pagebase (q + va mod PGSIZE) = q ∧ (q + va mod PGSIZE) mod PGSIZE = va mod PGSIZE) as [E1 E2].
  { destruct Hkq as [Hal _ _]. clearbody q. rw /pagebase. plia. }
  rw /ubyte. erewrite run_bind; [|exact Hka]. rw E1 E2.
  destruct (kr_lookup kend F (yk s) q (vs_k _ _ _ _ _ Hv) Hkq) as [Hl _].
  erewrite run_bind; [|rw /getpage Hl; reflexivity]. reflexivity.
Qed.

(** The string [l], without its NUL, is at [addr] in the memory of the process. *)
Definition ustring_at s (addr : Z) (l : list Z) : Prop :=
  (∀ i b, l !! i = Some b → b ≠ 0 ∧ user_byte s (addr + Z.of_nat i) = b) ∧ user_byte s (addr + lenZ l) = 0.

Lemma ustring_ok F X sz s n lo :
  uspace F X sz s → PGSIZE ≤ lo → Z.max 0 (sz - lo) < Z.of_nat n →
  ∃ r, ustring n (p_pgdir (myproc s)) lo sz (yk s) = Ret r (yk s) ∧
    match r with
    | Some l => ustring_at s lo l ∧ lo + lenZ l < sz
    | None => ∀ a, lo ≤ a < sz → user_byte s a ≠ 0
    end.
Proof.
  intros Hu. revert lo. induction n as [|n IH]; intros lo Hlo Hn; [lia|]. cbn [ustring].
  destruct (Z.ltb_spec lo sz) as [Hlt|]; [|exists None; split; [done|lia]].
  erewrite run_bind; [|by eapply ubyte_ok]. destruct (Z.eqb_spec (user_byte s lo) 0) as [E|E].
  { exists (Some []). split; [done|]. split; [|simpl; lia]. split; [done|]. by rw Z.add_0_r. }
  destruct (IH (lo + 1)) as (r & Hr & Hres); [lia|lia|]. erewrite run_bind; [|exact Hr].
  eexists. split; [reflexivity|]. destruct r as [l|].
  - destruct Hres as [[H1 H2] H3]. rw length_cons. split; [split|lia].
    + intros [|i] b; [intros [= <-]; split; [done|by rw Z.add_0_r]|]. intros Hb. destruct (H1 i b Hb) as [? Hi]. split; [done|].
      etrans; [|exact Hi]. f_equal. lia.
    + etrans; [|exact H2]. f_equal. rw length_cons. lia.
  - intros a Ha. destruct (decide (a = lo)) as [->|]; [done|]. apply Hres. lia.
Qed.

(** C26: [fetchstr] returns the string at an address of the process when its NUL is
    inside the process, reads nothing outside of it and changes nothing; an
    address past the end is refused.  An address in the first page, which is
    never mapped, passes the check and faults in the kernel. *)
Theorem fetchstr_correct F X sz s addr :
  uspace F X sz s → 0 ≤ addr →
  (sz ≤ addr → fetchstr addr s = Ret None s) ∧
  (PGSIZE ≤ addr < sz → ∃ r, fetchstr addr s = Ret r s ∧
    match r with
    | Some l => ustring_at s addr l ∧ addr + lenZ l < sz
    | None => ∀ a, addr ≤ a < sz → user_byte s a ≠ 0
    end) ∧
  (addr < PGSIZE → fetchstr addr s = Fault s).
Proof.
  intros Hu Ha. pose proof Hu as [_ Hsz Hv Hr Hpg]. rw /fetchstr. split_and!.
  - intros Hge. rw run_gets Hsz Z.geb_leb. by destruct (Z.leb_spec sz addr); [|lia].
  - intros Hin. rw run_gets Hsz Z.geb_leb. destruct (Z.leb_spec sz addr); [lia|].
    destruct (ustring_ok F X sz s (Z.to_nat (sz - addr) + 1) addr Hu) as (r & Hrun & Hres); [lia|lia|].
    exists r. split; [|done]. rw (run_lift _ _ _ _ Hrun). by rw (lset_lget (I:=kst)).
  - intros Hlt. rw run_gets Hsz Z.geb_leb. destruct (Z.leb_spec sz addr); [plia|].
    assert (uaddr addr) as Hua by (rw /uaddr; plia). set (a := p_pgdir (myproc s)) in *.
    assert (has PTE_P (pt (yk s) a addr) = false) as Hp by (rw Hpg //; apply bool_decide_eq_false; rw /pages; plia).
    assert (va2ka a addr (yk s) = Fault (yk s)) as Hf.
    { rw /va2ka Z.geb_leb. destruct (Z.leb_spec KERNBASE addr); [plia|]. erewrite run_bind; [|by eapply walk_get].
      destruct (walk 4 (k_mem (yk s)) a addr) as [e|] eqn:Hw; [|done].
      destruct (pte_access kend F a X (yk s) addr e Hv Hua Hw) as (He & Hrd & _). cbn [from_option id default].
      destruct (Z.eqb_spec e 0); [done|]. erewrite run_bind; [|exact Hrd]. by rw Hp. }
    rw Nat.add_1_r. cbn [ustring]. destruct (Z.ltb_spec addr sz); [|plia].
    rw /lift /ubyte {1}/mbind {1}/M_bind {1}/mbind {1}/M_bind. cbn [lget sys_kst]. rw Hf. cbn [bindo lset]. f_equal. exact (lset_lget (I:=kst) s).
Qed.

(** ** Pointers into the kernel *)

(** [argptr] checks only the lower half of a pointer: a process that passes an
    address of the kernel gets it accepted, and the store of the system call
    goes to the kernel's page. *)
Theorem argptr_kernel_write s n a size b d :
  fetcharg n s = Some a → KERNBASE ≤ a < 2 ^ 64 → 0 ≤ size → a - KERNBASE < p_sz (myproc s) → a - KERNBASE + size ≤ p_sz (myproc s) < 2 ^ 32 →
  y_mem s !! pagebase a = Some d →
  total (r ← argptr n size; match r with Some p => lift (uwrite (p_pgdir (myproc s)) p [b]) | None => fault end) s
    (λ _ s', y_mem s' = <[pagebase a := setZ (a mod PGSIZE) b d]> (y_mem s)).
Proof.
  intros Hf Ha Hs H1 H2 Hd.
  assert (argptr n size s = Ret (Some a) s) as Hp.
  { rw /argptr /argaddr run_assoc run_gets Hf. change (Ret (if argptr_ok a size (p_sz (myproc s)) then Some a else None) s = Ret (Some a) s).
    assert (argptr_ok a size (p_sz (myproc s)) = true) as -> by (rw /argptr_ok /u32; plia). done. }
  eapply total_run; [exact Hp|]. eexists tt, _. split; [apply run_lift|].
  - cbn [uwrite]. rw /set_ubyte run_assoc. erewrite run_bind; last first.
    { rw /va2ka Z.geb_leb. destruct (Z.leb_spec KERNBASE a); [reflexivity|lia]. }
    rw run_assoc. erewrite run_bind; [|rw /getpage /= Hd; reflexivity].
    erewrite run_bind; [reflexivity|]. rw /putpage /= Hd. reflexivity.
  - done.
Qed.
End mem.
