(* ===== verification/Exec.v ===== *)
(** * Loading programs: [loaduvm] of vm.c, exec.c *)

From S2P Require Import Prelude CString Layout Kernel Kalloc Vm Store Fs Pipe Sys File Proc.

Definition ELF_MAGIC : Z := 0x464C457F.
Definition ELF_PROG_LOAD : Z := 1.
Definition MAXARG : Z := 32.
Definition sizeof_elfhdr : Z := 64.
Definition sizeof_proghdr : Z := 56.

(** The fields of [struct elfhdr] and [struct proghdr] that are used. *)
Definition elf_magic (d : list Z) : Z := load32 0 d.
Definition elf_entry (d : list Z) : Z := load64 24 d.
Definition elf_phoff (d : list Z) : Z := load64 32 d.
Definition elf_phnum (d : list Z) : Z := load16 56 d.
Definition ph_type (d : list Z) : Z := load32 0 d.
Definition ph_off (d : list Z) : Z := load64 8 d.
Definition ph_vaddr (d : list Z) : Z := load64 16 d.
Definition ph_filesz (d : list Z) : Z := load64 32 d.
Definition ph_memsz (d : list Z) : Z := load64 40 d.

(** The name saved for debugging: what follows the last slash. *)
Fixpoint last_elem (s last : list Z) : list Z :=
  match s with
  | [] => last
  | c :: s => if c =? 47 then last_elem s s else last_elem s last
  end.

Section exec.
Context {S : Type} `{!Lens S core, !BlockStore S} (kend : Z).
Context (dev_read : Z → option (nat → Z → Z → M (fst_state S) (Z * list Z))).

Abbreviation sys := (sys S).
Abbreviation fst := (fst_state S).
Abbreviation K := (lift (O:=sys) (I:=kst)).
Abbreviation F := (lift (O:=sys) (I:=fst)).

(** Sizes and offsets are [uint]s. *)
Fixpoint loaduvm_loop (fuel : nat) (pgdir addr : Z) (ip : nat) (offset sz i : Z) : M sys Z :=
  match fuel with
  | O => diverge
  | Datatypes.S fuel =>
    if i <? sz then
      pte ← K (walkpgdir pgdir (u64 (addr + i)) false);
      if pte =? 0 then panic "loaduvm: address should exist" else
      v ← K (rd64 pte);
      let pa := PTE_ADDR v in
      let n := if u32 (sz - i) <? PGSIZE then u32 (sz - i) else PGSIZE in
      r ← F (readi dev_read ip (u32 (offset + i)) n);
      d ← K (getpage (P2V pa));
      K (putpage (P2V pa) (splice 0 r.2 d));;
      if negb (u32 r.1 =? n) then mret (-1) else
      loaduvm_loop fuel pgdir addr ip offset sz (u32 (i + PGSIZE))
    else mret 0
  end.

Definition loaduvm (pgdir addr : Z) (ip : nat) (offset sz : Z) : M sys Z :=
  if negb (addr mod PGSIZE =? 0) then panic "loaduvm: addr must be page aligned" else
  loaduvm_loop (Z.to_nat (sz / PGSIZE) + 2) pgdir addr ip offset sz 0.

(** The loop of [exec] over the program headers: the new size, or [None]
    for [goto bad]. *)
Fixpoint exec_load (n : nat) (pgdir : Z) (ip : nat) (off sz : Z) : M sys (option Z) :=
  match n with
  | O => mret (Some sz)
  | Datatypes.S n =>
    r ← F (readi dev_read ip (u32 off) sizeof_proghdr);
    if negb (r.1 =? sizeof_proghdr) then mret None else
    let ph := r.2 in
    if negb (ph_type ph =? ELF_PROG_LOAD) then exec_load n pgdir ip (i32 (off + sizeof_proghdr)) sz else
    if ph_memsz ph <? ph_filesz ph then mret None else
    if u64 (ph_vaddr ph + ph_memsz ph) <? ph_vaddr ph then mret None else
    sz ← K (allocuvm kend pgdir sz (u64 (ph_vaddr ph + ph_memsz ph)));
    if sz =? 0 then mret None else
    if negb (ph_vaddr ph mod PGSIZE =? 0) then mret None else
    r ← loaduvm pgdir (ph_vaddr ph) ip (u32 (ph_off ph)) (u32 (ph_filesz ph));
    if r <? 0 then mret None else
    exec_load n pgdir ip (i32 (off + sizeof_proghdr)) sz
  end.

(** Push the argument strings: the stack pointer and their addresses. *)
Fixpoint exec_args (argv : list (list Z)) (pgdir sp argc : Z) (ustack : list Z) : M sys (option (Z * list Z)) :=
  match argv with
  | [] => mret (Some (sp, ustack))
  | a :: argv =>
    if argc >=? MAXARG then mret None else
    let sp := Z.land (u64 (sp - (lenZ a + 1))) (u64 (Z.lnot 7)) in
    r ← K (copyout pgdir sp (a ++ [0]));
    if r <? 0 then mret None else
    exec_args argv pgdir sp (argc + 1) (ustack ++ [sp])
  end.

Definition w_args (di si : Z) (t : trapframe) : trapframe :=
  mkTf (rax t) (rbx t) (rcx t) (rdx t) (rbp t) si di (r8 t) (r9 t) (r10 t) (r11 t) (r12 t) (r13 t) (r14 t) (r15 t)
    (trapno t) (err t) (rip t) (cs t) (rflags t) (rsp t) (ss t).
Definition w_entry (entry sp : Z) (t : trapframe) : trapframe :=
  mkTf (rax t) (rbx t) entry (rdx t) (rbp t) (rsi t) (rdi t) (r8 t) (r9 t) (r10 t) (r11 t) (r12 t) (r13 t) (r14 t) (r15 t)
    (trapno t) (err t) entry (cs t) (rflags t) sp (ss t).

(** [bad:] after the file was closed, or with it. *)
Definition exec_bad (pgdir : Z) (ip : option nat) : M sys Z :=
  when (negb (pgdir =? 0)) (K (freevm kend pgdir));;
  match ip with
  | Some ip => F (iunlockput ip);; yend_op
  | None => mret tt
  end;;
  mret (-1).

(** [exec] after the program is loaded, with the file closed. *)
Definition exec_commit (path : list Z) (argv : list (list Z)) (elf : list Z) (pgdir sz : Z) : M sys Z :=
  let sz := PGROUNDUP sz in
  sz ← K (allocuvm kend pgdir sz (u64 (sz + 2 * PGSIZE)));
  if sz =? 0 then exec_bad pgdir None else
  K (clearpteu pgdir (u64 (sz - 2 * PGSIZE)));;
  r ← exec_args argv pgdir sz 0 [];
  match r with
  | None => exec_bad pgdir None
  | Some (sp, ptrs) =>
    let argc := lenZ ptrs in
    let ustack := concat (le_encode 8 <$> ([u64 (-1)] ++ ptrs ++ [0])) in
    upd_proc (λ p, w_tf (w_args argc (u64 (sp - (argc + 1) * 8)) (p_tf p)) p);;
    let sp := u64 (sp - (1 + argc + 1) * 8) in
    r ← K (copyout pgdir sp ustack);
    if r <? 0 then exec_bad pgdir None else
    upd_proc (λ p, w_name (splice 0 (safestrcpy (nthZ (last_elem path path ++ [0])) 16) (p_name p)) p);;
    old ← gets (λ s : sys, p_pgdir (myproc s));
    upd_proc (λ p, w_tf (w_entry (elf_entry elf) sp (p_tf p)) (w_sz sz (w_pgdir pgdir p)));;
    p ← gets myproc;
    K (switchuvm p);;
    K (freevm kend old);;
    mret 0
  end.

Definition exec (path : list Z) (argv : list (list Z)) : M sys Z :=
  ybegin_op;;
  r ← F (namei dev_read path);
  match r with
  | None => yend_op;; mret (-1)
  | Some ip =>
    F (ilock (Some ip));;
    r ← F (readi dev_read ip 0 sizeof_elfhdr);
    if negb (r.1 =? sizeof_elfhdr) then exec_bad 0 (Some ip) else
    let elf := r.2 in
    if negb (elf_magic elf =? ELF_MAGIC) then exec_bad 0 (Some ip) else
    pgdir ← K setupkvm;
    if pgdir =? 0 then exec_bad 0 (Some ip) else
    r ← exec_load (Z.to_nat (elf_phnum elf)) pgdir ip (i32 (elf_phoff elf)) PGSIZE;
    match r with
    | None => exec_bad pgdir (Some ip)
    | Some sz =>
      F (iunlockput ip);;
      yend_op;;
      exec_commit path argv elf pgdir sz
    end
  end.

End exec.
