(* ===== verification/Sysfile.v ===== *)
(** * System calls on files: sysfile.c, and the table of system calls of
    syscall.c *)

From S2P Require Import Prelude CString Layout Kernel Kalloc Vm Store Fs Pipe Sys File Proc Syscall Exec.

Definition O_RDONLY : Z := 0x000.
Definition O_WRONLY : Z := 0x001.
Definition O_RDWR : Z := 0x002.
Definition O_CREATE : Z := 0x200.

Definition sizeof_stat : Z := 20.

(** The stores of [stati] into a [struct stat] at [p]: runs of fields between
    the padding. *)
Definition put_stat (pgdir p : Z) (st : stat) : M kst unit :=
  uwrite pgdir p (le_encode 2 (st_type st));;
  uwrite pgdir (u64 (p + 4)) (le_encode 4 (st_dev st) ++ le_encode 4 (st_ino st) ++ le_encode 2 (st_nlink st));;
  uwrite pgdir (u64 (p + 16)) (le_encode 4 (st_fsize st)).

Section sysfile.
Context {S : Type} `{!Lens S core, !BlockStore S} (kend : Z).
Context (dev_read : Z → option (nat → Z → Z → M (fst_state S) (Z * list Z))).
Context (dev_write : Z → option (nat → Z → list Z → M (fst_state S) Z)).

Abbreviation sys := (sys S).
Abbreviation fst := (fst_state S).
Abbreviation K := (lift (O:=sys) (I:=kst)).
Abbreviation F := (lift (O:=sys) (I:=fst)).

(** ** Descriptors *)

(** The descriptor and its file. *)
Definition argfd (n : Z) : M sys (option (Z * nat)) :=
  fd ← argint n;
  p ← gets myproc;
  mret (if (fd <? 0) || (fd >=? Z.of_nat NOFILE) then None
        else match p_ofile p !!! Z.to_nat fd with Some f => Some (fd, f) | None => None end).

(** The first free descriptor from [fd] on. *)
Fixpoint fd_find (n : nat) (fd : nat) (ofile : list (option nat)) : option nat :=
  match n with
  | O => None
  | Datatypes.S n => if bool_decide (ofile !!! fd = None) then Some fd else fd_find n (Datatypes.S fd) ofile
  end.

Definition fdalloc (f : nat) : M sys Z :=
  p ← gets myproc;
  match fd_find NOFILE 0 (p_ofile p) with
  | Some fd => upd_proc (λ p, w_ofile (<[fd := Some f]> (p_ofile p)) p);; mret (Z.of_nat fd)
  | None => mret (-1)
  end.

Definition fdclear (fd : Z) : M sys unit :=
  upd_proc (λ p, w_ofile (<[Z.to_nat fd := None]> (p_ofile p)) p).

Definition sys_dup : M sys Z :=
  r ← argfd 0;
  match r with
  | None => mret (-1)
  | Some (_, f) =>
    fd ← fdalloc f;
    if fd <? 0 then mret (-1) else
    filedup f;;
    mret fd
  end.

(** A descriptor, a buffer and its size. *)
Definition argbuf : M sys (option (nat * Z * Z)) :=
  r ← argfd 0;
  match r with
  | None => mret None
  | Some (_, f) =>
    n ← argint 2;
    p ← argptr 1 n;
    mret (match p with Some p => Some (f, p, n) | None => None end)
  end.

Definition sys_read : M sys Z :=
  r ← argbuf;
  match r with
  | None => mret (-1)
  | Some (f, p, n) =>
    d ← fileread dev_read f n;
    q ← gets myproc;
    K (uwrite (p_pgdir q) p d.2);;
    mret d.1
  end.

Definition sys_write : M sys Z :=
  r ← argbuf;
  match r with
  | None => mret (-1)
  | Some (f, p, n) =>
    q ← gets myproc;
    d ← K (uread (Z.to_nat n) (p_pgdir q) p);
    filewrite dev_write f d n
  end.

Definition sys_close : M sys Z :=
  r ← argfd 0;
  match r with
  | None => mret (-1)
  | Some (fd, f) =>
    fdclear fd;;
    fileclose kend f;;
    mret 0
  end.

Definition sys_fstat : M sys Z :=
  r ← argfd 0;
  match r with
  | None => mret (-1)
  | Some (_, f) =>
    p ← argptr 1 sizeof_stat;
    match p with
    | None => mret (-1)
    | Some p =>
      r ← filestat f;
      q ← gets myproc;
      match r.2 with
      | Some st => K (put_stat (p_pgdir q) p st)
      | None => mret tt
      end;;
      mret r.1
    end
  end.

(** ** Names *)

Fixpoint isdirempty_loop (fuel : nat) (dp : nat) (off : Z) : M fst bool :=
  match fuel with
  | O => diverge
  | Datatypes.S fuel =>
    i ← gets (nin dp);
    if off <? i_size i then
      r ← readi dev_read dp off sizeof_dirent;
      if negb (r.1 =? sizeof_dirent) then panic "isdirempty: readi" else
      if negb (de_inum r.2 =? 0) then mret false
      else isdirempty_loop fuel dp (off + sizeof_dirent)
    else mret true
  end.

Definition isdirempty (dp : nat) : M fst bool :=
  i ← gets (nin dp);
  isdirempty_loop (nentries (i_size i)) dp (2 * sizeof_dirent).

Definition add_nlink (d : Z) (i : inode) : inode := w_meta (i_major i) (i_minor i) (i16 (i_nlink i + d)) i.

Definition name0 : list Z := replicate (Z.to_nat DIRSIZ) 0.

(** [sys_link] after [bad:] *)
Definition link_bad (ip : nat) : M sys Z :=
  F (ilock (Some ip));;
  F (modify (iupd ip (add_nlink (-1))));;
  F (iupdate ip);;
  F (iunlockput ip);;
  yend_op;;
  mret (-1).

Definition sys_link : M sys Z :=
  old ← argstr 0;
  match old with
  | None => mret (-1)
  | Some old =>
    new ← argstr 1;
    match new with
    | None => mret (-1)
    | Some new =>
      ybegin_op;;
      ip ← F (namei dev_read old);
      match ip with
      | None => yend_op;; mret (-1)
      | Some ip =>
        F (ilock (Some ip));;
        i ← F (gets (nin ip));
        if i_type i =? T_DIR then F (iunlockput ip);; yend_op;; mret (-1) else
        F (modify (iupd ip (add_nlink 1)));;
        F (iupdate ip);;
        F (iunlock (Some ip));;
        dp ← F (nameiparent dev_read new name0);
        match dp with
        | (None, _) => link_bad ip
        | (Some dp, name) =>
          F (ilock (Some dp));;
          d ← F (gets (nin dp));
          i ← F (gets (nin ip));
          r ← (if negb (i_dev d =? i_dev i) then mret (-1)
               else F (dirlink dev_read dev_write dp name (i_inum i)));
          if r <? 0 then F (iunlockput dp);; link_bad ip else
          F (iunlockput dp);;
          F (iput ip);;
          yend_op;;
          mret 0
        end
      end
    end
  end.

(** [sys_unlink] after [bad:] *)
Definition unlink_bad (dp : nat) : M sys Z :=
  F (iunlockput dp);; yend_op;; mret (-1).

Definition dot : list Z := [46; 0].
Definition dotdot : list Z := [46; 46; 0].

Definition sys_unlink : M sys Z :=
  path ← argstr 0;
  match path with
  | None => mret (-1)
  | Some path =>
    ybegin_op;;
    dp ← F (nameiparent dev_read path name0);
    match dp with
    | (None, _) => yend_op;; mret (-1)
    | (Some dp, name) =>
      F (ilock (Some dp));;
      if (namecmp name dot =? 0) || (namecmp name dotdot =? 0) then unlink_bad dp else
      r ← F (dirlookup dev_read dp name);
      match r with
      | None => unlink_bad dp
      | Some (ip, off) =>
        F (ilock (Some ip));;
        i ← F (gets (nin ip));
        if i_nlink i <? 1 then panic "unlink: nlink < 1" else
        e ← (if i_type i =? T_DIR then F (isdirempty ip) else mret true);
        if negb e then F (iunlockput ip);; unlink_bad dp else
        w ← F (writei dev_write dp (replicate (Z.to_nat sizeof_dirent) 0) off sizeof_dirent);
        if negb (w =? sizeof_dirent) then panic "unlink: writei" else
        when (i_type i =? T_DIR)
          (F (modify (iupd dp (add_nlink (-1))));; F (iupdate dp));;
        F (iunlockput dp);;
        F (modify (iupd ip (add_nlink (-1))));;
        F (iupdate ip);;
        F (iunlockput ip);;
        yend_op;;
        mret 0
      end
    end
  end.

(** The inode, locked. *)
Definition create (path : list Z) (type major minor : Z) : M sys (option nat) :=
  dp ← F (nameiparent dev_read path name0);
  match dp with
  | (None, _) => mret None
  | (Some dp, name) =>
    F (ilock (Some dp));;
    r ← F (dirlookup dev_read dp name);
    match r with
    | Some (ip, _) =>
      F (iunlockput dp);;
      F (ilock (Some ip));;
      i ← F (gets (nin ip));
      if (type =? T_FILE) && (i_type i =? T_FILE) then mret (Some ip) else
      F (iunlockput ip);;
      mret None
    | None =>
      d ← F (gets (nin dp));
      ip ← F (ialloc (i_dev d) type);
      F (ilock (Some ip));;
      F (modify (iupd ip (w_meta major minor 1)));;
      F (iupdate ip);;
      i ← F (gets (nin ip));
      when (type =? T_DIR)
        (F (modify (iupd dp (add_nlink 1)));;
         F (iupdate dp);;
         r ← F (dirlink dev_read dev_write ip dot (i_inum i));
         if r <? 0 then panic "create dots" else
         r ← F (dirlink dev_read dev_write ip dotdot (i_inum d));
         if r <? 0 then panic "create dots" else mret tt);;
      r ← F (dirlink dev_read dev_write dp name (i_inum i));
      if r <? 0 then panic "create: dirlink" else
      F (iunlockput dp);;
      mret (Some ip)
    end
  end.

(** [sys_open] once the inode is found and locked. *)
Definition open_inode (ip : nat) (omode : Z) : M sys Z :=
  f ← filealloc;
  match f with
  | None => F (iunlockput ip);; yend_op;; mret (-1)
  | Some f =>
    fd ← fdalloc f;
    if fd <? 0 then fileclose kend f;; F (iunlockput ip);; yend_op;; mret (-1) else
    F (iunlock (Some ip));;
    yend_op;;
    modify (fupd f (λ x, mkFile FD_INODE (f_ref x) (cbool (Z.land omode O_WRONLY =? 0))
      (cbool (negb (Z.land omode O_WRONLY =? 0) || negb (Z.land omode O_RDWR =? 0)))
      (f_pipe x) (Some ip) 0));;
    mret fd
  end.

Definition sys_open : M sys Z :=
  path ← argstr 0;
  match path with
  | None => mret (-1)
  | Some path =>
    omode ← argint 1;
    ybegin_op;;
    if negb (Z.land omode O_CREATE =? 0) then
      r ← create path T_FILE 0 0;
      match r with
      | None => yend_op;; mret (-1)
      | Some ip => open_inode ip omode
      end
    else
      r ← F (namei dev_read path);
      match r with
      | None => yend_op;; mret (-1)
      | Some ip =>
        F (ilock (Some ip));;
        i ← F (gets (nin ip));
        if (i_type i =? T_DIR) && negb (omode =? O_RDONLY) then
          F (iunlockput ip);; yend_op;; mret (-1)
        else open_inode ip omode
      end
  end.

(** The end of [sys_mkdir] and [sys_mknod]. *)
Definition made_node (r : option nat) : M sys Z :=
  match r with
  | None => yend_op;; mret (-1)
  | Some ip => F (iunlockput ip);; yend_op;; mret 0
  end.

Definition sys_mkdir : M sys Z :=
  ybegin_op;;
  path ← argstr 0;
  r ← match path with None => mret None | Some path => create path T_DIR 0 0 end;
  made_node r.

Definition sys_mknod : M sys Z :=
  ybegin_op;;
  path ← argstr 0;
  r ← match path with
      | None => mret None
      | Some path =>
        major ← argint 1;
        minor ← argint 2;
        create path T_DEV (i16 major) (i16 minor)
      end;
  made_node r.

Definition sys_chdir : M sys Z :=
  ybegin_op;;
  path ← argstr 0;
  r ← match path with None => mret None | Some path => F (namei dev_read path) end;
  match r with
  | None => yend_op;; mret (-1)
  | Some ip =>
    F (ilock (Some ip));;
    i ← F (gets (nin ip));
    if negb (i_type i =? T_DIR) then F (iunlockput ip);; yend_op;; mret (-1) else
    F (iunlock (Some ip));;
    p ← gets myproc;
    match p_cwd p with
    | None => fault
    | Some d =>
      F (iput d);;
      yend_op;;
      upd_proc (w_cwd (Some ip));;
      mret 0
    end
  end.

(** The argument vector of [sys_exec], from index [i] on. *)
Fixpoint exec_argv (n : nat) (uargv i : Z) : M sys (option (list (list Z))) :=
  match n with
  | O => mret None
  | Datatypes.S n =>
    uarg ← fetchaddr (u64 (uargv + 8 * i));
    match uarg with
    | None => mret None
    | Some uarg =>
      if uarg =? 0 then mret (Some []) else
      a ← fetchstr uarg;
      match a with
      | None => mret None
      | Some a =>
        rest ← exec_argv n uargv (i + 1);
        mret (match rest with Some l => Some (a :: l) | None => None end)
      end
    end
  end.

Definition sys_exec : M sys Z :=
  path ← argstr 0;
  match path with
  | None => mret (-1)
  | Some path =>
    uargv ← argaddr 1;
    argv ← exec_argv (Z.to_nat MAXARG) uargv 0;
    match argv with
    | None => mret (-1)
    | Some argv => exec kend dev_read path argv
    end
  end.

Definition sys_pipe : M sys Z :=
  p ← argptr 0 8;
  match p with
  | None => mret (-1)
  | Some p =>
    r ← pipealloc kend;
    match r with
    | None => mret (-1)
    | Some (rf, wf) =>
      fd0 ← fdalloc rf;
      fd1 ← (if fd0 <? 0 then mret (-1) else fdalloc wf);
      if (fd0 <? 0) || (fd1 <? 0) then
        when (fd0 >=? 0) (fdclear fd0);;
        fileclose kend rf;;
        fileclose kend wf;;
        mret (-1)
      else
        q ← gets myproc;
        K (uwrite (p_pgdir q) p (le_encode 4 fd0 ++ le_encode 4 fd1));;
        mret 0
    end
  end.

(** ** The table of system calls

    An [int] result is in the lower half of [rax], the upper half is cleared;
    [sys_sbrk] returns an address. *)
Definition syscalls (num : Z) : option (M sys Z) :=
  let int (m : M sys Z) := Some (r ← m; mret (u32 r)) in
  if num =? 1 then int (sys_fork kend) else
  if num =? 2 then int (sys_exit kend) else
  if num =? 3 then int (sys_wait kend) else
  if num =? 4 then int sys_pipe else
  if num =? 5 then int sys_read else
  if num =? 6 then int sys_kill else
  if num =? 7 then int sys_exec else
  if num =? 8 then int sys_fstat else
  if num =? 9 then int sys_chdir else
  if num =? 10 then int sys_dup else
  if num =? 11 then int sys_getpid else
  if num =? 12 then Some (sys_sbrk kend) else
  if num =? 13 then int sys_sleep else
  if num =? 14 then int sys_uptime else
  if num =? 15 then int sys_open else
  if num =? 16 then int sys_write else
  if num =? 17 then int sys_mknod else
  if num =? 18 then int sys_unlink else
  if num =? 19 then int sys_link else
  if num =? 20 then int sys_mkdir else
  if num =? 21 then int sys_close else None.

Definition syscall (tf : trapframe) : M sys unit :=
  p ← gets myproc;
  when (negb (p_killed p =? 0)) (exit kend);;
  upd_proc (w_tf tf);;
  r ← match syscalls (rax tf) with
      | Some f => f
      | None => mret (u64 (-1))
      end;
  upd_proc (λ p, w_tf (w_rax r (p_tf p)) p);;
  p ← gets myproc;
  when (negb (p_killed p =? 0)) (exit kend).

End sysfile.
