(* ===== verification/FdInv.v ===== *)
(** * Descriptors and the reference counts of open files

    The count of every file in the table is the number of descriptors, of all
    processes, that refer to it, and the free slots of the process table have no
    open descriptor.  [dup], [close] of a shared file and the loop of [fork] keep
    it so; Fork.v has [fork] as a whole. *)

From S2P Require Import Prelude Kernel Kalloc Layout Store Fs Pipe Sys File Proc Syscall Sysfile.

(** ** Counting *)

Definition cnt (k : nat) (o : list (option nat)) : nat := length (filter (λ x, x = Some k) o).
Definition fdcount (k : nat) (ps : list proc) : nat := sum_list_with (λ q, cnt k (p_ofile q)) ps.
Definition one (k : nat) (x : option nat) : nat := if decide (x = Some k) then 1%nat else 0%nat.

Lemma cnt_cons k x o : cnt k (x :: o) = (one k x + cnt k o)%nat.
Proof. rw /cnt /one filter_cons. by case_decide. Qed.

Lemma cnt_insert k o (i : nat) x y : o !! i = Some x → (cnt k (<[i := y]> o) + one k x = cnt k o + one k y)%nat.
Proof.
  revert i. induction o as [|z o IH]; intros [|i]; [done|done| |].
  - intros [= ->]. rw /= !cnt_cons. lia.
  - intros Hi. rw /= !cnt_cons. specialize (IH i Hi). lia.
Qed.

Lemma cnt_length k o : (cnt k o ≤ length o)%nat.
Proof. apply length_filter. Qed.

Lemma cnt_elem k o (i : nat) : o !! i = Some (Some k) → (1 ≤ cnt k o)%nat.
Proof. intros Hi. pose proof (cnt_insert k o i (Some k) None Hi) as H. rw /one in H. repeat case_decide; simplify_eq; lia. Qed.

Lemma sum_alter {A} (f : A → nat) (g : A → A) (l : list A) (i : nat) x :
  l !! i = Some x → (sum_list_with f (alter g i l) + f x = sum_list_with f l + f (g x))%nat.
Proof.
  revert i. induction l as [|y l IH]; intros [|i]; [done|done| |].
  - intros [= ->]. change (alter g 0%nat (x :: l)) with (g x :: l). cbn [sum_list_with]. lia.
  - intros Hi. specialize (IH i Hi). change (alter g (S i) (y :: l)) with (y :: alter g i l). cbn [sum_list_with]. lia.
Qed.

Lemma sum_elem {A} (f : A → nat) (l : list A) (i : nat) x : l !! i = Some x → (f x ≤ sum_list_with f l)%nat.
Proof. revert i. induction l as [|y l IH]; intros [|i]; [done|done|intros [= ->]|intros Hi; specialize (IH i Hi)]; simpl; lia. Qed.

Lemma sum_le {A} (f : A → nat) (l : list A) (b : nat) : (∀ x, x ∈ l → (f x ≤ b)%nat) → (sum_list_with f l ≤ length l * b)%nat.
Proof.
  induction l as [|x l IH]; intros H; [done|]. pose proof (H x ltac:(by left)). specialize (IH (λ y Hy, H y ltac:(by right))). simpl. lia.
Qed.

Section fds.
Context {S : Type} `{!Lens S core, !BlockStore S} (kend : Z).
Abbreviation sys := (sys S).
Implicit Types (s : sys) (k : nat).

(** ** The invariant *)

Record refs_ok s : Prop := {
  ro_files : length (y_files s) = NFILE;
  ro_procs : length (c_procs (ycore s)) = NPROC;
  ro_ofile i q : c_procs (ycore s) !! i = Some q → length (p_ofile q) = NOFILE;
  ro_free i q : c_procs (ycore s) !! i = Some q → p_state q = UNUSED → p_ofile q = replicate NOFILE None;
  ro_range i q (fd : nat) k : c_procs (ycore s) !! i = Some q → p_ofile q !! fd = Some (Some k) → (k < NFILE)%nat;
  ro_count k : (k < NFILE)%nat → f_ref (nfile k s) = Z.of_nat (fdcount k (c_procs (ycore s)));
}.

Lemma refs_bound s k : refs_ok s → (k < NFILE)%nat → 0 ≤ f_ref (nfile k s) ≤ 1024.
Proof.
  intros H Hk. rw (ro_count _ H) //. split; [lia|].
  assert (fdcount k (c_procs (ycore s)) ≤ length (c_procs (ycore s)) * NOFILE)%nat as Hle.
  { apply sum_le. intros q [i Hq]%list_elem_of_lookup. rw -(ro_ofile _ H i q Hq). apply cnt_length. }
  rw (ro_procs _ H) in Hle. rw /NPROC /NOFILE in Hle. lia.
Qed.

(** A reference through a descriptor. *)
Lemma refs_pos s k i q (fd : nat) :
  refs_ok s → c_procs (ycore s) !! i = Some q → p_ofile q !! fd = Some (Some k) → (k < NFILE)%nat ∧ 1 ≤ f_ref (nfile k s).
Proof.
  intros H Hq Hfd. pose proof (ro_range _ H i q fd k Hq Hfd) as Hk. split; [done|]. rw (ro_count _ H) //.
  pose proof (cnt_elem k _ fd Hfd). pose proof (sum_elem (λ q, cnt k (p_ofile q)) _ i q Hq) as Hle. rw /fdcount. simpl in Hle. lia.
Qed.

(** ** A descriptor and a count change together *)

Definition set_fd (i fd : nat) (x : option nat) (c : core) : core := pupd i (λ q, w_ofile (<[fd := x]> (p_ofile q)) q) c.

Lemma ycore_set c s : ycore (set_ycore c s) = c.
Proof. exact (lget_lset (I:=core) _ _). Qed.

Lemma nfile_fupd k j g s : (k < length (y_files s))%nat → nfile k (fupd j g s) = if decide (j = k) then g (nfile k s) else nfile k s.
Proof.
  intros Hk. destruct (lookup_lt_is_Some_2 _ _ Hk) as [f Hf].
  rw /nfile /fupd /= !list_lookup_total_alt list_lookup_alter. case_decide; [subst j|]; by rw Hf.
Qed.

Lemma set_fd_count c i q (fd : nat) x y k :
  c_procs c !! i = Some q → p_ofile q !! fd = Some x →
  (fdcount k (c_procs (set_fd i fd y c)) + one k x = fdcount k (c_procs c) + one k y)%nat.
Proof.
  intros Hq Hx. pose proof (sum_alter (λ q, cnt k (p_ofile q)) (λ q, w_ofile (<[fd := y]> (p_ofile q)) q) _ i q Hq) as H1.
  pose proof (cnt_insert k _ fd x y Hx) as H2. simpl in H1. rw /fdcount /set_fd /=. lia.
Qed.

(** Descriptor [fd] of process [i] goes from [x] to [y]. *)
Lemma refs_set_fd s files i q (fd : nat) x y :
  refs_ok s → c_procs (ycore s) !! i = Some q → p_state q ≠ UNUSED → p_ofile q !! fd = Some x → (∀ k, y = Some k → (k < NFILE)%nat) →
  length files = NFILE →
  (∀ k, (k < NFILE)%nat → f_ref (files !!! k) + Z.of_nat (one k x) = f_ref (nfile k s) + Z.of_nat (one k y)) →
  refs_ok (set_ycore (set_fd i fd y (ycore s)) (set_files files s)).
Proof.
  intros H Hq Hu Hx Hy Hlen Hf. pose proof H as [R1 R2 R3 R6 R4 R5].
  assert (∀ j q', c_procs (set_fd i fd y (ycore s)) !! j = Some q' → ∃ q0, c_procs (ycore s) !! j = Some q0 ∧
    (q' = q0 ∨ p_state q0 ≠ UNUSED ∧ q' = w_ofile (<[fd := y]> (p_ofile q0)) q0)) as Hinv.
  { intros j q'. rw /set_fd /= list_lookup_alter. case_decide; [subst j; rw Hq; intros [= <-]; eauto|eauto]. }
  split; rw ?ycore_set.
  - done.
  - by rw /set_fd /= length_alter.
  - intros j q' (q0 & Hq0 & [-> | [_ ->]])%Hinv; [eauto|]. rw /= length_insert. eauto.
  - intros j q' (q0 & Hq0 & [-> | [Hu0 ->]])%Hinv; [eauto|done].
  - intros j q' fd' k (q0 & Hq0 & [-> | [_ ->]])%Hinv; [eauto|]. simpl. intros [(_ & E & _)|[_ ?]]%list_lookup_insert_Some; eauto.
  - intros k Hk. change (nfile k _) with (files !!! k). pose proof (set_fd_count (ycore s) i q fd x y k Hq Hx) as Hc.
    specialize (Hf k Hk). rw R5 // in Hf. lia.
Qed.

(** ** [filedup] and [fileclose] under the lock *)

Lemma ycore_fupd k g s : ycore (fupd k g s) = ycore s.
Proof. done. Qed.

Lemma ftable_unlock k g s l :
  lift (release LFtable) (fupd k g (set_ycore (set_locks (LFtable :: l) (ycore s)) s)) = Ret tt (fupd k g (set_ycore (set_locks l (ycore s)) s)) ∨ LFtable ∈ l.
Proof.
  destruct (decide (LFtable ∈ l)) as [|Hl]; [by right|left]. erewrite run_lift; last first.
  { cbn [lget sys_core]. rw ycore_fupd ycore_set. by apply release_run. }
  f_equal. cbn [lset sys_core]. change (set_ycore ?c (fupd k g ?s)) with (fupd k g (set_ycore c s)). f_equal. by rw /set_ycore /= (lset_lset (I:=core)).
Qed.

Lemma fupd_core k g c s : fupd k g (set_ycore c s) = set_ycore c (set_files (alter g k (y_files s)) s).
Proof. done. Qed.

Lemma set_locks_self s : set_ycore (set_locks (c_locks (ycore s)) (ycore s)) s = s.
Proof. rw set_locks_id. exact (lset_lget (I:=core) s). Qed.

Lemma nfile_lock k c s : nfile k (set_ycore c s) = nfile k s.
Proof. done. Qed.

Lemma filedup_run s k :
  LFtable ∉ c_locks (ycore s) → 1 ≤ f_ref (nfile k s) < 2 ^ 31 - 1 →
  filedup k s = Ret k (fupd k (w_fref (f_ref (nfile k s) + 1)) s).
Proof.
  intros Hl Hr. rw /filedup. erewrite run_bind; [|apply run_lift; by apply acquire_run]. cbn [lset lget sys_core].
  rw run_gets nfile_lock. destruct (Z.ltb_spec (f_ref (nfile k s)) 1); [lia|]. rw run_modify i32_small; [lia|].
  destruct (ftable_unlock k (w_fref (f_ref (nfile k s) + 1)) s (c_locks (ycore s))) as [Hu|]; [|done].
  erewrite run_bind; [|exact Hu]. by rw set_locks_self.
Qed.

Lemma fileclose_shared s k :
  LFtable ∉ c_locks (ycore s) → 2 ≤ f_ref (nfile k s) →
  fileclose kend k s = Ret tt (fupd k (w_fref (f_ref (nfile k s) - 1)) s).
Proof.
  intros Hl Hr. rw /fileclose. erewrite run_bind; [|apply run_lift; by apply acquire_run]. cbn [lset lget sys_core].
  rw run_gets nfile_lock. destruct (Z.ltb_spec (f_ref (nfile k s)) 1); [lia|]. rw Z.gtb_ltb. destruct (Z.ltb_spec 0 (f_ref (nfile k s) - 1)); [|lia].
  rw run_modify. destruct (ftable_unlock k (w_fref (f_ref (nfile k s) - 1)) s (c_locks (ycore s))) as [Hu|]; [|done].
  rw Hu. by rw set_locks_self.
Qed.

(** ** [dup] *)

(** The first free descriptor. *)
Definition lowest (o : list (option nat)) (fd : nat) : Prop :=
  o !! fd = Some None ∧ ∀ j : nat, (j < fd)%nat → o !! j ≠ Some None.

Lemma fd_find_ok n fd o :
  (fd + n = length o)%nat → (∀ j : nat, (j < fd)%nat → o !! j ≠ Some None) →
  match fd_find n fd o with Some j => lowest o j | None => ∀ j : nat, o !! j ≠ Some None end.
Proof.
  revert fd. induction n as [|n IH]; intros fd Hn Hb; cbn [fd_find].
  - intros j Hj. apply (Hb j); [|done]. apply lookup_lt_Some in Hj. lia.
  - destruct (lookup_lt_is_Some_2 o fd ltac:(lia)) as [x Hx]. rw list_lookup_total_alt Hx. cbn [default from_option].
    case_bool_decide as E; [cbn in E; subst x; by split|]. apply IH; [lia|]. intros j Hj. destruct (decide (j = fd)) as [->|]; [|apply Hb; lia].
    rw Hx. cbn in E. congruence.
Qed.

(** The file of a descriptor. *)
Definition descr s (fd : Z) : option nat :=
  if (fd <? 0) || (fd >=? Z.of_nat NOFILE) then None else p_ofile (myproc s) !!! Z.to_nat fd.

Lemma argfd_run s n a : fetcharg n s = Some a → argfd n s = Ret (match descr s (i32 a) with Some f => Some (i32 a, f) | None => None end) s.
Proof.
  intros Hf. rw /argfd /argint /argaddr !run_assoc run_gets Hf /descr.
  change (Ret (A:=option (Z * nat)) (if (i32 a <? 0) || (i32 a >=? Z.of_nat NOFILE) then None
    else match p_ofile (myproc s) !!! Z.to_nat (i32 a) with Some f => Some (i32 a, f) | None => None end) s =
    Ret (match (if (i32 a <? 0) || (i32 a >=? Z.of_nat NOFILE) then None else p_ofile (myproc s) !!! Z.to_nat (i32 a)) with
         | Some f => Some (i32 a, f) | None => None end) s).
  by destruct ((i32 a <? 0) || (i32 a >=? Z.of_nat NOFILE)).
Qed.

(** Process [i], in the state [q], runs in the kernel. *)
Definition runs_as s (i : nat) (q : proc) : Prop :=
  c_cur (ycore s) = Some i ∧ c_procs (ycore s) !! i = Some q ∧ LFtable ∉ c_locks (ycore s) ∧ p_state q = RUNNING.

Lemma runs_myproc s i q : runs_as s i q → myproc s = q.
Proof. intros (Hc & Hq & _). by rw /myproc /cur_proc Hc list_lookup_total_alt Hq. Qed.

Lemma upd_fd_run s i q (fd : nat) x :
  runs_as s i q → upd_proc (λ p, w_ofile (<[fd := x]> (p_ofile p)) p) s = Ret tt (set_ycore (set_fd i fd x (ycore s)) s).
Proof. intros (Hc & _). rw /upd_proc. erewrite run_lift; [|cbn [lget sys_core]; rw /with_cur Hc; reflexivity]. done. Qed.

Lemma descr_lookup s i q fd f : runs_as s i q → descr s fd = Some f → 0 ≤ fd ∧ p_ofile q !! Z.to_nat fd = Some (Some f).
Proof.
  intros Hr. rw /descr (runs_myproc s i q Hr) Z.geb_leb. destruct (Z.ltb_spec fd 0); [done|]. cbn [orb].
  destruct (Z.leb_spec (Z.of_nat NOFILE) fd); [done|]. rw list_lookup_total_alt. by destruct (p_ofile q !! Z.to_nat fd) as [x|]; [cbn; intros ->|].
Qed.

(** The count of file [f] goes up by one, or down by one. *)
Lemma alter_count s f (v : Z) k :
  refs_ok s → (k < NFILE)%nat →
  f_ref (alter (w_fref v) f (y_files s) !!! k) = if decide (f = k) then v else f_ref (nfile k s).
Proof.
  intros H Hk. pose proof (nfile_fupd k f (w_fref v) s) as E. rw /nfile /fupd /= in E. rw E; [by rw (ro_files _ H)|]. by case_decide.
Qed.

(** [dup] gives the lowest free descriptor the file of its argument and counts
    the new reference; it fails, and changes nothing, when the argument is no
    open descriptor or none is free. *)
Theorem sys_dup_correct s i q :
  refs_ok s → runs_as s i q →
  let fd := i32 (rdi (p_tf q)) in
  match descr s fd with
  | None => sys_dup s = Ret (-1) s
  | Some f =>
    (∀ j : nat, p_ofile q !! j ≠ Some None) ∧ sys_dup s = Ret (-1) s ∨
    ∃ (new : nat) s', lowest (p_ofile q) new ∧ sys_dup s = Ret (Z.of_nat new) s' ∧ refs_ok s' ∧
      ycore s' = set_fd i new (Some f) (ycore s) ∧ f_ref (nfile f s') = f_ref (nfile f s) + 1
  end.
Proof.
  intros H Hr fd. rw /sys_dup. pose proof (runs_myproc s i q Hr) as Hm.
  erewrite run_bind; [|apply (argfd_run s 0 (rdi (p_tf q))); by rw /fetcharg Hm]. fold fd.
  destruct (descr s fd) as [f|] eqn:Hd; [|done]. destruct (descr_lookup s i q fd f Hr Hd) as [_ Hof].
  pose proof Hr as (Hc & Hq & Hl & Hrun). pose proof (ro_ofile _ H i q Hq) as Hlen.
  rw /fdalloc run_assoc run_gets Hm. pose proof (fd_find_ok NOFILE 0 (p_ofile q) ltac:(lia) ltac:(lia)) as Hff.
  destruct (fd_find NOFILE 0 (p_ofile q)) as [new|]; [right|left; split; [done|reflexivity]].
  rw run_assoc. erewrite run_bind; [|by eapply upd_fd_run]. rw run_ret. destruct (Z.ltb_spec (Z.of_nat new) 0); [lia|].
  destruct (refs_pos s f i q _ H Hq Hof) as [Hf Hpos]. pose proof (refs_bound s f H Hf).
  set (s1 := set_ycore _ s). erewrite run_bind; [|apply filedup_run; [by rw ycore_set|change (nfile f s1) with (nfile f s); lia]].
  change (nfile f s1) with (nfile f s). eexists new, _. split_and!; [done|reflexivity| | |].
  - rw fupd_core. apply (refs_set_fd s (alter (w_fref (f_ref (nfile f s) + 1)) f (y_files s)) i q new None (Some f)); [done|done|by rw Hrun|apply Hff|by intros k [= <-]| |].
    + by rw length_alter (ro_files _ H).
    + intros k Hk. rw alter_count // /one. repeat case_decide; simplify_eq; lia.
  - by rw ycore_fupd ycore_set.
  - rw nfile_fupd; [by rw (ro_files _ H)|]. by rw decide_True.
Qed.

(** Closing one of several descriptors of a file frees the descriptor and takes
    the reference from the count; a number that is no open descriptor is
    refused. *)
Theorem sys_close_shared s i q :
  refs_ok s → runs_as s i q →
  let fd := i32 (rdi (p_tf q)) in
  match descr s fd with
  | None => sys_close kend s = Ret (-1) s
  | Some f => 2 ≤ f_ref (nfile f s) → ∃ s', sys_close kend s = Ret 0 s' ∧ refs_ok s' ∧ descr s' fd = None ∧
      ycore s' = set_fd i (Z.to_nat fd) None (ycore s) ∧ f_ref (nfile f s') = f_ref (nfile f s) - 1
  end.
Proof.
  intros H Hr fd. rw /sys_close. pose proof (runs_myproc s i q Hr) as Hm.
  erewrite run_bind; [|apply (argfd_run s 0 (rdi (p_tf q))); by rw /fetcharg Hm]. fold fd.
  destruct (descr s fd) as [f|] eqn:Hd; [|done]. intros H2. destruct (descr_lookup s i q fd f Hr Hd) as [_ Hof].
  pose proof Hr as (Hc & Hq & Hl & Hrun). destruct (refs_pos s f i q _ H Hq Hof) as [Hf _].
  rw /fdclear. erewrite run_bind; [|by eapply upd_fd_run]. set (s1 := set_ycore _ s).
  erewrite run_bind; [|apply fileclose_shared; [by rw ycore_set|exact H2]].
  change (nfile f s1) with (nfile f s). eexists _. split_and!; [reflexivity| | | |].
  - rw fupd_core. apply (refs_set_fd s (alter (w_fref (f_ref (nfile f s) - 1)) f (y_files s)) i q (Z.to_nat fd) (Some f) None); [done|done|by rw Hrun|done|done| |].
    + by rw length_alter (ro_files _ H).
    + intros k Hk. rw alter_count // /one. repeat case_decide; simplify_eq; lia.
  - rw /descr. destruct (_ || _); [done|]. rw /myproc ycore_fupd ycore_set /cur_proc /set_fd /= Hc.
    rw (list_lookup_total_alt (alter _ _ _)) list_lookup_alter decide_True // Hq /= list_lookup_total_alt list_lookup_insert_eq //.
    by apply lookup_lt_Some in Hof.
  - by rw ycore_fupd ycore_set.
  - rw nfile_fupd; [by rw (ro_files _ H)|]. by rw decide_True.
Qed.

(** ** The descriptors of a new process *)

(** The first [j] descriptors of [o], the others free. *)
Definition first_fds (j : nat) (o : list (option nat)) : list (option nat) := take j o ++ replicate (NOFILE - j) None.

Lemma first_fds_S j o x :
  length o = NOFILE → o !! j = Some x → first_fds j o !! j = Some None ∧ first_fds (Datatypes.S j) o = <[j := x]> (first_fds j o).
Proof.
  intros Hl Hx. pose proof (lookup_lt_Some _ _ _ Hx) as Hj. rw /first_fds.
  assert (length (take j o) = j) as Ht by (rw length_take; lia).
  assert (NOFILE - j = Datatypes.S (NOFILE - Datatypes.S j))%nat as -> by lia. cbn [replicate]. split.
  - rw lookup_app_r; [lia|]. by rw Ht Nat.sub_diag.
  - rw (take_S_r _ _ _ Hx) -app_assoc insert_app_r_alt; [lia|]. by rw Ht Nat.sub_diag.
Qed.

Lemma pupd_pupd np f g c : pupd np f (pupd np g c) = pupd np (f ∘ g) c.
Proof. rw /pupd /set_procs /=. by rw list_alter_alter_eq. Qed.

(** What the loop of [fork] leaves alone. *)
Definition same_rest s s' : Prop :=
  y_mem s' = y_mem s ∧ y_freelist s' = y_freelist s ∧ y_uselock s' = y_uselock s ∧ y_vm s' = y_vm s ∧
  fs_inodes (y_fs s') = fs_inodes (y_fs s).

Section fork.
Context (s : sys) (i np : nat) (q child : proc).
Context (Hr : runs_as s i q) (Hne : np ≠ i) (Hch : c_procs (ycore s) !! np = Some child) (Hlen : length (p_ofile q) = NOFILE).
Context (Hnew : p_state child ≠ UNUSED).

(** The state after [j] descriptors. *)
Definition forked (j : nat) (s' : sys) : Prop :=
  refs_ok s' ∧ same_rest s s' ∧ ycore s' = pupd np (w_ofile (first_fds j (p_ofile q))) (ycore s).

Lemma fork_file_ok (j : nat) s' :
  forked j s' → (j < NOFILE)%nat → total (fork_file np (Z.of_nat j)) s' (λ _ s'', forked (Datatypes.S j) s'').
Proof.
  intros (H & Hrest & Hy) Hj. destruct Hr as (Hc & Hq & Hl & Hrun).
  assert (c_procs (ycore s') !! np = Some (w_ofile (first_fds j (p_ofile q)) child)) as Hnp.
  { by rw Hy /= list_lookup_alter decide_True // Hch. }
  assert (runs_as s' i q) as Hr'. { split_and!; [by rw Hy| |by rw Hy|done]. by rw Hy /= list_lookup_alter decide_False. }
  destruct (lookup_lt_is_Some_2 (p_ofile q) j ltac:(lia)) as [x Hx]. destruct (first_fds_S j _ x Hlen Hx) as [Hn HS].
  rw /fork_file. apply total_gets_bind. rw (runs_myproc s' i q Hr') Nat2Z.id list_lookup_total_alt Hx. cbn [default from_option id].
  destruct x as [k|].
  2:{ apply total_ret. split_and!; [done|done|]. rw Hy HS list_insert_id //. }
  destruct (refs_pos s' k i q j H ltac:(apply Hr') Hx) as [Hk Hpos]. pose proof (refs_bound s' k H Hk).
  eapply total_run; [apply filedup_run; [apply Hr'|lia]|]. eexists tt, _. split; [reflexivity|]. split_and!.
  - exact (refs_set_fd s' (alter (w_fref (f_ref (nfile k s') + 1)) k (y_files s')) np _ j None (Some k) H Hnp Hnew Hn
      ltac:(by intros ? [= <-]) ltac:(by rw length_alter (ro_files _ H))
      ltac:(intros k' Hk'; rw alter_count // /one; repeat case_decide; simplify_eq; lia)).
  - exact Hrest.
  - etrans; [exact (ycore_set _ _)|]. cbn [lget sys_core]. rw ycore_fupd Hy pupd_pupd HS. done.
Qed.
End fork.

(** The loop gives the child the descriptors of the parent, and every file one
    more reference for each. *)
Lemma fork_files_run s i np q child :
  refs_ok s → runs_as s i q → np ≠ i → c_procs (ycore s) !! np = Some child → p_state child ≠ UNUSED →
  p_ofile child = replicate NOFILE None →
  total (for_up NOFILE 0 (fork_file np)) s (λ _ s', refs_ok s' ∧ same_rest s s' ∧
    ycore s' = pupd np (w_ofile (p_ofile q)) (ycore s)).
Proof.
  intros H Hr Hne Hch Hnew Hof. pose proof Hr as (_ & Hq & _). pose proof (ro_ofile _ H i q Hq) as Hlen.
  eapply total_mono; [apply (total_for_up NOFILE 0 _ (λ j, forked s np q (Z.to_nat j)))|].
  - split_and!; [done|done|]. rw /pupd (_ : alter _ np (c_procs (ycore s)) = c_procs (ycore s)); [|by destruct (ycore s)].
    apply list_eq. intros j. rw list_lookup_alter. case_decide as E; [subst j|done]. rw Hch.
    change (first_fds (Z.to_nat 0) (p_ofile q)) with (replicate NOFILE (@None nat)). rw -Hof. by destruct child.
  - intros j s' Hj Hf. replace (fork_file np j) with (fork_file (S:=S) np (Z.of_nat (Z.to_nat j))) by (f_equal; lia).
    replace (Z.to_nat (j + 1)) with (Datatypes.S (Z.to_nat j)) by lia.
    apply (fork_file_ok s i np q child); [done|done|done|done|done|done|lia].
  - intros _ s' (H' & Hrest & Hy). split_and!; [done|done|]. rw Hy /first_fds (_ : Z.to_nat (0 + Z.of_nat NOFILE) = NOFILE) // -Hlen firstn_all Nat.sub_diag app_nil_r //.
Qed.
End fds.
