(* ===== verification/Fork.v ===== *)
(** * [fork] as a whole

    What [fork] of Proc.v returns and leaves, on every branch: no free slot in
    the process table, no page for the stack, no page for the page table, not
    enough pages for the copy, and success. *)

From S2P Require Import Prelude CString Layout Kernel Kalloc Vm VmTree VmSpace VmOps VmSize VmCopy Store Fs Pipe Sys File Proc ProcInv Syscall SysMem Sysfile FdInv.

#[local] Opaque foot leaves walk pte junk zpage NPROC NOFILE.

Section fork.
Context {S : Type} `{!Lens S core, !BlockStore S} (kend : Z).
Abbreviation sys := (sys S).
Implicit Types (F X : list Z) (s : sys) (k : kst) (f g : proc → proc).

(** ** The slot of the new process *)

(** An id has been given out and slot [np] changed by [f]. *)
Definition slot (np : nat) f s : core := set_nextpid (i32 (c_nextpid (ycore s) + 1)) (pupd np f (ycore s)).

Lemma slot_pupd np f g s : pupd np g (slot np f s) = slot np (g ∘ f) s.
Proof. rw /slot. change (pupd np g (set_nextpid ?v ?c)) with (set_nextpid v (pupd np g c)). by rw pupd_pupd. Qed.

(** The state [s'] inside [fork], which was called in [s]. *)
Record inside (np : nat) f (m : gmap Z (list Z)) (l : Z) s s' : Prop := {
  in_core : ycore s' = slot np f s;
  in_mem : y_mem s' = m;
  in_free : y_freelist s' = l;
  in_files : y_files s' = y_files s;
  in_inodes : fs_inodes (y_fs s') = fs_inodes (y_fs s);
}.

Lemma inside_core np f m l s s' c g :
  inside np f m l s s' → c = pupd np g (ycore s') → inside np (λ p, g (f p)) m l s (set_ycore c s').
Proof.
  intros [H1 H2 H3 H4 H5] ->. split; [|done..]. by rw ycore_set H1 slot_pupd.
Qed.

Lemma inside_pset np f m l s s' g :
  inside np f m l s s' → total (pset np g) s' (λ _, inside np (λ p, g (f p)) m l s).
Proof. intros H. eexists tt, _. split; [reflexivity|]. by eapply inside_core. Qed.

Lemma inside_put np f m l s s' st :
  inside np f m l s s' → total (lift (put_state np st)) s' (λ _, inside np (λ p, set_state st (f p)) m l s).
Proof. intros H. eexists tt, _. split; [reflexivity|]. by eapply inside_core. Qed.

(** An operation on memory. *)
Lemma inside_kst np f m l s s' k :
  inside np f m l s s' → same (yk s') k → inside np f (k_mem k) (k_freelist k) s (set_yk k s').
Proof. intros [H1 H2 H3 H4 H5] Hs. split; [by rw yk_core|done..]. Qed.

Lemma inside_lookup np f m l s s' p :
  inside np f m l s s' → c_procs (ycore s) !! np = Some p → c_procs (ycore s') !! np = Some (f p).
Proof. intros [H1 _ _ _ _] Hp. by rw H1 /= list_lookup_alter decide_True // Hp. Qed.

Lemma inside_other np f m l s s' (i : nat) : inside np f m l s s' → i ≠ np → c_procs (ycore s') !! i = c_procs (ycore s) !! i.
Proof. intros [H1 _ _ _ _] Hi. by rw H1 /= list_lookup_alter decide_False. Qed.

Lemma inside_runs np f m l s s' (i : nat) q : inside np f m l s s' → i ≠ np → runs_as s i q → runs_as s' i q.
Proof.
  intros H Hi (Hc & Hq & Hl & Hr). split_and!; [by rw (in_core _ _ _ _ _ _ H)|by rw (inside_other _ _ _ _ _ _ i H)|by rw (in_core _ _ _ _ _ _ H)|done].
Qed.

(** The counts of the files do not depend on what else is in the slot. *)
Lemma refs_slot s s' np f :
  refs_ok s → y_files s' = y_files s → c_procs (ycore s') = alter f np (c_procs (ycore s)) →
  (∀ p, p_ofile (f p) = p_ofile p) →
  (∀ p, c_procs (ycore s) !! np = Some p → p_state (f p) = UNUSED → p_state p = UNUSED) → refs_ok s'.
Proof.
  intros [R1 R2 R3 R4 R5 R6] Hw Hc Hf Hs.
  assert (∀ j q', c_procs (ycore s') !! j = Some q' → ∃ q, c_procs (ycore s) !! j = Some q ∧ p_ofile q' = p_ofile q ∧
    (p_state q' = UNUSED → p_state q = UNUSED)) as Hinv.
  { intros j q'. rw Hc list_lookup_alter. case_decide as E; [subst j|by eauto].
    destruct (c_procs (ycore s) !! np) as [p|] eqn:Hp; [|done]. intros [= <-]. eauto. }
  split.
  - by rw Hw.
  - by rw Hc length_alter.
  - intros j q' (q & Hq & -> & _)%Hinv. eauto.
  - intros j q' (q & Hq & -> & Hu)%Hinv Hu'. eauto.
  - intros j q' fd n (q & Hq & -> & _)%Hinv. eauto.
  - intros n Hn. rw /nfile Hw. fold (nfile n s). rw R6 // Hc. f_equal. destruct (c_procs (ycore s) !! np) as [p|] eqn:Hp.
    + pose proof (sum_alter (λ q, cnt n (p_ofile q)) f _ np p Hp) as E. cbn beta in E. rw Hf in E. rw /fdcount. lia.
    + f_equal. symmetry. apply list_eq. intros j. rw list_lookup_alter. case_decide; [subst j|done]. by rw Hp.
Qed.

Lemma inside_refs np f m l s s' p :
  inside np f m l s s' → refs_ok s → c_procs (ycore s) !! np = Some p → p_state p = UNUSED →
  (∀ p, p_ofile (f p) = p_ofile p) → refs_ok s'.
Proof.
  intros [C _ _ W _] H Hp Hu Hf. apply (refs_slot s s' np f); [done|done|by rw C|done|]. intros p'. congruence.
Qed.

Lemma krepr_eq F k k' :
  krepr kend F k → k_mem k' = k_mem k → k_freelist k' = k_freelist k → c_locks (k_core k') = c_locks (k_core k) → krepr kend F k'.
Proof. intros [H1 H2 H3 H4 H5] E1 E2 E3. split; by rw ?E1 ?E2 ?E3. Qed.

(** ** [allocproc] *)

(** The slot as [allocproc] leaves it, with a stack. *)
Definition embryo (s : sys) (st : Z) (p : proc) : proc := w_kstack st (w_pid (c_nextpid (ycore s)) (set_state EMBRYO p)).

Lemma allocproc_none s :
  c_locks (ycore s) = [] → find_state UNUSED NPROC 0 (c_procs (ycore s)) = None → allocproc s = Ret None s.
Proof.
  intros Hl Hf. rw /allocproc. erewrite run_bind; [|apply run_lift; rw /= alloc_slot_run // Hf; done].
  cbn iota. f_equal. exact (lset_lget (Lens:=sys_core) s).
Qed.

Lemma allocproc_run F s np :
  c_locks (ycore s) = [] → find_state UNUSED NPROC 0 (c_procs (ycore s)) = Some np → krepr kend F (yk s) →
  total allocproc s (λ r s', krepr kend (tl F) (yk s') ∧ match F with
    | [] => r = None ∧ inside np (λ p, set_state UNUSED (embryo s 0 p)) (y_mem s) (y_freelist s') s s'
    | st :: _ => r = Some np ∧ inside np (embryo s st) (y_mem s) (y_freelist s') s s'
    end).
Proof.
  intros Hl Hf Hk. rw /allocproc. eapply total_run; [apply run_lift; rw /= alloc_slot_run // Hf; done|].
  cbn [lset sys_core]. set (s1 := set_ycore (claimed np (ycore s)) s).
  assert (inside np (λ p, w_pid (c_nextpid (ycore s)) (set_state EMBRYO p)) (y_mem s) (y_freelist s) s s1) as I1.
  { split; [exact (ycore_set _ _)|done..]. }
  assert (krepr kend F (yk s1)) as Hk1.
  { eapply krepr_eq; [exact Hk|done|done|]. by rw /= (in_core _ _ _ _ _ _ I1). }
  destruct (kalloc_ok kend F (yk s1) Hk1) as (k2 & Hr2 & Hk2 & E1 & E2 & E3 & E4).
  eapply total_run; [apply run_lift; exact Hr2|]. cbn [lset sys_kst]. set (s2 := set_yk k2 s1).
  assert (same (yk s1) k2) as Hsm by done. pose proof (inside_kst _ _ _ _ _ _ k2 I1 Hsm) as I2. rw E1 in I2.
  assert (∀ s', ycore s' = slot np (embryo s (hd 0 F)) s → y_mem s' = y_mem s → y_freelist s' = k_freelist k2 → krepr kend (tl F) (yk s')) as Hk3.
  { intros s' Ec Em Efl. eapply krepr_eq; [exact Hk2|by rw E1|done|]. rw E2 /= Ec (in_core _ _ _ _ _ _ I1). done. }
  eapply total_bind; [exact (inside_pset _ _ _ _ _ _ (w_kstack (hd 0 F)) I2)|]. intros [] s3 I3.
  destruct F as [|st F]; cbn [hd tl] in *.
  - change (0 =? 0) with true. cbn iota. eapply total_bind; [exact (inside_put _ _ _ _ _ _ UNUSED I3)|]. intros [] s4 I4.
    apply total_ret. destruct I4 as [C M L W N]. split_and!; [|done|split; try done].
    eapply krepr_eq; [exact Hk2|by rw E1|done|]. rw E2 /= C (in_core _ _ _ _ _ _ I1). done.
  - pose proof (kr_pages _ _ _ Hk) as [Hst _]%list.Forall_cons. pose proof (kpage_pos _ _ Hst).
    destruct (Z.eqb_spec st 0); [lia|]. apply total_ret. destruct I3 as [C M L W N]. split_and!; [by apply Hk3|done|split; try done].
Qed.

(** ** The copy of the memory fails *)

(** The slot given up: free again, without a stack. *)
Definition given_up (np : nat) s s' : Prop :=
  ∃ f, ycore s' = slot np f s ∧
    ∀ p, p_state (f p) = UNUSED ∧ p_kstack (f p) = 0 ∧ p_parent (f p) = p_parent p ∧ p_ofile (f p) = p_ofile p.

Lemma fork_undo F F' leak st np f s s' p :
  inside np f (y_mem s') (y_freelist s') s s' → krepr kend F' (yk s') → kpage kend st → st ∉ F' →
  (∀ p, p_kstack (f p) = st ∧ p_parent (f p) = p_parent p ∧ p_ofile (f p) = p_ofile p) →
  leak ++ F' ≡ₚ F → (∀ a, a ∉ F → y_mem s' !! a = y_mem s !! a) → c_procs (ycore s) !! np = Some p →
  total (q ← pget np; lift (kfree kend (p_kstack q));; pset np (w_kstack 0);; lift (put_state np UNUSED);; mret (-1)) s' (λ r s'',
    r = -1 ∧ given_up np s s'' ∧ y_files s'' = y_files s ∧ krepr kend (st :: F') (yk s'') ∧ leak ++ st :: F' ≡ₚ st :: F ∧
    ∀ a, a ∉ st :: F → y_mem s'' !! a = y_mem s !! a).
Proof.
  intros I1 Hk Hst Hn Hf Hl Hm Hp. rw /pget. apply total_gets_bind.
  rw (list_lookup_total_correct _ _ _ (inside_lookup _ _ _ _ _ _ _ I1 Hp)). destruct (Hf p) as (-> & _).
  destruct (kfree_ok kend F' (yk s') st Hk Hst Hn) as (k2 & Hr2 & Hk2 & E1 & E2 & E3 & E4).
  eapply total_run; [apply run_lift; exact Hr2|]. cbn [lset sys_kst].
  pose proof (inside_kst _ _ _ _ _ _ k2 I1 ltac:(done)) as I2.
  eapply total_bind; [exact (inside_pset _ _ _ _ _ _ (w_kstack 0) I2)|]. intros [] s3 I3.
  eapply total_bind; [exact (inside_put _ _ _ _ _ _ UNUSED I3)|]. intros [] s4 [C M L W N]. apply total_ret.
  split_and!; [done|eexists; split; [exact C|]; intros p'; destruct (Hf p') as (_ & ? & ?); by split_and!|done| | |].
  - eapply krepr_eq; [exact Hk2|done|done|]. rw E2 /= C (in_core _ _ _ _ _ _ I1). done.
  - rw -Hl. by rw Permutation_middle.
  - intros a Ha. apply not_elem_of_cons in Ha as [Ha Ha']. rw M E1 lookup_insert_ne //. by apply Hm.
Qed.

(** ** The rest of [fork] *)

Lemma idup_run (st : fst_state S) ip :
  LIcache ∉ c_locks (lget st) → idup ip st = Ret ip (iupd ip (λ n, w_ref (i32 (i_ref n + 1)) n) st).
Proof.
  intros Hl. rw /idup. erewrite run_bind; [|apply run_lift; by apply acquire_run]. rw run_modify.
  erewrite run_bind; [|apply run_lift; rw /= lget_lset; by apply (release_run _ (c_locks (lget st)))].
  rw run_mret. f_equal. rw /iupd /=. f_equal. rw !lset_lset set_locks_set_locks set_locks_id. exact (lset_lget (fs_store st)).
Qed.

(** The new process, which was [p], a copy of [q] that process [i] runs. *)
Definition newborn (i d : nat) (q : proc) (pid st pg : Z) (p : proc) : proc :=
  mkProc (p_sz q) pg st RUNNABLE pid (Some i) (w_rax 0 (p_tf q)) (p_chan p) (p_killed p) (p_ofile q) (Some d)
    (splice 0 (safestrcpy (nthZ (p_name q)) 16) (p_name p)).

(** The fields set after the descriptors. *)
Definition last_fields (d : nat) (q p : proc) : proc :=
  set_state RUNNABLE (w_name (splice 0 (safestrcpy (nthZ (p_name q)) 16) (p_name p)) (w_cwd (Some d) p)).

Lemma fork_last s np d q p :
  c_procs (ycore s) !! np = Some p →
  total (pset np (w_cwd (Some d));;
     pset np (λ p, w_name (splice 0 (safestrcpy (nthZ (p_name q)) 16) (p_name p)) p);;
     p ← pget np;
     lift (put_state np RUNNABLE);;
     mret (p_pid p)) s (λ r s',
    r = p_pid p ∧ ycore s' = pupd np (last_fields d q) (ycore s) ∧ y_mem s' = y_mem s ∧ y_freelist s' = y_freelist s ∧
    y_files s' = y_files s ∧ fs_inodes (y_fs s') = fs_inodes (y_fs s)).
Proof.
  intros Hp. assert (∀ f (s : sys), pset np f s = Ret tt (set_ycore (pupd np f (ycore s)) s)) as Hset by done.
  eapply total_run; [apply Hset|]. eapply total_run; [apply Hset|]. rw !ycore_set pupd_pupd /pget. apply total_gets_bind. rw !ycore_set.
  eapply total_run; [exact (Hset (set_state RUNNABLE) _)|]. rw !ycore_set pupd_pupd. eexists _, _. split; [reflexivity|].
  split_and!; [|by rw ycore_set|done..]. by rw list_lookup_total_alt /= list_lookup_alter decide_True // Hp.
Qed.

Lemma fork_finish s s' np i q d p st pg :
  inside np (λ p, w_pgdir pg (embryo s st p)) (y_mem s') (y_freelist s') s s' →
  refs_ok s → runs_as s i q → np ≠ i → c_locks (ycore s) = [] → c_procs (ycore s) !! np = Some p → p_state p = UNUSED →
  total (lift (fork_link np (p_sz q));; pset np (w_tf (w_rax 0 (p_tf q)));; for_up NOFILE 0 (fork_file np);;
    (cwd ← lift (O:=sys) (I:=fst_state S) (idup d);
     pset np (w_cwd (Some cwd));;
     pset np (λ p, w_name (splice 0 (safestrcpy (nthZ (p_name q)) 16) (p_name p)) p);;
     p ← pget np;
     lift (put_state np RUNNABLE);;
     mret (p_pid p))) s' (λ r s'',
    r = c_nextpid (ycore s) ∧ refs_ok s'' ∧ y_mem s'' = y_mem s' ∧ y_freelist s'' = y_freelist s' ∧
    ycore s'' = slot np (newborn i d q (c_nextpid (ycore s)) st pg) s ∧
    fs_inodes (y_fs s'') = alter (λ n, w_ref (i32 (i_ref n + 1)) n) d (fs_inodes (y_fs s))).
Proof.
  intros I1 H Hr Hne Hlk Hp Hu.
  assert (total (lift (fork_link np (p_sz q))) s' (λ _, inside np (λ p, w_parent (Some i) (w_sz (p_sz q) (w_pgdir pg (embryo s st p)))) (y_mem s') (y_freelist s') s)) as Hlink.
  { eexists tt, _. split; [reflexivity|]. eapply (inside_core _ _ _ _ _ _ _ (λ p, w_parent (Some i) (w_sz (p_sz q) p)) I1).
    cbn [lget sys_core]. f_equal. rw (in_core _ _ _ _ _ _ I1) /=. destruct Hr as (-> & _). done. }
  eapply total_bind; [exact Hlink|]. intros [] s2 I2.
  eapply total_bind; [exact (inside_pset _ _ _ _ _ _ (w_tf (w_rax 0 (p_tf q))) I2)|]. intros [] s3 I3.
  pose proof (inside_refs _ _ _ _ _ _ p I3 H Hp Hu ltac:(done)) as H3.
  pose proof (inside_runs _ _ _ _ _ _ i q I3 ltac:(congruence) Hr) as Hr3.
  eapply total_bind; [eapply (fork_files_run s3 i np q); [done|done|done|exact (inside_lookup _ _ _ _ _ _ _ I3 Hp)|done|exact (ro_free _ H np p Hp Hu)]|].
  intros [] s4 (H4 & (M4 & L4 & _ & _ & N4) & C4). pose proof I3 as [C3 M3 L3 W3 N3]. rw C3 in C4.
  eapply total_run; [apply run_lift; apply idup_run|].
  { change (lget (lget s4)) with (ycore s4). rw C4 /= Hlk. apply not_elem_of_nil. }
  cbn [lset sys_fst]. set (s5 := set_fs _ s4).
  assert (ycore s5 = ycore s4) as C5 by done.
  assert (c_procs (ycore s5) !! np = Some (w_ofile (p_ofile q) (w_tf (w_rax 0 (p_tf q)) (w_parent (Some i) (w_sz (p_sz q) (w_pgdir pg (embryo s st p))))))) as Hp5.
  { by rw C5 C4 /= !list_lookup_alter !decide_True // Hp. }
  destruct (fork_last s5 np d q _ Hp5) as (r & s6 & Hr6 & -> & C6 & M6 & L6 & W6 & N6). eexists _, s6. split; [exact Hr6|].
  assert (ycore s6 = slot np (newborn i d q (c_nextpid (ycore s)) st pg) s) as E6.
  { rw C6 C5 C4 !slot_pupd. reflexivity. }
  split_and!; [done| |by rw M6 -M3 -M4|by rw L6 -L3 -L4|done|].
  - apply (refs_slot s4 s6 np (last_fields d q)); [done|by rw W6|by rw C6 C5|done|done].
  - rw N6 -N3 -N4. done.
Qed.

(** ** Every branch *)

(** The pages of the new address space [pg]: for each page of the old one, a page
    that was free, with the same permissions and contents. *)
Record copied (F : list Z) (a pg sz : Z) s s' : Prop := {
  cp_page va : uaddr va → pages PGSIZE sz (va / PGSIZE) → ∃ b, b ∈ F ∧
    pt (yk s') pg va = page_pte b (PTE_FLAGS (pt (yk s) a va)) ∧ y_mem s' !! b = y_mem s !! child (pt (yk s) a va);
  cp_other va : uaddr va → ¬ pages PGSIZE sz (va / PGSIZE) → pt (yk s') pg va = 0;
}.

(** What [fork] in [s] returns and leaves, with a page [st] for the stack and a
    page [pg] for the page table. *)
Definition fork_post (np i d : nat) (q : proc) (st pg : Z) F X (r : Z) s s' : Prop :=
  refs_ok s' ∧ (∀ b, b ∉ st :: pg :: F → y_mem s' !! b = y_mem s !! b) ∧
  (r = -1 ∧ given_up np s s' ∧ y_files s' = y_files s ∧
     (∃ F' leak, krepr kend F' (yk s') ∧ (length leak ≤ 1)%nat ∧ leak ++ F' ≡ₚ st :: pg :: F) ∨
   r = c_nextpid (ycore s) ∧ ycore s' = slot np (newborn i d q r st pg) s ∧
     fs_inodes (y_fs s') = alter (λ n, w_ref (i32 (i_ref n + 1)) n) d (fs_inodes (y_fs s)) ∧
     copied F (p_pgdir q) pg (p_sz q) s s' ∧
     ∃ F', vspace kend F' pg (foot true 4 (y_mem s) (p_pgdir q) ++ st :: X) (yk s')).

Section branches.
Context (s : sys) (i np d : nat) (q p : proc).
Context (H : refs_ok s) (Hr : runs_as s i q) (Hl : c_locks (ycore s) = []) (Hd : p_cwd q = Some d).
Context (Hf : find_state UNUSED NPROC 0 (c_procs (ycore s)) = Some np).
Context (Hp : c_procs (ycore s) !! np = Some p) (Hu : p_state p = UNUSED) (Hne : np ≠ i).

Lemma fork_no_stack :
  krepr kend [] (yk s) →
  total (fork kend) s (λ r s', r = -1 ∧ given_up np s s' ∧ refs_ok s' ∧ y_files s' = y_files s ∧ y_mem s' = y_mem s ∧ krepr kend [] (yk s')).
Proof using All.
  intros Hk. eapply total_bind; [by eapply allocproc_run|]. cbn [tl]. intros r s1 (Hk1 & -> & I1). apply total_ret.
  pose proof I1 as [C M L W N]. split_and!; [done|eexists; split; [exact C|done]| |done|done|done].
  by apply (inside_refs _ _ _ _ _ _ p I1 H Hp Hu).
Qed.

(** After [allocproc]. *)
Lemma fork_copy st F a X s1 :
  inside np (embryo s st) (y_mem s) (y_freelist s1) s s1 → krepr kend F (yk s1) → vspace kend (st :: F) a X (yk s) →
  myproc s1 = q ∧ vspace kend F a (st :: X) (yk s1).
Proof using All.
  intros I1 Hk1 [_ Ht]. split.
  - apply (runs_myproc s1 i q). eapply inside_runs; [exact I1|congruence|done].
  - split; [done|]. rw /= (in_mem _ _ _ _ _ _ I1). eapply tree_ctx; [|exact Ht]. by rw -Permutation_middle.
Qed.

Lemma fork_no_pgdir st a X :
  vspace kend [st] a X (yk s) → y_mem s !! 0 = None → ∃ s', fork kend s = Fault s'.
Proof using All.
  intros Hv H0. destruct (allocproc_run [st] s np Hl Hf ltac:(apply Hv)) as (r & s1 & Hr1 & Hk1 & -> & I1).
  destruct (fork_copy st [] a X s1 I1 Hk1 Hv) as [Hq1 _].
  destruct (copyuvm_null kend (p_pgdir q) (yk s1) (p_sz q) Hk1) as [k2 Hc]; [by rw /= (in_mem _ _ _ _ _ _ I1)|].
  eexists. rw /fork. erewrite run_bind; [|exact Hr1]. cbn iota. rw run_gets Hq1 /mbind /M_bind /lift. cbn [lget sys_kst]. rw Hc. reflexivity.
Qed.

Lemma fork_run st pg F X :
  vspace kend (st :: pg :: F) (p_pgdir q) X (yk s) → 0 ≤ p_sz q < 2 ^ 32 →
  (∀ n, pages PGSIZE (p_sz q) n → has PTE_P (pt (yk s) (p_pgdir q) (n * PGSIZE)) = true) →
  total (fork kend) s (λ r s', fork_post np i d q st pg F X r s s').
Proof using All.
  intros Hv Hsz Hpg. pose proof Hv as [Hk Ht].
  pose proof (kr_pages _ _ _ Hk) as [Hst [Hpgp _]%list.Forall_cons]%list.Forall_cons.
  pose proof (kr_nodup _ _ _ Hk) as [Hnst _]%list.NoDup_cons.
  eapply total_bind; [by eapply allocproc_run|]. cbn [tl]. intros r s1 (Hk1 & -> & I1).
  destruct (fork_copy st (pg :: F) _ X s1 I1 Hk1 Hv) as [Hq1 Hv1]. apply total_gets_bind. rw Hq1.
  assert (∀ va, pt (yk s1) (p_pgdir q) va = pt (yk s) (p_pgdir q) va) as Ept by (intros va; rw /pt /= (in_mem _ _ _ _ _ _ I1); done).
  destruct (copyuvm_run kend F pg _ _ (yk s1) (p_sz q) Hv1 Hsz) as (r & k2 & Hr2 & Hs2 & Hfr & F' & Hor).
  { intros n Hn. rw Ept. by apply Hpg. }
  rw /= (in_mem _ _ _ _ _ _ I1) in Hfr.
  eapply total_run; [apply run_lift; exact Hr2|]. cbn [lset sys_kst]. pose proof (inside_kst _ _ _ _ _ _ k2 I1 Hs2) as I2.
  eapply total_bind; [exact (inside_pset _ _ _ _ _ _ (w_pgdir r) I2)|]. intros [] s3 I3. pose proof I3 as [C3 M3 L3 W3 N3].
  rw -{1}M3 -{1}L3 in I3.
  assert (∀ F'', krepr kend F'' k2 → krepr kend F'' (yk s3)) as Hk3.
  { intros F'' Hk2. eapply krepr_eq; [exact Hk2|done|done|]. rw (sm_core _ _ Hs2) /= C3 (in_core _ _ _ _ _ _ I1). done. }
  destruct Hor as [(-> & Hv2 & Hperm & Hcp & Hoth)|(-> & Hk2 & leak & Hleak & Hperm)].
  - pose proof (kpage_pos _ _ Hpgp). destruct (Z.eqb_spec pg 0); [lia|]. rw Hd.
    eapply total_mono; [by apply (fork_finish s s3 np i q d p st pg)|]. intros r s4 (-> & H4 & M4 & L4 & C4 & N4).
    rw /= (in_mem _ _ _ _ _ _ I1) in Hcp, Hv2. assert (y_mem s4 = k_mem k2) as E4 by congruence.
    assert (∀ va, pt (yk s4) pg va = pt k2 pg va) as Ept4 by (intros va; rw /pt /= E4; done).
    split_and!; [done|intros b Hb; rw E4; apply Hfr; by apply not_elem_of_cons in Hb as [_ ?]|]. right. split_and!; [done|done|done| |].
    + split; [|intros va Hva HP; rw Ept4; by apply Hoth].
      intros va Hva HP. destruct (Hcp va Hva HP) as (b & Hb & E1 & E2). exists b. rw Ept4 E1 E4 E2 Ept. done.
    + exists F'. eapply vspace_eq; [exact E4|by rw /= L4| |exact Hv2]. rw (sm_core _ _ Hs2) /= C4 (in_core _ _ _ _ _ _ I1). done.
  - change (0 =? 0) with true. cbn iota.
    eapply total_mono; [eapply (fork_undo (pg :: F) F' leak st np _ s s3 p I3)|].
    + by apply Hk3.
    + done.
    + intros Hin. apply Hnst. rw -Hperm elem_of_app. by right.
    + by intros p'.
    + done.
    + intros b Hb. rw M3. by apply Hfr.
    + done.
    + intros r s4 (-> & Hg & W4 & Hk4 & Hp4 & M4). split_and!; [|done|left; split_and!; [done|done|done|by exists (st :: F'), leak]].
      destruct Hg as (f & C4 & Hg). apply (refs_slot s s4 np f); [done|done|by rw C4|intros p'; apply Hg|]. intros p' Hp' _. congruence.
Qed.

End branches.

(** C24: [fork] by a process whose memory is laid out as [uspace] says and is less
    than 4 GB, with the counts of the open files right.  When the process table
    is full it changes nothing and fails.  Without a page for the stack it fails
    and the slot is free again; with that page but none for the page table it
    writes through a null pointer.  Otherwise it either fails with the slot free
    and at most one page lost, or returns the next process id with a child in the
    first free slot: runnable, child of the caller, with its registers but a zero
    result, its size, name and directory (counted once more), all its descriptors,
    each counted as a reference of its file, and a copy of its memory. *)
Theorem fork_correct F X s sz i q d :
  refs_ok s → runs_as s i q → c_locks (ycore s) = [] → p_cwd q = Some d → uspace kend F X sz s → sz < 2 ^ 32 →
  match find_state UNUSED NPROC 0 (c_procs (ycore s)) with
  | None => fork kend s = Ret (-1) s
  | Some np =>
    match F with
    | [] => total (fork kend) s (λ r s', r = -1 ∧ given_up np s s' ∧ refs_ok s' ∧ y_files s' = y_files s ∧
              y_mem s' = y_mem s ∧ krepr kend [] (yk s'))
    | [st] => y_mem s !! 0 = None → ∃ s', fork kend s = Fault s'
    | st :: pg :: F1 => total (fork kend) s (λ r s', fork_post np i d q st pg F1 X r s s')
    end
  end.
Proof.
  intros H Hr Hl Hd [_ Hsz Hv Hb Hpg] Hmax. rw (runs_myproc s i q Hr) in Hsz Hv Hpg. subst sz.
  pose proof (find_state_spec UNUSED NPROC 0 (c_procs (ycore s))) as Hspec.
  destruct (find_state UNUSED NPROC 0 (c_procs (ycore s))) as [np|] eqn:Hf.
  2:{ rw /fork. erewrite run_bind; [|by apply allocproc_none]. done. }
  destruct Hspec as (Hnp & Hu & _). destruct (lookup_lt_is_Some_2 (c_procs (ycore s)) np) as [p Hp]; [rw (ro_procs _ H); lia|].
  rw (list_lookup_total_correct _ _ _ Hp) in Hu. assert (np ≠ i) as Hne by (destruct Hr as (_ & Hq & _ & Hrun); congruence).
  destruct F as [|st [|pg F]].
  - eapply (fork_no_stack s i np d q p); try done. apply Hv.
  - eapply (fork_no_pgdir s i np d q p); done.
  - eapply (fork_run s i np d q p); try done; [plia|]. intros n Hn. rw Hpg; [rw /uaddr; rw /pages in Hn; plia|].
    rw Z.div_mul //. by apply bool_decide_eq_true.
Qed.

End fork.
