(* ===== verification/VmExamples.v ===== *)
(** * An address space with one page, and the theorems on it

    Seven pages of memory: a root table, three tables below it, the page they
    map at [PGSIZE], and two free pages. *)

From S2P Require Import Prelude Kernel Kalloc Vm VmTree VmSpace VmOps VmSize VmCopy FsImage Examples.

Definition vend : Z := KERNBASE + PHYSTOP - 7 * PGSIZE.
Definition vpage (i : Z) : Z := vend + i * PGSIZE.
Definition ventry (i v : Z) : list Z := store64 (8 * i) v zpage.

Definition vst : kst := mkKst core0
  {[ vpage 0 := ventry 0 (table_pte (vpage 1)); vpage 1 := ventry 0 (table_pte (vpage 2));
     vpage 2 := ventry 0 (table_pte (vpage 3)); vpage 3 := ventry 1 (page_pte (vpage 4) (Z.lor PTE_W PTE_U));
     vpage 4 := replicate (Z.to_nat PGSIZE) 7; vpage 5 := ventry 0 (vpage 6); vpage 6 := zpage ]}
  (vpage 5) 0 (mkVmg 0 0 0 0).

Definition vfree : list Z := [vpage 5; vpage 6].

Lemma vpages p : kpage vend p → p ∈ vpage <$> seqZ 0 7.
Proof.
  intros [Ha He Hb]. apply list_elem_of_fmap. exists ((p - vend) / PGSIZE). rw elem_of_seqZ. rw /vpage /vend in He |- *. plia.
Qed.

Definition is_page (d : list Z) : bool := (lenZ d =? PGSIZE) && forallb (λ b, (0 <=? b) && (b <? 256)) d.

Lemma is_page_ok d : is_page d = true → page d.
Proof.
  rw /is_page. intros [Hl Hb]%andb_true_iff. split; [lia|]. apply list.Forall_forall. intros b Hin.
  rewrite forallb_forall in Hb. specialize (Hb b). rw /byte. apply list_elem_of_In in Hin. specialize (Hb Hin). lia.
Qed.

Lemma vst_mem : forallb (λ p, match k_mem vst !! p with Some d => is_page d | None => false end) (vpage <$> seqZ 0 7) = true.
Proof. vm_compute. reflexivity. Qed.

Lemma vst_foot : foot true 4 (k_mem vst) (vpage 0) = vpage <$> seqZ 0 5.
Proof. vm_compute. reflexivity. Qed.

Lemma vst_krepr : krepr vend vfree vst.
Proof.
  split.
  - split; [done|]. exists (ventry 0 (vpage 6)). split; [vm_compute; reflexivity|].
    assert (load64 0 (ventry 0 (vpage 6)) = vpage 6) as -> by (vm_compute; reflexivity).
    split; [done|]. exists zpage. split; [vm_compute; reflexivity|]. vm_compute. reflexivity.
  - by apply (bool_decide_eq_true _).
  - repeat constructor; rw /vpage /vend; plia.
  - intros p Hp%vpages. pose proof vst_mem as Hm. rewrite forallb_forall in Hm. apply list_elem_of_In in Hp. specialize (Hm p Hp).
    destruct (k_mem vst !! p) as [d|]; [|done]. exists d. split; [done|]. by apply is_page_ok.
  - apply not_elem_of_nil.
Qed.

Lemma vst_space : vspace vend vfree (vpage 0) [] vst.
Proof.
  split; [apply vst_krepr|]. split; rw vst_foot.
  - by apply (bool_decide_eq_true _).
  - rw list.Forall_fmap. apply list.Forall_forall. intros i Hi%elem_of_seqZ. simpl. split; rw /vpage /vend; plia.
Qed.

Lemma vst_pt va : uaddr va → va / PGSIZE = 2 → has PTE_P (pt vst (vpage 0) va) = false.
Proof.
  intros Hu E. rw (pt_page vend vst (vpage 0) vfree [] (2 * PGSIZE) va vst_space); [done|done|by rw E|]. vm_compute. reflexivity.
Qed.

Lemma deallocuvm_correct_witness :
  ∃ s' F', deallocuvm vend (vpage 0) (2 * PGSIZE) PGSIZE vst = Ret PGSIZE s' ∧ vspace vend F' (vpage 0) [] s'.
Proof.
  destruct (deallocuvm_correct vend ltac:(done) vfree (vpage 0) [] vst (2 * PGSIZE) PGSIZE vst_space) as [_ H]; [done|done|].
  destruct (H ltac:(done)) as (r & s' & Hr & -> & F' & Hv & _). exists s', F'. exact (conj Hr Hv).
Defined.

Lemma allocuvm_correct_witness :
  ∃ r s' F', allocuvm vend (vpage 0) (2 * PGSIZE) (3 * PGSIZE) vst = Ret r s' ∧ vspace vend F' (vpage 0) [] s'.
Proof.
  destruct (allocuvm_correct vend ltac:(done) vfree (vpage 0) [] vst (2 * PGSIZE) (3 * PGSIZE) vst_space) as (_ & _ & H); [done| |].
  - intros va Hu HP. apply vst_pt; [done|]. rw /pages in HP. plia.
  - destruct (H ltac:(done)) as (r & s' & Hr & F' & Hv & _). exists r, s', F'. exact (conj Hr Hv).
Defined.

Lemma freevm_correct_witness : ∃ s' (F' : list Z), freevm vend (vpage 0) vst = Ret tt s' ∧ length F' = 7%nat.
Proof.
  destruct (freevm_correct vend vfree (vpage 0) [] vst vst_space) as [([] & s' & Hr & F' & Hf) _]. exists s', F'. split; [exact Hr|].
  rw (fd_perm _ _ _ _ _ _ Hf) vst_foot. reflexivity.
Defined.

Lemma copyuvm_correct_witness : ∃ r s', copyuvm vend (vpage 0) (2 * PGSIZE) vst = Ret r s' ∧ k_mem s' !! vpage 4 = k_mem vst !! vpage 4.
Proof.
  destruct (copyuvm_correct vend [vpage 5; vpage 6] (vpage 0) [] vst (2 * PGSIZE) vst_space) as (r & s' & Hr & _ & Hfr & _); [done| |].
  - intros n Hn. assert (n = 1) as -> by (rw /pages in Hn; plia). vm_compute. reflexivity.
  - exists r, s'. split; [exact Hr|]. apply Hfr. by apply (bool_decide_eq_true _).
Defined.

(** With two free pages the copy fails after it has taken both, and gives back
    only the root: the other page is neither free nor mapped. *)
Theorem copyuvm_leaks : ∃ s', copyuvm vend (vpage 0) (2 * PGSIZE) vst = Ret 0 s' ∧ k_freelist s' = vpage 5 ∧ rd64 (vpage 5) s' = Ret 0 s'.
Proof. eexists. split; [vm_compute; reflexivity|]. split; vm_compute; reflexivity. Qed.
