(* ===== verification/KernelExamples.v ===== *)
(** * The theorems on processes and system calls on concrete states

    A machine with init and one other process, on the disk of FsImage.v. *)

From S2P Require Import Prelude Layout Kernel Kalloc Vm VmTree VmSpace VmOps VmSize VmCopy Store Fs Pipe Sys File Proc ProcInv Syscall SysMem Sysfile FdInv Fork Bio Log LogStore FsImage VmExamples.

Definition init0 : proc :=
  mkProc 4096 (KERNBASE + 0x300000) 0 RUNNING 1 None tf0 None 0 (replicate NOFILE None) None (replicate 16 0).

Definition ptable0 : list proc := init0 :: replicate 63 proc0.
Definition core1 : core := mkCore [] ptable0 (Some 0%nat) 2 (Some 0%nat).

Lemma ptable0_lookup (i : nat) (q : proc) : ptable0 !! i = Some q → i = 0%nat ∧ q = init0 ∨ q = proc0.
Proof.
  destruct i as [|i]; [intros [= <-]; by left|]. rw /ptable0 lookup_cons. intros [-> _]%lookup_replicate_1. by right.
Qed.

Lemma core1_ok : pt_ok core1.
Proof.
  split => //=.
  - exists 0%nat, init0. split_and! => //. by right; right.
  - by move=> i q /ptable0_lookup [[_ ->]|->].
  - by move=> i j q r /ptable0_lookup [[-> ->]|->] /ptable0_lookup [[-> ->]|->].
  - move=> i q /ptable0_lookup [[-> ->]|->] //= H. exfalso. apply H. by left.
  - by move=> i q /ptable0_lookup [[_ ->]|->].
  - by move=> i q /ptable0_lookup [[_ ->]|->].
  - by move=> i j q /ptable0_lookup [[_ ->]|->] [].
  - by move=> i q k r /ptable0_lookup [[_ ->]|->] [].
Qed.

Definition core_of {A} (o : outcome core A) : core := match o with Ret _ c => c | Sched c => c | _ => core1 end.

(** The whole machine around a process table. *)
Definition sys_with (c : core) : sys lst :=
  mkSys (mkFst (cold c disk0) sb0 ino0) ∅ 0 1 (mkVmg 0 0 0 0) ∅ ∅ (replicate NFILE file0) 0.

(** Nobody is in [fork]. *)
Lemma forks1 : forks ∅ (c_procs core1).
Proof.
  split.
  - by move=> me i l; rw lookup_empty.
  - by move=> me me' i l l'; rw lookup_empty.
  - by move=> i q j /ptable0_lookup [[_ ->]|->].
Qed.

(** Init forks, and goes to sleep in [wait]. *)
Definition core2 : core := core_of (alloc_slot (at_cpu 0 [] core1)).
Definition core3 : core := core_of (fork_link 1 4096 (at_cpu 0 [] core2)).
Definition core4 : core := core_of (put_state 1 RUNNABLE (at_cpu 0 [] core3)).
Definition core5 : core := match wait_loop vend (sys_with (at_cpu 0 [LPtable] core4)) with Sched s => ycore s | _ => core1 end.

Lemma reach5 : rtc (pt_step (S:=lst) vend) (core1, ∅) (core5, delete 0%nat (<[0%nat := (1%nat, true)]> (<[0%nat := (1%nat, false)]> ∅))).
Proof.
  eapply rtc_l; [apply (pt_alloc vend 0 (Some 1%nat) core1 core2 ∅); [by eexists|done|done|by vm_compute]|].
  eapply rtc_l; [apply (pt_link vend 0 1 4096 core2 core3); [by eexists|by rw lookup_insert_eq|by vm_compute]|].
  eapply rtc_l; [apply (pt_ready vend 0 1 core3 core4); [by eexists|by rw lookup_insert_eq|by vm_compute]|].
  have [s Hs] : ∃ s, wait_loop vend (sys_with (at_cpu 0 [LPtable] core4)) = Sched s by eexists; vm_compute.
  eapply rtc_l; [apply (pt_wait_sleep vend 0 (sys_with (at_cpu 0 [LPtable] core4)) s core4); [by eexists|reflexivity|exact Hs]|].
  have -> : core5 = ycore s by rw /core5 Hs. constructor.
Qed.

Lemma ptable_invariant_witness : pt_ok core1 ∧ pt_ok core5 ∧ p_state (c_procs core5 !!! 0%nat) = SLEEPING.
Proof.
  split; [exact core1_ok|]. split; [|by vm_compute].
  exact (proj1 (ptable_invariant vend core1 core5 _ _ core1_ok forks1 reach5)).
Defined.

Lemma kill_zero_witness :
  total (r ← kill 0; i' ← alloc_slot; mret (r, i')) (at_cpu 0 [] core1) (λ x c',
    x = (0, Some 1%nat) ∧ ∃ q', c_procs c' !! 1%nat = Some q' ∧ p_killed q' = 1 ∧ p_state q' = EMBRYO ∧
      p_pid q' = c_nextpid core1).
Proof. apply (kill_zero core1 1 0 proc0); [exact core1_ok|by vm_compute|done|done]. Defined.

(** Process 3 is runnable, nothing else is. *)
Definition proc3 : proc := mkProc 4096 (KERNBASE + 0x301000) 0 RUNNABLE 5 (Some 0%nat) tf0 None 0 (replicate NOFILE None) None (replicate 16 0).
Definition sys3 : sys lst := sys_with (mkCore [LPtable] (<[3%nat := proc3]> (replicate 64 proc0)) None 6 (Some 0%nat)).

Definition sys_idle : sys lst := sys_with (mkCore [] (<[3%nat := proc3]> (replicate 64 proc0)) None 6 (Some 0%nat)).

(** It runs, yields, and is chosen again in the next pass. *)
Lemma rounds3 (n : nat) : rounds 3 0 sys3 (concat (replicate n [Some 3%nat; None])).
Proof.
  elim: n => [|n IH] /=; first constructor.
  have [s1 H1] : ∃ s1, scheduler_step 0 sys3 = Ret (Some 3%nat) s1 by eexists; vm_compute.
  set s3 := match scheduler_resume 3 sys3 with Ret _ s => s | _ => sys3 end.
  have [s2 H2] : ∃ s2, scheduler_step 4 s3 = Ret None s2 by eexists; vm_compute.
  eapply (rounds_pick 3 0 4 sys3 3 s1 sys3 s3); [done|exact H1|by vm_compute|].
  by eapply (rounds_end 3 4 0 s3 s2 sys_idle sys3); [by vm_compute|exact H2|by vm_compute|].
Qed.

Lemma scheduler_fair_witness : Some 3%nat ∈ concat (replicate 40 [Some 3%nat; @None nat]).
Proof.
  apply (scheduler_fair 3 0 sys3); [apply Nat.ltb_lt; by vm_compute|apply Nat.leb_le; by vm_compute|exact (rounds3 40)|].
  apply Nat.ltb_lt. by vm_compute.
Defined.

(** ** A process with memory *)

(** The process of VmExamples.v, whose system call argument is [arg]. *)
Definition procm (sz arg : Z) : proc :=
  mkProc sz (vpage 0) 0 RUNNING 1 None (mkTf 0 0 0 0 0 0 arg 0 0 0 0 0 0 0 0 0 0 0 0 0 0 0) None 0 (replicate NOFILE None) None (replicate 16 0).
Definition sysm (sz arg : Z) : sys lst :=
  mkSys (mkFst (cold (mkCore [] [procm sz arg] (Some 0%nat) 2 (Some 0%nat)) disk0) sb0 ino0) (k_mem vst) (k_freelist vst) 0
    (mkVmg 0 0 0 0) ∅ ∅ (replicate NFILE file0) 0.

Lemma vst_leaves : leaves 4 (k_mem vst) (vpage 0) = [vpage 4].
Proof. vm_compute. reflexivity. Qed.

Lemma vst_pages va : uaddr va → has PTE_P (pt vst (vpage 0) va) = bool_decide (pages PGSIZE (2 * PGSIZE) (va / PGSIZE)).
Proof.
  intros Hu. assert (uaddr PGSIZE) as Hp by done. destruct vst_space as [_ Ht].
  assert (has PTE_P (pte 4 (k_mem vst) (vpage 0) PGSIZE) = true) as H1 by (vm_compute; reflexivity).
  pose proof (pte_leaf vend 3 _ _ _ PGSIZE ltac:(lia) Hp Ht H1) as L1. rw vst_leaves in L1. apply list_elem_of_singleton in L1.
  destruct (decide (va / PGSIZE = 1)) as [E|E].
  - rw bool_decide_eq_true_2; [rw /pages; plia|]. by rw (pt_page vend vst (vpage 0) vfree [] PGSIZE va vst_space).
  - rw bool_decide_eq_false_2; [rw /pages; plia|]. apply not_true_is_false. intros H2. apply E.
    pose proof (pte_leaf vend 3 _ _ _ va ltac:(lia) Hu Ht H2) as L2. rw vst_leaves in L2. apply list_elem_of_singleton in L2.
    assert (same_path 4 PGSIZE va) as Hs by (eapply (pte_inj vend 3); [lia|done|done|exact Ht|exact H1|exact H2|congruence]).
    by apply same_path_page in Hs.
Qed.

Lemma sysm_space arg : uspace vend vfree [] (2 * PGSIZE) (sysm (2 * PGSIZE) arg).
Proof.
  split; [exists 0%nat; split; [reflexivity|apply Nat.ltb_lt; reflexivity]|reflexivity| |done|exact vst_pages].
  apply (vspace_eq vend vfree (vpage 0) [] vst); [done|done|done|exact vst_space].
Qed.

Lemma growproc_correct_witness :
  (∃ r s', growproc vend 4096 (sysm (2 * PGSIZE) 0) = Ret r s' ∧ (r = 0 ∨ r = -1)) ∧
  ∃ s', growproc vend (- (2 * PGSIZE)) (sysm (2 * PGSIZE) 0) = Ret (-1) s'.
Proof.
  split.
  - destruct (growproc_correct vend ltac:(done) vfree [] _ _ 4096 (sysm_space 0)) as (r & s' & Hr & [(_ & F' & Hor)|[(Hlt & _)|(Hlt & _)]]);
      [done|done| |plia|plia]. exists r, s'. split; [exact Hr|]. destruct Hor as [[-> _]|[-> _]]; [by left|by right].
  - destruct (growproc_correct vend ltac:(done) vfree [] _ _ (- (2 * PGSIZE)) (sysm_space 0)) as
      (r & s' & Hr & [(Hle & _)|[(_ & _ & [(_ & Hlt & _)|(-> & _)])|(Hlt & _)]]); [done|done|plia|plia| |plia]. exists s'. exact Hr.
Defined.

Lemma fetchstr_correct_witness : fetchstr 0 (sysm (2 * PGSIZE) 0) = Fault (sysm (2 * PGSIZE) 0).
Proof. apply (fetchstr_correct vend vfree [] _ _ 0 (sysm_space 0)); done. Defined.

Lemma argptr_kernel_write_witness :
  ∃ s' : sys lst, (r ← argptr 0 1; match r with Some p => lift (uwrite (vpage 0) p [7]) | None => fault end) (sysm PHYSTOP (vpage 6 + 5)) = Ret tt s'.
Proof.
  destruct (argptr_kernel_write (sysm PHYSTOP (vpage 6 + 5)) 0 (vpage 6 + 5) 1 7 zpage) as ([] & s' & Hr & _); [done..|].
  exists s'. exact Hr.
Defined.

(** ** Two descriptors of one file *)

Definition procf : proc :=
  mkProc (2 * PGSIZE) (vpage 0) 0 RUNNING 1 None tf0 None 0 (Some 0%nat :: Some 0%nat :: replicate 14 None) (Some 0%nat) (replicate 16 0).
Definition sysf : sys lst :=
  mkSys (mkFst (cold (mkCore [] (procf :: replicate 63 proc0) (Some 0%nat) 2 (Some 0%nat)) disk0) sb0 ino0) (k_mem vst) (k_freelist vst) 0
    (mkVmg 0 0 0 0) ∅ ∅ (w_fref 2 file0 :: replicate 99 file0) 0.

Lemma procf_lookup (i : nat) q : (procf :: replicate 63 proc0) !! i = Some q → q = procf ∨ q = proc0.
Proof. destruct i as [|i]; [intros [= <-]; by left|]. intros [-> _]%(lookup_replicate_1 63). by right. Qed.

Lemma fd_lookup (fd k : nat) : p_ofile procf !! fd = Some (Some k) → k = 0%nat.
Proof. do 2 (destruct fd as [|fd]; [by intros [= <-]|]). by intros [? _]%(lookup_replicate_1 14). Qed.

Lemma sysf_count (k : nat) : fdcount k (procf :: replicate 63 proc0) = if decide (k = 0%nat) then 2%nat else 0%nat.
Proof.
  assert (fdcount k (replicate 63 proc0) = 0%nat) as E.
  { assert (cnt k (p_ofile proc0) = 0%nat) as E0 by reflexivity. rw /fdcount. generalize 63%nat as n. intros n. by induction n; cbn [replicate sum_list_with]; rw ?E0. }
  change (fdcount k (procf :: replicate 63 proc0)) with (cnt k (Some 0%nat :: Some 0%nat :: replicate 14 None) + fdcount k (replicate 63 proc0))%nat.
  assert (cnt k (replicate 14 None) = 0%nat) as E0 by reflexivity. rewrite E 2!cnt_cons E0 /one. repeat case_decide; simplify_eq; done.
Qed.

Lemma sysf_ok : refs_ok sysf.
Proof.
  split.
  - reflexivity.
  - reflexivity.
  - intros i q [-> | ->]%procf_lookup; reflexivity.
  - by intros i q [-> | ->]%procf_lookup.
  - intros i q fd k [-> | ->]%procf_lookup.
    + intros ->%fd_lookup. apply Nat.ltb_lt. reflexivity.
    + by intros [? _]%(lookup_replicate_1 16).
  - intros k Hk. change (c_procs (ycore sysf)) with (procf :: replicate 63 proc0). rw sysf_count.
    destruct k as [|k]; [done|]. rw /nfile. change (y_files sysf !!! S k) with (replicate 99 file0 !!! k).
    rw lookup_total_replicate_2 //. rw /NFILE in Hk. lia.
Qed.

Lemma sysf_runs : runs_as sysf 0 procf.
Proof. split_and!; [reflexivity|reflexivity|apply not_elem_of_nil|reflexivity]. Qed.

Lemma sys_dup_correct_witness : ∃ (new : nat) s', sys_dup sysf = Ret (Z.of_nat new) s' ∧ f_ref (nfile 0 s') = 3.
Proof.
  pose proof (sys_dup_correct sysf 0 procf sysf_ok sysf_runs) as H. cbv zeta in H.
  change (descr sysf (i32 (rdi (p_tf procf)))) with (Some 0%nat) in H.
  destruct H as [[H _]|(new & s' & _ & Hr & _ & _ & Hf)]; [exfalso; apply (H 2%nat); reflexivity|]. exists new, s'. split; [exact Hr|exact Hf].
Defined.

Lemma sys_close_shared_witness : ∃ s', sys_close vend sysf = Ret 0 s' ∧ f_ref (nfile 0 s') = 1.
Proof.
  pose proof (sys_close_shared vend sysf 0 procf sysf_ok sysf_runs) as H. cbv zeta in H.
  change (descr sysf (i32 (rdi (p_tf procf)))) with (Some 0%nat) in H.
  destruct (H ltac:(done)) as (s' & Hr & _ & _ & _ & Hf). exists s'. split; [exact Hr|exact Hf].
Defined.

Lemma sysf_space : uspace vend vfree [] (2 * PGSIZE) sysf.
Proof.
  split; [exists 0%nat; split; [reflexivity|apply Nat.ltb_lt; reflexivity]|reflexivity| |done|exact vst_pages].
  apply (vspace_eq vend vfree (vpage 0) [] vst); [done|done|done|exact vst_space].
Qed.

Lemma fork_correct_witness : ∃ r s', fork vend sysf = Ret r s' ∧ refs_ok s' ∧ (r = -1 ∨ r = 2).
Proof.
  pose proof (fork_correct vend vfree [] sysf (2 * PGSIZE) 0 procf 0 sysf_ok sysf_runs eq_refl eq_refl sysf_space ltac:(done)) as H.
  change (find_state UNUSED NPROC 0 (c_procs (ycore sysf))) with (Some 1%nat) in H.
  destruct H as (r & s' & Hr & H & _ & Hor). exists r, s'. split; [exact Hr|]. split; [exact H|].
  destruct Hor as [(-> & _)|(-> & _)]; [by left|by right].
Defined.

(** With six free pages the child gets its stack, four tables and a copy of the
    page. *)
Definition wend : Z := KERNBASE + PHYSTOP - 11 * PGSIZE.
Definition wpage (i : Z) : Z := wend + i * PGSIZE.
Definition sysw : sys lst :=
  let q := w_pgdir (wpage 0) procf in
  mkSys (mkFst (cold (mkCore [] (q :: replicate 63 proc0) (Some 0%nat) 2 (Some 0%nat)) disk0) sb0 ino0)
    {[ wpage 0 := ventry 0 (table_pte (wpage 1)); wpage 1 := ventry 0 (table_pte (wpage 2));
       wpage 2 := ventry 0 (table_pte (wpage 3)); wpage 3 := ventry 1 (page_pte (wpage 4) (Z.lor PTE_W PTE_U));
       wpage 4 := replicate (Z.to_nat PGSIZE) 7; wpage 5 := ventry 0 (wpage 6); wpage 6 := ventry 0 (wpage 7);
       wpage 7 := ventry 0 (wpage 8); wpage 8 := ventry 0 (wpage 9); wpage 9 := ventry 0 (wpage 10); wpage 10 := zpage ]}
    (wpage 5) 0 (mkVmg 0 0 0 0) ∅ ∅ (w_fref 2 file0 :: replicate 99 file0) 0.

Example fork_child :
  match fork wend sysw with
  | Ret r s' => r = 2 ∧ y_freelist s' = 0 ∧ f_ref (nfile 0 s') = 4 ∧ p_state (c_procs (ycore s') !!! 1%nat) = RUNNABLE ∧
      pt (yk s') (wpage 6) PGSIZE = page_pte (wpage 7) (Z.lor PTE_W PTE_U) ∧ y_mem s' !! wpage 7 = y_mem sysw !! wpage 4
  | _ => False
  end.
Proof. vm_compute. split_and!; reflexivity. Qed.
