(* ===== verification/TrapExamples.v ===== *)
(** * The theorems on traps on concrete states

    The allocator of VmExamples.v, and the machine of KernelExamples.v with a
    console. *)

From S2P Require Import Prelude Layout Kernel Kalloc VmTree Store Fs Sys Proc Printf Kbd Console ConsoleScreen Bio Log LogStore FsImage Seg Trap VmExamples KernelExamples.

Definition vectors0 (n : Z) : Z := 0xffff800000100000 + 16 * n.

Lemma vectors0_range n : 0 ≤ n < 256 → 0 ≤ vectors0 n < 2 ^ 64.
Proof. rw /vectors0. lia. Qed.

Lemma tvinit_gates_witness :
  ∃ s' d, tvinit vectors0 vst = Ret (vpage 5) s' ∧ gate_at d 255 = interrupt_gate (vectors0 255) 0.
Proof.
  destruct (tvinit_gates vend vectors0 (vpage 5) [vpage 6] vst vst_krepr vectors0_range) as (s' & d & Hr & _ & _ & Hg).
  exists s', d. split; [exact Hr|]. apply (Hg 255). split; [discriminate|reflexivity].
Defined.

Definition seg0 : seg := mkSeg vst (λ _, 0) (0, 0) 0 (λ _, 0).

Lemma seginit_segments_witness :
  ∃ s' d, (seginit 0xffff800000110000 1;; syscallinit 0xffff800000100020 0xffff800000100090) seg0 = Ret tt s' ∧
    k_mem (sg_k s') !! vpage 5 = Some d ∧ code64 3 (desc_of d (sg_msr s' MSR_STAR / 2 ^ 48 + 16)).
Proof.
  destruct (seginit_segments vend 0xffff800000100020 0xffff800000100090 0xffff800000110000 1 (vpage 5) [vpage 6] seg0 vst_krepr)
    as (s' & d & Hr & _ & Hd & _ & _ & H). exists s', d. split; [exact Hr|]. split; [exact Hd|]. apply H.
Defined.

(** Process 1 runs in user mode; init sleeps until the clock ticks. *)
Definition core_t : core :=
  mkCore [] (set_chan (Some ChTicks) (set_state SLEEPING init0) ::
    mkProc 4096 (KERNBASE + 0x301000) 0 RUNNING 2 (Some 0%nat) tf0 None 0 (replicate NOFILE None) None (replicate 16 0) :: replicate 62 proc0)
    (Some 1%nat) 3 (Some 0%nat).
Definition tst0 : tst lst :=
  mkTst (sys_with core_t) (cn_locking cons0) (cn_panicked cons0) (cn_uart cons0) (cn_sent cons0) (cn_screen cons0) (cn_input cons0)
    false ∅ 0 0xffff8000fee00000 0.
Definition tf_user (n : Z) : trapframe := mkTf 0 0 0 0 0 0 0 0 0 0 0 0 0 0 0 n 0 0x1000 0x23 0 0 0.
Definition hw0 : hw := mkHw 0 0xdead [] [].

Lemma trap_user_return_witness :
  user_mode (tf_user 46) = true ∧ trap vend (λ _, 0) id (tf_user 46) hw0 tst0 = Ret tt (set_eoi 1 tst0) ∧
  killed (set_eoi 1 tst0) = false.
Proof.
  split; [reflexivity|]. split; [reflexivity|].
  apply (proj1 (trap_user_return vend (λ _, 0) id (tf_user 46) hw0 tst0 (set_eoi 1 tst0) eq_refl)). reflexivity.
Defined.

Lemma trap_timer_witness :
  ∃ t', trap vend (λ _, 0) id (tf_user 32) hw0 tst0 = Sched t' ∧ y_ticks (t_sys t') = 1 ∧
    p_state <$> take 3 (c_procs (tcore t')) = [RUNNABLE; RUNNABLE; UNUSED].
Proof.
  eexists. split; [eapply (trap_timer vend (λ _, 0) id (tf_user 32) hw0 tst0 1); [reflexivity..|by left]|].
  split; [reflexivity|vm_compute; reflexivity].
Defined.

Lemma trap_fault_witness :
  ∃ out c, format false kill_message (kill_args (tf_user 14) hw0 (c_procs core_t !!! 1%nat)) = Some out ∧ emits out (tcons tst0) c ∧
    trap vend (λ _, 0) id (tf_user 14) hw0 tst0 = lift (exit vend) (set_tcore (pupd 1 (w_killed 1) (tcore tst0)) (set_tcons c tst0)).
Proof.
  destruct (trap_fault vend (λ _, 0) id (tf_user 14) hw0 tst0 1 (c_procs core_t !!! 1%nat)) as [Hu _];
    [reflexivity|reflexivity|reflexivity|split; [split; [reflexivity|exact (co_screen _ cons0_ok)]|right; apply not_elem_of_nil]|].
  destruct (Hu eq_refl) as (out & c & Hf & He & Hr & _). exact (ex_intro _ out (ex_intro _ c (conj Hf (conj He Hr)))).
Defined.
