(* ===== verification/Shell.v ===== *)
(** * The shell: sh.c

    The parser of sh.c, recursive descent over a line held in a buffer, with
    [nulterminate], which cuts the words out of the buffer in place; and
    [runcmd], as the tree of system calls it makes.  Theorems: the parser
    terminates on every line; every command tree can be written so that it is
    parsed back; the words of a parsed command survive [nulterminate]; and the
    file descriptors every program of a command is started with.

    A pointer into the line is the rest of the line from there, so [*s] is the
    head of the list, or the final NUL when nothing is left.  [malloc] is taken
    to succeed. *)

From S2P Require Import Prelude.

(** ** Commands *)

Definition tok : Type := list Z * list Z.   (** the pointers [q] and [eq] *)

(** One constructor per [struct ...cmd]. *)
Inductive cmd :=
| Exec (argv : list tok)
| Redir (c : cmd) (file : tok) (mode fd : Z)
| Pipe (l r : cmd)
| List (l r : cmd)
| Back (c : cmd).

Definition O_RDONLY : Z := 0.
Definition O_WRONLY : Z := 1.
Definition O_CREATE : Z := 0x200.
Definition MAXARGS : nat := 10.

(** The constructors of sh.c: a fresh, zeroed structure with its fields set. *)
Definition execcmd : cmd := Exec [].
Definition redircmd (subcmd : cmd) (file : tok) (mode fd : Z) : cmd := Redir subcmd file mode fd.
Definition pipecmd (left right : cmd) : cmd := Pipe left right.
Definition listcmd (left right : cmd) : cmd := List left right.
Definition backcmd (subcmd : cmd) : cmd := Back subcmd.

(** ** Tokens *)

Definition whitespace : list Z := [32; 9; 13; 10; 11].
Definition symbols : list Z := [60; 124; 62; 38; 59; 40; 41].
Definition ws (c : Z) : bool := bool_decide (c ∈ whitespace).
Definition sym (c : Z) : bool := bool_decide (c ∈ symbols).

Fixpoint skipws (s : list Z) : list Z :=
  match s with
  | c :: s' => if ws c then skipws s' else s
  | [] => []
  end.

Fixpoint skipword (s : list Z) : list Z :=
  match s with
  | c :: s' => if ws c || sym c then s else skipword s'
  | [] => []
  end.

(** [gettoken]: the token, its two ends, and the new [*ps]. *)
Definition gettoken (s : list Z) : Z * tok * list Z :=
  let q := skipws s in
  let '(ret, e) :=
    match q with
    | [] => (0, q)
    | c :: s1 =>
      if bool_decide (c ∈ [124; 40; 41; 59; 38; 60]) then (c, s1)
      else if c =? 62 then
        match s1 with
        | d :: s2 => if d =? 62 then (43, s2) else (c, s1)
        | [] => (c, s1)
        end
      else (97, skipword q)
    end in
  (ret, (q, e), skipws e).

Definition peek (s toks : list Z) : bool * list Z :=
  let s := skipws s in
  (match s with [] => false | c :: _ => bool_decide (c ∈ toks) end, s).

(** ** The parser *)

(** What a parsing function returns: a value and the new [*ps], or [panic]. *)
Inductive pres (A : Type) :=
| Ok (a : A) (s : list Z)
| Err (msg : string)
| Fuel.
Arguments Ok {_} _ _.
Arguments Err {_} _.
Arguments Fuel {_}.

Definition pbind {A B} (r : pres A) (f : A → list Z → pres B) : pres B :=
  match r with Ok a s => f a s | Err m => Err m | Fuel => Fuel end.

(** A redirection wraps the command it is given; [parseexec] goes on adding
    arguments to the [execcmd] inside, which [cmd] still points to. *)
Definition addargs (c : cmd) (args : list tok) : cmd :=
  match c with Exec argv => Exec (argv ++ args) | _ => c end.
Definition redir : Type := tok * Z * Z.
Definition wrap (c : cmd) (rs : list redir) : cmd :=
  foldl (λ c r, redircmd c r.1.1 r.1.2 r.2) c rs.

(** The loop of [parseredirs]. *)
Fixpoint parseredirs (fuel : nat) (rs : list redir) (s : list Z) : pres (list redir) :=
  match fuel with
  | O => Fuel
  | S fuel =>
    let (b, s) := peek s [60; 62] in
    if b then
      let '(t, _, s) := gettoken s in
      let '(t2, f, s) := gettoken s in
      if negb (t2 =? 97) then Err "missing file for redirection" else
      let rs :=
        if t =? 60 then rs ++ [(f, O_RDONLY, 0)]
        else if t =? 62 then rs ++ [(f, Z.lor O_WRONLY O_CREATE, 1)]
        else if t =? 43 then rs ++ [(f, Z.lor O_WRONLY O_CREATE, 1)]
        else rs in
      parseredirs fuel rs s
    else Ok rs s
  end.

(** The loop of [parseexec] over the arguments. *)
Fixpoint parseargs (fuel : nat) (args : list tok) (rs : list redir) (s : list Z) : pres cmd :=
  match fuel with
  | O => Fuel
  | S fuel =>
    let (b, s) := peek s [124; 41; 38; 59] in
    if b then Ok (wrap (addargs execcmd args) rs) s else
    let '(t, w, s) := gettoken s in
    if t =? 0 then Ok (wrap (addargs execcmd args) rs) s else
    if negb (t =? 97) then Err "syntax" else
    let args := args ++ [w] in
    if (MAXARGS <=? length args)%nat then Err "too many args" else
    pbind (parseredirs (S (length s)) rs s) (parseargs fuel args)
  end.

(** The loop of [parseline] over [&]. *)
Fixpoint parseamps (fuel : nat) (c : cmd) (s : list Z) : pres cmd :=
  match fuel with
  | O => Fuel
  | S fuel =>
    let (b, s) := peek s [38] in
    if b then parseamps fuel (backcmd c) (gettoken s).2 else Ok c s
  end.

Fixpoint parseline (fuel : nat) (s : list Z) : pres cmd :=
  match fuel with
  | O => Fuel
  | S fuel =>
    pbind (parsepipe fuel s) (λ c s,
    pbind (parseamps (S (length s)) c s) (λ c s,
    let (b, s) := peek s [59] in
    if b then pbind (parseline fuel (gettoken s).2) (λ r s, Ok (listcmd c r) s)
    else Ok c s))
  end
with parsepipe (fuel : nat) (s : list Z) : pres cmd :=
  match fuel with
  | O => Fuel
  | S fuel =>
    pbind (parseexec fuel s) (λ c s,
    let (b, s) := peek s [124] in
    if b then pbind (parsepipe fuel (gettoken s).2) (λ r s, Ok (pipecmd c r) s)
    else Ok c s)
  end
with parseexec (fuel : nat) (s : list Z) : pres cmd :=
  match fuel with
  | O => Fuel
  | S fuel =>
    let (b, s) := peek s [40] in
    if b then parseblock fuel s else
    pbind (parseredirs (S (length s)) [] s) (λ rs s, parseargs (S (length s)) [] rs s)
  end
with parseblock (fuel : nat) (s : list Z) : pres cmd :=
  match fuel with
  | O => Fuel
  | S fuel =>
    let (b, s) := peek s [40] in
    if negb b then Err "parseblock" else
    pbind (parseline fuel (gettoken s).2) (λ c s,
    let (b, s) := peek s [41] in
    if negb b then Err "syntax - missing )" else
    let s := (gettoken s).2 in
    pbind (parseredirs (S (length s)) [] s) (λ rs s, Ok (wrap c rs) s))
  end.

(** Enough for any line, as [parse_terminates] shows. *)
Definition line_fuel (s : list Z) : nat := 4 * length s + 4.

(** [parsecmd] before [nulterminate]. *)
Definition parsetree (s : list Z) : pres cmd :=
  pbind (parseline (line_fuel s) s) (λ c s,
  let s := (peek s []).2 in
  match s with
  | [] => Ok c s
  | _ => Err "syntax"
  end).

(** ** [nulterminate] *)

(** The offset of a pointer into a line of [n] characters. *)
Definition ptr (n : nat) (s : list Z) : nat := n - length s.

(** [buf] is the line and its NUL. *)
Fixpoint nulterminate (n : nat) (c : cmd) (buf : list Z) : list Z :=
  match c with
  | Exec argv => foldl (λ b (t : tok), <[ptr n t.2 := 0]> b) buf argv
  | Redir c f _ _ => <[ptr n f.2 := 0]> (nulterminate n c buf)
  | Pipe l r => nulterminate n r (nulterminate n l buf)
  | List l r => nulterminate n r (nulterminate n l buf)
  | Back c => nulterminate n c buf
  end.

(** The string at an offset of the buffer. *)
Fixpoint cstr (l : list Z) : list Z :=
  match l with
  | c :: l => if c =? 0 then [] else c :: cstr l
  | [] => []
  end.

(** The command as [runcmd] sees it: every pointer replaced by its string. *)
Inductive scmd :=
| SExec (argv : list (list Z))
| SRedir (c : scmd) (file : list Z) (mode fd : Z)
| SPipe (l r : scmd)
| SList (l r : scmd)
| SBack (c : scmd).

Fixpoint strings (f : tok → list Z) (c : cmd) : scmd :=
  match c with
  | Exec argv => SExec (f <$> argv)
  | Redir c t mode fd => SRedir (strings f c) (f t) mode fd
  | Pipe l r => SPipe (strings f l) (strings f r)
  | List l r => SList (strings f l) (strings f r)
  | Back c => SBack (strings f c)
  end.

Definition parsecmd (line : list Z) : pres scmd :=
  pbind (parsetree line) (λ c s,
  let n := length line in
  let buf := nulterminate n c (line ++ [0]) in
  Ok (strings (λ t, cstr (drop (ptr n t.1) buf)) c) s).

(** ** [runcmd] *)

(** The system calls of a process; a call that can fail has the code run when
    it does, [exec] has only that. *)
Inductive prog :=
| PExit
| PPanic (msg : string)
| PExec (argv : list (list Z)) (bad : prog)
| PClose (fd : Z) (k : prog)
| PDup (fd : Z) (k : prog)
| POpen (file : list Z) (mode : Z) (bad k : prog)
| PPipe (bad : prog) (k : Z → Z → prog)
| PFork (bad child parent : prog)
| PWait (k : prog)
| PMsg (msg : string) (arg : list Z) (k : prog).

(** [fork1] panics when there is no process left; the child of every [fork1] of
    [runcmd] runs a command and never comes back. *)
Definition fork1 (child parent : prog) : prog := PFork (PPanic "fork") child parent.

Fixpoint runcmd (c : scmd) : prog :=
  match c with
  | SExec [] => PExit
  | SExec (a :: argv) => PExec (a :: argv) (PMsg "exec %s failed" a PExit)
  | SRedir c file mode fd =>
    PClose fd (POpen file mode (PMsg "open %s failed" file PExit) (runcmd c))
  | SList l r => fork1 (runcmd l) (PWait (runcmd r))
  | SPipe l r =>
    PPipe (PPanic "pipe") (λ p0 p1,
      fork1 (PClose 1 (PDup p1 (PClose p0 (PClose p1 (runcmd l)))))
      (fork1 (PClose 0 (PDup p0 (PClose p0 (PClose p1 (runcmd r)))))
      (PClose p0 (PClose p1 (PWait (PWait PExit))))))
  | SBack c => fork1 (runcmd c) PExit
  end.

(** ** Reading and running lines: [gets] of ulib.c, [getcmd] and [main] *)

(** The characters [gets] stores before the NUL, and the input left. *)
Fixpoint gets (max : nat) (input : list Z) : list Z * list Z :=
  match max with
  | S (S _ as m) =>
    match input with
    | [] => ([], [])
    | c :: rest =>
      if (c =? 10) || (c =? 13) then ([c], rest)
      else let (l, rest) := gets m rest in (c :: l, rest)
    end
  | _ => ([], input)
  end.

Definition NBUF : nat := 100.

(** [getcmd]: [None] at the end of the input, which an empty string marks. *)
Definition getcmd (input : list Z) : option (list Z * list Z) :=
  let (l, rest) := gets NBUF input in
  match l with
  | c :: _ => if c =? 0 then None else Some (cstr l, rest)
  | [] => None
  end.

(** What the shell does with a line. *)
Inductive action :=
| Cd (path : list Z)
| Run (c : pres scmd).

Definition command (buf : list Z) : action :=
  match buf with
  | 99 :: 100 :: 32 :: _ => Cd (drop 3 (take (length buf - 1) buf))
  | _ => Run (parsecmd buf)
  end.

(** The loop of [main]. *)
Fixpoint main (fuel : nat) (input : list Z) : list action :=
  match fuel with
  | O => []
  | S fuel =>
    match getcmd input with
    | None => []
    | Some (buf, rest) => command buf :: main fuel rest
    end
  end.

(** ** Lemmas on tokens *)

Lemma skipws_length (s : list Z) : (length (skipws s) ≤ length s)%nat.
Proof. elim: s => [|c s IH] //=. case: (ws c) => /=; lia. Qed.

Lemma skipws_idem (s : list Z) : skipws (skipws s) = skipws s.
Proof. elim: s => [|c s IH] //=. case E: (ws c) => //=. by rw E. Qed.

Lemma skipws_no (c : Z) (s : list Z) : ws c = false → skipws (c :: s) = c :: s.
Proof. by move=> /= ->. Qed.

Lemma skipws_sp (s : list Z) : skipws (32 :: s) = skipws s.
Proof. done. Qed.

Lemma skipws_head (s s' : list Z) (c : Z) : skipws s = c :: s' → ws c = false.
Proof. elim: s => [|d s IH] //=. case E: (ws d) => //. by move=> [<- _]. Qed.

Lemma skipword_length (s : list Z) : (length (skipword s) ≤ length s)%nat.
Proof. elim: s => [|c s IH] //=. case: (_ || _) => /=; lia. Qed.

(** A character of a word. *)
Definition wordc (c : Z) : Prop := ws c = false ∧ sym c = false ∧ c ≠ 0.

Definition delim (s : list Z) : Prop :=
  match s with [] => True | c :: _ => ws c = true ∨ sym c = true end.

Lemma skipword_word (w s : list Z) : Forall wordc w → delim s → skipword (w ++ s) = s.
Proof.
  elim: w => [|c w IH] /=.
  - case: s => [|d s] //= _ [->|->] //. by rw orb_true_r.
  - move=> /list.Forall_cons [[-> [-> _]] Hw] /=. by apply IH.
Qed.

Lemma skipword_delim (s : list Z) : delim (skipword s).
Proof.
  elim: s => [|c s IH] //=. case E: (_ || _) => //=.
  by move: E => /orb_true_iff.
Qed.

Lemma skipword_split (s : list Z) :
  ∃ w, s = w ++ skipword s ∧ Forall (λ c, ws c = false ∧ sym c = false) w.
Proof.
  elim: s => [|c s [w [Hw Hf]]] /=; first by exists [].
  case E: (_ || _); first by exists [].
  move: E => /orb_false_iff E. exists (c :: w). split; first by rw {1}Hw.
  by constructor.
Qed.

Lemma peek_eq (s toks : list Z) :
  peek s toks = (match skipws s with [] => false | c :: _ => bool_decide (c ∈ toks) end, skipws s).
Proof. done. Qed.

(** ** Termination *)

(** A parsing function on [s] ends, and consumes its input from the left. *)
Definition ends {A} (r : pres A) (s : list Z) : Prop :=
  match r with
  | Ok _ s' => (length s' ≤ length s)%nat
  | Err _ => True
  | Fuel => False
  end.

Lemma gettoken_length (s : list Z) : (length (gettoken s).2 ≤ length s)%nat.
Proof.
  rw /gettoken. have H := skipws_length s. move: (skipws s) H => [//|c q] /= H.
  have W := skipword_length (c :: q). simpl in W.
  repeat case_match; simplify_eq; cbn [snd];
    (etrans; [apply skipws_length|simpl in *; lia]).
Qed.

Lemma gettoken_consumes (s : list Z) :
  skipws s ≠ [] → (length (gettoken s).2 < length s)%nat.
Proof.
  rw /gettoken => Hne. have H := skipws_length s. have Hw := skipws_head s.
  move: (skipws s) Hne H Hw => [//|c q] _ /= H Hw. have {}Hw := Hw q c eq_refl.
  have W := skipword_length q.
  case_bool_decide as Hc; first by (have := skipws_length q; simpl in *; lia).
  case: (Z.eqb_spec c 62) => E62.
  - repeat case_match; simplify_eq; cbn [snd];
      (eapply Nat.le_lt_trans; [apply skipws_length|simpl in *; lia]).
  - have Hs : sym c = false.
    { apply bool_decide_eq_false_2 => Hin. apply Hc. rw /symbols in Hin. set_solver. }
    rw Hw Hs /=. have := skipws_length (skipword q). simpl in *; lia.
Qed.

Lemma gettoken_nil (s : list Z) : skipws s = [] → gettoken s = (0, ([], []), []).
Proof. by rw /gettoken => ->. Qed.

#[local] Opaque peek gettoken.

Lemma peek_some (s toks : list Z) :
  (peek s toks).1 = true → ∃ c s', skipws s = c :: s' ∧ c ∈ toks.
Proof. rw peek_eq /=. case: (skipws s) => [//|c s'] /bool_decide_eq_true. eauto. Qed.

Lemma peek_consumes (s toks : list Z) :
  (peek s toks).1 = true → (length (gettoken (peek s toks).2).2 < length s)%nat.
Proof.
  move=> /peek_some [c [s' [E _]]]. rw peek_eq /=.
  have := gettoken_consumes (skipws s). rw skipws_idem E => /(_ ltac:(done)).
  have := skipws_length s. rw E. lia.
Qed.

Lemma peek_length (s toks : list Z) : (length (peek s toks).2 ≤ length s)%nat.
Proof. rw peek_eq. apply skipws_length. Qed.

Lemma ends_weaken {A} (r : pres A) (s s' : list Z) :
  ends r s → (length s ≤ length s')%nat → ends r s'.
Proof. case: r => //= *; lia. Qed.

Lemma ends_bind {A B} (r : pres A) (f : A → list Z → pres B) (s : list Z) :
  ends r s → (∀ a s', (length s' ≤ length s)%nat → ends (f a s') s) → ends (pbind r f) s.
Proof. case: r => [a s1|m|] //= H Hf. by apply Hf. Qed.

Lemma parseredirs_ends (fuel : nat) (rs : list redir) (s : list Z) :
  (length s < fuel)%nat → ends (parseredirs fuel rs s) s.
Proof.
  elim: fuel rs s => [|fuel IH] rs s //=; first by lia.
  move=> Hf. have L := peek_length s [60; 62]. have C := peek_consumes s [60; 62].
  case: (peek s _) L C => [[] s1] /= L C; last done.
  case E: (gettoken s1) C => [[t w] s2] /= /(_ eq_refl) C.
  have L2 := gettoken_length s2. case: (gettoken s2) L2 => [[t2 f] s3] /= L2.
  case: (t2 =? 97) => //=. eapply ends_weaken; first (apply IH; lia). lia.
Qed.

#[local] Opaque parseredirs Nat.leb.

Lemma parseargs_ends (fuel : nat) args rs (s : list Z) :
  (length s < fuel)%nat → ends (parseargs fuel args rs s) s.
Proof.
  elim: fuel args rs s => [|fuel IH] args rs s //=; first by lia.
  move=> Hf. have L := peek_length s [124; 41; 38; 59].
  case: (peek s _) L => [[] s1] /= L; first done.
  have G := gettoken_length s1.
  have G0 : skipws s1 = [] → (gettoken s1).1.1 = 0 by move=> /gettoken_nil ->.
  have G1 := gettoken_consumes s1.
  case E: (gettoken s1) G G0 G1 => [[t w] s2] /= G G0 G1.
  case: (Z.eqb_spec t 0) => [_|Ht] /=; first lia.
  case: (t =? 97) => //=. case: (_ <=? _)%nat => //.
  have {}G1 : (length s2 < length s1)%nat by (apply G1 => /G0).
  apply (ends_weaken _ s2); last lia.
  apply ends_bind; first (apply parseredirs_ends; lia).
  move=> rs' s3 L3. eapply ends_weaken; first (apply IH; lia). lia.
Qed.

#[local] Opaque parseargs.

Lemma parseamps_ends (fuel : nat) c (s : list Z) :
  (length s < fuel)%nat → ends (parseamps fuel c s) s.
Proof.
  elim: fuel c s => [|fuel IH] c s //=; first by lia.
  move=> Hf. have L := peek_length s [38]. have C := peek_consumes s [38].
  case: (peek s _) L C => [[] s1] /= L C; last done.
  have {}C := C eq_refl. eapply ends_weaken; first (apply IH; lia). lia.
Qed.

#[local] Opaque parseamps.

(** After a peek that fails, or one that succeeds and its token. *)
Ltac peeking s toks l :=
  let L := fresh "L" in let C := fresh "C" in
  have L := peek_length s toks; have C := peek_consumes s toks;
  case: (peek s toks) L C => [[] l] /= L C; [have {}C := C eq_refl|clear C].

Lemma parse_ends (fuel : nat) :
  (∀ s, (4 * length s + 3 < fuel)%nat → ends (parseline fuel s) s) ∧
  (∀ s, (4 * length s + 2 < fuel)%nat → ends (parsepipe fuel s) s) ∧
  (∀ s, (4 * length s + 1 < fuel)%nat → ends (parseexec fuel s) s) ∧
  (∀ s, (4 * length s < fuel)%nat → ends (parseblock fuel s) s).
Proof.
  elim: fuel => [|fuel [IHl [IHp [IHe IHb]]]]; first by repeat split; intros s H; exfalso; lia.
  split_and!; move=> s Hf /=.
  - apply ends_bind; first (apply IHp; lia). move=> c s1 L1.
    apply (ends_weaken _ s1); last lia.
    apply ends_bind; first (apply parseamps_ends; lia). move=> c' s2 L2.
    peeking s2 [59] l; last (simpl; lia).
    apply (ends_weaken _ (gettoken l).2); last lia.
    apply ends_bind; first (apply IHl; lia). by [].
  - apply ends_bind; first (apply IHe; lia). move=> c s1 L1.
    peeking s1 [124] l; last (simpl; lia).
    apply (ends_weaken _ (gettoken l).2); last lia.
    apply ends_bind; first (apply IHp; lia). by [].
  - peeking s [40] l; first by (eapply ends_weaken; first (apply IHb; lia); lia).
    apply (ends_weaken _ l); last lia.
    apply ends_bind; first (apply parseredirs_ends; lia). move=> rs s1 L1.
    eapply ends_weaken; first (apply parseargs_ends; lia). lia.
  - peeking s [40] l; last done.
    apply (ends_weaken _ (gettoken l).2); last lia.
    apply ends_bind; first (apply IHl; lia). move=> c s1 L1.
    peeking s1 [41] l0; last done.
    apply (ends_weaken _ (gettoken l0).2); last lia.
    apply ends_bind; first (apply parseredirs_ends; lia). by [].
Qed.

Lemma parseline_ends (s : list Z) : ends (parseline (line_fuel s) s) s.
Proof. apply parse_ends. rw /line_fuel. lia. Qed.

(** More fuel changes nothing. *)
Definition more {A} (r r' : pres A) : Prop := r = Fuel ∨ r' = r.

Lemma more_bind {A B} (r r' : pres A) (f f' : A → list Z → pres B) :
  more r r' → (∀ a s, more (f a s) (f' a s)) → more (pbind r f) (pbind r' f').
Proof. move=> [->|->] H; first by left. case: r => [a s|m|] //=; by right. Qed.

Lemma more_refl {A} (r : pres A) : more r r.
Proof. by right. Qed.

Lemma parse_mono (fuel fuel' : nat) :
  (fuel ≤ fuel')%nat →
  (∀ s, more (parseline fuel s) (parseline fuel' s)) ∧
  (∀ s, more (parsepipe fuel s) (parsepipe fuel' s)) ∧
  (∀ s, more (parseexec fuel s) (parseexec fuel' s)) ∧
  (∀ s, more (parseblock fuel s) (parseblock fuel' s)).
Proof.
  elim: fuel fuel' => [|fuel IH] [|fuel'] Hf; try lia; try by (split_and!; move=> s; left).
  have [IHl [IHp [IHe IHb]]] := IH fuel' ltac:(lia).
  split_and!; move=> s /=.
  - apply more_bind => [|c s1]; first done.
    apply more_bind => [|c' s2]; first by right.
    case: (peek s2 _) => [[] s3]; last by right.
    apply more_bind => *; [apply IHl|by right].
  - apply more_bind => [|c s1]; first done.
    case: (peek s1 _) => [[] s3]; last by right.
    apply more_bind => *; [apply IHp|by right].
  - case: (peek s _) => [[] s1]; [apply IHb|by right].
  - case: (peek s _) => [[] s1] /=; last by right.
    apply more_bind => *; [apply IHl|by right].
Qed.

Lemma parseline_fuel (fuel : nat) (s : list Z) (r : pres cmd) :
  parseline fuel s = r → r ≠ Fuel → parseline (line_fuel s) s = r.
Proof.
  move=> H Hr. have E := parseline_ends s.
  have [M _] := parse_mono fuel (Nat.max fuel (line_fuel s)) ltac:(lia).
  have [M' _] := parse_mono (line_fuel s) (Nat.max fuel (line_fuel s)) ltac:(lia).
  case: (M s) => [|Ma]; first by rw H.
  case: (M' s) => [F|Mb]; first by rw F in E.
  by rw -Mb Ma.
Qed.

(** ** The words of a command *)

(** The characters between the two pointers of a token. *)
Definition word (t : tok) : list Z := take (length t.1 - length t.2) t.1.

Fixpoint toks (P : tok → Prop) (c : cmd) : Prop :=
  match c with
  | Exec argv => Forall P argv
  | Redir c f _ _ => toks P c ∧ P f
  | Pipe l r => toks P l ∧ toks P r
  | List l r => toks P l ∧ toks P r
  | Back c => toks P c
  end.

Lemma skipws_suffix (s : list Z) : skipws s `suffix_of` s.
Proof. elim: s => [|c s IH] //=. case: (ws c) => //. by apply suffix_cons_r. Qed.

Lemma skipword_suffix (s : list Z) : skipword s `suffix_of` s.
Proof. elim: s => [|c s IH] //=. case: (_ || _) => //. by apply suffix_cons_r. Qed.

Section words.
Context (line : list Z).

(** A token is a run of word characters of the line, up to a delimiter. *)
Definition tok_ok (t : tok) : Prop :=
  t.1 `suffix_of` line ∧
  ∃ w, w ≠ [] ∧ t.1 = w ++ t.2 ∧ Forall (λ c, ws c = false ∧ sym c = false) w ∧ delim t.2.

(** A redirection to a file, and a command, as the parser builds them. *)
Definition redir_ok (r : redir) : Prop :=
  tok_ok r.1.1 ∧ (r.1.2 = O_RDONLY ∧ r.2 = 0 ∨ r.1.2 = Z.lor O_WRONLY O_CREATE ∧ r.2 = 1).

Fixpoint cmd_ok (c : cmd) : Prop :=
  match c with
  | Exec argv => Forall tok_ok argv ∧ (length argv < MAXARGS)%nat
  | Redir c f m fd => cmd_ok c ∧ redir_ok (f, m, fd)
  | Pipe l r => cmd_ok l ∧ cmd_ok r
  | List l r => cmd_ok l ∧ cmd_ok r
  | Back c => cmd_ok c
  end.

Lemma cmd_ok_toks (c : cmd) : cmd_ok c → toks tok_ok c.
Proof.
  elim: c => [argv|c IH f m fd|l IHl r IHr|l IHl r IHr|c IH] //=.
  - by case.
  - by move=> [/IH ? [? _]].
  - by move=> [/IHl ? /IHr].
  - by move=> [/IHl ? /IHr].
Qed.

Definition within (s : list Z) : Prop := s `suffix_of` line.

Lemma within_skipws (s : list Z) : within s → within (skipws s).
Proof. rw /within => H. etrans; [apply skipws_suffix|done]. Qed.

Lemma within_tail (c : Z) (s : list Z) : within (c :: s) → within s.
Proof. rw /within => H. etrans; [by apply suffix_cons_r|done]. Qed.

#[local] Transparent gettoken peek.

Lemma gettoken_within (s : list Z) :
  within s → within (gettoken s).2 ∧ ((gettoken s).1.1 = 97 → tok_ok (gettoken s).1.2).
Proof.
  rw /gettoken => /within_skipws. have Hws := skipws_head s.
  case: (skipws s) Hws => [|c q] Hws H; first by split.
  have {}Hws := Hws q c eq_refl.
  have Ht := within_tail _ _ H.
  case_bool_decide as Hc; cbn [fst snd].
  { split; first by apply within_skipws. move=> E. subst. by move/bool_decide_eq_true_2: Hc. }
  case: (Z.eqb_spec c 62) => E62.
  - case: q H Ht => [|d q] H Ht; cbn [fst snd]; first by split => // ?; subst.
    case: (d =? 62); cbn [fst snd].
    + split => //. apply within_skipws. by eapply within_tail.
    + split; last by (move=> ?; subst). by apply within_skipws.
  - cbn [fst snd]. split.
    + apply within_skipws. rw /within; etrans; [apply skipword_suffix|done].
    + move=> _. split; first done.
      have [w [Hw Hf]] := skipword_split (c :: q). exists w. split_and!; [|done..|].
      * move=> Ew. rw Ew app_nil_l in Hw. have := skipword_delim (c :: q). rw -Hw /= Hws.
        case => // /bool_decide_eq_true Hs. apply Hc. rw /symbols in Hs. set_solver.
      * apply skipword_delim.
Qed.

Lemma peek_within (s ts : list Z) : within s → within (peek s ts).2.
Proof. apply within_skipws. Qed.

#[local] Opaque gettoken peek.

(** What a parsing function returns is made of the line. *)
Definition made {A} (P : A → Prop) (r : pres A) : Prop :=
  match r with Ok a s => P a ∧ within s | _ => True end.

Lemma made_bind {A B} (P : A → Prop) (Q : B → Prop) (r : pres A) (f : A → list Z → pres B) :
  made P r → (∀ a s, P a → within s → made Q (f a s)) → made Q (pbind r f).
Proof. case: r => [a s|m|] //= [Ha Hs] Hf. by apply Hf. Qed.

Definition redirs_ok (rs : list redir) : Prop := Forall redir_ok rs.

Lemma cmd_ok_wrap (c : cmd) (rs : list redir) :
  cmd_ok c → redirs_ok rs → cmd_ok (wrap c rs).
Proof.
  elim/rev_ind: rs => [|r rs IH] // Hc /Forall_app [Hrs /Forall_singleton Hr].
  rw /wrap foldl_app /=. split => //. by apply IH.
Qed.

#[local] Transparent parseredirs parseargs parseamps.

Lemma parseredirs_made (fuel : nat) rs (s : list Z) :
  redirs_ok rs → within s → made redirs_ok (parseredirs fuel rs s).
Proof.
  elim: fuel rs s => [|fuel IH] rs s Hrs Hs //=.
  have H1 := peek_within s [60; 62] Hs. case: (peek s _) H1 => [[] s1] /= H1; last done.
  have [H2 _] := gettoken_within s1 H1. case: (gettoken s1) H2 => [[t w] s2] /= H2.
  have [H3 Hf] := gettoken_within s2 H2. case: (gettoken s2) H3 Hf => [[t2 f] s3] /= H3 Hf.
  case: (Z.eqb_spec t2 97) => //= /Hf {}Hf. apply IH => //.
  repeat case_match => //; apply Forall_app; split => //; apply Forall_singleton; split; auto.
Qed.

Lemma parseargs_made (fuel : nat) args rs (s : list Z) :
  Forall tok_ok args → (length args < MAXARGS)%nat → redirs_ok rs → within s → made cmd_ok (parseargs fuel args rs s).
Proof.
  elim: fuel args rs s => [|fuel IH] args rs s Ha Hm Hrs Hs //. cbn [parseargs].
  have H1 := peek_within s [124; 41; 38; 59] Hs.
  case: (peek s _) H1 => [[] s1] /= H1; first by (split => //; apply cmd_ok_wrap).
  have [H2 Hf] := gettoken_within s1 H1. case: (gettoken s1) H2 Hf => [[t w] s2] H2 Hf.
  case: (t =? 0); first by (split => //; apply cmd_ok_wrap).
  case: (Z.eqb_spec t 97) => //= /Hf {}Hf.
  case: (Nat.leb_spec MAXARGS (length (args ++ [w]))) => // Hm'. apply (made_bind redirs_ok).
  - by apply (parseredirs_made (S (length s2))).
  - move=> rs' s3 Hrs' H3. apply IH => //. apply Forall_app. by split; last apply Forall_singleton.
Qed.

Lemma parseamps_made (fuel : nat) c (s : list Z) :
  cmd_ok c → within s → made cmd_ok (parseamps fuel c s).
Proof.
  elim: fuel c s => [|fuel IH] c s Hc Hs //=.
  have H1 := peek_within s [38] Hs. case: (peek s _) H1 => [[] s1] /= H1; last done.
  apply IH => //. by apply gettoken_within.
Qed.

#[local] Opaque parseredirs parseargs parseamps.

Lemma parse_made (fuel : nat) :
  (∀ s, within s → made cmd_ok (parseline fuel s)) ∧
  (∀ s, within s → made cmd_ok (parsepipe fuel s)) ∧
  (∀ s, within s → made cmd_ok (parseexec fuel s)) ∧
  (∀ s, within s → made cmd_ok (parseblock fuel s)).
Proof.
  elim: fuel => [|fuel [IHl [IHp [IHe IHb]]]]; first by split_and!.
  split_and!; move=> s Hs /=.
  - apply (made_bind cmd_ok) => [|c s1 Hc H1]; first by apply IHp.
    apply (made_bind cmd_ok) => [|c' s2 Hc' H2]; first by apply parseamps_made.
    have H3 := peek_within s2 [59] H2. case: (peek s2 _) H3 => [[] s3] /= H3; last done.
    apply (made_bind cmd_ok) => //. by apply IHl, gettoken_within.
  - apply (made_bind cmd_ok) => [|c s1 Hc H1]; first by apply IHe.
    have H3 := peek_within s1 [124] H1. case: (peek s1 _) H3 => [[] s3] /= H3; last done.
    apply (made_bind cmd_ok) => //. by apply IHp, gettoken_within.
  - have H3 := peek_within s [40] Hs. case: (peek s _) H3 => [[] s3] /= H3; first by apply IHb.
    apply (made_bind redirs_ok) => [|rs s1 Hrs H1]; first by (apply parseredirs_made; first constructor).
    apply parseargs_made => //; first constructor. rw /MAXARGS /=; lia.
  - have H3 := peek_within s [40] Hs. case: (peek s _) H3 => [[] s3] //= H3.
    apply (made_bind cmd_ok) => [|c s1 Hc H1]; first by apply IHl, gettoken_within.
    have H4 := peek_within s1 [41] H1. case: (peek s1 _) H4 => [[] s4] //= H4.
    apply (made_bind redirs_ok) => [|rs s5 Hrs H5].
    + apply parseredirs_made; first constructor. by apply gettoken_within.
    + split => //. by apply cmd_ok_wrap.
Qed.

Lemma parsetree_made (c : cmd) (s : list Z) : parsetree line = Ok c s → cmd_ok c ∧ s = [].
Proof.
  rw /parsetree => H.
  have [Hm _] := parse_made (line_fuel line). have := Hm line ltac:(by rw /within).
  case: (parseline _ _) H => [c' s1|m|] //=. rw peek_eq /=.
  case: (skipws s1) => [|d s2] // [<- <-] [Ht _]. split => //.
Qed.

End words.

(** *** [nulterminate] *)

Fixpoint tokens (c : cmd) : list tok :=
  match c with
  | Exec argv => argv
  | Redir c f _ _ => tokens c ++ [f]
  | Pipe l r => tokens l ++ tokens r
  | List l r => tokens l ++ tokens r
  | Back c => tokens c
  end.

Lemma toks_tokens (P : tok → Prop) (c : cmd) : toks P c ↔ Forall P (tokens c).
Proof.
  elim: c => [argv|c IH f m fd|l IHl r IHr|l IHl r IHr|c IH] //=;
    by rw list.Forall_app ?list.Forall_singleton ?IH ?IHl ?IHr.
Qed.

Definition cut (n : nat) (b : list Z) (t : tok) : list Z := <[ptr n t.2 := 0]> b.

Lemma nulterminate_cuts (n : nat) (c : cmd) (buf : list Z) :
  nulterminate n c buf = foldl (cut n) buf (tokens c).
Proof.
  elim: c buf => [argv|c IH f m fd|l IHl r IHr|l IHl r IHr|c IH] buf //=;
    by rw foldl_app ?IH ?IHr ?IHl.
Qed.

Lemma cuts_length (n : nat) (ts : list tok) (buf : list Z) : length (foldl (cut n) buf ts) = length buf.
Proof. elim: ts buf => [|t ts IH] buf //=. by rw IH /cut length_insert. Qed.

Lemma cuts_other (n i : nat) (ts : list tok) (buf : list Z) :
  Forall (λ t : tok, ptr n t.2 ≠ i) ts → foldl (cut n) buf ts !! i = buf !! i.
Proof.
  elim: ts buf => [|t ts IH] buf //= /list.Forall_cons [Ht Hts].
  rw (IH _ Hts) /cut list_lookup_insert_ne //.
Qed.

Lemma cuts_zero (n i : nat) (ts : list tok) (buf : list Z) :
  buf !! i = Some 0 → foldl (cut n) buf ts !! i = Some 0.
Proof.
  elim: ts buf => [|t ts IH] buf //= H. apply IH. rw /cut.
  case: (decide (ptr n t.2 = i)) => [->|Hne].
  - rw list_lookup_insert_eq //. by apply lookup_lt_Some in H.
  - by rw list_lookup_insert_ne.
Qed.

Lemma cuts_at (n : nat) (ts : list tok) (buf : list Z) (t : tok) :
  t ∈ ts → (ptr n t.2 < length buf)%nat → foldl (cut n) buf ts !! ptr n t.2 = Some 0.
Proof.
  intros (l1 & l2 & ->)%list_elem_of_split Hlt. rw foldl_app /=. apply cuts_zero.
  rw /cut list_lookup_insert_eq // cuts_length //.
Qed.

Lemma cstr_prefix (w l : list Z) :
  Forall (λ c, c ≠ 0) w → (∀ j, (j < length w)%nat → l !! j = w !! j) →
  l !! length w = Some 0 → cstr l = w.
Proof.
  elim: w l => [|c w IH] [|d l] //=; first by move=> _ _ [->].
  move=> /list.Forall_cons [Hc Hw] Hj H0.
  have [E] := Hj 0%nat ltac:(lia). rw E.
  rw (proj2 (Z.eqb_neq c 0) Hc). f_equal. apply IH => // j Hlt.
  apply (Hj (S j)). lia.
Qed.

Section nulterminate.
Context (line : list Z) (line_nz : Forall (λ c, c ≠ 0) line).

#[local] Abbreviation n := (length line).

Lemma drop_ptr (s : list Z) : within line s → drop (ptr n s) line = s.
Proof. move=> [k ->]. rw /ptr length_app drop_app_length' //. lia. Qed.

Lemma tok_ok_end (t : tok) : tok_ok line t → within line t.2 ∧ delim t.2.
Proof.
  move=> [[k Hk] [w [_ [Hw [_ Hd]]]]]. split => //. exists (k ++ w).
  by rw -assoc -Hw.
Qed.

(** Cutting the words of a line leaves every word in place. *)
Lemma cut_word (ts : list tok) (t : tok) :
  Forall (tok_ok line) ts → t ∈ ts →
  cstr (drop (ptr n t.1) (foldl (cut n) (line ++ [0]) ts)) = word t.
Proof.
  move=> Hts Hin. have Ht : tok_ok line t by exact: (proj1 (list.Forall_forall _ _) Hts).
  have [He _] := tok_ok_end t Ht. move: (Ht) => [[k Hk] [w [_ [Hw [Hwc _]]]]].
  have Hword : word t = w by rw /word Hw length_app take_app_length' //; lia.
  have Hp1 : ptr n t.1 = length k by rw /ptr Hk length_app; lia.
  have Hp2 : ptr n t.2 = (length k + length w)%nat by rw /ptr Hk Hw !length_app; lia.
  have Hlen : n = (length k + length w + length t.2)%nat by rw Hk Hw !length_app; lia.
  rw Hword Hp1. apply cstr_prefix.
  - move: line_nz. by rw Hk Hw => /list.Forall_app [_ /list.Forall_app [? _]].
  - move=> j Hj. rw lookup_drop cuts_other.
    + apply (list.Forall_impl (tok_ok line)) => // t' /tok_ok_end [He' Hd'] E.
      move: (drop_ptr _ He') Hd'. rw E Hk Hw drop_app_add.
      rw drop_app_le; first lia. have [c Hc] := lookup_lt_is_Some_2 w j Hj.
      rw (drop_S _ _ _ Hc) /= => <- /=.
      have [-> ->] : ws c = false ∧ sym c = false by exact: (list.Forall_lookup_1 _ _ _ _ Hwc Hc).
      by case.
    + rw Hk Hw -!assoc lookup_app_r; first lia. rw lookup_app_l; first lia. f_equal. lia.
  - rw lookup_drop -Hp2 cuts_at // length_app /=. lia.
Qed.

End nulterminate.

Lemma strings_ext (f g : tok → list Z) (c : cmd) :
  toks (λ t, f t = g t) c → strings f c = strings g c.
Proof.
  elim: c => [argv|c IH t m fd|l IHl r IHr|l IHl r IHr|c IH] /=.
  - move=> H. f_equal. apply list_fmap_ext => i t Hi. by apply (list.Forall_lookup_1 _ _ _ _ H Hi).
  - by move=> [/IH -> ->].
  - by move=> [/IHl -> /IHr ->].
  - by move=> [/IHl -> /IHr ->].
  - by move=> /IH ->.
Qed.

Lemma parsecmd_words (line : list Z) (c : cmd) (s : list Z) :
  Forall (λ c, c ≠ 0) line → parsetree line = Ok c s → parsecmd line = Ok (strings word c) [].
Proof.
  move=> Hnz Hp. rw /parsecmd Hp /=. have [/cmd_ok_toks Hc ->] := parsetree_made _ _ _ Hp.
  f_equal. apply strings_ext. apply toks_tokens, list.Forall_forall => t Hin.
  rw nulterminate_cuts. apply cut_word => //. by apply toks_tokens.
Qed.

(** ** Writing commands *)

(** A word of a command line, and a redirection of it. *)
Definition isword (w : list Z) : Prop := w ≠ [] ∧ Forall wordc w.

Definition sredir : Type := list Z * Z * Z.
Definition sredir_ok (r : sredir) : Prop :=
  isword r.1.1 ∧ (r.1.2 = O_RDONLY ∧ r.2 = 0 ∨ r.1.2 = Z.lor O_WRONLY O_CREATE ∧ r.2 = 1).

(** The commands the shell can express. *)
Fixpoint writable (c : scmd) : Prop :=
  match c with
  | SExec argv => Forall isword argv ∧ (length argv < MAXARGS)%nat
  | SRedir c f m fd => writable c ∧ sredir_ok (f, m, fd)
  | SPipe l r => writable l ∧ writable r
  | SList l r => writable l ∧ writable r
  | SBack c => writable c
  end.

Definition pword (w : list Z) : list Z := 32 :: w.
Definition predir (r : sredir) : list Z := (if r.2 =? 0 then 60 else 62) :: pword r.1.1.
Definition paren (b : bool) (l : list Z) : list Z := if b then 40 :: l ++ [41] else l.

(** A text for a command, in parentheses where the level asks for them: 0 a
    command of a pipeline, 1 a pipeline, 2 one with [&], 3 a line. *)
Fixpoint pr (lvl : nat) (c : scmd) : list Z :=
  match c with
  | SExec argv => concat (pword <$> argv)
  | SRedir c f m fd => pr 0 c ++ predir (f, m, fd)
  | SPipe l r => paren (lvl <? 1)%nat (pr 0 l ++ 124 :: pr 1 r)
  | SBack c => paren (lvl <? 2)%nat (pr 2 c ++ [38])
  | SList l r => paren (lvl <? 3)%nat (pr 2 l ++ 59 :: pr 3 r)
  end.

Definition swrap (c : scmd) (rs : list sredir) : scmd :=
  foldl (λ c r, SRedir c r.1.1 r.1.2 r.2) c rs.

(** What may follow: nothing, or one of some symbols. *)
Definition stop (ts s : list Z) : Prop :=
  match skipws s with [] => True | c :: _ => c ∈ ts end.

Section tokens.
#[local] Transparent gettoken peek.

Lemma gettoken_skipws (s : list Z) : gettoken (skipws s) = gettoken s.
Proof. by rw /gettoken skipws_idem. Qed.

Lemma peek_skipws (s ts : list Z) : peek (skipws s) ts = peek s ts.
Proof. by rw !peek_eq skipws_idem. Qed.

Lemma wordc_sym (c : Z) : wordc c → c ∉ symbols.
Proof. by move=> [_ [/bool_decide_eq_false ? _]]. Qed.

Lemma word_skipws (w s : list Z) : isword w → skipws (w ++ s) = w ++ s.
Proof. move=> [Hne Hw]. case: w Hne Hw => [//|c w] _ /list.Forall_cons [[E _] _] /=. by rw E. Qed.

Lemma gettoken_word (w s : list Z) :
  isword w → delim s → gettoken (pword w ++ s) = (97, (w ++ s, s), skipws s).
Proof.
  move=> Hw Hd. rw /gettoken skipws_sp word_skipws //.
  have -> : skipword (w ++ s) = s by apply skipword_word => //; exact: (proj2 Hw).
  case: w Hw => [[//]|c w] [_ /list.Forall_cons [/wordc_sym Hc _]] /=.
  rw bool_decide_eq_false_2.
  { move=> H. apply Hc. move: H. rw /symbols. set_solver. }
  case: (Z.eqb_spec c 62) => // E. exfalso. apply Hc. rw E /symbols. set_solver.
Qed.

Lemma peek_word (w s ts : list Z) :
  isword w → ts ⊆ symbols → peek (pword w ++ s) ts = (false, w ++ s).
Proof.
  move=> Hw Hts. rw peek_eq skipws_sp word_skipws //.
  case: w Hw => [[//]|c w] [_ /list.Forall_cons [/wordc_sym Hc _]] /=.
  rw bool_decide_eq_false_2 //. set_solver.
Qed.

Lemma gettoken_sym (c : Z) (s : list Z) :
  c ∈ [124; 40; 41; 59; 38; 60] → (gettoken (c :: s)).1.1 = c ∧ (gettoken (c :: s)).2 = skipws s.
Proof.
  move=> Hc. rw /gettoken /= (_ : ws c = false).
  - apply bool_decide_eq_false_2. rw /whitespace. set_solver by lia.
  - rw bool_decide_eq_true_2 //.
Qed.

Lemma gettoken_gt (s : list Z) :
  (gettoken (62 :: 32 :: s)).1.1 = 62 ∧ (gettoken (62 :: 32 :: s)).2 = skipws s.
Proof. done. Qed.

Lemma peek_sym (c : Z) (s ts : list Z) :
  c ∈ symbols → peek (c :: s) ts = (bool_decide (c ∈ ts), c :: s).
Proof.
  move=> Hc. rw peek_eq /= (_ : ws c = false) //.
  apply bool_decide_eq_false_2. rw /whitespace. rw /symbols in Hc. set_solver by lia.
Qed.

Lemma peek_stop (s ts us : list Z) :
  stop ts s → (∀ c, c ∈ ts → c ∉ us) → peek s us = (false, skipws s).
Proof.
  rw peek_eq /stop. case: (skipws s) => [//|c s'] Hc H.
  by rw bool_decide_eq_false_2; [apply H|].
Qed.

End tokens.

Lemma stop_delim (ts s : list Z) : ts ⊆ symbols → stop ts s → delim s.
Proof.
  rw /stop. case: s => [//|c s] /=. case: (ws c); first by left.
  move=> Hts Hc. right. apply bool_decide_eq_true_2. by apply Hts.
Qed.

Lemma stop_mono (ts us s : list Z) : ts ⊆ us → stop ts s → stop us s.
Proof. rw /stop. case: (skipws s) => [//|c s'] H. by apply H. Qed.

Lemma stop_sym (c : Z) (s ts : list Z) : c ∈ symbols → c ∈ ts → stop ts (c :: s).
Proof.
  move=> Hs Hc. rw /stop /= (_ : ws c = false) //.
  apply bool_decide_eq_false_2. rw /whitespace. rw /symbols in Hs. set_solver by lia.
Qed.

(** Parsing does not depend on leading blanks. *)
#[local] Transparent parseredirs parseargs parseamps.

Lemma parseredirs_skipws (fuel : nat) rs (s : list Z) :
  parseredirs fuel rs (skipws s) = parseredirs fuel rs s.
Proof. case: fuel => [//|fuel] /=. by rw peek_skipws. Qed.

Lemma parseargs_skipws (fuel : nat) args rs (s : list Z) :
  parseargs fuel args rs (skipws s) = parseargs fuel args rs s.
Proof. case: fuel => [//|fuel]. cbn [parseargs]. by rw peek_skipws. Qed.

Lemma parse_skipws (fuel : nat) (s : list Z) :
  parseline fuel (skipws s) = parseline fuel s ∧
  parsepipe fuel (skipws s) = parsepipe fuel s ∧
  parseexec fuel (skipws s) = parseexec fuel s.
Proof.
  elim: fuel s => [|fuel IH] s; first done.
  have [_ [Ep Ee]] := IH s. split_and!; cbn [parseline parsepipe parseexec].
  - by rw Ep.
  - by rw Ee.
  - by rw peek_skipws.
Qed.

(** *** Redirections *)

Definition rview (r : redir) : sredir := (word r.1.1, r.1.2, r.2).

Lemma strings_wrap (c : cmd) (rs : list redir) :
  strings word (wrap c rs) = swrap (strings word c) (rview <$> rs).
Proof.
  elim/rev_ind: rs => [|r rs IH] //. by rw /wrap foldl_app fmap_app /swrap foldl_app /= -/(wrap _ _) IH.
Qed.

Lemma word_tok (w s : list Z) : word (w ++ s, s) = w.
Proof. rw /word /= length_app take_app_length' //. lia. Qed.

Lemma predir_delim (R : list sredir) (s : list Z) : delim s → delim (concat (predir <$> R) ++ s).
Proof. case: R => [//|r R] _ /=. right. by case: (_ =? _). Qed.

Lemma predir_skipws (r : sredir) (s : list Z) : skipws (predir r ++ s) = predir r ++ s.
Proof. rw /predir /=. by case: (_ =? _). Qed.

Lemma peek_predir (r : sredir) (s : list Z) : peek (predir r ++ s) [60; 62] = (true, predir r ++ s).
Proof. rw /predir /=. by case: (_ =? _). Qed.

Lemma predir_token (r : sredir) (s : list Z) :
  sredir_ok r →
  (gettoken (predir r ++ s)).1.1 = (if r.2 =? 0 then 60 else 62) ∧
  (gettoken (predir r ++ s)).2 = skipws (r.1.1 ++ s).
Proof.
  move=> _. rw /predir /=. case: (_ =? _); last by apply gettoken_gt.
  have [-> ->] := gettoken_sym 60 (pword r.1.1 ++ s) ltac:(set_solver). done.
Qed.

Lemma parseredirs_text (R : list sredir) (fuel : nat) (rs : list redir) (s : list Z) :
  Forall sredir_ok R → delim s → stop [124; 41; 38; 59] s ∨ (∃ w s', isword w ∧ s = pword w ++ s') →
  (length (skipws (concat (predir <$> R) ++ s)) < fuel)%nat →
  ∃ rs', parseredirs fuel rs (concat (predir <$> R) ++ s) = Ok (rs ++ rs') (skipws s) ∧
    rview <$> rs' = R.
Proof.
  elim: R fuel rs => [|r R IH] [|fuel] rs HR Hd Hs; try by (simpl; lia).
  - move=> _ /=. exists []. rw app_nil_r. split => //.
    case: Hs => [Hs|[w [s' [Hw ->]]]].
    + rw (peek_stop _ _ _ Hs) //. set_solver by lia.
    + rw peek_word //; last (rw skipws_sp word_skipws //). rw /symbols. set_solver.
  - move: HR => /list.Forall_cons [Hr HR]. cbn [fmap list_fmap concat]. rw -assoc predir_skipws => Hf.
    have Hd' := predir_delim R s Hd. set t := concat _ ++ s in Hf Hd' |- *.
    cbn [parseredirs]. rw peek_predir. have [E1 E2] := predir_token r t Hr.
    case: (gettoken _) E1 E2 => [[t1 w1] s1] /= -> ->.
    have -> : gettoken (skipws (r.1.1 ++ t)) = gettoken (pword r.1.1 ++ t).
    { rw -(gettoken_skipws (pword _ ++ t)). by rw skipws_sp. }
    rw gettoken_word //; first by exact: (proj1 Hr). cbn [negb Z.eqb].
    set r' : redir := ((r.1.1 ++ t, t), r.1.2, r.2).
    have Hrv : rview r' = r by rw /rview /r' /= word_tok; case: (r) => [[]].
    have -> : (if (if r.2 =? 0 then 60 else 62) =? 60 then rs ++ [((r.1.1 ++ t, t), O_RDONLY, 0)]
      else if (if r.2 =? 0 then 60 else 62) =? 62
           then rs ++ [((r.1.1 ++ t, t), Z.lor O_WRONLY O_CREATE, 1)]
           else if (if r.2 =? 0 then 60 else 62) =? 43
                then rs ++ [((r.1.1 ++ t, t), Z.lor O_WRONLY O_CREATE, 1)] else rs) = rs ++ [r'].
    { rw /r'. by case: (proj2 Hr) => [[-> ->]|[-> ->]]. }
    rw parseredirs_skipws.
    have [rs' [-> Hv]] := IH fuel (rs ++ [r']) HR Hd Hs
      ltac:(have := skipws_length t; rw /t length_app /= in Hf |- *; lia).
    exists (r' :: rs'). rw -assoc. split => //. by rw fmap_cons Hrv Hv.
Qed.

(** *** Arguments *)

Lemma parseargs_stop (fuel : nat) args rs (s : list Z) :
  stop [124; 41; 38; 59] s → parseargs (S fuel) args rs s = Ok (wrap (Exec args) rs) (skipws s).
Proof.
  cbn [parseargs]. rw peek_eq /stop.
  case E: (skipws s) => [|c s'] Hc; last by rw bool_decide_eq_true_2.
  by rw gettoken_nil.
Qed.

Lemma parseargs_text (W : list (list Z)) (R : list sredir) (fuel : nat) (args : list tok) (s : list Z) :
  W ≠ [] → Forall isword W → Forall sredir_ok R → stop [124; 41; 38; 59] s →
  (length args + length W < MAXARGS)%nat →
  (length (concat (pword <$> W) ++ concat (predir <$> R) ++ s) < S fuel)%nat →
  ∃ A rs, parseargs fuel args [] (concat (pword <$> W) ++ concat (predir <$> R) ++ s)
      = Ok (wrap (Exec (args ++ A)) rs) (skipws s) ∧
    word <$> A = W ∧ rview <$> rs = R.
Proof.
  move=> + HW HR Hs. elim: W fuel args HW => [//|w W IH] [|fuel] args HW _ Hm Hf; first (simpl in Hf; lia).
  move: HW => /list.Forall_cons [Hw HW]. cbn [fmap list_fmap concat] in Hf |- *. rw -assoc in Hf |- *.
  have Hds : delim s by (apply (stop_delim [124; 41; 38; 59]) => //; rw /symbols; set_solver).
  have Hd : delim (concat (pword <$> W) ++ concat (predir <$> R) ++ s).
  { case: W {IH HW Hm Hf} => [|w' W]; [exact: predir_delim|by left]. }
  set t := concat (pword <$> W) ++ _ in Hf Hd |- *.
  cbn [parseargs]. rw peek_word //; first (rw /symbols; set_solver).
  have -> : gettoken (w ++ t) = (97, (w ++ t, t), skipws t).
  { rw -(gettoken_word w t) // -(gettoken_skipws (pword w ++ t)) skipws_sp word_skipws //. }
  cbn [negb Z.eqb].
  rw (proj2 (Nat.leb_gt _ _)); first (rw length_app /=; simpl in Hm; lia).
  rw parseredirs_skipws.
  case: (decide (W = [])) => [EW|HWne].
  - have Et : t = concat (predir <$> R) ++ s by rw /t EW.
    rw Et. have [rs [-> Hv]] := parseredirs_text R (S (length (skipws (concat (predir <$> R) ++ s)))) [] s
      HR Hds (or_introl Hs) ltac:(lia).
    rw -Et. exists [(w ++ t, t)], rs. cbn [pbind]. rw parseargs_skipws app_nil_l.
    case: fuel Hf => [|fuel] Hf; first by move: Hf (proj1 Hw); case: (w) => //= *; lia.
    split; first exact: parseargs_stop.
    split => //. by rw list_fmap_singleton word_tok EW.
  - have [rs [E Hv]] := parseredirs_text [] (S (length (skipws t))) [] t ltac:(constructor) Hd
      ltac:(right; case: W HWne HW @t {IH Hf Hd Hm} => [//|w' W] _ /list.Forall_cons [Hw' _] t;
            exists w', (concat (pword <$> W) ++ concat (predir <$> R) ++ s); by rw /t /= -assoc) ltac:(simpl; lia).
    apply fmap_nil_inv in Hv. subst rs. rw app_nil_l in E. rw E. cbn [pbind]. rw parseargs_skipws.
    have [A [rs [-> [HA HR']]]] := IH fuel (args ++ [(w ++ t, t)]) HW HWne
      ltac:(rw length_app /=; simpl in Hm; lia) ltac:(rw -/t; rw /pword /= length_app in Hf; lia).
    exists ((w ++ t, t) :: A), rs. rw -assoc. split_and! => //. by rw fmap_cons word_tok HA.
Qed.

#[local] Opaque parseredirs parseargs parseamps.
#[local] Transparent Nat.leb.

(** *** The four levels *)

Definition parses (r : nat → pres cmd) (c : scmd) (s : list Z) : Prop :=
  ∃ fuel c', r fuel = Ok c' (skipws s) ∧ strings word c' = c.

Definition amp : Z := 38.

(** The commands in the background of [k] [&]. *)
Definition backs (k : nat) (c : scmd) : scmd := Nat.iter k SBack c.

(** What [parseline] does before it looks for [;]. *)
Definition parseback (fuel : nat) (s : list Z) : pres cmd :=
  pbind (parsepipe fuel s) (λ c s, parseamps (S (length s)) c s).

Definition exec_level (c : scmd) : Prop := ∀ R s,
  Forall sredir_ok R → stop [124; 41; 38; 59] s →
  parses (λ n, parseexec n (pr 0 c ++ concat (predir <$> R) ++ s)) (swrap c R) s.
Definition pipe_level (c : scmd) : Prop := ∀ s, stop [41; 38; 59] s →
  parses (λ n, parsepipe n (pr 1 c ++ s)) c s.
Definition back_level (c : scmd) : Prop := ∀ k s, stop [41; 59] s →
  parses (λ n, parseback n (pr 2 c ++ replicate k amp ++ s)) (backs k c) s.
Definition line_level (c : scmd) : Prop := ∀ s, stop [41] s →
  parses (λ n, parseline n (pr 3 c ++ s)) c s.

Lemma exec_exec (argv : list (list Z)) :
  writable (SExec argv) → exec_level (SExec argv).
Proof.
  move=> [Hw Hl] R s HR Hs.
  have Hds : delim s by (apply (stop_delim [124; 41; 38; 59]) => //; rw /symbols; set_solver).
  exists 1%nat. rw /pr. case: (decide (argv = [])) => [->|Hne].
  - cbn [fmap list_fmap concat app parseexec]. set t := concat _ ++ s.
    have -> : peek t [40] = (false, skipws t).
    { rw /t. case: (R) => [|r R'] /=; first by rw (peek_stop _ _ _ Hs) //; set_solver by lia.
      rw -assoc /predir. by case: (_ =? _). }
    rw parseredirs_skipws. have [rs [-> Hv]] := parseredirs_text R (S (length (skipws t))) [] s HR Hds
      (or_introl Hs) ltac:(rw -/t; lia). cbn [pbind app].
    rw parseargs_skipws parseargs_stop //. eexists. split => //. by rw strings_wrap Hv.
  - cbn [parseexec]. set t := concat (predir <$> R) ++ s.
    have Hr : ∃ w s', isword w ∧ concat (pword <$> argv) ++ t = pword w ++ s'.
    { case: argv Hne Hw {Hl} => [//|w W] _ /list.Forall_cons [Hw _]. eexists w, _. by rw /= -assoc. }
    move: (Hr) => [w [s' [Hw' E]]].
    have Hp : peek (concat (pword <$> argv) ++ t) [40] = (false, skipws (concat (pword <$> argv) ++ t)).
    { rw E peek_word //; first (rw /symbols; set_solver). by rw skipws_sp word_skipws. }
    rw Hp parseredirs_skipws.
    set u := concat (pword <$> argv) ++ t in E Hr |- *.
    have [rs [E1 Hv]] := parseredirs_text [] (S (length (skipws u))) [] u ltac:(constructor)
      ltac:(rw E; by left) (or_intror Hr) ltac:(simpl; lia).
    apply fmap_nil_inv in Hv. subst rs. rw app_nil_l in E1. rw E1. cbn [pbind]. rw parseargs_skipws.
    have [A [rs [-> [HA HR']]]] := parseargs_text argv R (S (length (skipws u))) [] s Hne Hw HR Hs Hl
      ltac:(rw -/t -/u E skipws_sp word_skipws // /=; lia).
    eexists. split => //. by rw strings_wrap /= HA HR'.
Qed.

Lemma exec_redir (c : scmd) f m fd :
  sredir_ok (f, m, fd) → exec_level c → exec_level (SRedir c f m fd).
Proof.
  move=> Hr Hc R s HR Hs. have := Hc ((f, m, fd) :: R) s ltac:(by constructor) Hs.
  by cbn [pr fmap list_fmap concat]; rw -!assoc.
Qed.

(** A command in parentheses. *)
Lemma exec_block (c : scmd) : pr 0 c = paren true (pr 3 c) → line_level c → exec_level c.
Proof.
  move=> E Hc R s HR Hs. rw E /paren /=.
  have Hds : delim s by (apply (stop_delim [124; 41; 38; 59]) => //; rw /symbols; set_solver).
  set t := concat (predir <$> R) ++ s. rw -assoc /=.
  have [fuel [c' [Hl Hv]]] := Hc (41 :: t) ltac:(apply stop_sym; rw /symbols; set_solver).
  have [rs [Hr Hrv]] := parseredirs_text R (S (length (skipws t))) [] s HR Hds (or_introl Hs) ltac:(rw -/t; lia).
  exists (S (S fuel)), (wrap c' rs). split; last by rw strings_wrap Hv Hrv.
  cbn [parseexec parseblock]. rw !peek_sym; try (rw /symbols; set_solver).
  rw bool_decide_eq_true_2; first set_solver. cbn [negb].
  have [_ ->] := gettoken_sym 40 (pr 3 c ++ 41 :: t) ltac:(set_solver).
  have [-> _] := parse_skipws fuel (pr 3 c ++ 41 :: t). rw Hl. cbn [pbind].
  rw peek_skipws peek_sym; first (rw /symbols; set_solver).
  rw bool_decide_eq_true_2; first set_solver. cbn [negb].
  have [_ ->] := gettoken_sym 41 t ltac:(set_solver).
  by rw parseredirs_skipws Hr.
Qed.

Lemma ok_more {A} (r r' : pres A) (a : A) (s : list Z) : more r r' → r = Ok a s → r' = Ok a s.
Proof. by move=> [->|->]. Qed.

Lemma peek_is (c : Z) (s ts : list Z) : c ∈ symbols → c ∈ ts → peek (c :: s) ts = (true, c :: s).
Proof. move=> Hs Hc. by rw peek_sym // bool_decide_eq_true_2. Qed.

Lemma pipe_exec (c : scmd) : pr 1 c = pr 0 c → exec_level c → pipe_level c.
Proof.
  move=> E Hc s Hs.
  have [fuel [c' [He Hv]]] := Hc [] s ltac:(constructor) ltac:(apply (stop_mono [41; 38; 59]) => //; set_solver).
  exists (S fuel), c'. split; last done.
  cbn [parsepipe]. cbn [fmap list_fmap concat app] in He. rw E He. cbn [pbind].
  rw peek_skipws (peek_stop _ _ _ Hs) //. set_solver by lia.
Qed.

Lemma pipe_pipe (l r : scmd) : exec_level l → pipe_level r → pipe_level (SPipe l r).
Proof.
  move=> Hl Hr s Hs.
  have [f1 [l' [El Hvl]]] := Hl [] (124 :: pr 1 r ++ s) ltac:(constructor)
    ltac:(apply stop_sym; rw ?/symbols; set_solver).
  have [f2 [r' [Er Hvr]]] := Hr s Hs.
  have [_ [_ [M1 _]]] := parse_mono f1 (Nat.max f1 f2) ltac:(lia).
  have [_ [M2 _]] := parse_mono f2 (Nat.max f1 f2) ltac:(lia).
  exists (S (Nat.max f1 f2)), (Pipe l' r'). split; last by rw /= Hvl Hvr.
  cbn [fmap list_fmap concat app] in El. cbn [parsepipe pr]. rw /paren /= -assoc /=.
  rw (ok_more _ _ _ _ (M1 _) El). cbn [pbind].
  rw peek_skipws peek_is; try (rw ?/symbols; set_solver).
  have [_ ->] := gettoken_sym 124 (pr 1 r ++ s) ltac:(set_solver).
  have [_ [-> _]] := parse_skipws (Nat.max f1 f2) (pr 1 r ++ s).
  by rw (ok_more _ _ _ _ (M2 _) Er).
Qed.

#[local] Transparent parseamps.

Lemma parseamps_text (k fuel : nat) (c : cmd) (s : list Z) :
  stop [41; 59] s → (length (skipws (replicate k amp ++ s)) < fuel)%nat →
  parseamps fuel c (replicate k amp ++ s) = Ok (Nat.iter k Back c) (skipws s).
Proof.
  elim: k fuel c => [|k IH] [|fuel] c Hs; try lia.
  - move=> _ /=. rw (peek_stop _ _ _ Hs) //. set_solver by lia.
  - move=> Hf. cbn [replicate app parseamps] in Hf |- *.
    rw peek_is; try (rw ?/symbols; set_solver).
    have [_ ->] := gettoken_sym 38 (replicate k amp ++ s) ltac:(set_solver).
    have Hsk : parseamps fuel (Back c) (skipws (replicate k amp ++ s)) =
      parseamps fuel (Back c) (replicate k amp ++ s).
    { case: (fuel) => [//|f] /=. by rw peek_skipws. }
    rw Hsk IH //; last by rw Nat.iter_succ_r.
    have := skipws_length (replicate k amp ++ s). rw skipws_no // /= in Hf. lia.
Qed.

Lemma parseamps_skipws (fuel : nat) c (s : list Z) : parseamps fuel c (skipws s) = parseamps fuel c s.
Proof. case: fuel => [//|f] /=. by rw peek_skipws. Qed.

#[local] Opaque parseamps.

Lemma strings_backs (k : nat) (c : cmd) : strings word (Nat.iter k Back c) = backs k (strings word c).
Proof. elim: k => [//|k IH] /=. by rw IH. Qed.

Lemma back_pipe (c : scmd) : pr 2 c = pr 1 c → pipe_level c → back_level c.
Proof.
  move=> E Hc k s Hs.
  have [fuel [c' [Hp Hv]]] := Hc (replicate k amp ++ s)
    ltac:(case: k => [|k]; [by apply (stop_mono [41; 59]) => //; set_solver|
          apply stop_sym; rw ?/symbols; set_solver]).
  exists fuel, (Nat.iter k Back c'). split; last by rw strings_backs Hv.
  rw /parseback E Hp. cbn [pbind]. rw parseamps_skipws parseamps_text //. lia.
Qed.

Lemma back_back (c : scmd) : back_level c → back_level (SBack c).
Proof.
  move=> Hc k s Hs. have := Hc (S k) s Hs.
  cbn [pr]. rw /paren /= -assoc /=. by rw /backs -Nat.iter_succ_r.
Qed.

Lemma line_back (c : scmd) : pr 3 c = pr 2 c → back_level c → line_level c.
Proof.
  move=> E Hc s Hs.
  have [fuel [c' [Hp Hv]]] := Hc 0%nat s ltac:(apply (stop_mono [41]) => //; set_solver).
  exists (S fuel), c'. split; last done. rw /parseback /= -E in Hp.
  cbn [parseline]. case Ep: (parsepipe fuel _) Hp => [c0 s0|m|] //= Hp. rw Hp /=.
  rw peek_skipws (peek_stop _ _ _ Hs) //. set_solver by lia.
Qed.

Lemma line_list (l r : scmd) : back_level l → line_level r → line_level (SList l r).
Proof.
  move=> Hl Hr s Hs.
  have [f1 [l' [El Hvl]]] := Hl 0%nat (59 :: pr 3 r ++ s)
    ltac:(apply stop_sym; rw ?/symbols; set_solver).
  have [f2 [r' [Er Hvr]]] := Hr s Hs.
  have [_ [M1 _]] := parse_mono f1 (Nat.max f1 f2) ltac:(lia).
  have [M2 _] := parse_mono f2 (Nat.max f1 f2) ltac:(lia).
  exists (S (Nat.max f1 f2)), (List l' r'). split; last by rw /= Hvl Hvr.
  cbn [replicate app] in El. cbn [parseline pr]. rw /paren /= -assoc /=. rw /parseback in El.
  case Ep: (parsepipe f1 _) El => [c0 s0|m|] //= El.
  rw (ok_more _ _ _ _ (M1 _) Ep) /= El. cbn [pbind].
  rw ?peek_skipws peek_is; try (rw ?/symbols; set_solver).
  have [_ ->] := gettoken_sym 59 (pr 3 r ++ s) ltac:(set_solver).
  have [-> _] := parse_skipws (Nat.max f1 f2) (pr 3 r ++ s).
  by rw (ok_more _ _ _ _ (M2 _) Er).
Qed.

Lemma levels (c : scmd) :
  writable c → exec_level c ∧ pipe_level c ∧ back_level c ∧ line_level c.
Proof.
  elim: c => [argv|c IH f m fd|l IHl r IHr|l IHl r IHr|c IH] /=.
  - move=> Hw. have L0 : exec_level (SExec argv) by exact: exec_exec.
    have L1 := pipe_exec (SExec argv) eq_refl L0. have L2 := back_pipe (SExec argv) eq_refl L1.
    by split_and!; last apply line_back.
  - move=> [/IH [L _] Hr]. have L0 := exec_redir c f m fd Hr L.
    have L1 := pipe_exec (SRedir c f m fd) eq_refl L0. have L2 := back_pipe (SRedir c f m fd) eq_refl L1.
    by split_and!; last apply line_back.
  - move=> [/IHl [Ll _] /IHr [_ [Lr _]]]. have L1 := pipe_pipe l r Ll Lr.
    have L2 := back_pipe (SPipe l r) eq_refl L1. have L3 := line_back (SPipe l r) eq_refl L2.
    by split_and!; first apply exec_block.
  - move=> [/IHl [_ [_ [Ll _]]] /IHr [_ [_ [_ Lr]]]]. have L3 := line_list l r Ll Lr.
    have L0 := exec_block (SList l r) eq_refl L3. have L1 := pipe_exec (SList l r) eq_refl L0.
    by split_and!; last done; first done; last apply back_pipe.
  - move=> /IH [_ [_ [L _]]]. have L2 := back_back c L. have L3 := line_back (SBack c) eq_refl L2.
    have L0 := exec_block (SBack c) eq_refl L3. by split_and!; last done; last done; last apply pipe_exec.
Qed.

Lemma word_nz (w : list Z) : isword w → Forall (λ c, c ≠ 0) w.
Proof. move=> [_ H]. apply (list.Forall_impl wordc) => // c [_ [_ ?]]. done. Qed.

Lemma predir_nz (r : sredir) : sredir_ok r → Forall (λ c, c ≠ 0) (predir r).
Proof. move=> [/word_nz H _]. rw /predir. by case: (_ =? _); repeat constructor. Qed.

Lemma paren_nz (b : bool) (l : list Z) : Forall (λ c, c ≠ 0) l → Forall (λ c, c ≠ 0) (paren b l).
Proof.
  case: b => //= H. constructor => //. apply list.Forall_app. split => //. by repeat constructor.
Qed.

Lemma pr_nz (c : scmd) (lvl : nat) : writable c → Forall (λ c, c ≠ 0) (pr lvl c).
Proof.
  elim: c lvl => [argv|c IH f m fd|l IHl r IHr|l IHl r IHr|c IH] lvl; cbn [writable pr].
  - move=> [H _]. elim: argv H => [|w W IH] /=; first by constructor.
    move=> /list.Forall_cons [/word_nz Hw /IH HW]. constructor => //. apply list.Forall_app. by split.
  - move=> [/IH H /predir_nz Hr]. apply list.Forall_app. by split.
  - move=> [/IHl Hl /IHr Hr]. apply paren_nz, list.Forall_app. split => //. by constructor.
  - move=> [/IHl Hl /IHr Hr]. apply paren_nz, list.Forall_app. split => //. by constructor.
  - move=> /IH H. apply paren_nz, list.Forall_app. split => //. by repeat constructor.
Qed.

Lemma blanks_skipws (s : list Z) : Forall (λ c, ws c = true) s → skipws s = [].
Proof. elim: s => [//|c s IH] /= /list.Forall_cons [-> /IH]. done. Qed.

Lemma parsetree_text (c : scmd) (s : list Z) :
  writable c → Forall (λ c, ws c = true) s →
  ∃ c', parsetree (pr 3 c ++ s) = Ok c' [] ∧ strings word c' = c.
Proof.
  move=> /levels [_ [_ [_ L]]] /blanks_skipws Hs.
  have [fuel [c' [E Hv]]] := L s ltac:(by rw /stop Hs). rw Hs in E.
  exists c'. split => //. rw /parsetree (parseline_fuel fuel _ _ E) //.
Qed.

Lemma blanks_nz (s : list Z) : Forall (λ c, ws c = true) s → Forall (λ c, c ≠ 0) s.
Proof. move=> H. apply (list.Forall_impl (λ c, ws c = true)) => // c Hc E. by rw E in Hc. Qed.

Lemma parsecmd_text (c : scmd) (s : list Z) :
  writable c → Forall (λ c, ws c = true) s → parsecmd (pr 3 c ++ s) = Ok c [].
Proof.
  move=> Hc Hs. have [c' [E Hv]] := parsetree_text c s Hc Hs.
  rw (parsecmd_words _ _ _ _ E) ?Hv //. apply list.Forall_app. split; [by apply pr_nz|by apply blanks_nz].
Qed.

(** A token of a line without NULs is a word. *)
Lemma tok_ok_word (line : list Z) (t : tok) :
  Forall (λ c, c ≠ 0) line → tok_ok line t → isword (word t).
Proof.
  move=> Hnz [[k Hk] [w [Hne [Hw [Hwc _]]]]].
  have -> : word t = w by rw /word Hw length_app take_app_length' //; lia.
  split => //. move: Hnz. rw Hk Hw => /list.Forall_app [_ /list.Forall_app [Hnz _]].
  apply list.Forall_forall => c Hc. move: (proj1 (list.Forall_forall _ _) Hwc c Hc) => [H1 H2].
  split_and! => //. exact: (proj1 (list.Forall_forall _ _) Hnz c Hc).
Qed.

Lemma cmd_ok_writable (line : list Z) (c : cmd) :
  Forall (λ c, c ≠ 0) line → cmd_ok line c → writable (strings word c).
Proof.
  move=> Hnz. have Hw t := tok_ok_word line t Hnz.
  elim: c => [argv|c IH f m fd|l IHl r IHr|l IHl r IHr|c IH] //=.
  - move=> [Ha Hl]. split; last by rw length_fmap.
    apply list.Forall_fmap. apply (list.Forall_impl (tok_ok line)) => //.
  - move=> [/IH H [Hf Hm]]. split_and! => //. by split; [apply Hw|].
  - by move=> [/IHl ? /IHr].
  - by move=> [/IHl ? /IHr].
Qed.

Lemma parsecmd_writable (line : list Z) (c : scmd) (s : list Z) :
  Forall (λ c, c ≠ 0) line → parsecmd line = Ok c s → writable c ∧ s = [].
Proof.
  move=> Hnz. case E: (parsetree line) => [t s'|m|]; last 2 first.
  - by rw /parsecmd E.
  - by rw /parsecmd E.
  - rw (parsecmd_words _ _ _ Hnz E) => [[<- <-]]. split => //.
    apply (cmd_ok_writable line) => //. by have [] := parsetree_made _ _ _ E.
Qed.

(** C35: the parser ends on every line, with a command or a message; the bound
    on its recursion is never reached. *)
Theorem parsecmd_terminates (line : list Z) : parsecmd line ≠ Fuel.
Proof.
  have := parseline_ends line. rw /parsecmd /parsetree.
  case: (parseline _ _) => [c s|m|] //= _. by case: (peek s []).2.
Qed.

(** What the parser accepts: on a line without NULs the command it returns
    has fewer than [MAXARGS] arguments everywhere, non-empty words without
    blanks and symbols, and redirections only of descriptors 0 and 1. *)
Theorem parsecmd_accepts (line : list Z) (c : scmd) (s : list Z) :
  Forall (λ c, c ≠ 0) line → parsecmd line = Ok c s → writable c ∧ s = [].
Proof. exact: parsecmd_writable. Qed.

(** C33: every command the shell can express is parsed back from its text, with
    its words cut out of the line in place, whatever blanks end the line. *)
Theorem print_parse (c : scmd) (s : list Z) :
  writable c → Forall (λ c, ws c = true) s → parsecmd (pr 3 c ++ s) = Ok c [].
Proof. exact: parsecmd_text. Qed.

(** ** The file descriptors of a command *)

(** What a descriptor refers to. *)
Inductive desc :=
| Given (n : Z)                       (** open when the shell started *)
| File (name : list Z) (mode : Z)
| ReadEnd (pipe : nat)
| WriteEnd (pipe : nat).

Definition NOFILE : Z := 16.

(** [fdalloc]: the lowest free descriptor. *)
Definition fdalloc (T : gmap Z desc) : option Z :=
  List.find (λ fd, bool_decide (T !! fd = None)) (seqZ 0 NOFILE).

Section descriptors.
(** The files that can be opened. *)
Context (opens : list Z → Z → bool).

(** The programs started, each with its descriptors, when there are processes
    to fork and [exec] succeeds; [np] numbers the pipes. *)
Fixpoint started (p : prog) (T : gmap Z desc) (np : nat) :
    list (list (list Z) * gmap Z desc) * nat :=
  match p with
  | PExit => ([], np)
  | PPanic _ => ([], np)
  | PExec argv _ => ([(argv, T)], np)
  | PClose fd k => started k (delete fd T) np
  | PDup fd k =>
    match T !! fd, fdalloc T with
    | Some d, Some fd' => started k (<[fd' := d]> T) np
    | _, _ => started k T np
    end
  | POpen file mode bad k =>
    match fdalloc T with
    | Some fd => if opens file mode then started k (<[fd := File file mode]> T) np else started bad T np
    | None => started bad T np
    end
  | PPipe bad k =>
    match fdalloc T with
    | Some fd0 =>
      let T0 := <[fd0 := ReadEnd np]> T in
      match fdalloc T0 with
      | Some fd1 => started (k fd0 fd1) (<[fd1 := WriteEnd np]> T0) (S np)
      | None => started bad T np
      end
    | None => started bad T np
    end
  | PFork _ child parent =>
    let (l, np) := started child T np in
    let (l', np) := started parent T np in
    (l ++ l', np)
  | PWait k => started k T np
  | PMsg _ _ k => started k T np
  end.

(** The meaning of a command: every program with the descriptors of the shell,
    but for its redirections and its ends of pipes. *)
Fixpoint meaning (c : scmd) (T : gmap Z desc) (np : nat) :
    list (list (list Z) * gmap Z desc) * nat :=
  match c with
  | SExec [] => ([], np)
  | SExec argv => ([(argv, T)], np)
  | SRedir c file mode fd =>
    if opens file mode then meaning c (<[fd := File file mode]> T) np else ([], np)
  | SPipe l r =>
    let (a, n1) := meaning l (<[1 := WriteEnd np]> T) (S np) in
    let (b, n2) := meaning r (<[0 := ReadEnd np]> T) n1 in
    (a ++ b, n2)
  | SList l r =>
    let (a, n1) := meaning l T np in
    let (b, n2) := meaning r T n1 in
    (a ++ b, n2)
  | SBack c => meaning c T np
  end.

(** Descriptors 0 and 1 are open, and there are two more to be had. *)
Definition ready (T : gmap Z desc) : Prop :=
  is_Some (T !! 0) ∧ is_Some (T !! 1) ∧
  ∃ p q, p ≠ q ∧ p ∈ seqZ 0 NOFILE ∧ q ∈ seqZ 0 NOFILE ∧ T !! p = None ∧ T !! q = None.

Lemma fdalloc_Some (T : gmap Z desc) (fd : Z) :
  fdalloc T = Some fd → T !! fd = None.
Proof. intros [_ H%bool_decide_eq_true]%List.find_some. done. Qed.

Lemma fdalloc_free (T : gmap Z desc) (p : Z) :
  p ∈ seqZ 0 NOFILE → T !! p = None → is_Some (fdalloc T).
Proof.
  move=> Hp HT. case E: (fdalloc T) => [fd|]; first done.
  apply list_elem_of_In in Hp. have := List.find_none _ _ E p Hp. by rw bool_decide_eq_true_2.
Qed.

Lemma fdalloc_first (T : gmap Z desc) : T !! 0 = None → fdalloc T = Some 0.
Proof. move=> H. rw /fdalloc /NOFILE /=. by rw bool_decide_eq_true_2. Qed.

Lemma fdalloc_second (T : gmap Z desc) :
  is_Some (T !! 0) → T !! 1 = None → fdalloc T = Some 1.
Proof.
  move=> [d H0] H1. rw /fdalloc /NOFILE /=.
  rw bool_decide_eq_false_2; first by rw H0. by rw bool_decide_eq_true_2.
Qed.

Lemma fdalloc_redir (T : gmap Z desc) (fd : Z) :
  ready T → fd = 0 ∨ fd = 1 → fdalloc (delete fd T) = Some fd.
Proof.
  move=> [H0 [H1 _]] [->|->].
  - apply fdalloc_first. by rw lookup_delete_eq.
  - apply fdalloc_second; last by rw lookup_delete_eq. by rw lookup_delete_ne.
Qed.

Lemma ready_insert (T : gmap Z desc) (fd : Z) (d : desc) :
  fd = 0 ∨ fd = 1 → ready T → ready (<[fd := d]> T).
Proof.
  move=> Hfd [H0 [H1 [p [q [Hpq [Hp [Hq [HTp HTq]]]]]]]].
  have Hnp : fd ≠ p by move=> E; subst; case: Hfd => E; subst; rw HTp in H0 H1; [case: H0|case: H1].
  have Hnq : fd ≠ q by move=> E; subst; case: Hfd => E; subst; rw HTq in H0 H1; [case: H0|case: H1].
  split_and!.
  - case: (decide (fd = 0)) => [->|?]; by rw ?lookup_insert_eq ?lookup_insert_ne.
  - case: (decide (fd = 1)) => [->|?]; by rw ?lookup_insert_eq ?lookup_insert_ne.
  - exists p, q. by rw !lookup_insert_ne.
Qed.

(** The two descriptors of a pipe. *)
Lemma ready_pipe (T : gmap Z desc) (np : nat) :
  ready T → ∃ r w, fdalloc T = Some r ∧ fdalloc (<[r := ReadEnd np]> T) = Some w ∧
    r ≠ w ∧ r ≠ 0 ∧ r ≠ 1 ∧ w ≠ 0 ∧ w ≠ 1 ∧ T !! r = None ∧ T !! w = None.
Proof.
  move=> [H0 [H1 [p [q [Hpq [Hp [Hq [HTp HTq]]]]]]]].
  have [r Hr] := fdalloc_free T p Hp HTp. have HTr := fdalloc_Some _ _ Hr.
  have [w Hw] : is_Some (fdalloc (<[r := ReadEnd np]> T)).
  { case: (decide (r = p)) => [->|?].
    - apply (fdalloc_free _ q) => //. by rw lookup_insert_ne.
    - apply (fdalloc_free _ p) => //. by rw lookup_insert_ne. }
  have := fdalloc_Some _ _ Hw. case: (decide (r = w)) => [->|Hrw]; first by rw lookup_insert_eq.
  rw lookup_insert_ne // => HTw. exists r, w.
  split_and! => // E; subst; rw ?HTr ?HTw in H0 H1; by (case: H0 || case: H1).
Qed.

(** One end of the pipe is moved to [fd], and both ends are closed. *)
Lemma moved_end (T : gmap Z desc) (fd r w : Z) (e d d' : desc) :
  T !! r = None → T !! w = None → r ≠ w → fd ≠ r → fd ≠ w →
  delete w (delete r (<[fd := e]> (delete fd (<[w := d']> (<[r := d]> T))))) = <[fd := e]> T.
Proof.
  move=> Hr Hw Hrw Hfr Hfw. apply map_eq => i.
  rw !(lookup_delete, lookup_insert). repeat case_decide; simplify_eq; congruence.
Qed.

Lemma runcmd_started (c : scmd) (T : gmap Z desc) (np : nat) :
  writable c → ready T → started (runcmd c) T np = meaning c T np.
Proof.
  elim: c T np => [[|a argv]|c IH f m fd|l IHl r IHr|l IHl r IHr|c IH] T np //=.
  - move=> [Hc [_ Hfd]] HT. have {}Hfd : fd = 0 ∨ fd = 1 by simpl in Hfd; tauto.
    rw fdalloc_redir //. case: (opens f m) => //. rw insert_delete_eq IH //. by apply ready_insert.
  - move=> [Hl Hr] HT. have [r0 [w [Er [Ew [Hrw [Hr0 [Hr1 [Hw0 [Hw1 [HTr HTw]]]]]]]]]] := ready_pipe T np HT.
    rw Er Ew. set T2 := <[w := WriteEnd np]> (<[r0 := ReadEnd np]> T).
    have HT20 : is_Some (T2 !! 0) by rw /T2 !lookup_insert_ne //; apply HT.
    rw (lookup_delete_ne T2 1 w) // (lookup_insert_eq _ w) fdalloc_second;
      [by rw lookup_delete_ne|by rw lookup_delete_eq|].
    rw (lookup_delete_ne T2 0 r0) // (lookup_insert_ne _ w r0) // lookup_insert_eq.
    rw fdalloc_first; first by rw lookup_delete_eq.
    rw !moved_end // IHl //; first by (apply ready_insert; auto).
    case: (meaning l _ _) => [a n1]. rw IHr //; first by (apply ready_insert; auto).
    case: (meaning r _ _) => [b n2]. by rw app_nil_r.
  - move=> [Hl Hr] HT. rw IHl //. case: (meaning l _ _) => [a n1]. rw IHr //.
  - move=> Hc HT. rw IH //. case: (meaning c _ _) => [a n1]. by rw app_nil_r.
Qed.

(** C34: the programs of a parsed line run with the descriptors of the shell,
    changed only by their redirections and their ends of pipes: in [l | r] the
    output of [l] and the input of [r] are the ends of one new pipe, and no
    other copy of an end is left open in any of them. *)
Theorem runcmd_descriptors (line : list Z) (c : scmd) (s : list Z) (T : gmap Z desc) (np : nat) :
  Forall (λ c, c ≠ 0) line → parsecmd line = Ok c s → ready T →
  started (runcmd c) T np = meaning c T np.
Proof. move=> Hnz Hp. apply runcmd_started. by have [] := parsecmd_writable _ _ _ Hnz Hp. Qed.

End descriptors.

(** ** Lines *)

(** A line as it is typed: no NUL and no end of line inside, and short enough
    for the buffer with its newline. *)
Definition typed (l : list Z) : Prop :=
  Forall (λ c, c ≠ 0 ∧ c ≠ 10 ∧ c ≠ 13) l ∧ (length l + 1 < NBUF)%nat.

Lemma gets_line (l rest : list Z) (max : nat) :
  Forall (λ c, c ≠ 0 ∧ c ≠ 10 ∧ c ≠ 13) l → (length l + 1 < max)%nat →
  gets max (l ++ 10 :: rest) = (l ++ [10], rest).
Proof.
  elim: l max => [|c l IH] [|[|m]] Hl /= Hm; try lia; first done.
  move: Hl => /list.Forall_cons [[_ [/Z.eqb_neq -> /Z.eqb_neq ->]] Hl] /=.
  have := IH (S m) Hl ltac:(lia). by move=> /= ->.
Qed.

Lemma cstr_nz (l : list Z) : Forall (λ c, c ≠ 0) l → cstr l = l.
Proof. elim: l => [//|c l IH] /= /list.Forall_cons [/Z.eqb_neq -> /IH ->]. done. Qed.

Lemma getcmd_line (l rest : list Z) : typed l → getcmd (l ++ 10 :: rest) = Some (l ++ [10], rest).
Proof.
  move=> [Hl Hm]. rw /getcmd gets_line //.
  have Hnz : Forall (λ c, c ≠ 0) (l ++ [10]).
  { apply list.Forall_app. split; last by repeat constructor.
    by apply (list.Forall_impl (λ c, c ≠ 0 ∧ c ≠ 10 ∧ c ≠ 13)) => // c []. }
  rw (cstr_nz _ Hnz). case: l Hnz {Hl Hm} => [//|c l] /= /list.Forall_cons [/Z.eqb_neq -> _]. done.
Qed.

Definition lines (ls : list (list Z)) : list Z := concat ((λ l, l ++ [10]) <$> ls).

(** The shell takes its input line by line: for each line either the
    directory after [cd], without the newline, or the parsed command, up to the
    end of the input. *)
Theorem main_lines (ls : list (list Z)) (fuel : nat) :
  Forall typed ls → (length ls < fuel)%nat →
  main fuel (lines ls) = (λ l, command (l ++ [10])) <$> ls.
Proof.
  elim: ls fuel => [|l ls IH] [|fuel] //=; try lia.
  move=> /list.Forall_cons [Hl Hls] Hf. rw /lines /= -assoc getcmd_line //.
  f_equal. apply IH => //. lia.
Qed.

Definition nocd (l : list Z) : Prop := head l ≠ Some 99.

Lemma command_nocd (l : list Z) : nocd l → command l = Run (parsecmd l).
Proof. rw /nocd /command. case: l => [//|c l] /= H. repeat case_match => //; simplify_eq; congruence. Qed.

Lemma pr_nocd (c : scmd) (lvl : nat) (s : list Z) : nocd s → nocd (pr lvl c ++ s).
Proof.
  elim: c lvl s => [argv|c IH f m fd|l IHl r IHr|l IHl r IHr|c IH] lvl s Hs; cbn [pr].
  - by case: argv.
  - rw -assoc. apply IH. rw /predir /nocd /=. by case: (_ =? _).
  - rw /paren. case: (_ <? _)%nat => //. rw -assoc. by apply IHl.
  - rw /paren. case: (_ <? _)%nat => //. rw -assoc. by apply IHl.
  - rw /paren. case: (_ <? _)%nat => //. rw -assoc. by apply IH.
Qed.

(** A [cd] line changes to the directory it names, and the text of a
    command runs that command. *)
Theorem command_line (path : list Z) (c : scmd) :
  writable c → command ([99; 100; 32] ++ path ++ [10]) = Cd path ∧ command (pr 3 c ++ [10]) = Run (Ok c []).
Proof.
  move=> Hc. split.
  - rw /command. cbn [app]. f_equal.
    have -> : 99 :: 100 :: 32 :: path ++ [10] = ([99; 100; 32] ++ path) ++ [10] by [].
    rw take_app_length' //. rw !length_app /=. lia.
  - rw command_nocd; first by apply pr_nocd. rw parsecmd_text //. by repeat constructor.
Qed.

(** ** A command line *)

(** [cat <in | (grep x; wc) >out &] *)
Definition cmd0 : scmd :=
  SBack (SPipe (SRedir (SExec [[99; 97; 116]]) [105; 110] O_RDONLY 0)
    (SRedir (SList (SExec [[103; 114; 101; 112]; [120]]) (SExec [[119; 99]]))
      [111; 117; 116] (Z.lor O_WRONLY O_CREATE) 1)).

Lemma wordc_dec (w : list Z) :
  bool_decide (w ≠ []) && forallb (λ c, negb (ws c) && negb (sym c) && negb (c =? 0)) w = true → isword w.
Proof.
  move=> /andb_true_iff [/bool_decide_eq_true Hne /forallb_forall H]. split => //.
  apply list.Forall_forall => c /list_elem_of_In /H /andb_true_iff [/andb_true_iff [H1 H2] H3].
  split_and!; [by apply negb_true_iff|by apply negb_true_iff|by apply Z.eqb_neq, negb_true_iff].
Qed.

Lemma cmd0_writable : writable cmd0.
Proof.
  rw /cmd0 /= /sredir_ok /MAXARGS.
  split_and!; rw ?list.Forall_cons ?list.Forall_nil /=; split_and?; try (by apply wordc_dec; vm_compute); auto; lia.
Qed.

Definition fds0 : gmap Z desc := <[0 := Given 0]> (<[1 := Given 1]> (<[2 := Given 2]> ∅)).

Lemma fds0_ready : ready fds0.
Proof. split_and!; [by eexists..|]. exists 3, 4. split_and! => //; by apply elem_of_seqZ. Qed.

(** The theorem on the text of [cmd0]. *)
Lemma print_parse_witness : writable cmd0 ∧ parsecmd (pr 3 cmd0 ++ [10]) = Ok cmd0 [].
Proof. split; [exact cmd0_writable|apply print_parse; [exact cmd0_writable|by repeat constructor]]. Defined.

Lemma line0_nz : Forall (λ c, c ≠ 0) (pr 3 cmd0).
Proof. apply pr_nz, cmd0_writable. Qed.

Lemma parsecmd_accepts_witness : parsecmd (pr 3 cmd0) = Ok cmd0 [] ∧ writable cmd0 ∧ @nil Z = [].
Proof. split; [by vm_compute|]. apply (parsecmd_accepts (pr 3 cmd0)); [exact line0_nz|by vm_compute]. Defined.

Lemma runcmd_descriptors_witness :
  started (λ _ _, true) (runcmd cmd0) fds0 0 = meaning (λ _ _, true) cmd0 fds0 0 ∧
  length (started (λ _ _, true) (runcmd cmd0) fds0 0).1 = 3%nat.
Proof.
  split; [|by vm_compute].
  apply (runcmd_descriptors (λ _ _, true) (pr 3 cmd0) cmd0 []); [exact line0_nz|by vm_compute|exact fds0_ready].
Defined.

Lemma main_lines_witness :
  main 3 (lines [[99; 100; 32; 47]; pr 3 cmd0]) = [Cd [47]; Run (Ok cmd0 [])].
Proof.
  rewrite (main_lines [[99; 100; 32; 47]; pr 3 cmd0] 3);
    [|simpl; lia|by vm_compute].
  apply list.Forall_forall => l. rw !elem_of_cons elem_of_nil.
  case => [->|[->|//]]; (split; [|by apply Nat.ltb_lt; vm_compute]);
    by apply (bool_decide_unpack _); vm_compute.
Defined.
